(* ===== verification/_CoqProject ===== *)
-Q . S2P
Prelude.v
Ring.v
Types.v
Fifo.v
Mailbox.v
Vyukov.v
Warehouse.v
VyukovRace.v
Worker.v
Scheduler.v
SchedulerRun.v
RunWorker.v
ContextPool.v
OsMemory.v
Settings.v
Topology.v
Runtime.v
FreeList.v
Treiber.v
BufferCache.v
MpmcStack.v
Timer.v
ModelCheck.v
BoundedMpmc.v
WaitQueue.v
Mpsc.v
Broadcast.v
WaitList.v
Oneshot.v
Watch.v
Spsc.v
WakerSlot.v
Locks.v
Barrier.v
Handoff.v
Stream.v
StreamRace.v
SignalRegistry.v
SignalRace.v
BufIO.v
Machine.v
Symbolic.v
SwitchCode.v
ContextSwitch.v
FiberInit.v
FiberLife.v
Waiting.v
IoRequests.v
IoSlots.v
IoSlotsInv.v
IoSleep.v
MioReactor.v
SockAddr.v
FsRing.v
FsPort.v
Files.v
BlockingPool.v
Sockets.v
WinDriver.v
WinSockets.v
NamedPipes.v
Ffi.v
