(* ===== verification/Prelude.v ===== *)
(** * Verification of dtact

    dtact is a stackful fiber runtime for Rust and C (src/src/), with a
    companion library of timers, channels, locks and I/O (src/dtact-util/).
    This development models its core in the kernel's logic, as shallow
    embeddings: pure functions for code that one thread runs at a
    time, step functions over one shared state for code that threads
    run concurrently, access by access.  Theorems that are properties of the
    program carry a number C<n>; the rest are lemmas.

    This file is the vocabulary all others share: machine words, outcomes of
    code that can panic, tactics, hint databases and lemmas on lists.

    ** Parts and files

    Queues.
    - [Ring]: memory regions and ring buffers; [Fifo]: the class [FifoQueue] with
      its laws, against which the scheduler is proved; [Vyukov]: what the two
      rings with sequence numbers have in common.
    - [Mailbox]: [Mailbox] of dta_scheduler.rs, sequentially (C1) and with
      producer and consumer interleaved (C2).
    - [Warehouse]: [Warehouse] of dta_scheduler.rs (C3) and its back-off;
      [VyukovRace]: any number of producers and consumers on such a ring,
      interleaved (C4); [BoundedMpmc]: [BoundedMpmcQueue] of lockfree.rs (the lemma
      [mpmc_refines_bounded_fifo]), and what happens with a capacity of one.
    - [Spsc]: [SpscQueue] of lockfree.rs and its bulk operations.
    - [MpmcStack]: [MpmcStack] of lockfree.rs.

    Scheduler and runtime (dta_scheduler.rs, lib.rs, c_ffi.rs).
    - [Types]: chunks, fiber states, topology and affinity.
    - [Worker]: one worker's run queue, polling order and maintenance.
    - [Scheduler]: all workers, the mailbox matrix, the external mailboxes
      and the warehouse, over any queues that satisfy the laws of [Fifo];
      [SchedulerRun] instantiates them and proves that no task is lost or
      duplicated by any sequence of operations (C5) and what the two
      enqueue operations promise (C6 and the lemma [enqueue_pinned_reports]), and
      shows two cases where they do not do what they say.
    - [RunWorker]: the loop of a worker thread, [run_worker_static] with [dispatch_loop], for any
      program of the fibers (C7).
    - [Settings]: the arguments of the attribute macros (src/dtact-macros), the C configuration
      and the launch builder, and the settings they come to (C12).
    - [Topology]: [CpuLevel] and the topology detection of api.rs, its cache, and the core a host thread's
      fibers start on.
    - [Runtime]: the process: the global runtime, its start from Rust and from C, the worker threads,
      shutdown and the thresholds (C8, C9 and the lemma [one_thread_per_worker]).

    Memory.
    - [OsMemory]: memory from the operating system, for mailboxes and arena, and its release.
    - [ContextPool]: the arena of fiber contexts and stacks and its free list
      (memory_management.rs; C10, C11); [FreeList]: such a tagged free list
      under concurrency (C13); [Treiber]: [TreiberStack] and [BufferPool] of
      lockfree.rs; [BufferCache]: the allocator of I/O buffers over them, with a cache
      per thread (io/native.rs; C14).

    Wakers.
    - [WakerSlot]: [AtomicWakerSlot] and [OnceSlot] of lockfree.rs, interleaved;
      [Handoff]: the protocol of a waiting task and a notifying
      thread on a slot that is used more than once, to which the stream and
      the signal listeners are reduced.

    Context switch and fiber start.
    - [Machine]: registers, byte-addressed memory and the instructions that
      context_switch.rs uses on x86-64, AArch64 and RISC-V; [SwitchCode]: the 32
      routines of context_switch.rs, instruction by instruction; [Symbolic]: a symbolic
      execution of listings with a proof that it is sound; [ContextSwitch]: the round
      trip of a suspend and a resume (C15).
    - [FiberInit]: how the six launching functions of api.rs and c_ffi.rs
      initialise a context, and what the first switch into it does on each
      target (C16); fiber handles.

    Fiber life cycle.
    - [FiberLife]: the state word between [wait_pinned] and its wakers
      (future_bridge.rs), [fiber_entry_point] (api.rs), [dispatch_loop]
      (dta_scheduler.rs), [wake_fiber] (lib.rs) and [free_context], access by access
      (C17), and [dtact_await] of c_ffi.rs.
    - [Waiting]: [wait] and [wait_pinned] with their spin budget (C18), [yield_now], the wait for
      a free context in spawn, and [dtact_await] on a host thread (C19).

    Timers and synchronisation (src/dtact-util/src/timer, sync).
    - [Timer]: the timing wheel, its worker thread and the futures on it (C20).
    - [WaitQueue]: the waiter list of every primitive (C21).
    - [Locks]: [Mutex], [Semaphore], [RwLock], [OnceCell] and [Notify] as instances of
      one protocol, for any number of tasks, interleaved (C22).
    - [Barrier] (the lemma [barrier_releases_together]), [Mpsc] (C23), [Broadcast].
    - [WaitList]: the waiter list for interleaved models; [Oneshot] (C24) and [Watch]:
      the oneshot and watch channels over it.

    Streams, buffered I/O and signals (src/dtact-util/src/stream, io, signal).
    - [Stream]: the duplex pipe of stream/native.rs on the real ring, one call
      at a time (C25); [StreamRace]: one direction of it with its two ends interleaved.
    - [SignalRegistry]: the listeners of a signal and, around them, the handler, pipe and
      reader thread of a Unix process; [SignalRace]: one listener
      interleaved with its deliveries.
    - [BufIO]: [copy], [BufReader] and [BufWriter] of io/combinators.rs over any stream
      that keeps its contract, stated as classes with laws.

    I/O drivers (src/dtact-util/src/io/native.rs, fs, process).
    - [IoRequests]: the requests and the submission entries they become.
    - [IoSlots]: the futures, the slots of their operations, the queue of fibers that wait
      for a slot and the worker's loop with its completions, access by access, for any
      number of fibers; [IoSlotsInv] proves what holds of every execution (C26 to C28).
    - [IoSleep]: how the worker goes to sleep in the kernel and is woken (C29).
    - [MioReactor]: the readiness reactor of systems without io_uring.
    - [Sockets]: the TCP, UDP, Unix and FIFO types over the driver, with the descriptors they own (C30, C31);
      TCP streams are instances of the classes of [BufIO].
    - [SockAddr]: socket addresses to and from their bytes (C32, C33).
    - [WinDriver]: the driver on Windows, io/windows.rs: futures and slots, the worker with the structures it lends to
      Winsock, the completion port (C34).
    - [WinSockets]: the socket types and address converters of io/windows.rs; [NamedPipes]: io/named_pipe_windows.rs.
    - [FsRing]: the operations of the file ring of fs/uring_linux.rs, their slots and the worker's batches (C35);
      [FsPort]: those of the completion port of fs/iocp_windows.rs, which have the same slots and futures.
    - [Files]: the file handles of both, over the class of positional reads and writes (C36).
    - [BlockingPool]: the thread pool of process/native.rs, the pipe ends of a child and the
      file handle of fs/native.rs, for any interleaving (C37 and the lemma [blocking_pool_answers]).

    C interface of dtact-util (src/dtact-util/src/ffi).
    - [Ffi]: all its functions, with the handles, the thread's last error and the caller's buffers
      (C38 to C40).

    [ModelCheck] explores finite protocols: it turns a boolean check of all
    states reachable by a successor function into a theorem about every
    execution, and replays schedules.

    ** How the parts interact

    [Runtime] creates the pool and the scheduler from the settings of [Settings] and the memory of [OsMemory], and
    one thread for each worker.  A fiber is launched into a context of the pool ([ContextPool]) by one of the functions of
    [FiberInit], and handed to the scheduler by [wake_fiber].  [Scheduler]
    moves its index between run queues, mailboxes and the warehouse, through the laws of
    [Fifo] that [Mailbox] and [Warehouse] discharge.  A worker ([RunWorker])
    takes it out and switches to it ([ContextSwitch]); what it does
    with the state word when the fiber switches back, and what wakers do to the word meanwhile, is
    [FiberLife]; how the fiber's code waits is [Waiting].  The futures a fiber waits for are built on [WakerSlot]
    (timers, streams, signals), [WaitQueue] (locks and channels), which in
    turn stands on [BoundedMpmc] and [MpmcStack], the slots of an I/O driver ([IoSlots],
    [FsRing]) or the blocking pool ([BlockingPool]).  [Stream] stands on [Spsc]; [BufferCache] and the slots of the
    drivers stand on [Treiber]; [Sockets] and [WinSockets] stand on their drivers, [Files] on ring or port, and [BufIO] on any stream.  [Ffi] offers sockets, files,
    processes, signals, streams and timers to C.

    ** What the groups of theorems show

    Refinement of an abstract object (a bounded FIFO, a stack, a set of
    countdowns, a list of registrations, a closing channel, a pipe, one system call, a sequence of calls, a file): C1,
    C3, C11, C20, C21, C23, C25, C30, C36, C37.  Agreement of two ways to configure: C12.
    Safety of interleavings: C2, C4, C13, C17, C22, C24, C27.  Ownership of descriptors and handles:
    C31, C34, C38.  Progress, as the absence of stuck or unattended states: C7, C9, C19, C28, C29; as
    termination within explicit fuel or steps: C6, C18 and the lemma [blocking_pool_answers].  Conservation: C5, C8, C14, C26, C35.  Layout and bounds: C10, C40.
    Error reports: C39.  Well-formed results: C33.  Round trips: C15, C32.  Some
    theorems state behaviour that contradicts
    the code's own comments or documentation, or that its authors cannot
    have meant: parts of C20, and the lemmas
    [barrier_releases_together], [capacity_one_broken], [single_worker_strands_task], [pinned_task_is_deflected], [ping_pong_starves_mailboxes],
    [run_after_start_doubles_crews], [free_elsewhere_panics], [exit_loses_chunks], [waker_slot_loses_delivery],
    [ffi_launch_first_switch], [with_stack_first_switch], [fresh_fiber_unmasks_exceptions],
    [unguarded_state_breaks_life], [yield_now_never_switches], [second_wait_elsewhere_panics], [host_await_waits_for_another],
    [await_second_waiter_displaces_first], [sleep_tracks_the_hand],
    [wake_one_loses_wakeup], [notify_waiters_resolves_nothing], [stream_can_deadlock],
    [signal_reader_dies], [sl_can_miss_delivery], [failed_flush_repeats], [io_waiter_is_forgotten], [io_cancel_hits_another],
    [io_drop_race_breaks_slots], [io_slot_cancelled_twice], [win_cancellations_never_end], [io_cancel_can_be_missed], [mio_second_reader_displaces],
    [register_failure_leaks], [read_length_truncated], [connect_in_progress_fails], [unix_write_flag_is_never_set],
    [fs_worker_returns], [fs_dropped_heap_op_writes_freed_memory], [port_late_error_is_success],
    [port_dropped_heap_op_writes_freed_memory], [overlapping_reads_skip_bytes], [pipe_read_returns_anothers_result],
    [pipe_read_writes_freed_memory], [win_sockets_are_owned], [waits_starve_writes], [pipe_end_comes_back],
    [lookup_host_cuts_addresses] and [freeing_keeps_the_error].

    ** Conventions, bounds and fuel

    A [w]-bit word is a [Z] with its wrap-around written out; [usize] has 64
    bits.  Compare-exchange loops of code that runs alone take an explicit number of turns,
    of which one is used; the theorems say that the operation returns.
    Loops whose length depends on data have fuel computed from the data, and a lemma that it
    suffices; [drain_warehouse] and the hop loop have the source's own bounds (64
    turns, 256 hops).  The fuel of [RunWorker] bounds the fibers of one turn: C7 shows that one more
    than the run queue holds suffices there, [ping_pong_starves_mailboxes] that none does in general.  The fuel of
    [Ffi] bounds the polls of one blocking call: C38 says that a call returns if its future is ready within them,
    [block_on_ready] how many a future takes.  Interleaved models are
    sequentially consistent: they do not cover
    reorderings that the memory orderings of the source would permit.
    Finite protocols ([FiberLife], [WakerSlot], [Handoff]) are explored completely;
    [StreamRace] and [SignalRace] are mapped into [Handoff] for any capacity and any number of
    deliveries; [Locks], [Barrier], [VyukovRace], [FreeList], [Mailbox], [Oneshot], [Watch], [IoSlots],
    [IoSleep], [WinDriver], [FsRing], [BufferCache], [Runtime] and [BlockingPool] are proved by
    invariants for any number of threads.  A panic is the outcome [Panic], a failed [?] or
    rejected call an [Err].  System calls, the processor's identification instructions and, in [Ffi], the Rust operations
    behind the functions are parameters with their documented behaviour as named laws; each law is
    shown to hold of a concrete instance.

    ** Not modelled

    Weak memory; reclamation of stack nodes under concurrent pops; the
    data guarded by locks; [Semaphore::add_permits]; two
    tasks that use one end of a stream at once; the start-up of the I/O driver ([init_runtime]); peer credentials and
    the socket constructors that only call the standard library; the metadata of files and the path
    functions of fs and the builders of [DtactCommand], which forward to the standard library; the wrappers that
    [export_async] and [export_fiber] generate;
    how the socket driver of Windows sleeps and wakes; the
    tokio backends; the web site, benchmarks, examples, fuzzing targets and tests. *)

From stdpp Require Export base numbers list gmap relations.

#[global] Open Scope Z_scope.

(** ** Machine words

    An unsigned [w]-bit word is a [Z] in the range [0 .. 2^w - 1].  The wrap-around of the
    [wrapping_*] operations and of the [as] casts is written out. *)

Definition wrap (w x : Z) : Z := x `mod` 2 ^ w.
Definition wadd (w x y : Z) : Z := wrap w (x + y).
Definition wsub (w x y : Z) : Z := wrap w (x - y).
Definition wmul (w x y : Z) : Z := wrap w (x * y).
Definition sat_add (w x y : Z) : Z := Z.min (2 ^ w - 1) (x + y).
Definition sat_sub (x y : Z) : Z := Z.max 0 (x - y).

(** [usize as isize]: the two's-complement reading of a 64-bit word. *)
Definition cast_signed (x : Z) : Z := if x <? 2 ^ 63 then x else x - 2 ^ 64.

Definition U8_MAX : Z := 2 ^ 8 - 1.
Definition U16_MAX : Z := 2 ^ 16 - 1.
Definition U32_MAX : Z := 2 ^ 32 - 1.
Definition U64_MAX : Z := 2 ^ 64 - 1.
Definition USIZE_MAX : Z := U64_MAX.

Definition is_word (w x : Z) : Prop := 0 <= x < 2 ^ w.

(** [trailing_zeros] of a [w]-bit word ([w] for zero). *)
Fixpoint pos_trailing_zeros (p : positive) : Z :=
  match p with
  | xO q => 1 + pos_trailing_zeros q
  | _ => 0
  end.

Definition trailing_zeros (w x : Z) : Z :=
  match x with
  | Zpos p => pos_trailing_zeros p
  | _ => w
  end.

(** ** Outcomes of code that can panic or loop *)

Inductive outcome (A : Type) : Type :=
| Done (a : A)
| Panic
| OutOfFuel.
Arguments Done {A} a.
Arguments Panic {A}.
Arguments OutOfFuel {A}.

#[export] Instance outcome_ret : MRet outcome := @Done.
#[export] Instance outcome_bind : MBind outcome := fun A B f m =>
  match m with
  | Done a => f a
  | Panic => Panic
  | OutOfFuel => OutOfFuel
  end.

Definition outcome_state {A S} (m : outcome (A * S)) : option S :=
  match m with Done (_, s) => Some s | _ => None end.

Lemma outcome_bind_done {A B} (m : outcome A) (f : A -> outcome B) b :
  m ≫= f = Done b <-> exists a, m = Done a /\ f a = Done b.
Proof. destruct m; simpl; naive_solver. Qed.

(** The result of a method that hands its argument back on failure. *)
Inductive result (A E : Type) : Type :=
| Ok (a : A)
| Err (e : E).
Arguments Ok {A E} a.
Arguments Err {A E} e.

#[export] Instance result_eq_dec {A E} `{EqDecision A, EqDecision E} :
  EqDecision (result A E).
Proof. solve_decision. Defined.

(** The outcome of one poll of a future. *)
Inductive Poll (A : Type) : Type :=
| Ready (a : A)
| Pending.
Arguments Ready {A} a.
Arguments Pending {A}.

(** ** Tactics and hint databases *)

Create HintDb word discriminated.
Create HintDb ring discriminated.

(** Turn boolean comparisons of the code into propositions. *)
Ltac bool_prop :=
  repeat match goal with
  | H : (_ && _)%bool = true |- _ => apply andb_true_iff in H as [? ?]
  | H : (_ && _)%bool = false |- _ => apply andb_false_iff in H
  | H : (_ || _)%bool = true |- _ => apply orb_true_iff in H
  | H : (_ || _)%bool = false |- _ => apply orb_false_iff in H as [? ?]
  | H : negb _ = true |- _ => apply negb_true_iff in H
  | H : negb _ = false |- _ => apply negb_false_iff in H
  | H : (_ =? _)%Z = true |- _ => apply Z.eqb_eq in H
  | H : (_ =? _)%Z = false |- _ => apply Z.eqb_neq in H
  | H : (_ <? _)%Z = true |- _ => apply Z.ltb_lt in H
  | H : (_ <? _)%Z = false |- _ => apply Z.ltb_ge in H
  | H : (_ <=? _)%Z = true |- _ => apply Z.leb_le in H
  | H : (_ <=? _)%Z = false |- _ => apply Z.leb_gt in H
  | H : bool_decide _ = true |- _ => apply bool_decide_eq_true in H
  | H : bool_decide _ = false |- _ => apply bool_decide_eq_false in H
  end.

(** Case analysis on the innermost boolean test of the goal. *)
Ltac case_test :=
  match goal with
  | |- context [if ?b then _ else _] =>
      lazymatch b with
      | context [if _ then _ else _] => fail
      | _ => let E := fresh "E" in destruct b eqn:E; bool_prop
      end
  end.

(** ** Word lemmas *)

Lemma wrap_small w x : 0 <= x < 2 ^ w -> wrap w x = x.
Proof. intros. unfold wrap. by apply Z.mod_small. Qed.

Lemma wrap_range w x : 0 <= w -> 0 <= wrap w x < 2 ^ w.
Proof. intros. unfold wrap. apply Z.mod_pos_bound. lia. Qed.

Lemma wrap_wrap w x : wrap w (wrap w x) = wrap w x.
Proof. unfold wrap. apply Zmod_mod. Qed.

Lemma wadd_small w x y : 0 <= x + y < 2 ^ w -> wadd w x y = x + y.
Proof. apply wrap_small. Qed.

Lemma wsub_small w x y : 0 <= x - y < 2 ^ w -> wsub w x y = x - y.
Proof. apply wrap_small. Qed.

#[export] Hint Resolve wrap_small wrap_range wadd_small wsub_small : word.

(** Masking with [2^k - 1] is the remainder modulo [2^k]. *)
Lemma land_mask k x : 0 <= k -> Z.land x (2 ^ k - 1) = x `mod` 2 ^ k.
Proof.
  intros. replace (2 ^ k - 1) with (Z.ones k) by (rewrite Z.ones_equiv; lia).
  by apply Z.land_ones.
Qed.

(** Masking with the complement of [2^k - 1] rounds down to a multiple of
    [2^k]. *)
Lemma land_lnot_mask k x : 0 <= k -> Z.land x (Z.lnot (2 ^ k - 1)) = x - x `mod` 2 ^ k.
Proof.
  intros. replace (2 ^ k - 1) with (Z.ones k) by (rewrite Z.ones_equiv; lia).
  rewrite <- Z.ldiff_land, Z.ldiff_ones_r, Z.shiftl_mul_pow2, Z.shiftr_div_pow2 by done.
  pose proof (Z.div_mod x (2 ^ k)). lia.
Qed.

Lemma mod_sub_pow2 w k x : 0 <= k <= w -> (x `mod` 2 ^ w) `mod` 2 ^ k = x `mod` 2 ^ k.
Proof.
  intros. apply Z.mod_mod_divide.
  exists (2 ^ (w - k)). rewrite <- Z.pow_add_r by lia. f_equal. lia.
Qed.

Lemma mod_add_r_sub a b c : 0 < c -> (a + b `mod` c) `mod` c = (a + b) `mod` c.
Proof. intros. rewrite Zplus_mod_idemp_r. done. Qed.

(** ** List lemmas *)

Lemma list_insert_delete_perm {A} (l : list A) i x y :
  l !! i = Some x -> Permutation (x :: <[i := y]> l) (y :: l).
Proof.
  intros H. pose proof (lookup_lt_Some _ _ _ H).
  rewrite (insert_take_drop _ i y) by done.
  rewrite <- (take_drop_middle l i x H) at 3.
  rewrite <- !Permutation_middle. apply perm_swap.
Qed.

(** Permutations of concatenations, by counting. *)
Lemma perm_by_count {A} `{EqDecision A} (l1 l2 : list A) :
  (forall x, count_occ (fun a b => decide (a = b)) l1 x = count_occ (fun a b => decide (a = b)) l2 x) -> l1 ≡ₚ l2.
Proof. apply Permutation_count_occ. Qed.

Ltac solve_perm :=
  apply perm_by_count; intros; rewrite ?count_occ_app; cbn [count_occ]; rewrite ?count_occ_app;
  repeat case_decide; lia.

Lemma lookup_alter_Some {A} (f : A -> A) (l : list A) i j y :
  alter f i l !! j = Some y <-> (i = j /\ exists x, l !! j = Some x /\ y = f x) \/ (i <> j /\ l !! j = Some y).
Proof.
  destruct (decide (i = j)) as [-> |].
  - rewrite list_lookup_alter_eq. destruct (l !! j); naive_solver.
  - rewrite list_lookup_alter_ne by done. naive_solver.
Qed.

(** Replacing one element changes a sum by the difference. *)
Lemma sum_insert {A} (f : A -> nat) (l : list A) i x y :
  l !! i = Some x -> (sum_list_with f (<[i := y]> l) + f x = sum_list_with f l + f y)%nat.
Proof.
  revert i; induction l as [|z l IH]; intros [|i] H; try done; simpl in *; [injection H as ->; lia|].
  specialize (IH i H). lia.
Qed.

Lemma sum_ge {A} (f : A -> nat) (l : list A) i x : l !! i = Some x -> (f x <= sum_list_with f l)%nat.
Proof.
  revert i; induction l as [|z l IH]; intros [|i] H; try done; simpl in *; [injection H as ->; lia|].
  specialize (IH i H). lia.
Qed.

Lemma take_insert_snoc {A} (l : list A) i x :
  (i < length l)%nat -> take (S i) (<[i := x]> l) = take i l ++ [x].
Proof.
  intros. rewrite (take_S_r _ i x) by (by apply list_lookup_insert_eq).
  by rewrite take_insert_ge.
Qed.

(** Replacing one element of a list changes what the list holds by what that
    element's share changes. *)
Lemma bind_insert_perm {A B} (f : A -> list B) l i x x' e1 e2 :
  l !! i = Some x -> e1 ++ f x' ≡ₚ e2 ++ f x ->
  e1 ++ (<[i := x']> l ≫= f) ≡ₚ e2 ++ (l ≫= f).
Proof.
  intros Hi E. pose proof (lookup_lt_Some _ _ _ Hi).
  rewrite insert_take_drop by done. rewrite <- (take_drop_middle l i x Hi) at 3.
  rewrite !bind_app. simpl.
  rewrite (Permutation_app_comm (take i l ≫= f)), (Permutation_app_comm (take i l ≫= f)).
  rewrite !app_assoc, E. done.
Qed.

(** A change inside a concatenation, seen from outside. *)
Lemma perm_frame {A} (e1 e2 a b x x' : list A) :
  e1 ++ x' ≡ₚ e2 ++ x -> e1 ++ (a ++ x' ++ b) ≡ₚ e2 ++ (a ++ x ++ b).
Proof.
  intros E. rewrite !(Permutation_app_swap_app _ a). rewrite !(app_assoc _ _ b), E. done.
Qed.

(** ** Reachability *)

Section reachability.
Context {A : Type} (init : A -> Prop) (step : A -> A -> Prop).

Definition reachable (s : A) : Prop := exists s0, init s0 /\ rtc step s0 s.

(** Rule induction for invariants. *)
Lemma invariant_reachable (I : A -> Prop) :
  (forall s, init s -> I s) ->
  (forall s s', I s -> step s s' -> I s') ->
  forall s, reachable s -> I s.
Proof.
  intros Hinit Hstep s (s0 & H0 & Hr). apply Hinit in H0.
  induction Hr; eauto.
Qed.
End reachability.
