(* ===== verification/Ring.v ===== *)
(** * Ring

    Memory regions and ring buffers.  A region is a finite map from cell
    index to contents; a cell never written reads as the region's filler
    (zero bytes for the anonymous mappings of [HugeBuffer]).  The lemmas relate a
    ring of capacity [c] with head [h] and [n] occupied cells to the list of
    its elements; every queue of the program is proved through them. *)

From S2P Require Import Prelude.

Section region.
Context {A : Type} (filler : A).

Definition rd (m : gmap Z A) (i : Z) : A := default filler (m !! i).

Definition wr (m : gmap Z A) (i : Z) (x : A) : gmap Z A := <[i := x]> m.

(** [ptr::copy_nonoverlapping(src, base + i, len src)]. *)
Fixpoint copy_to (m : gmap Z A) (i : Z) (src : list A) : gmap Z A :=
  match src with
  | [] => m
  | x :: src' => copy_to (wr m i x) (i + 1) src'
  end.

(** The [k] cells from [i] on. *)
Definition copy_from (m : gmap Z A) (i : Z) (k : nat) : list A :=
  (fun j => rd m (i + Z.of_nat j)) <$> seq 0 k.

(** The elements of a ring of capacity [c]: [n] cells from [h] on. *)
Definition ring_list (m : gmap Z A) (c h : Z) (n : nat) : list A :=
  (fun j => rd m ((h + Z.of_nat j) `mod` c)) <$> seq 0 n.

Lemma rd_wr_eq m i x : rd (wr m i x) i = x.
Proof. unfold rd, wr. by rewrite lookup_insert_eq. Qed.

Lemma rd_wr_ne m i j x : i <> j -> rd (wr m i x) j = rd m j.
Proof. intros. unfold rd, wr. by rewrite lookup_insert_ne. Qed.

Lemma rd_copy_to_ne m i src j :
  (j < i \/ i + Z.of_nat (length src) <= j) -> rd (copy_to m i src) j = rd m j.
Proof.
  revert m i. induction src as [|x src IH]; intros m i Hj; simpl in *; [done|].
  rewrite IH by lia. apply rd_wr_ne. lia.
Qed.

Lemma rd_copy_to m i src (j : nat) x :
  src !! j = Some x -> rd (copy_to m i src) (i + Z.of_nat j) = x.
Proof.
  revert m i j. induction src as [|y src IH]; intros m i [|j] Hj; simplify_eq/=.
  - replace (i + Z.of_nat 0) with i by lia. rewrite rd_copy_to_ne by lia. apply rd_wr_eq.
  - replace (i + Z.of_nat (S j)) with ((i + 1) + Z.of_nat j) by lia. by apply IH.
Qed.

Lemma length_copy_from m i k : length (copy_from m i k) = k.
Proof. unfold copy_from. by rewrite length_fmap, length_seq. Qed.

Lemma length_ring_list m c h n : length (ring_list m c h n) = n.
Proof. unfold ring_list. by rewrite length_fmap, length_seq. Qed.

Lemma ring_list_lookup m c h n j :
  (j < n)%nat -> ring_list m c h n !! j = Some (rd m ((h + Z.of_nat j) `mod` c)).
Proof.
  intros. unfold ring_list. rewrite list_lookup_fmap, lookup_seq_lt by done. done.
Qed.

(** Two memories that agree on the occupied cells hold the same list. *)
Lemma ring_list_ext m m' c h h' n :
  (forall j : nat, (j < n)%nat ->
     rd m ((h + Z.of_nat j) `mod` c) = rd m' ((h' + Z.of_nat j) `mod` c)) ->
  ring_list m c h n = ring_list m' c h' n.
Proof.
  intros H. unfold ring_list. apply list_fmap_ext.
  intros i j Hj. apply lookup_seq in Hj as [-> ?]. apply H. lia.
Qed.

(** The head may be kept reduced modulo the capacity or as a running
    counter. *)
Lemma ring_list_mod m c h n : 0 < c -> ring_list m c (h `mod` c) n = ring_list m c h n.
Proof.
  intros. apply ring_list_ext. intros j _. by rewrite Zplus_mod_idemp_l.
Qed.

Lemma ring_list_app m c h n k :
  ring_list m c h (n + k) = ring_list m c h n ++ ring_list m c (h + Z.of_nat n) k.
Proof.
  apply list_eq_same_length with (n + k)%nat;
    [by rewrite length_app, !length_ring_list
    |by rewrite length_ring_list|].
  intros j x y Hj Hx Hy.
  rewrite ring_list_lookup in Hx by done.
  destruct (decide (j < n)%nat).
  - rewrite lookup_app_l in Hy by (rewrite length_ring_list; lia).
    rewrite ring_list_lookup in Hy by lia. congruence.
  - rewrite lookup_app_r in Hy by (rewrite length_ring_list; lia).
    rewrite length_ring_list, ring_list_lookup in Hy by lia.
    simplify_eq. f_equal. f_equal. lia.
Qed.

Lemma ring_list_S_l m c h n :
  ring_list m c h (S n) = rd m (h `mod` c) :: ring_list m c (h + 1) n.
Proof.
  change (S n) with (1 + n)%nat. rewrite ring_list_app. simpl.
  unfold ring_list at 1. simpl. by rewrite Z.add_0_r.
Qed.

(** Distinct offsets below the capacity are distinct cells. *)
Lemma ring_index_inj c h (i j : Z) :
  0 <= i < c -> 0 <= j < c -> (h + i) `mod` c = (h + j) `mod` c -> i = j.
Proof.
  intros Hi Hj E.
  assert (((h + i) - (h + j)) `mod` c = 0) as E0.
  { rewrite Zminus_mod, E, Z.sub_diag. apply Z.mod_0_l. lia. }
  destruct (proj1 (Z.mod_divide _ c ltac:(lia)) E0) as [q Hq].
  assert (q = 0) by nia. lia.
Qed.

(** Writing the first free cell appends. *)
Lemma ring_list_push m c h n x :
  0 < c -> Z.of_nat n < c ->
  ring_list (wr m ((h + Z.of_nat n) `mod` c) x) c h (S n) = ring_list m c h n ++ [x].
Proof.
  intros Hc Hn. replace (S n) with (n + 1)%nat by lia. rewrite ring_list_app. f_equal.
  - apply ring_list_ext. intros j Hj. apply rd_wr_ne. intros E.
    apply ring_index_inj in E; lia.
  - unfold ring_list. simpl. rewrite Z.add_0_r. by rewrite rd_wr_eq.
Qed.

(** Copying a run that does not pass the end of the region appends it. *)
Lemma ring_list_copy m c h n src :
  0 < c -> Z.of_nat n + Z.of_nat (length src) <= c ->
  (h + Z.of_nat n) `mod` c + Z.of_nat (length src) <= c ->
  ring_list (copy_to m ((h + Z.of_nat n) `mod` c) src) c h (n + length src)
  = ring_list m c h n ++ src.
Proof.
  intros Hc Hn Hend. rewrite ring_list_app.
  pose proof (Z.mod_pos_bound (h + Z.of_nat n) c Hc) as Hb.
  set (t := (h + Z.of_nat n) `mod` c) in *.
  assert (forall j : nat, (j < length src)%nat ->
            (h + Z.of_nat n + Z.of_nat j) `mod` c = t + Z.of_nat j) as Ht.
  { intros j Hj. rewrite <- Zplus_mod_idemp_l. fold t. apply Z.mod_small. lia. }
  f_equal.
  - apply ring_list_ext. intros j Hj. apply rd_copy_to_ne.
    destruct (decide ((h + Z.of_nat j) `mod` c < t)); [by left|].
    right. apply Z.le_ngt. intros Hlt.
    destruct (Z_lt_le_dec ((h + Z.of_nat j) `mod` c - t) 0); [lia|].
    pose proof (Ht (Z.to_nat ((h + Z.of_nat j) `mod` c - t)) ltac:(lia)) as E.
    rewrite Z2Nat.id in E by lia.
    replace (t + ((h + Z.of_nat j) `mod` c - t)) with ((h + Z.of_nat j) `mod` c) in E by lia.
    set (k := (h + Z.of_nat j) `mod` c - t) in *.
    replace (h + Z.of_nat n + k) with (h + (Z.of_nat n + k)) in E by lia.
    apply ring_index_inj in E; lia.
  - apply list_eq_same_length with (length src); [done|by rewrite length_ring_list|].
    intros j x y Hj Hx Hy. rewrite ring_list_lookup in Hx by done.
    rewrite Ht in Hx by done. rewrite (rd_copy_to _ _ _ _ _ Hy) in Hx. congruence.
Qed.

(** A run read from the region that does not pass its end is a piece of the ring. *)
Lemma copy_from_ring m c h k :
  0 < c -> h `mod` c + Z.of_nat k <= c -> copy_from m (h `mod` c) k = ring_list m c h k.
Proof.
  intros Hc Hk. pose proof (Z.mod_pos_bound h c Hc).
  unfold copy_from, ring_list. apply list_fmap_ext.
  intros i j Hj. apply lookup_seq in Hj as [-> ?]. f_equal.
  rewrite <- Zplus_mod_idemp_l. symmetry. apply Z.mod_small. lia.
Qed.
End region.

(** ** Index-linked lists

    The free lists link cells by index: from [h], following [nxt] visits
    exactly [l] and ends at [nil]. *)

Fixpoint linked_by (nxt : Z -> Z) (nil h : Z) (l : list Z) : Prop :=
  match l with
  | [] => h = nil
  | x :: l' => h = x /\ linked_by nxt nil (nxt x) l'
  end.

Lemma linked_by_ext nxt nxt' nil h l :
  (forall i, i ∈ l -> nxt' i = nxt i) -> linked_by nxt nil h l -> linked_by nxt' nil h l.
Proof.
  revert h. induction l as [|x l IH]; intros h Hext; [done|].
  intros [-> Hc]. split; [done|]. rewrite Hext by (by left). apply IH; [|done].
  intros i Hi. apply Hext. by right.
Qed.

(** A head that leads to valid indices fits the word that stores it. *)
Lemma linked_by_word nxt w cap h l : Forall (fun i => 0 <= i < cap) l -> 0 < w ->
  cap <= 2 ^ w - 1 -> linked_by nxt (2 ^ w - 1) h l -> is_word w h.
Proof.
  intros Hr Hw Hc Hl. unfold is_word. pose proof (Z.pow_pos_nonneg 2 w ltac:(lia) ltac:(lia)).
  destruct l as [|x l]; simpl in Hl; [lia|].
  destruct Hl as [-> _]. apply Forall_cons in Hr as [? _]. lia.
Qed.

(** Consecutive indices, the last one linked to [nil]. *)
Lemma linked_by_seq nxt nil n i : (0 < n)%nat ->
  (forall j, i <= j < i + Z.of_nat n - 1 -> nxt j = j + 1) ->
  nxt (i + Z.of_nat n - 1) = nil -> linked_by nxt nil i (seqZ i (Z.of_nat n)).
Proof.
  revert i. induction n as [|n IH]; intros i H0 Hn Hlast; [lia|].
  rewrite seqZ_cons by lia. simpl. split; [done|]. destruct n as [|n].
  - replace (i + Z.of_nat 1 - 1) with i in Hlast by lia. rewrite Hlast. done.
  - rewrite Hn by lia.
    replace (Z.pred (Z.of_nat (S (S n)))) with (Z.of_nat (S n)) by lia.
    replace (Z.succ i) with (i + 1) by lia. apply IH; [lia|..].
    + intros j Hj. apply Hn. lia.
    + rewrite <- Hlast. f_equal. lia.
Qed.

Arguments rd : simpl never.
Arguments wr : simpl never.
Arguments copy_from : simpl never.
Arguments ring_list : simpl never.

#[export] Hint Rewrite @length_ring_list @length_copy_from : ring.
