(* ===== verification/Types.v ===== *)
(** * Types

    The enumerations shared by the scheduler, the arena, the fiber API and
    the C interface: [src/src/common_types.rs], [SafetyLevel] and
    [FiberStatus] of [memory_management.rs], [Priority] and
    [topology::Affinity] of [api.rs]. *)

From S2P Require Import Prelude.

Inductive TopologyMode := P2PMesh | Global | Pinned.
Inductive WorkloadKind := Compute | IO | Memory | System.
Inductive SafetyLevel := Safety0 | Safety1 | Safety2.
Inductive Affinity := SameCore | SameCCX | SameNUMA | Any.
Inductive Priority := Low | Normal | High | Critical.

Inductive FiberStatus :=
| Initial
| Running
| Yielded
| Finished
| Panicked
| Notified
| Suspending.

#[export] Instance TopologyMode_eq_dec : EqDecision TopologyMode.
Proof. solve_decision. Defined.
#[export] Instance WorkloadKind_eq_dec : EqDecision WorkloadKind.
Proof. solve_decision. Defined.
#[export] Instance SafetyLevel_eq_dec : EqDecision SafetyLevel.
Proof. solve_decision. Defined.
#[export] Instance Affinity_eq_dec : EqDecision Affinity.
Proof. solve_decision. Defined.
#[export] Instance Priority_eq_dec : EqDecision Priority.
Proof. solve_decision. Defined.
#[export] Instance FiberStatus_eq_dec : EqDecision FiberStatus.
Proof. solve_decision. Defined.

(** The four context switchers of [api.rs] and the constant
    [ALLOW_DEFLECTION] of their [ContextSwitcher] implementations. *)
Inductive Switcher :=
| CrossThreadFloat
| CrossThreadNoFloat
| SameThreadFloat
| SameThreadNoFloat.

#[export] Instance Switcher_eq_dec : EqDecision Switcher.
Proof. solve_decision. Defined.

Definition ALLOW_DEFLECTION (s : Switcher) : bool :=
  match s with
  | CrossThreadFloat | CrossThreadNoFloat => true
  | SameThreadFloat | SameThreadNoFloat => false
  end.
