(* ===== verification/Fifo.v ===== *)
(** * Fifo

    The interface between the queues of the program and their clients.  A
    bounded FIFO queue promises that [push] appends or hands the element back
    when the queue is full and that [pop] removes the oldest element.  The
    clients (the scheduler, the wait queues, the channels) are proved
    against these laws; [Mailbox], [Warehouse], [SpscQueue] and
    [BoundedMpmcQueue] discharge them. *)

From S2P Require Import Prelude.

Class FifoQueue (Q A : Type) := {
  q_ok : Q -> Prop;
  q_list : Q -> list A;
  q_cap : Q -> nat;
  q_push : A -> Q -> outcome (result unit A * Q);
  q_pop : Q -> outcome (option A * Q)
}.

Class FifoLaws (Q A : Type) `{!FifoQueue Q A} := {
  q_push_ok : forall q x, q_ok q -> (length (q_list q) < q_cap q)%nat ->
    exists q', q_push x q = Done (Ok tt, q') /\ q_ok q' /\
               q_list q' = q_list q ++ [x] /\ q_cap q' = q_cap q;
  q_push_full : forall q x, q_ok q -> length (q_list q) = q_cap q ->
    q_push x q = Done (Err x, q);
  q_pop_some : forall q x l, q_ok q -> q_list q = x :: l ->
    exists q', q_pop q = Done (Some x, q') /\ q_ok q' /\ q_list q' = l /\ q_cap q' = q_cap q;
  q_pop_none : forall q, q_ok q -> q_list q = [] -> q_pop q = Done (None, q);
  q_bounded : forall q, q_ok q -> (length (q_list q) <= q_cap q)%nat
}.

(** ** The abstract queue and its operations *)

Inductive fifo_op (A : Type) := OpPush (x : A) | OpPop.
Arguments OpPush {A} x.
Arguments OpPop {A}.

Inductive fifo_res (A : Type) := Pushed | Rejected (x : A) | Popped (x : A) | WasEmpty.
Arguments Pushed {A}.
Arguments Rejected {A} x.
Arguments Popped {A} x.
Arguments WasEmpty {A}.

Section abstract.
Context {A : Type} (cap : nat).

Definition spec_step (l : list A) (o : fifo_op A) : fifo_res A * list A :=
  match o with
  | OpPush x => if decide (length l < cap)%nat then (Pushed, l ++ [x]) else (Rejected x, l)
  | OpPop => match l with [] => (WasEmpty, []) | x :: l' => (Popped x, l') end
  end.

Fixpoint spec_run (l : list A) (os : list (fifo_op A)) : list (fifo_res A) * list A :=
  match os with
  | [] => ([], l)
  | o :: os' =>
      let '(r, l') := spec_step l o in
      let '(rs, l'') := spec_run l' os' in (r :: rs, l'')
  end.
End abstract.

Section concrete.
Context {Q A : Type} `{!FifoQueue Q A}.

Definition impl_step (q : Q) (o : fifo_op A) : outcome (fifo_res A * Q) :=
  match o with
  | OpPush x =>
      '(r, q') ← q_push x q;
      Done (match r with Ok _ => Pushed | Err y => Rejected y end, q')
  | OpPop =>
      '(r, q') ← q_pop q;
      Done (match r with Some x => Popped x | None => WasEmpty end, q')
  end.

Fixpoint impl_run (q : Q) (os : list (fifo_op A)) : outcome (list (fifo_res A) * Q) :=
  match os with
  | [] => Done ([], q)
  | o :: os' =>
      '(r, q') ← impl_step q o;
      '(rs, q'') ← impl_run q' os';
      Done (r :: rs, q'')
  end.

Context `{!FifoLaws Q A}.

(** Either outcome of a push, as a case analysis for clients. *)
Lemma q_push_cases q x : q_ok q ->
  (exists q', q_push x q = Done (Ok tt, q') /\ q_ok q' /\
              q_list q' = q_list q ++ [x] /\ q_cap q' = q_cap q)
  \/ (q_push x q = Done (Err x, q) /\ length (q_list q) = q_cap q).
Proof.
  intros Hok. pose proof (q_bounded q Hok).
  destruct (decide (length (q_list q) < q_cap q)%nat).
  - left. by apply q_push_ok.
  - right. split; [apply q_push_full|]; auto with lia.
Qed.

Lemma q_pop_cases q : q_ok q ->
  (exists x l q', q_list q = x :: l /\ q_pop q = Done (Some x, q') /\ q_ok q' /\
                  q_list q' = l /\ q_cap q' = q_cap q)
  \/ (q_pop q = Done (None, q) /\ q_list q = []).
Proof.
  intros Hok. destruct (q_list q) as [|x l] eqn:E.
  - right. auto using q_pop_none.
  - left. destruct (q_pop_some q x l Hok E) as (q' & ? & ? & ? & ?). naive_solver.
Qed.

Lemma impl_step_refines q o : q_ok q ->
  exists r q', impl_step q o = Done (r, q') /\
  (r, q_list q') = spec_step (q_cap q) (q_list q) o /\ q_ok q' /\ q_cap q' = q_cap q.
Proof.
  intros Hok. destruct o as [x|]; simpl.
  - destruct (q_push_cases q x Hok) as [(q' & -> & ? & Hl & ?)|[-> Hfull]]; simpl.
    + do 2 eexists; split; [done|]. rewrite Hl. pose proof (q_bounded q' ltac:(done)) as Hb.
      rewrite Hl, length_app in Hb. simpl in Hb.
      rewrite decide_True by lia. auto.
    + do 2 eexists; split; [done|]. rewrite decide_False by lia. auto.
  - destruct (q_pop_cases q Hok) as [(x & l & q' & E & -> & ? & Hl & ?)|[-> E]]; simpl;
      do 2 eexists; (split; [done|]); rewrite E; [by rewrite Hl|auto].
Qed.

(** Every sequence of pushes and pops returns, and answers as the abstract
    bounded queue does. *)
Lemma impl_run_refines q os : q_ok q ->
  exists rs q', impl_run q os = Done (rs, q') /\
  (rs, q_list q') = spec_run (q_cap q) (q_list q) os /\ q_ok q' /\ q_cap q' = q_cap q.
Proof.
  revert q. induction os as [|o os IH]; intros q Hok; simpl; [by exists [], q|].
  destruct (impl_step_refines q o Hok) as (r & q' & -> & Hs & Hok' & Hc). simpl.
  destruct (IH q' Hok') as (rs & q'' & -> & IH2 & ? & ?). simpl.
  do 2 eexists; split; [done|]. rewrite <- Hs, <- Hc, <- IH2. split_and!; congruence.
Qed.
End concrete.
