(* ===== verification/Mailbox.v ===== *)
(** * Mailbox

    [TaskChunk] and the single-producer single-consumer [Mailbox] of
    [src/src/dta_scheduler.rs].  The ring keeps one cell free, so a mailbox
    holds [MAILBOX_CAPACITY - 1] chunks.

    [Module Mailbox] has the operations as the owning threads run them and
    the refinement to the bounded queue of [Fifo].  [Module MailboxRace]
    splits [push] and [pop] at every shared access and proves that the two
    threads may interleave freely. *)

From S2P Require Import Prelude Ring Fifo.

(** [pub type TaskIndex = u32] *)
Notation TaskIndex := Z (only parsing).

Definition CHUNK_SIZE : Z := 32.
Definition MAILBOX_CAPACITY : Z := 65536.
Definition MAILBOX_MASK : Z := MAILBOX_CAPACITY - 1.

Record TaskChunk := mkChunk {
  tasks : list TaskIndex;
  count : Z;
  hop_count : Z
}.

Definition TaskChunk_default : TaskChunk :=
  {| tasks := replicate (Z.to_nat CHUNK_SIZE) 0; count := 0; hop_count := 0 |}.

(** [chunk.tasks[0] = task; chunk.count = 1] on a default chunk. *)
Definition single_chunk (task : TaskIndex) : TaskChunk :=
  {| tasks := <[0%nat := task]> (tasks TaskChunk_default);
     count := 1;
     hop_count := hop_count TaskChunk_default |}.

Definition set_hop_count (h : Z) (c : TaskChunk) : TaskChunk :=
  {| tasks := tasks c; count := count c; hop_count := h |}.

(** The tasks a chunk carries: the first [count] entries. *)
Definition chunk_tasks (c : TaskChunk) : list TaskIndex := take (Z.to_nat (count c)) (tasks c).

Definition chunk_ok (c : TaskChunk) : Prop :=
  length (tasks c) = Z.to_nat CHUNK_SIZE /\ 0 <= count c <= CHUNK_SIZE /\
  0 <= hop_count c <= U8_MAX.

Lemma single_chunk_ok t : chunk_ok (single_chunk t).
Proof.
  unfold chunk_ok, single_chunk, TaskChunk_default, CHUNK_SIZE, U8_MAX. simpl. split_and!; lia.
Qed.

Lemma single_chunk_tasks t : chunk_tasks (single_chunk t) = [t].
Proof. done. Qed.

Lemma chunk_tasks_set_hop h c : chunk_tasks (set_hop_count h c) = chunk_tasks c.
Proof. done. Qed.

Lemma chunk_ok_set_hop h c : 0 <= h <= U8_MAX -> chunk_ok c -> chunk_ok (set_hop_count h c).
Proof. intros ? (? & ? & ?). unfold chunk_ok. simpl. auto. Qed.

Lemma chunk_tasks_length c : chunk_ok c -> length (chunk_tasks c) = Z.to_nat (count c).
Proof.
  intros (Hl & ? & ?). unfold chunk_tasks. rewrite length_take, Hl.
  unfold CHUNK_SIZE in *. lia.
Qed.

#[export] Hint Resolve single_chunk_ok chunk_ok_set_hop : ring.

Module Mailbox.

Record t := mk { head : Z; tail : Z; buffer : gmap Z TaskChunk }.

Definition new : t := {| head := 0; tail := 0; buffer := ∅ |}.

Definition push (chunk : TaskChunk) (mb : t) : result unit TaskChunk * t :=
  let current_tail := tail mb in
  let next_tail := Z.land (current_tail + 1) MAILBOX_MASK in
  if next_tail =? head mb then (Err chunk, mb)
  else (Ok tt, {| head := head mb; tail := next_tail;
                  buffer := wr (buffer mb) current_tail chunk |}).

Definition pop (mb : t) : option TaskChunk * t :=
  let current_head := head mb in
  if current_head =? tail mb then (None, mb)
  else
    let chunk := rd TaskChunk_default (buffer mb) current_head in
    let next_head := Z.land (current_head + 1) MAILBOX_MASK in
    (Some chunk, {| head := next_head; tail := tail mb; buffer := buffer mb |}).

(** ** Refinement to the bounded queue *)

Definition ok (mb : t) : Prop :=
  0 <= head mb < MAILBOX_CAPACITY /\ 0 <= tail mb < MAILBOX_CAPACITY.

Definition len (mb : t) : Z := (tail mb - head mb) `mod` MAILBOX_CAPACITY.

Definition contents (mb : t) : list TaskChunk :=
  ring_list TaskChunk_default (buffer mb) MAILBOX_CAPACITY (head mb) (Z.to_nat (len mb)).

Definition max_len : nat := Z.to_nat (MAILBOX_CAPACITY - 1).

Lemma mb_mask_mod x : Z.land x MAILBOX_MASK = x `mod` MAILBOX_CAPACITY.
Proof. exact (land_mask 16 x ltac:(lia)). Qed.

Lemma mb_len_range mb : 0 <= len mb < MAILBOX_CAPACITY.
Proof. apply Z.mod_pos_bound. done. Qed.

Lemma mb_head_len mb : ok mb -> (head mb + len mb) `mod` MAILBOX_CAPACITY = tail mb.
Proof.
  intros [_ Ht]. unfold len. rewrite Zplus_mod_idemp_r.
  replace (head mb + (tail mb - head mb)) with (tail mb) by lia. by apply Z.mod_small.
Qed.

(** The length after advancing one end by one. *)
Lemma mb_next_tail_eq mb : ok mb ->
  (Z.land (tail mb + 1) MAILBOX_MASK =? head mb) = (len mb =? MAILBOX_CAPACITY - 1).
Proof.
  intros [Hh Ht]. rewrite mb_mask_mod. unfold len, MAILBOX_CAPACITY in *.
  apply eq_bool_prop_intro. rewrite !Is_true_true, !Z.eqb_eq.
  Z.div_mod_to_equations. lia.
Qed.

Lemma mb_len_empty mb : ok mb -> (head mb =? tail mb) = (len mb =? 0).
Proof.
  intros [Hh Ht]. unfold len, MAILBOX_CAPACITY in *.
  apply eq_bool_prop_intro. rewrite !Is_true_true, !Z.eqb_eq.
  Z.div_mod_to_equations. lia.
Qed.

#[global] Instance mailbox_fifo : FifoQueue t TaskChunk := {|
  q_ok := ok; q_list := contents; q_cap := fun _ => max_len;
  q_push := fun c mb => Done (push c mb); q_pop := fun mb => Done (pop mb) |}.

Lemma mb_length_contents mb : length (contents mb) = Z.to_nat (len mb).
Proof. apply length_ring_list. Qed.

(** The three memory effects of [push] and [pop], one at a time: writing the
    free cell is invisible, storing the tail appends that cell, storing the
    head removes the oldest cell. *)

Definition set_tail (x : Z) (mb : t) : t := {| head := head mb; tail := x; buffer := buffer mb |}.
Definition set_head (x : Z) (mb : t) : t := {| head := x; tail := tail mb; buffer := buffer mb |}.
Definition write_cell (i : Z) (c : TaskChunk) (mb : t) : t :=
  {| head := head mb; tail := tail mb; buffer := wr (buffer mb) i c |}.

Lemma mb_ok_set_tail mb x : ok mb -> ok (set_tail (Z.land x MAILBOX_MASK) mb).
Proof. intros [? ?]. rewrite mb_mask_mod. split; [done|]. by apply Z.mod_pos_bound. Qed.

Lemma mb_ok_set_head mb x : ok mb -> ok (set_head (Z.land x MAILBOX_MASK) mb).
Proof. intros [? ?]. rewrite mb_mask_mod. split; [|done]. by apply Z.mod_pos_bound. Qed.

Lemma mb_contents_write_cell mb c : ok mb -> contents (write_cell (tail mb) c mb) = contents mb.
Proof.
  intros Hok. pose proof (mb_len_range mb). unfold contents. change (len (write_cell _ _ _)) with (len mb).
  apply ring_list_ext. intros j Hj. simpl. apply rd_wr_ne. rewrite <- (mb_head_len mb) by done.
  intros E. apply ring_index_inj in E; lia.
Qed.

Lemma mb_contents_set_tail mb : ok mb -> len mb <> MAILBOX_CAPACITY - 1 ->
  contents (set_tail (Z.land (tail mb + 1) MAILBOX_MASK) mb)
  = contents mb ++ [rd TaskChunk_default (buffer mb) (tail mb)].
Proof.
  intros Hok Hne. pose proof (mb_len_range mb). rewrite mb_mask_mod. unfold contents at 1, len at 1. simpl.
  replace (Z.to_nat _) with (Z.to_nat (len mb) + 1)%nat.
  2:{ rewrite Zminus_mod_idemp_l.
      replace (tail mb + 1 - head mb) with ((tail mb - head mb) + 1) by lia.
      rewrite <- Zplus_mod_idemp_l. fold (len mb). rewrite Z.mod_small by lia. lia. }
  rewrite ring_list_app. f_equal. rewrite ring_list_S_l, Z2Nat.id, mb_head_len by (done || lia). done.
Qed.

Lemma mb_contents_set_head mb : ok mb -> len mb <> 0 ->
  contents mb = rd TaskChunk_default (buffer mb) (head mb)
                :: contents (set_head (Z.land (head mb + 1) MAILBOX_MASK) mb).
Proof.
  intros Hok Hne. pose proof (mb_len_range mb). rewrite mb_mask_mod. unfold contents at 2, len at 1. simpl.
  rewrite ring_list_mod by done.
  replace (Z.to_nat (_ `mod` _)) with (Z.to_nat (len mb) - 1)%nat.
  2:{ rewrite Zminus_mod_idemp_r.
      replace (tail mb - (head mb + 1)) with ((tail mb - head mb) - 1) by lia.
      rewrite <- Zminus_mod_idemp_l. fold (len mb). rewrite Z.mod_small by lia. lia. }
  unfold contents. replace (Z.to_nat (len mb)) with (S (Z.to_nat (len mb) - 1)) at 1 by lia.
  rewrite ring_list_S_l. destruct Hok as [? _]. by rewrite Z.mod_small.
Qed.

Lemma mb_push_ok mb c : ok mb -> (length (contents mb) < max_len)%nat ->
  exists mb', push c mb = (Ok tt, mb') /\ ok mb' /\ contents mb' = contents mb ++ [c].
Proof.
  intros Hok Hlen. rewrite mb_length_contents in Hlen. unfold max_len in Hlen.
  pose proof (mb_len_range mb). unfold push. rewrite mb_next_tail_eq by done.
  destruct (Z.eqb_spec (len mb) (MAILBOX_CAPACITY - 1)); [unfold MAILBOX_CAPACITY in *; lia|].
  eexists; split; [done|].
  change {| head := _; tail := _; buffer := _ |} with
    (set_tail (Z.land (tail (write_cell (tail mb) c mb) + 1) MAILBOX_MASK)
              (write_cell (tail mb) c mb)).
  split; [by apply mb_ok_set_tail|].
  rewrite mb_contents_set_tail, mb_contents_write_cell by done. simpl. by rewrite rd_wr_eq.
Qed.

Lemma mb_push_full mb c : ok mb -> length (contents mb) = max_len -> push c mb = (Err c, mb).
Proof.
  intros Hok Hlen. rewrite mb_length_contents in Hlen. unfold max_len in Hlen.
  pose proof (mb_len_range mb). unfold push. rewrite mb_next_tail_eq by done.
  destruct (Z.eqb_spec (len mb) (MAILBOX_CAPACITY - 1)); [done|lia].
Qed.

Lemma mb_pop_some mb c l : ok mb -> contents mb = c :: l ->
  exists mb', pop mb = (Some c, mb') /\ ok mb' /\ contents mb' = l.
Proof.
  intros Hok E. pose proof (mb_length_contents mb) as Hl. rewrite E in Hl. simpl in Hl.
  unfold pop. rewrite mb_len_empty by done.
  destruct (Z.eqb_spec (len mb) 0); [lia|].
  rewrite mb_contents_set_head in E by done. simplify_eq.
  eexists; split; [done|]. split; [by apply (mb_ok_set_head mb)|done].
Qed.

Lemma mb_pop_none mb : ok mb -> contents mb = [] -> pop mb = (None, mb).
Proof.
  intros Hok E. pose proof (mb_len_range mb).
  pose proof (mb_length_contents mb) as Hl. rewrite E in Hl. simpl in Hl.
  unfold pop. rewrite mb_len_empty by done.
  destruct (Z.eqb_spec (len mb) 0); [done|lia].
Qed.

#[global] Instance mailbox_laws : FifoLaws t TaskChunk.
Proof.
  split; simpl.
  - intros q x Hok Hl. destruct (mb_push_ok q x Hok Hl) as (q' & -> & ? & ?). by exists q'.
  - intros q x Hok Hl. by rewrite mb_push_full.
  - intros q x l Hok E. destruct (mb_pop_some q x l Hok E) as (q' & -> & ? & ?). by exists q'.
  - intros q Hok Hl. by rewrite mb_pop_none.
  - intros q _. rewrite mb_length_contents. pose proof (mb_len_range q). unfold max_len. lia.
Qed.

Lemma mb_new_ok : ok new.
Proof. done. Qed.

Lemma mb_new_contents : contents new = [].
Proof. done. Qed.

End Mailbox.

Module MailboxRace.
Import Mailbox.

(** Program points of [push]; each constructor names the next shared access. *)
Inductive producer_pc :=
| PIdle
| PLoadTail (chunk : TaskChunk)
| PLoadHead (chunk : TaskChunk) (current_tail : Z)
| PWrite (chunk : TaskChunk) (current_tail : Z)
| PStoreTail (chunk : TaskChunk) (current_tail : Z).

(** Program points of [pop]. *)
Inductive consumer_pc :=
| CIdle
| CLoadHead
| CLoadTail (current_head : Z)
| CRead (current_head : Z)
| CStoreHead (current_head : Z) (chunk : TaskChunk).

(** The shared mailbox, the two program counters, and the histories of the
    chunks whose [push] returned [Ok] and whose [pop] returned [Some]. *)
Record state := mkState {
  mem : t;
  prod : producer_pc;
  cons : consumer_pc;
  sent : list TaskChunk;
  received : list TaskChunk
}.

Definition init (s : state) : Prop :=
  s = {| mem := new; prod := PIdle; cons := CIdle; sent := []; received := [] |}.

Inductive prod_step : t -> producer_pc -> list TaskChunk ->
                      t -> producer_pc -> list TaskChunk -> Prop :=
| ps_call mb c l : prod_step mb PIdle l mb (PLoadTail c) l
| ps_load_tail mb c l : prod_step mb (PLoadTail c) l mb (PLoadHead c (tail mb)) l
| ps_full mb c ct l :
    Z.land (ct + 1) MAILBOX_MASK = head mb ->
    prod_step mb (PLoadHead c ct) l mb PIdle l
| ps_room mb c ct l :
    Z.land (ct + 1) MAILBOX_MASK <> head mb ->
    prod_step mb (PLoadHead c ct) l mb (PWrite c ct) l
| ps_write mb c ct l :
    prod_step mb (PWrite c ct) l (write_cell ct c mb) (PStoreTail c ct) l
| ps_store mb c ct l :
    prod_step mb (PStoreTail c ct) l
              (set_tail (Z.land (ct + 1) MAILBOX_MASK) mb) PIdle (l ++ [c]).

Inductive cons_step : t -> consumer_pc -> list TaskChunk ->
                      t -> consumer_pc -> list TaskChunk -> Prop :=
| cs_call mb l : cons_step mb CIdle l mb CLoadHead l
| cs_load_head mb l : cons_step mb CLoadHead l mb (CLoadTail (head mb)) l
| cs_empty mb ch l : ch = tail mb -> cons_step mb (CLoadTail ch) l mb CIdle l
| cs_some mb ch l : ch <> tail mb -> cons_step mb (CLoadTail ch) l mb (CRead ch) l
| cs_read mb ch l :
    cons_step mb (CRead ch) l mb (CStoreHead ch (rd TaskChunk_default (buffer mb) ch)) l
| cs_store mb ch c l :
    cons_step mb (CStoreHead ch c) l
              (set_head (Z.land (ch + 1) MAILBOX_MASK) mb) CIdle (l ++ [c]).

(** One step of either thread. *)
Inductive step : state -> state -> Prop :=
| step_prod s mb' p' l' :
    prod_step (mem s) (prod s) (sent s) mb' p' l' ->
    step s {| mem := mb'; prod := p'; cons := cons s; sent := l'; received := received s |}
| step_cons s mb' c' l' :
    cons_step (mem s) (cons s) (received s) mb' c' l' ->
    step s {| mem := mb'; prod := prod s; cons := c'; sent := sent s; received := l' |}.

(** What each thread may rely on at each of its program points. *)
Definition prod_inv (mb : t) (p : producer_pc) : Prop :=
  match p with
  | PIdle | PLoadTail _ => True
  | PLoadHead _ ct => ct = tail mb
  | PWrite _ ct => ct = tail mb /\ len mb <> MAILBOX_CAPACITY - 1
  | PStoreTail c ct => ct = tail mb /\ len mb <> MAILBOX_CAPACITY - 1 /\
                       rd TaskChunk_default (buffer mb) ct = c
  end.

Definition cons_inv (mb : t) (p : consumer_pc) : Prop :=
  match p with
  | CIdle | CLoadHead => True
  | CLoadTail ch => ch = head mb
  | CRead ch => ch = head mb /\ len mb <> 0
  | CStoreHead ch c => ch = head mb /\ len mb <> 0 /\
                       rd TaskChunk_default (buffer mb) ch = c
  end.

Definition inv (s : state) : Prop :=
  ok (mem s) /\ sent s = received s ++ contents (mem s) /\
  prod_inv (mem s) (prod s) /\ cons_inv (mem s) (cons s).

Lemma mb_len_set_tail mb : ok mb -> len mb <> MAILBOX_CAPACITY - 1 ->
  len (set_tail (Z.land (tail mb + 1) MAILBOX_MASK) mb) = len mb + 1.
Proof.
  intros Hok Hn. pose proof (mb_len_range mb). pose proof (mb_len_range (set_tail (Z.land (tail mb + 1) MAILBOX_MASK) mb)).
  pose proof (mb_length_contents mb) as H1.
  pose proof (mb_length_contents (set_tail (Z.land (tail mb + 1) MAILBOX_MASK) mb)) as H2.
  rewrite mb_contents_set_tail, length_app, H1 in H2 by done. simpl in H2. lia.
Qed.

Lemma mb_len_set_head mb : ok mb -> len mb <> 0 ->
  len (set_head (Z.land (head mb + 1) MAILBOX_MASK) mb) = len mb - 1.
Proof.
  intros Hok Hn. pose proof (mb_len_range mb). pose proof (mb_len_range (set_head (Z.land (head mb + 1) MAILBOX_MASK) mb)).
  pose proof (mb_length_contents mb) as H1.
  pose proof (mb_length_contents (set_head (Z.land (head mb + 1) MAILBOX_MASK) mb)) as H2.
  rewrite mb_contents_set_head in H1 by done. simpl in H1. lia.
Qed.

(** The producer's step keeps its own invariant and what the consumer
    relies on. *)
Lemma race_prod_step_inv mb p l mb' p' l' c r :
  prod_step mb p l mb' p' l' -> ok mb -> l = r ++ contents mb ->
  prod_inv mb p -> cons_inv mb c ->
  ok mb' /\ l' = r ++ contents mb' /\ prod_inv mb' p' /\ cons_inv mb' c.
Proof.
  intros Hs Hok Hl Hp Hc.
  destruct Hs as [| |mb ch ct l E|mb ch ct l E|mb ch ct l|mb ch ct l]; simpl in *; subst l;
    [done|done|done| | |].
  - subst ct. apply Z.eqb_neq in E. rewrite mb_next_tail_eq in E by done. bool_prop. done.
  - destruct Hp as [-> Hlen]. rewrite mb_contents_write_cell by done. split_and!; try done.
    + simpl. apply rd_wr_eq.
    + destruct c as [| | |h|h x]; simpl in *; try done.
      destruct Hc as (-> & Hne & <-). split_and!; try done. apply rd_wr_ne.
      intros E. apply Hne. apply Z.eqb_eq. rewrite <- mb_len_empty by done. by apply Z.eqb_eq.
  - destruct Hp as (-> & Hlen & <-). rewrite mb_contents_set_tail by done. pose proof (mb_len_range mb).
    split_and!; [by apply mb_ok_set_tail|by rewrite app_assoc|done|].
    destruct c as [| | |h|h x]; simpl in *; try done; rewrite mb_len_set_tail by done;
      intuition lia.
Qed.

Lemma race_cons_step_inv mb c l mb' c' l' p r :
  cons_step mb c l mb' c' l' -> ok mb -> r = l ++ contents mb ->
  cons_inv mb c -> prod_inv mb p ->
  ok mb' /\ r = l' ++ contents mb' /\ cons_inv mb' c' /\ prod_inv mb' p.
Proof.
  intros Hs Hok Hl Hc Hp.
  destruct Hs as [| |mb ch l E|mb ch l E|mb ch l|mb ch x l]; simpl in *; subst r;
    [done|done|done| | |].
  - subst ch. apply Z.eqb_neq in E. rewrite mb_len_empty in E by done. bool_prop. done.
  - naive_solver.
  - destruct Hc as (-> & Hlen & <-). pose proof (mb_len_range mb).
    split_and!; [by apply mb_ok_set_head| |done|].
    + rewrite (mb_contents_set_head mb) at 1 by done. by rewrite <- app_assoc.
    + destruct p as [| | |? ?|? ?]; simpl in *; try done; rewrite mb_len_set_head by done;
        intuition lia.
Qed.

Lemma race_inv_init s : init s -> inv s.
Proof. intros ->. by unfold inv. Qed.

Lemma race_inv_step s s' : inv s -> step s s' -> inv s'.
Proof.
  intros Hi Hs. destruct Hs as [s mb' p' l' Hs|s mb' c' l' Hs];
    destruct Hi as (Hok & Hl & Hp & Hc); unfold inv; simpl.
  - destruct (race_prod_step_inv _ _ _ _ _ _ (cons s) (received s) Hs) as (? & ? & ? & ?); auto.
  - destruct (race_cons_step_inv _ _ _ _ _ _ (prod s) (sent s) Hs) as (? & ? & ? & ?); auto.
Qed.

End MailboxRace.

(** C1.  Every sequence of [push] and [pop] on a new mailbox answers as a
    bounded FIFO queue of [MAILBOX_CAPACITY - 1] chunks: a push appends or
    hands the chunk back exactly when the queue is full, a pop returns the
    oldest chunk or [None] exactly when it is empty. *)
Theorem mailbox_refines_bounded_fifo (os : list (fifo_op TaskChunk)) :
  exists rs mb, impl_run Mailbox.new os = Done (rs, mb) /\
    (rs, Mailbox.contents mb) = spec_run Mailbox.max_len [] os.
Proof.
  destruct (impl_run_refines Mailbox.new os) as (rs & mb & E & H & _);
    [exact Mailbox.mb_new_ok|]. by exists rs, mb.
Qed.

(** C2.  However the producer's [push] and the consumer's [pop] interleave,
    access by access, the chunks received are a prefix of the chunks sent
    (nothing lost, duplicated or reordered), what lies between is what the
    mailbox holds, and the two threads never touch the same cell at the same
    time. *)
Theorem mailbox_spsc_race_free (s : MailboxRace.state) :
  reachable MailboxRace.init MailboxRace.step s ->
  MailboxRace.sent s = MailboxRace.received s ++ Mailbox.contents (MailboxRace.mem s) /\
  (forall c ct ch, MailboxRace.prod s = MailboxRace.PWrite c ct ->
                   MailboxRace.cons s = MailboxRace.CRead ch -> ct <> ch).
Proof.
  intros Hr. apply (invariant_reachable _ _ _ MailboxRace.race_inv_init MailboxRace.race_inv_step) in Hr.
  destruct Hr as (Hok & Hl & Hp & Hc). split; [done|].
  intros c ct ch E1 E2. rewrite E1 in Hp. rewrite E2 in Hc.
  destruct Hp as [-> _], Hc as [-> Hne]. intros E. apply Hne.
  apply Z.eqb_eq. rewrite <- Mailbox.mb_len_empty by done. apply Z.eqb_eq. lia.
Qed.

(** The producer sends one chunk while the consumer's [pop] is under way. *)
Lemma mailbox_spsc_race_free_witness :
  exists s, reachable MailboxRace.init MailboxRace.step s /\
    MailboxRace.cons s = MailboxRace.CRead 0 /\
    [single_chunk 7] = MailboxRace.received s ++ Mailbox.contents (MailboxRace.mem s).
Proof.
  eexists (MailboxRace.mkState _ _ _ [single_chunk 7] _).
  assert (reachable MailboxRace.init MailboxRace.step
    (MailboxRace.mkState
       {| Mailbox.head := 0; Mailbox.tail := 1; Mailbox.buffer := {[0 := single_chunk 7]} |}
       MailboxRace.PIdle (MailboxRace.CRead 0) [single_chunk 7] [])) as Hr.
  { eexists; split; [reflexivity|].
    eapply rtc_l; [apply MailboxRace.step_cons, MailboxRace.cs_call|].
    eapply rtc_l; [apply MailboxRace.step_prod, (MailboxRace.ps_call _ (single_chunk 7))|].
    eapply rtc_l; [apply MailboxRace.step_prod, MailboxRace.ps_load_tail|].
    eapply rtc_l; [apply MailboxRace.step_cons, MailboxRace.cs_load_head|].
    eapply rtc_l; [apply MailboxRace.step_prod, MailboxRace.ps_room; by vm_compute|].
    eapply rtc_l; [apply MailboxRace.step_prod, MailboxRace.ps_write|].
    eapply rtc_l; [apply MailboxRace.step_prod, MailboxRace.ps_store|].
    eapply rtc_l; [apply MailboxRace.step_cons, MailboxRace.cs_some; by vm_compute|].
    apply rtc_refl. }
  split_and!; [exact Hr|reflexivity|].
  exact (proj1 (mailbox_spsc_race_free _ Hr)).
Defined.
