(* ===== verification/Vyukov.v ===== *)
(** * Vyukov

    The sequence-numbered ring both multi-producer multi-consumer queues of
    the program use: [Warehouse] ([src/src/dta_scheduler.rs]) and
    [BoundedMpmcQueue] ([src/dtact-util/src/lockfree.rs]).  A cell carries a
    sequence number; the cell of position [p] holds [p] when it may be
    written, [p + 1] when it may be read and [p + capacity] once drained.

    The file states the ring as a record of cells and two counters at 64-bit
    width, and proves what one push and one pop do to it; [Warehouse] and
    [BoundedMpmc] relate the two implementations to these facts. *)

From S2P Require Import Prelude Ring.

Record cell (A : Type) := mkCell { sequence : Z; data : option A }.
Arguments mkCell {A} sequence data.
Arguments sequence {A} c.
Arguments data {A} c.

Module Vyukov.
Section vyukov.
Context {A : Type}.
Implicit Types (cells : gmap Z (cell A)) (v : A).

(** Memory never written. *)
Definition blank : cell A := mkCell 0 None.

(** [seq.cast_signed().wrapping_sub(pos.cast_signed())] *)
Definition signed_diff (x y : Z) : Z := cast_signed (wsub 64 x y).

Definition len (enq deq : Z) : Z := wsub 64 enq deq.

Definition contents (cap : Z) cells (enq deq : Z) : list A :=
  omap data (ring_list blank cells cap deq (Z.to_nat (len enq deq))).

Definition cell_at (cap : Z) cells (pos : Z) : cell A := rd blank cells (pos `mod` cap).

(** A capacity whose index computation survives the counters' wrap-around. *)
Definition good_cap (cap : Z) : Prop := 2 <= cap <= 2 ^ 62 /\ (cap | 2 ^ 64).

Record ok (cap : Z) cells (enq deq : Z) : Prop := {
  ok_enq : is_word 64 enq;
  ok_deq : is_word 64 deq;
  ok_len : len enq deq <= cap;
  ok_full : forall j, 0 <= j < len enq deq ->
    exists v, cell_at cap cells (deq + j) = mkCell (wrap 64 (deq + j + 1)) (Some v);
  ok_free : forall j, len enq deq <= j < cap ->
    sequence (cell_at cap cells (deq + j)) = wrap 64 (deq + j)
}.

Lemma vy_len_range enq deq : 0 <= len enq deq < 2 ^ 64.
Proof. apply wrap_range. lia. Qed.

Lemma vy_enq_eq cap cells enq deq : ok cap cells enq deq ->
  enq = wrap 64 (deq + len enq deq).
Proof.
  intros [[? ?] _ _ _ _]. unfold len, wsub, wrap. rewrite Zplus_mod_idemp_r.
  replace (deq + (enq - deq)) with enq by lia. by rewrite Z.mod_small.
Qed.

Lemma vy_wrap_mod cap x : (cap | 2 ^ 64) -> wrap 64 x `mod` cap = x `mod` cap.
Proof. intros. unfold wrap. by apply Z.mod_mod_divide. Qed.

Lemma vy_cell_at_wrap cap cells x : (cap | 2 ^ 64) ->
  cell_at cap cells (wrap 64 x) = cell_at cap cells x.
Proof. intros. unfold cell_at. by rewrite vy_wrap_mod. Qed.

Lemma vy_len_push enq deq : len enq deq < 2 ^ 64 - 1 -> len (wadd 64 enq 1) deq = len enq deq + 1.
Proof.
  intros. pose proof (vy_len_range enq deq). unfold len, wsub, wadd, wrap in *.
  rewrite Zminus_mod_idemp_l. replace (enq + 1 - deq) with ((enq - deq) + 1) by lia.
  rewrite <- Zplus_mod_idemp_l. apply Z.mod_small. lia.
Qed.

Lemma vy_len_pop enq deq : 0 < len enq deq -> len enq (wadd 64 deq 1) = len enq deq - 1.
Proof.
  intros. pose proof (vy_len_range enq deq). unfold len, wsub, wadd, wrap in *.
  rewrite Zminus_mod_idemp_r. replace (enq - (deq + 1)) with ((enq - deq) - 1) by lia.
  rewrite <- Zminus_mod_idemp_l. apply Z.mod_small. lia.
Qed.

Lemma vy_diff_eq x : signed_diff x x = 0.
Proof. unfold signed_diff, wsub. by rewrite Z.sub_diag. Qed.

(** The signed difference of two wrapped positions that are close. *)
Lemma vy_diff_wrap x y : - 2 ^ 63 <= x - y < 2 ^ 63 ->
  signed_diff (wrap 64 x) (wrap 64 y) = x - y.
Proof.
  intros. unfold signed_diff, wsub, wrap, cast_signed. rewrite <- Zminus_mod.
  destruct (decide (0 <= x - y)).
  - rewrite Z.mod_small by lia. case_test; lia.
  - replace ((x - y) `mod` 2 ^ 64) with (x - y + 2 ^ 64).
    + case_test; lia.
    + apply Z.mod_unique with (-1); lia.
Qed.

Section ring.
Context (cap : Z) cells (enq deq : Z).
Hypothesis Hcap : good_cap cap.
Hypothesis Hok : ok cap cells enq deq.

Lemma vy_cap_pos : 0 < cap.
Proof. destruct Hcap. lia. Qed.

Lemma vy_enq_cell : cell_at cap cells enq = cell_at cap cells (deq + len enq deq).
Proof.
  rewrite (vy_enq_eq _ _ _ _ Hok) at 1. apply vy_cell_at_wrap. by destruct Hcap.
Qed.

(** A producer finds its own position in the cell exactly when there is room,
    and an older one when the ring is full. *)
Lemma vy_push_room : len enq deq < cap -> sequence (cell_at cap cells enq) = enq.
Proof.
  intros. rewrite vy_enq_cell, (ok_free _ _ _ _ Hok) by lia. symmetry. by eapply vy_enq_eq.
Qed.

Lemma vy_push_full : len enq deq = cap ->
  signed_diff (sequence (cell_at cap cells enq)) enq = 1 - cap.
Proof.
  intros Hl. destruct Hcap. rewrite vy_enq_cell, Hl.
  replace (cell_at cap cells (deq + cap)) with (cell_at cap cells (deq + 0)).
  - destruct (ok_full _ _ _ _ Hok 0) as (v & ->); [lia|]. simpl.
    rewrite (vy_enq_eq _ _ _ _ Hok), Hl. rewrite vy_diff_wrap by lia. lia.
  - unfold cell_at. f_equal. rewrite Z.add_0_r. by rewrite <- (Z.mul_1_l cap) at 2; rewrite Z.mod_add by lia.
Qed.

Lemma vy_pop_empty : len enq deq = 0 ->
  signed_diff (sequence (cell_at cap cells deq)) (wadd 64 deq 1) = -1.
Proof.
  intros Hl. destruct Hcap. pose proof (ok_free _ _ _ _ Hok 0) as Hf.
  rewrite Z.add_0_r in Hf. rewrite Hf by lia. unfold wadd. rewrite vy_diff_wrap by lia. lia.
Qed.

Lemma vy_pop_ready : 0 < len enq deq ->
  exists v, cell_at cap cells deq = mkCell (wadd 64 deq 1) (Some v).
Proof.
  intros Hl. destruct (ok_full _ _ _ _ Hok 0) as (v & E); [lia|].
  rewrite Z.add_0_r in E. by exists v.
Qed.

Lemma vy_length_contents : length (contents cap cells enq deq) = Z.to_nat (len enq deq).
Proof.
  unfold contents. pose proof (vy_len_range enq deq).
  assert (forall n : nat, Z.of_nat n <= len enq deq ->
    length (omap data (ring_list blank cells cap deq n)) = n) as Hn; [|apply Hn; lia].
  induction n as [|n IH]; intros Hn; [done|].
  replace (S n) with (n + 1)%nat by lia.
  rewrite ring_list_app, omap_app, length_app, IH by lia.
  unfold ring_list. simpl. rewrite Z.add_0_r.
  destruct (ok_full _ _ _ _ Hok (Z.of_nat n)) as (v & E); [lia|].
  unfold cell_at in E. by rewrite E.
Qed.

(** Writing and publishing the enqueue cell appends. *)
Definition push_cells (v : A) : gmap Z (cell A) :=
  wr cells (enq `mod` cap) (mkCell (wadd 64 enq 1) (Some v)).

Lemma vy_push_ok v : len enq deq < cap -> ok cap (push_cells v) (wadd 64 enq 1) deq.
Proof.
  intros Hl. pose proof Hok as [He Hd _ Hfull Hfree]. destruct Hcap as [Hc Hdiv].
  pose proof (vy_len_range enq deq) as Hr. pose proof (vy_enq_eq _ _ _ _ Hok) as Ee.
  assert (enq `mod` cap = (deq + len enq deq) `mod` cap) as Ei.
  { rewrite Ee at 1. by apply vy_wrap_mod. }
  split; rewrite ?vy_len_push by lia; try done.
  - unfold wadd. apply wrap_range. lia.
  - lia.
  - intros j Hj. unfold cell_at, push_cells. rewrite Ei.
    destruct (decide (j = len enq deq)) as [->|Hne].
    + rewrite rd_wr_eq. exists v. f_equal. rewrite Ee at 1. unfold wadd, wrap.
      by rewrite Zplus_mod_idemp_l.
    + rewrite rd_wr_ne by (intros E; apply ring_index_inj in E; lia). apply Hfull. lia.
  - intros j Hj. unfold cell_at, push_cells. rewrite Ei.
    rewrite rd_wr_ne by (intros E; apply ring_index_inj in E; lia). apply Hfree. lia.
Qed.

Lemma vy_push_contents v : len enq deq < cap ->
  contents cap (push_cells v) (wadd 64 enq 1) deq = contents cap cells enq deq ++ [v].
Proof.
  intros Hl. destruct Hcap as [Hc Hdiv]. pose proof (vy_len_range enq deq) as Hr.
  unfold contents, push_cells. rewrite vy_len_push by lia.
  replace (enq `mod` cap) with ((deq + Z.of_nat (Z.to_nat (len enq deq))) `mod` cap).
  2:{ rewrite Z2Nat.id by lia. rewrite (vy_enq_eq _ _ _ _ Hok) at 2. by rewrite vy_wrap_mod. }
  replace (Z.to_nat (len enq deq + 1)) with (S (Z.to_nat (len enq deq))) by lia.
  rewrite ring_list_push by lia. by rewrite omap_app.
Qed.

(** Reading and releasing the dequeue cell removes the oldest element. *)
Definition pop_cells : gmap Z (cell A) :=
  wr cells (deq `mod` cap) (mkCell (wadd 64 deq cap) (data (cell_at cap cells deq))).

Lemma vy_pop_ok : 0 < len enq deq -> ok cap pop_cells enq (wadd 64 deq 1).
Proof.
  intros Hl. pose proof Hok as [He Hd Hle Hfull Hfree]. destruct Hcap as [Hc Hdiv].
  pose proof (vy_len_pop enq deq Hl) as El.
  assert (forall j, cell_at cap pop_cells (wadd 64 deq 1 + j)
                    = rd blank pop_cells ((deq + (j + 1)) `mod` cap)) as Ec.
  { intros j. unfold cell_at. f_equal. rewrite <- Zplus_mod_idemp_l. unfold wadd.
    rewrite vy_wrap_mod by done. rewrite Zplus_mod_idemp_l. f_equal. lia. }
  assert (forall j, wrap 64 (wadd 64 deq 1 + j) = wrap 64 (deq + (j + 1))) as Ew.
  { intros j. unfold wadd, wrap. rewrite Zplus_mod_idemp_l. f_equal. lia. }
  unfold pop_cells in Ec.
  assert (forall i, 0 <= i < cap - 1 ->
    rd blank pop_cells ((deq + (i + 1)) `mod` cap) = cell_at cap cells (deq + (i + 1))) as Eo.
  { intros i Hi. unfold pop_cells, cell_at. apply rd_wr_ne.
    rewrite <- (Z.add_0_r deq) at 1. intros E. apply ring_index_inj in E; lia. }
  split; rewrite ?El; try done.
  - unfold wadd. apply wrap_range. lia.
  - lia.
  - intros j Hj. unfold pop_cells. rewrite Ec. fold pop_cells. rewrite Eo by lia.
    destruct (Hfull (j + 1)) as (v & ->); [lia|]. exists v. f_equal.
    replace (wadd 64 deq 1 + j + 1) with (wadd 64 deq 1 + (j + 1)) by lia.
    rewrite Ew. f_equal. lia.
  - intros j Hj. unfold pop_cells. rewrite Ec, Ew. fold pop_cells.
    destruct (decide (j = cap - 1)) as [->|Hne].
    + unfold pop_cells. replace (deq + (cap - 1 + 1)) with (deq + 1 * cap) by lia.
      rewrite Z.mod_add by lia. rewrite rd_wr_eq. unfold wadd. simpl. f_equal. lia.
    + rewrite Eo by lia. apply Hfree. lia.
Qed.

Lemma vy_pop_contents v : 0 < len enq deq -> data (cell_at cap cells deq) = Some v ->
  contents cap cells enq deq = v :: contents cap pop_cells enq (wadd 64 deq 1).
Proof.
  intros Hl Hv. destruct Hcap as [Hc Hdiv]. pose proof (ok_len _ _ _ _ Hok).
  unfold contents. rewrite vy_len_pop by lia.
  replace (Z.to_nat (len enq deq)) with (S (Z.to_nat (len enq deq - 1))) by lia.
  rewrite ring_list_S_l. unfold cell_at in Hv. simpl. rewrite Hv. f_equal. f_equal.
  apply ring_list_ext. intros j Hj. unfold pop_cells.
  replace ((wadd 64 deq 1 + Z.of_nat j) `mod` cap) with ((deq + 1 + Z.of_nat j) `mod` cap).
  2:{ rewrite <- (Zplus_mod_idemp_l (wadd 64 deq 1)). unfold wadd. rewrite vy_wrap_mod by done.
      by rewrite Zplus_mod_idemp_l. }
  symmetry. apply rd_wr_ne. rewrite <- (Z.add_0_r deq) at 1.
  replace (deq + 1 + Z.of_nat j) with (deq + (1 + Z.of_nat j)) by lia.
  intros E. apply ring_index_inj in E; lia.
Qed.
End ring.
End vyukov.
End Vyukov.
