(* ===== verification/Warehouse.v ===== *)
(** * Warehouse

    The scheduler's overflow store: [Warehouse] and [warehouse_backoff] of
    [src/src/dta_scheduler.rs].  [Module Warehouse] has the operations as
    one thread runs them, at 64-bit width, and discharges the laws of
    [Fifo]; the counters may wrap because the capacity divides [2^64].
    Concurrent use is the subject of [VyukovRace]. *)

From S2P Require Import Prelude Ring Fifo Mailbox Vyukov.

Module Warehouse.

Definition WAREHOUSE_CAPACITY : Z := 32768.
Definition WAREHOUSE_MASK : Z := WAREHOUSE_CAPACITY - 1.

Definition slot : Type := cell TaskChunk.

Record t := mk {
  backlog : Z;
  tail : Z;
  head : Z;
  slots : gmap Z slot
}.

(** [for i in 0..n { slots[i].seq.store(i) }] *)
Fixpoint init_slots (n : nat) : gmap Z slot :=
  match n with
  | O => ∅
  | S i => wr (init_slots i) (Z.of_nat i) (mkCell (Z.of_nat i) None)
  end.

Definition new : t :=
  {| backlog := 0; tail := 0; head := 0; slots := init_slots (Z.to_nat WAREHOUSE_CAPACITY) |}.

(** ** Back-off *)

Definition backoff_base (worker_id : Z) : Z := wadd 64 (Z.land (wmul 64 worker_id 7) 31) 1.

Definition backoff_cycles (worker_id retry : Z) : Z :=
  Z.shiftl (backoff_base worker_id) (Z.min retry 6).

(** [nop; dec n; jnz]: the number of turns, [n] being a 64-bit register. *)
Fixpoint nop_loop (fuel : nat) (turns n : Z) : outcome Z :=
  match fuel with
  | O => OutOfFuel
  | S fuel' =>
      let n' := wsub 64 n 1 in
      if n' =? 0 then Done (turns + 1) else nop_loop fuel' (turns + 1) n'
  end.

Definition warehouse_backoff (fuel : nat) (worker_id retry : Z) : outcome Z :=
  nop_loop fuel 0 (backoff_cycles worker_id retry).

(** ** Operations *)

Definition slot_at (wh : t) (pos : Z) : slot :=
  rd Vyukov.blank (slots wh) (Z.land pos WAREHOUSE_MASK).

(** The compare-exchange fails only when another thread moved [tail]; the
    back-off before a retry spends cycles and changes no state. *)
Fixpoint push_loop (fuel : nat) (pos : Z) (chunk : TaskChunk) (wh : t)
  : outcome (result unit TaskChunk * t) :=
  match fuel with
  | O => OutOfFuel
  | S fuel' =>
      let seq := sequence (slot_at wh pos) in
      match Z.compare (Vyukov.signed_diff seq pos) 0 with
      | Eq =>
          if tail wh =? pos then
            Done (Ok tt,
                  {| backlog := wadd 32 (backlog wh) 1;
                     tail := wadd 64 pos 1;
                     head := head wh;
                     slots := wr (slots wh) (Z.land pos WAREHOUSE_MASK)
                                 (mkCell (wadd 64 pos 1) (Some chunk)) |})
          else push_loop fuel' (tail wh) chunk wh
      | Lt => Done (Err chunk, wh)
      | Gt => push_loop fuel' (tail wh) chunk wh
      end
  end.

(** [assume_init_read] of a payload never written is undefined behaviour,
    rendered as [Panic]. *)
Fixpoint pop_loop (fuel : nat) (pos : Z) (wh : t) : outcome (option TaskChunk * t) :=
  match fuel with
  | O => OutOfFuel
  | S fuel' =>
      let c := slot_at wh pos in
      match Z.compare (Vyukov.signed_diff (sequence c) (wadd 64 pos 1)) 0 with
      | Eq =>
          if head wh =? pos then
            match data c with
            | Some chunk =>
                Done (Some chunk,
                      {| backlog := wsub 32 (backlog wh) 1;
                         tail := tail wh;
                         head := wadd 64 pos 1;
                         slots := wr (slots wh) (Z.land pos WAREHOUSE_MASK)
                                     (mkCell (wadd 64 pos WAREHOUSE_CAPACITY) (data c)) |})
            | None => Panic
            end
          else pop_loop fuel' (head wh) wh
      | Lt => Done (None, wh)
      | Gt => pop_loop fuel' (head wh) wh
      end
  end.

(** Turns of the retry loop granted to a thread running alone; one is used. *)
Definition retry_fuel : nat := 4.

Definition push (chunk : TaskChunk) (wh : t) : outcome (result unit TaskChunk * t) :=
  push_loop retry_fuel (tail wh) chunk wh.

Definition pop (wh : t) : outcome (option TaskChunk * t) :=
  pop_loop retry_fuel (head wh) wh.

Definition is_busy (wh : t) : bool := negb (backlog wh =? 0).

(** ** Refinement *)

Definition contents (wh : t) : list TaskChunk :=
  Vyukov.contents WAREHOUSE_CAPACITY (slots wh) (tail wh) (head wh).

Definition max_len : nat := Z.to_nat WAREHOUSE_CAPACITY.

Definition ok (wh : t) : Prop :=
  Vyukov.ok WAREHOUSE_CAPACITY (slots wh) (tail wh) (head wh) /\
  backlog wh = Vyukov.len (tail wh) (head wh).

Lemma wh_good_cap : Vyukov.good_cap WAREHOUSE_CAPACITY.
Proof. split; [done|]. by exists (2 ^ 49). Qed.

Lemma wh_mask_mod x : Z.land x WAREHOUSE_MASK = x `mod` WAREHOUSE_CAPACITY.
Proof. exact (land_mask 15 x ltac:(lia)). Qed.

Lemma wh_slot_at wh pos : slot_at wh pos = Vyukov.cell_at WAREHOUSE_CAPACITY (slots wh) pos.
Proof. unfold slot_at, Vyukov.cell_at. by rewrite wh_mask_mod. Qed.

Lemma wh_init_slots n i : 0 <= i < Z.of_nat n ->
  rd Vyukov.blank (init_slots n) i = mkCell i None.
Proof.
  induction n as [|n IH]; intros Hi; [lia|]. cbn [init_slots].
  destruct (decide (i = Z.of_nat n)) as [->|]; [apply rd_wr_eq|].
  rewrite rd_wr_ne by done. apply IH. lia.
Qed.

(** The initial sequence numbers satisfy the ring's invariant. *)
Lemma wh_init_ok n : Z.of_nat n <= 2 ^ 62 ->
  Vyukov.ok (Z.of_nat n) (init_slots n) 0 0.
Proof.
  intros Hn. assert (Vyukov.len 0 0 = 0) as El by done.
  split; rewrite ?El; [done|done|lia|lia|].
  intros j Hj. unfold Vyukov.cell_at.
  rewrite Z.add_0_l, Z.mod_small, wh_init_slots by lia. simpl. symmetry.
  apply wrap_small. lia.
Qed.

Lemma wh_new_ok : ok new.
Proof.
  split; [|reflexivity]. unfold new. cbn [slots tail head].
  rewrite <- (Z2Nat.id WAREHOUSE_CAPACITY) at 1 by done. apply wh_init_ok.
  unfold WAREHOUSE_CAPACITY. lia.
Qed.

Lemma wh_new_contents : contents new = [].
Proof. reflexivity. Qed.

Lemma wh_length_contents wh : ok wh -> length (contents wh) = Z.to_nat (backlog wh).
Proof. intros [Hok ->]. by apply Vyukov.vy_length_contents. Qed.

Lemma wh_backlog_range wh : ok wh -> 0 <= backlog wh <= WAREHOUSE_CAPACITY.
Proof.
  intros [Hok ->]. pose proof (Vyukov.vy_len_range (tail wh) (head wh)).
  destruct Hok. unfold WAREHOUSE_CAPACITY in *. lia.
Qed.

Lemma wh_push_ok wh c : ok wh -> (length (contents wh) < max_len)%nat ->
  exists wh', push c wh = Done (Ok tt, wh') /\ ok wh' /\ contents wh' = contents wh ++ [c].
Proof.
  intros Hok Hl. rewrite wh_length_contents in Hl by done. pose proof (wh_backlog_range wh Hok).
  destruct Hok as [Hok Hb]. unfold max_len in Hl.
  assert (Vyukov.len (tail wh) (head wh) < WAREHOUSE_CAPACITY) as Hlt by lia.
  pose proof wh_good_cap as Hc. unfold push. cbn [retry_fuel push_loop].
  rewrite wh_slot_at, (Vyukov.vy_push_room _ _ _ _ Hc Hok Hlt), Vyukov.vy_diff_eq, Z.eqb_refl.
  simpl.
  eexists; split; [done|]. rewrite wh_mask_mod. unfold ok, contents. simpl. split_and!.
  - by apply Vyukov.vy_push_ok.
  - rewrite Vyukov.vy_len_push by (unfold WAREHOUSE_CAPACITY in *; lia).
    rewrite Hb. apply wadd_small. unfold WAREHOUSE_CAPACITY in *. lia.
  - by apply Vyukov.vy_push_contents.
Qed.

Lemma wh_push_full wh c : ok wh -> length (contents wh) = max_len ->
  push c wh = Done (Err c, wh).
Proof.
  intros Hok Hl. rewrite wh_length_contents in Hl by done. pose proof (wh_backlog_range wh Hok).
  destruct Hok as [Hok Hb]. unfold max_len in Hl. unfold push. cbn [retry_fuel push_loop].
  rewrite wh_slot_at, (Vyukov.vy_push_full _ _ _ _ wh_good_cap Hok) by lia. done.
Qed.

Lemma wh_pop_some wh c l : ok wh -> contents wh = c :: l ->
  exists wh', pop wh = Done (Some c, wh') /\ ok wh' /\ contents wh' = l.
Proof.
  intros Hok E. pose proof (wh_backlog_range wh Hok).
  pose proof (wh_length_contents wh Hok) as Hl. rewrite E in Hl. simpl in Hl.
  destruct Hok as [Hok Hb]. pose proof wh_good_cap as Hc.
  assert (0 < Vyukov.len (tail wh) (head wh)) as Hlt by lia.
  destruct (Vyukov.vy_pop_ready _ _ _ _ Hok Hlt) as (v & Ev).
  unfold contents in E.
  rewrite (Vyukov.vy_pop_contents _ _ _ _ Hc Hok v) in E by (done || by rewrite Ev). simplify_eq.
  unfold pop. cbn [retry_fuel pop_loop].
  rewrite wh_slot_at, Ev, Vyukov.vy_diff_eq, Z.eqb_refl. simpl.
  eexists; split; [done|]. rewrite wh_mask_mod. unfold ok, contents. simpl.
  pose proof (Vyukov.vy_pop_ok _ _ _ _ Hc Hok Hlt) as Hok'. unfold Vyukov.pop_cells in *.
  rewrite Ev in *. split_and!; [done| |done].
  rewrite Vyukov.vy_len_pop by done. rewrite Hb. apply wsub_small.
  unfold WAREHOUSE_CAPACITY in *. lia.
Qed.

Lemma wh_pop_none wh : ok wh -> contents wh = [] -> pop wh = Done (None, wh).
Proof.
  intros Hok E. pose proof (wh_backlog_range wh Hok).
  pose proof (wh_length_contents wh Hok) as Hl. rewrite E in Hl. simpl in Hl.
  destruct Hok as [Hok Hb]. unfold pop. cbn [retry_fuel pop_loop].
  rewrite wh_slot_at, (Vyukov.vy_pop_empty _ _ _ _ wh_good_cap Hok) by lia. done.
Qed.

#[global] Instance warehouse_fifo : FifoQueue t TaskChunk := {|
  q_ok := ok; q_list := contents; q_cap := fun _ => max_len; q_push := push; q_pop := pop |}.

#[global] Instance warehouse_laws : FifoLaws t TaskChunk.
Proof.
  split.
  - intros q x Hok Hl. destruct (wh_push_ok q x Hok Hl) as (q' & ? & ? & ?). by exists q'.
  - apply wh_push_full.
  - intros q x l Hok E. destruct (wh_pop_some q x l Hok E) as (q' & ? & ? & ?). by exists q'.
  - apply wh_pop_none.
  - intros q Hok. unfold q_list, q_cap. simpl. rewrite wh_length_contents by done.
    pose proof (wh_backlog_range q Hok). unfold max_len. lia.
Qed.

Lemma wh_is_busy wh : ok wh -> is_busy wh = false <-> contents wh = [].
Proof.
  intros Hok. pose proof (wh_backlog_range wh Hok). pose proof (wh_length_contents wh Hok) as Hl.
  unfold is_busy. rewrite negb_false_iff, Z.eqb_eq. split.
  - intros E. apply nil_length_inv. lia.
  - intros E. rewrite E in Hl. simpl in Hl. lia.
Qed.

Lemma wh_nop_loop n : forall fuel turns, 0 < n < 2 ^ 64 -> (Z.to_nat n <= fuel)%nat ->
  nop_loop fuel turns n = Done (turns + n).
Proof.
  intros fuel. revert n. induction fuel as [|fuel IH]; intros n turns Hn Hf; [lia|].
  cbn [nop_loop]. rewrite wsub_small by lia. case_test.
  - f_equal. lia.
  - rewrite IH by lia. f_equal. lia.
Qed.

Lemma wh_backoff_base_range worker_id : 1 <= backoff_base worker_id <= 32.
Proof.
  unfold backoff_base. pose proof (land_mask 5 (wmul 64 worker_id 7) ltac:(lia)) as E.
  change (2 ^ 5 - 1) with 31 in E. rewrite E.
  pose proof (Z.mod_pos_bound (wmul 64 worker_id 7) (2 ^ 5) ltac:(lia)).
  rewrite wadd_small; lia.
Qed.

Lemma wh_backoff_cycles_range worker_id retry : 0 <= retry ->
  1 <= backoff_cycles worker_id retry <= 2048.
Proof.
  intros Hr. pose proof (wh_backoff_base_range worker_id). unfold backoff_cycles.
  rewrite Z.shiftl_mul_pow2 by lia.
  assert (1 <= 2 ^ Z.min retry 6 <= 64); [|nia].
  change 64 with (2 ^ 6). change 1 with (2 ^ 0) at 1. split; apply Z.pow_le_mono_r; lia.
Qed.

End Warehouse.

(** C3.  A warehouse used by one thread at a time is a bounded FIFO queue
    of [WAREHOUSE_CAPACITY] chunks for every sequence of operations, however
    often the 64-bit counters wrap; no call loops. *)
Theorem warehouse_refines_bounded_fifo (os : list (fifo_op TaskChunk)) :
  exists rs wh, impl_run Warehouse.new os = Done (rs, wh) /\
    (rs, Warehouse.contents wh) = spec_run Warehouse.max_len [] os /\
    Warehouse.backlog wh = Z.of_nat (length (Warehouse.contents wh)).
Proof.
  destruct (impl_run_refines Warehouse.new os) as (rs & wh & E & H & Hok & _);
    [exact Warehouse.wh_new_ok|].
  exists rs, wh. split_and!; [done|done|]. rewrite Warehouse.wh_length_contents by done.
  pose proof (Warehouse.wh_backlog_range wh Hok). lia.
Qed.

(** The back-off delay loop terminates for every worker id (the host
    sentinel included) and every retry count, after between 1 and 2048 turns:
    the counted loop never starts at zero, where it would run [2^64] turns. *)
Theorem warehouse_backoff_bounded (worker_id retry : Z) :
  0 <= retry ->
  exists turns, Warehouse.warehouse_backoff 2048 worker_id retry = Done turns /\
    turns = Warehouse.backoff_cycles worker_id retry /\ 1 <= turns <= 2048.
Proof.
  intros Hr. pose proof (Warehouse.wh_backoff_cycles_range worker_id retry Hr).
  eexists; split; [apply Warehouse.wh_nop_loop; lia|]. lia.
Qed.

(** Worker 7 spins 1152 turns at the cap of the exponent. *)
Lemma warehouse_backoff_bounded_witness :
  exists turns, Warehouse.warehouse_backoff 2048 7 9 = Done turns /\
    turns = Warehouse.backoff_cycles 7 9 /\ 1 <= turns <= 2048.
Proof. apply (warehouse_backoff_bounded 7 9). lia. Defined.
