(* ===== verification/VyukovRace.v ===== *)
(** * VyukovRace

    Any number of producers and consumers on one sequence-numbered ring
    ([Warehouse] and [BoundedMpmcQueue]), interleaved access by access.  The
    steps follow [push]/[try_push] and [pop]/[try_pop] line by line: load the
    shared counter, load the cell's sequence number, compare-exchange the
    counter (which may fail spuriously), touch the payload, store the
    sequence number.  Counters are 64-bit words; executions are those in
    which fewer than [2^62] pushes have claimed a position.

    The memory is sequentially consistent. *)

From S2P Require Import Prelude Ring Vyukov.

Module VyukovRace.
Section race.
Context {A : Type} (cap : Z).

(** The next access of a thread. *)
Inductive pc :=
| Idle
| PushStart (v : A)
| PushSeq (v : A) (pos : Z)
| PushCas (v : A) (pos : Z)
| PushWrite (v : A) (pos : Z)
| PushPub (v : A) (pos : Z)
| PopStart
| PopSeq (pos : Z)
| PopCas (pos : Z)
| PopRead (pos : Z)
| PopRel (pos : Z) (v : A).

(** The shared ring, and two histories: the values in the order their pushes
    claimed positions, and the pairs of position and value the pops
    returned. *)
Record shared := mkShared {
  cells : gmap Z (cell A);
  enq : Z;
  deq : Z;
  log : list A;
  delivered : list (Z * A)
}.

Definition seq_of (sh : shared) (i : Z) : Z := sequence (rd Vyukov.blank (cells sh) i).
Definition data_of (sh : shared) (i : Z) : option A := data (rd Vyukov.blank (cells sh) i).

Definition write_data (i : Z) (v : A) (sh : shared) : shared :=
  {| cells := wr (cells sh) i (mkCell (seq_of sh i) (Some v));
     enq := enq sh; deq := deq sh; log := log sh; delivered := delivered sh |}.

Definition store_seq (i x : Z) (sh : shared) : shared :=
  {| cells := wr (cells sh) i (mkCell x (data_of sh i));
     enq := enq sh; deq := deq sh; log := log sh; delivered := delivered sh |}.

Definition claim_push (pos : Z) (v : A) (sh : shared) : shared :=
  {| cells := cells sh; enq := wadd 64 pos 1; deq := deq sh;
     log := log sh ++ [v]; delivered := delivered sh |}.

Definition claim_pop (pos : Z) (sh : shared) : shared :=
  {| cells := cells sh; enq := enq sh; deq := wadd 64 pos 1;
     log := log sh; delivered := delivered sh |}.

Definition deliver (pos : Z) (v : A) (sh : shared) : shared :=
  {| cells := cells sh; enq := enq sh; deq := deq sh;
     log := log sh; delivered := delivered sh ++ [(pos, v)] |}.

Inductive thread_step (sh : shared) : pc -> shared -> pc -> Prop :=
| t_push v : thread_step sh Idle sh (PushStart v)
| t_push_load v : thread_step sh (PushStart v) sh (PushSeq v (enq sh))
| t_push_equal v pos :
    Vyukov.signed_diff (seq_of sh (pos `mod` cap)) pos = 0 ->
    thread_step sh (PushSeq v pos) sh (PushCas v pos)
| t_push_less v pos :
    Vyukov.signed_diff (seq_of sh (pos `mod` cap)) pos < 0 ->
    thread_step sh (PushSeq v pos) sh Idle
| t_push_greater v pos :
    0 < Vyukov.signed_diff (seq_of sh (pos `mod` cap)) pos ->
    thread_step sh (PushSeq v pos) sh (PushStart v)
| t_push_cas v pos : enq sh = pos ->
    thread_step sh (PushCas v pos) (claim_push pos v sh) (PushWrite v pos)
| t_push_cas_fail v pos : thread_step sh (PushCas v pos) sh (PushSeq v (enq sh))
| t_push_cas_reload v pos : thread_step sh (PushCas v pos) sh (PushStart v)
| t_push_write v pos :
    thread_step sh (PushWrite v pos) (write_data (pos `mod` cap) v sh) (PushPub v pos)
| t_push_publish v pos :
    thread_step sh (PushPub v pos) (store_seq (pos `mod` cap) (wadd 64 pos 1) sh) Idle
| t_pop : thread_step sh Idle sh PopStart
| t_pop_load : thread_step sh PopStart sh (PopSeq (deq sh))
| t_pop_equal pos :
    Vyukov.signed_diff (seq_of sh (pos `mod` cap)) (wadd 64 pos 1) = 0 ->
    thread_step sh (PopSeq pos) sh (PopCas pos)
| t_pop_less pos :
    Vyukov.signed_diff (seq_of sh (pos `mod` cap)) (wadd 64 pos 1) < 0 ->
    thread_step sh (PopSeq pos) sh Idle
| t_pop_greater pos :
    0 < Vyukov.signed_diff (seq_of sh (pos `mod` cap)) (wadd 64 pos 1) ->
    thread_step sh (PopSeq pos) sh PopStart
| t_pop_cas pos : deq sh = pos ->
    thread_step sh (PopCas pos) (claim_pop pos sh) (PopRead pos)
| t_pop_cas_fail pos : thread_step sh (PopCas pos) sh (PopSeq (deq sh))
| t_pop_cas_reload pos : thread_step sh (PopCas pos) sh PopStart
| t_pop_read pos v : data_of sh (pos `mod` cap) = Some v ->
    thread_step sh (PopRead pos) sh (PopRel pos v)
| t_pop_release pos v :
    thread_step sh (PopRel pos v)
      (deliver pos v (store_seq (pos `mod` cap) (wadd 64 pos cap) sh)) Idle.

Definition state : Type := shared * gmap nat pc.

Inductive step : state -> state -> Prop :=
| step_thread sh pcs t p sh' p' :
    pcs !! t = Some p -> thread_step sh p sh' p' -> enq sh' < 2 ^ 62 ->
    step (sh, pcs) (sh', <[t := p']> pcs).

Definition init (s : state) : Prop :=
  (forall i, 0 <= i < cap -> seq_of s.1 i = i) /\
  enq s.1 = 0 /\ deq s.1 = 0 /\ log s.1 = [] /\ delivered s.1 = [] /\
  (forall t p, s.2 !! t = Some p -> p = Idle).

(** ** Invariant

    Every cell is in one of four phases of its current position [cur]. *)

Inductive phase := Free | Writing (t : nat) | Full | Reading (t : nat).

Definition owner (f : phase) : option nat :=
  match f with Writing t | Reading t => Some t | Free | Full => None end.

Definition logged (sh : shared) (pos : Z) (v : A) : Prop :=
  0 <= pos /\ log sh !! Z.to_nat pos = Some v.

Definition cell_inv (sh : shared) (pcs : gmap nat pc) (i c : Z) (f : phase) : Prop :=
  0 <= c /\ c `mod` cap = i /\ enq sh - cap <= c < deq sh + cap /\
  match f with
  | Free => seq_of sh i = c /\ enq sh <= c
  | Writing t => seq_of sh i = c /\ deq sh <= c < enq sh /\
      exists v, logged sh c v /\
        (pcs !! t = Some (PushWrite v c) \/
         (pcs !! t = Some (PushPub v c) /\ data_of sh i = Some v))
  | Full => seq_of sh i = c + 1 /\ deq sh <= c < enq sh /\
      exists v, logged sh c v /\ data_of sh i = Some v
  | Reading t => seq_of sh i = c + 1 /\ c < deq sh /\
      exists v, logged sh c v /\ data_of sh i = Some v /\
        (pcs !! t = Some (PopRead c) \/ pcs !! t = Some (PopRel c v))
  end.

Definition thread_inv (sh : shared) (cur : Z -> Z) (ph : Z -> phase) (t : nat) (p : pc) : Prop :=
  match p with
  | Idle | PushStart _ | PopStart => True
  | PushSeq _ pos => 0 <= pos <= enq sh
  | PushCas _ pos => 0 <= pos <= enq sh /\
      (pos = enq sh -> ph (pos `mod` cap) = Free /\ cur (pos `mod` cap) = pos)
  | PushWrite _ pos | PushPub _ pos =>
      ph (pos `mod` cap) = Writing t /\ cur (pos `mod` cap) = pos
  | PopSeq pos => 0 <= pos <= deq sh
  | PopCas pos => 0 <= pos <= deq sh /\
      (pos = deq sh -> ph (pos `mod` cap) = Full /\ cur (pos `mod` cap) = pos)
  | PopRead pos | PopRel pos _ =>
      ph (pos `mod` cap) = Reading t /\ cur (pos `mod` cap) = pos
  end.

Record inv_at (sh : shared) (pcs : gmap nat pc) (cur : Z -> Z) (ph : Z -> phase) : Prop := {
  i_counters : 0 <= deq sh <= enq sh /\ enq sh < 2 ^ 62 /\ enq sh = Z.of_nat (length (log sh));
  i_cells : forall i, 0 <= i < cap -> cell_inv sh pcs i (cur i) (ph i);
  i_threads : forall t p, pcs !! t = Some p -> thread_inv sh cur ph t p;
  i_delivered : forall p v, (p, v) ∈ delivered sh ->
    p < deq sh /\ logged sh p v /\ p < cur (p `mod` cap);
  i_nodup : NoDup (delivered sh).*1;
  i_all : forall p, 0 <= p < deq sh ->
    p ∈ (delivered sh).*1 \/
    exists t, ph (p `mod` cap) = Reading t /\ cur (p `mod` cap) = p
}.

Definition inv (s : state) : Prop := exists cur ph, inv_at s.1 s.2 cur ph.

Definition upd {B} (f : Z -> B) (i : Z) (x : B) : Z -> B := fun j => if j =? i then x else f j.

Lemma upd_eq {B} (f : Z -> B) i x : upd f i x i = x.
Proof. unfold upd. by rewrite Z.eqb_refl. Qed.

Lemma upd_ne {B} (f : Z -> B) i j x : j <> i -> upd f i x j = f j.
Proof. intros. unfold upd. by rewrite (proj2 (Z.eqb_neq j i)). Qed.

Hypothesis Hcap : 2 <= cap <= 2 ^ 62.

Lemma vr_diff_small x y : 0 <= x < 2 ^ 63 -> 0 <= y < 2 ^ 63 -> Vyukov.signed_diff x y = x - y.
Proof.
  intros. rewrite <- (wrap_small 64 x), <- (wrap_small 64 y) at 1 by lia.
  apply Vyukov.vy_diff_wrap. lia.
Qed.

Lemma vr_mod_range x : 0 <= x `mod` cap < cap.
Proof. apply Z.mod_pos_bound. lia. Qed.

(** A cell whose sequence number is congruent to its index is not published. *)
Lemma vr_seq_phase c pos : c + 1 = pos -> c `mod` cap = pos `mod` cap -> False.
Proof.
  intros <- E. rewrite <- (Z.add_0_r c) in E at 1.
  apply ring_index_inj in E; lia.
Qed.

(** The position a thread owns. *)
Definition pc_pos (p : pc) : option Z :=
  match p with
  | PushWrite _ pos | PushPub _ pos | PopRead pos | PopRel pos _ => Some pos
  | _ => None
  end.

Lemma vr_owner_pos sh pcs i c f t p :
  cell_inv sh pcs i c f -> owner f = Some t -> pcs !! t = Some p -> pc_pos p = Some c.
Proof. intros (_ & _ & _ & H) Ho Hp. destruct f; simplify_eq/=; naive_solver. Qed.

Lemma vr_owner_index sh pcs cur ph i t p pos :
  inv_at sh pcs cur ph -> 0 <= i < cap -> owner (ph i) = Some t -> pcs !! t = Some p ->
  pc_pos p = Some pos -> i = pos `mod` cap.
Proof.
  intros Hi Hr Ho Hp Hpos. pose proof (i_cells _ _ _ _ Hi i Hr) as Hc.
  rewrite (vr_owner_pos _ _ _ _ _ _ _ Hc Ho Hp) in Hpos. injection Hpos as <-.
  by destruct Hc as (_ & ? & _).
Qed.

Lemma vr_cell_inv_pcs sh pcs pcs' i c f :
  (forall t, owner f = Some t -> pcs' !! t = pcs !! t) ->
  cell_inv sh pcs i c f -> cell_inv sh pcs' i c f.
Proof.
  intros H (? & ? & ? & Hf). unfold cell_inv. do 3 (split; [done|]).
  destruct f; simpl in *; rewrite ?(H _ eq_refl); exact Hf.
Qed.

(** A step that leaves the ring alone, by a thread that owns no cell. *)
Lemma vr_inv_local sh pcs cur ph t p p' :
  inv_at sh pcs cur ph -> pcs !! t = Some p -> pc_pos p = None ->
  thread_inv sh cur ph t p' -> inv_at sh (<[t := p']> pcs) cur ph.
Proof.
  intros Hi Hp Hpos Ht. pose proof Hi as [H1 H2 H3 H4 H5 H6]. split; try done.
  - intros i Hr. apply vr_cell_inv_pcs with pcs; [|by apply H2].
    intros t' Ho. apply lookup_insert_ne. intros <-.
    pose proof (vr_owner_pos _ _ _ _ _ _ _ (H2 i Hr) Ho Hp). congruence.
  - intros t' q. destruct (decide (t = t')) as [<-|].
    + rewrite lookup_insert_eq. by intros [= <-].
    + rewrite lookup_insert_ne by done. apply H3.
Qed.

(** The other threads' knowledge survives when cell [i] changes phase. *)
Lemma vr_threads_upd sh sh' cur ph i c f t p :
  thread_inv sh cur ph t p -> enq sh <= enq sh' -> deq sh <= deq sh' ->
  owner (ph i) <> Some t ->
  (enq sh' = enq sh -> ph i <> Free) -> (deq sh' = deq sh -> ph i <> Full) ->
  thread_inv sh' (upd cur i c) (upd ph i f) t p.
Proof.
  intros Ht He Hd Ho Hfree Hfull. destruct p; simpl in *; try done; try lia;
    (destruct (decide (pos `mod` cap = i)) as [Hi|Hi];
      [rewrite Hi in *; rewrite !upd_eq | rewrite !upd_ne by done]).
  all: try (destruct Ht as [Ht _]; rewrite Ht in Ho; done).
  all: try done.
  all: destruct Ht as [? Ht]; split; [lia|]; intros ->; try (apply Ht; lia).
  all: exfalso; destruct Ht as [Ht _]; [lia|].
  - apply Hfree; [lia|done].
  - apply Hfull; [lia|done].
Qed.

Lemma vr_threads_insert sh sh' (pcs : gmap nat pc) cur ph i c f t p' :
  (forall u q, pcs !! u = Some q -> thread_inv sh cur ph u q) ->
  enq sh <= enq sh' -> deq sh <= deq sh' ->
  (forall u, u <> t -> owner (ph i) <> Some u) ->
  (enq sh' = enq sh -> ph i <> Free) -> (deq sh' = deq sh -> ph i <> Full) ->
  thread_inv sh' (upd cur i c) (upd ph i f) t p' ->
  forall u q, <[t := p']> pcs !! u = Some q -> thread_inv sh' (upd cur i c) (upd ph i f) u q.
Proof.
  intros H ? ? Ho ? ? Ht u q. destruct (decide (t = u)) as [<-|].
  - rewrite lookup_insert_eq. by intros [= <-].
  - rewrite lookup_insert_ne by done. intros Hq. apply (vr_threads_upd sh); auto.
Qed.

(** Two cells never share a position modulo the capacity. *)
Lemma vr_cur_ne sh pcs i j c f c' f' :
  cell_inv sh pcs i c f -> cell_inv sh pcs j c' f' -> i <> j -> c <> c' /\ c + cap <> c'.
Proof.
  intros (_ & Hi & _) (_ & Hj & _) Hne. split; intros <-; apply Hne; [congruence|].
  rewrite <- Hi, <- Hj. replace (c + cap) with (c + 1 * cap) by lia.
  symmetry. apply Z.mod_add. lia.
Qed.

Lemma vr_inv_push_cas sh pcs cur ph t v :
  inv_at sh pcs cur ph -> pcs !! t = Some (PushCas v (enq sh)) ->
  enq (claim_push (enq sh) v sh) < 2 ^ 62 ->
  inv_at (claim_push (enq sh) v sh) (<[t := PushWrite v (enq sh)]> pcs)
         (upd cur (enq sh `mod` cap) (enq sh)) (upd ph (enq sh `mod` cap) (Writing t)).
Proof.
  intros Hi Hp Hb. pose proof Hi as [(Hd & He & Hl) H2 H3 H4 H5 H6].
  pose proof (H3 _ _ Hp) as [_ Hcas]. destruct (Hcas eq_refl) as [Hf Hc].
  pose proof (vr_mod_range (enq sh)) as Hr. set (i := enq sh `mod` cap) in *.
  pose proof (H2 i Hr) as Hci. rewrite Hf, Hc in Hci.
  assert (enq (claim_push (enq sh) v sh) = enq sh + 1) as Ee by (apply wadd_small; lia).
  assert (forall q w, logged sh q w -> logged (claim_push (enq sh) v sh) q w) as Hlog.
  { intros q w [? ?]. split; [done|]. simpl. by apply lookup_app_l_Some. }
  rewrite Ee in Hb. split; rewrite ?Ee.
  - simpl. rewrite length_app. simpl. lia.
  - intros j Hj. destruct (decide (j = i)) as [->|Hne].
    + rewrite !upd_eq. destruct Hci as (? & ? & ? & ? & ?). unfold cell_inv. rewrite Ee. simpl.
      split_and!; try done; try lia. exists v. split.
      * split; [lia|]. simpl. rewrite lookup_app_r by lia. rewrite Hl, Nat2Z.id, Nat.sub_diag. done.
      * left. apply lookup_insert_eq.
    + rewrite !upd_ne by done.
      pose proof (vr_cur_ne _ _ _ _ _ _ _ _ (H2 j Hj) Hci Hne) as [? ?].
      apply vr_cell_inv_pcs with pcs.
      { intros u Ho. apply lookup_insert_ne. intros <-.
        pose proof (vr_owner_pos _ _ _ _ _ _ _ (H2 j Hj) Ho Hp). done. }
      destruct (H2 j Hj) as (? & ? & ? & Hph). unfold cell_inv. rewrite Ee.
      do 3 (split; [done || (simpl; lia)|]).
      destruct (ph j); [naive_solver lia|..];
        destruct Hph as (? & ? & w & ? & ?); split_and!; try done; try (simpl; lia);
        exists w; auto.
  - apply (vr_threads_insert sh); try done; simpl; simpl in Ee; rewrite ?Ee; try lia.
    + intros u _. by rewrite Hf.
    + intros _. by rewrite Hf.
    + fold i. by rewrite !upd_eq.
  - intros q w Hq. destruct (H4 q w Hq) as (? & ? & ?). split_and!; [done|auto|].
    destruct (decide (q `mod` cap = i)) as [Ei|]; [|by rewrite upd_ne].
    rewrite Ei, upd_eq. lia.
  - done.
  - intros q Hq. destruct (H6 q Hq) as [|(u & Hu & Hcu)]; [by left|right]. exists u.
    rewrite !upd_ne; [done|..]; intros E; rewrite E, Hf in Hu; done.
Qed.

Lemma vr_inv_pop_cas sh pcs cur ph t :
  inv_at sh pcs cur ph -> pcs !! t = Some (PopCas (deq sh)) ->
  inv_at (claim_pop (deq sh) sh) (<[t := PopRead (deq sh)]> pcs)
         (upd cur (deq sh `mod` cap) (deq sh)) (upd ph (deq sh `mod` cap) (Reading t)).
Proof.
  intros Hi Hp. pose proof Hi as [(Hd & He & Hl) H2 H3 H4 H5 H6].
  pose proof (H3 _ _ Hp) as [_ Hcas]. destruct (Hcas eq_refl) as [Hf Hc].
  pose proof (vr_mod_range (deq sh)) as Hr. set (i := deq sh `mod` cap) in *.
  pose proof (H2 i Hr) as Hci. rewrite Hf, Hc in Hci.
  destruct Hci as (Hpos & Hidx & Hge & Hseq & Hlt & w & Hw & Hdata).
  assert (deq (claim_pop (deq sh) sh) = deq sh + 1) as Ee by (apply wadd_small; lia).
  split; rewrite ?Ee.
  - simpl. lia.
  - intros j Hj. destruct (decide (j = i)) as [->|Hne].
    + rewrite !upd_eq. unfold cell_inv. rewrite Ee. simpl. split_and!; try done; try lia.
      exists w. split_and!; try done. left. apply lookup_insert_eq.
    + rewrite !upd_ne by done.
      assert (cur j <> deq sh) as Hcne.
      { destruct (H2 j Hj) as (_ & Hidx' & _). intros E. apply Hne. congruence. }
      apply vr_cell_inv_pcs with pcs.
      { intros u Ho. apply lookup_insert_ne. intros <-.
        pose proof (vr_owner_pos _ _ _ _ _ _ _ (H2 j Hj) Ho Hp). done. }
      destruct (H2 j Hj) as (? & ? & ? & Hph). unfold cell_inv. rewrite Ee.
      do 3 (split; [done || (simpl; lia)|]).
      destruct (ph j); [naive_solver lia|..];
        destruct Hph as (? & ? & w' & ? & ?); split_and!; try done; try (simpl; lia);
        exists w'; auto.
  - apply (vr_threads_insert sh); try done; simpl; simpl in Ee; rewrite ?Ee; try lia.
    + intros u _. by rewrite Hf.
    + intros _. by rewrite Hf.
    + fold i. by rewrite !upd_eq.
  - intros q w' Hq. destruct (H4 q w' Hq) as (? & ? & ?). split_and!; [lia|done|].
    destruct (decide (q `mod` cap = i)) as [Ei|]; [|by rewrite upd_ne].
    rewrite Ei, upd_eq. lia.
  - done.
  - intros q Hq. destruct (decide (q = deq sh)) as [->|Hne].
    + right. exists t. fold i. by rewrite !upd_eq.
    + destruct (H6 q) as [|(u & Hu & Hcu)]; [lia|by left|right]. exists u.
      rewrite !upd_ne; [done|..]; intros E; rewrite E, Hf in Hu; done.
Qed.

(** A step in which the thread that owns cell [i] changes that cell only. *)
Lemma vr_inv_owner sh sh' pcs cur ph t p p' pos c f :
  inv_at sh pcs cur ph -> pcs !! t = Some p -> pc_pos p = Some pos ->
  owner (ph (pos `mod` cap)) = Some t ->
  enq sh' = enq sh -> deq sh' = deq sh -> log sh' = log sh ->
  (forall j, j <> pos `mod` cap -> seq_of sh' j = seq_of sh j /\ data_of sh' j = data_of sh j) ->
  cell_inv sh' (<[t := p']> pcs) (pos `mod` cap) c f ->
  thread_inv sh' (upd cur (pos `mod` cap) c) (upd ph (pos `mod` cap) f) t p' ->
  (forall q v, (q, v) ∈ delivered sh' ->
     q < deq sh /\ logged sh q v /\ q < upd cur (pos `mod` cap) c (q `mod` cap)) ->
  NoDup (delivered sh').*1 ->
  (forall q, 0 <= q < deq sh -> q ∈ (delivered sh').*1 \/
     exists u, upd ph (pos `mod` cap) f (q `mod` cap) = Reading u /\
               upd cur (pos `mod` cap) c (q `mod` cap) = q) ->
  inv_at sh' (<[t := p']> pcs) (upd cur (pos `mod` cap) c) (upd ph (pos `mod` cap) f).
Proof.
  intros Hi Hp Hpos Ho He Hd Hl Hj Hc Ht HD HN HA.
  pose proof Hi as [H1 H2 H3 _ _ _]. pose proof (vr_mod_range pos) as Hr.
  set (i := pos `mod` cap) in *.
  assert (forall q w, logged sh' q w <-> logged sh q w) as Elog by (intros; unfold logged; by rewrite Hl).
  split.
  - by rewrite He, Hd, Hl.
  - intros j Hrj. destruct (decide (j = i)) as [->|Hne]; [by rewrite !upd_eq|].
    rewrite !upd_ne by done. apply vr_cell_inv_pcs with pcs.
    { intros u Hu. apply lookup_insert_ne. intros <-. apply Hne.
      by apply (vr_owner_index sh pcs cur ph j t p). }
    destruct (H2 j Hrj) as (? & ? & ? & Hph). destruct (Hj j Hne) as [Es Ed].
    unfold cell_inv. rewrite He, Hd, Es, Ed. do 3 (split; [done|]).
    destruct (ph j); try done; destruct Hph as (? & ? & w & ? & ?); split_and!; try done; try lia;
      exists w; rewrite Elog; auto.
  - apply (vr_threads_insert sh); try done; try lia.
    + intros u Hne. rewrite Ho. congruence.
    + intros _ E. by rewrite E in Ho.
    + intros _ E. by rewrite E in Ho.
  - intros q w. rewrite Hd, Elog. apply HD.
  - done.
  - by rewrite Hd.
Qed.

(** Same, when nothing is delivered and the position stays. *)
Lemma vr_inv_owner_same sh sh' pcs cur ph t p p' pos f :
  inv_at sh pcs cur ph -> pcs !! t = Some p -> pc_pos p = Some pos ->
  owner (ph (pos `mod` cap)) = Some t -> cur (pos `mod` cap) = pos ->
  enq sh' = enq sh -> deq sh' = deq sh -> log sh' = log sh -> delivered sh' = delivered sh ->
  (forall j, j <> pos `mod` cap -> seq_of sh' j = seq_of sh j /\ data_of sh' j = data_of sh j) ->
  cell_inv sh' (<[t := p']> pcs) (pos `mod` cap) pos f ->
  thread_inv sh' (upd cur (pos `mod` cap) pos) (upd ph (pos `mod` cap) f) t p' ->
  (forall u, ph (pos `mod` cap) = Reading u -> f = Reading u) ->
  inv_at sh' (<[t := p']> pcs) (upd cur (pos `mod` cap) pos) (upd ph (pos `mod` cap) f).
Proof.
  intros Hi Hp Hpos Ho Hcur He Hd Hl Hdel Hj Hc Ht Hread.
  pose proof Hi as [_ _ _ H4 H5 H6].
  apply (vr_inv_owner sh sh' pcs cur ph t p p' pos pos f); rewrite ?Hdel; try done.
  - intros q v Hq. destruct (H4 q v Hq) as (? & ? & ?). split_and!; try done.
    destruct (decide (q `mod` cap = pos `mod` cap)) as [E|]; [|by rewrite upd_ne].
    rewrite E, upd_eq. rewrite E, Hcur in *. done.
  - intros q Hq. destruct (H6 q Hq) as [|(u & Hu & Hcu)]; [by left|right]. exists u.
    destruct (decide (q `mod` cap = pos `mod` cap)) as [E|]; [|by rewrite !upd_ne].
    rewrite E in *. rewrite !upd_eq. split; [by apply Hread|congruence].
Qed.

Lemma vr_write_data_other i v sh j : j <> i ->
  seq_of (write_data i v sh) j = seq_of sh j /\ data_of (write_data i v sh) j = data_of sh j.
Proof. intros. unfold seq_of, data_of, write_data. simpl. by rewrite rd_wr_ne. Qed.

Lemma vr_store_seq_other i x sh j : j <> i ->
  seq_of (store_seq i x sh) j = seq_of sh j /\ data_of (store_seq i x sh) j = data_of sh j.
Proof. intros. unfold seq_of, data_of, store_seq. simpl. by rewrite rd_wr_ne. Qed.

Lemma vr_write_data_same i v sh :
  seq_of (write_data i v sh) i = seq_of sh i /\ data_of (write_data i v sh) i = Some v.
Proof. unfold seq_of, data_of, write_data. simpl. by rewrite rd_wr_eq. Qed.

Lemma vr_store_seq_same i x sh :
  seq_of (store_seq i x sh) i = x /\ data_of (store_seq i x sh) i = data_of sh i.
Proof. unfold seq_of, data_of, store_seq. simpl. by rewrite rd_wr_eq. Qed.

Lemma vr_inv_push_write sh pcs cur ph t v pos :
  inv_at sh pcs cur ph -> pcs !! t = Some (PushWrite v pos) ->
  inv (write_data (pos `mod` cap) v sh, <[t := PushPub v pos]> pcs).
Proof.
  intros Hi Hp. destruct (i_threads _ _ _ _ Hi _ _ Hp) as [Hf Hc].
  pose proof (i_cells _ _ _ _ Hi _ (vr_mod_range pos)) as Hci. rewrite Hf, Hc in Hci.
  destruct (vr_write_data_same (pos `mod` cap) v sh) as [Es Ed].
  do 2 eexists. eapply (vr_inv_owner_same sh _ pcs cur ph t _ _ pos (Writing t));
    eauto using vr_write_data_other; simpl; try done.
  - by rewrite Hf.
  - destruct Hci as (? & ? & ? & ? & ? & w & ? & Hw).
    unfold cell_inv. rewrite Es, Ed. split_and!; try done; try (simpl; lia).
    exists w. destruct Hw as [Hw|[Hw _]]; simplify_eq. split; [done|]. right.
    by rewrite lookup_insert_eq.
  - by rewrite !upd_eq.
  - intros u E. congruence.
Qed.

Lemma vr_inv_push_publish sh pcs cur ph t v pos :
  inv_at sh pcs cur ph -> pcs !! t = Some (PushPub v pos) ->
  inv (store_seq (pos `mod` cap) (wadd 64 pos 1) sh, <[t := Idle]> pcs).
Proof.
  intros Hi Hp. destruct (i_threads _ _ _ _ Hi _ _ Hp) as [Hf Hc].
  pose proof (i_counters _ _ _ _ Hi).
  pose proof (i_cells _ _ _ _ Hi _ (vr_mod_range pos)) as Hci. rewrite Hf, Hc in Hci.
  destruct (vr_store_seq_same (pos `mod` cap) (wadd 64 pos 1) sh) as [Es Ed].
  do 2 eexists. eapply (vr_inv_owner_same sh _ pcs cur ph t _ _ pos Full);
    eauto using vr_store_seq_other; simpl; try done.
  - by rewrite Hf.
  - destruct Hci as (? & ? & ? & ? & ? & w & ? & Hw).
    unfold cell_inv. rewrite Es, Ed. rewrite wadd_small by lia.
    split_and!; try done; try (simpl; lia).
    exists w. destruct Hw as [Hw|[_ Hw]]; [simplify_eq|done].
  - intros u E. congruence.
Qed.

Lemma vr_inv_pop_read sh pcs cur ph t v pos :
  inv_at sh pcs cur ph -> pcs !! t = Some (PopRead pos) ->
  data_of sh (pos `mod` cap) = Some v ->
  inv (sh, <[t := PopRel pos v]> pcs).
Proof.
  intros Hi Hp Hv. destruct (i_threads _ _ _ _ Hi _ _ Hp) as [Hf Hc].
  pose proof (i_cells _ _ _ _ Hi _ (vr_mod_range pos)) as Hci. rewrite Hf, Hc in Hci.
  do 2 eexists. eapply (vr_inv_owner_same sh _ pcs cur ph t _ _ pos (Reading t));
    eauto; simpl; try done.
  - by rewrite Hf.
  - destruct Hci as (? & ? & ? & ? & ? & w & ? & Hw & _).
    unfold cell_inv. do 3 (split; [done|]). split_and!; try done. exists w. split_and!; try done. right.
    rewrite lookup_insert_eq. congruence.
  - by rewrite !upd_eq.
  - intros u E. congruence.
Qed.

Lemma vr_inv_pop_release sh pcs cur ph t v pos :
  inv_at sh pcs cur ph -> pcs !! t = Some (PopRel pos v) ->
  inv (deliver pos v (store_seq (pos `mod` cap) (wadd 64 pos cap) sh), <[t := Idle]> pcs).
Proof.
  intros Hi Hp. destruct (i_threads _ _ _ _ Hi _ _ Hp) as [Hf Hc].
  pose proof Hi as [(Hd & He & _) _ _ H4 H5 H6].
  pose proof (i_cells _ _ _ _ Hi _ (vr_mod_range pos)) as Hci. rewrite Hf, Hc in Hci.
  destruct Hci as (Hpos & Hidx & Hge & Hseq & Hlt & w & Hw & Hdata & Hpc).
  assert (w = v) as -> by (destruct Hpc; congruence).
  destruct (vr_store_seq_same (pos `mod` cap) (wadd 64 pos cap) sh) as [Es Ed].
  do 2 eexists. eapply (vr_inv_owner sh _ pcs cur ph t _ _ pos (pos + cap) Free);
    eauto using vr_store_seq_other; simpl; try done.
  - by rewrite Hf.
  - intros j Hj. by apply (vr_store_seq_other _ (wadd 64 pos cap) sh).
  - unfold cell_inv.
    rewrite (Es : seq_of (deliver pos v (store_seq (pos `mod` cap) (wadd 64 pos cap) sh)) _ = _).
    rewrite wadd_small by lia. replace (pos + cap) with (pos + 1 * cap) by lia.
    rewrite Z.mod_add by lia. simpl. split_and!; try done; lia.
  - intros q u Hq. rewrite elem_of_app, list_elem_of_singleton in Hq.
    assert (q < deq sh /\ logged sh q u /\ q <= cur (q `mod` cap)) as (? & ? & Hle).
    { destruct Hq as [Hq|[= -> ->]]; [destruct (H4 q u Hq) as (? & ? & ?)|]; split_and!; try done; lia. }
    split_and!; try done. destruct (decide (q `mod` cap = pos `mod` cap)) as [E|Hne].
    + rewrite E, upd_eq. rewrite E, Hc in Hle. lia.
    + rewrite upd_ne by done. destruct Hq as [Hq|[= -> ->]]; [by apply (H4 q u)|done].
  - rewrite fmap_app. simpl. apply NoDup_app. split_and!; [done| |apply NoDup_singleton].
    intros q Hq ->%list_elem_of_singleton. apply list_elem_of_fmap in Hq as ([q' u] & -> & Hq).
    destruct (H4 _ _ Hq) as (_ & _ & E). simpl in *. lia.
  - intros q Hq. rewrite fmap_app. simpl. rewrite elem_of_app, list_elem_of_singleton.
    destruct (decide (q = pos)) as [->|Hne]; [by left; right|].
    destruct (H6 q Hq) as [|(u & Hu & Hcu)]; [by left; left|right]. exists u.
    rewrite !upd_ne; [done|..]; intros E; rewrite E in *; congruence.
Qed.

Lemma vr_inv_step s s' : inv s -> step s s' -> inv s'.
Proof.
  intros (cur & ph & Hi) Hs. destruct Hs as [sh pcs t p sh' p' Hp Hs Hb]. simpl in Hi.
  pose proof (i_threads _ _ _ _ Hi _ _ Hp) as Ht. pose proof (i_counters _ _ _ _ Hi) as Hc.
  assert (forall q, thread_inv sh cur ph t q -> pc_pos p = None -> inv (sh, <[t := q]> pcs)) as Hloc.
  { intros q ? ?. do 2 eexists. by eapply vr_inv_local. }
  assert (forall i, 0 <= i < cap -> 0 <= seq_of sh i < 2 ^ 63) as Hsq.
  { intros i Hr. destruct (i_cells _ _ _ _ Hi i Hr) as (? & ? & ? & Hf). destruct (ph i); lia. }
  destruct Hs; simpl in *; try (apply Hloc; simpl; done || lia).
  - apply Hloc; [|done]. simpl. split; [lia|]. intros ->.
    pose proof (vr_mod_range (enq sh)) as Hr. pose proof (i_cells _ _ _ _ Hi _ Hr) as (? & Hidx & ? & Hf).
    rewrite vr_diff_small in H by (apply Hsq || lia; done).
    destruct (ph (enq sh `mod` cap)); [split; [done|lia]|lia|..];
      exfalso; apply (vr_seq_phase (cur (enq sh `mod` cap)) (enq sh)); (lia || congruence).
  - subst pos. do 2 eexists. by apply vr_inv_push_cas.
  - by eapply vr_inv_push_write.
  - by eapply vr_inv_push_publish.
  - apply Hloc; [|done]. simpl. split; [lia|]. intros ->.
    pose proof (vr_mod_range (deq sh)) as Hr. pose proof (i_cells _ _ _ _ Hi _ Hr) as (? & Hidx & ? & Hf).
    rewrite wadd_small in H by lia. rewrite vr_diff_small in H by (apply Hsq || lia; done).
    destruct (ph (deq sh `mod` cap)); [| |split; [done|lia]|lia];
      exfalso; apply (vr_seq_phase (deq sh) (cur (deq sh `mod` cap))); (lia || congruence).
  - subst pos. do 2 eexists. by apply vr_inv_pop_cas.
  - by eapply vr_inv_pop_read.
  - by eapply vr_inv_pop_release.
Qed.

Lemma vr_inv_init s : init s -> inv s.
Proof.
  intros (Hs & He & Hd & Hl & Hdel & Hp). exists (fun i => i), (fun _ => Free). split.
  - rewrite He, Hd, Hl. simpl. lia.
  - intros i Hr. unfold cell_inv. rewrite He, Hd, (Z.mod_small i), Hs by lia.
    split_and!; try done; lia.
  - intros t p E. by rewrite (Hp t p E).
  - rewrite Hdel. intros p v Hin. by apply elem_of_nil in Hin.
  - rewrite Hdel. constructor.
  - rewrite Hd. lia.
Qed.

Lemma vr_bounded sh pcs cur ph : inv_at sh pcs cur ph -> enq sh <= deq sh + cap.
Proof.
  intros Hi. pose proof (i_counters _ _ _ _ Hi).
  destruct (i_cells _ _ _ _ Hi _ (vr_mod_range (deq sh))) as (Hp & Hidx & Hr & _).
  set (c := cur (deq sh `mod` cap)) in *. enough (c <= deq sh) by lia.
  destruct (decide (c <= deq sh)); [done|].
  pose proof (ring_index_inj cap (deq sh) (c - deq sh) 0) as Hinj.
  replace (deq sh + (c - deq sh)) with c in Hinj by lia. rewrite Z.add_0_r in Hinj. lia.
Qed.

(** The cell a thread is about to read or write without synchronisation. *)
Definition touches (p : pc) : option Z :=
  match p with
  | PushWrite _ pos | PopRead pos => Some (pos `mod` cap)
  | _ => None
  end.

Lemma vr_exclusive sh pcs cur ph t t' p p' i :
  inv_at sh pcs cur ph -> pcs !! t = Some p -> pcs !! t' = Some p' ->
  touches p = Some i -> touches p' = Some i -> t = t'.
Proof.
  intros Hi Hp Hp' E E'.
  assert (forall u q, pcs !! u = Some q -> touches q = Some i -> owner (ph i) = Some u) as Ho.
  { intros u q Hq Hu. pose proof (i_threads _ _ _ _ Hi _ _ Hq) as Ht.
    destruct q; simplify_eq/=; by destruct Ht as [-> _]. }
  pose proof (Ho _ _ Hp E). pose proof (Ho _ _ Hp' E'). congruence.
Qed.
End race.
Arguments mkShared {A}.
Arguments pc : clear implicits.
Arguments Idle {A}.
End VyukovRace.

(** C4.  However many producers and consumers interleave, access by access,
    on a ring of at least two cells: a pop that returns position [p] returns
    exactly the value whose push claimed [p]; no position is returned twice;
    every position below the dequeue counter has been returned or is in the
    hands of one running pop; the queue never holds more than its capacity;
    two threads never touch the same payload at the same time; and a pop
    never reads a payload that was not written. *)
Theorem mpmc_ring_exactly_once {A} (cap : Z) (sh : VyukovRace.shared)
    (pcs : gmap nat (VyukovRace.pc A)) :
  2 <= cap <= 2 ^ 62 ->
  reachable (VyukovRace.init cap) (VyukovRace.step cap) (sh, pcs) ->
  (forall p v, (p, v) ∈ VyukovRace.delivered sh -> VyukovRace.log sh !! Z.to_nat p = Some v) /\
  NoDup (VyukovRace.delivered sh).*1 /\
  (forall p, 0 <= p < VyukovRace.deq sh ->
     p ∈ (VyukovRace.delivered sh).*1 \/
     exists t q, pcs !! t = Some q /\ VyukovRace.pc_pos q = Some p) /\
  VyukovRace.deq sh <= VyukovRace.enq sh <= VyukovRace.deq sh + cap /\
  (forall t t' p p' i, pcs !! t = Some p -> pcs !! t' = Some p' ->
     VyukovRace.touches cap p = Some i -> VyukovRace.touches cap p' = Some i -> t = t') /\
  (forall t pos, pcs !! t = Some (VyukovRace.PopRead pos) ->
     is_Some (VyukovRace.data_of sh (pos `mod` cap))).
Proof.
  intros Hcap Hr. apply (invariant_reachable _ _ (VyukovRace.inv cap)) in Hr;
    [|by apply VyukovRace.vr_inv_init|by apply VyukovRace.vr_inv_step].
  destruct Hr as (cur & ph & Hi). simpl in Hi. pose proof Hi as [Hc H2 H3 H4 H5 H6].
  split_and!; try done; try lia.
  - intros p v Hin. by destruct (H4 p v Hin) as (_ & [_ ?] & _).
  - intros p Hp. destruct (H6 p Hp) as [|(t & Ht & E)]; [by left|right].
    destruct (H2 _ (VyukovRace.vr_mod_range cap Hcap p)) as (_ & _ & _ & Hf).
    rewrite Ht, E in Hf. destruct Hf as (_ & _ & w & _ & _ & Hf). naive_solver.
  - by eapply VyukovRace.vr_bounded.
  - intros t t' p p' i. by eapply VyukovRace.vr_exclusive.
  - intros t pos Hp. destruct (H3 _ _ Hp) as [Ht E].
    destruct (H2 _ (VyukovRace.vr_mod_range cap Hcap pos)) as (_ & _ & _ & Hf).
    rewrite Ht in Hf. destruct Hf as (_ & _ & w & _ & -> & _). done.
Qed.

(** One thread pushes [7] while another pops it, on a ring of two cells. *)
Lemma mpmc_ring_exactly_once_witness :
  exists sh : VyukovRace.shared (A := Z), VyukovRace.delivered sh = [(0, 7)] /\
    VyukovRace.deq sh <= VyukovRace.enq sh <= VyukovRace.deq sh + 2.
Proof.
  set (c0 := {[0 := mkCell 0 None; 1 := mkCell 1 None]} : gmap Z (cell Z)).
  assert (exists sh (pcs : gmap nat (VyukovRace.pc Z)), VyukovRace.delivered sh = [(0, 7)] /\
    reachable (VyukovRace.init 2) (VyukovRace.step 2) (sh, pcs)) as (sh & pcs & Hd & Hr).
  { do 2 eexists; split; cycle 1.
    - exists (VyukovRace.mkShared c0 0 0 [] [], {[0%nat := VyukovRace.Idle; 1%nat := VyukovRace.Idle]}).
      split.
      { unfold VyukovRace.init. simpl. split_and!; try done.
        - intros i Hi. assert (i = 0 \/ i = 1) as [-> | ->] by lia; done.
        - intros t p Ht. rewrite lookup_insert_Some, lookup_singleton_Some in Ht. naive_solver. }
      eapply rtc_l; [eapply (VyukovRace.step_thread _ _ _ 0); [done|apply (VyukovRace.t_push _ _ 7)|done]|].
      eapply rtc_l; [eapply (VyukovRace.step_thread _ _ _ 1); [done|apply VyukovRace.t_pop|done]|].
      eapply rtc_l; [eapply (VyukovRace.step_thread _ _ _ 0); [done|apply VyukovRace.t_push_load|done]|].
      eapply rtc_l; [eapply (VyukovRace.step_thread _ _ _ 0); [done|by apply VyukovRace.t_push_equal|done]|].
      eapply rtc_l; [eapply (VyukovRace.step_thread _ _ _ 0); [done|by apply VyukovRace.t_push_cas|done]|].
      eapply rtc_l; [eapply (VyukovRace.step_thread _ _ _ 0); [done|apply VyukovRace.t_push_write|done]|].
      eapply rtc_l; [eapply (VyukovRace.step_thread _ _ _ 0); [done|apply VyukovRace.t_push_publish|done]|].
      eapply rtc_l; [eapply (VyukovRace.step_thread _ _ _ 1); [done|apply VyukovRace.t_pop_load|done]|].
      eapply rtc_l; [eapply (VyukovRace.step_thread _ _ _ 1); [done|by apply VyukovRace.t_pop_equal|done]|].
      eapply rtc_l; [eapply (VyukovRace.step_thread _ _ _ 1); [done|by apply VyukovRace.t_pop_cas|done]|].
      eapply rtc_l; [eapply (VyukovRace.step_thread _ _ _ 1); [done|by apply (VyukovRace.t_pop_read _ _ _ 7)|done]|].
      eapply rtc_l; [eapply (VyukovRace.step_thread _ _ _ 1); [done|apply VyukovRace.t_pop_release|done]|].
      apply rtc_refl.
    - done. }
  exists sh. split; [done|].
  exact (proj1 (proj2 (proj2 (proj2 (mpmc_ring_exactly_once 2 sh pcs ltac:(lia) Hr))))).
Defined.
