(* ===== verification/Worker.v ===== *)
(** * Worker

    [CpuLevel] and [Worker] of [src/src/dta_scheduler.rs]: the polling
    order, the local run queue and the adaptive load bookkeeping.
    ([Worker::dispatch_loop] runs fibers and is in [RunWorker].) *)

From S2P Require Import Prelude Ring Mailbox.

Record CpuLevel := mkCpu { core_id : Z; ccx_id : Z; numa_id : Z }.

Module Worker.

Definition LOCAL_QUEUE_CAPACITY : Z := 131072.
Definition LOCAL_QUEUE_MASK : Z := LOCAL_QUEUE_CAPACITY - 1.
Definition LOCAL_QUEUE_HIGH_WATERMARK : Z := LOCAL_QUEUE_CAPACITY - LOCAL_QUEUE_CAPACITY / 8.

Record t := mk {
  cpu : CpuLevel;
  load_level : Z;
  deflection_threshold : Z;
  local_head : Z;
  local_tail : Z;
  ticks : Z;
  event_signal : Z;
  local_queue : gmap Z TaskIndex;
  polling_order : list Z
}.

(** The two loops of [Worker::new]: cores of the same complex first, then the
    others in ring order from this core. *)
Definition new_polling_order (c : CpuLevel) (total_cores : Z) : list Z :=
  filter (fun i => i <> core_id c /\ wrap 16 (i / 8) = ccx_id c) (seqZ 0 total_cores) ++
  filter (fun i => i <> core_id c /\ wrap 16 (i / 8) <> ccx_id c)
         ((fun offset => (core_id c + offset) `mod` total_cores) <$> seqZ 0 total_cores).

Definition new (c : CpuLevel) (total_cores : Z) : t :=
  {| cpu := c; load_level := 0; deflection_threshold := 80; local_head := 0; local_tail := 0;
     ticks := 0; event_signal := 0; local_queue := ∅;
     polling_order := new_polling_order c total_cores |}.

Definition set_load_level (x : Z) (w : t) : t :=
  {| cpu := cpu w; load_level := x; deflection_threshold := deflection_threshold w;
     local_head := local_head w; local_tail := local_tail w; ticks := ticks w;
     event_signal := event_signal w; local_queue := local_queue w;
     polling_order := polling_order w |}.

Definition set_ticks (x thresh : Z) (w : t) : t :=
  {| cpu := cpu w; load_level := load_level w; deflection_threshold := thresh;
     local_head := local_head w; local_tail := local_tail w; ticks := x;
     event_signal := event_signal w; local_queue := local_queue w;
     polling_order := polling_order w |}.

Definition set_queue (h tl : Z) (q : gmap Z TaskIndex) (w : t) : t :=
  {| cpu := cpu w; load_level := load_level w; deflection_threshold := deflection_threshold w;
     local_head := h; local_tail := tl; ticks := ticks w;
     event_signal := event_signal w; local_queue := q;
     polling_order := polling_order w |}.

(** [event_signal.fetch_add(1)] *)
Definition bump_signal (w : t) : t :=
  {| cpu := cpu w; load_level := load_level w; deflection_threshold := deflection_threshold w;
     local_head := local_head w; local_tail := local_tail w; ticks := ticks w;
     event_signal := wadd 32 (event_signal w) 1; local_queue := local_queue w;
     polling_order := polling_order w |}.

Definition local_queue_len (w : t) : Z :=
  Z.land (wsub 64 (local_tail w) (local_head w)) LOCAL_QUEUE_MASK.

Definition update_load (w : t) : t :=
  let queue_len := local_queue_len w in
  set_load_level (Z.min (Z.shiftr (queue_len * 100) 13) 100) w.

Definition tick (w : t) : t :=
  let ticks' := wadd 64 (ticks w) 1 in
  if 10 <=? trailing_zeros 64 ticks' then
    let load := load_level w in
    let current_thresh := deflection_threshold w in
    let new_thresh :=
      if 90 <? load then Z.max (sat_sub current_thresh 5) 40
      else if load <? 30 then Z.min (sat_add 8 current_thresh 5) 95
      else current_thresh in
    set_ticks ticks' new_thresh w
  else set_ticks ticks' (deflection_threshold w) w.

Definition push_local (task : TaskIndex) (w : t) : bool * t :=
  let tl := local_tail w in
  if LOCAL_QUEUE_CAPACITY - 1 <=? local_queue_len w then (false, w)
  else (true, set_queue (local_head w) (Z.land (tl + 1) LOCAL_QUEUE_MASK)
                        (wr (local_queue w) tl task) w).

(** [local_queue] is a raw region: nothing in the code stops a batch that is
    too large from overwriting tasks not yet run. *)
Definition push_batch (chunk : TaskChunk) (w : t) : t :=
  let n := count chunk in
  let tl := local_tail w in
  let end_idx := wadd 64 tl n in
  let q :=
    if end_idx <=? LOCAL_QUEUE_CAPACITY then
      copy_to (local_queue w) tl (take (Z.to_nat n) (tasks chunk))
    else
      let first_part := LOCAL_QUEUE_CAPACITY - tl in
      let second_part := n - first_part in
      copy_to (copy_to (local_queue w) tl (take (Z.to_nat first_part) (tasks chunk)))
              0 (take (Z.to_nat second_part) (drop (Z.to_nat first_part) (tasks chunk))) in
  set_queue (local_head w) (Z.land end_idx LOCAL_QUEUE_MASK) q w.

(** The dequeue at the top of [dispatch_loop]'s body. *)
Definition pop_local (w : t) : option TaskIndex * t :=
  let h := local_head w in
  if h =? local_tail w then (None, w)
  else (Some (rd 0 (local_queue w) h),
        set_queue (Z.land (h + 1) LOCAL_QUEUE_MASK) (local_tail w) (local_queue w) w).

(** ** Invariant and abstraction *)

Definition ok (w : t) : Prop :=
  0 <= local_head w < LOCAL_QUEUE_CAPACITY /\ 0 <= local_tail w < LOCAL_QUEUE_CAPACITY /\
  0 <= load_level w <= 100 /\ 0 <= deflection_threshold w <= U8_MAX.

Definition local_tasks (w : t) : list TaskIndex :=
  ring_list 0 (local_queue w) LOCAL_QUEUE_CAPACITY (local_head w) (Z.to_nat (local_queue_len w)).

Lemma wk_mask_mod x : Z.land x LOCAL_QUEUE_MASK = x `mod` LOCAL_QUEUE_CAPACITY.
Proof. exact (land_mask 17 x ltac:(lia)). Qed.

Lemma wk_len_eq w :
  local_queue_len w = (local_tail w - local_head w) `mod` LOCAL_QUEUE_CAPACITY.
Proof.
  unfold local_queue_len. rewrite wk_mask_mod. unfold wsub, wrap.
  apply (mod_sub_pow2 64 17). lia.
Qed.

Lemma wk_len_range w : 0 <= local_queue_len w < LOCAL_QUEUE_CAPACITY.
Proof. rewrite wk_len_eq. by apply Z.mod_pos_bound. Qed.

Lemma wk_length_local_tasks w : length (local_tasks w) = Z.to_nat (local_queue_len w).
Proof. apply length_ring_list. Qed.

Lemma wk_tail_eq w : ok w ->
  local_tail w = (local_head w + local_queue_len w) `mod` LOCAL_QUEUE_CAPACITY.
Proof.
  intros (_ & Ht & _). rewrite wk_len_eq, Zplus_mod_idemp_r.
  replace (local_head w + (local_tail w - local_head w)) with (local_tail w) by lia.
  by rewrite Z.mod_small.
Qed.

(** Storing a tail [k] cells further on, over a region that holds [l] there. *)
Lemma wk_set_queue_tasks w q k l :
  ok w -> 0 <= k -> local_queue_len w + k < LOCAL_QUEUE_CAPACITY ->
  ring_list 0 q LOCAL_QUEUE_CAPACITY (local_head w)
            (Z.to_nat (local_queue_len w) + Z.to_nat k) = local_tasks w ++ l ->
  local_tasks (set_queue (local_head w) (Z.land (local_tail w + k) LOCAL_QUEUE_MASK) q w)
  = local_tasks w ++ l.
Proof.
  intros Hok Hk Hlen <-. pose proof (wk_len_range w). unfold local_tasks. simpl. f_equal.
  rewrite wk_len_eq. simpl. rewrite wk_mask_mod, Zminus_mod_idemp_l.
  replace (local_tail w + k - local_head w) with ((local_tail w - local_head w) + k) by lia.
  rewrite <- Zplus_mod_idemp_l, <- wk_len_eq, Z.mod_small by lia. lia.
Qed.

Lemma wk_set_queue_ok w x q : ok w ->
  ok (set_queue (local_head w) (Z.land x LOCAL_QUEUE_MASK) q w).
Proof.
  intros (? & ? & ? & ?). rewrite wk_mask_mod. unfold ok. simpl.
  split_and!; try lia; by apply Z.mod_pos_bound.
Qed.

Lemma wk_push_local w task : ok w -> local_queue_len w < LOCAL_QUEUE_CAPACITY - 1 ->
  exists w', push_local task w = (true, w') /\ ok w' /\ local_tasks w' = local_tasks w ++ [task].
Proof.
  intros Hok Hl. pose proof (wk_len_range w). unfold push_local. case_test; [lia|].
  eexists; split; [done|]. split; [by apply wk_set_queue_ok|].
  apply wk_set_queue_tasks; [done|lia|lia|].
  rewrite (wk_tail_eq w) at 1 by done. rewrite <- (Z2Nat.id (local_queue_len w)) at 1 by lia.
  change (Z.to_nat 1) with 1%nat. rewrite Nat.add_1_r. apply ring_list_push; [done|lia].
Qed.

Lemma wk_push_local_full w task : local_queue_len w = LOCAL_QUEUE_CAPACITY - 1 ->
  push_local task w = (false, w).
Proof. intros E. unfold push_local. case_test; [done|lia]. Qed.

(** Either outcome of a local push. *)
Lemma wk_push_local_cases w task : ok w ->
  (exists w', push_local task w = (true, w') /\ ok w' /\ local_tasks w' = local_tasks w ++ [task])
  \/ (push_local task w = (false, w) /\ local_queue_len w = LOCAL_QUEUE_CAPACITY - 1).
Proof.
  intros Hok. pose proof (wk_len_range w).
  destruct (decide (local_queue_len w = LOCAL_QUEUE_CAPACITY - 1)).
  - right. auto using wk_push_local_full.
  - left. apply wk_push_local; [done|lia].
Qed.

Lemma wk_pop_local w task l : ok w -> local_tasks w = task :: l ->
  exists w', pop_local w = (Some task, w') /\ ok w' /\ local_tasks w' = l.
Proof.
  intros Hok E. pose proof (wk_length_local_tasks w) as Hl. rewrite E in Hl. simpl in Hl.
  pose proof (wk_len_range w) as Hr. pose proof Hok as (Hh & Ht & Hlo & Hth).
  generalize dependent (length l). intros n Hl.
  unfold pop_local. case_test.
  { rewrite wk_len_eq, E0, Z.sub_diag in *. done. }
  unfold local_tasks in E. rewrite <- Hl, ring_list_S_l, Z.mod_small in E by done. simplify_eq.
  eexists; split; [done|]. split.
  - rewrite wk_mask_mod. unfold ok. simpl. split_and!; try lia; by apply Z.mod_pos_bound.
  - unfold local_tasks. simpl. rewrite wk_mask_mod, ring_list_mod by done. f_equal.
    rewrite wk_len_eq. simpl. rewrite Zminus_mod_idemp_r.
    replace (local_tail w - (local_head w + 1)) with ((local_tail w - local_head w) - 1) by lia.
    rewrite <- Zminus_mod_idemp_l, <- wk_len_eq, Z.mod_small by lia. lia.
Qed.

Lemma wk_pop_local_none w : ok w -> local_tasks w = [] -> pop_local w = (None, w).
Proof.
  intros (Hh & Ht & _) E. pose proof (wk_length_local_tasks w) as Hl. rewrite E in Hl. simpl in Hl.
  pose proof (wk_len_range w). assert (local_queue_len w = 0) as E0 by lia.
  rewrite wk_len_eq in E0. unfold pop_local. case_test; [done|].
  unfold LOCAL_QUEUE_CAPACITY in *. Z.div_mod_to_equations. lia.
Qed.

Lemma wk_push_batch w c : ok w -> chunk_ok c ->
  local_queue_len w + count c < LOCAL_QUEUE_CAPACITY ->
  ok (push_batch c w) /\ local_tasks (push_batch c w) = local_tasks w ++ chunk_tasks c.
Proof.
  intros Hok Hc Hl. pose proof (wk_len_range w) as Hr. pose proof (wk_tail_eq w Hok) as Et.
  pose proof Hok as (Hh & Ht & _). pose proof Hc as (Hlen & Hcnt & _).
  unfold CHUNK_SIZE, LOCAL_QUEUE_CAPACITY in Hcnt, Ht, Hl.
  unfold push_batch. rewrite wadd_small by lia. split; [by apply wk_set_queue_ok|].
  apply wk_set_queue_tasks; [done|lia|unfold LOCAL_QUEUE_CAPACITY; lia|].
  rewrite <- (Z2Nat.id (local_queue_len w)) in Et by lia.
  assert (Z.of_nat (Z.to_nat (local_queue_len w)) = local_queue_len w) as Hn by lia.
  unfold local_tasks. set (n := Z.to_nat (local_queue_len w)) in *. clearbody n.
  pose proof (chunk_tasks_length c Hc) as Hct. unfold chunk_tasks in *.
  case_test; rewrite Et.
  - set (src := take (Z.to_nat (count c)) (tasks c)) in *. unfold LOCAL_QUEUE_CAPACITY in E.
    clearbody src. rewrite <- Hct. apply ring_list_copy;
      [done|unfold LOCAL_QUEUE_CAPACITY; lia|rewrite <- Et; unfold LOCAL_QUEUE_CAPACITY; lia].
  - set (f := LOCAL_QUEUE_CAPACITY - (local_head w + Z.of_nat n) `mod` LOCAL_QUEUE_CAPACITY).
    assert (f = LOCAL_QUEUE_CAPACITY - local_tail w) as Hf by (unfold f; by rewrite <- Et).
    unfold LOCAL_QUEUE_CAPACITY in E, Hf.
    assert (length (take (Z.to_nat f) (tasks c)) = Z.to_nat f) as Hlf.
    { rewrite length_take, Hlen. unfold CHUNK_SIZE. lia. }
    assert ((local_head w + Z.of_nat (n + Z.to_nat f)) `mod` LOCAL_QUEUE_CAPACITY = 0) as E0.
    { rewrite Nat2Z.inj_add, Z.add_assoc, <- Zplus_mod_idemp_l, <- Et, Z2Nat.id by lia.
      replace (local_tail w + f) with LOCAL_QUEUE_CAPACITY by (unfold LOCAL_QUEUE_CAPACITY; lia).
      by apply Z.mod_same. }
    set (snd_part := take (Z.to_nat (count c - f)) (drop (Z.to_nat f) (tasks c))).
    assert (length snd_part = Z.to_nat (count c - f)) as Hls.
    { unfold snd_part. rewrite length_take, length_drop, Hlen. unfold CHUNK_SIZE. lia. }
    replace (n + Z.to_nat (count c))%nat with ((n + Z.to_nat f) + length snd_part)%nat by lia.
    set (m1 := copy_to (local_queue w) _ _).
    replace (copy_to m1 0 snd_part) with
      (copy_to m1 ((local_head w + Z.of_nat (n + Z.to_nat f)) `mod` LOCAL_QUEUE_CAPACITY) snd_part)
      by (by rewrite E0).
    rewrite ring_list_copy; [|done|unfold LOCAL_QUEUE_CAPACITY; lia
      |rewrite E0; unfold LOCAL_QUEUE_CAPACITY; lia].
    unfold m1.
    replace (n + Z.to_nat f)%nat with (n + length (take (Z.to_nat f) (tasks c)))%nat by lia.
    rewrite ring_list_copy; [|done|unfold LOCAL_QUEUE_CAPACITY; lia
      |rewrite <- Et; unfold LOCAL_QUEUE_CAPACITY; lia].
    rewrite <- app_assoc. f_equal. unfold snd_part.
    replace (Z.to_nat (count c)) with (Z.to_nat f + Z.to_nat (count c - f))%nat by lia.
    by rewrite take_take_drop.
Qed.

Lemma wk_new_ok c n : ok (new c n).
Proof. unfold ok, new, LOCAL_QUEUE_CAPACITY, U8_MAX. simpl. lia. Qed.

Lemma wk_update_load_ok w : ok w -> ok (update_load w).
Proof.
  intros (? & ? & ? & ?). unfold ok, update_load. simpl. split_and!; try lia.
  pose proof (wk_len_range w). rewrite Z.shiftr_div_pow2 by lia.
  pose proof (Z.div_pos (local_queue_len w * 100) (2 ^ 13)). lia.
Qed.

Lemma wk_tick_ok w : ok w -> ok (tick w).
Proof.
  intros (? & ? & ? & ?). unfold ok, tick. unfold sat_add, sat_sub.
  unfold U8_MAX in *. repeat case_test; simpl; split_and!; lia.
Qed.

(** Maintenance does not leave the range of its own thresholds. *)
Lemma wk_tick_threshold w : 40 <= deflection_threshold w <= 95 -> 40 <= deflection_threshold (tick w) <= 95.
Proof. unfold tick, sat_add, sat_sub. repeat case_test; simpl; lia. Qed.

Lemma wk_update_load_tasks w : local_tasks (update_load w) = local_tasks w.
Proof. done. Qed.

Lemma wk_tick_tasks w : local_tasks (tick w) = local_tasks w.
Proof. unfold tick. by repeat case_test. Qed.

Lemma wk_bump_signal_ok w : ok w -> ok (bump_signal w).
Proof. done. Qed.

Lemma wk_rotation n c : 0 <= c < n ->
  (fun offset => (c + offset) `mod` n) <$> seqZ 0 n ≡ₚ seqZ 0 n.
Proof.
  intros Hc. apply NoDup_Permutation.
  - apply NoDup_fmap_2_strong; [|apply NoDup_seqZ].
    intros x y Hx Hy E. apply elem_of_seqZ in Hx, Hy. apply ring_index_inj in E; lia.
  - apply NoDup_seqZ.
  - intros x. rewrite list_elem_of_fmap, elem_of_seqZ. split.
    + intros (y & -> & _). pose proof (Z.mod_pos_bound (c + y) n). lia.
    + intros Hx. exists ((x - c) `mod` n). rewrite elem_of_seqZ, Zplus_mod_idemp_r.
      pose proof (Z.mod_pos_bound (x - c) n).
      replace (c + (x - c)) with x by lia. rewrite Z.mod_small by lia. lia.
Qed.

Lemma wk_filter_split (P Q : Z -> Prop) `{!forall x, Decision (P x), !forall x, Decision (Q x)} l :
  filter (fun i => P i /\ Q i) l ++ filter (fun i => P i /\ ~ Q i) l ≡ₚ filter P l.
Proof.
  induction l as [|x l IH]; [done|]. rewrite !filter_cons.
  repeat case_decide; try tauto; simpl; rewrite <- ?Permutation_middle, IH; done.
Qed.

Lemma wk_polling_order_perm c n : 0 <= core_id c < n ->
  new_polling_order c n ≡ₚ filter (fun i => i <> core_id c) (seqZ 0 n).
Proof.
  intros Hc. unfold new_polling_order. rewrite (wk_rotation n (core_id c)) by done.
  apply wk_filter_split.
Qed.

(** [push_local] applied to each task in turn. *)
Fixpoint push_all (l : list TaskIndex) (w : t) : bool * t :=
  match l with
  | [] => (true, w)
  | x :: l' => let '(b, w') := push_local x w in if b then push_all l' w' else (false, w')
  end.

Lemma wk_push_all l w : ok w ->
  local_queue_len w + Z.of_nat (length l) < LOCAL_QUEUE_CAPACITY ->
  exists w', push_all l w = (true, w') /\ ok w' /\ local_tasks w' = local_tasks w ++ l.
Proof.
  revert w. induction l as [|x l IH]; intros w Hok Hl; simpl in *.
  { exists w. by rewrite app_nil_r. }
  destruct (wk_push_local w x) as (w1 & -> & Hok1 & E1); [done|lia|].
  pose proof (wk_len_range w). pose proof (wk_len_range w1).
  destruct (IH w1) as (w2 & -> & Hok2 & E2); [done| |].
  { pose proof (wk_length_local_tasks w1) as H1. rewrite E1, length_app, wk_length_local_tasks in H1.
    simpl in H1. lia. }
  exists w2. rewrite E2, E1, <- app_assoc. done.
Qed.

End Worker.

(** A worker's polling order lists every other core exactly once, its
    own core never: no incoming mailbox is skipped and none is polled
    twice. *)
Theorem polling_order_complete (c : CpuLevel) (n : Z) :
  0 <= core_id c < n ->
  Worker.polling_order (Worker.new c n) ≡ₚ filter (fun i => i <> core_id c) (seqZ 0 n).
Proof. apply Worker.wk_polling_order_perm. Qed.

(** Core 9 of 12: its complex first ([8], [10], [11]), then the ring. *)
Lemma polling_order_complete_witness :
  Worker.polling_order (Worker.new (mkCpu 9 1 0) 12) = [8; 10; 11; 0; 1; 2; 3; 4; 5; 6; 7] /\
  Worker.polling_order (Worker.new (mkCpu 9 1 0) 12)
    ≡ₚ filter (fun i => i <> core_id (mkCpu 9 1 0)) (seqZ 0 12).
Proof. split; [reflexivity|]. apply (polling_order_complete (mkCpu 9 1 0) 12). simpl. lia. Defined.

(** Under its caller contract ([local_queue_len() + count] below the
    capacity) [push_batch] leaves exactly the run queue that pushing the
    chunk's tasks one by one with [push_local] leaves, also when the copy
    wraps past the end of the region. *)
Theorem push_batch_is_repeated_push_local (w : Worker.t) (c : TaskChunk) :
  Worker.ok w -> chunk_ok c ->
  Worker.local_queue_len w + count c < Worker.LOCAL_QUEUE_CAPACITY ->
  exists w', Worker.push_all (chunk_tasks c) w = (true, w') /\
    Worker.local_tasks (Worker.push_batch c w) = Worker.local_tasks w' /\
    Worker.local_tasks w' = Worker.local_tasks w ++ chunk_tasks c.
Proof.
  intros Hok Hc Hl. destruct (Worker.wk_push_batch w c Hok Hc Hl) as [_ E].
  pose proof Hc as (_ & ? & _).
  destruct (Worker.wk_push_all (chunk_tasks c) w Hok) as (w' & H1 & _ & H2).
  - rewrite chunk_tasks_length by done. lia.
  - exists w'. rewrite E, H2. done.
Qed.

(** A chunk of three tasks whose copy wraps: the tail is two cells from the
    end of the region. *)
Lemma push_batch_is_repeated_push_local_witness :
  let w := Worker.set_queue 131070 131070 ∅ (Worker.new (mkCpu 0 0 0) 4) in
  let c := mkChunk ([5; 6; 7] ++ replicate 29 0) 3 0 in
  Worker.local_tasks (Worker.push_batch c w) = [5; 6; 7] /\
  exists w', Worker.push_all (chunk_tasks c) w = (true, w') /\
    Worker.local_tasks (Worker.push_batch c w) = Worker.local_tasks w'.
Proof.
  intros w c. split; [vm_compute; reflexivity|].
  destruct (push_batch_is_repeated_push_local w c) as (w' & ? & ? & _); [| | |by exists w'].
  - unfold Worker.ok. simpl. unfold Worker.LOCAL_QUEUE_CAPACITY, U8_MAX. lia.
  - unfold chunk_ok, CHUNK_SIZE, U8_MAX. simpl. lia.
  - vm_compute. reflexivity.
Defined.

(** Whatever the load, maintenance keeps a deflection threshold that is
    between 40 and 95 there and the load level between 0 and 100, and touches no
    queued task. *)
Theorem maintenance_keeps_bounds (w : Worker.t) (k : nat) :
  Worker.ok w -> 40 <= Worker.deflection_threshold w <= 95 ->
  let w' := Nat.iter k (fun x => Worker.tick (Worker.update_load x)) w in
  40 <= Worker.deflection_threshold w' <= 95 /\ 0 <= Worker.load_level w' <= 100 /\
  Worker.local_tasks w' = Worker.local_tasks w.
Proof.
  intros Hok Ht. cbv zeta.
  assert (Worker.ok (Nat.iter k (fun x => Worker.tick (Worker.update_load x)) w) /\
    40 <= Worker.deflection_threshold (Nat.iter k (fun x => Worker.tick (Worker.update_load x)) w) <= 95 /\
    Worker.local_tasks (Nat.iter k (fun x => Worker.tick (Worker.update_load x)) w)
    = Worker.local_tasks w) as [(? & ? & ? & ?) [? ?]]; [|done].
  induction k as [|k (IH1 & IH2 & IH3)]; simpl; [done|]. split_and!.
  - by apply Worker.wk_tick_ok, Worker.wk_update_load_ok.
  - by apply Worker.wk_tick_threshold.
  - by apply Worker.wk_tick_threshold.
  - by rewrite Worker.wk_tick_tasks, Worker.wk_update_load_tasks.
Qed.

(** The first 1024 ticks of an idle worker raise the threshold by five. *)
Lemma maintenance_keeps_bounds_witness :
  let w := Worker.new (mkCpu 0 0 0) 4 in
  let w' := Nat.iter 1024 (fun x => Worker.tick (Worker.update_load x)) w in
  Worker.deflection_threshold w' = 85 /\ 40 <= Worker.deflection_threshold w' <= 95.
Proof.
  intros w w'. split; [vm_compute; reflexivity|].
  apply (maintenance_keeps_bounds w 1024); [apply Worker.wk_new_ok|done].
Defined.
