(* ===== verification/Scheduler.v ===== *)
(** * Scheduler

    [DtaScheduler] of [src/src/dta_scheduler.rs]: the mailbox matrix, the
    external mailboxes, the warehouse, and the routing of tasks and chunks
    between them.

    The operations are written against the queue interface of [Fifo] (a
    mailbox type [MB] and a warehouse type [WH]); the theorems use its laws
    only, and [Dta] instantiates them with [Mailbox] and [Warehouse].  An
    index out of range is a [Panic].  A [SpinLock] around an external push
    only serialises host threads and is not part of the state. *)

From S2P Require Import Prelude Ring Types Fifo Mailbox Vyukov Warehouse Worker.

(** [usize::MAX], the worker id of a host thread. *)
Definition HOST : Z := USIZE_MAX.

(** What the scheduler needs of the warehouse beyond the queue laws. *)
Class BusyFlag (Q A : Type) `{!FifoQueue Q A} := {
  q_busy : Q -> bool;
  q_busy_spec : forall q, q_ok q -> q_busy q = false <-> q_list q = []
}.

#[export] Instance warehouse_busy : BusyFlag Warehouse.t TaskChunk := {|
  q_busy := Warehouse.is_busy; q_busy_spec := Warehouse.wh_is_busy |}.

Definition some_or_panic {A} (o : option A) : outcome A :=
  match o with Some a => Done a | None => Panic end.

Record Sched (MB WH : Type) := mkSched {
  workers : list Worker.t;
  mailboxes : list (list MB);
  external_mailboxes : list MB;
  topology : TopologyMode;
  max_hops : Z;
  warehouse : WH
}.
Arguments mkSched {MB WH}.
Arguments workers {MB WH} s.
Arguments mailboxes {MB WH} s.
Arguments external_mailboxes {MB WH} s.
Arguments topology {MB WH} s.
Arguments max_hops {MB WH} s.
Arguments warehouse {MB WH} s.

Module Dta.
Section scheduler.
Context {MB WH : Type}.
Context `{!FifoQueue MB TaskChunk, !FifoQueue WH TaskChunk, !BusyFlag WH TaskChunk}.
Notation sched := (Sched MB WH).
Implicit Types (s : sched) (chunk : TaskChunk).

Definition num_workers s : Z := Z.of_nat (length (workers s)).

Definition set_workers (ws : list Worker.t) s : sched :=
  mkSched ws (mailboxes s) (external_mailboxes s) (topology s) (max_hops s) (warehouse s).
Definition set_mailboxes (ms : list (list MB)) s : sched :=
  mkSched (workers s) ms (external_mailboxes s) (topology s) (max_hops s) (warehouse s).
Definition set_external (es : list MB) s : sched :=
  mkSched (workers s) (mailboxes s) es (topology s) (max_hops s) (warehouse s).
Definition set_warehouse (wh : WH) s : sched :=
  mkSched (workers s) (mailboxes s) (external_mailboxes s) (topology s) (max_hops s) wh.

(** [DtaScheduler::new]; the empty mailbox and warehouse are arguments. *)
Definition new (mb_new : MB) (wh_new : WH) (n : Z) (tp : TopologyMode) : sched :=
  {| workers := (fun i => Worker.new (mkCpu (wrap 16 i) (wrap 16 (i / 8)) (wrap 16 (i / 64))) n)
                  <$> seqZ 0 n;
     mailboxes := replicate (Z.to_nat n) (replicate (Z.to_nat n) mb_new);
     external_mailboxes := replicate (Z.to_nat n) mb_new;
     topology := tp;
     max_hops := Z.min (n / 2) U8_MAX;
     warehouse := wh_new |}.

(** ** Accesses to one cell of the state *)

Definition get_worker (i : Z) s : outcome Worker.t := some_or_panic (workers s !! Z.to_nat i).

Definition put_worker (i : Z) (w : Worker.t) s : sched :=
  set_workers (<[Z.to_nat i := w]> (workers s)) s.

(** [self.mailboxes[r][c].push(chunk)] *)
Definition mailbox_push (r c : Z) chunk s : outcome (result unit TaskChunk * sched) :=
  row ← some_or_panic (mailboxes s !! Z.to_nat r);
  mb ← some_or_panic (row !! Z.to_nat c);
  '(res, mb') ← q_push chunk mb;
  Done (res, set_mailboxes (<[Z.to_nat r := <[Z.to_nat c := mb']> row]> (mailboxes s)) s).

(** [self.mailboxes[r][c].pop()] *)
Definition mailbox_pop (r c : Z) s : outcome (option TaskChunk * sched) :=
  row ← some_or_panic (mailboxes s !! Z.to_nat r);
  mb ← some_or_panic (row !! Z.to_nat c);
  '(res, mb') ← q_pop mb;
  Done (res, set_mailboxes (<[Z.to_nat r := <[Z.to_nat c := mb']> row]> (mailboxes s)) s).

(** [external_locks[c].lock(); external_mailboxes[c].push(chunk); unlock()] *)
Definition external_push (c : Z) chunk s : outcome (result unit TaskChunk * sched) :=
  mb ← some_or_panic (external_mailboxes s !! Z.to_nat c);
  '(res, mb') ← q_push chunk mb;
  Done (res, set_external (<[Z.to_nat c := mb']> (external_mailboxes s)) s).

Definition external_pop (c : Z) s : outcome (option TaskChunk * sched) :=
  mb ← some_or_panic (external_mailboxes s !! Z.to_nat c);
  '(res, mb') ← q_pop mb;
  Done (res, set_external (<[Z.to_nat c := mb']> (external_mailboxes s)) s).

(** A push to [target] by a worker, through the matrix, or by a host thread,
    through the external mailbox. *)
Definition deposit (producer target : Z) chunk s : outcome (result unit TaskChunk * sched) :=
  if producer <? num_workers s then mailbox_push producer target chunk s
  else external_push target chunk s.

(** ** Enqueueing *)

Definition signal_worker (target : Z) s : outcome sched :=
  w ← get_worker target s;
  Done (put_worker target (Worker.bump_signal w) s).

(** Panics when the warehouse is full. *)
Definition park_in_warehouse chunk s : outcome (bool * sched) :=
  '(res, wh') ← q_push chunk (warehouse s);
  match res with
  | Ok _ => Done (true, set_warehouse wh' s)
  | Err _ => Panic
  end.

Definition divert_to_warehouse (task : TaskIndex) s : outcome (bool * sched) :=
  park_in_warehouse (set_hop_count U8_MAX (single_chunk task)) s.

Definition enqueue_pinned (current target_core : Z) (task : TaskIndex) s : outcome (bool * sched) :=
  let n := num_workers s in
  if n =? 0 then Panic else
  let target := target_core `mod` n in
  if current =? target then
    w ← get_worker target s;
    let '(b, w') := Worker.push_local task w in
    Done (b, put_worker target w' s)
  else
    '(res, s1) ← deposit current target (single_chunk task) s;
    match res with
    | Ok _ => s2 ← signal_worker target s1; Done (true, s2)
    | Err _ => Done (false, s1)
    end.

(** Steer a worker away from its own column, which nobody polls. *)
Definition avoid_self (producer n target : Z) : Z :=
  if (producer <? n) && (1 <? n) && (target =? producer) then (target + 1) `mod` n else target.

Fixpoint push_chunk_loop (fuel : nat) (producer target : Z) chunk s : outcome (bool * sched) :=
  match fuel with
  | O => OutOfFuel
  | S fuel' =>
      let n := num_workers s in
      '(res, s1) ← deposit producer target chunk s;
      match res with
      | Ok _ => s2 ← signal_worker target s1; Done (true, s2)
      | Err c =>
          if max_hops s1 <=? hop_count c then park_in_warehouse c s1
          else
            let c' := set_hop_count (sat_add 8 (hop_count c) 1) c in
            push_chunk_loop fuel' producer
              (avoid_self producer n (wadd 64 producer (1 + hop_count c' * 7) `mod` n)) c' s1
      end
  end.

(** One turn per value of an eight-bit hop count. *)
Definition hop_fuel : nat := 257.

Definition push_chunk_with_hop (producer initial_target : Z) chunk s : outcome (bool * sched) :=
  push_chunk_loop hop_fuel producer (avoid_self producer (num_workers s) initial_target) chunk s.

(** The target computation of [enqueue_deflect]. *)
Definition deflect_target (tp : TopologyMode) (aff : Affinity) (n source flow_id load threshold : Z)
  : Z :=
  let deflect_mask := if threshold <? load then USIZE_MAX else 0 in
  let h1 := Z.land flow_id 7 in
  let h2 := Z.lor (Z.land (Z.shiftr flow_id 3) 7) 1 in
  if bool_decide (tp = Global) && bool_decide (aff = Any) then
    (source + h1 + h2) `mod` n
  else if bool_decide (aff = SameNUMA) then
    let numa_base := Z.land source (Z.lnot 63) in
    let local_idx := Z.land source 63 in
    let dt := (local_idx + h1 + h2) `mod` 64 in
    let target_idx := Z.lxor local_idx (Z.land (Z.lxor local_idx dt) deflect_mask) in
    Z.lor numa_base target_idx `mod` n
  else
    let ccx_base := Z.land source (Z.lnot 7) in
    let local_idx := Z.land source 7 in
    let dt := Z.land (local_idx + h1 + h2) 7 in
    let target_idx := Z.lxor local_idx (Z.land (Z.lxor local_idx dt) deflect_mask) in
    Z.lor ccx_base target_idx `mod` n.

Definition enqueue_deflect (current source_core flow_id : Z) (task : TaskIndex) (aff : Affinity) s
  : outcome (bool * sched) :=
  if q_busy (warehouse s) then divert_to_warehouse task s
  else
    let n := num_workers s in
    if n =? 0 then Panic else
    let source := source_core `mod` n in
    worker_ref ← get_worker source s;
    let target := deflect_target (topology s) aff n source flow_id
                    (Worker.load_level worker_ref) (Worker.deflection_threshold worker_ref) in
    if current =? target then
      w ← get_worker target s;
      let '(b, w') := Worker.push_local task w in
      if b then Done (true, put_worker target w' s)
      else push_chunk_with_hop current target (single_chunk task) s
    else push_chunk_with_hop current target (single_chunk task) s.

(** ** The worker's side *)

Fixpoint drain_loop (fuel : nat) (core drained : Z) s : outcome (Z * sched) :=
  match fuel with
  | O => Done (drained, s)
  | S fuel' =>
      w ← get_worker core s;
      if Worker.LOCAL_QUEUE_HIGH_WATERMARK <? Worker.local_queue_len w + CHUNK_SIZE
      then Done (drained, s)
      else
        '(res, wh') ← q_pop (warehouse s);
        match res with
        | Some chunk =>
            drain_loop fuel' core (drained + 1)
              (put_worker core (Worker.push_batch chunk w) (set_warehouse wh' s))
        | None => Done (drained, set_warehouse wh' s)
        end
  end.

(** [while drained < 64]: the fuel is the loop's own bound. *)
Definition drain_warehouse (core : Z) s : outcome (bool * sched) :=
  '(drained, s') ← drain_loop 64 core 0 s;
  Done (0 <? drained, s').

Definition route_local (core : Z) chunk s : outcome sched :=
  w ← get_worker core s;
  Done (put_worker core (Worker.push_batch chunk w) s).

Definition route_park (core : Z) chunk s : outcome sched :=
  '(_, s') ← park_in_warehouse chunk s;
  Done s'.

Definition route_deflect (core : Z) chunk s : outcome sched :=
  let chunk' := set_hop_count (sat_add 8 (hop_count chunk) 1) chunk in
  let n := num_workers s in
  if n =? 0 then Panic else
  let t0 := wadd 64 core (1 + hop_count chunk' * 7) `mod` n in
  let target := if (1 <? n) && (t0 =? core) then (t0 + 1) `mod` n else t0 in
  '(res, s1) ← mailbox_push core target chunk' s;
  match res with
  | Ok _ => signal_worker target s1
  | Err c => '(_, s2) ← park_in_warehouse c s1; Done s2
  end.

Definition route_chunk (core : Z) chunk s : outcome sched :=
  w ← get_worker core s;
  let local_len := Worker.local_queue_len w in
  let space_ok := local_len + count chunk <=? Worker.LOCAL_QUEUE_HIGH_WATERMARK in
  let hops_ok := hop_count chunk <? max_hops s in
  match hops_ok, space_ok with
  | false, false => route_park core chunk s
  | false, true => route_local core chunk s
  | true, false => route_deflect core chunk s
  | true, true => route_local core chunk s
  end.

(** [cur_len + CHUNK_SIZE >= LOCAL_QUEUE_CAPACITY], with the cached head. *)
Definition queue_nearly_full (fixed_head : Z) (w : Worker.t) : bool :=
  let cur_len := Z.land (wsub 64 (Worker.local_tail w) fixed_head) Worker.LOCAL_QUEUE_MASK in
  Worker.LOCAL_QUEUE_CAPACITY <=? cur_len + CHUNK_SIZE.

(** Drain one incoming mailbox, read with [pop]. *)
Fixpoint poll_one (fuel : nat) (pop : sched -> outcome (option TaskChunk * sched))
    (core fixed_head : Z) (received : bool) s : outcome (bool * sched) :=
  match fuel with
  | O => OutOfFuel
  | S fuel' =>
      w ← get_worker core s;
      if queue_nearly_full fixed_head w then Done (received, s)
      else
        '(res, s1) ← pop s;
        match res with
        | Some chunk => s2 ← route_chunk core chunk s1; poll_one fuel' pop core fixed_head true s2
        | None => Done (received, s1)
        end
  end.

Fixpoint poll_all (fuel : nat) (order : list Z) (core fixed_head : Z) (received : bool) s
  : outcome (bool * sched) :=
  match order with
  | [] => Done (received, s)
  | i :: order' =>
      '(r, s') ← poll_one fuel (mailbox_pop i core) core fixed_head received s;
      poll_all fuel order' core fixed_head r s'
  end.

Definition poll_mailboxes (fuel : nat) (core : Z) s : outcome (bool * sched) :=
  w ← get_worker core s;
  let fixed_head := Worker.local_head w in
  '(r1, s1) ← poll_all fuel (Worker.polling_order w) core fixed_head false s;
  '(r2, s2) ← poll_one fuel (external_pop core) core fixed_head r1 s1;
  w2 ← get_worker core s2;
  Done (r2, put_worker core (Worker.tick (Worker.update_load w2)) s2).

(** The dequeue of [Worker::dispatch_loop]. *)
Definition take_local (core : Z) s : outcome (option TaskIndex * sched) :=
  w ← get_worker core s;
  let '(r, w') := Worker.pop_local w in
  Done (r, put_worker core w' s).

(** ** Invariant and the tasks a scheduler holds *)

Definition queue_tasks {Q} `{!FifoQueue Q TaskChunk} (q : Q) : list TaskIndex :=
  q_list q ≫= chunk_tasks.

Definition all_tasks s : list TaskIndex :=
  (workers s ≫= Worker.local_tasks) ++ (mailboxes s ≫= fun row => row ≫= queue_tasks) ++
  (external_mailboxes s ≫= queue_tasks) ++ queue_tasks (warehouse s).

Definition box_ok {Q} `{!FifoQueue Q TaskChunk} (q : Q) : Prop :=
  q_ok q /\ Forall chunk_ok (q_list q).

(** A worker polls only other existing cores. *)
Definition polls_others (n : Z) (i : nat) (w : Worker.t) : Prop :=
  Forall (fun j => 0 <= j < n /\ j <> Z.of_nat i) (Worker.polling_order w).

Record sched_ok (n : Z) s : Prop := {
  so_n : 0 < n;
  so_workers : length (workers s) = Z.to_nat n /\ Forall Worker.ok (workers s);
  so_order : forall i w, workers s !! i = Some w -> polls_others n i w;
  so_mail : length (mailboxes s) = Z.to_nat n /\
    Forall (fun row => length row = Z.to_nat n /\ Forall box_ok row) (mailboxes s);
  so_ext : length (external_mailboxes s) = Z.to_nat n /\ Forall box_ok (external_mailboxes s);
  so_wh : box_ok (warehouse s);
  so_hops : 0 <= max_hops s <= U8_MAX /\ (n = 1 -> max_hops s = 0)
}.

(** The mailbox nobody polls. *)
Definition self_box s (i : nat) : option MB := mailboxes s !! i ≫= fun row => row !! i.

(** From [s] to [s'] the invariant is kept, the tasks [gone] left and the
    tasks [come] arrived, and no self-column changed. *)
Record evolves (n : Z) (gone come : list TaskIndex) s s' : Prop := {
  ev_ok : sched_ok n s';
  ev_tasks : gone ++ all_tasks s' ≡ₚ come ++ all_tasks s;
  ev_self : forall i, self_box s' i = self_box s i
}.

Context `{!FifoLaws MB TaskChunk, !FifoLaws WH TaskChunk}.

Lemma sc_evolves_refl n s : sched_ok n s -> evolves n [] [] s s.
Proof. by split. Qed.

Lemma sc_evolves_trans n e1 e2 e3 s1 s2 s3 :
  evolves n e1 e2 s1 s2 -> evolves n e2 e3 s2 s3 -> evolves n e1 e3 s1 s3.
Proof.
  intros [H1 H2 H3] [K1 K2 K3]. split; [done| |].
  - apply (Permutation_app_inv_l e2). rewrite Permutation_app_swap_app, K2, Permutation_app_swap_app.
    rewrite H2. by rewrite Permutation_app_swap_app.
  - intros i. by rewrite K3.
Qed.

Lemma sc_num_workers n s : sched_ok n s -> num_workers s = n.
Proof. intros [? [E _] _ _ _ _ _]. unfold num_workers. lia. Qed.

Lemma sc_get_worker n s i : sched_ok n s -> 0 <= i < n ->
  exists w, workers s !! Z.to_nat i = Some w /\ get_worker i s = Done w /\ Worker.ok w.
Proof.
  intros [? [E Hf] _ _ _ _ _] Hi.
  destruct (lookup_lt_is_Some_2 (workers s) (Z.to_nat i)) as [w Hw]; [lia|].
  exists w. unfold get_worker. rewrite Hw. split_and!; try done.
  by eapply Forall_lookup_1 in Hf.
Qed.

(** Replacing a worker whose polling order stays. *)
Lemma sc_put_worker n s i w w' e1 e2 :
  sched_ok n s -> workers s !! Z.to_nat i = Some w -> Worker.ok w' ->
  Worker.polling_order w' = Worker.polling_order w ->
  e1 ++ Worker.local_tasks w' ≡ₚ e2 ++ Worker.local_tasks w ->
  evolves n e1 e2 s (put_worker i w' s).
Proof.
  intros [? [E Hf] Ho Hm He Hw Hh] Hi Hok Hpo Ht. split; simpl.
  - split; simpl; try done.
    + rewrite length_insert. split; [done|]. by apply Forall_insert.
    + intros j w2 Hj. apply list_lookup_insert_Some in Hj as [(<- & <- & _)|[_ Hj]].
      * unfold polls_others. rewrite Hpo. by apply Ho.
      * by apply Ho.
  - unfold all_tasks. simpl. apply (perm_frame _ _ []). by apply (bind_insert_perm _ _ _ w).
  - done.
Qed.

Lemma sc_signal_worker n s i : sched_ok n s -> 0 <= i < n ->
  exists s', signal_worker i s = Done s' /\ evolves n [] [] s s'.
Proof.
  intros Hs Hi. destruct (sc_get_worker n s i Hs Hi) as (w & Hw & E & Hok).
  unfold signal_worker. rewrite E. simpl. eexists; split; [done|].
  by apply (sc_put_worker n s i w).
Qed.

(** Replacing a mailbox off the diagonal. *)
Lemma sc_put_mailbox n s r c row mb mb' e1 e2 :
  sched_ok n s -> 0 <= r -> 0 <= c -> r <> c -> mailboxes s !! Z.to_nat r = Some row ->
  row !! Z.to_nat c = Some mb -> box_ok mb' ->
  e1 ++ queue_tasks mb' ≡ₚ e2 ++ queue_tasks mb ->
  evolves n e1 e2 s
    (set_mailboxes (<[Z.to_nat r := <[Z.to_nat c := mb']> row]> (mailboxes s)) s).
Proof.
  intros [? Hw Ho [Em Hm] He Hwh Hh] ? ? Hne Hr Hc Hok Ht. split; simpl.
  - split; simpl; try done. rewrite length_insert. split; [done|]. apply Forall_insert; [done|].
    destruct (Forall_lookup_1 _ _ _ _ Hm Hr) as [El Hf]. rewrite length_insert.
    split; [done|]. by apply Forall_insert.
  - unfold all_tasks. simpl. apply perm_frame.
    apply (bind_insert_perm _ _ _ row); [done|]. by apply (bind_insert_perm _ _ _ mb).
  - intros i. unfold self_box. simpl.
    destruct (decide (i = Z.to_nat r)) as [->|]; [|by rewrite list_lookup_insert_ne].
    rewrite list_lookup_insert_eq by (by eapply lookup_lt_Some). rewrite Hr. simpl.
    apply list_lookup_insert_ne. lia.
Qed.

Lemma sc_set_mailboxes_id s r row c mb :
  mailboxes s !! r = Some row -> row !! c = Some mb ->
  set_mailboxes (<[r := <[c := mb]> row]> (mailboxes s)) s = s.
Proof. intros. rewrite (list_insert_id row), list_insert_id by done. by destruct s. Qed.

Lemma sc_get_mailbox n s r c : sched_ok n s -> 0 <= r < n -> 0 <= c < n ->
  exists row mb, mailboxes s !! Z.to_nat r = Some row /\ row !! Z.to_nat c = Some mb /\ box_ok mb.
Proof.
  intros [? _ _ [Em Hm] _ _ _] Hr Hc.
  destruct (lookup_lt_is_Some_2 (mailboxes s) (Z.to_nat r)) as [row Hrow]; [lia|].
  destruct (Forall_lookup_1 _ _ _ _ Hm Hrow) as [El Hf].
  destruct (lookup_lt_is_Some_2 row (Z.to_nat c)) as [mb Hmb]; [lia|].
  exists row, mb. split_and!; try done; by destruct (Forall_lookup_1 _ _ _ _ Hf Hmb).
Qed.

Lemma sc_queue_tasks_app {Q} `{!FifoQueue Q TaskChunk} (q q' : Q) chunk :
  q_list q' = q_list q ++ [chunk] -> queue_tasks q' ≡ₚ chunk_tasks chunk ++ queue_tasks q.
Proof.
  intros E. unfold queue_tasks. rewrite E, bind_app. simpl. rewrite app_nil_r.
  apply Permutation_app_comm.
Qed.

(** A queue push and pop seen as a movement of tasks. *)
Lemma sc_queue_push {Q} `{!FifoQueue Q TaskChunk, !FifoLaws Q TaskChunk} (q : Q) chunk :
  box_ok q -> chunk_ok chunk ->
  (exists q', q_push chunk q = Done (Ok tt, q') /\ box_ok q' /\
              queue_tasks q' ≡ₚ chunk_tasks chunk ++ queue_tasks q)
  \/ q_push chunk q = Done (Err chunk, q).
Proof.
  intros [Hok Hf] Hc. destruct (q_push_cases q chunk Hok) as [(q' & E & Hok' & El & _)|[E _]];
    [left|by right]. exists q'. split_and!; [done| |by apply sc_queue_tasks_app].
  split; [done|]. rewrite El. apply Forall_app. auto.
Qed.

Lemma sc_queue_pop {Q} `{!FifoQueue Q TaskChunk, !FifoLaws Q TaskChunk} (q : Q) :
  box_ok q ->
  (exists chunk q', q_pop q = Done (Some chunk, q') /\ box_ok q' /\ chunk_ok chunk /\
     q_list q = chunk :: q_list q' /\ chunk_tasks chunk ++ queue_tasks q' ≡ₚ queue_tasks q)
  \/ (q_pop q = Done (None, q) /\ q_list q = []).
Proof.
  intros [Hok Hf]. destruct (q_pop_cases q Hok) as [(c & l & q' & E & Ep & Hok' & El & _)|[Ep E]];
    [left|by right]. rewrite E in Hf. apply Forall_cons in Hf as [? ?].
  exists c, q'. unfold queue_tasks, box_ok. rewrite El, E. split_and!; done.
Qed.

Lemma sc_mailbox_push n s r c chunk :
  sched_ok n s -> chunk_ok chunk -> 0 <= r < n -> 0 <= c < n -> r <> c ->
  (exists s', mailbox_push r c chunk s = Done (Ok tt, s') /\
              evolves n [] (chunk_tasks chunk) s s')
  \/ mailbox_push r c chunk s = Done (Err chunk, s).
Proof.
  intros Hs Hc Hr Hcol Hne. destruct (sc_get_mailbox n s r c Hs Hr Hcol) as (row & mb & Er & Ec & Hok).
  unfold mailbox_push. rewrite Er. simpl. rewrite Ec. simpl.
  destruct (sc_queue_push mb chunk Hok Hc) as [(mb' & -> & Hok' & Ht)| ->]; simpl.
  - left. eexists; split; [done|]. by apply (sc_put_mailbox n s r c row mb); try lia.
  - right. by rewrite sc_set_mailboxes_id.
Qed.

Lemma sc_put_external n s c mb mb' e1 e2 :
  sched_ok n s -> external_mailboxes s !! Z.to_nat c = Some mb -> box_ok mb' ->
  e1 ++ queue_tasks mb' ≡ₚ e2 ++ queue_tasks mb ->
  evolves n e1 e2 s (set_external (<[Z.to_nat c := mb']> (external_mailboxes s)) s).
Proof.
  intros [? Hw Ho Hm [Ee He] Hwh Hh] Hc Hok Ht. split; simpl; [| |done].
  - split; simpl; try done. rewrite length_insert. split; [done|]. by apply Forall_insert.
  - unfold all_tasks. simpl. rewrite !(app_assoc (workers s ≫= Worker.local_tasks)).
    apply perm_frame. by apply (bind_insert_perm _ _ _ mb).
Qed.

Lemma sc_get_external n s c : sched_ok n s -> 0 <= c < n ->
  exists mb, external_mailboxes s !! Z.to_nat c = Some mb /\ box_ok mb.
Proof.
  intros [? _ _ _ [Ee He] _ _] Hc.
  destruct (lookup_lt_is_Some_2 (external_mailboxes s) (Z.to_nat c)) as [mb Hmb]; [lia|].
  exists mb. split; [done|]. by eapply Forall_lookup_1 in He.
Qed.

Lemma sc_set_external_id s c mb :
  external_mailboxes s !! c = Some mb -> set_external (<[c := mb]> (external_mailboxes s)) s = s.
Proof. intros. rewrite list_insert_id by done. by destruct s. Qed.

Lemma sc_external_push n s c chunk :
  sched_ok n s -> chunk_ok chunk -> 0 <= c < n ->
  (exists s', external_push c chunk s = Done (Ok tt, s') /\
              evolves n [] (chunk_tasks chunk) s s')
  \/ external_push c chunk s = Done (Err chunk, s).
Proof.
  intros Hs Hc Hcol. destruct (sc_get_external n s c Hs Hcol) as (mb & Ec & Hok).
  unfold external_push. rewrite Ec. simpl.
  destruct (sc_queue_push mb chunk Hok Hc) as [(mb' & -> & Hok' & Ht)| ->]; simpl.
  - left. eexists; split; [done|]. by apply (sc_put_external n s c mb).
  - right. by rewrite sc_set_external_id.
Qed.

Lemma sc_put_warehouse n s wh' e1 e2 :
  sched_ok n s -> box_ok wh' ->
  e1 ++ queue_tasks wh' ≡ₚ e2 ++ queue_tasks (warehouse s) ->
  evolves n e1 e2 s (set_warehouse wh' s).
Proof.
  intros [? Hw Ho Hm He Hwh Hh] Hok Ht. split; simpl; [by split| |done].
  unfold all_tasks. simpl. generalize (workers s ≫= Worker.local_tasks) as a.
  generalize (mailboxes s ≫= fun row => row ≫= queue_tasks) as b.
  generalize (external_mailboxes s ≫= queue_tasks) as c. intros c b a.
  pose proof (perm_frame e1 e2 (a ++ b ++ c) [] _ _ Ht) as E.
  by rewrite !app_nil_r, <- !app_assoc in E.
Qed.

Lemma sc_park n s chunk : sched_ok n s -> chunk_ok chunk ->
  (exists s', park_in_warehouse chunk s = Done (true, s') /\
              evolves n [] (chunk_tasks chunk) s s')
  \/ park_in_warehouse chunk s = Panic.
Proof.
  intros Hs Hc. unfold park_in_warehouse.
  destruct (sc_queue_push (warehouse s) chunk (so_wh _ _ Hs) Hc)
    as [(wh' & -> & Hok & Ht)| ->]; simpl; [left|by right].
  eexists; split; [done|]. by apply sc_put_warehouse.
Qed.

Lemma sc_deposit n s producer target chunk :
  sched_ok n s -> chunk_ok chunk -> 0 <= producer -> 0 <= target < n ->
  (producer < n -> producer <> target) ->
  (exists s', deposit producer target chunk s = Done (Ok tt, s') /\
              evolves n [] (chunk_tasks chunk) s s')
  \/ deposit producer target chunk s = Done (Err chunk, s).
Proof.
  intros Hs Hc Hp Ht Hne. unfold deposit. rewrite (sc_num_workers n) by done. case_test.
  - apply sc_mailbox_push; auto with lia.
  - by apply sc_external_push.
Qed.

Lemma sc_signal_after n s s1 come target :
  evolves n [] come s s1 -> 0 <= target < n ->
  exists s2, signal_worker target s1 = Done s2 /\ evolves n [] come s s2.
Proof.
  intros Hev Ht. destruct (sc_signal_worker n s1 target (ev_ok _ _ _ _ _ Hev) Ht) as (s2 & E & H2).
  exists s2. split; [done|]. destruct Hev as [_ H1 Hs], H2 as [? H2 Hs2].
  split; [done| |intros i; by rewrite Hs2]. simpl in *. by rewrite H2.
Qed.

Lemma sc_avoid_self n producer target : 0 < n -> 0 <= producer -> (1 < n \/ n <= producer) ->
  0 <= target < n ->
  0 <= avoid_self producer n target < n /\ (producer < n -> producer <> avoid_self producer n target).
Proof.
  intros Hn Hp Hm Ht. unfold avoid_self. case_test.
  - pose proof (Z.mod_pos_bound (target + 1) n Hn). split; [done|]. intros _ E.
    destruct (decide (target + 1 = n)) as [Ee|].
    + rewrite Ee, Z.mod_same in E by lia. lia.
    + rewrite Z.mod_small in E by lia. lia.
  - split; [done|]. intros Hlt ->. destruct E as [E|E]; bool_prop; [|lia].
    destruct E; bool_prop; lia.
Qed.

(** What an operation that must place the tasks [come] may do. *)
Definition placed (n : Z) (come : list TaskIndex) s (o : outcome (bool * sched)) : Prop :=
  (exists s', o = Done (true, s') /\ evolves n [] come s s') \/ o = Panic.

Lemma sc_push_chunk_loop n fuel producer target chunk s :
  sched_ok n s -> chunk_ok chunk -> 0 <= producer -> (1 < n \/ n <= producer) ->
  0 <= target < n -> (producer < n -> producer <> target) ->
  max_hops s - hop_count chunk < Z.of_nat fuel -> (0 < fuel)%nat ->
  placed n (chunk_tasks chunk) s (push_chunk_loop fuel producer target chunk s).
Proof.
  revert target chunk. induction fuel as [|fuel IH]; intros target chunk Hs Hc Hp Hm Ht Hne Hf H0; [lia|].
  cbn [push_chunk_loop]. pose proof (so_hops _ _ Hs). pose proof Hc as (_ & _ & Hhop).
  destruct (sc_deposit n s producer target chunk) as [(s1 & -> & Hev)| ->]; try done; simpl.
  - destruct (sc_signal_after n s s1 _ target Hev Ht) as (s2 & -> & ?). left. eauto.
  - case_test; [by apply sc_park|].
    rewrite (sc_num_workers n) by done. unfold sat_add, U8_MAX in *.
    rewrite (Z.min_r _ (hop_count chunk + 1)) by lia.
    destruct (sc_avoid_self n producer (wadd 64 producer (1 + (hop_count chunk + 1) * 7) `mod` n))
      as [? ?]; try done; [lia|apply Z.mod_pos_bound; lia|].
    rewrite <- (chunk_tasks_set_hop (hop_count chunk + 1) chunk).
    apply IH; try done; simpl; try lia. apply chunk_ok_set_hop; [unfold U8_MAX; lia|done].
Qed.

Lemma sc_push_chunk_with_hop n producer target chunk s :
  sched_ok n s -> chunk_ok chunk -> 0 <= producer -> (1 < n \/ n <= producer) -> 0 <= target < n ->
  placed n (chunk_tasks chunk) s (push_chunk_with_hop producer target chunk s).
Proof.
  intros Hs Hc Hp Hm Ht. unfold push_chunk_with_hop. rewrite (sc_num_workers n) by done.
  pose proof (so_n _ _ Hs). pose proof (so_hops _ _ Hs). pose proof Hc as (_ & _ & ?).
  destruct (sc_avoid_self n producer target) as [? ?]; try done.
  apply sc_push_chunk_loop; try done; unfold hop_fuel, U8_MAX in *; lia.
Qed.

Lemma sc_push_local n s i task w : sched_ok n s -> workers s !! Z.to_nat i = Some w ->
  (exists w', Worker.push_local task w = (true, w') /\
              evolves n [] [task] s (put_worker i w' s))
  \/ Worker.push_local task w = (false, w).
Proof.
  intros Hs Hw. destruct (so_workers _ _ Hs) as [_ Hf]. eapply Forall_lookup_1 in Hf as Hok; [|done].
  destruct (Worker.wk_push_local_cases w task Hok) as [(w' & E & Hok' & Ht)|[E _]]; [left|by right].
  exists w'. split; [done|]. apply (sc_put_worker n s i w); try done.
  - unfold Worker.push_local in E. case_match; by simplify_eq.
  - rewrite Ht. simpl. by rewrite Permutation_app_comm.
Qed.

Lemma sc_enqueue_pinned n current target_core task s :
  sched_ok n s -> 0 <= current ->
  exists b s', enqueue_pinned current target_core task s = Done (b, s') /\
    evolves n [] (if b then [task] else []) s s'.
Proof.
  intros Hs Hcur. pose proof (so_n _ _ Hs). unfold enqueue_pinned.
  rewrite (sc_num_workers n) by done. case_test; [lia|].
  pose proof (Z.mod_pos_bound target_core n ltac:(lia)) as Ht.
  set (target := target_core `mod` n) in *. case_test.
  - destruct (sc_get_worker n s target Hs Ht) as (w & Hw & -> & Hok). simpl.
    destruct (sc_push_local n s target task w Hs Hw) as [(w' & -> & ?)| ->].
    + by do 2 eexists.
    + do 2 eexists. split; [done|]. by apply (sc_put_worker n s target w).
  - destruct (sc_deposit n s current target (single_chunk task)) as [(s1 & -> & Hev)| ->];
      auto with ring; simpl.
    + destruct (sc_signal_after n s s1 _ target Hev Ht) as (s2 & -> & ?). simpl. by do 2 eexists.
    + do 2 eexists. split; [done|]. by apply sc_evolves_refl.
Qed.

Lemma sc_deflect_target_range tp aff n source flow_id load threshold : 0 < n ->
  0 <= deflect_target tp aff n source flow_id load threshold < n.
Proof.
  intros. unfold deflect_target. case_test; [by apply Z.mod_pos_bound|].
  case_test; by apply Z.mod_pos_bound.
Qed.

Lemma sc_enqueue_deflect n current source_core flow_id task aff s :
  sched_ok n s -> 0 <= current -> (1 < n \/ n <= current) ->
  placed n [task] s (enqueue_deflect current source_core flow_id task aff s).
Proof.
  intros Hs Hcur Hm. pose proof (so_n _ _ Hs). unfold enqueue_deflect. case_test.
  { apply sc_park; auto. apply chunk_ok_set_hop; auto with ring. unfold U8_MAX. lia. }
  rewrite (sc_num_workers n) by done. case_test; [lia|].
  destruct (sc_get_worker n s (source_core `mod` n)) as (w0 & _ & -> & _);
    [done|by apply Z.mod_pos_bound|]. simpl.
  set (target := deflect_target _ _ _ _ _ _ _).
  assert (0 <= target < n) as Ht by (by apply sc_deflect_target_range).
  assert (placed n [task] s (push_chunk_with_hop current target (single_chunk task) s)).
  { rewrite <- (single_chunk_tasks task). apply sc_push_chunk_with_hop; auto with ring. }
  case_test; [|done].
  destruct (sc_get_worker n s target Hs Ht) as (w & Hw & -> & Hok). simpl.
  destruct (sc_push_local n s target task w Hs Hw) as [(w' & -> & ?)| ->]; [|done].
  left. eauto.
Qed.

(** ** Routing and polling keep every task *)

Lemma sc_evolves_cancel n e s s' : evolves n e e s s' -> evolves n [] [] s s'.
Proof. intros [? Ht ?]. split; try done. simpl. by apply Permutation_app_inv_l in Ht. Qed.

Lemma sc_push_batch n s i w chunk : sched_ok n s -> workers s !! Z.to_nat i = Some w ->
  chunk_ok chunk -> Worker.local_queue_len w + count chunk < Worker.LOCAL_QUEUE_CAPACITY ->
  evolves n [] (chunk_tasks chunk) s (put_worker i (Worker.push_batch chunk w) s).
Proof.
  intros Hs Hw Hc Hl. destruct (so_workers _ _ Hs) as [_ Hf].
  eapply Forall_lookup_1 in Hf as Hok; [|done].
  destruct (Worker.wk_push_batch w chunk Hok Hc Hl) as [Hok' Ht].
  apply (sc_put_worker n s i w); try done. rewrite Ht. simpl. apply Permutation_app_comm.
Qed.

Lemma sc_drain_loop n fuel core drained s : sched_ok n s -> 0 <= core < n ->
  exists d s', drain_loop fuel core drained s = Done (d, s') /\
    drained <= d <= drained + Z.of_nat fuel /\ evolves n [] [] s s'.
Proof.
  revert drained s. induction fuel as [|fuel IH]; intros drained s Hs Hcore; cbn [drain_loop].
  { do 2 eexists. split; [done|]. split; [lia|]. by apply sc_evolves_refl. }
  destruct (sc_get_worker n s core Hs Hcore) as (w & Hw & -> & Hok). simpl.
  case_test. { do 2 eexists. split; [done|]. split; [lia|]. by apply sc_evolves_refl. }
  destruct (sc_queue_pop (warehouse s) (so_wh _ _ Hs)) as [(chunk & wh' & -> & Hok' & Hc & _ & Ht)|[-> _]];
    simpl.
  - assert (evolves n (chunk_tasks chunk) [] s (set_warehouse wh' s)) as H1
      by (apply sc_put_warehouse; done).
    assert (evolves n [] (chunk_tasks chunk) (set_warehouse wh' s)
              (put_worker core (Worker.push_batch chunk w) (set_warehouse wh' s))) as H2.
    { apply sc_push_batch; try done; [by apply H1|]. pose proof Hc as (_ & ? & _).
      unfold Worker.LOCAL_QUEUE_HIGH_WATERMARK, Worker.LOCAL_QUEUE_CAPACITY, CHUNK_SIZE in *.
      change (131072 / 8) with 16384 in *. lia. }
    pose proof (sc_evolves_cancel _ _ _ _ (sc_evolves_trans _ _ _ _ _ _ _ H1 H2)) as H3.
    destruct (IH (drained + 1) _ (ev_ok _ _ _ _ _ H2) Hcore) as (d & s' & -> & ? & H4).
    do 2 eexists. split; [done|]. split; [lia|]. by eapply sc_evolves_trans.
  - do 2 eexists. split; [done|]. split; [lia|]. apply sc_put_warehouse; try done. apply Hs.
Qed.

(** Routing on behalf of [core] touches no other row of the matrix and no
    external mailbox. *)
Definition off_row (core : Z) s s' : Prop :=
  (forall r, r <> Z.to_nat core -> mailboxes s' !! r = mailboxes s !! r) /\
  external_mailboxes s' = external_mailboxes s.

Definition routed (n core : Z) chunk s (o : outcome sched) : Prop :=
  (exists s', o = Done s' /\ evolves n [] (chunk_tasks chunk) s s' /\ off_row core s s') \/ o = Panic.

Lemma sc_off_row_park core chunk s s' : park_in_warehouse chunk s = Done (true, s') -> off_row core s s'.
Proof.
  unfold park_in_warehouse. destruct (q_push chunk (warehouse s)) as [[[] wh']| |]; simpl;
    intros E; simplify_eq. by split.
Qed.

Lemma sc_off_row_signal core target s s' : signal_worker target s = Done s' -> off_row core s s'.
Proof.
  unfold signal_worker, get_worker. destruct (workers s !! Z.to_nat target); simpl;
    intros E; simplify_eq. by split.
Qed.

Lemma sc_off_row_push core c chunk s r s' :
  mailbox_push core c chunk s = Done (r, s') -> off_row core s s'.
Proof.
  unfold mailbox_push. destruct (mailboxes s !! Z.to_nat core) as [row|]; simpl; [|done].
  destruct (row !! Z.to_nat c) as [mb|]; simpl; [|done].
  destruct (q_push chunk mb) as [[? mb']| |]; simpl; intros E; simplify_eq.
  split; [|done]. intros i Hi. simpl. by apply list_lookup_insert_ne.
Qed.

Lemma sc_off_row_trans core s1 s2 s3 : off_row core s1 s2 -> off_row core s2 s3 -> off_row core s1 s3.
Proof. intros [H1 E1] [H2 E2]. split; [intros; rewrite H2, H1; done|congruence]. Qed.

Lemma sc_park_routed n core chunk s : sched_ok n s -> chunk_ok chunk ->
  routed n core chunk s ('(_, s') ← park_in_warehouse chunk s; Done s').
Proof.
  intros Hs Hc. destruct (sc_park n s chunk Hs Hc) as [(s' & E & Hev)| ->]; [left|by right].
  rewrite E. exists s'. split_and!; try done. by eapply sc_off_row_park.
Qed.

Lemma sc_route_deflect n core chunk s :
  sched_ok n s -> chunk_ok chunk -> 0 <= core < n -> hop_count chunk < max_hops s ->
  routed n core chunk s (route_deflect core chunk s).
Proof.
  intros Hs Hc Hcore Hh. pose proof (so_hops _ _ Hs) as [Hm H1]. pose proof (so_n _ _ Hs).
  pose proof Hc as (_ & _ & Hhop).
  unfold route_deflect. rewrite (sc_num_workers n) by done. case_test; [lia|].
  unfold sat_add, U8_MAX in *. rewrite (Z.min_r _ (hop_count chunk + 1)) by lia. simpl.
  set (t0 := wadd 64 core _ `mod` n).
  pose proof (sc_avoid_self n core t0 ltac:(lia) ltac:(lia) ltac:(lia)
                (Z.mod_pos_bound _ n ltac:(lia))) as [Hr Hne].
  unfold avoid_self in Hr, Hne. rewrite (proj2 (Z.ltb_lt core n)) in Hr, Hne by lia.
  simpl in Hr, Hne. set (target := if _ : bool then _ else _) in *.
  set (c' := set_hop_count (hop_count chunk + 1) chunk).
  assert (chunk_ok c') as Hc' by (apply chunk_ok_set_hop; [unfold U8_MAX; lia|done]).
  destruct (sc_mailbox_push n s core target c') as [(s1 & E1 & Hev)|E1]; auto with lia;
    rewrite E1; simpl.
  - destruct (sc_signal_after n s s1 _ target Hev Hr) as (s2 & E2 & Hev2). left. exists s2.
    split_and!; try done. eapply sc_off_row_trans; eauto using sc_off_row_push, sc_off_row_signal.
  - apply (sc_park_routed n core c'); done.
Qed.

Lemma sc_route_chunk n core chunk s :
  sched_ok n s -> chunk_ok chunk -> 0 <= core < n ->
  routed n core chunk s (route_chunk core chunk s).
Proof.
  intros Hs Hc Hcore. unfold route_chunk.
  destruct (sc_get_worker n s core Hs Hcore) as (w & Hw & Eg & Hok). rewrite Eg. simpl.
  destruct (hop_count chunk <? max_hops s) eqn:Eh, (_ <=? _) eqn:El; bool_prop.
  2: by apply sc_route_deflect.
  3: by apply sc_park_routed.
  all: unfold route_local; rewrite Eg; left; eexists; split; [done|]; split; [|by split].
  all: apply sc_push_batch; try done; pose proof Hc as (_ & ? & _).
  all: unfold Worker.LOCAL_QUEUE_HIGH_WATERMARK, Worker.LOCAL_QUEUE_CAPACITY in *.
  all: change (131072 / 8) with 16384 in *; lia.
Qed.

(** An activity that keeps every task, or reports the warehouse's overflow. *)
Definition keeps (n : Z) s (o : outcome (bool * sched)) : Prop :=
  (exists b s', o = Done (b, s') /\ evolves n [] [] s s') \/ o = Panic.

(** A source of chunks: reading it takes the chunk out, and routing for
    [core] leaves it alone. *)
Record source_ok (n core : Z) (pop : sched -> outcome (option TaskChunk * sched))
    (len : sched -> nat) : Prop := {
  src_pop : forall s, sched_ok n s ->
    (exists chunk s1, pop s = Done (Some chunk, s1) /\ chunk_ok chunk /\
       evolves n (chunk_tasks chunk) [] s s1 /\ len s = S (len s1))
    \/ (exists s1, pop s = Done (None, s1) /\ evolves n [] [] s s1);
  src_frame : forall s s', off_row core s s' -> len s' = len s
}.

Lemma sc_poll_one n core pop len fuel head received s :
  source_ok n core pop len -> sched_ok n s -> 0 <= core < n -> (len s < fuel)%nat ->
  keeps n s (poll_one fuel pop core head received s).
Proof.
  intros Hsrc. revert received s. induction fuel as [|fuel IH]; intros received s Hs Hcore Hf; [lia|].
  cbn [poll_one]. destruct (sc_get_worker n s core Hs Hcore) as (w & _ & -> & _). simpl.
  case_test. { left. do 2 eexists. split; [done|]. by apply sc_evolves_refl. }
  destruct (src_pop _ _ _ _ Hsrc s Hs) as [(chunk & s1 & -> & Hc & H1 & Hlen)|(s1 & -> & H1)]; simpl.
  - destruct (sc_route_chunk n core chunk s1) as [(s2 & -> & H2 & Hoff)| ->]; try done;
      [by apply H1| |by right]. simpl.
    pose proof (sc_evolves_cancel _ _ _ _ (sc_evolves_trans _ _ _ _ _ _ _ H1 H2)) as H3.
    destruct (IH true s2) as [(b & s' & -> & H4)| ->]; try done; [by apply H2| | |by right].
    + rewrite (src_frame _ _ _ _ Hsrc _ _ Hoff). lia.
    + left. do 2 eexists. split; [done|]. by eapply sc_evolves_trans.
  - left. by do 2 eexists.
Qed.

Definition box_len s (r c : Z) : nat :=
  match mailboxes s !! Z.to_nat r with
  | Some row => match row !! Z.to_nat c with Some mb => length (q_list mb) | None => 0 end
  | None => 0
  end.

Definition ext_len s (c : Z) : nat :=
  match external_mailboxes s !! Z.to_nat c with Some mb => length (q_list mb) | None => 0 end.

Lemma sc_mailbox_source n i core : 0 <= i < n -> 0 <= core < n -> i <> core ->
  source_ok n core (mailbox_pop i core) (fun s => box_len s i core).
Proof.
  intros Hi Hcore Hne. split.
  - intros s Hs. destruct (sc_get_mailbox n s i core Hs Hi Hcore) as (row & mb & Er & Ec & Hok).
    unfold mailbox_pop, box_len. rewrite Er. simpl. rewrite Ec. simpl.
    destruct (sc_queue_pop mb Hok) as [(c & mb' & -> & Hok' & Hc & El & Ht)|[-> _]]; simpl.
    + left. do 2 eexists. split; [done|]. split_and!; [done| |].
      * by apply (sc_put_mailbox n s i core row mb); try lia.
      * rewrite El. simpl. rewrite !list_lookup_insert_eq; [done|..];
          (by eapply lookup_lt_Some) || (rewrite ?length_insert; by eapply lookup_lt_Some).
    + right. eexists. split; [done|]. rewrite sc_set_mailboxes_id by done. by apply sc_evolves_refl.
  - intros s s' [H _]. unfold box_len. rewrite H by lia. done.
Qed.

Lemma sc_external_source n core : 0 <= core < n ->
  source_ok n core (external_pop core) (fun s => ext_len s core).
Proof.
  intros Hcore. split.
  - intros s Hs. destruct (sc_get_external n s core Hs Hcore) as (mb & Ec & Hok).
    unfold external_pop, ext_len. rewrite Ec. simpl.
    destruct (sc_queue_pop mb Hok) as [(c & mb' & -> & Hok' & Hc & El & Ht)|[-> _]]; simpl.
    + left. do 2 eexists. split; [done|]. split_and!; [done| |].
      * by apply (sc_put_external n s core mb).
      * rewrite El. simpl. rewrite !list_lookup_insert_eq; [done|by eapply lookup_lt_Some].
    + right. eexists. split; [done|]. rewrite sc_set_external_id by done. by apply sc_evolves_refl.
  - intros s s' [_ H]. unfold ext_len. by rewrite H.
Qed.

Section polling.
Context (fuel : nat) (Hfuel : forall mb : MB, q_ok mb -> (q_cap mb < fuel)%nat).

Lemma sc_box_len n s r c : sched_ok n s -> 0 <= r < n -> 0 <= c < n -> (box_len s r c < fuel)%nat.
Proof.
  intros Hs Hr Hc. destruct (sc_get_mailbox n s r c Hs Hr Hc) as (row & mb & Er & Ec & [Hok _]).
  unfold box_len. rewrite Er, Ec. pose proof (q_bounded mb Hok). pose proof (Hfuel mb Hok). lia.
Qed.

Lemma sc_ext_len n s c : sched_ok n s -> 0 <= c < n -> (ext_len s c < fuel)%nat.
Proof.
  intros Hs Hc. destruct (sc_get_external n s c Hs Hc) as (mb & Ec & [Hok _]).
  unfold ext_len. rewrite Ec. pose proof (q_bounded mb Hok). pose proof (Hfuel mb Hok). lia.
Qed.

Lemma sc_poll_all n core order head received s :
  sched_ok n s -> 0 <= core < n -> Forall (fun j => 0 <= j < n /\ j <> core) order ->
  keeps n s (poll_all fuel order core head received s).
Proof.
  revert received s. induction order as [|i order IH]; intros received s Hs Hcore Hf; simpl.
  { left. do 2 eexists. split; [done|]. by apply sc_evolves_refl. }
  apply Forall_cons in Hf as [[Hi Hne] Hf].
  destruct (sc_poll_one n core (mailbox_pop i core) (fun s => box_len s i core) fuel head received s)
    as [(b & s1 & -> & H1)| ->]; [by apply sc_mailbox_source|done|done|by eapply sc_box_len| |by right].
  simpl. destruct (IH b s1) as [(b' & s2 & -> & H2)| ->]; try done; [by apply H1| |by right].
  left. do 2 eexists. split; [done|]. by eapply sc_evolves_trans.
Qed.

Lemma sc_poll_mailboxes n core s : sched_ok n s -> 0 <= core < n ->
  keeps n s (poll_mailboxes fuel core s).
Proof.
  intros Hs Hcore. unfold poll_mailboxes.
  destruct (sc_get_worker n s core Hs Hcore) as (w & Hw & -> & Hok). simpl.
  pose proof (so_order _ _ Hs _ _ Hw) as Hpo. unfold polls_others in Hpo. rewrite Z2Nat.id in Hpo by lia.
  destruct (sc_poll_all n core (Worker.polling_order w) (Worker.local_head w) false s Hs Hcore Hpo)
    as [(b & s1 & -> & H1)| ->]; [|by right]. simpl.
  destruct (sc_poll_one n core (external_pop core) (fun s => ext_len s core) fuel
              (Worker.local_head w) b s1) as [(b2 & s2 & -> & H2)| ->];
    [by apply sc_external_source|by apply H1|done| | |by right].
  { eapply sc_ext_len; [|done]. apply H1. }
  simpl. pose proof (ev_ok _ _ _ _ _ H2) as Hs2.
  destruct (sc_get_worker n s2 core Hs2 Hcore) as (w2 & Hw2 & -> & Hok2). simpl.
  left. do 2 eexists. split; [done|]. eapply sc_evolves_trans; [eapply sc_evolves_trans; done|].
  apply (sc_put_worker n s2 core w2); try done.
  - by apply Worker.wk_tick_ok, Worker.wk_update_load_ok.
  - unfold Worker.tick. by repeat case_test.
  - by rewrite Worker.wk_tick_tasks, Worker.wk_update_load_tasks.
Qed.
End polling.

Lemma sc_take_local n core s : sched_ok n s -> 0 <= core < n ->
  exists r s', take_local core s = Done (r, s') /\ evolves n (option_list r) [] s s'.
Proof.
  intros Hs Hcore. unfold take_local.
  destruct (sc_get_worker n s core Hs Hcore) as (w & Hw & -> & Hok). simpl.
  destruct (Worker.local_tasks w) as [|x l] eqn:E.
  - rewrite Worker.wk_pop_local_none by done. do 2 eexists. split; [done|].
    by apply (sc_put_worker n s core w).
  - destruct (Worker.wk_pop_local w x l Hok E) as (w' & Ep & Hok' & E'). rewrite Ep.
    do 2 eexists. split; [done|]. apply (sc_put_worker n s core w); try done.
    + unfold Worker.pop_local in Ep. case_match; by simplify_eq.
    + by rewrite E, E'.
Qed.

Lemma sc_new_ok mb_new wh_new n tp : 0 < n <= 2 ^ 16 ->
  box_ok mb_new -> box_ok wh_new -> sched_ok n (new mb_new wh_new n tp).
Proof.
  intros Hn Hmb Hwh. split; simpl; try done.
  - lia.
  - rewrite length_fmap, length_seqZ. split; [done|].
    apply Forall_fmap, Forall_forall. intros i _. apply Worker.wk_new_ok.
  - intros i w Hw. rewrite list_lookup_fmap in Hw.
    destruct (seqZ 0 n !! i) as [j|] eqn:Ej; simpl in Hw; [|done]. injection Hw as <-.
    apply lookup_seqZ in Ej as [-> Hlt]. unfold polls_others. simpl.
    rewrite Worker.wk_polling_order_perm; simpl; rewrite wrap_small by lia; [|lia].
    apply Forall_forall. intros x Hx. apply list_elem_of_filter in Hx as [? Hx].
    apply elem_of_seqZ in Hx. lia.
  - rewrite length_replicate. split; [done|]. apply Forall_replicate.
    rewrite length_replicate. split; [done|]. by apply Forall_replicate.
  - rewrite length_replicate. split; [done|]. by apply Forall_replicate.
  - unfold U8_MAX. pose proof (Z.div_pos n 2). split; [lia|]. intros ->. done.
Qed.
End scheduler.
End Dta.
