(* ===== verification/SchedulerRun.v ===== *)
(** * SchedulerRun

    The scheduler over its real queues, and what any sequence of its
    operations does to the tasks: [DtaScheduler] of
    [src/src/dta_scheduler.rs] with [Mailbox] and [Warehouse] in place of
    the interfaces of [Scheduler]. *)

From S2P Require Import Prelude Ring Types Fifo Mailbox Vyukov Warehouse Worker Scheduler.

Definition DtaScheduler : Type := Sched Mailbox.t Warehouse.t.

Definition DtaScheduler_new (n : Z) (tp : TopologyMode) : DtaScheduler :=
  Dta.new Mailbox.new Warehouse.new n tp.

(** One pop per cell of a mailbox, and the pop that finds it empty. *)
Definition poll_fuel : nat := Z.to_nat MAILBOX_CAPACITY.

(** The operations of the worker threads and of host threads. *)
Inductive op :=
| EnqueuePinned (current target_core : Z) (task : TaskIndex)
| EnqueueDeflect (current source_core flow_id : Z) (task : TaskIndex) (aff : Affinity)
| DrainWarehouse (core : Z)
| PollMailboxes (core : Z)
| DispatchNext (core : Z).

(** The tasks an operation accepted, the tasks it handed to a fiber, and the
    state after it. *)
Definition apply_op (o : op) (s : DtaScheduler)
  : outcome (list TaskIndex * list TaskIndex * DtaScheduler) :=
  match o with
  | EnqueuePinned cur tgt task =>
      '(b, s') ← Dta.enqueue_pinned cur tgt task s;
      Done (if b : bool then [task] else [], [], s')
  | EnqueueDeflect cur src flow task aff =>
      '(b, s') ← Dta.enqueue_deflect cur src flow task aff s;
      Done (if b : bool then [task] else [], [], s')
  | DrainWarehouse core => '(_, s') ← Dta.drain_warehouse core s; Done ([], [], s')
  | PollMailboxes core => '(_, s') ← Dta.poll_mailboxes poll_fuel core s; Done ([], [], s')
  | DispatchNext core => '(r, s') ← Dta.take_local core s; Done ([], option_list r, s')
  end.

Fixpoint run (os : list op) (s : DtaScheduler)
  : outcome (list TaskIndex * list TaskIndex * DtaScheduler) :=
  match os with
  | [] => Done ([], [], s)
  | o :: os' =>
      '(a, d, s1) ← apply_op o s;
      '(a', d', s2) ← run os' s1;
      Done (a ++ a', d ++ d', s2)
  end.

(** A worker id is that of a worker or above all of them (a host thread); a
    lone worker does not deflect. *)
Definition valid_op (n : Z) (o : op) : Prop :=
  match o with
  | EnqueuePinned cur _ _ => 0 <= cur
  | EnqueueDeflect cur _ _ _ _ => 0 <= cur /\ (1 < n \/ n <= cur)
  | DrainWarehouse core | PollMailboxes core | DispatchNext core => 0 <= core < n
  end.

#[export] Instance valid_op_dec n o : Decision (valid_op n o).
Proof. destruct o; simpl; apply _. Defined.

Lemma sr_new_ok n tp : 0 < n <= 2 ^ 16 -> Dta.sched_ok n (DtaScheduler_new n tp).
Proof.
  intros Hn. apply Dta.sc_new_ok; [done|split|split].
  - exact Mailbox.mb_new_ok.
  - exact (Forall_nil_2 _).
  - exact Warehouse.wh_new_ok.
  - exact (Forall_nil_2 _).
Qed.

Lemma sr_poll_fuel (mb : Mailbox.t) : q_ok mb -> (q_cap mb < poll_fuel)%nat.
Proof. intros _. change (q_cap mb) with Mailbox.max_len. apply Z2Nat.inj_lt; done. Qed.

Lemma sr_apply_op n o s : Dta.sched_ok n s -> valid_op n o ->
  apply_op o s = Panic \/
  exists a d s', apply_op o s = Done (a, d, s') /\ Dta.evolves n d a s s'.
Proof.
  intros Hs Hv. destruct o as [cur tgt task|cur src flow task aff|core|core|core]; simpl in *.
  - right. destruct (Dta.sc_enqueue_pinned n cur tgt task s Hs Hv) as (b & s' & -> & Hev). simpl.
    by do 3 eexists.
  - destruct Hv as [Hc Hm].
    destruct (Dta.sc_enqueue_deflect n cur src flow task aff s Hs Hc Hm) as [(s' & -> & Hev)| ->];
      [right|by left]. simpl. by do 3 eexists.
  - right. unfold Dta.drain_warehouse.
    destruct (Dta.sc_drain_loop n 64 core 0 s Hs Hv) as (d & s' & -> & _ & Hev). simpl.
    by do 3 eexists.
  - destruct (Dta.sc_poll_mailboxes poll_fuel sr_poll_fuel n core s Hs Hv)
      as [(b & s' & -> & Hev)| ->]; [right|by left]. simpl. by do 3 eexists.
  - right. destruct (Dta.sc_take_local n core s Hs Hv) as (r & s' & -> & Hev). simpl.
    by do 3 eexists.
Qed.

(** Composition of two movements that both add and remove tasks. *)
Lemma sr_evolves_seq n d1 a1 d2 a2 (s1 s2 s3 : DtaScheduler) :
  Dta.evolves n d1 a1 s1 s2 -> Dta.evolves n d2 a2 s2 s3 ->
  Dta.evolves n (d1 ++ d2) (a1 ++ a2) s1 s3.
Proof.
  intros [_ H2 H3] [K1 K2 K3]. split; [done| |intros i; by rewrite K3].
  rewrite <- !app_assoc, K2, (Permutation_app_swap_app d1), H2.
  by rewrite (Permutation_app_swap_app a2).
Qed.

Lemma sr_run n os s : Dta.sched_ok n s -> Forall (valid_op n) os ->
  run os s = Panic \/ exists a d s', run os s = Done (a, d, s') /\ Dta.evolves n d a s s'.
Proof.
  revert s. induction os as [|o os IH]; intros s Hs Hv; simpl.
  - right. do 3 eexists. split; [done|]. by apply Dta.sc_evolves_refl.
  - apply Forall_cons in Hv as [Ho Hv].
    destruct (sr_apply_op n o s Hs Ho) as [->|(a & d & s1 & -> & H1)]; [by left|]. simpl.
    destruct (IH s1) as [->|(a' & d' & s2 & -> & H2)]; [by apply H1|done|by left|right]. simpl.
    do 3 eexists. split; [done|]. by eapply sr_evolves_seq.
Qed.

Lemma sr_new_tasks n tp : Dta.all_tasks (DtaScheduler_new n tp) = [].
Proof.
  unfold Dta.all_tasks, DtaScheduler_new. simpl.
  assert (forall {A B} (f : A -> list B) l, Forall (fun x => f x = []) l -> (l ≫= f) = []) as Hb.
  { intros A B f l Hl. induction Hl as [|x l E _ IH]; [done|].
    change (f x ++ (l ≫= f) = []). by rewrite E, IH. }
  rewrite !Hb; try done.
  - apply Forall_replicate. done.
  - apply Forall_replicate. apply Hb, Forall_replicate. done.
  - apply Forall_fmap, Forall_forall. intros i _. done.
Qed.

Lemma sr_new_self n tp i mb :
  Dta.self_box (DtaScheduler_new n tp) i = Some mb -> Mailbox.contents mb = [].
Proof.
  unfold Dta.self_box. simpl. destruct (replicate _ _ !! i) as [row|] eqn:Er; simpl; [|done].
  apply lookup_replicate in Er as [-> _]. intros [-> _]%lookup_replicate. done.
Qed.


Definition demo_ops : list op :=
  [EnqueuePinned HOST 0 5; EnqueueDeflect 0 0 9 6 Any; EnqueuePinned 0 1 7;
   PollMailboxes 0; PollMailboxes 1; DispatchNext 1].




(** [enqueue_pinned] returns [true] exactly when the task was added;
    when it returns [false] the scheduler holds what it held before. *)
Theorem enqueue_pinned_reports (n current target_core : Z) (task : TaskIndex) (s : DtaScheduler) :
  Dta.sched_ok n s -> 0 <= current ->
  exists b s', Dta.enqueue_pinned current target_core task s = Done (b, s') /\ Dta.sched_ok n s' /\
    Dta.all_tasks s' ≡ₚ (if b : bool then [task] else []) ++ Dta.all_tasks s.
Proof.
  intros Hs Hc. destruct (Dta.sc_enqueue_pinned n current target_core task s Hs Hc)
    as (b & s' & -> & [Hok Ht _]). by exists b, s'.
Qed.

Lemma enqueue_pinned_reports_witness :
  exists b s', Dta.enqueue_pinned 1 0 4 (DtaScheduler_new 2 P2PMesh) = Done (b, s') /\
    Dta.all_tasks s' ≡ₚ (if b : bool then [4] else []) ++ [].
Proof.
  destruct (enqueue_pinned_reports 2 1 0 4 (DtaScheduler_new 2 P2PMesh)) as (b & s' & E & _ & Ht).
  - by apply sr_new_ok.
  - done.
  - exists b, s'. by rewrite sr_new_tasks in Ht.
Defined.

(** ** Two limits of the routing code *)

(** A scheduler whose worker [i] has [len] queued tasks (all task 0). *)
Definition loaded (n i len : Z) : DtaScheduler :=
  Dta.put_worker i (Worker.set_queue 0 len ∅ (Worker.new (mkCpu i 0 0) n)) (DtaScheduler_new n P2PMesh).

(** With a single worker the guard against the self-column does not
    apply: when worker 0's run queue is full, a task it enqueues goes to
    [mailboxes[0][0]], the call returns [true], and polling never takes it
    out. *)
Theorem single_worker_strands_task :
  exists s1 s2 mb,
    Dta.enqueue_deflect 0 0 0 42 Any (loaded 1 0 131071) = Done (true, s1) /\
    Dta.poll_mailboxes poll_fuel 0
      (Dta.put_worker 0 (Worker.new (mkCpu 0 0 0) 1) s1) = Done (false, s2) /\
    Dta.self_box s2 0 = Some mb /\ Mailbox.contents mb = [single_chunk 42].
Proof.
  assert (match Dta.enqueue_deflect 0 0 0 42 Any (loaded 1 0 131071) with
          | Done (true, s1) =>
              match Dta.poll_mailboxes poll_fuel 0 (Dta.put_worker 0 (Worker.new (mkCpu 0 0 0) 1) s1) with
              | Done (false, s2) =>
                  match Dta.self_box s2 0 with
                  | Some mb => bool_decide (map tasks (Mailbox.contents mb) = [tasks (single_chunk 42)])
                               && bool_decide (map count (Mailbox.contents mb) = [1])
                               && bool_decide (map hop_count (Mailbox.contents mb) = [0])
                  | None => false
                  end
              | _ => false
              end
          | _ => false
          end = true) as H by (exact eq_refl).
  destruct (Dta.enqueue_deflect 0 0 0 42 Any _) as [[[] s1]| |]; try discriminate H.
  destruct (Dta.poll_mailboxes _ _ _) as [[[] s2]| |] eqn:E2; try discriminate H.
  destruct (Dta.self_box s2 0) as [mb|] eqn:Eb; [|discriminate H].
  exists s1, s2, mb. split_and!; try done. bool_prop.
  destruct (Mailbox.contents mb) as [|[t c h] [|]]; simplify_eq/=. done.
Qed.

(** A pinned task does not stay on its core: when the pinned target's
    run queue is above the high-water mark, its next poll deflects the chunk
    to the other worker's mailbox. *)
Theorem pinned_task_is_deflected :
  exists s1 s2 row mb,
    Dta.enqueue_pinned 0 1 42 (loaded 2 1 114688) = Done (true, s1) /\
    Dta.poll_mailboxes poll_fuel 1 s1 = Done (true, s2) /\
    mailboxes s2 !! 1%nat = Some row /\ row !! 0%nat = Some mb /\
    Mailbox.contents mb = [set_hop_count 1 (single_chunk 42)].
Proof.
  assert (match Dta.enqueue_pinned 0 1 42 (loaded 2 1 114688) with
          | Done (true, s1) =>
              match Dta.poll_mailboxes poll_fuel 1 s1 with
              | Done (true, s2) =>
                  match mailboxes s2 !! 1%nat with
                  | Some row =>
                      match row !! 0%nat with
                      | Some mb => bool_decide (map tasks (Mailbox.contents mb) = [tasks (single_chunk 42)])
                                   && bool_decide (map count (Mailbox.contents mb) = [1])
                                   && bool_decide (map hop_count (Mailbox.contents mb) = [1])
                      | None => false
                      end
                  | None => false
                  end
              | _ => false
              end
          | _ => false
          end = true) as H by (exact eq_refl).
  destruct (Dta.enqueue_pinned 0 1 42 _) as [[[] s1]| |]; try discriminate H.
  destruct (Dta.poll_mailboxes _ _ _) as [[[] s2]| |] eqn:E2; try discriminate H.
  destruct (mailboxes s2 !! 1%nat) as [row|] eqn:Er; [|discriminate H].
  destruct (row !! 0%nat) as [mb|] eqn:Eb; [|discriminate H].
  exists s1, s2, row, mb. split_and!; try done. bool_prop.
  destruct (Mailbox.contents mb) as [|[t c h] [|]]; simplify_eq/=. done.
Qed.
