(* ===== verification/RunWorker.v ===== *)
(** * RunWorker

    The loop of a worker thread, [run_worker_static] of
    src/src/dta_scheduler.rs, with [Worker::dispatch_loop]: one iteration
    drains the warehouse under back-pressure, runs the fibers of the run queue, polls the
    mailboxes and backs off when there was nothing to do.

    The fibers are the program's: a parameter says which tasks a fiber that is switched to enqueues
    before it switches back, and in which state.  What the switch itself does is in ContextSwitch.v, what
    happens to the state word in FiberLife.v. *)

From S2P Require Import Prelude Ring Types Fifo Mailbox Vyukov Warehouse Worker Scheduler SchedulerRun.

Module RunWorker.

(** The state in which a fiber's context is found after the switch back, [final_state]. *)
Inductive final_state :=
| Over                     (* Finished or Panicked *)
| Waits                    (* Yielded: a wake enqueues it again *)
| Again.                   (* Notified *)

Record slice := Slice { enqueues : list op; ends : final_state }.

(** What happened: tasks accepted by the queues, fibers run, contexts freed. *)
Record report := Report { accepted : list TaskIndex; dispatched : list TaskIndex; freed : list TaskIndex }.
Definition nothing : report := Report [] [] [].
Definition also (r1 r2 : report) : report :=
  Report (accepted r1 ++ accepted r2) (dispatched r1 ++ dispatched r2) (freed r1 ++ freed r2).

Section worker.
Context {W : Type} (fiber : TaskIndex -> W -> slice * W).

(** [self.push_local(task)]: whether there was room. *)
Definition push_local (core : Z) (task : TaskIndex) (s : DtaScheduler) : outcome (bool * DtaScheduler) :=
  w ← Dta.get_worker core s;
  let '(b, w') := Worker.push_local task w in
  Done (b, Dta.put_worker core w' s).

(** The loop of [dispatch_loop].  The assertion that a re-enqueued fiber has room is a [debug_assert]. *)
Fixpoint dispatch_turns (fuel : nat) (core : Z) (w : W) (s : DtaScheduler)
  : outcome (report * W * DtaScheduler) :=
  match fuel with
  | O => OutOfFuel
  | S fuel' =>
      '(r, s1) ← Dta.take_local core s;
      match r with
      | None => Done (nothing, w, s1)
      | Some task =>
          let '(sl, w1) := fiber task w in
          '(acc, disp, s2) ← run (enqueues sl) s1;
          match ends sl with
          | Again =>
              '(pushed, s3) ← push_local core task s2;
              Done (Report (acc ++ if pushed : bool then [task] else []) (task :: disp) [], w1, s3)
          | e =>
              '(rep, w2, s3) ← dispatch_turns fuel' core w1 s2;
              Done (also (Report acc (task :: disp) (match e with Over => [task] | _ => [] end)) rep, w2, s3)
          end
      end
  end.

(** Its result is whether the queue held a task. *)
Definition dispatch_loop (fuel : nat) (core : Z) (w : W) (s : DtaScheduler)
  : outcome (bool * report * W * DtaScheduler) :=
  wk ← Dta.get_worker core s;
  if Worker.local_head wk =? Worker.local_tail wk then Done (false, nothing, w, s)
  else '(rep, w', s') ← dispatch_turns fuel core w s; Done (true, rep, w', s').

Inductive tier := Spin | Pause | Standby.

(** The back-off after an idle iteration. *)
Definition backoff (idle_count : Z) : tier :=
  if idle_count <? 256 then Spin else if idle_count <? 2048 then Pause else Standby.

(** Back-pressure: with chunks in the warehouse they are drained first, and the mailboxes left alone. *)
Definition relieve (busy : bool) (core : Z) (s : DtaScheduler) : outcome (bool * DtaScheduler) :=
  if busy then Dta.drain_warehouse core s else Done (false, s).
Definition poll_unless (busy : bool) (core : Z) (s : DtaScheduler) : outcome (bool * DtaScheduler) :=
  if busy then Done (false, s) else Dta.poll_mailboxes poll_fuel core s.

(** One turn of the loop; [idle_count] is a u32. *)
Definition iteration (fuel : nat) (core idle_count : Z) (w : W) (s : DtaScheduler)
  : outcome (Z * report * W * DtaScheduler) :=
  let warehouse_busy := q_busy (warehouse s) in
  '(a0, s1) ← relieve warehouse_busy core s;
  '(a1, rep, w1, s2) ← dispatch_loop fuel core w s1;
  '(a2, s3) ← poll_unless warehouse_busy core s2;
  if (a0 || a1 || a2 : bool) then Done (0, rep, w1, s3)
  else
    let idle_count := sat_add 32 idle_count 1 in
    match backoff idle_count with
    | Spin | Pause => Done (idle_count, rep, w1, s3)
    | Standby => '(_, s4) ← Dta.poll_mailboxes poll_fuel core s3; Done (idle_count, rep, w1, s4)
    end.

(** [k] turns without the shutdown flag. *)
Fixpoint turns (k fuel : nat) (core idle_count : Z) (w : W) (s : DtaScheduler)
  : outcome (Z * report * W * DtaScheduler) :=
  match k with
  | O => Done (idle_count, nothing, w, s)
  | S k' =>
      '(i1, r1, w1, s1) ← iteration fuel core idle_count w s;
      '(i2, r2, w2, s2) ← turns k' fuel core i1 w1 s1;
      Done (i2, also r1 r2, w2, s2)
  end.

(** ** Tasks are conserved *)

(** A fiber enqueues from the worker it runs on and does not poll. *)
Definition enqueues_from (core : Z) (o : op) : Prop :=
  match o with
  | EnqueuePinned cur _ _ | EnqueueDeflect cur _ _ _ _ => cur = core
  | _ => False
  end.

Definition well_behaved (n core : Z) : Prop :=
  forall task w, Forall (fun o => enqueues_from core o /\ valid_op n o) (enqueues (fiber task w).1).

(** Nothing is lost between [s] and [s']; a panic is the warehouse's overflow. *)
Definition accounts (n : Z) {X} (rep : X -> report) (st : X -> DtaScheduler) (s : DtaScheduler) (o : outcome X) : Prop :=
  o = Panic \/ o = OutOfFuel \/
  exists x, o = Done x /\ Dta.evolves n (dispatched (rep x)) (accepted (rep x)) s (st x).

Lemma rw_run_enqueues n core os s a d s' :
  Forall (fun o => enqueues_from core o /\ valid_op n o) os -> run os s = Done (a, d, s') -> d = [].
Proof.
  revert s a d s'. induction os as [|o os IH]; intros s a d s' Hf E; simpl in E; [by simplify_eq|].
  apply Forall_cons in Hf as [[Ho _] Hf].
  destruct (apply_op o s) as [[[a1 d1] s1]| |] eqn:E1; simpl in E; try done.
  destruct (run os s1) as [[[a2 d2] s2]| |] eqn:E2; simpl in E; try done.
  simplify_eq. rewrite (IH _ _ _ _ Hf E2), app_nil_r.
  destruct o; try done; simpl in E1.
  - destruct (Dta.enqueue_pinned _ _ _ _) as [[]| |]; simpl in E1; by simplify_eq.
  - destruct (Dta.enqueue_deflect _ _ _ _ _ _) as [[]| |]; simpl in E1; by simplify_eq.
Qed.

Lemma rw_push_local n core task s : Dta.sched_ok n s -> 0 <= core < n ->
  exists b s', push_local core task s = Done (b, s') /\ Dta.evolves n [] (if b : bool then [task] else []) s s'.
Proof.
  intros Hs Hc. unfold push_local. destruct (Dta.sc_get_worker n s core Hs Hc) as (w & Hw & -> & Hok). simpl.
  destruct (Worker.wk_push_local_cases w task Hok) as [(w' & E & Hok' & Ht)|[E _]]; rewrite E.
  - do 2 eexists. split; [done|]. apply (Dta.sc_put_worker n s core w); try done.
    + unfold Worker.push_local in E. case_match; by simplify_eq.
    + rewrite Ht. simpl. apply Permutation_app_comm.
  - do 2 eexists. split; [done|]. apply (Dta.sc_put_worker n s core w); done.
Qed.

Lemma rw_dispatch_turns n core fuel w s : Dta.sched_ok n s -> 0 <= core < n -> well_behaved n core ->
  accounts n (fun x => x.1.1) (fun x => x.2) s (dispatch_turns fuel core w s).
Proof.
  intros Hs Hc Hwb. revert w s Hs. induction fuel as [|fuel IH]; intros w s Hs; [right; by left|]. cbn [dispatch_turns].
  destruct (Dta.sc_take_local n core s Hs Hc) as (r & s1 & -> & H1). simpl.
  destruct r as [task|]; [|by right; right; eexists]. specialize (Hwb task w).
  destruct (fiber task w) as [sl w1]. simpl in Hwb.
  assert (Forall (valid_op n) (enqueues sl)) as Hv by (eapply Forall_impl; [exact Hwb|by intros ? []]).
  destruct (sr_run n (enqueues sl) s1 (Dta.ev_ok _ _ _ _ _ H1) Hv) as [->|(a & d & s2 & E & H2)]; [by left|].
  rewrite E. simpl. rewrite (rw_run_enqueues n core _ _ _ _ _ Hwb E) in *.
  pose proof (sr_evolves_seq _ _ _ _ _ _ _ _ H1 H2) as H3. simpl in H3.
  assert (forall e, accounts n (fun x : report * W * DtaScheduler => x.1.1) (fun x => x.2) s
            ('(rep, w2, s3) ← dispatch_turns fuel core w1 s2;
             Done (also (Report a [task] e) rep, w2, s3))) as Hgo.
  { intros e. destruct (IH w1 s2 (Dta.ev_ok _ _ _ _ _ H2)) as [->|[->|([[rep w2] s3] & -> & H4)]]; simpl;
      [by left|by right; left|]. right. right. eexists. split; [done|]. simpl.
    apply (sr_evolves_seq _ _ _ _ _ _ _ _ H3 H4). }
  destruct (ends sl); [apply Hgo|apply Hgo|].
  destruct (rw_push_local n core task s2 (Dta.ev_ok _ _ _ _ _ H2) Hc) as (b & s3 & -> & H4). simpl.
  right. right. eexists. split; [done|]. simpl. apply (sr_evolves_seq _ _ _ _ _ _ _ _ H3 H4).
Qed.

Lemma rw_dispatch_loop n core fuel w s : Dta.sched_ok n s -> 0 <= core < n -> well_behaved n core ->
  accounts n (fun x => x.1.1.2) (fun x => x.2) s (dispatch_loop fuel core w s).
Proof.
  intros Hs Hc Hwb. unfold dispatch_loop. destruct (Dta.sc_get_worker n s core Hs Hc) as (wk & _ & -> & _). simpl.
  case_test; [right; right; eexists; split; [done|by apply Dta.sc_evolves_refl]|].
  destruct (rw_dispatch_turns n core fuel w s Hs Hc Hwb) as [->|[->|([[rep w2] s3] & -> & H4)]];
    [by left|by right; left|]. right. right. eexists. by split.
Qed.

Lemma rw_relieve n busy core s : Dta.sched_ok n s -> 0 <= core < n ->
  exists a s1, relieve busy core s = Done (a, s1) /\ Dta.evolves n [] [] s s1.
Proof.
  intros Hs Hc. destruct busy; simpl; [|do 2 eexists; split; [done|by apply Dta.sc_evolves_refl]].
  unfold Dta.drain_warehouse. destruct (Dta.sc_drain_loop n 64 core 0 s Hs Hc) as (d & s' & -> & _ & H).
  simpl. by do 2 eexists.
Qed.

Lemma rw_poll_unless n busy core s : Dta.sched_ok n s -> 0 <= core < n -> Dta.keeps n s (poll_unless busy core s).
Proof.
  intros Hs Hc. destruct busy; simpl; [left; do 2 eexists; split; [done|by apply Dta.sc_evolves_refl]|].
  by apply (Dta.sc_poll_mailboxes poll_fuel sr_poll_fuel).
Qed.

Lemma rw_iteration n core fuel idle w s : Dta.sched_ok n s -> 0 <= core < n -> well_behaved n core ->
  accounts n (fun x => x.1.1.2) (fun x => x.2) s (iteration fuel core idle w s).
Proof.
  intros Hs Hc Hwb. unfold iteration. cbv zeta. set (busy := q_busy _).
  destruct (rw_relieve n busy core s Hs Hc) as (a0 & s1 & -> & H1).
  simpl. pose proof (Dta.ev_ok _ _ _ _ _ H1) as Hs1.
  destruct (rw_dispatch_loop n core fuel w s1 Hs1 Hc Hwb) as [->|[->|([[[a1 rep] w1] s2] & -> & H2)]];
    [by left|by right; left|]. simpl in *.
  pose proof (Dta.ev_ok _ _ _ _ _ H2) as Hs2.
  pose proof (rw_poll_unless n busy core s2 Hs2 Hc) as Hp.
  pose proof (sr_evolves_seq _ _ _ _ _ _ _ _ H1 H2) as H12. simpl in H12.
  destruct Hp as [(a2 & s3 & -> & H3)| ->]; [|by left]. simpl.
  pose proof (sr_evolves_seq _ _ _ _ _ _ _ _ H12 H3) as H13. rewrite !app_nil_r in H13.
  destruct (a0 || a1 || a2); [right; right; eexists; by split|].
  destruct (backoff _); [right; right; eexists; by split..|].
  destruct (Dta.sc_poll_mailboxes poll_fuel sr_poll_fuel n core s3 (Dta.ev_ok _ _ _ _ _ H3) Hc)
    as [(a4 & s4 & -> & H4)| ->]; [|by left]. simpl. right. right. eexists. split; [done|]. simpl.
  pose proof (sr_evolves_seq _ _ _ _ _ _ _ _ H13 H4) as H14. by rewrite !app_nil_r in H14.
Qed.

(** A worker's loop loses nothing: whatever the fibers enqueue from it, after any number of turns the tasks it has run
    together with those the scheduler holds are those it held before with those that were accepted,
    and the scheduler is well-formed.  The failures are the warehouse's overflow and a
    [dispatch_loop] that does not come to its end. *)
Theorem worker_turns_conserve (n core : Z) (k fuel : nat) (idle_count : Z) (w : W) (s : DtaScheduler) :
  Dta.sched_ok n s -> 0 <= core < n -> well_behaved n core ->
  turns k fuel core idle_count w s = Panic \/ turns k fuel core idle_count w s = OutOfFuel \/
  exists i rep w' s', turns k fuel core idle_count w s = Done (i, rep, w', s') /\ Dta.sched_ok n s' /\
    dispatched rep ++ Dta.all_tasks s' ≡ₚ accepted rep ++ Dta.all_tasks s.
Proof.
  intros Hs Hc Hwb. revert idle_count w s Hs. induction k as [|k IH]; intros i w s Hs; simpl.
  { right. right. by do 4 eexists. }
  destruct (rw_iteration n core fuel i w s Hs Hc Hwb) as [->|[->|([[[i1 r1] w1] s1] & -> & H1)]];
    [by left|by right; left|]. simpl in *.
  destruct (IH i1 w1 s1 (Dta.ev_ok _ _ _ _ _ H1)) as [->|[->|(i2 & r2 & w2 & s2 & -> & Hok & Ht)]];
    [by left|by right; left|]. simpl. right. right. do 4 eexists. split; [done|]. split; [done|]. simpl.
  rewrite <- !app_assoc, Ht, (Permutation_app_swap_app (dispatched r1)), (Dta.ev_tasks _ _ _ _ _ H1).
  by rewrite (Permutation_app_swap_app (accepted r2)).
Qed.

(** ** Tasks are run *)

(** Fibers that enqueue nothing and are not notified while they run. *)
Definition quiet : Prop := forall task w, enqueues (fiber task w).1 = [] /\ ends (fiber task w).1 <> Again.

Definition box (i core : Z) (s : DtaScheduler) : list TaskChunk :=
  match mailboxes s !! Z.to_nat i with
  | Some row => match row !! Z.to_nat core with Some mb => q_list mb | None => [] end
  | None => []
  end.
Definition ext_box (core : Z) (s : DtaScheduler) : list TaskChunk :=
  match external_mailboxes s !! Z.to_nat core with Some mb => q_list mb | None => [] end.

Definition unpack (cs : list TaskChunk) : list TaskIndex := cs ≫= chunk_tasks.

(** The run queue of [core], with what its polling depends on. *)
Definition queue_is (core : Z) (l : list TaskIndex) (h : Z) (order : list Z) (s : DtaScheduler) : Prop :=
  exists w, workers s !! Z.to_nat core = Some w /\ Worker.local_tasks w = l /\ Worker.local_head w = h /\
    Worker.polling_order w = order.

(** A step that leaves mailboxes and warehouse alone. *)
Definition boxes_kept (s s' : DtaScheduler) : Prop :=
  mailboxes s' = mailboxes s /\ external_mailboxes s' = external_mailboxes s /\ warehouse s' = warehouse s.

Lemma rw_take_local n core l h order s : Dta.sched_ok n s -> 0 <= core < n -> queue_is core l h order s ->
  match l with
  | [] => exists s', Dta.take_local core s = Done (None, s') /\ Dta.sched_ok n s' /\ queue_is core [] h order s' /\ boxes_kept s s'
  | x :: l' => exists s' h', Dta.take_local core s = Done (Some x, s') /\ Dta.sched_ok n s' /\
                 queue_is core l' h' order s' /\ boxes_kept s s'
  end.
Proof.
  intros Hs Hc (w & Hw & El & Eh & Eo). pose proof (Dta.sc_take_local n core s Hs Hc) as (r & s1 & E & Hev).
  pose proof (Dta.ev_ok _ _ _ _ _ Hev) as Hok1. pose proof (lookup_lt_Some _ _ _ Hw) as Hlt.
  destruct (Dta.sc_get_worker n s core Hs Hc) as (w0 & Hw0 & Eg & Hok).
  rewrite Hw in Hw0. injection Hw0 as <-. unfold Dta.take_local in E. rewrite Eg in E. simpl in E.
  destruct l as [|x l'].
  - rewrite Worker.wk_pop_local_none in E by done. injection E as <- <-. exists (Dta.put_worker core w s).
    unfold Dta.take_local. rewrite Eg. simpl. rewrite Worker.wk_pop_local_none by done.
    split_and!; try done. exists w. split_and!; try done. simpl. by rewrite list_lookup_insert_eq.
  - destruct (Worker.wk_pop_local w x l' Hok El) as (w' & Ep & Hok' & El'). rewrite Ep in E. injection E as <- <-.
    exists (Dta.put_worker core w' s), (Worker.local_head w').
    unfold Dta.take_local. rewrite Eg. simpl. rewrite Ep. split_and!; try done. exists w'. split_and!; try done.
    + simpl. by rewrite list_lookup_insert_eq.
    + unfold Worker.pop_local in Ep. case_match; by simplify_eq.
Qed.

(** With quiet fibers, dispatching empties the run queue in order. *)
Lemma rw_dispatch_quiet n core order : quiet -> 0 <= core < n -> forall l fuel h w s, (length l < fuel)%nat ->
  Dta.sched_ok n s -> queue_is core l h order s ->
  exists rep w' s' h', dispatch_turns fuel core w s = Done (rep, w', s') /\ dispatched rep = l /\ accepted rep = [] /\
    Dta.sched_ok n s' /\ queue_is core [] h' order s' /\ boxes_kept s s'.
Proof.
  intros Hq Hc. induction l as [|x l IH]; intros [|fuel] h w s Hf Hs Hl; simpl in Hf; try lia; cbn [dispatch_turns].
  - destruct (rw_take_local n core [] h order s Hs Hc Hl) as (s' & -> & ? & ? & ?). simpl. by do 4 eexists.
  - destruct (rw_take_local n core (x :: l) h order s Hs Hc Hl) as (s1 & h1 & -> & Hs1 & Hl1 & Hb1). simpl.
    pose proof (Hq x w) as [He Hn]. destruct (fiber x w) as [sl w1]. simpl in *. rewrite He. simpl.
    destruct (IH fuel h1 w1 s1 ltac:(lia) Hs1 Hl1) as (rep & w' & s' & h' & -> & Hd & Ha & Hs' & Hl' & Hb').
    destruct Hb1 as (B1 & B2 & B3), Hb' as (B4 & B5 & B6).
    destruct (ends sl); simpl; [|..|done]; do 4 eexists; (split; [done|]); simpl; rewrite Hd, Ha;
      (split_and!; try done; unfold boxes_kept; split_and!; congruence).
Qed.

(** A chunk that fits goes to the run queue. *)
Lemma rw_route_fits n core c l h order s : Dta.sched_ok n s -> 0 <= core < n -> queue_is core l h order s -> chunk_ok c ->
  Z.of_nat (length (l ++ chunk_tasks c)) <= Worker.LOCAL_QUEUE_HIGH_WATERMARK ->
  exists s', Dta.route_chunk core c s = Done s' /\ Dta.sched_ok n s' /\
    queue_is core (l ++ chunk_tasks c) h order s' /\ boxes_kept s s'.
Proof.
  intros Hs Hc (w & Hw & El & Eh & Eo) Hck Hfit.
  destruct (Dta.sc_get_worker n s core Hs Hc) as (w0 & Hw0 & Eg & Hok). rewrite Hw in Hw0. injection Hw0 as <-.
  pose proof (Worker.wk_length_local_tasks w) as Hlen. rewrite El in Hlen. pose proof (Worker.wk_len_range w) as Hr.
  rewrite length_app, (chunk_tasks_length c Hck) in Hfit. pose proof Hck as (_ & Hcnt & _).
  assert (Worker.local_queue_len w + count c <= Worker.LOCAL_QUEUE_HIGH_WATERMARK) as Hle by lia.
  assert (Dta.route_chunk core c s = Done (Dta.put_worker core (Worker.push_batch c w) s)) as E.
  { unfold Dta.route_chunk. rewrite Eg. simpl. apply Z.leb_le in Hle. rewrite Hle. unfold Dta.route_local. rewrite Eg.
    by destruct (hop_count c <? max_hops s). }
  assert (Worker.local_queue_len w + count c < Worker.LOCAL_QUEUE_CAPACITY) as Hlt.
  { unfold Worker.LOCAL_QUEUE_HIGH_WATERMARK, Worker.LOCAL_QUEUE_CAPACITY in *. change (131072 / 8) with 16384 in Hle. lia. }
  destruct (Worker.wk_push_batch w c Hok Hck Hlt) as [_ Et].
  exists (Dta.put_worker core (Worker.push_batch c w) s). split; [done|]. split; [|split; [|done]].
  - apply (Dta.ev_ok _ _ _ _ _ (Dta.sc_push_batch n s core w c Hs Hw Hck Hlt)).
  - exists (Worker.push_batch c w). simpl. rewrite list_lookup_insert_eq by (by eapply lookup_lt_Some).
    by rewrite Et, El.
Qed.

(** A mailbox read by [pop] whose content is [content]; [R] says what reading it leaves alone. *)
Record reads (n core : Z) (pop : DtaScheduler -> outcome (option TaskChunk * DtaScheduler))
    (content : DtaScheduler -> list TaskChunk) (R : DtaScheduler -> DtaScheduler -> Prop) : Prop := {
  rd_some : forall s c l, Dta.sched_ok n s -> content s = c :: l -> exists s1, pop s = Done (Some c, s1) /\
    content s1 = l /\ Dta.sched_ok n s1 /\ workers s1 = workers s /\ warehouse s1 = warehouse s /\ chunk_ok c /\ R s s1;
  rd_none : forall s, Dta.sched_ok n s -> content s = [] -> pop s = Done (None, s);
  rd_kept : forall s s', boxes_kept s s' -> content s' = content s /\ R s s';
  rd_trans : forall s1 s2 s3, R s1 s2 -> R s2 s3 -> R s1 s3
}.

Lemma rw_not_full n core l h order s w : Dta.sched_ok n s -> workers s !! Z.to_nat core = Some w ->
  queue_is core l h order s -> Z.of_nat (length l) <= Worker.LOCAL_QUEUE_HIGH_WATERMARK -> Dta.queue_nearly_full h w = false.
Proof.
  intros Hs Hw (w0 & Hw0 & El & Eh & _) Hle. rewrite Hw in Hw0. injection Hw0 as <-.
  unfold Dta.queue_nearly_full. rewrite <- Eh. fold (Worker.local_queue_len w).
  pose proof (Worker.wk_length_local_tasks w) as Hlen. rewrite El in Hlen. pose proof (Worker.wk_len_range w) as Hr.
  apply Z.leb_gt. unfold Worker.LOCAL_QUEUE_HIGH_WATERMARK, Worker.LOCAL_QUEUE_CAPACITY, CHUNK_SIZE in *.
  change (131072 / 8) with 16384 in Hle. lia.
Qed.

(** Reading a mailbox whose tasks fit moves them all to the run queue, in order. *)
Lemma rw_poll_one n core pop content R order : reads n core pop content R -> 0 <= core < n ->
  forall cs fuel received l h s, (length cs < fuel)%nat -> Dta.sched_ok n s -> content s = cs -> queue_is core l h order s ->
  Z.of_nat (length (l ++ unpack cs)) <= Worker.LOCAL_QUEUE_HIGH_WATERMARK ->
  exists s', Dta.poll_one fuel pop core h received s = Done (match cs with [] => received | _ => true end, s') /\
    Dta.sched_ok n s' /\ queue_is core (l ++ unpack cs) h order s' /\ content s' = [] /\ R s s' /\ warehouse s' = warehouse s.
Proof.
  intros Hrd Hc. induction cs as [|c cs IH]; intros [|fuel] received l h s Hf Hs Hcs Hl Hfit; simpl in Hf; try lia;
    cbn [Dta.poll_one].
  - destruct (Dta.sc_get_worker n s core Hs Hc) as (w & Hw & -> & _). simpl.
    rewrite (rw_not_full n core l h order s w) by (done || by rewrite app_nil_r in Hfit).
    rewrite (rd_none _ _ _ _ _ Hrd) by done. simpl. exists s. rewrite app_nil_r. split_and!; try done.
    by apply (rd_kept _ _ _ _ _ Hrd).
  - destruct (Dta.sc_get_worker n s core Hs Hc) as (w & Hw & -> & _). simpl.
    assert (unpack (c :: cs) = chunk_tasks c ++ unpack cs) as Eu by done.
    rewrite Eu, app_assoc in Hfit. pose proof Hfit as Hfit'. rewrite !length_app in Hfit'.
    rewrite (rw_not_full n core l h order s w) by (done || lia).
    destruct (rd_some _ _ _ _ _ Hrd s c cs Hs Hcs) as (s1 & -> & Hcs1 & Hs1 & Ew & Ewh & Hck & HR). simpl.
    assert (queue_is core l h order s1) as Hl1 by (destruct Hl as (w1 & ? & ?); exists w1; by rewrite Ew).
    destruct (rw_route_fits n core c l h order s1 Hs1 Hc Hl1 Hck) as (s2 & -> & Hs2 & Hl2 & Hk2);
      [rewrite length_app; lia|]. simpl. destruct (rd_kept _ _ _ _ _ Hrd s1 s2 Hk2) as [Hcs2 HR2]. rewrite Hcs1 in Hcs2.
    destruct (IH fuel true (l ++ chunk_tasks c) h s2) as (s3 & -> & Hs3 & Hl3 & Hcs3 & HR3 & Ewh3); try done; [lia|].
    rewrite <- app_assoc in Hl3. exists s3. split_and!; try done; [by destruct cs|..].
    + eapply (rd_trans _ _ _ _ _ Hrd); [exact HR|]. by eapply (rd_trans _ _ _ _ _ Hrd).
    + destruct Hk2 as (_ & _ & ?). congruence.
Qed.

(** The two kinds of mailbox. *)
Definition other_boxes (i core : Z) (s s' : DtaScheduler) : Prop :=
  (forall j, 0 <= j -> j <> i -> box j core s' = box j core s) /\ ext_box core s' = ext_box core s.

Lemma rw_reads_mailbox n i core : 0 <= i < n -> 0 <= core < n -> i <> core ->
  reads n core (Dta.mailbox_pop i core) (box i core) (other_boxes i core).
Proof.
  intros Hi Hc Hne. split.
  - intros s c l Hs E. destruct (Dta.sc_get_mailbox n s i core Hs Hi Hc) as (row & mb & Er & Em & Hok).
    unfold box in E. rewrite Er, Em in E. unfold Dta.mailbox_pop. rewrite Er. simpl. rewrite Em. simpl.
    destruct (Dta.sc_queue_pop mb Hok) as [(c' & mb' & Ep & Hok' & Hck & El & Ht)|[_ El]]; [|congruence].
    simpl in Ep. injection Ep as Ep. rewrite Ep.
    rewrite El in E. injection E as -> <-. simpl. eexists. split; [done|].
    pose proof (Dta.sc_put_mailbox n s i core row mb mb' (chunk_tasks c) [] Hs ltac:(lia) ltac:(lia) Hne Er Em Hok' Ht) as Hev.
    split_and!; try done; [|by apply Hev|split; [|done]].
    + unfold box. simpl. rewrite list_lookup_insert_eq by (by eapply lookup_lt_Some).
      by rewrite list_lookup_insert_eq by (by eapply lookup_lt_Some).
    + intros j Hj Hji. unfold box. simpl. rewrite list_lookup_insert_ne by lia. done.
  - intros s Hs E. destruct (Dta.sc_get_mailbox n s i core Hs Hi Hc) as (row & mb & Er & Em & Hok).
    unfold box in E. rewrite Er, Em in E. unfold Dta.mailbox_pop. rewrite Er. simpl. rewrite Em. simpl.
    destruct (Dta.sc_queue_pop mb Hok) as [(c' & mb' & _ & _ & _ & El & _)|[Ep _]]; [congruence|].
    simpl in Ep. injection Ep as Ep. rewrite Ep. simpl.
    by rewrite Dta.sc_set_mailboxes_id.
  - intros s s' (E1 & E2 & _). unfold other_boxes, box, ext_box. by rewrite E1, E2.
  - intros s1 s2 s3 [H1 E1] [H2 E2]. split; [intros; rewrite H2, H1; done|congruence].
Qed.

Lemma rw_reads_external n core : 0 <= core < n ->
  reads n core (Dta.external_pop core) (ext_box core) (fun s s' => forall j, box j core s' = box j core s).
Proof.
  intros Hc. split.
  - intros s c l Hs E. destruct (Dta.sc_get_external n s core Hs Hc) as (mb & Em & Hok).
    unfold ext_box in E. rewrite Em in E. unfold Dta.external_pop. rewrite Em. simpl.
    destruct (Dta.sc_queue_pop mb Hok) as [(c' & mb' & Ep & Hok' & Hck & El & Ht)|[_ El]]; [|congruence].
    simpl in Ep. injection Ep as Ep. rewrite Ep.
    rewrite El in E. injection E as -> <-. simpl. eexists. split; [done|].
    pose proof (Dta.sc_put_external n s core mb mb' (chunk_tasks c) [] Hs Em Hok' Ht) as Hev.
    split_and!; try done; [|by apply Hev].
    unfold ext_box. simpl. by rewrite list_lookup_insert_eq by (by eapply lookup_lt_Some).
  - intros s Hs E. destruct (Dta.sc_get_external n s core Hs Hc) as (mb & Em & Hok).
    unfold ext_box in E. rewrite Em in E. unfold Dta.external_pop. rewrite Em. simpl.
    destruct (Dta.sc_queue_pop mb Hok) as [(c' & mb' & _ & _ & _ & El & _)|[Ep _]]; [congruence|].
    simpl in Ep. injection Ep as Ep. rewrite Ep. simpl.
    by rewrite Dta.sc_set_external_id.
  - intros s s' (E1 & E2 & _). unfold box, ext_box. by rewrite E1, E2.
  - intros s1 s2 s3 H1 H2 j. by rewrite H2, H1.
Qed.

(** What waits for [core] in the mailboxes it polls. *)
Definition waiting (core : Z) (order : list Z) (s : DtaScheduler) : list TaskIndex :=
  order ≫= fun i => unpack (box i core s).

Definition inboxes_empty (core : Z) (order : list Z) (s : DtaScheduler) : Prop :=
  Forall (fun i => box i core s = []) order.

Definition polls (n core : Z) (order : list Z) : Prop := NoDup order /\ Forall (fun j => 0 <= j < n /\ j <> core) order.

Lemma rw_waiting_kept core i order s s' : Forall (fun j => 0 <= j) order -> i ∉ order -> other_boxes i core s s' ->
  waiting core order s' = waiting core order s.
Proof.
  intros Hf Hni [Ho _]. induction order as [|j order IH]; [done|].
  assert (forall s, waiting core (j :: order) s = unpack (box j core s) ++ waiting core order s) as E by done.
  rewrite !E. apply Forall_cons in Hf as [Hj Hf]. apply not_elem_of_cons in Hni as [Hne Hni]. by rewrite Ho, IH.
Qed.

Lemma rw_box_fuel n i core pf s : pf = poll_fuel -> Dta.sched_ok n s -> 0 <= i < n -> 0 <= core < n -> (length (box i core s) < pf)%nat.
Proof.
  intros -> Hs Hi Hc. pose proof (Dta.sc_box_len poll_fuel sr_poll_fuel n s i core Hs Hi Hc) as H.
  unfold Dta.box_len in H. unfold box. destruct (mailboxes s !! Z.to_nat i) as [row|]; [|done]. by destruct (row !! Z.to_nat core).
Qed.

Lemma rw_ext_fuel n core pf s : pf = poll_fuel -> Dta.sched_ok n s -> 0 <= core < n -> (length (ext_box core s) < pf)%nat.
Proof.
  intros -> Hs Hc. pose proof (Dta.sc_ext_len poll_fuel sr_poll_fuel n s core Hs Hc) as H.
  unfold Dta.ext_len in H. unfold ext_box. by destruct (external_mailboxes s !! Z.to_nat core).
Qed.

(** Polling the whole order. *)
Lemma rw_poll_all n core pf full : pf = poll_fuel -> 0 <= core < n -> forall order received l h s, polls n core order ->
  Dta.sched_ok n s -> queue_is core l h full s ->
  Z.of_nat (length (l ++ waiting core order s)) <= Worker.LOCAL_QUEUE_HIGH_WATERMARK ->
  exists r s', Dta.poll_all pf order core h received s = Done (r, s') /\ Dta.sched_ok n s' /\
    queue_is core (l ++ waiting core order s) h full s' /\ inboxes_empty core order s' /\
    (forall j, 0 <= j -> j ∉ order -> box j core s' = box j core s) /\
    ext_box core s' = ext_box core s /\ warehouse s' = warehouse s.
Proof.
  intros Epf Hc. induction order as [|i order IH]; intros received l h s [Hnd Hpo] Hs Hl Hfit; cbn [Dta.poll_all].
  { exists received, s. rewrite app_nil_r. split_and!; try done. constructor. }
  apply NoDup_cons in Hnd as [Hni Hnd]. apply Forall_cons in Hpo as [[Hi Hne] Hpo].
  assert (waiting core (i :: order) s = unpack (box i core s) ++ waiting core order s) as Ew by done.
  rewrite Ew, app_assoc in Hfit. rewrite Ew, app_assoc. pose proof Hfit as Hfit1. rewrite length_app in Hfit1.
  destruct (rw_poll_one n core _ _ _ full (rw_reads_mailbox n i core Hi Hc Hne) Hc (box i core s) pf received l h s)
    as (s1 & -> & Hs1 & Hl1 & Hb1 & HR1 & Ewh1); try done; [by eapply rw_box_fuel|lia|].
  cbn [mbind outcome_bind]. assert (Forall (fun j => 0 <= j) order) as Hpos by (eapply Forall_impl; [exact Hpo|naive_solver lia]).
  pose proof (rw_waiting_kept core i order s s1 Hpos Hni HR1) as Ewt. rewrite <- Ewt in Hfit |- *.
  destruct (IH (match box i core s with [] => received | _ => true end) _ h s1 (conj Hnd Hpo) Hs1 Hl1 Hfit)
    as (r & s2 & -> & Hs2 & Hl2 & He2 & Ho2 & Ex2 & Ewh2).
  destruct HR1 as [HR1 Ex1]. exists r, s2. split_and!; try done; [..|congruence|congruence].
  - constructor; [|done]. rewrite Ho2; [done|lia|done].
  - intros j Hj [Hji Hjo]%not_elem_of_cons. rewrite Ho2, HR1; done.
Qed.

(** The maintenance after polling leaves the run queue alone. *)
Lemma rw_maintain n core l h order s w : Dta.sched_ok n s -> workers s !! Z.to_nat core = Some w ->
  queue_is core l h order s -> let s' := Dta.put_worker core (Worker.tick (Worker.update_load w)) s in
  Dta.sched_ok n s' /\ exists h', queue_is core l h' order s'.
Proof.
  intros Hs Hw (w2 & Hw2 & El & Eh & Eo). rewrite Hw in Hw2. injection Hw2 as <-. cbv zeta.
  set (w3 := Worker.tick (Worker.update_load w)).
  assert (Worker.local_tasks w3 = Worker.local_tasks w) as Et
    by (unfold w3; by rewrite Worker.wk_tick_tasks, Worker.wk_update_load_tasks).
  assert (Worker.polling_order w3 = Worker.polling_order w) as Ep by (unfold w3, Worker.tick; by repeat case_test).
  assert (Worker.ok w) as Hok by (destruct (Dta.so_workers _ _ Hs) as [_ Hf]; by eapply Forall_lookup_1 in Hf).
  split.
  - eapply (Dta.ev_ok n [] []), (Dta.sc_put_worker n s core w); try done; [by apply Worker.wk_tick_ok, Worker.wk_update_load_ok|].
    by rewrite Et.
  - exists (Worker.local_head w3), w3. simpl. rewrite list_lookup_insert_eq by (by eapply lookup_lt_Some). by rewrite Et, Ep.
Qed.

(** [poll_mailboxes], when all that waits fits. *)
Lemma rw_poll_mailboxes n core pf order l h s : pf = poll_fuel -> 0 <= core < n -> polls n core order ->
  Dta.sched_ok n s -> queue_is core l h order s ->
  Z.of_nat (length (l ++ waiting core order s ++ unpack (ext_box core s))) <= Worker.LOCAL_QUEUE_HIGH_WATERMARK ->
  exists r s' h', Dta.poll_mailboxes pf core s = Done (r, s') /\ Dta.sched_ok n s' /\
    queue_is core (l ++ waiting core order s ++ unpack (ext_box core s)) h' order s' /\
    inboxes_empty core order s' /\ ext_box core s' = [] /\ warehouse s' = warehouse s.
Proof.
  intros Epf Hc Hpo Hs Hl Hfit. unfold Dta.poll_mailboxes. pose proof Hl as (w & Hw & El & Eh & Eo).
  destruct (Dta.sc_get_worker n s core Hs Hc) as (w0 & Hw0 & -> & _). rewrite Hw in Hw0. injection Hw0 as <-.
  cbn [mbind outcome_bind]. rewrite Eo, Eh. rewrite app_assoc in Hfit |- *.
  pose proof Hfit as Hfit1. rewrite length_app in Hfit1.
  destruct (rw_poll_all n core pf order Epf Hc order false l h s Hpo Hs Hl) as (r1 & s1 & -> & Hs1 & Hl1 & He1 & _ & Ex1 & Ewh1); [lia|].
  cbn [mbind outcome_bind].
  destruct (rw_poll_one n core _ _ _ order (rw_reads_external n core Hc) Hc (ext_box core s) pf r1
              (l ++ waiting core order s) h s1) as (s2 & -> & Hs2 & Hl2 & Hb2 & HR2 & Ewh2); try done; [by eapply rw_ext_fuel|].
  cbn [mbind outcome_bind].
  destruct (Dta.sc_get_worker n s2 core Hs2 Hc) as (w2 & Hw2 & -> & _). cbn [mbind outcome_bind].
  destruct (rw_maintain n core _ h order s2 w2 Hs2 Hw2 Hl2) as (Hs3 & h3 & Hl3).
  do 3 eexists. split; [done|]. split; [exact Hs3|]. split; [exact Hl3|]. split_and!; [|done|simpl; congruence].
  unfold inboxes_empty in *. eapply Forall_impl; [exact He1|]. intros i Hi. simpl in Hi. rewrite <- Hi. apply HR2.
Qed.

Lemma rw_dispatch_loop_quiet n core fuel l h order w s : quiet -> 0 <= core < n -> (length l < fuel)%nat ->
  Dta.sched_ok n s -> queue_is core l h order s ->
  exists b rep w' s' h', dispatch_loop fuel core w s = Done (b, rep, w', s') /\ dispatched rep = l /\ accepted rep = [] /\
    Dta.sched_ok n s' /\ queue_is core [] h' order s' /\ boxes_kept s s'.
Proof.
  intros Hq Hc Hf Hs Hl. pose proof Hl as (wk & Hw & El & Eh & Eo). unfold dispatch_loop.
  destruct (Dta.sc_get_worker n s core Hs Hc) as (w0 & Hw0 & -> & Hok). rewrite Hw in Hw0. injection Hw0 as <-.
  cbn [mbind outcome_bind]. case_test.
  - assert (l = []) as ->.
    { pose proof (Worker.wk_length_local_tasks wk) as Hlen. rewrite El, Worker.wk_len_eq, E, Z.sub_diag in Hlen.
      by destruct l. }
    exists false, nothing, w, s, h. by split_and!.
  - destruct (rw_dispatch_quiet n core order Hq Hc l fuel h w s Hf Hs Hl) as (rep & w' & s' & h' & -> & H).
    cbn [mbind outcome_bind]. by exists true, rep, w', s', h'.
Qed.

Lemma rw_fetched_fits core order s s' : boxes_kept s s' -> waiting core order s' = waiting core order s /\
  ext_box core s' = ext_box core s.
Proof. intros (E1 & E2 & _). unfold waiting, ext_box, box. by rewrite E1, E2. Qed.

Lemma rw_nothing_waits core order s : inboxes_empty core order s -> waiting core order s = [].
Proof.
  induction order as [|i order IH]; [done|]. intros [Hi Ho]%Forall_cons.
  change (unpack (box i core s) ++ waiting core order s = []). by rewrite Hi, IH.
Qed.

(** One turn of an undisturbed worker with room for all that waits. *)
Lemma rw_turn n core fuel idle l h order w s : quiet -> 0 <= core < n -> polls n core order -> (length l < fuel)%nat ->
  Dta.sched_ok n s -> queue_is core l h order s -> q_busy (warehouse s) = false ->
  Z.of_nat (length (waiting core order s ++ unpack (ext_box core s))) <= Worker.LOCAL_QUEUE_HIGH_WATERMARK ->
  exists i rep w' s' h', iteration fuel core idle w s = Done (i, rep, w', s') /\ dispatched rep = l /\ accepted rep = [] /\
    Dta.sched_ok n s' /\ queue_is core (waiting core order s ++ unpack (ext_box core s)) h' order s' /\
    inboxes_empty core order s' /\ ext_box core s' = [] /\ q_busy (warehouse s') = false.
Proof.
  intros Hq Hc Hpo Hf Hs Hl Hb Hfit. unfold iteration. cbv zeta. rewrite Hb. unfold relieve, poll_unless. cbn [mbind outcome_bind].
  remember poll_fuel as pf eqn:Epf.
  destruct (rw_dispatch_loop_quiet n core fuel l h order w s Hq Hc Hf Hs Hl)
    as (b & rep & w' & s1 & h1 & -> & Hd & Ha & Hs1 & Hl1 & Hk1). cbn [mbind outcome_bind].
  destruct (rw_fetched_fits core order s s1 Hk1) as [Ew Ex]. rewrite <- Ew, <- Ex in Hfit |- *.
  destruct (rw_poll_mailboxes n core pf order [] h1 s1 Epf Hc Hpo Hs1 Hl1 Hfit)
    as (r & s2 & h2 & -> & Hs2 & Hl2 & He2 & Hx2 & Ewh). cbn [mbind outcome_bind].
  assert (q_busy (warehouse s2) = false) as Hb2 by (destruct Hk1 as (_ & _ & E); by rewrite Ewh, E).
  destruct (false || b || r); [by do 5 eexists|]. destruct (backoff _); [by do 5 eexists..|].
  destruct (rw_poll_mailboxes n core pf order _ h2 s2 Epf Hc Hpo Hs2 Hl2) as (r3 & s3 & h3 & -> & Hs3 & Hl3 & He3 & Hx3 & Ewh3).
  { rewrite (rw_nothing_waits core order s2 He2), Hx2, app_nil_r. done. }
  rewrite (rw_nothing_waits core order s2 He2), Hx2, app_nil_r in Hl3. cbn [mbind outcome_bind].
  do 5 eexists. split_and!; try done. by rewrite Ewh3.
Qed.

(** C7.  A worker that nobody disturbs gets everything that waits for it run in two turns of its loop: when the fibers enqueue nothing and
    are not notified while they run, the warehouse is empty and what waits in the mailboxes fits below the high-water mark, two turns run
    exactly the tasks of its run queue followed by those of every mailbox it polls, in polling
    order, and those of host threads, each once; afterwards all of them are empty.  [fuel] bounds the fibers of one turn. *)
Theorem worker_serves_mailboxes (n core : Z) (fuel : nat) (idle_count : Z) (w : W) (s : DtaScheduler) (wk : Worker.t) :
  Dta.sched_ok n s -> 0 <= core < n -> quiet -> workers s !! Z.to_nat core = Some wk ->
  NoDup (Worker.polling_order wk) -> q_busy (warehouse s) = false ->
  let arrived := (Worker.polling_order wk ≫= fun i => unpack (box i core s)) ++ unpack (ext_box core s) in
  Z.of_nat (length arrived) <= Worker.LOCAL_QUEUE_HIGH_WATERMARK ->
  (length (Worker.local_tasks wk) < fuel)%nat -> (length arrived < fuel)%nat ->
  exists i rep w' s' h, turns 2 fuel core idle_count w s = Done (i, rep, w', s') /\
    dispatched rep = Worker.local_tasks wk ++ arrived /\ accepted rep = [] /\
    Dta.sched_ok n s' /\ queue_is core [] h (Worker.polling_order wk) s' /\
    Forall (fun i => box i core s' = []) (Worker.polling_order wk) /\ ext_box core s' = [].
Proof.
  intros Hs Hc Hq Hw Hnd Hb arrived Hfit Hf1 Hf2.
  assert (polls n core (Worker.polling_order wk)) as Hpo.
  { split; [done|]. pose proof (Dta.so_order _ _ Hs _ _ Hw) as H. unfold Dta.polls_others in H. by rewrite Z2Nat.id in H by lia. }
  assert (queue_is core (Worker.local_tasks wk) (Worker.local_head wk) (Worker.polling_order wk) s) as Hl by (by exists wk).
  cbn [turns]. destruct (rw_turn n core fuel idle_count _ _ _ w s Hq Hc Hpo Hf1 Hs Hl Hb Hfit)
    as (i1 & r1 & w1 & s1 & h1 & -> & Hd1 & Ha1 & Hs1 & Hl1 & He1 & Hx1 & Hb1). cbn [mbind outcome_bind].
  assert (waiting core (Worker.polling_order wk) s1 ++ unpack (ext_box core s1) = []) as En
    by (rewrite rw_nothing_waits, Hx1; done).
  destruct (rw_turn n core fuel i1 _ _ _ w1 s1 Hq Hc Hpo Hf2 Hs1 Hl1 Hb1)
    as (i2 & r2 & w2 & s2 & h2 & -> & Hd2 & Ha2 & Hs2 & Hl2 & He2 & Hx2 & Hb2); [by rewrite En|].
  cbn [mbind outcome_bind]. rewrite En in Hl2. do 5 eexists. split; [done|]. simpl. rewrite app_nil_r, Hd1, Hd2, Ha1, Ha2.
  by split_and!.
Qed.

End worker.

(** *** Concrete executions *)

(** Fibers that do nothing and finish. *)
Definition finish (task : TaskIndex) (u : unit) : slice * unit := (Slice [] Over, u).

(** Tasks for worker 1 of three from itself, from worker 0 and from a host thread. *)
Definition mail : list op := [EnqueuePinned 1 1 10; EnqueuePinned 0 1 11; EnqueuePinned HOST 1 12; EnqueuePinned 0 1 13].

Definition with_mail : DtaScheduler :=
  match run mail (DtaScheduler_new 3 P2PMesh) with Done (_, _, s) => s | _ => DtaScheduler_new 3 P2PMesh end.

Lemma rw_with_mail_ok : Dta.sched_ok 3 with_mail.
Proof.
  destruct (sr_run 3 mail (DtaScheduler_new 3 P2PMesh)) as [E|(a & d & s & E & H)].
  - by apply sr_new_ok.
  - apply (bool_decide_unpack _). vm_compute. exact I.
  - assert (match run mail (DtaScheduler_new 3 P2PMesh) with Panic => false | _ => true end = true) as X by (exact eq_refl).
    exfalso. rewrite E in X. discriminate X.
  - unfold with_mail. rewrite E. apply H.
Qed.

Lemma rw_with_mail_worker : exists wk, workers with_mail !! 1%nat = Some wk /\ Worker.polling_order wk = [0; 2] /\
  Worker.local_tasks wk = [10].
Proof.
  destruct (workers with_mail !! 1%nat) as [wk|] eqn:Ew.
  - exists wk. split; [done|].
    assert (match workers with_mail !! 1%nat with
            | Some wk => bool_decide (Worker.polling_order wk = [0; 2]) && bool_decide (Worker.local_tasks wk = [10])
            | None => false end = true) as X by (exact eq_refl).
    rewrite Ew in X. by apply andb_true_iff in X as [X1%bool_decide_eq_true X2%bool_decide_eq_true].
  - exfalso. assert (match workers with_mail !! 1%nat with Some _ => true | None => false end = true) as X by (exact eq_refl).
    rewrite Ew in X. discriminate X.
Qed.

Lemma rw_with_mail_arrived : ([0; 2] ≫= (fun i => unpack (box i 1 with_mail))) ++ unpack (ext_box 1 with_mail) = [11; 13; 12].
Proof. exact eq_refl. Qed.

Lemma rw_with_mail_free : q_busy (warehouse with_mail) = false.
Proof. exact eq_refl. Qed.

Lemma worker_serves_mailboxes_witness :
  exists i rep w' s', turns finish 2 10 1 0 tt with_mail = Done (i, rep, w', s') /\ dispatched rep = [10; 11; 13; 12].
Proof.
  destruct rw_with_mail_worker as (wk & Ew & Eo & El). pose proof rw_with_mail_arrived as Ea.
  destruct (worker_serves_mailboxes finish 3 1 10 0 tt with_mail wk) as (i & rep & w' & s' & h & E & Hd & _).
  - exact rw_with_mail_ok.
  - lia.
  - done.
  - exact Ew.
  - rewrite Eo. apply (bool_decide_unpack _). exact I.
  - exact rw_with_mail_free.
  - rewrite Eo, Ea. discriminate.
  - rewrite El. simpl. lia.
  - rewrite Eo, Ea. simpl. lia.
  - exists i, rep, w', s'. split; [exact E|]. by rewrite Hd, Eo, Ea, El.
Defined.

Lemma worker_turns_conserve_witness :
  turns finish 3 10 1 0 tt with_mail = Panic \/ turns finish 3 10 1 0 tt with_mail = OutOfFuel \/
  exists i rep w' s', turns finish 3 10 1 0 tt with_mail = Done (i, rep, w', s') /\ Dta.sched_ok 3 s' /\
    dispatched rep ++ Dta.all_tasks s' ≡ₚ accepted rep ++ Dta.all_tasks with_mail.
Proof.
  apply (worker_turns_conserve finish 3 1 3 10 0 tt with_mail); [exact rw_with_mail_ok|lia|].
  intros task u. constructor.
Defined.

(** Fibers 1 and 2 of worker 0 wake each other and wait, as two tasks that hand a lock to and fro do. *)
Definition ping_pong (task : TaskIndex) (u : unit) : slice * unit :=
  (Slice [EnqueuePinned 0 0 (3 - task)] Waits, u).

Lemma rw_enqueue_own n core l h order task s : Dta.sched_ok n s -> 0 <= core < n -> queue_is core l h order s ->
  Z.of_nat (length l) < Worker.LOCAL_QUEUE_CAPACITY - 1 ->
  exists s', apply_op (EnqueuePinned core core task) s = Done ([task], [], s') /\ Dta.sched_ok n s' /\
    exists h', queue_is core (l ++ [task]) h' order s'.
Proof.
  intros Hs Hc (w & Hw & El & Eh & Eo) Hlen.
  destruct (Dta.sc_enqueue_pinned n core core task s Hs ltac:(lia)) as (b & s1 & E & Hev).
  pose proof (Dta.ev_ok _ _ _ _ _ Hev) as Hs1. cbn [apply_op]. rewrite E. cbn [mbind outcome_bind].
  unfold Dta.enqueue_pinned in E. rewrite (Dta.sc_num_workers n) in E by done. pose proof (Dta.so_n _ _ Hs).
  rewrite (proj2 (Z.eqb_neq n 0)), Z.mod_small, Z.eqb_refl in E by lia.
  destruct (Dta.sc_get_worker n s core Hs Hc) as (w0 & Hw0 & Eg & Hok). rewrite Hw in Hw0. injection Hw0 as <-.
  rewrite Eg in E. cbn [mbind outcome_bind] in E.
  pose proof (Worker.wk_length_local_tasks w) as Hl. rewrite El in Hl. pose proof (Worker.wk_len_range w).
  destruct (Worker.wk_push_local w task Hok ltac:(lia)) as (w' & Ep & Hok' & Et). rewrite Ep in E.
  injection E as <- <-. eexists. split; [done|]. split; [exact Hs1|]. exists (Worker.local_head w'), w'.
  simpl. rewrite list_lookup_insert_eq by (by eapply lookup_lt_Some). rewrite Et, El. split_and!; try done.
  unfold Worker.push_local in Ep. case_match; by simplify_eq.
Qed.

Lemma rw_ping_pong fuel task h order s : Dta.sched_ok 2 s -> queue_is 0 [task] h order s ->
  dispatch_turns ping_pong fuel 0 tt s = OutOfFuel.
Proof.
  revert task h s. induction fuel as [|fuel IH]; intros task h s Hs Hl; [done|]. cbn [dispatch_turns].
  destruct (rw_take_local 2 0 [task] h order s Hs ltac:(lia) Hl) as (s1 & h1 & -> & Hs1 & Hl1 & _).
  cbn [mbind outcome_bind ping_pong enqueues ends run].
  destruct (rw_enqueue_own 2 0 [] h1 order (3 - task) s1 Hs1 ltac:(lia) Hl1) as (s2 & -> & Hs2 & h2 & Hl2); [done|].
  cbn [mbind outcome_bind]. by rewrite (IH _ _ _ Hs2 Hl2).
Qed.

(** Two fibers that wake each other keep their worker for ever: [dispatch_loop] runs until the run queue is empty
    and returns early only for a fiber that was notified while it ran, so
    it never returns here, however long it runs; a task that a host thread has sent to the worker
    stays in the mailbox, and the shutdown flag is not looked at again. *)
Theorem ping_pong_starves_mailboxes : exists s,
  run [EnqueuePinned 0 0 1; EnqueuePinned HOST 0 7] (DtaScheduler_new 2 P2PMesh) = Done ([1; 7], [], s) /\
  ext_box 0 s = [single_chunk 7] /\
  forall k fuel idle_count, turns ping_pong (S k) fuel 0 idle_count tt s = OutOfFuel.
Proof.
  set (os := [EnqueuePinned 0 0 1; EnqueuePinned HOST 0 7]).
  destruct (sr_run 2 os (DtaScheduler_new 2 P2PMesh)) as [E|(a & d & s & E & Hev)].
  - by apply sr_new_ok.
  - apply (bool_decide_unpack _). vm_compute. exact I.
  - assert (match run os (DtaScheduler_new 2 P2PMesh) with Panic => false | _ => true end = true) as X by (exact eq_refl).
    exfalso. rewrite E in X. discriminate X.
  - assert (match run os (DtaScheduler_new 2 P2PMesh) with
            | Done (a, d, s) => bool_decide (a = [1; 7]) && bool_decide (d = []) && negb (q_busy (warehouse s)) &&
                match workers s !! 0%nat with
                | Some wk => bool_decide (Worker.local_tasks wk = [1]) && (Worker.local_head wk =? 0) &&
                             bool_decide (Worker.polling_order wk = [1])
                | None => false end
            | _ => false end = true) as X by (exact eq_refl).
    assert (match run os (DtaScheduler_new 2 P2PMesh) with Done (_, _, s) => ext_box 0 s | _ => [] end = [single_chunk 7])
      as Hx by (exact eq_refl).
    rewrite E in X, Hx. apply andb_true_iff in X as [X Xw]. apply andb_true_iff in X as [X Xb].
    apply andb_true_iff in X as [Xa%bool_decide_eq_true Xd%bool_decide_eq_true]. apply negb_true_iff in Xb. subst a d.
    assert (queue_is 0 [1] 0 [1] s) as Hl.
    { destruct (workers s !! 0%nat) as [wk|] eqn:Ew; [|discriminate Xw]. exists wk. split; [exact Ew|].
      apply andb_true_iff in Xw as [Xw Xo%bool_decide_eq_true]. apply andb_true_iff in Xw as [Xl%bool_decide_eq_true Xh].
      bool_prop. by split_and!. }
    rename Xb into Hb. exists s. split; [exact E|]. split; [exact Hx|].
    intros k fuel i. cbn [turns]. unfold iteration. cbv zeta. rewrite Hb. unfold relieve. cbn [mbind outcome_bind].
    pose proof (Dta.ev_ok _ _ _ _ _ Hev) as Hs. unfold dispatch_loop.
    pose proof Hl as (wk & Hw & El & Eh & _). destruct (Dta.sc_get_worker 2 s 0 Hs ltac:(lia)) as (w0 & Hw0 & -> & Hok).
    rewrite Hw in Hw0. injection Hw0 as <-. cbn [mbind outcome_bind]. case_test.
    + pose proof (Worker.wk_length_local_tasks wk) as Hlen. rewrite El, Worker.wk_len_eq in Hlen.
      by rewrite E0, Z.sub_diag in Hlen.
    + by rewrite (rw_ping_pong fuel 1 0 [1] s Hs Hl).
Qed.

End RunWorker.
