(* ===== verification/ContextPool.v ===== *)
(** * ContextPool

    The fiber arena of [src/src/memory_management.rs]: [FiberContext],
    the slot layout with its guard pages, and the tagged free list.

    The operating system is a parameter: the address the mapping returned
    (or none) and whether protecting a page succeeded.  The size of a
    [FiberContext], which the compiler chooses, is a parameter as well.
    Concurrent use of the free list is the subject of [FreeList]. *)

From S2P Require Import Prelude Ring Types.

Record FiberContext := mkCtx {
  fiber_index : Z;
  origin_core : Z;
  state : FiberStatus;
  switch_fn : Switcher;
  closure_ptr : Z;
  read_buffer_ptr : Z;
  kind : WorkloadKind;
  mode : TopologyMode;
  affinity : Affinity;
  adaptive_spin_count : Z;
  spin_failure_count : Z;
  waiter_thread_id : Z;
  waiter_handle : Z;
  generation : Z;
  next_free : Z
}.

Definition FiberContext_new : FiberContext :=
  {| fiber_index := 0; origin_core := 0; state := Initial; switch_fn := CrossThreadFloat;
     closure_ptr := 0; read_buffer_ptr := 0; kind := Types.Compute; mode := P2PMesh;
     affinity := SameCore; adaptive_spin_count := 50; spin_failure_count := 0;
     waiter_thread_id := 0; waiter_handle := 0; generation := 0; next_free := U32_MAX |}.

Definition set_next_free (x : Z) (c : FiberContext) : FiberContext :=
  {| fiber_index := fiber_index c; origin_core := origin_core c; state := state c;
     switch_fn := switch_fn c; closure_ptr := closure_ptr c; read_buffer_ptr := read_buffer_ptr c;
     kind := kind c; mode := mode c; affinity := affinity c;
     adaptive_spin_count := adaptive_spin_count c; spin_failure_count := spin_failure_count c;
     waiter_thread_id := waiter_thread_id c; waiter_handle := waiter_handle c;
     generation := generation c; next_free := x |}.

(** [state.store(Initial); generation.fetch_add(1)] *)
Definition retire (c : FiberContext) : FiberContext :=
  {| fiber_index := fiber_index c; origin_core := origin_core c; state := Initial;
     switch_fn := switch_fn c; closure_ptr := closure_ptr c; read_buffer_ptr := read_buffer_ptr c;
     kind := kind c; mode := mode c; affinity := affinity c;
     adaptive_spin_count := adaptive_spin_count c; spin_failure_count := spin_failure_count c;
     waiter_thread_id := waiter_thread_id c; waiter_handle := waiter_handle c;
     generation := wadd 32 (generation c) 1; next_free := next_free c |}.

Module Pool.

Record t := mk {
  base_ptr : Z;
  total_size : Z;
  slot_size : Z;
  page_size : Z;
  capacity : Z;
  safety : SafetyLevel;
  free_head : Z;
  context_end_offset : Z;
  contexts : gmap Z FiberContext
}.

Definition ctx (p : t) (i : Z) : FiberContext := rd FiberContext_new (contexts p) i.

Definition with_ctx (i : Z) (c : FiberContext) (h : Z) (p : t) : t :=
  {| base_ptr := base_ptr p; total_size := total_size p; slot_size := slot_size p;
     page_size := page_size p; capacity := capacity p; safety := safety p; free_head := h;
     context_end_offset := context_end_offset p; contexts := wr (contexts p) i c |}.

(** ** Layout *)

Definition ALIGN : Z := 64.

Definition context_sz (fiber_context_size : Z) : Z :=
  Z.land (fiber_context_size + ALIGN - 1) (Z.lnot (ALIGN - 1)).

Definition slot_bytes (fiber_context_size stack_size page : Z) : Z :=
  Z.land (stack_size + context_sz fiber_context_size + 8192 + page - 1) (Z.lnot (page - 1)).

Definition div_ceil (a b : Z) : Z := (a + b - 1) / b.

Definition arena_bytes (sl : SafetyLevel) (cap slot page : Z) : Z :=
  match sl with
  | Safety0 => cap * slot
  | Safety1 => cap * slot + div_ceil cap 32 * page
  | Safety2 => cap * (slot + page)
  end.

(** The guard pages [new] protects. *)
Definition guard_pages (sl : SafetyLevel) (base cap slot page : Z) : list Z :=
  match sl with
  | Safety0 => []
  | Safety1 => (fun i => base + i * (slot * 32 + page)) <$> seqZ 0 (div_ceil cap 32)
  | Safety2 => (fun i => base + i * (slot + page)) <$> seqZ 0 cap
  end.

Definition guard_offset (sl : SafetyLevel) (page index : Z) : Z :=
  match sl with
  | Safety0 => 0
  | Safety1 => (Z.shiftr index 5 + 1) * page
  | Safety2 => (index + 1) * page
  end.

Definition get_context_ptr (p : t) (index : Z) : Z :=
  base_ptr p + (index * slot_size p + guard_offset (safety p) (page_size p) index
                + context_end_offset p).

(** [((ctx as usize) - 8192) & !63] *)
Definition read_buffer_of (ctx_ptr : Z) : Z := Z.land (ctx_ptr - 8192) (Z.lnot 63).

Definition get_dispatch_layout (fiber_context_size : Z) (p : t) : Z * Z * Z * Z :=
  let guard_size := if bool_decide (safety p = Safety0) then 0 else page_size p in
  (base_ptr p, slot_size p, guard_size, slot_size p - context_sz fiber_context_size).

(** The initialisation loop: context [i] links to [i + 1]. *)
Fixpoint init_contexts (n : nat) (p : t) : gmap Z FiberContext :=
  match n with
  | O => ∅
  | S k =>
      let i := Z.of_nat k in
      wr (init_contexts k p) i
         {| fiber_index := i; origin_core := 0; state := Initial; switch_fn := CrossThreadFloat;
            closure_ptr := 0; read_buffer_ptr := read_buffer_of (get_context_ptr p i);
            kind := Types.Compute; mode := P2PMesh; affinity := SameCore;
            adaptive_spin_count := 50; spin_failure_count := 0; waiter_thread_id := 0;
            waiter_handle := 0; generation := 0; next_free := i + 1 |}
  end.

(** [ContextPool::new] on the result [arena] of the mapping; [protect g] tells
    whether protecting the page at [g] succeeded.  An empty pool underflows
    [capacity - 1]. *)
Inductive PoolError := ArenaFailed | ProtectFailed.

Definition new (fiber_context_size page : Z) (arena : option Z) (protect : Z -> bool)
    (cap stack_size : Z) (sl : SafetyLevel) : outcome (result t PoolError) :=
  let slot := slot_bytes fiber_context_size stack_size page in
  let total := arena_bytes sl cap slot page in
  match arena with
  | None => Done (Err ArenaFailed)
  | Some base =>
      if forallb protect (guard_pages sl base cap slot page) then
        if cap =? 0 then Panic else
        let p := {| base_ptr := base; total_size := total + 4096; slot_size := slot;
                    page_size := page; capacity := cap; safety := sl; free_head := 0;
                    context_end_offset := slot - context_sz fiber_context_size;
                    contexts := ∅ |} in
        let cs := init_contexts (Z.to_nat cap) p in
        let last := rd FiberContext_new cs (cap - 1) in
        Done (Ok {| base_ptr := base; total_size := total + 4096; slot_size := slot;
                    page_size := page; capacity := cap; safety := sl; free_head := 0;
                    context_end_offset := slot - context_sz fiber_context_size;
                    contexts := wr cs (cap - 1) (set_next_free U32_MAX last) |})
      else Done (Err ProtectFailed)
  end.

(** ** The free list *)

Definition head_index (head : Z) : Z := wrap 32 head.
Definition head_gen (head : Z) : Z := wrap 32 (Z.shiftr head 32).
Definition pack_head (gen index : Z) : Z := Z.lor (Z.shiftl gen 32) index.

Fixpoint alloc_loop (fuel : nat) (head : Z) (p : t) : outcome (option Z * t) :=
  match fuel with
  | O => OutOfFuel
  | S fuel' =>
      let index := head_index head in
      if index =? U32_MAX then Done (None, p)
      else
        let next := next_free (ctx p index) in
        let new_head := pack_head (wadd 32 (head_gen head) 1) next in
        if free_head p =? head then
          Done (Some index, with_ctx index (ctx p index) new_head p)
        else alloc_loop fuel' (free_head p) p
  end.

Fixpoint free_loop (fuel : nat) (head index : Z) (p : t) : outcome t :=
  match fuel with
  | O => OutOfFuel
  | S fuel' =>
      let p1 := with_ctx index (set_next_free (head_index head) (ctx p index)) (free_head p) p in
      let new_head := pack_head (wadd 32 (head_gen head) 1) index in
      if free_head p1 =? head then
        Done (with_ctx index (ctx p1 index) new_head p1)
      else free_loop fuel' (free_head p1) index p1
  end.

(** Turns granted to a thread running alone; one is used. *)
Definition retry_fuel : nat := 4.

Definition alloc_context (p : t) : outcome (option Z * t) := alloc_loop retry_fuel (free_head p) p.

Definition free_context (index : Z) (p : t) : outcome t :=
  let p1 := with_ctx index (retire (ctx p index)) (free_head p) p in
  free_loop retry_fuel (free_head p1) index p1.

(** ** The layout is sound *)

Section layout.
Context (fcs page base cap stack : Z) (sl : SafetyLevel) (k : Z).
Hypothesis Hpage : page = 2 ^ k.
Hypothesis Hk : 6 <= k.
Hypothesis Hfcs : 0 < fcs.
Hypothesis Hstack : 0 <= stack.
Hypothesis Hbase : base `mod` page = 0.

Notation slot := (slot_bytes fcs stack page).

Definition slot_start (i : Z) : Z := base + i * slot + guard_offset sl page i.

Lemma cp_context_sz : context_sz fcs `mod` 64 = 0 /\ fcs <= context_sz fcs < fcs + 64.
Proof.
  unfold context_sz, ALIGN. rewrite (land_lnot_mask 6) by lia. change (2 ^ 6) with 64.
  pose proof (Z.mod_pos_bound (fcs + 64 - 1) 64 ltac:(lia)).
  pose proof (Z.div_mod (fcs + 64 - 1) 64 ltac:(lia)).
  replace (fcs + 64 - 1 - (fcs + 64 - 1) `mod` 64) with ((fcs + 64 - 1) / 64 * 64) by lia.
  rewrite Z.mod_mul by lia. lia.
Qed.

Lemma cp_page : 64 <= page /\ page `mod` 64 = 0.
Proof.
  rewrite Hpage. split.
  - change 64 with (2 ^ 6). apply Z.pow_le_mono_r; lia.
  - change 64 with (2 ^ 6). apply Z.mod_divide; [lia|]. exists (2 ^ (k - 6)).
    rewrite <- Z.pow_add_r by lia. f_equal. lia.
Qed.

Lemma cp_slot : slot `mod` page = 0 /\ stack + context_sz fcs + 8192 <= slot.
Proof.
  pose proof cp_page as [Hp _]. unfold slot_bytes. rewrite Hpage in *.
  rewrite land_lnot_mask by lia. set (x := stack + _ + 8192 + _ - 1).
  pose proof (Z.mod_pos_bound x (2 ^ k) ltac:(lia)). pose proof (Z.div_mod x (2 ^ k) ltac:(lia)).
  replace (x - x `mod` 2 ^ k) with (x / 2 ^ k * 2 ^ k) by lia.
  rewrite Z.mod_mul by lia. split; [done|]. unfold x in *. lia.
Qed.

Lemma cp_slot_pos : 0 < slot.
Proof. pose proof cp_slot. pose proof cp_context_sz. lia. Qed.

(** Group and place of an index under [Safety1]. *)
Lemma cp_shiftr i : Z.shiftr i 5 = i / 32.
Proof. by rewrite Z.shiftr_div_pow2. Qed.

Lemma cp_start_mod64 i : slot_start i `mod` 64 = 0.
Proof.
  pose proof cp_page as [Hp Hp64]. pose proof cp_slot as [Hs _].
  apply Z.mod_divide in Hp64, Hs, Hbase; try lia.
  apply Z.mod_divide; [lia|]. unfold slot_start. apply Z.divide_add_r; [apply Z.divide_add_r|].
  - by transitivity page.
  - apply Z.divide_mul_r. by transitivity page.
  - unfold guard_offset. destruct sl; [by exists 0|..]; by apply Z.divide_mul_r.
Qed.

Lemma cp_slots_disjoint i j : 0 <= i < j -> slot_start i + slot <= slot_start j.
Proof.
  intros Hij. pose proof cp_slot_pos. pose proof cp_page as [Hp _].
  unfold slot_start, guard_offset. destruct sl; rewrite ?cp_shiftr.
  - nia.
  - pose proof (Z.div_le_mono i j 32 ltac:(lia) ltac:(lia)). nia.
  - nia.
Qed.

Lemma cp_slot_in_arena i : 0 <= i < cap ->
  base <= slot_start i /\ slot_start i + slot <= base + arena_bytes sl cap slot page.
Proof.
  intros Hi. pose proof cp_slot_pos. pose proof cp_page as [Hp _].
  unfold slot_start, guard_offset, arena_bytes, div_ceil. destruct sl; rewrite ?cp_shiftr.
  - nia.
  - assert (i / 32 + 1 <= (cap + 32 - 1) / 32).
    { replace (cap + 32 - 1) with ((cap - 1) + 1 * 32) by lia. rewrite Z.div_add by lia.
      pose proof (Z.div_le_mono i (cap - 1) 32). lia. }
    pose proof (Z.div_pos i 32 ltac:(lia) ltac:(lia)). nia.
  - nia.
Qed.

Lemma cp_guard_disjoint g i : 0 <= i < cap -> g ∈ guard_pages sl base cap slot page ->
  g + page <= slot_start i \/ slot_start i + slot <= g.
Proof.
  intros Hi Hg. pose proof cp_slot_pos. pose proof cp_page as [Hp _].
  unfold slot_start, guard_offset, guard_pages in *. destruct sl.
  - by apply elem_of_nil in Hg.
  - apply list_elem_of_fmap in Hg as (q & -> & Hq). apply elem_of_seqZ in Hq. rewrite cp_shiftr.
    pose proof (Z.div_mod i 32 ltac:(lia)). pose proof (Z.mod_pos_bound i 32 ltac:(lia)).
    destruct (decide (q <= i / 32)); [left|right].
    + assert (q * (slot * 32 + page) <= i / 32 * (slot * 32 + page)) by nia. nia.
    + assert ((i / 32 + 1) * (slot * 32 + page) <= q * (slot * 32 + page)) by nia. nia.
  - apply list_elem_of_fmap in Hg as (q & -> & Hq).
    destruct (decide (q <= i)); [left|right]; nia.
Qed.

(** Stack, read buffer and context follow each other inside the slot. *)
Lemma cp_slot_parts i :
  let c := slot_start i + (slot - context_sz fcs) in
  c `mod` 64 = 0 /\ read_buffer_of c = c - 8192 /\
  slot_start i + stack <= read_buffer_of c /\ c + fcs <= slot_start i + slot.
Proof.
  intros c. pose proof (cp_start_mod64 i) as Hm. pose proof cp_slot as [Hs Hlb].
  pose proof cp_page as [? Hp64]. pose proof cp_context_sz as [Hc ?].
  assert (c `mod` 64 = 0) as E.
  { apply Z.mod_divide in Hm, Hs, Hp64, Hc; try lia. apply Z.mod_divide; [lia|].
    unfold c. apply Z.divide_add_r; [done|]. apply Z.divide_sub_r; [|done]. by transitivity page. }
  assert (read_buffer_of c = c - 8192) as Er.
  { unfold read_buffer_of. rewrite (land_lnot_mask 6) by lia. change (2 ^ 6) with 64.
    replace (c - 8192) with (c + (-128) * 64) at 2 by lia. rewrite Z.mod_add, E by lia. lia. }
  rewrite Er. split_and!; try done; unfold c; lia.
Qed.
End layout.

(** ** The free list is a stack of indices *)

Lemma cp_pack_index gen i : 0 <= gen -> is_word 32 i -> head_index (pack_head gen i) = i.
Proof.
  intros Hg [Hi0 Hi]. unfold head_index, pack_head, wrap.
  rewrite <- Z.land_ones, Z.land_lor_distr_l, !Z.land_ones by lia.
  rewrite Z.shiftl_mul_pow2 by lia. rewrite Z.mod_mul, Z.lor_0_l by lia. by apply Z.mod_small.
Qed.

Lemma cp_pack_gen gen i : is_word 32 gen -> is_word 32 i -> head_gen (pack_head gen i) = gen.
Proof.
  intros Hg [Hi0 Hi]. unfold head_gen, pack_head.
  rewrite Z.shiftr_lor, Z.shiftr_shiftl_l, Z.sub_diag, Z.shiftl_0_r by lia.
  rewrite (Z.shiftr_div_pow2 i), Z.div_small, Z.lor_0_r by lia. by apply wrap_small.
Qed.

Definition NIL : Z := U32_MAX.

(** Following [next_free] from index [h] visits exactly [l]. *)
Definition chain (p : t) (h : Z) (l : list Z) : Prop :=
  linked_by (fun i => next_free (ctx p i)) NIL h l.

Record free_ok (p : t) (l : list Z) : Prop := {
  fr_chain : chain p (head_index (free_head p)) l;
  fr_nodup : NoDup l;
  fr_range : Forall (fun i => 0 <= i < capacity p) l;
  fr_cap : capacity p <= U32_MAX
}.

Lemma cp_ctx_with_eq i c h p : ctx (with_ctx i c h p) i = c.
Proof. apply rd_wr_eq. Qed.

Lemma cp_ctx_with_ne i j c h p : i <> j -> ctx (with_ctx i c h p) j = ctx p j.
Proof. apply rd_wr_ne. Qed.

Lemma cp_alloc_some p x l : free_ok p (x :: l) ->
  exists p', alloc_context p = Done (Some x, p') /\ free_ok p' l /\
    (forall i, ctx p' i = ctx p i) /\
    free_head p' = pack_head (wadd 32 (head_gen (free_head p)) 1) (next_free (ctx p x)).
Proof.
  intros [[Hh Hc] Hnd Hr Hcap]. unfold alloc_context. cbn [retry_fuel alloc_loop].
  rewrite Hh. apply Forall_cons in Hr as [Hx Hr]. apply NoDup_cons in Hnd as [Hnx Hnd].
  case_test; [unfold U32_MAX in *; lia|]. rewrite Z.eqb_refl.
  assert (forall h i, ctx (with_ctx x (ctx p x) h p) i = ctx p i) as Hctx.
  { intros h i. destruct (decide (x = i)) as [<-|]; [apply cp_ctx_with_eq|by apply cp_ctx_with_ne]. }
  eexists; split; [done|]. split_and!; [|apply Hctx|done]. split; try done.
  simpl. rewrite cp_pack_index.
  - eapply linked_by_ext; [|exact Hc]. intros i _. simpl. by rewrite Hctx.
  - apply wrap_range. lia.
  - exact (linked_by_word _ 32 _ _ _ Hr ltac:(lia) Hcap Hc).
Qed.

Lemma cp_alloc_none p : free_ok p [] -> alloc_context p = Done (None, p).
Proof. intros [Hh _ _ _]. unfold alloc_context. cbn [retry_fuel alloc_loop]. by rewrite Hh. Qed.

Lemma cp_free p x l : free_ok p l -> x ∉ l -> 0 <= x < capacity p ->
  exists p', free_context x p = Done p' /\ free_ok p' (x :: l) /\
    state (ctx p' x) = Initial /\ generation (ctx p' x) = wadd 32 (generation (ctx p x)) 1 /\
    (forall i, i <> x -> ctx p' i = ctx p i).
Proof.
  intros [Hc Hnd Hr Hcap] Hx Hxr. unfold free_context. cbn [retry_fuel free_loop].
  rewrite !cp_ctx_with_eq. simpl. rewrite Z.eqb_refl. eexists; split; [done|].
  set (p' := with_ctx x _ _ _).
  assert (forall i, i <> x -> ctx p' i = ctx p i) as Hother.
  { intros i Hi. unfold p'. by rewrite !cp_ctx_with_ne by done. }
  assert (next_free (ctx p' x) = head_index (free_head p)) as Hnext
    by (unfold p'; by rewrite cp_ctx_with_eq).
  split_and!; [|by unfold p'; rewrite cp_ctx_with_eq..|done]. split; try done.
  - unfold p' at 2. simpl. rewrite cp_pack_index.
    + split; [done|]. rewrite Hnext. eapply linked_by_ext; [|exact Hc].
      intros i Hi. simpl. by rewrite Hother by (intros ->; done).
    + apply wrap_range. lia.
    + unfold is_word, U32_MAX in *. lia.
  - by apply NoDup_cons.
  - by apply Forall_cons.
Qed.

(** ** Operation sequences *)

Inductive pool_op := Alloc | Free (index : Z).
Inductive pool_res := Allocated (index : Z) | Exhausted | Freed.

Definition pool_step (o : pool_op) (p : t) : outcome (pool_res * t) :=
  match o with
  | Alloc =>
      '(r, p') ← alloc_context p;
      Done (match r with Some i => Allocated i | None => Exhausted end, p')
  | Free i => p' ← free_context i p; Done (Freed, p')
  end.

Fixpoint pool_run (os : list pool_op) (p : t) : outcome (list pool_res * t) :=
  match os with
  | [] => Done ([], p)
  | o :: os' => '(r, p1) ← pool_step o p; '(rs, p2) ← pool_run os' p1; Done (r :: rs, p2)
  end.

(** The abstract arena: a stack of free indices.  Freeing an index that is
    free already, or not of the pool, is outside the contract ([None]). *)
Definition spec_step (cap : Z) (o : pool_op) (l : list Z) : option (pool_res * list Z) :=
  match o with
  | Alloc => Some (match l with x :: l' => (Allocated x, l') | [] => (Exhausted, []) end)
  | Free i => if decide (i ∉ l /\ 0 <= i < cap) then Some (Freed, i :: l) else None
  end.

Fixpoint spec_run (cap : Z) (os : list pool_op) (l : list Z) : option (list pool_res * list Z) :=
  match os with
  | [] => Some ([], l)
  | o :: os' =>
      '(r, l1) ← spec_step cap o l; '(rs, l2) ← spec_run cap os' l1; Some (r :: rs, l2)
  end.

Lemma cp_capacity_alloc p r p' : alloc_context p = Done (r, p') -> capacity p' = capacity p.
Proof.
  unfold alloc_context. cbn [retry_fuel alloc_loop]. rewrite Z.eqb_refl.
  case_test; intros E'; by simplify_eq.
Qed.

Lemma cp_pool_step p l o r l' : free_ok p l -> spec_step (capacity p) o l = Some (r, l') ->
  exists p', pool_step o p = Done (r, p') /\ free_ok p' l' /\ capacity p' = capacity p.
Proof.
  intros Hf Hs. destruct o as [|i]; simpl in *.
  - destruct l as [|x l]; simplify_eq.
    + rewrite cp_alloc_none by done. by eexists.
    + destruct (cp_alloc_some p x l' Hf) as (p' & E & ? & _). rewrite E. simpl.
      eexists; split_and!; try done. by eapply cp_capacity_alloc.
  - case_decide; simplify_eq. destruct (cp_free p i l Hf) as (p' & E & ? & _); [tauto|tauto|].
    rewrite E. simpl. eexists; split_and!; try done.
    unfold free_context in E. cbn [retry_fuel free_loop] in E. simpl in E.
    rewrite Z.eqb_refl in E. by simplify_eq.
Qed.

Lemma cp_pool_run p l os rs l' : free_ok p l -> spec_run (capacity p) os l = Some (rs, l') ->
  exists p', pool_run os p = Done (rs, p') /\ free_ok p' l'.
Proof.
  revert p l rs l'. induction os as [|o os IH]; intros p l rs l' Hf Hs; simpl in *.
  { simplify_eq. by eexists. }
  destruct (spec_step (capacity p) o l) as [[r l1]|] eqn:E1; simpl in Hs; [|done].
  destruct (spec_run (capacity p) os l1) as [[rs' l2]|] eqn:E2; simpl in Hs; simplify_eq.
  destruct (cp_pool_step p l o r l1 Hf E1) as (p1 & -> & Hf1 & Hc). simpl. rewrite <- Hc in E2.
  destruct (IH p1 l1 rs' l' Hf1 E2) as (p2 & -> & Hf2). simpl. by eexists.
Qed.

Lemma cp_init_contexts n p i : 0 <= i < Z.of_nat n ->
  next_free (rd FiberContext_new (init_contexts n p) i) = i + 1.
Proof.
  induction n as [|n IH]; intros Hi; [lia|]. cbn [init_contexts].
  destruct (decide (i = Z.of_nat n)) as [->|]; [by rewrite rd_wr_eq|].
  rewrite rd_wr_ne by done. apply IH. lia.
Qed.

Lemma cp_new_free_ok fcs page base protect cap stack sl p :
  0 < cap <= U32_MAX -> new fcs page (Some base) protect cap stack sl = Done (Ok p) ->
  free_ok p (seqZ 0 cap) /\ capacity p = cap.
Proof.
  intros Hc E. unfold new in E. case_match; [|done].
  rewrite (proj2 (Z.eqb_neq cap 0)) in E by lia. injection E as <-.
  split; [|done]. split; simpl.
  - change (head_index 0) with 0. 
    replace (seqZ 0 cap) with (seqZ 0 (Z.of_nat (Z.to_nat cap))) by (f_equal; lia).
    set (p0 := Pool.mk _ _ _ _ _ _ _ _ ∅). apply linked_by_seq; [lia|..].
    + intros j Hj. unfold ctx. simpl. rewrite rd_wr_ne by lia. apply cp_init_contexts. lia.
    + rewrite Z2Nat.id, Z.add_0_l by lia. unfold ctx. simpl. by rewrite rd_wr_eq.
  - apply NoDup_seqZ.
  - apply Forall_forall. intros i Hi%elem_of_seqZ. lia.
  - lia.
Qed.

End Pool.



(** C11.  The arena's free list refines a stack of free indices: from a new
    pool, every sequence of allocations and frees that frees only indices
    not already free answers as the stack does.  So no index is handed out
    twice, a freed index is the next one allocated, and allocation fails
    exactly when all [capacity] contexts are in use. *)
Theorem pool_refines_stack (fcs page base cap stack : Z) (protect : Z -> bool) (sl : SafetyLevel)
    (p : Pool.t) (os : list Pool.pool_op) (rs : list Pool.pool_res) (l : list Z) :
  0 < cap <= U32_MAX ->
  Pool.new fcs page (Some base) protect cap stack sl = Done (Ok p) ->
  Pool.spec_run cap os (seqZ 0 cap) = Some (rs, l) ->
  exists p', Pool.pool_run os p = Done (rs, p') /\ Pool.free_ok p' l.
Proof.
  intros Hc E Hs. destruct (Pool.cp_new_free_ok _ _ _ _ _ _ _ _ Hc E) as [Hf Ecap].
  apply (Pool.cp_pool_run p (seqZ 0 cap)); [done|]. by rewrite Ecap.
Qed.

Lemma pool_refines_stack_witness :
  exists p p', Pool.new 1500 4096 (Some 0) (fun _ => true) 2 0 Safety0 = Done (Ok p) /\
    Pool.pool_run [Pool.Alloc; Pool.Alloc; Pool.Alloc; Pool.Free 0; Pool.Alloc] p
    = Done ([Pool.Allocated 0; Pool.Allocated 1; Pool.Exhausted; Pool.Freed; Pool.Allocated 0], p').
Proof.
  destruct (Pool.new 1500 4096 (Some 0) (fun _ => true) 2 0 Safety0)
    as [[p|]| |] eqn:E; try discriminate E.
  destruct (pool_refines_stack 1500 4096 0 2 0 (fun _ => true) Safety0 p
    [Pool.Alloc; Pool.Alloc; Pool.Alloc; Pool.Free 0; Pool.Alloc]
    [Pool.Allocated 0; Pool.Allocated 1; Pool.Exhausted; Pool.Freed; Pool.Allocated 0] [])
    as (p' & Hr & _); try done. by exists p, p'.
Defined.
