(* ===== verification/OsMemory.v ===== *)
(** * OsMemory

    How the runtime obtains and returns its large regions: [HugeBuffer] of src/src/dta_scheduler.rs (the mailboxes,
    run queues and the warehouse) and [allocate_arena] with [ContextPool::drop] of
    src/src/memory_management.rs, on Unix and on Windows.

    The system's calls are parameters with their documented behaviour, stated on a view of the address
    space: which regions are mapped and of what kind. *)

From S2P Require Import Prelude Types Mailbox ContextPool.

Module OsMemory.

Definition MIB2 : Z := 2 * 1024 * 1024.

Inductive region_kind := Plain | Huge | Heap.
Record region := Region { r_len : Z; r_kind : region_kind }.

(** ** The system *)

Record Os (S : Type) := mkOs {
  base_flags : Z;                                   (* MAP_PRIVATE | MAP_ANONYMOUS *)
  MAP_NORESERVE : Z;
  mmap : Z -> Z -> S -> option Z * S;               (* length, flags *)
  munmap : Z -> Z -> S -> S;                        (* its error is not looked at *)
  madvise : Z -> Z -> S -> S;
  mbind : Z -> Z -> Z -> S -> S;                    (* address, length, node mask *)
  alloc_zeroed : Z -> S -> option Z * S;
  dealloc : Z -> Z -> S -> S;
  VirtualAlloc : option Z -> Z -> Z -> S -> option Z * S;   (* node, length, flags *)
  VirtualFree : Z -> S -> S
}.
Arguments base_flags {S} o.
Arguments MAP_NORESERVE {S} o.
Arguments mmap {S} o.
Arguments munmap {S} o.
Arguments madvise {S} o.
Arguments mbind {S} o.
Arguments alloc_zeroed {S} o.
Arguments dealloc {S} o.
Arguments VirtualAlloc {S} o.
Arguments VirtualFree {S} o.

Definition MAP_HUGETLB : Z := 0x40000.
Definition MEM_COMMIT_RESERVE : Z := 0x3000.
Definition MEM_LARGE_PAGES : Z := 0x20000000.

Inductive target := Unix (linux : bool) | Windows (windows_root : bool).

Section code.
Context {S : Type} (os : Os S).

(** ** [HugeBuffer] *)

Record HugeBuffer := mkBuffer { ptr : Z; size_bytes : Z; is_mmap : bool }.

(** [new], for a [T] of [size] bytes. *)
Definition new_unix (linux : bool) (size : Z) (s : S) : outcome (HugeBuffer * S) :=
  let '(p1, s1) := if MIB2 <=? size then mmap os size (Z.lor (base_flags os) MAP_HUGETLB) s else (None, s) in
  let '(p2, s2) := match p1 with
                   | Some _ => (p1, s1)
                   | None => mmap os size (Z.lor (base_flags os) (MAP_NORESERVE os)) s1
                   end in
  match p2 with
  | Some p => Done (mkBuffer p size true, if linux then madvise os p size s2 else s2)
  | None =>
      let '(a, s3) := alloc_zeroed os size s2 in
      match a with Some p => Done (mkBuffer p size false, s3) | None => Panic end
  end.

Definition new_windows (windows_root : bool) (size : Z) (s : S) : outcome (HugeBuffer * S) :=
  let '(p1, s1) := if windows_root then VirtualAlloc os None size (Z.lor MEM_COMMIT_RESERVE MEM_LARGE_PAGES) s
                   else (None, s) in
  let '(p2, s2) := match p1 with
                   | Some _ => (p1, s1)
                   | None => VirtualAlloc os None size MEM_COMMIT_RESERVE s1
                   end in
  match p2 with Some p => Done (mkBuffer p size false, s2) | None => Panic end.

Definition new (t : target) (size : Z) (s : S) : outcome (HugeBuffer * S) :=
  match t with Unix linux => new_unix linux size s | Windows root => new_windows root size s end.

Definition drop (t : target) (b : HugeBuffer) (s : S) : S :=
  match t with
  | Unix _ => if is_mmap b then munmap os (ptr b) (size_bytes b) s else dealloc os (ptr b) (size_bytes b) s
  | Windows _ => VirtualFree os (ptr b) s
  end.

(** ** The arena *)

Definition arena_unix (linux : bool) (size : Z) (safety : SafetyLevel) (numa : Z) (s : S)
  : result Z unit * S :=
  let '(p1, s1) := if bool_decide (safety = Safety0)
                   then mmap os size (Z.lor (base_flags os) MAP_HUGETLB) s else (None, s) in
  let '(p2, s2) := match p1 with
                   | Some _ => (p1, s1)
                   | None => mmap os size (Z.lor (base_flags os) (MAP_NORESERVE os)) s1
                   end in
  match p2 with
  | None => (Err tt, s2)
  | Some p =>
      let s3 := if linux then madvise os p size s2 else s2 in
      (Ok p, if linux && (0 <? numa) then mbind os p size (Z.shiftl 1 (numa `mod` 64)) s3 else s3)
  end.

Definition arena_windows (size : Z) (safety : SafetyLevel) (numa : Z) (s : S) : result Z unit * S :=
  let node := if 0 <? numa then Some (wrap 32 numa) else None in
  let flags := if bool_decide (safety = Safety0) then Z.lor MEM_COMMIT_RESERVE MEM_LARGE_PAGES
               else MEM_COMMIT_RESERVE in
  let '(p1, s1) := VirtualAlloc os node size flags s in
  let '(p2, s2) := if bool_decide (p1 = None) && negb (Z.land flags MEM_LARGE_PAGES =? 0)
                   then VirtualAlloc os node size (Z.land flags (Z.lnot MEM_LARGE_PAGES)) s1
                   else (p1, s1) in
  match p2 with None => (Err tt, s2) | Some p => (Ok p, s2) end.

Definition allocate_arena (t : target) (size : Z) (safety : SafetyLevel) (numa : Z) (s : S) : result Z unit * S :=
  match t with
  | Unix linux => arena_unix linux size safety numa s
  | Windows _ => arena_windows size safety numa s
  end.

(** [ContextPool::drop]. *)
Definition pool_drop (t : target) (base_ptr total_size : Z) (s : S) : S :=
  match t with Unix _ => munmap os base_ptr total_size s | Windows _ => VirtualFree os base_ptr s end.

(** ** What the system promises

    [munmap] of explicit huge pages requires a length that is a multiple of their size and does
    nothing otherwise, though [mmap] accepts any. *)
Record os_laws (view : S -> gmap Z region) : Prop := {
  mmap_ok : forall n f p s s', mmap os n f s = (Some p, s') ->
    view s !! p = None /\ exists l k, n <= l /\ k <> Heap /\ view s' = <[p := Region l k]> (view s) /\
      (k = Huge -> f = Z.lor (base_flags os) MAP_HUGETLB);
  mmap_fails : forall n f s s', mmap os n f s = (None, s') -> view s' = view s;
  munmap_plain : forall n p l s, view s !! p = Some (Region l Plain) -> n <= l ->
    view (munmap os p n s) = delete p (view s);
  munmap_huge : forall n p l s, view s !! p = Some (Region l Huge) -> n <= l ->
    view (munmap os p n s) = if n `mod` MIB2 =? 0 then delete p (view s) else view s;
  hints : forall n m p s, view (madvise os p n s) = view s /\ view (mbind os p n m s) = view s;
  heap_ok : forall n p s s', alloc_zeroed os n s = (Some p, s') ->
    view s !! p = None /\ view s' = <[p := Region n Heap]> (view s);
  heap_fails : forall n s s', alloc_zeroed os n s = (None, s') -> view s' = view s;
  heap_free : forall n p s, view s !! p = Some (Region n Heap) -> view (dealloc os p n s) = delete p (view s);
  virtual_ok : forall o n f p s s', VirtualAlloc os o n f s = (Some p, s') ->
    view s !! p = None /\ exists l k, n <= l /\ k <> Heap /\ view s' = <[p := Region l k]> (view s) /\
      (k = Huge -> Z.land f MEM_LARGE_PAGES <> 0);
  virtual_fails : forall o n f s s', VirtualAlloc os o n f s = (None, s') -> view s' = view s;
  virtual_free : forall p r s, view s !! p = Some r -> view (VirtualFree os p s) = delete p (view s)
}.

Section laws.
Context (view : S -> gmap Z region) (L : os_laws view).

(** A fresh region of at least [size] bytes at [p], and nothing else has changed. *)
Definition obtained (p size : Z) (k : region_kind) (s s' : S) : Prop :=
  view s !! p = None /\ exists l, size <= l /\ view s' = <[p := Region l k]> (view s).

(** The two tiers of the Unix paths. *)
Lemma om_tiers (c : bool) size s p2 s2 :
  (let '(p1, s1) := if c then mmap os size (Z.lor (base_flags os) MAP_HUGETLB) s else (None, s) in
   match p1 with
   | Some _ => (p1, s1)
   | None => mmap os size (Z.lor (base_flags os) (MAP_NORESERVE os)) s1
   end) = (p2, s2) ->
  Z.lor (base_flags os) (MAP_NORESERVE os) <> Z.lor (base_flags os) MAP_HUGETLB ->
  match p2 with
  | Some p => exists k, k <> Heap /\ (k = Huge -> c = true) /\ obtained p size k s s2
  | None => view s2 = view s
  end.
Proof.
  intros E Hne. destruct c.
  - destruct (mmap os size (Z.lor (base_flags os) MAP_HUGETLB) s) as [[q|] s1] eqn:E1.
    + injection E as <- <-. destruct (mmap_ok _ L _ _ _ _ _ E1) as (Hf & l & k & Hl & Hk & Hv & _).
      exists k. split_and!; try done. split; [done|by exists l].
    + pose proof (mmap_fails _ L _ _ _ _ E1) as Hv1. destruct p2 as [p|].
      * destruct (mmap_ok _ L _ _ _ _ _ E) as (Hf & l & k & Hl & Hk & Hv & Hh). exists k.
        split_and!; try done. split; [by rewrite <- Hv1|]. exists l. by rewrite <- Hv1.
      * by rewrite (mmap_fails _ L _ _ _ _ E).
  - destruct p2 as [p|]; [|by rewrite (mmap_fails _ L _ _ _ _ E)].
    destruct (mmap_ok _ L _ _ _ _ _ E) as (Hf & l & k & Hl & Hk & Hv & Hh). exists k.
    split_and!; try done; [|split; [done|by exists l]]. intros ->. exfalso. by apply Hne, Hh.
Qed.

Lemma om_obtained_hints p size k s s1 s2 : obtained p size k s s1 -> view s2 = view s1 -> obtained p size k s s2.
Proof. unfold obtained. by intros H ->. Qed.

Definition distinct_flags : Prop := Z.lor (base_flags os) (MAP_NORESERVE os) <> Z.lor (base_flags os) MAP_HUGETLB.

(** What [new] obtains. *)
Lemma om_new t size b s s' : distinct_flags -> new t size s = Done (b, s') ->
  size_bytes b = size /\ exists k, obtained (ptr b) size k s s' /\
    match t with
    | Unix _ => (is_mmap b = true <-> k <> Heap) /\ (k = Huge -> MIB2 <= size) /\
                (k = Heap -> view s' !! ptr b = Some (Region size Heap))
    | Windows root => k = Huge -> root = true
    end.
Proof.
  intros Hd E. destruct t as [linux|root]; simpl in E.
  - unfold new_unix in E.
    destruct (if MIB2 <=? size then mmap os size (Z.lor (base_flags os) MAP_HUGETLB) s else (None, s))
      as [p1 s1] eqn:E1.
    destruct (match p1 with Some _ => (p1, s1) | None => mmap os size (Z.lor (base_flags os) (MAP_NORESERVE os)) s1 end)
      as [p2 s2] eqn:E2.
    pose proof (om_tiers (MIB2 <=? size) size s p2 s2) as Ht. rewrite E1 in Ht. specialize (Ht E2 Hd).
    destruct p2 as [p|].
    + injection E as <- <-. destruct Ht as (k & Hk & Hh & Ho). split; [done|]. exists k. split_and!; try done.
      * apply (om_obtained_hints _ _ _ _ s2); [done|]. destruct linux; [|done]. apply (hints _ L _ 0).
      * intros ->. apply Z.leb_le. by apply Hh.
    + destruct (alloc_zeroed os size s2) as [[p|] s3] eqn:Ea; [|done]. injection E as <- <-.
      destruct (heap_ok _ L _ _ _ _ Ea) as [Hf Hv]. split; [done|]. exists Heap. simpl. split_and!; try done.
      * split; [by rewrite <- Ht|]. exists size. rewrite <- Ht. split; [lia|done].
      * intros _. rewrite Hv. apply lookup_insert_eq.
  - unfold new_windows in E.
    destruct (if root then VirtualAlloc os None size (Z.lor MEM_COMMIT_RESERVE MEM_LARGE_PAGES) s else (None, s))
      as [p1 s1] eqn:E1.
    destruct (match p1 with Some _ => (p1, s1) | None => VirtualAlloc os None size MEM_COMMIT_RESERVE s1 end)
      as [p2 s2] eqn:E2.
    destruct p2 as [p|]; [|done]. injection E as <- <-. split; [done|]. destruct p1 as [q|].
    + injection E2 as -> ->. destruct root; [|done].
      destruct (virtual_ok _ L _ _ _ _ _ _ E1) as (Hf & l & k & Hl & _ & Hv & _). exists k. split; [|done].
      split; [done|by exists l].
    + destruct (virtual_ok _ L _ _ _ _ _ _ E2) as (Hf & l & k & Hl & _ & Hv & Hh).
      assert (Hv1 : view s1 = view s).
      { destruct root; [apply (virtual_fails _ L _ _ _ _ _ E1)|by injection E1 as ->]. }
      exists k. split; [|intros Hk; by apply Hh in Hk]. split; [by rewrite <- Hv1|]. exists l. by rewrite <- Hv1.
Qed.

(** What a mapping of [size] bytes leaves behind when it is unmapped. *)
Definition given_back (p size : Z) (s s1 s2 : S) : Prop :=
  view s2 = view s \/
  (size `mod` MIB2 <> 0 /\ view s2 = view s1 /\ exists l, view s1 !! p = Some (Region l Huge)).

Lemma om_unmapped p size k s s1 : obtained p size k s s1 -> k <> Heap ->
  given_back p size s s1 (munmap os p size s1) /\ (k = Plain -> view (munmap os p size s1) = view s).
Proof.
  intros (Hf & l & Hl & Hv) Hk. assert (Hp : view s1 !! p = Some (Region l k)) by (rewrite Hv; apply lookup_insert_eq).
  assert (Hd : delete p (view s1) = view s) by (rewrite Hv; by apply delete_insert_id).
  destruct k; [| |done].
  - pose proof (munmap_plain _ L _ _ _ _ Hp Hl) as Hu. rewrite Hd in Hu. split; [by left|done].
  - split; [|done]. pose proof (munmap_huge _ L _ _ _ _ Hp Hl) as Hu.
    destruct (Z.eqb_spec (size `mod` MIB2) 0); [left; by rewrite Hu|right]. split_and!; try done. by exists l.
Qed.

(** Every tier obtains a region of its own, and the first that succeeds is used. *)
Lemma om_arena t size safety numa p s s' : distinct_flags -> allocate_arena t size safety numa s = (Ok p, s') ->
  exists k, k <> Heap /\ obtained p size k s s' /\ (k = Huge -> safety = Safety0).
Proof.
  intros Hd E. destruct t as [linux|root]; simpl in E.
  - unfold arena_unix in E.
    destruct (if bool_decide (safety = Safety0) then mmap os size (Z.lor (base_flags os) MAP_HUGETLB) s else (None, s))
      as [p1 s1] eqn:E1.
    destruct (match p1 with Some _ => (p1, s1) | None => mmap os size (Z.lor (base_flags os) (MAP_NORESERVE os)) s1 end)
      as [p2 s2] eqn:E2.
    pose proof (om_tiers (bool_decide (safety = Safety0)) size s p2 s2) as Ht. rewrite E1 in Ht. specialize (Ht E2 Hd).
    destruct p2 as [q|]; [|done]. destruct Ht as (k & Hk & Hh & Ho). exists k.
    set (s3 := if linux then madvise os q size s2 else s2) in *.
    assert (H3 : obtained q size k s s3).
    { apply (om_obtained_hints _ _ _ _ s2); [done|]. unfold s3. destruct linux; [|done]. apply (hints _ L _ 0). }
    injection E as <- <-. split_and!; [done| |intros ->; by apply (bool_decide_eq_true_1 _ (Hh eq_refl))].
    destruct (linux && (0 <? numa)); [|done]. apply (om_obtained_hints _ _ _ _ s3); [done|]. apply (hints _ L).
  - unfold arena_windows in E.
    set (node := if 0 <? numa then Some (wrap 32 numa) else None) in *.
    destruct (bool_decide_reflect (safety = Safety0)) as [Hs|Hs].
    + destruct (VirtualAlloc os node size (Z.lor MEM_COMMIT_RESERVE MEM_LARGE_PAGES) s) as [p1 s1] eqn:E1.
      destruct p1 as [q|]; simpl in E.
      * injection E as <- <-. destruct (virtual_ok _ L _ _ _ _ _ _ E1) as (Hf & l & k & Hl & Hk & Hv & _).
        exists k. split_and!; try done. split; [done|by exists l].
      * destruct (VirtualAlloc os node size _ s1) as [[q|] s2] eqn:E2; [|done]. injection E as <- <-.
        destruct (virtual_ok _ L _ _ _ _ _ _ E2) as (Hf & l & k & Hl & Hk & Hv & _).
        rewrite (virtual_fails _ L _ _ _ _ _ E1) in Hf, Hv. exists k. split_and!; try done. split; [done|by exists l].
    + destruct (VirtualAlloc os node size MEM_COMMIT_RESERVE s) as [[q|] s1] eqn:E1; simpl in E.
      2: done.
      injection E as <- <-. destruct (virtual_ok _ L _ _ _ _ _ _ E1) as (Hf & l & k & Hl & Hk & Hv & Hh).
      exists k. split_and!; [done|split; [done|by exists l]|]. intros Hu. by apply Hh in Hu.
Qed.

Lemma om_virtual_free p size k s s1 : obtained p size k s s1 -> view (VirtualFree os p s1) = view s.
Proof.
  intros (Hf & l & Hl & Hv). assert (Hp : view s1 !! p = Some (Region l k)) by (rewrite Hv; apply lookup_insert_eq).
  rewrite (virtual_free _ L _ _ _ Hp), Hv. by apply delete_insert_id.
Qed.

Lemma om_arena_fails t size safety numa s s' : allocate_arena t size safety numa s = (Err tt, s') -> view s' = view s.
Proof.
  intros E. destruct t as [linux|root]; simpl in E.
  - unfold arena_unix in E. destruct (bool_decide (safety = Safety0)).
    + destruct (mmap os size (Z.lor (base_flags os) MAP_HUGETLB) s) as [[q|] s1] eqn:E1; [done|].
      destruct (mmap os size _ s1) as [[q|] s2] eqn:E2; [done|]. injection E as <-.
      by rewrite (mmap_fails _ L _ _ _ _ E2), (mmap_fails _ L _ _ _ _ E1).
    + destruct (mmap os size _ s) as [[q|] s2] eqn:E2; [done|]. injection E as <-. apply (mmap_fails _ L _ _ _ _ E2).
  - unfold arena_windows in E. set (node := if 0 <? numa then Some (wrap 32 numa) else None) in *.
    destruct (VirtualAlloc os node size _ s) as [p1 s1] eqn:E1. destruct p1 as [q|]; simpl in E; [done|].
    pose proof (virtual_fails _ L _ _ _ _ _ E1) as H1. destruct (negb _).
    + destruct (VirtualAlloc os node size _ s1) as [[q|] s2] eqn:E2; [done|]. injection E as <-.
      by rewrite (virtual_fails _ L _ _ _ _ _ E2).
    + by injection E as <-.
Qed.

(** Every region the runtime obtains is its own and is given back when its owner is dropped, on every
    platform and whichever tier of the allocation succeeded, with one exception: explicit huge pages whose
    length is not a multiple of 2 MiB stay mapped.  The arena is in huge pages only without
    guard pages, which could not be protected one by one there; an allocation that fails leaves
    nothing behind. *)
Theorem os_regions_given_back (t : target) (size : Z) (s : S) : distinct_flags ->
  (forall b s1, new t size s = Done (b, s1) -> given_back (ptr b) size s s1 (drop t b s1)) /\
  (forall safety numa p s1, allocate_arena t size safety numa s = (Ok p, s1) ->
     given_back p size s s1 (pool_drop t p size s1) /\
     (safety <> Safety0 -> view (pool_drop t p size s1) = view s)) /\
  (forall safety numa s1, allocate_arena t size safety numa s = (Err tt, s1) -> view s1 = view s).
Proof.
  intros Hd. split_and!.
  - intros b s1 E. destruct (om_new _ _ _ _ _ Hd E) as (Hs & k & Ho & Hk). destruct t as [linux|root]; simpl.
    + destruct Hk as (Hm & _ & Hh). rewrite Hs. destruct (is_mmap b) eqn:Em.
      * apply (om_unmapped _ _ k); [done|by apply Hm].
      * destruct k; [by discriminate (proj2 Hm ltac:(done))..|]. left.
        rewrite (heap_free _ L _ _ _ (Hh eq_refl)). destruct Ho as (Hf & l & _ & Hv). rewrite Hv.
        by apply delete_insert_id.
    + left. by apply (om_virtual_free _ size k).
  - intros safety numa p s1 E. destruct (om_arena _ _ _ _ _ _ _ Hd E) as (k & Hk & Ho & Hs).
    destruct t as [linux|root]; simpl.
    + destruct (om_unmapped _ _ _ _ _ Ho Hk) as [Hg Hp]. split; [done|]. intros Hn. apply Hp.
      destruct k; [done|by destruct (Hn (Hs eq_refl))|done].
    + pose proof (om_virtual_free _ _ _ _ _ Ho) as Hv. split; [by left|done].
  - intros safety numa s1. apply om_arena_fails.
Qed.

(** The buffer of a mailbox is 4.5 huge pages long: when the system has huge pages for it, it is never unmapped.  The
    same holds for an arena whose slots fill whole huge pages, as those of the default configuration do. *)
Definition CHUNK_BYTES : Z := 4 * CHUNK_SIZE + 16.
Definition mailbox_bytes : Z := CHUNK_BYTES * MAILBOX_CAPACITY.

Lemma mailbox_huge_pages_leak (linux : bool) (p l : Z) (s : S) : view s !! p = Some (Region l Huge) ->
  (mailbox_bytes <= l -> view (drop (Unix linux) (mkBuffer p mailbox_bytes true) s) = view s) /\
  (forall cap slot page, (cap * slot) `mod` MIB2 = 0 ->
     let total := Pool.arena_bytes Safety0 cap slot page + 4096 in
     total <= l -> view (pool_drop (Unix linux) p total s) = view s).
Proof.
  intros Hp. split.
  - intros Hl. by apply (munmap_huge _ L _ _ _ _ Hp Hl).
  - intros cap slot page Hm total Hl. simpl. rewrite (munmap_huge _ L _ _ _ _ Hp Hl). unfold total, Pool.arena_bytes.
    rewrite <- Z.add_mod_idemp_l, Hm by done. done.
Qed.

End laws.
End code.

(** ** A system with one place for a region *)

Definition the_place : Z := 4096.

Definition place (l : Z) (k : region_kind) (s : gmap Z region) : option Z * gmap Z region :=
  match s !! the_place with
  | None => (Some the_place, <[the_place := Region l k]> s)
  | Some _ => (None, s)
  end.

(** Whether explicit huge pages are asked for. *)
Definition wants_huge (f : Z) : bool := f =? Z.lor 0x22 MAP_HUGETLB.
Definition page_of (f : Z) : Z := if wants_huge f then MIB2 else 4096.

Definition small_os : Os (gmap Z region) := {|
  base_flags := 0x22;
  MAP_NORESERVE := 0x4000;
  mmap n f s := place (n + (- n) `mod` page_of f) (if wants_huge f then Huge else Plain) s;
  munmap p n s :=
    match s !! p with
    | Some (Region _ Plain) => delete p s
    | Some (Region _ Huge) => if n `mod` MIB2 =? 0 then delete p s else s
    | _ => s
    end;
  madvise _ _ s := s;
  mbind _ _ _ s := s;
  alloc_zeroed n s := place n Heap s;
  dealloc p _ s := delete p s;
  VirtualAlloc _ n _ s := place n Plain s;
  VirtualFree p s := delete p s
|}.

Lemma om_place l k s p s' : place l k s = (Some p, s') -> s !! p = None /\ s' = <[p := Region l k]> s.
Proof. unfold place. destruct (s !! the_place) eqn:E; [done|]. by intros [= <- <-]. Qed.

Lemma om_place_fails l k s s' : place l k s = (None, s') -> s' = s.
Proof. unfold place. destruct (s !! the_place) eqn:E; [|done]. by intros [= <-]. Qed.

Lemma om_small_laws : os_laws small_os id.
Proof.
  split; unfold id; simpl; try done; try (by intros; by eapply om_place_fails).
  - intros n f p s s' [Hf ->]%om_place. split; [done|]. do 2 eexists. split_and!; [| |done|].
    + pose proof (Z.mod_pos_bound (- n) (page_of f)) as Hm. unfold page_of, MIB2 in *. destruct (wants_huge f); lia.
    + by destruct (wants_huge f).
    + destruct (wants_huge f) eqn:E; [intros _|done]. by apply Z.eqb_eq.
  - intros n p l s -> _. done.
  - intros n p l s -> _. done.
  - intros n p s s' [Hf ->]%om_place. done.
  - intros o n f p s s' [Hf ->]%om_place. split; [done|]. exists n, Plain. split_and!; try done; lia.
Qed.

(** A mailbox on huge pages: its region outlives it. *)
Lemma os_regions_given_back_witness :
  let b := mkBuffer the_place mailbox_bytes true in
  let s1 := <[the_place := Region 10485760 Huge]> ∅ in
  new small_os (Unix true) mailbox_bytes ∅ = Done (b, s1) /\
  given_back id (ptr b) mailbox_bytes ∅ s1 (drop small_os (Unix true) b s1).
Proof.
  split; [vm_compute; reflexivity|].
  apply (proj1 (os_regions_given_back small_os id om_small_laws (Unix true) mailbox_bytes ∅ ltac:(done))).
  vm_compute. reflexivity.
Defined.

Lemma mailbox_huge_pages_leak_witness :
  let s1 := <[the_place := Region 10485760 Huge]> ∅ in
  new small_os (Unix true) mailbox_bytes ∅ = Done (mkBuffer the_place mailbox_bytes true, s1) /\
  drop small_os (Unix true) (mkBuffer the_place mailbox_bytes true) s1 = s1.
Proof.
  split; [vm_compute; reflexivity|].
  apply (mailbox_huge_pages_leak small_os id om_small_laws true the_place 10485760); [reflexivity|done].
Defined.

End OsMemory.
