(* ===== verification/Settings.v ===== *)
(** * Settings

    How the runtime is configured: [dtact_config_t] with its defaults and its decoding in [dtact_init]
    (src/src/c_ffi.rs), and the attribute macros of src/dtact-macros/src/lib.rs, whose arguments become the same settings, a
    task's spawn options or the sizes of the I/O drivers.

    A macro's arguments are given as the list of their names and values that the parsing library delivers; what
    is not a name with a value, or not a literal, is [OtherMeta] and [LitOther].  An integer literal is out of range
    when the type it is parsed to cannot hold it, an identifier when no variant has that name: both are
    errors at compile time, here [None]. *)

From stdpp Require Import strings.
From S2P Require Import Prelude Types.

Module Settings.

(** ** The C interface *)

Record dtact_config_t := Config {
  c_workers : Z; c_safety_level : Z; c_topology_mode : Z; c_numa : Z; c_fiber_capacity : Z; c_stack_size : Z
}.

Definition dtact_default_config : dtact_config_t := Config 0 1 0 0 0 0.

(** What [DtaScheduler::new] and [ContextPool::new] are called with. *)
Record settings := mk {
  workers : Z; topology : TopologyMode; capacity : Z; stack_size : Z; safety : SafetyLevel; numa : Z
}.

(** [parallelism] is the answer of [available_parallelism]. *)
Definition worker_count (parallelism : option Z) (n : Z) : Z :=
  if n =? 0 then default 1 parallelism else n.

Definition of_config (parallelism : option Z) (cfg : dtact_config_t) : settings := {|
  workers := worker_count parallelism (c_workers cfg);
  topology := if c_topology_mode cfg =? 1 then Global else P2PMesh;
  capacity := if c_fiber_capacity cfg =? 0 then 4096 else c_fiber_capacity cfg;
  stack_size := if c_stack_size cfg =? 0 then 512 * 1024 else c_stack_size cfg;
  safety := if c_safety_level cfg =? 0 then Safety0 else if c_safety_level cfg =? 2 then Safety2 else Safety1;
  numa := c_numa cfg
|}.

(** ** Arguments of the macros *)

Inductive literal := LitStr (s : string) | LitInt (n : Z) | LitOther.
Inductive meta := NameValue (path : string) (value : literal) | NameArray (path : string) (elems : list literal) | OtherMeta.

Definition base10_parse (w n : Z) : option Z := if n <? 2 ^ w then Some n else None.

(** Whether a name of the argument list is [p]. *)
Definition is_ident (p q : string) : bool := bool_decide (p = q).

(** A string argument; any other literal leaves [old]. *)
Definition str_value (value : literal) (old : string) : string := match value with LitStr s => s | _ => old end.
(** An integer argument of a [w]-bit type. *)
Definition int_value (w : Z) (value : literal) (old : Z) : option Z :=
  match value with LitInt n => base10_parse w n | _ => Some old end.

(** *** [#[dtact_init(..)]] *)

Record InitArgs := mkInit {
  i_topology : string; i_safety : string; i_workers : Z; i_capacity : Z; i_stack : Z; i_numa : Z
}.

Definition InitArgs_default : InitArgs := mkInit "P2PMesh" "Safety1" 0 4096 (512 * 1024) 0.

Definition init_arg (a : InitArgs) (var : meta) : option InitArgs :=
  match var with
  | NameValue p v =>
      if is_ident p "topology" then
        Some (mkInit (str_value v (i_topology a)) (i_safety a) (i_workers a) (i_capacity a) (i_stack a) (i_numa a))
      else if is_ident p "safety" then
        Some (mkInit (i_topology a) (str_value v (i_safety a)) (i_workers a) (i_capacity a) (i_stack a) (i_numa a))
      else if is_ident p "workers" then
        n ← int_value 64 v (i_workers a);
        Some (mkInit (i_topology a) (i_safety a) n (i_capacity a) (i_stack a) (i_numa a))
      else if is_ident p "capacity" then
        n ← int_value 32 v (i_capacity a);
        Some (mkInit (i_topology a) (i_safety a) (i_workers a) n (i_stack a) (i_numa a))
      else if is_ident p "stack" then
        n ← int_value 64 v (i_stack a);
        Some (mkInit (i_topology a) (i_safety a) (i_workers a) (i_capacity a) n (i_numa a))
      else if is_ident p "numa" then
        n ← int_value 64 v (i_numa a);
        Some (mkInit (i_topology a) (i_safety a) (i_workers a) (i_capacity a) (i_stack a) n)
      else Some a
  | _ => Some a
  end.

(** The loop [for var in vars], which stops at the first error. *)
Fixpoint for_vars {A} (f : A -> meta -> option A) (vars : list meta) (a : A) : option A :=
  match vars with [] => Some a | v :: l => a' ← f a v; for_vars f l a' end.

Definition parse_init (vars : list meta) : option InitArgs := for_vars init_arg vars InitArgs_default.

Definition topology_ident (s : string) : option TopologyMode :=
  if is_ident s "P2PMesh" then Some P2PMesh else if is_ident s "Global" then Some Global
  else if is_ident s "Pinned" then Some Pinned else None.
Definition safety_ident (s : string) : option SafetyLevel :=
  if is_ident s "Safety0" then Some Safety0 else if is_ident s "Safety1" then Some Safety1
  else if is_ident s "Safety2" then Some Safety2 else None.

(** The generated [dtact_autostart]. *)
Definition of_init_args (parallelism : option Z) (a : InitArgs) : option settings :=
  tp ← topology_ident (i_topology a);
  sl ← safety_ident (i_safety a);
  Some (mk (worker_count parallelism (i_workers a)) tp (i_capacity a) (i_stack a) sl (i_numa a)).

Definition of_macro (parallelism : option Z) (vars : list meta) : option settings :=
  parse_init vars ≫= of_init_args parallelism.

(** *** [#[task(..)]] *)

Record TaskArgs := mkTask { t_priority : string; t_affinity : string; t_kind : string; t_stack : string; t_switcher : string }.

Definition TaskArgs_default : TaskArgs := mkTask "Normal" "SameCore" "Compute" "2M" "CrossThreadFloat".

Definition task_arg (a : TaskArgs) (var : meta) : option TaskArgs :=
  match var with
  | NameValue p v => Some
      (if is_ident p "priority" then mkTask (str_value v (t_priority a)) (t_affinity a) (t_kind a) (t_stack a) (t_switcher a)
       else if is_ident p "affinity" then mkTask (t_priority a) (str_value v (t_affinity a)) (t_kind a) (t_stack a) (t_switcher a)
       else if is_ident p "kind" then mkTask (t_priority a) (t_affinity a) (str_value v (t_kind a)) (t_stack a) (t_switcher a)
       else if is_ident p "stack" then mkTask (t_priority a) (t_affinity a) (t_kind a) (str_value v (t_stack a)) (t_switcher a)
       else if is_ident p "switcher" then mkTask (t_priority a) (t_affinity a) (t_kind a) (t_stack a) (str_value v (t_switcher a))
       else a)
  | _ => Some a
  end.

Definition parse_task (vars : list meta) : option TaskArgs := for_vars task_arg vars TaskArgs_default.

Definition affinity_ident (s : string) : option Affinity :=
  if is_ident s "SameCore" then Some SameCore else if is_ident s "SameCCX" then Some SameCCX
  else if is_ident s "SameNUMA" then Some SameNUMA else if is_ident s "Any" then Some Any else None.
Definition kind_ident (s : string) : option WorkloadKind :=
  if is_ident s "Compute" then Some Compute else if is_ident s "IO" then Some IO
  else if is_ident s "Memory" then Some Memory else if is_ident s "System" then Some System else None.
Definition switcher_ident (s : string) : option Switcher :=
  if is_ident s "CrossThreadFloat" then Some CrossThreadFloat
  else if is_ident s "CrossThreadNoFloat" then Some CrossThreadNoFloat
  else if is_ident s "SameThreadFloat" then Some SameThreadFloat
  else if is_ident s "SameThreadNoFloat" then Some SameThreadNoFloat else None.
Definition priority_ident (s : string) : option Priority :=
  if is_ident s "Low" then Some Low else if is_ident s "Normal" then Some Normal
  else if is_ident s "High" then Some High else if is_ident s "Critical" then Some Critical else None.

(** The [TaskFuture] a task function returns, without its future. *)
Record TaskFuture := mkTaskFuture { f_priority : Priority; f_affinity : Affinity; f_kind : WorkloadKind; f_switcher : Switcher }.

Definition of_task_args (a : TaskArgs) : option TaskFuture :=
  p ← priority_ident (t_priority a); af ← affinity_ident (t_affinity a);
  k ← kind_ident (t_kind a); sw ← switcher_ident (t_switcher a); Some (mkTaskFuture p af k sw).

(** *** [SpawnBuilder] of api.rs *)

Record SpawnBuilder := mkBuilder {
  b_name : option string; b_affinity : Affinity; b_priority : Priority; b_kind : WorkloadKind;
  b_mode : TopologyMode; b_safety : SafetyLevel; b_switcher : Switcher
}.

Definition SpawnBuilder_new (sw : Switcher) : SpawnBuilder := mkBuilder None SameCore Normal Compute P2PMesh Safety0 sw.

Definition set_kind (k : WorkloadKind) (b : SpawnBuilder) : SpawnBuilder :=
  mkBuilder (b_name b) (b_affinity b) (b_priority b) k (b_mode b) (b_safety b) (b_switcher b).
Definition set_topology_mode (m : TopologyMode) (b : SpawnBuilder) : SpawnBuilder :=
  mkBuilder (b_name b) (b_affinity b) (b_priority b) (b_kind b) m (b_safety b) (b_switcher b).
Definition set_safety (l : SafetyLevel) (b : SpawnBuilder) : SpawnBuilder :=
  mkBuilder (b_name b) (b_affinity b) (b_priority b) (b_kind b) (b_mode b) l (b_switcher b).
Definition set_name (n : string) (b : SpawnBuilder) : SpawnBuilder :=
  mkBuilder (Some n) (b_affinity b) (b_priority b) (b_kind b) (b_mode b) (b_safety b) (b_switcher b).
Definition set_affinity (a : Affinity) (b : SpawnBuilder) : SpawnBuilder :=
  mkBuilder (b_name b) a (b_priority b) (b_kind b) (b_mode b) (b_safety b) (b_switcher b).
Definition set_priority (q : Priority) (b : SpawnBuilder) : SpawnBuilder :=
  mkBuilder (b_name b) (b_affinity b) q (b_kind b) (b_mode b) (b_safety b) (b_switcher b).
Definition set_switcher (sw : Switcher) (b : SpawnBuilder) : SpawnBuilder :=
  mkBuilder (b_name b) (b_affinity b) (b_priority b) (b_kind b) (b_mode b) (b_safety b) sw.

(** [SpawnerTag::spawn]. *)
Definition task_builder (t : TaskFuture) : SpawnBuilder :=
  set_kind (f_kind t) (set_affinity (f_affinity t) (set_priority (f_priority t) (SpawnBuilder_new (f_switcher t)))).

(** What [spawn] stores of the builder in the context: switcher, kind, mode and affinity. *)
Definition spawn_fields (b : SpawnBuilder) : Switcher * WorkloadKind * TopologyMode * Affinity :=
  (b_switcher b, b_kind b, if ALLOW_DEFLECTION (b_switcher b) then b_mode b else Pinned, b_affinity b).

(** *** [#[dtact_io_init(..)]], [#[fs_init(..)]] and [#[process_init(..)]] *)

Record IoInitArgs := mkIo {
  io_workers : Z; io_buffer_pool_size : Z; io_chunk_size : Z; io_pin_cpus : list Z; io_ring_depth : Z
}.

Definition IoInitArgs_default : IoInitArgs := mkIo 1 65536 4096 [] 256.

(** The elements that are integers, in order. *)
Fixpoint int_elems (elems : list literal) : option (list Z) :=
  match elems with
  | [] => Some []
  | LitInt n :: l => x ← base10_parse 64 n; r ← int_elems l; Some (x :: r)
  | _ :: l => int_elems l
  end.

Definition io_arg (a : IoInitArgs) (var : meta) : option IoInitArgs :=
  match var with
  | NameValue p v =>
      if is_ident p "workers" then
        n ← int_value 64 v (io_workers a);
        Some (mkIo n (io_buffer_pool_size a) (io_chunk_size a) (io_pin_cpus a) (io_ring_depth a))
      else if is_ident p "buffer_pool_size" then
        n ← int_value 64 v (io_buffer_pool_size a);
        Some (mkIo (io_workers a) n (io_chunk_size a) (io_pin_cpus a) (io_ring_depth a))
      else if is_ident p "chunk_size" then
        n ← int_value 64 v (io_chunk_size a);
        Some (mkIo (io_workers a) (io_buffer_pool_size a) n (io_pin_cpus a) (io_ring_depth a))
      else if is_ident p "ring_depth" then
        n ← int_value 32 v (io_ring_depth a);
        Some (mkIo (io_workers a) (io_buffer_pool_size a) (io_chunk_size a) (io_pin_cpus a) n)
      else Some a
  | NameArray p elems =>
      if is_ident p "pin_cpus" then
        l ← int_elems elems;
        Some (mkIo (io_workers a) (io_buffer_pool_size a) (io_chunk_size a) (io_pin_cpus a ++ l) (io_ring_depth a))
      else Some a
  | OtherMeta => Some a
  end.

Definition parse_io (vars : list meta) : option IoInitArgs := for_vars io_arg vars IoInitArgs_default.

(** The arguments of the generated call of [init_runtime], [init_fs] or [init_process]. *)
Definition io_call (a : IoInitArgs) : Z * Z * Z * Z * list Z :=
  (io_workers a, io_ring_depth a, io_buffer_pool_size a, io_chunk_size a, io_pin_cpus a).

(** ** Properties *)

(** The fields of [dtact_config_t] are u32 and u8. *)
Definition config_ok (c : dtact_config_t) : Prop :=
  is_word 32 (c_workers c) /\ is_word 8 (c_safety_level c) /\ is_word 8 (c_topology_mode c) /\ is_word 8 (c_numa c) /\
  is_word 32 (c_fiber_capacity c) /\ is_word 32 (c_stack_size c).

(** A configuration of the C interface, written as arguments of the macro. *)
Definition as_args (parallelism : option Z) (c : dtact_config_t) : list meta :=
  let s := of_config parallelism c in
  [NameValue "topology" (LitStr (match topology s with P2PMesh => "P2PMesh" | Global => "Global" | Pinned => "Pinned" end));
   NameValue "safety" (LitStr (match safety s with Safety0 => "Safety0" | Safety1 => "Safety1" | Safety2 => "Safety2" end));
   NameValue "workers" (LitInt (c_workers c));
   NameValue "capacity" (LitInt (capacity s));
   NameValue "stack" (LitInt (stack_size s));
   NameValue "numa" (LitInt (numa s))].

Lemma st_base10 w n : 0 <= n < 2 ^ w -> base10_parse w n = Some n.
Proof. unfold base10_parse. intros [_ H]. by rewrite (proj2 (Z.ltb_lt _ _) H). Qed.

Lemma st_word_mono w v n : 0 <= w <= v -> is_word w n -> is_word v n.
Proof. unfold is_word. intros Hw Hn. pose proof (Z.pow_le_mono_r 2 w v). lia. Qed.

Lemma st_parse_all tp sl w cap st nu :
  is_word 64 w -> is_word 32 cap -> is_word 64 st -> is_word 64 nu ->
  parse_init [NameValue "topology" (LitStr tp); NameValue "safety" (LitStr sl); NameValue "workers" (LitInt w);
              NameValue "capacity" (LitInt cap); NameValue "stack" (LitInt st); NameValue "numa" (LitInt nu)] =
  Some (mkInit tp sl w cap st nu).
Proof.
  intros Hw Hc Hs Hn. cbv -[base10_parse].
  rewrite (st_base10 64 w Hw). cbv -[base10_parse]. rewrite (st_base10 32 cap Hc). cbv -[base10_parse].
  rewrite (st_base10 64 st Hs). cbv -[base10_parse]. by rewrite (st_base10 64 nu Hn).
Qed.

Lemma st_topology c par : topology_ident
  match topology (of_config par c) with P2PMesh => "P2PMesh" | Global => "Global" | Pinned => "Pinned" end
  = Some (topology (of_config par c)).
Proof. by destruct (topology (of_config par c)). Qed.

Lemma st_safety c par : safety_ident
  match safety (of_config par c) with Safety0 => "Safety0" | Safety1 => "Safety1" | Safety2 => "Safety2" end
  = Some (safety (of_config par c)).
Proof. by destruct (safety (of_config par c)). Qed.


Lemma st_macro_never_out_of_range vars a : parse_init vars = Some a ->
  i_workers a < 2 ^ 64 /\ i_capacity a < 2 ^ 32 /\ i_stack a < 2 ^ 64 /\ i_numa a < 2 ^ 64.
Proof.
  unfold parse_init.
  assert (forall b, i_workers b < 2 ^ 64 /\ i_capacity b < 2 ^ 32 /\ i_stack b < 2 ^ 64 /\ i_numa b < 2 ^ 64 ->
    for_vars init_arg vars b = Some a ->
    i_workers a < 2 ^ 64 /\ i_capacity a < 2 ^ 32 /\ i_stack a < 2 ^ 64 /\ i_numa a < 2 ^ 64) as H; [|by apply H].
  assert (forall w v old n, int_value w v old = Some n -> old < 2 ^ w -> n < 2 ^ w) as Hi.
  { intros w v old n E Ho. destruct v as [|x|]; simpl in E; try (by injection E as <-). unfold base10_parse in E.
    destruct (Z.ltb_spec x (2 ^ w)); [|done]. by injection E as <-. }
  induction vars as [|v l IH]; intros b Hb E; simpl in E; [by injection E as <-|].
  destruct (init_arg b v) as [b'|] eqn:Eb; [|done]. apply (IH b'); [|done].
  destruct Hb as (H1 & H2 & H3 & H4). destruct v as [p x| |]; simpl in Eb; [|by injection Eb as <-..].
  repeat case_match; try (injection Eb as <-; simpl; done).
  all: match type of Eb with context [int_value ?w ?v ?o] => destruct (int_value w v o) as [n|] eqn:En end; [|done];
    injection Eb as <-; apply Hi in En; simpl; done.
Qed.

(** Neither an argument that is not known nor one of the wrong kind is reported: the number of workers given as a string is
    ignored, and with it a misspelt name. *)
Lemma macro_ignores_mistakes parallelism :
  of_macro parallelism [NameValue "workers" (LitStr "8"); NameValue "worker" (LitInt 8)] = of_macro parallelism [].
Proof. done. Qed.

(** What a task's fiber is spawned with: every argument is used but the stack size and, later, the priority, which
    [spawn] does not look at. *)
Lemma task_fields (a : TaskArgs) (t : TaskFuture) : of_task_args a = Some t ->
  (forall st, of_task_args (mkTask (t_priority a) (t_affinity a) (t_kind a) st (t_switcher a)) = Some t) /\
  (forall q, spawn_fields (set_priority q (task_builder t)) = spawn_fields (task_builder t)) /\
  spawn_fields (task_builder t) =
    (f_switcher t, f_kind t, if ALLOW_DEFLECTION (f_switcher t) then P2PMesh else Pinned, f_affinity t).
Proof. intros E. by split. Qed.


End Settings.
