(* ===== verification/Topology.v ===== *)
(** * Topology

    The module [topology] of src/src/api.rs: how the location of the running core is decoded from what the
    hardware reports, the cache around it, and the worker that a fiber launched by a host thread starts on.
    What the processor answers is a parameter: the leaf 0xB of CPUID, MPIDR_EL1, mhartid,
    the time-stamp counter and the number of the processor.  Shifts and subtractions are checked,
    as in a build with overflow checks. *)

From S2P Require Import Prelude.

Module Topology.

Record CpuLevel := mkCpu { core_id : Z; ccx_id : Z; numa_id : Z }.

#[export] Instance CpuLevel_eq_dec : EqDecision CpuLevel.
Proof. solve_decision. Defined.

(** The answers: EDX and EAX of CPUID for subleaf 0, EAX for subleaf 1; the system registers. *)
Record hardware := Hw { edx : Z; eax0 : Z; eax1 : Z; mpidr_el1 : Z; mhartid : Z }.

Inductive arch := X86 | Aarch64 (linux : bool) | Riscv64 (kernel : bool) | OtherArch.

Definition checked_shl (x n : Z) : outcome Z := if n <? 32 then Done (wrap 32 (Z.shiftl x n)) else Panic.
Definition checked_shr (x n : Z) : outcome Z := if n <? 32 then Done (Z.shiftr x n) else Panic.
Definition checked_sub (x y : Z) : outcome Z := if x <? y then Panic else Done (x - y).

Definition current_raw (a : arch) (h : hardware) : outcome CpuLevel :=
  match a with
  | X86 =>
      let x2apic_id := edx h in let core_shift := eax0 h in let package_shift := eax1 h in
      m1 ← checked_shl 1 core_shift; k1 ← checked_sub m1 1;
      let core := Z.land x2apic_id k1 in
      rest ← checked_shr x2apic_id core_shift;
      d ← checked_sub package_shift core_shift;
      m2 ← checked_shl 1 d; k2 ← checked_sub m2 1;
      let ccx := Z.land rest k2 in
      numa ← checked_shr x2apic_id package_shift;
      Done (mkCpu (Z.land core 0xFFFF) (Z.land ccx 0xFFFF) (Z.land numa 0xFFFF))
  | Aarch64 true =>
      Done (mkCpu (Z.land (mpidr_el1 h) 0xFF) (Z.land (Z.shiftr (mpidr_el1 h) 8) 0xFF)
              (Z.land (Z.shiftr (mpidr_el1 h) 16) 0xFF))
  | Riscv64 true => Done (mkCpu (Z.land (mhartid h) 0xFFFF) (wrap 16 (Z.shiftr (mhartid h) 16)) 0)
  | _ => Done (mkCpu 0 0 0)
  end.

(** The thread's [CACHED] and the global [TOPOLOGY_EPOCH]. *)
Record cache := Cache { level : CpuLevel; last_refresh : Z }.
Definition CACHED : cache := Cache (mkCpu 0 0 0) 0.

(** [current], when [get_tick_with_cpu] answers [(now, cpu_id)]; the flag tells whether the hardware was asked. *)
Definition current (a : arch) (h : hardware) (now cpu_id : Z) (c : cache) (epoch : Z)
  : outcome (bool * CpuLevel * cache * Z) :=
  if (100000 <? wsub 64 now (last_refresh c)) || negb (core_id (level c) =? cpu_id) then
    next_cpu ← current_raw a h;
    if bool_decide (next_cpu = level c) then Done (true, level c, Cache (level c) now, epoch)
    else Done (true, next_cpu, Cache next_cpu now, wadd 64 epoch 1)
  else Done (false, level c, c, epoch).

Definition current_core (cpu : CpuLevel) : Z := core_id cpu.

(** The worker a new fiber belongs to ([SpawnBuilder::spawn]): the one that runs the caller, or, for a host thread,
    the one its core is mapped to. *)
Definition spawn_core (current_worker_id workers : Z) (cpu : CpuLevel) : outcome Z :=
  if current_worker_id <? workers then Done current_worker_id
  else if workers =? 0 then Panic else Done (core_id cpu `mod` workers).

(** ** Decoding *)

Lemma tp_mask n : 0 <= n < 32 -> (m ← checked_shl 1 n; checked_sub m 1) = Done (Z.ones n).
Proof.
  intros Hn. unfold checked_shl, checked_sub. rewrite (proj2 (Z.ltb_lt n 32)) by lia. simpl.
  unfold wrap. rewrite Z.shiftl_1_l. pose proof (Z.pow_lt_mono_r 2 n 32 ltac:(lia) ltac:(lia) ltac:(lia)).
  pose proof (Z.pow_pos_nonneg 2 n ltac:(lia) ltac:(lia)). rewrite Z.mod_small by lia.
  rewrite (proj2 (Z.ltb_ge _ _)) by lia. by rewrite Z.ones_equiv, Z.sub_1_r.
Qed.

Lemma tp_low16 x : Z.land x 0xFFFF = x `mod` 2 ^ 16.
Proof. exact (Z.land_ones x 16 ltac:(lia)). Qed.

(** The fields that the shifts cut the identifier into. *)
Lemma tp_x86 h s p : eax0 h = s -> eax1 h = p -> 0 <= s <= p -> p < 32 -> 0 <= edx h ->
  current_raw X86 h = Done (mkCpu ((edx h `mod` 2 ^ s) `mod` 2 ^ 16)
                                  (((edx h / 2 ^ s) `mod` 2 ^ (p - s)) `mod` 2 ^ 16) ((edx h / 2 ^ p) `mod` 2 ^ 16)).
Proof.
  intros Es Ep Hs Hp Hx. unfold current_raw. rewrite Es, Ep. cbv zeta.
  pose proof (tp_mask s ltac:(lia)) as M1. pose proof (tp_mask (p - s) ltac:(lia)) as M2.
  destruct (checked_shl 1 s) as [m1| |]; [|done..]. cbn [mbind outcome_bind] in *. rewrite M1. cbn [mbind outcome_bind].
  unfold checked_shr. rewrite !(proj2 (Z.ltb_lt _ 32)) by lia. cbn [mbind outcome_bind].
  assert (checked_sub p s = Done (p - s)) as -> by (unfold checked_sub; by rewrite (proj2 (Z.ltb_ge p s)) by lia).
  cbn [mbind outcome_bind].
  destruct (checked_shl 1 (p - s)) as [m2| |]; [|done..]. cbn [mbind outcome_bind] in *. rewrite M2. cbn [mbind outcome_bind].
  rewrite !tp_low16, !Z.land_ones, !Z.shiftr_div_pow2 by lia.
  done.
Qed.

(** Cutting a number in three and putting it together again. *)
Lemma tp_recompose x s p : 0 <= s <= p -> x = x `mod` 2 ^ s + 2 ^ s * ((x / 2 ^ s) `mod` 2 ^ (p - s)) + 2 ^ p * (x / 2 ^ p).
Proof.
  intros Hs. pose proof (Z.pow_pos_nonneg 2 s). pose proof (Z.pow_pos_nonneg 2 (p - s)).
  assert (E : 2 ^ p = 2 ^ s * 2 ^ (p - s)) by (rewrite <- Z.pow_add_r by lia; f_equal; lia).
  pose proof (Z.div_mod x (2 ^ s) ltac:(lia)) as H1.
  pose proof (Z.div_mod (x / 2 ^ s) (2 ^ (p - s)) ltac:(lia)) as H2. rewrite Z.div_div in H2 by lia.
  rewrite E. nia.
Qed.

(** The decoding of the x2APIC identifier loses nothing: as long as the processor reports the width [s] of the first level and
    [p] of the first two with [s <= p < 32], it does not panic, and the three fields, before they are cut to
    16 bits, make up the identifier.  But the first level is that of the hardware threads of a core,
    so what is called the core is below [2 ^ s]: with two threads per core, two cores of a package are told apart only by the second
    field, every host thread starts its fibers on worker 0 or 1, and on a processor whose number is [2 ^ s] or more the cache
    of [current] is refreshed by every call. *)
Theorem x86_topology_decodes (h : hardware) (s p : Z) :
  eax0 h = s -> eax1 h = p -> 0 <= s <= p -> p < 32 -> is_word 32 (edx h) ->
  exists cpu, current_raw X86 h = Done cpu /\
    (s <= 16 -> p - s <= 16 -> 16 <= p ->
       edx h = core_id cpu + 2 ^ s * ccx_id cpu + 2 ^ p * numa_id cpu) /\
    0 <= core_id cpu < 2 ^ s /\
    (forall id n, 0 < n <= id -> exists w, spawn_core id n cpu = Done w /\ 0 <= w < Z.min n (2 ^ s)) /\
    (forall now cpu_id c epoch, core_id (level c) < 2 ^ s <= cpu_id ->
       exists l c' e', current X86 h now cpu_id c epoch = Done (true, l, c', e') /\ level c' = cpu /\ core_id (level c') < 2 ^ s).
Proof.
  intros Es Ep Hs Hp [Hx0 Hx]. eexists. split; [by apply tp_x86|].
  pose proof (Z.pow_pos_nonneg 2 s ltac:(lia) ltac:(lia)) as Hs2. pose proof (Z.pow_pos_nonneg 2 p ltac:(lia) ltac:(lia)) as Hp2.
  pose proof (Z.mod_pos_bound (edx h) (2 ^ s) Hs2) as B1. set (x := edx h) in *.
  assert (Hc : 0 <= (x `mod` 2 ^ s) `mod` 2 ^ 16 < 2 ^ s).
  { pose proof (Z.mod_pos_bound (x `mod` 2 ^ s) (2 ^ 16) ltac:(lia)).
    pose proof (Z.mod_le (x `mod` 2 ^ s) (2 ^ 16) ltac:(lia) ltac:(lia)). lia. }
  split_and!; simpl; try lia.
  - intros H1 H2 H3. pose proof (Z.mod_pos_bound (x / 2 ^ s) (2 ^ (p - s)) ltac:(apply Z.pow_pos_nonneg; lia)) as B2.
    pose proof (Z.pow_le_mono_r 2 s 16 ltac:(lia) ltac:(lia)). pose proof (Z.pow_le_mono_r 2 (p - s) 16 ltac:(lia) ltac:(lia)).
    pose proof (Z.pow_le_mono_r 2 16 p ltac:(lia) ltac:(lia)).
    assert (0 <= x / 2 ^ p < 2 ^ 16).
    { split; [apply Z.div_pos; lia|]. apply Z.div_lt_upper_bound; [lia|]. change (2 ^ 32) with (2 ^ 16 * 2 ^ 16) in Hx. nia. }
    rewrite !(Z.mod_small _ (2 ^ 16)) by lia. by apply tp_recompose.
  - intros id n Hn. unfold spawn_core. simpl. rewrite (proj2 (Z.ltb_ge id n)), (proj2 (Z.eqb_neq n 0)) by lia.
    eexists. split; [done|]. pose proof (Z.mod_pos_bound ((x `mod` 2 ^ s) `mod` 2 ^ 16) n ltac:(lia)).
    pose proof (Z.mod_le ((x `mod` 2 ^ s) `mod` 2 ^ 16) n ltac:(lia) ltac:(lia)). lia.
  - intros now cpu_id c epoch Hcpu. unfold current.
    rewrite (proj2 (Z.eqb_neq _ _)), orb_true_r by lia. rewrite (tp_x86 h s p) by done. cbn [mbind outcome_bind].
    case_bool_decide as E; do 3 eexists; (split; [done|]); (split; [done|]); simpl; fold x; [rewrite <- E; simpl; fold x; lia|lia].
Qed.

(** The answer is never older than 100000 ticks, nor that of another processor when the processor is numbered as the
    decoding numbers it. *)
Lemma current_is_fresh a h now cpu_id c epoch b l c' e' :
  current a h now cpu_id c epoch = Done (b, l, c', e') ->
  level c' = l /\ (b = true -> current_raw a h = Done l /\ last_refresh c' = now) /\
  (b = false -> c' = c /\ e' = epoch /\ core_id l = cpu_id /\ wsub 64 now (last_refresh c) <= 100000) /\
  (e' <> epoch -> l <> level c).
Proof.
  unfold current. destruct (Z.ltb_spec 100000 (wsub 64 now (last_refresh c))); simpl;
    [|destruct (Z.eqb_spec (core_id (level c)) cpu_id); simpl].
  2: { intros [= <- <- <- <-]. split_and!; done. }
  all: destruct (current_raw a h) as [cpu| |]; [|done..]; cbn [mbind outcome_bind];
    case_bool_decide; intros [= <- <- <- <-]; simplify_eq/=; split_and!; done.
Qed.

(** Two threads per core, eight cores in a package: processor 5 of package 0. *)
Definition a_laptop : hardware := Hw 5 1 4 0 0.

Lemma x86_topology_decodes_witness :
  current_raw X86 a_laptop = Done (mkCpu 1 2 0) /\
  exists cpu, current_raw X86 a_laptop = Done cpu /\ 0 <= core_id cpu < 2 ^ 1.
Proof.
  split; [vm_compute; reflexivity|].
  destruct (x86_topology_decodes a_laptop 1 4 eq_refl eq_refl ltac:(lia) ltac:(lia) ltac:(unfold is_word; simpl; lia))
    as (cpu & E & _ & Hc & _). exists cpu. split; [exact E|exact Hc].
Defined.

End Topology.
