(* ===== verification/Runtime.v ===== *)
(** * Runtime

    The runtime as a whole: [Runtime] and [start] of src/src/lib.rs, [dtact_init], [dtact_run] and [dtact_shutdown] of
    src/src/c_ffi.rs, the start-up code that the [dtact_init] macro generates, and
    [config::set_deflection_threshold] of src/src/api.rs.

    A process holds the global runtime and its worker threads; a thread takes one turn of its loop
    ([RunWorker.iteration]) at a time, host threads enqueue in between.  The fibers are the program's, as in RunWorker.v; the
    memory comes from the system (OsMemory.v). *)

From S2P Require Import Prelude Ring Types Fifo Mailbox Vyukov Warehouse Worker Scheduler SchedulerRun RunWorker.
From S2P Require Import ContextPool OsMemory Settings.
Import RunWorker (report, Report, also, nothing, accepted, dispatched).
Import Settings (settings).

Module Runtime.
Section runtime.
Context {S W : Type} (os : OsMemory.Os S) (target : OsMemory.target).
Context (fiber_context_size page : Z) (protect : Z -> bool).     (* the layout, and what [mprotect] answers *)
Context (fiber : TaskIndex -> W -> RunWorker.slice * W) (fuel : nat).

(** Its [shutdown] is [stopping] here. *)
Record Runtime := mkRuntime { scheduler : DtaScheduler; pool : Pool.t; started : bool; stopping : bool }.

(** A worker thread: the index it was given, and the [idle_count] of its loop. *)
Record thread := Thread { core : Z; idle_count : Z }.

(** [log]: all that was accepted and run so far. *)
Record process := Process {
  global : option Runtime;
  threads : list thread;
  memory : S;
  world : W;
  log : report
}.

Definition set_global (r : Runtime) (p : process) : process :=
  Process (Some r) (threads p) (memory p) (world p) (log p).
Definition set_threads (ts : list thread) (p : process) : process :=
  Process (global p) ts (memory p) (world p) (log p).
Definition set_scheduler (s : DtaScheduler) (r : Runtime) : Runtime := mkRuntime s (pool r) (started r) (stopping r).

(** ** Start-up *)

(** [ContextPool::new]: the arena from the system, then its contexts. *)
Definition pool_new (st : settings) (s : S) : outcome (result Pool.t Pool.PoolError * S) :=
  let slot := Pool.slot_bytes fiber_context_size (Settings.stack_size st) page in
  let total := Pool.arena_bytes (Settings.safety st) (Settings.capacity st) slot page in
  let '(a, s') := OsMemory.allocate_arena os target (total + 4096) (Settings.safety st) (Settings.numa st) s in
  r ← Pool.new fiber_context_size page (match a with Ok base => Some base | Err _ => None end) protect
        (Settings.capacity st) (Settings.stack_size st) (Settings.safety st);
  Done (r, s').

(** [GLOBAL_RUNTIME.get_or_init(..)] of [dtact_init] and of the generated [dtact_autostart]. *)
Definition get_or_init (st : settings) (p : process) : outcome process :=
  match global p with
  | Some _ => Done p
  | None =>
      '(r, s) ← pool_new st (memory p);
      match r with
      | Err _ => Panic
      | Ok pl =>
          let rt := mkRuntime (DtaScheduler_new (Settings.workers st) (Settings.topology st)) pl false false in
          Done (Process (Some rt) (threads p) s (world p) (log p))
      end
  end.

Definition dtact_init (parallelism : option Z) (cfg : Settings.dtact_config_t) (p : process) : outcome process :=
  get_or_init (Settings.of_config parallelism cfg) p.

Definition get_runtime (p : process) : outcome Runtime := some_or_panic (global p).

(** The threads of one call of [start] or [dtact_run]; a thread that cannot be created is a panic there. *)
Definition worker_threads (r : Runtime) : list thread := (fun i => Thread i 0) <$> seqZ 0 (Dta.num_workers (scheduler r)).

Definition start (p : process) : outcome process :=
  r ← get_runtime p;
  if started r then Done p
  else Done (set_threads (threads p ++ worker_threads r)
               (set_global (mkRuntime (scheduler r) (pool r) true (stopping r)) p)).

(** The generated [dtact_autostart]. *)
Definition autostart (st : settings) (p : process) : outcome process := p' ← get_or_init st p; start p'.

(** [dtact_run] until it waits for the threads it has created. *)
Definition dtact_run (p : process) : outcome process :=
  r ← get_runtime p; Done (set_threads (threads p ++ worker_threads r) p).

Definition dtact_shutdown (p : process) : process :=
  match global p with
  | None => p
  | Some r =>
      let s := scheduler r in
      set_global (mkRuntime (Dta.set_workers (Worker.bump_signal <$> workers s) s) (pool r) (started r) true) p
  end.

(** [config::set_deflection_threshold(core_id, threshold)]. *)
Definition set_threshold (threshold : Z) (w : Worker.t) : Worker.t := Worker.set_ticks (Worker.ticks w) threshold w.
Definition set_deflection_threshold (core_id threshold : Z) (p : process) : process :=
  match global p with
  | None => p
  | Some r =>
      let s := scheduler r in
      if core_id <? Dta.num_workers s then
        set_global (set_scheduler (Dta.set_workers (alter (set_threshold threshold) (Z.to_nat core_id) (workers s)) s) r) p
      else p
  end.

(** ** Running *)

(** Thread [k] at the top of its loop. *)
Definition turn (k : nat) (p : process) : outcome process :=
  match threads p !! k with
  | None => Done p
  | Some th =>
      r ← get_runtime p;
      if stopping r then Done (set_threads (delete k (threads p)) p)
      else
        '(i, rep, w, s) ← RunWorker.iteration fiber fuel (core th) (idle_count th) (world p) (scheduler r);
        Done (Process (Some (set_scheduler s r)) (<[k := Thread (core th) i]> (threads p)) (memory p) w
                (also (log p) rep))
  end.

(** A host thread enqueues a task. *)
Definition host (o : op) (p : process) : outcome process :=
  r ← get_runtime p;
  '(a, d, s) ← apply_op o (scheduler r);
  Done (Process (Some (set_scheduler s r)) (threads p) (memory p) (world p) (also (log p) (Report a d []))).

Inductive label :=
| LInit (st : settings)
| LAutostart (st : settings)
| LStart
| LRun
| LShutdown
| LThreshold (core_id threshold : Z)
| LTurn (k : nat)
| LHost (o : op).

Definition exec (l : label) (p : process) : outcome process :=
  match l with
  | LInit st => get_or_init st p
  | LAutostart st => autostart st p
  | LStart => start p
  | LRun => dtact_run p
  | LShutdown => Done (dtact_shutdown p)
  | LThreshold c th => Done (set_deflection_threshold c th p)
  | LTurn k => turn k p
  | LHost o => host o p
  end.

Fixpoint run (ls : list label) (p : process) : outcome process :=
  match ls with [] => Done p | l :: ls' => p' ← exec l p; run ls' p' end.

Definition fresh (s : S) (w : W) : process := Process None [] s w nothing.

(** ** Conservation *)

(** Between 1 and 2^16 workers, on each of which the fibers enqueue from their own worker; host threads
    enqueue from outside; a threshold is a u8. *)
Definition settings_ok (st : settings) : Prop :=
  0 < Settings.workers st <= 2 ^ 16 /\
  forall c, 0 <= c < Settings.workers st -> RunWorker.well_behaved fiber (Settings.workers st) c.

Definition host_op (o : op) : Prop :=
  match o with EnqueuePinned cur _ _ | EnqueueDeflect cur _ _ _ _ => cur = HOST | _ => False end.

Definition valid (l : label) : Prop :=
  match l with
  | LInit st | LAutostart st => settings_ok st
  | LThreshold c th => 0 <= c /\ 0 <= th <= U8_MAX
  | LHost o => host_op o
  | _ => True
  end.

Record runtime_ok (n : Z) (p : process) (r : Runtime) : Prop := {
  ro_n : 0 < n <= 2 ^ 16;
  ro_fibers : forall c, 0 <= c < n -> RunWorker.well_behaved fiber n c;
  ro_sched : Dta.sched_ok n (scheduler r);
  ro_tasks : dispatched (log p) ++ Dta.all_tasks (scheduler r) ≡ₚ accepted (log p);
  ro_cores : Forall (fun th => 0 <= core th < n) (threads p)
}.

Definition inv (p : process) : Prop :=
  match global p with
  | None => threads p = [] /\ log p = nothing
  | Some r => exists n, runtime_ok n p r
  end.

Lemma rt_get_or_init st p p' : settings_ok st -> inv p -> get_or_init st p = Done p' -> inv p'.
Proof.
  intros Hs Hi E. unfold get_or_init, inv in *. destruct (global p) as [r|] eqn:Eg; [injection E as <-; by rewrite Eg|].
  destruct (pool_new st (memory p)) as [[[pl|] s]| |]; [|done..]. cbn [mbind outcome_bind] in E. injection E as <-.
  cbn [global].
  destruct Hi as [Ht Hl], Hs as [Hn Hf]. exists (Settings.workers st).
  split; cbn [scheduler log threads]; [exact Hn|exact Hf|by apply sr_new_ok| |by rewrite Ht].
  rewrite Hl, sr_new_tasks. constructor.
Qed.

Lemma rt_new_threads n r : Dta.sched_ok n (scheduler r) -> Forall (fun th => 0 <= core th < n) (worker_threads r).
Proof.
  intros Hs. unfold worker_threads. rewrite (Dta.sc_num_workers n) by done. apply Forall_fmap, Forall_forall.
  intros i Hi%elem_of_seqZ. simpl. lia.
Qed.

Lemma rt_launch p r ts : inv p -> global p = Some r -> Forall (fun th => th ∈ threads p \/ th ∈ worker_threads r) ts ->
  inv (set_threads ts p).
Proof.
  unfold inv. intros Hi Eg Hf. simpl. rewrite Eg in *. destruct Hi as (n & [Hn Hw Hs Ht Hc]). exists n. split; simpl; try done.
  apply Forall_forall. intros th Hth. rewrite Forall_forall in Hf. rewrite Forall_forall in Hc.
  pose proof (rt_new_threads n r Hs) as Hnew. rewrite Forall_forall in Hnew. destruct (Hf th Hth); auto.
Qed.

Lemma rt_flags p r b1 b2 : inv p -> global p = Some r -> inv (set_global (mkRuntime (scheduler r) (pool r) b1 b2) p).
Proof. unfold inv. intros Hi Eg. rewrite Eg in Hi. destruct Hi as (n & [Hn Hw Hs Ht Hc]). by exists n. Qed.

Lemma rt_perm {A} (d1 d2 a1 a2 t t' : list A) : d2 ++ t' ≡ₚ a2 ++ t -> d1 ++ t ≡ₚ a1 -> (d1 ++ d2) ++ t' ≡ₚ a1 ++ a2.
Proof. intros H1 H2. by rewrite <- app_assoc, H1, (Permutation_app_comm a2 t), app_assoc, H2. Qed.

(** A change of the scheduler that accounts for what it took and ran. *)
Lemma rt_evolves n p r s w ts rep : runtime_ok n p r -> Dta.evolves n (dispatched rep) (accepted rep) (scheduler r) s ->
  Forall (fun th => 0 <= core th < n) ts ->
  inv (Process (Some (set_scheduler s r)) ts (memory p) w (also (log p) rep)).
Proof.
  intros [Hn Hw Hs Ht Hc] [Hok He _] Hts. exists n. split; simpl; [done|done|done| |done].
  exact (rt_perm _ _ _ _ _ _ He Ht).
Qed.

(** A worker with the same queue and polling order. *)
Definition like (w w' : Worker.t) : Prop :=
  (Worker.ok w -> Worker.ok w') /\ Worker.polling_order w' = Worker.polling_order w /\
  Worker.local_tasks w' = Worker.local_tasks w.

Lemma rt_set_workers n (s : DtaScheduler) ws : Dta.sched_ok n s -> Forall2 like (workers s) ws ->
  Dta.evolves n [] [] s (Dta.set_workers ws s).
Proof.
  intros [Hn [El Hok] Ho Hm He Hwh Hh] Hws. split; simpl; [split; simpl; try done| |done].
  - split; [by rewrite <- (Forall2_length _ _ _ Hws)|]. clear El Ho.
    induction Hws as [|w w' l l' [H _] _ IH]; [done|]. apply Forall_cons in Hok as [? ?]. constructor; auto.
  - intros i w' Hi. destruct (Forall2_lookup_r _ _ _ _ _ Hws Hi) as (w & Hw & _ & Hp & _).
    unfold Dta.polls_others. rewrite Hp. by apply Ho.
  - unfold Dta.all_tasks. simpl. apply Permutation_app_tail.
    assert (ws ≫= Worker.local_tasks = workers s ≫= Worker.local_tasks) as ->; [|done]. clear El Hok Ho.
    induction Hws as [|w w' l l' (_ & _ & E) _ IH]; [done|].
    change (Worker.local_tasks w' ++ (l' ≫= Worker.local_tasks) = Worker.local_tasks w ++ (l ≫= Worker.local_tasks)).
    by rewrite E, IH.
Qed.

Lemma rt_like_refl l : Forall2 like l l.
Proof. induction l; constructor; by try split_and!. Qed.

Lemma rt_like_bump l : Forall2 like l (Worker.bump_signal <$> l).
Proof. induction l as [|w l IH]; constructor; [|done]. split_and!; [apply Worker.wk_bump_signal_ok|done|done]. Qed.

Lemma rt_like_threshold th i l : 0 <= th <= U8_MAX -> Forall2 like l (alter (set_threshold th) i l).
Proof.
  intros Hth. revert i. induction l as [|w l IH]; intros [|i]; constructor; try apply rt_like_refl; try apply IH.
  - split_and!; [|done|done]. intros (H1 & H2 & H3 & _). exact (conj H1 (conj H2 (conj H3 Hth))).
  - by split_and!.
Qed.

(** Such a change keeps the invariant. *)
Lemma rt_workers p r ws : inv p -> global p = Some r -> Forall2 like (workers (scheduler r)) ws ->
  inv (set_global (set_scheduler (Dta.set_workers ws (scheduler r)) r) p).
Proof.
  unfold inv. intros Hi Eg Hl. rewrite Eg in Hi. destruct Hi as (n & [Hn Hw Hs Ht Hc]).
  pose proof (rt_set_workers n _ ws Hs Hl) as [Hok Hp _].
  exists n. split; cbn [scheduler log threads set_global set_scheduler]; [done|done|done| |done].
  by rewrite Hp.
Qed.

(** Nothing but these failures. *)
Definition steps_to (o : outcome process) : Prop := o = Panic \/ o = OutOfFuel \/ exists p', o = Done p' /\ inv p'.

Lemma rt_done p : inv p -> steps_to (Done p).
Proof. right. right. by exists p. Qed.

Lemma rt_turn k p : inv p -> steps_to (turn k p).
Proof.
  intros Hi. unfold turn. destruct (threads p !! k) as [th|] eqn:Ek; [|by apply rt_done].
  unfold get_runtime. destruct (global p) as [r|] eqn:Eg; [|by left]. cbn [some_or_panic mbind outcome_bind].
  destruct (stopping r).
  - apply rt_done, (rt_launch p r); [done|done|]. apply Forall_delete, Forall_forall. auto.
  - unfold inv in Hi. rewrite Eg in Hi. destruct Hi as (n & Hr). pose proof (ro_cores _ _ _ Hr) as Hc.
    pose proof (Forall_lookup_1 _ _ _ _ Hc Ek) as Hth. simpl in Hth.
    destruct (RunWorker.rw_iteration fiber n (core th) fuel (idle_count th) (world p) (scheduler r)
      (ro_sched _ _ _ Hr) Hth (ro_fibers _ _ _ Hr _ Hth)) as [->|[->|([[[i rep] w] s] & -> & Hev)]];
      [by left|by right; left|]. cbn [mbind outcome_bind].
    apply rt_done, (rt_evolves n); [done|done|]. by apply Forall_insert.
Qed.

Lemma rt_host o p : host_op o -> inv p -> steps_to (host o p).
Proof.
  intros Ho Hi. unfold host, get_runtime. destruct (global p) as [r|] eqn:Eg; [|by left].
  cbn [some_or_panic mbind outcome_bind]. unfold inv in Hi. rewrite Eg in Hi. destruct Hi as (n & Hr).
  assert (valid_op n o) as Hv.
  { pose proof (ro_n _ _ _ Hr). assert (HOST = 2 ^ 64 - 1) as HH by done.
    destruct o; try done; simpl in Ho; subst; simpl; [lia|]. split; [lia|right; lia]. }
  destruct (sr_apply_op n o (scheduler r) (ro_sched _ _ _ Hr) Hv) as [->|(a & d & s & -> & Hev)]; [by left|].
  cbn [mbind outcome_bind]. apply rt_done, (rt_evolves n); [done|done|]. apply (ro_cores _ _ _ Hr).
Qed.

Lemma rt_start p : inv p -> steps_to (start p).
Proof.
  intros Hi. unfold start, get_runtime. destruct (global p) as [r|] eqn:Eg; [|by left].
  cbn [some_or_panic mbind outcome_bind]. destruct (started r); [by apply rt_done|].
  apply rt_done. apply (rt_launch _ (mkRuntime (scheduler r) (pool r) true (stopping r))); [by apply (rt_flags p r)|done|].
  apply Forall_app. split; apply Forall_forall; auto.
Qed.

Lemma rt_init st p : settings_ok st -> inv p -> steps_to (get_or_init st p).
Proof.
  intros Hs Hi. destruct (get_or_init st p) as [p'| |] eqn:E; [|by left|by right; left].
  apply rt_done. by apply (rt_get_or_init st p).
Qed.

Lemma rt_exec l p : valid l -> inv p -> steps_to (exec l p).
Proof.
  intros Hv Hi. destruct l as [st|st| | | |c th|k|o]; simpl in Hv |- *.
  - by apply rt_init.
  - unfold autostart. destruct (rt_init st p Hv Hi) as [->|[->|(p' & -> & Hi')]]; [by left|by right; left|].
    by apply rt_start.
  - by apply rt_start.
  - unfold dtact_run, get_runtime. destruct (global p) as [r|] eqn:Eg; [|by left].
    apply rt_done, (rt_launch p r); [done|done|]. apply Forall_app. split; apply Forall_forall; auto.
  - apply rt_done. unfold dtact_shutdown. destruct (global p) as [r|] eqn:Eg; [|done].
    apply (rt_flags (set_global (set_scheduler (Dta.set_workers (Worker.bump_signal <$> workers (scheduler r)) (scheduler r)) r) p)
             (set_scheduler (Dta.set_workers (Worker.bump_signal <$> workers (scheduler r)) (scheduler r)) r) (started r) true);
      [|done]. apply rt_workers; [done|done|apply rt_like_bump].
  - apply rt_done. unfold set_deflection_threshold. destruct (global p) as [r|] eqn:Eg; [|done].
    destruct (c <? _); [|done]. apply rt_workers; [done|done|]. apply rt_like_threshold, Hv.
  - by apply rt_turn.
  - by apply rt_host.
Qed.

Lemma rt_run ls p : Forall valid ls -> inv p -> steps_to (run ls p).
Proof.
  revert p. induction ls as [|l ls IH]; intros p Hv Hi; simpl; [by apply rt_done|].
  apply Forall_cons in Hv as [Hl Hv]. destruct (rt_exec l p Hl Hi) as [->|[->|(p' & -> & Hi')]];
    [by left|by right; left|]. by apply IH.
Qed.


(** ** One thread per worker *)

(** The threads that run the loop of worker [i]. *)
Definition crew (i : Z) (ts : list thread) : nat := length (filter (fun th => core th = i) ts).
Definition is_started (p : process) : bool := match global p with Some r => started r | None => false end.
Definition is_run (l : label) : bool := match l with LRun => true | _ => false end.
Definition runs (ls : list label) : nat := length (filter (fun l => is_run l = true) ls).

Lemma rt_crew_app i l1 l2 : crew i (l1 ++ l2) = (crew i l1 + crew i l2)%nat.
Proof. unfold crew. by rewrite filter_app, length_app. Qed.

Lemma rt_crew_seq i a n : crew i ((fun k => Thread k 0) <$> seqZ a n) = if (a <=? i) && (i <? a + n) then 1%nat else 0%nat.
Proof.
  destruct (Z.lt_ge_cases n 0) as [Hn|Hn].
  { rewrite seqZ_nil by lia. replace ((a <=? i) && (i <? a + n)) with false by lia. done. }
  revert a. pattern n. apply natlike_ind; [|clear n Hn; intros n Hn IH a|done].
  - intros a. rewrite seqZ_nil by lia. replace ((a <=? i) && (i <? a + 0)) with false by lia. done.
  - rewrite seqZ_cons by lia. rewrite fmap_cons. change (?x :: ?l) with ([x] ++ l). rewrite rt_crew_app.
    replace (Z.pred (Z.succ n)) with n by lia. rewrite IH. unfold crew. rewrite filter_cons, filter_nil. simpl.
    destruct (Z.leb_spec a i), (Z.leb_spec (Z.succ a) i), (Z.ltb_spec i (a + Z.succ n)),
      (Z.ltb_spec i (Z.succ a + n)), (decide (a = i)); simpl; lia.
Qed.

Lemma rt_crew_workers i r : crew i (worker_threads r) =
  if (0 <=? i) && (i <? Dta.num_workers (scheduler r)) then 1%nat else 0%nat.
Proof. apply (rt_crew_seq i 0). Qed.

Lemma rt_crew_workers_le i r : (crew i (worker_threads r) <= 1)%nat.
Proof. rewrite rt_crew_workers. destruct (_ && _); lia. Qed.

Lemma rt_crew_delete i k ts : (crew i (delete k ts) <= crew i ts)%nat.
Proof.
  revert k. induction ts as [|t ts IH]; intros [|k]; [done|done|..].
  - change (crew i ts <= crew i ([t] ++ ts))%nat. rewrite rt_crew_app. lia.
  - change (crew i ([t] ++ delete k ts) <= crew i ([t] ++ ts))%nat. rewrite !rt_crew_app. specialize (IH k). lia.
Qed.

Lemma rt_crew_insert i k th c ts : ts !! k = Some th -> crew i (<[k := Thread (core th) c]> ts) = crew i ts.
Proof.
  intros Hk. rewrite <- (take_drop_middle _ _ _ Hk) at 2. pose proof (lookup_lt_Some _ _ _ Hk).
  rewrite insert_take_drop by done. rewrite !rt_crew_app. f_equal. unfold crew. rewrite !filter_cons. simpl.
  by destruct (decide (core th = i)).
Qed.

(** What a step adds to the crew of a worker. *)
Lemma rt_crew_exec i l p p' : exec l p = Done p' ->
  (crew i (threads p') + Nat.b2n (is_started p) <=
   crew i (threads p) + Nat.b2n (is_started p') + Nat.b2n (is_run l))%nat.
Proof.
  intros E.
  assert (forall st q q', get_or_init st q = Done q' -> threads q' = threads q /\ is_started q' = is_started q) as Hinit.
  { intros st q q' Eq. unfold get_or_init in Eq. destruct (global q) eqn:Eg; [by injection Eq as <-|].
    destruct (pool_new st (memory q)) as [[[pl|] s]| |]; [|done..]. injection Eq as <-. unfold is_started. by rewrite Eg. }
  assert (forall q q', start q = Done q' ->
    (crew i (threads q') + Nat.b2n (is_started q) <= crew i (threads q) + Nat.b2n (is_started q'))%nat) as Hstart.
  { intros q q' Eq. unfold start, get_runtime in Eq. destruct (global q) as [r|] eqn:Eg; [|done].
    cbn [some_or_panic mbind outcome_bind] in Eq. unfold is_started. rewrite Eg.
    destruct (started r) eqn:Es; injection Eq as <-; simpl; [rewrite Eg, Es; done|].
    rewrite rt_crew_app. pose proof (rt_crew_workers_le i r). lia. }
  destruct l as [st|st| | | |c th|k|o]; simpl in E |- *.
  - destruct (Hinit _ _ _ E) as [-> ->]. lia.
  - unfold autostart in E. destruct (get_or_init st p) as [q| |] eqn:Eq; [|done..]. cbn [mbind outcome_bind] in E.
    destruct (Hinit _ _ _ Eq) as [Et Es]. rewrite <- Et, <- Es. specialize (Hstart _ _ E). lia.
  - specialize (Hstart _ _ E). lia.
  - unfold dtact_run, get_runtime in E. destruct (global p) as [r|] eqn:Eg; [|done]. injection E as <-. unfold is_started. simpl.
    rewrite rt_crew_app. pose proof (rt_crew_workers_le i r). lia.
  - injection E as <-. unfold dtact_shutdown, is_started. destruct (global p) as [r|] eqn:Eg; simpl; rewrite ?Eg; lia.
  - injection E as <-. unfold set_deflection_threshold, is_started. destruct (global p) as [r|] eqn:Eg; [|rewrite Eg; lia].
    destruct (c <? _); simpl; rewrite ?Eg; lia.
  - unfold turn in E. destruct (threads p !! k) as [th|] eqn:Ek; [|injection E as <-; lia].
    unfold get_runtime, is_started in *. destruct (global p) as [r|] eqn:Eg; [|done]. cbn [some_or_panic mbind outcome_bind] in E.
    destruct (stopping r).
    + injection E as <-. simpl. rewrite Eg. pose proof (rt_crew_delete i k (threads p)). lia.
    + destruct (RunWorker.iteration _ _ _ _ _ _) as [[[[i' rep] w] s]| |]; [|done..]. injection E as <-. simpl.
      rewrite (rt_crew_insert _ _ _ _ _ Ek). lia.
  - unfold host, get_runtime, is_started in *. destruct (global p) as [r|] eqn:Eg; [|done]. cbn [some_or_panic mbind outcome_bind] in E.
    destruct (apply_op o (scheduler r)) as [[[a d] s]| |]; [|done..]. injection E as <-. simpl. lia.
Qed.

Lemma rt_crew_run i ls p p' : run ls p = Done p' ->
  (crew i (threads p') + Nat.b2n (is_started p) <= crew i (threads p) + Nat.b2n (is_started p') + runs ls)%nat.
Proof.
  revert p. induction ls as [|l ls IH]; intros p E; simpl in E; [injection E as <-; unfold runs; simpl; lia|].
  destruct (exec l p) as [q| |] eqn:Eq; [|done..]. cbn [mbind outcome_bind] in E.
  pose proof (rt_crew_exec i l p q Eq). specialize (IH _ E).
  assert (runs (l :: ls) = (Nat.b2n (is_run l) + runs ls)%nat) as ->; [|lia].
  unfold runs. rewrite filter_cons. by destruct (is_run l).
Qed.

(** A worker is run by one thread, however often and in whatever order the runtime is initialised, started, shut down
    and used, by the C interface and by the generated start-up code: [start] creates the threads at most
    once.  Its run queue and its mailboxes are written for that single consumer.  Only [dtact_run] does not look: each
    call adds one thread to every worker, whether the runtime was started or not. *)
Theorem one_thread_per_worker (ls : list label) (s : S) (w : W) (p : process) (i : Z) : run ls (fresh s w) = Done p ->
  (crew i (threads p) <= runs ls + 1)%nat /\
  (is_started p = false -> (crew i (threads p) <= runs ls)%nat).
Proof.
  intros E. pose proof (rt_crew_run i _ _ _ E) as H. simpl in H. split; [|intros Hs; rewrite Hs in H; simpl in H; lia].
  destruct (is_started p); simpl in H; lia.
Qed.

(** [dtact_run] on a runtime that was started: two threads for every worker. *)
Lemma run_after_start_doubles_crews (p p1 p2 : process) (r : Runtime) (i : Z) :
  global p = Some r -> started r = false -> threads p = [] -> 0 <= i < Dta.num_workers (scheduler r) ->
  start p = Done p1 -> dtact_run p1 = Done p2 -> crew i (threads p2) = 2%nat.
Proof.
  intros Eg Es Et Hi. unfold start, get_runtime. rewrite Eg. cbn [some_or_panic mbind outcome_bind]. rewrite Es.
  intros [= <-]. cbn. intros [= <-]. cbn [threads set_threads]. rewrite Et, !rt_crew_app. cbn [app].
  change (crew i []) with 0%nat. unfold worker_threads at 2. cbn [scheduler]. rewrite (rt_crew_seq i 0), rt_crew_workers.
  rewrite Z.add_0_l. by replace ((0 <=? i) && (i <? Dta.num_workers (scheduler r))) with true by lia.
Qed.

(** ** Shutdown *)

Definition stopped (d : report) (p : process) : Prop :=
  dispatched (log p) = dispatched d /\ exists r, global p = Some r /\ stopping r = true.

Lemma rt_host_dispatches o s a d s' : host_op o -> apply_op o s = Done (a, d, s') -> d = [].
Proof.
  intros Ho E. destruct o; try done; simpl in E.
  - destruct (Dta.enqueue_pinned _ _ _ _) as [[]| |]; simpl in E; by simplify_eq.
  - destruct (Dta.enqueue_deflect _ _ _ _ _ _) as [[]| |]; simpl in E; by simplify_eq.
Qed.

Lemma rt_stopped_exec d l p p' : valid l -> stopped d p -> exec l p = Done p' -> stopped d p'.
Proof.
  intros Hv (Hd & r & Eg & Hs) E. unfold stopped.
  assert (forall q, start p = Done q -> dispatched (log q) = dispatched d /\ exists r', global q = Some r' /\ stopping r' = true)
    as Hstart.
  { intros q Eq. unfold start, get_runtime in Eq. rewrite Eg in Eq. cbn [some_or_panic mbind outcome_bind] in Eq.
    destruct (started r); injection Eq as <-; simpl; eauto. }
  destruct l as [st|st| | | |c th|k|o]; simpl in E, Hv.
  - unfold get_or_init in E. rewrite Eg in E. injection E as <-. eauto.
  - unfold autostart, get_or_init in E. rewrite Eg in E. by apply Hstart.
  - by apply Hstart.
  - unfold dtact_run, get_runtime in E. rewrite Eg in E. injection E as <-. simpl. eauto.
  - injection E as <-. unfold dtact_shutdown. rewrite Eg. simpl. eauto.
  - injection E as <-. unfold set_deflection_threshold. rewrite Eg. destruct (c <? _); simpl; eauto.
  - unfold turn, get_runtime in E. destruct (threads p !! k); [|injection E as <-; eauto].
    rewrite Eg in E. cbn [some_or_panic mbind outcome_bind] in E. rewrite Hs in E. injection E as <-. simpl. eauto.
  - unfold host, get_runtime in E. rewrite Eg in E. cbn [some_or_panic mbind outcome_bind] in E.
    destruct (apply_op o (scheduler r)) as [[[a dd] s]| |] eqn:Ea; [|done..]. injection E as <-. simpl.
    rewrite (rt_host_dispatches _ _ _ _ _ Hv Ea), app_nil_r. eauto.
Qed.

Lemma rt_stopped_run d ls p p' : Forall valid ls -> stopped d p -> run ls p = Done p' -> stopped d p'.
Proof.
  revert p. induction ls as [|l ls IH]; intros p Hv Hs E; simpl in E; [by injection E as <-|].
  apply Forall_cons in Hv as [Hl Hv]. destruct (exec l p) as [q| |] eqn:Eq; [|done..].
  apply (IH q); [done| |done]. by apply (rt_stopped_exec d l p).
Qed.

Lemma rt_drain_threads p r : global p = Some r -> stopping r = true ->
  run (replicate (length (threads p)) (LTurn 0)) p = Done (set_threads [] p).
Proof.
  destruct p as [g ts m w l]. simpl. intros -> Hs. induction ts as [|t ts IH]; [done|]. simpl.
  unfold turn. simpl. rewrite Hs. apply IH.
Qed.


End runtime.

(** ** A small process: a fiber ends at its first slice *)

Definition one_shot (_ : TaskIndex) (w : unit) : RunWorker.slice * unit := (RunWorker.Slice [] RunWorker.Over, w).
Definition small_settings : settings := Settings.mk 2 P2PMesh 2 16384 Safety1 0.
Definition small_run (ls : list (@label)) : outcome (@process (gmap Z OsMemory.region) unit) :=
  run OsMemory.small_os (OsMemory.Unix true) 1500 4096 (fun _ => true) one_shot 8 ls (fresh ∅ tt).

Definition busy_day : list label :=
  [LInit small_settings; LStart; LHost (EnqueuePinned HOST 1 7); LTurn 0; LThreshold 1 40; LTurn 1; LTurn 1; LStart].

Lemma rt_one_shot n c : RunWorker.well_behaved one_shot n c.
Proof. intros task w. apply Forall_nil. done. Qed.

Lemma rt_busy_day_valid : Forall (valid one_shot) busy_day.
Proof.
  unfold busy_day. repeat apply Forall_cons_2; try apply Forall_nil_2; try exact I; try done.
  split; [split; done|]. intros c _. apply rt_one_shot.
Qed.

(** The host's task is run by worker 1. *)
Lemma rt_busy_day : match small_run busy_day with
  | Done p => bool_decide (RunWorker.accepted (log p) = [7]) && bool_decide (dispatched (log p) = [7]) &&
              bool_decide (core <$> threads p = [0; 1]) && is_started p
  | _ => false
  end = true.
Proof. exact (@eq_refl bool true). Qed.

Lemma rt_busy_day_done : exists p, small_run busy_day = Done p /\ dispatched (log p) = [7] /\ is_started p = true.
Proof.
  pose proof rt_busy_day as H. destruct (small_run busy_day) as [p| |]; [|discriminate H..]. exists p. split; [done|].
  apply andb_true_iff in H as [H Hs]. apply andb_true_iff in H as [H _]. apply andb_true_iff in H as [_ H].
  by apply bool_decide_eq_true in H.
Qed.


Lemma one_thread_per_worker_witness : exists p, small_run busy_day = Done p /\ (crew 1 (threads p) <= 1)%nat.
Proof.
  destruct rt_busy_day_done as (p & E & _). exists p. split; [exact E|].
  apply (one_thread_per_worker OsMemory.small_os (OsMemory.Unix true) 1500 4096 (fun _ => true) one_shot 8
           busy_day ∅ tt p 1 E).
Defined.


End Runtime.
