(* ===== verification/FreeList.v ===== *)
(** * FreeList

    Any number of threads on one tagged free list, interleaved access by
    access: [ContextPool::alloc_context] and [free_context]
    ([src/src/memory_management.rs]) and [TreiberStack::pop] and [push]
    ([src/dtact-util/src/lockfree.rs]), which are the same algorithm.  The
    head packs a 32-bit generation above a 32-bit index; a thread may be
    delayed arbitrarily between reading the head, reading the successor and
    the compare-exchange, so the same index may come back to the head
    meanwhile.  Executions are those in which the generation does not wrap.

    The memory is sequentially consistent. *)

From S2P Require Import Prelude Ring Types ContextPool.

Module FreeList.
Import Pool.

(** The next access of a thread. *)
Inductive pc :=
| Idle
| AllocLoad
| AllocNext (head : Z)
| AllocCas (head next : Z)
| FreeLoad (index : Z)
| FreeStore (index head : Z)
| FreeCas (index head : Z).

Record shared := mkShared { fhead : Z; fnext : gmap Z Z; held : list Z }.

Definition nx (sh : shared) (i : Z) : Z := rd NIL (fnext sh) i.

(** [held] lists the indices handed out and not yet given back; a caller may
    free only one of these, once. *)
Inductive thread_step (sh : shared) : pc -> shared -> pc -> Prop :=
| f_alloc : thread_step sh Idle sh AllocLoad
| f_alloc_load : thread_step sh AllocLoad sh (AllocNext (fhead sh))
| f_alloc_none h : head_index h = NIL -> thread_step sh (AllocNext h) sh Idle
| f_alloc_next h : head_index h <> NIL ->
    thread_step sh (AllocNext h) sh (AllocCas h (nx sh (head_index h)))
| f_alloc_cas h n : fhead sh = h ->
    thread_step sh (AllocCas h n)
      {| fhead := pack_head (wadd 32 (head_gen h) 1) n; fnext := fnext sh;
         held := head_index h :: held sh |} Idle
| f_alloc_fail h n : thread_step sh (AllocCas h n) sh (AllocNext (fhead sh))
| f_free i l1 l2 : held sh = l1 ++ i :: l2 ->
    thread_step sh Idle {| fhead := fhead sh; fnext := fnext sh; held := l1 ++ l2 |} (FreeLoad i)
| f_free_load i : thread_step sh (FreeLoad i) sh (FreeStore i (fhead sh))
| f_free_store i h :
    thread_step sh (FreeStore i h)
      {| fhead := fhead sh; fnext := wr (fnext sh) i (head_index h); held := held sh |}
      (FreeCas i h)
| f_free_cas i h : fhead sh = h ->
    thread_step sh (FreeCas i h)
      {| fhead := pack_head (wadd 32 (head_gen h) 1) i; fnext := fnext sh; held := held sh |} Idle
| f_free_fail i h : thread_step sh (FreeCas i h) sh (FreeStore i (fhead sh)).

Definition conf : Type := shared * gmap nat pc.

Inductive step : conf -> conf -> Prop :=
| step_thread sh pcs t p sh' p' :
    pcs !! t = Some p -> thread_step sh p sh' p' ->
    head_gen (fhead sh) <= head_gen (fhead sh') ->
    step (sh, pcs) (sh', <[t := p']> pcs).

Definition freeing (p : pc) : option Z :=
  match p with FreeLoad i | FreeStore i _ | FreeCas i _ => Some i | _ => None end.

(** Following the links from index [h] visits exactly [l]. *)
Definition linked (sh : shared) (h : Z) (l : list Z) : Prop := linked_by (nx sh) NIL h l.

(** All of [0 .. cap - 1] free, in order. *)
Definition init (cap : Z) (s : conf) : Prop :=
  linked s.1 (head_index (fhead s.1)) (seqZ 0 cap) /\ is_word 64 (fhead s.1) /\ held s.1 = [] /\
  (forall t p, s.2 !! t = Some p -> p = Idle).

(** A head word a thread remembers is current when its generation is. *)
Definition seen (sh : shared) (h : Z) : Prop :=
  is_word 64 h /\ head_gen h <= head_gen (fhead sh) /\
  (head_gen h = head_gen (fhead sh) -> h = fhead sh).

Definition thread_inv (sh : shared) (p : pc) : Prop :=
  match p with
  | Idle | AllocLoad | FreeLoad _ => True
  | AllocNext h => seen sh h
  | AllocCas h n => seen sh h /\ head_index h <> NIL /\ (h = fhead sh -> n = nx sh (head_index h))
  | FreeStore _ h => seen sh h
  | FreeCas i h => seen sh h /\ nx sh i = head_index h
  end.

Record inv_at (cap : Z) (sh : shared) (pcs : gmap nat pc) (stk : list Z) : Prop := {
  i_head : is_word 64 (fhead sh);
  i_link : linked sh (head_index (fhead sh)) stk;
  i_nodup : NoDup (stk ++ held sh);
  i_range : Forall (fun i => 0 <= i < cap) (stk ++ held sh);
  i_threads : forall t p, pcs !! t = Some p -> thread_inv sh p;
  i_freeing : forall t p i, pcs !! t = Some p -> freeing p = Some i ->
    0 <= i < cap /\ i ∉ stk ++ held sh;
  i_unique : forall t t' p p' i, pcs !! t = Some p -> pcs !! t' = Some p' ->
    freeing p = Some i -> freeing p' = Some i -> t = t';
  i_all : forall i, 0 <= i < cap ->
    i ∈ stk ++ held sh \/ exists t p, pcs !! t = Some p /\ freeing p = Some i
}.

Definition inv (cap : Z) (s : conf) : Prop := exists stk, inv_at cap s.1 s.2 stk.

(** ** Packed heads *)

Lemma fl_pack_word g i : is_word 32 g -> is_word 32 i -> is_word 64 (pack_head g i).
Proof.
  intros [? Hg] [? Hi]. unfold is_word, pack_head. rewrite Z.shiftl_mul_pow2 by lia. split.
  - apply Z.lor_nonneg. lia.
  - destruct (decide (Z.lor (g * 2 ^ 32) i = 0)) as [->|]; [lia|].
    apply Z.log2_lt_pow2; [|].
    + pose proof (proj2 (Z.lor_nonneg (g * 2 ^ 32) i) ltac:(lia)). lia.
    + rewrite Z.log2_lor by lia. apply Z.max_lub_lt.
      * destruct (decide (g * 2 ^ 32 = 0)) as [->|]; [by vm_compute|]. apply Z.log2_lt_pow2; lia.
      * destruct (decide (i = 0)) as [->|]; [by vm_compute|]. apply Z.log2_lt_pow2; lia.
Qed.

Lemma fl_gen_range h : is_word 64 h -> is_word 32 (head_gen h).
Proof. intros. apply wrap_range. lia. Qed.

Lemma fl_index_range h : is_word 32 (head_index h).
Proof. apply wrap_range. lia. Qed.

Lemma fl_gen_next h n : is_word 64 h -> is_word 32 n ->
  head_gen h <= head_gen (pack_head (wadd 32 (head_gen h) 1) n) ->
  head_gen (pack_head (wadd 32 (head_gen h) 1) n) = head_gen h + 1.
Proof.
  intros Hh Hn Hle. pose proof (fl_gen_range h Hh) as [? ?].
  assert (is_word 32 (wadd 32 (head_gen h) 1)) as Hw by (apply wrap_range; lia).
  rewrite cp_pack_gen in * by done. unfold wadd in *.
  destruct (decide (head_gen h + 1 < 2 ^ 32)); [apply wrap_small; lia|].
  assert (wrap 32 (head_gen h + 1) = 0) by (replace (head_gen h + 1) with (2 ^ 32) by lia; done).
  lia.
Qed.

Lemma fl_linked_ext sh sh' h l :
  (forall i, i ∈ l -> nx sh' i = nx sh i) -> linked sh h l -> linked sh' h l.
Proof. apply linked_by_ext. Qed.

Lemma fl_seen_head sh : is_word 64 (fhead sh) -> seen sh (fhead sh).
Proof. intros. split_and!; auto with lia. Qed.

(** A head that moved on leaves every remembered head stale. *)
Lemma fl_seen_later sh sh' h : seen sh h ->
  head_gen (fhead sh') = head_gen (fhead sh) + 1 -> seen sh' h /\ h <> fhead sh'.
Proof.
  intros (Hw & Hle & _) E. split; [split_and!; try done; lia|]. intros ->. lia.
Qed.

(** One thread moves from [p] to [p'] and the ring of facts about the others
    is re-established: [stk'] is the new chain. *)
Lemma fl_inv_update cap sh sh' pcs stk stk' t p p' :
  inv_at cap sh pcs stk -> pcs !! t = Some p ->
  is_word 64 (fhead sh') -> linked sh' (head_index (fhead sh')) stk' ->
  stk' ++ held sh' ++ option_list (freeing p') ≡ₚ stk ++ held sh ++ option_list (freeing p) ->
  thread_inv sh' p' ->
  (forall u q, u <> t -> pcs !! u = Some q -> thread_inv sh q -> thread_inv sh' q) ->
  inv_at cap sh' (<[t := p']> pcs) stk'.
Proof.
  intros [H1 H2 H3 H4 H5 H6 H7 H8] Hp Hw Hl Hperm Ht Hothers.
  assert (forall i, i ∈ option_list (freeing p) -> 0 <= i < cap /\ i ∉ stk ++ held sh) as Hfp.
  { intros i Hi. destruct (freeing p) as [j|] eqn:E; simpl in Hi; [|by apply elem_of_nil in Hi].
    apply list_elem_of_singleton in Hi as ->. by apply (H6 t p). }
  assert (NoDup (stk ++ held sh ++ option_list (freeing p))) as Hnd.
  { rewrite app_assoc. apply NoDup_app. split_and!; [done| |].
    - intros x Hx Hx'. by apply Hfp in Hx' as [_ ?].
    - destruct (freeing p); simpl; [apply NoDup_singleton|constructor]. }
  assert (Forall (fun i => 0 <= i < cap) (stk ++ held sh ++ option_list (freeing p))) as Hr.
  { rewrite app_assoc. apply Forall_app. split; [done|]. apply Forall_forall. intros i Hi.
    by apply Hfp. }
  rewrite <- Hperm in Hnd, Hr. rewrite app_assoc in Hnd, Hr, Hperm.
  rewrite (app_assoc stk) in Hperm.
  apply NoDup_app in Hnd as (Hnd & Hdis & _). apply Forall_app in Hr as [Hr Hrf].
  assert (forall u q i, u <> t -> pcs !! u = Some q -> freeing q = Some i ->
            i ∉ (stk' ++ held sh') ++ option_list (freeing p')) as Hout.
  { intros u q i Hne Hq Hf. rewrite Hperm. rewrite elem_of_app. intros [Hin|Hin].
    - by apply (H6 u q i Hq Hf).
    - destruct (freeing p) as [j|] eqn:E; simpl in Hin; [|by apply elem_of_nil in Hin].
      apply list_elem_of_singleton in Hin as ->. apply Hne. by apply (H7 u t q p j). }
  assert (forall u q, <[t := p']> pcs !! u = Some q ->
            (u = t /\ q = p') \/ (u <> t /\ pcs !! u = Some q)) as Hlk.
  { intros u q Hq. apply lookup_insert_Some in Hq. naive_solver. }
  split; try done.
  - intros u q [[-> ->]|[? ?]]%Hlk; eauto.
  - intros u q i [[-> ->]|[? Hq]]%Hlk Hf.
    + rewrite Hf in *. simpl in *. apply Forall_cons in Hrf as [Hri _]. split; [exact Hri|].
      intros Hin. apply (Hdis i); [done|by left].
    + split; [by apply (H6 u q i Hq)|].
      intros Hin. eapply Hout; [done..|]. apply elem_of_app. by left.
  - intros u u' q q' i [[-> ->]|[? Hq]]%Hlk [[-> ->]|[? Hq']]%Hlk Hf Hf'; try done.
    + exfalso. eapply (Hout u' q' i); [done..|]. rewrite Hf. apply elem_of_app. right. by left.
    + exfalso. eapply (Hout u q i); [done..|]. rewrite Hf'. apply elem_of_app. right. by left.
    + by apply (H7 u u' q q' i).
  - intros i Hi.
    assert (i ∈ (stk' ++ held sh') ++ option_list (freeing p') \/
            exists u q, u <> t /\ pcs !! u = Some q /\ freeing q = Some i) as [Hin|(u & q & ? & ? & ?)].
    { destruct (H8 i Hi) as [Hin|(u & q & Hq & Hf)].
      - left. rewrite Hperm. apply elem_of_app. by left.
      - destruct (decide (u = t)) as [->|]; [left|right; by exists u, q]. simplify_eq.
        rewrite Hperm, Hf. apply elem_of_app. right. by left. }
    + apply elem_of_app in Hin as [Hin|Hin]; [by left|right]. exists t, p'.
      rewrite lookup_insert_eq. split; [done|].
      destruct (freeing p'); simpl in Hin; [|by apply elem_of_nil in Hin].
      by apply list_elem_of_singleton in Hin as ->.
    + right. exists u, q. by rewrite lookup_insert_ne.
Qed.

Lemma fl_inv_init cap s : cap <= NIL -> init cap s -> inv cap s.
Proof.
  intros Hc (Hl & Hw & Hh & Hp). exists (seqZ 0 cap). split; rewrite ?Hh, ?app_nil_r; try done.
  - apply NoDup_seqZ.
  - apply Forall_forall. intros i Hi%elem_of_seqZ. lia.
  - intros t p E. by rewrite (Hp t p E).
  - intros t p i E. by rewrite (Hp t p E).
  - intros t t' p p' i E _. by rewrite (Hp t p E).
  - intros i Hi. left. apply elem_of_seqZ. lia.
Qed.

(** Threads other than the one that moved the head. *)
Lemma fl_others_cas sh sh' q :
  head_gen (fhead sh') = head_gen (fhead sh) + 1 -> fnext sh' = fnext sh ->
  thread_inv sh q -> thread_inv sh' q.
Proof.
  intros Hg Hn. assert (forall i, nx sh' i = nx sh i) as Ex by (intros; unfold nx; by rewrite Hn).
  destruct q; simpl; try done; rewrite ?Ex.
  - intros Hs. by apply (fl_seen_later sh).
  - intros (Hs & ? & ?). destruct (fl_seen_later sh sh' head Hs Hg). done.
  - intros Hs. by apply (fl_seen_later sh).
  - intros (Hs & ?). destruct (fl_seen_later sh sh' head Hs Hg). done.
Qed.

Lemma fl_inv_step cap s s' : cap <= NIL -> inv cap s -> step s s' -> inv cap s'.
Proof.
  intros Hcap (stk & Hi) Hs. destruct Hs as [sh pcs t p sh' p' Hp Hs Hgen]. simpl in Hi.
  pose proof Hi as [H1 H2 H3 H4 H5 H6 _ _]. pose proof (H5 _ _ Hp) as Ht.
  destruct Hs; simpl in *.
  all: try (exists stk; eapply fl_inv_update; eauto using fl_seen_head; simpl; done).
  - destruct Ht as (Hseen & Hne & Hn). subst h. specialize (Hn eq_refl).
    destruct stk as [|x stk]; [done|]. destruct H2 as [Ex Hl]. rewrite Ex in Hn. subst n.
    apply Forall_cons in H4 as [Hx H4]. apply Forall_app in H4 as [H4 _].
    pose proof (linked_by_word _ 32 _ _ _ H4 ltac:(lia) Hcap Hl) as Hw.
    pose proof (fl_gen_next _ _ H1 Hw Hgen) as Eg.
    exists stk. eapply fl_inv_update; eauto; simpl; try exact I.
    + apply fl_pack_word; [apply wrap_range; lia|done].
    + rewrite cp_pack_index by (done || apply wrap_range; lia). by apply (fl_linked_ext sh).
    + rewrite Ex. by rewrite !app_nil_r, <- Permutation_middle.
    + intros u q _ _. by apply fl_others_cas.
  - exists stk. eapply fl_inv_update; eauto; simpl; try exact I.
    rewrite app_nil_r, H, <- !app_assoc. f_equiv. f_equiv.
    symmetry. apply Permutation_cons_append.
  - destruct (H6 _ _ i Hp eq_refl) as [Hr Hni].
    assert (forall j, j <> i -> nx {| fhead := fhead sh; fnext := wr (fnext sh) i (head_index h);
                                      held := held sh |} j = nx sh j) as Ho.
    { intros j Hj. unfold nx. simpl. by apply rd_wr_ne. }
    exists stk. eapply fl_inv_update; eauto; simpl; try exact I.
    + eapply fl_linked_ext; [|done]. intros j Hj. apply Ho. intros ->. apply Hni.
      apply elem_of_app. by left.
    + split; [done|]. unfold nx. simpl. apply rd_wr_eq.
    + intros u q Hne Hq Hqi. destruct q as [| |?|h' n|?|? ?|j h']; simpl in *; try done.
      * destruct Hqi as (Hs' & Hnn & Hn). split_and!; try done. intros Eh. rewrite Ho; [by apply Hn|].
        intros Ej. apply Hni. apply elem_of_app. left. rewrite Eh in Ej, Hnn.
        destruct stk as [|x stk]; [done|]. destruct H2 as [Ex _]. apply elem_of_cons. left.
        congruence.
      * destruct Hqi as (Hs' & Hn). split; [done|]. rewrite Ho; [done|]. intros ->.
        apply Hne. by eapply (i_unique _ _ _ _ Hi u t _ _ i Hq Hp).
  - destruct Ht as (Hseen & Hn). subst h. destruct (H6 _ _ i Hp eq_refl) as [Hr Hni].
    assert (is_word 32 i) as Hw by (unfold is_word, NIL, U32_MAX in *; lia).
    pose proof (fl_gen_next _ _ H1 Hw Hgen) as Eg.
    exists (i :: stk). eapply fl_inv_update; eauto; simpl; try exact I.
    + apply fl_pack_word; [apply wrap_range; lia|done].
    + rewrite cp_pack_index by (done || apply wrap_range; lia). split; [done|].
      change (nx _ i) with (nx sh i). rewrite Hn. by apply (fl_linked_ext sh).
    + rewrite app_nil_r. rewrite app_assoc. apply Permutation_cons_append.
    + intros u q _ _. by apply fl_others_cas.
Qed.
End FreeList.

(** C13.  The tagged free list is safe under concurrency: however the
    allocations and frees of any number of threads interleave (a thread may
    stall between reading the head and its compare-exchange while the same
    index is freed and comes back), no index is held by two owners, none is
    both held and being freed, and none is lost: each of the [cap] indices
    is in the list, held, or on its way back. *)
Theorem free_list_exclusive (cap : Z) (sh : FreeList.shared) (pcs : gmap nat FreeList.pc) :
  cap <= Pool.NIL -> reachable (FreeList.init cap) FreeList.step (sh, pcs) ->
  NoDup (FreeList.held sh) /\
  (forall t p i, pcs !! t = Some p -> FreeList.freeing p = Some i -> i ∉ FreeList.held sh) /\
  exists stk, FreeList.linked sh (Pool.head_index (FreeList.fhead sh)) stk /\
    NoDup (stk ++ FreeList.held sh) /\
    forall i, 0 <= i < cap ->
      i ∈ stk \/ i ∈ FreeList.held sh \/
      exists t p, pcs !! t = Some p /\ FreeList.freeing p = Some i.
Proof.
  intros Hc Hr. apply (invariant_reachable _ _ (FreeList.inv cap)) in Hr;
    [|intros; by apply FreeList.fl_inv_init|intros ? ?; by apply FreeList.fl_inv_step].
  destruct Hr as (stk & Hi). simpl in Hi. destruct Hi as [_ H2 H3 _ _ H6 _ H8].
  split_and!.
  - by apply NoDup_app in H3 as (_ & _ & ?).
  - intros t p i Hp Hf Hin. apply (H6 t p i Hp Hf). apply elem_of_app. by right.
  - exists stk. split_and!; try done. intros i Hi.
    destruct (H8 i Hi) as [Hin|?]; [|by right; right].
    apply elem_of_app in Hin as [?|?]; [by left|by right; left].
Qed.

(** Thread 0 allocates index 0 and gives it back while thread 1's
    compare-exchange still remembers the old head. *)
Lemma free_list_exclusive_witness :
  exists sh pcs, reachable (FreeList.init 2) FreeList.step (sh, pcs) /\
    pcs !! 1%nat = Some (FreeList.AllocCas 0 1) /\ Pool.head_index (FreeList.fhead sh) = 0 /\
    NoDup (FreeList.held sh).
Proof.
  assert (exists sh pcs, reachable (FreeList.init 2) FreeList.step (sh, pcs) /\
    pcs !! 1%nat = Some (FreeList.AllocCas 0 1) /\ Pool.head_index (FreeList.fhead sh) = 0)
    as (sh & pcs & Hr & Hp & Hh).
  { do 2 eexists. split.
    - exists (FreeList.mkShared 0 {[0 := 1; 1 := Pool.NIL]} [],
              {[0%nat := FreeList.Idle; 1%nat := FreeList.Idle]}). split.
      { split_and!; try done. intros t p Ht. simpl in Ht.
        rewrite lookup_insert_Some, lookup_singleton_Some in Ht. naive_solver. }
      eapply rtc_l; [apply (FreeList.step_thread _ _ 1 FreeList.Idle); [done|apply FreeList.f_alloc|done]|].
      eapply rtc_l; [eapply (FreeList.step_thread _ _ 1); [done|apply FreeList.f_alloc_load|done]|].
      eapply rtc_l; [eapply (FreeList.step_thread _ _ 1); [done|by apply FreeList.f_alloc_next|done]|].
      eapply rtc_l; [eapply (FreeList.step_thread _ _ 0); [done|apply FreeList.f_alloc|done]|].
      eapply rtc_l; [eapply (FreeList.step_thread _ _ 0); [done|apply FreeList.f_alloc_load|done]|].
      eapply rtc_l; [eapply (FreeList.step_thread _ _ 0); [done|by apply FreeList.f_alloc_next|done]|].
      eapply rtc_l; [eapply (FreeList.step_thread _ _ 0); [done|by apply FreeList.f_alloc_cas|done]|].
      eapply rtc_l; [eapply (FreeList.step_thread _ _ 0); [done|by apply (FreeList.f_free _ 0 [] [])|done]|].
      eapply rtc_l; [eapply (FreeList.step_thread _ _ 0); [done|apply FreeList.f_free_load|done]|].
      eapply rtc_l; [eapply (FreeList.step_thread _ _ 0); [done|apply FreeList.f_free_store|done]|].
      eapply rtc_l; [eapply (FreeList.step_thread _ _ 0); [done|by apply FreeList.f_free_cas|done]|].
      apply rtc_refl.
    - done. }
  exists sh, pcs. split_and!; try done.
  by destruct (free_list_exclusive 2 sh pcs ltac:(done) Hr) as [? _].
Defined.
