(* ===== verification/Treiber.v ===== *)
(** * Treiber

    [TreiberStack] and [BufferPool] of [src/dtact-util/src/lockfree.rs], as
    one thread runs them.  (Interleavings of [push] and [pop] are in
    [FreeList].)  [next] is a boxed slice, so an index out of range is a
    [Panic]. *)

From S2P Require Import Prelude Ring Types ContextPool.

Module Treiber.
Import Pool.

Record t := mk { head : Z; next : list Z }.

Definition at_index (l : list Z) (i : Z) : outcome Z :=
  match l !! Z.to_nat i with Some x => Done x | None => Panic end.

(** [next[i].store(x)] *)
Definition store (l : list Z) (i x : Z) : outcome (list Z) :=
  match l !! Z.to_nat i with Some _ => Done (<[Z.to_nat i := x]> l) | None => Panic end.

Definition new (size : Z) : t :=
  let l := replicate (Z.to_nat size) 0 in
  {| head := U32_MAX;
     next := if 0 <? size then <[Z.to_nat (size - 1) := U32_MAX]> l else l |}.

Definition new_empty (size : Z) : t :=
  {| head := U32_MAX; next := replicate (Z.to_nat size) 0 |}.

Fixpoint push_loop (fuel : nat) (hd idx : Z) (s : t) : outcome t :=
  match fuel with
  | O => OutOfFuel
  | S fuel' =>
      let head_idx := wrap 32 (Z.land hd U32_MAX) in
      let tag := wrap 32 (Z.shiftr hd 32) in
      l ← store (next s) idx head_idx;
      let new_head := Z.lor (Z.shiftl (wadd 32 tag 1) 32) idx in
      if head s =? hd then Done {| head := new_head; next := l |}
      else push_loop fuel' (head s) idx {| head := head s; next := l |}
  end.

Fixpoint pop_loop (fuel : nat) (hd : Z) (s : t) : outcome (option Z * t) :=
  match fuel with
  | O => OutOfFuel
  | S fuel' =>
      let head_idx := wrap 32 (Z.land hd U32_MAX) in
      if head_idx =? U32_MAX then Done (None, s)
      else
        let tag := wrap 32 (Z.shiftr hd 32) in
        nxt ← at_index (next s) head_idx;
        let new_head := Z.lor (Z.shiftl (wadd 32 tag 1) 32) nxt in
        if head s =? hd then Done (Some head_idx, {| head := new_head; next := next s |})
        else pop_loop fuel' (head s) s
  end.

(** Turns granted to a thread running alone; one is used. *)
Definition retry_fuel : nat := 4.

Definition push (idx : Z) (s : t) : outcome t := push_loop retry_fuel (head s) idx s.
Definition pop (s : t) : outcome (option Z * t) := pop_loop retry_fuel (head s) s.

Definition write_next_slot (idx next_idx : Z) (s : t) : outcome t :=
  l ← store (next s) idx next_idx; Done {| head := head s; next := l |}.

Definition set_head (head_idx : Z) (s : t) : t := {| head := head_idx; next := next s |}.

(** ** The stack of indices *)

Definition succ (s : t) (i : Z) : Z := default NIL (next s !! Z.to_nat i).

Record ok (s : t) (l : list Z) : Prop := {
  tr_link : linked_by (succ s) NIL (head_index (head s)) l;
  tr_nodup : NoDup l;
  tr_range : Forall (fun i => 0 <= i < Z.of_nat (length (next s))) l;
  tr_size : Z.of_nat (length (next s)) <= NIL
}.

Lemma tr_mask hd : wrap 32 (Z.land hd U32_MAX) = head_index hd.
Proof. unfold U32_MAX. rewrite land_mask by lia. apply wrap_wrap. Qed.

Lemma tr_lookup (l : list Z) i : 0 <= i < Z.of_nat (length l) -> is_Some (l !! Z.to_nat i).
Proof. intros. apply lookup_lt_is_Some_2. lia. Qed.

Lemma tr_pop_some s x l : ok s (x :: l) ->
  exists s', pop s = Done (Some x, s') /\ ok s' l /\ next s' = next s.
Proof.
  intros [[Hh Hl] Hnd Hr Hs]. apply Forall_cons in Hr as [Hx Hr]. apply NoDup_cons in Hnd as [_ Hnd].
  unfold pop. cbn [retry_fuel pop_loop]. rewrite tr_mask, Hh.
  case_test; [unfold NIL, U32_MAX in *; lia|]. unfold at_index.
  destruct (tr_lookup (next s) x Hx) as [y Hy]. rewrite Hy. simpl. rewrite Z.eqb_refl.
  assert (succ s x = y) as Ey by (unfold succ; by rewrite Hy).
  eexists; split; [done|]. split; [|done]. split; try done. simpl.
  change (Z.lor _ y) with (pack_head (wadd 32 (head_gen (head s)) 1) y).
  rewrite Ey in Hl. rewrite cp_pack_index; [done|apply wrap_range; lia|].
  exact (linked_by_word _ 32 _ _ _ Hr ltac:(lia) Hs Hl).
Qed.

Lemma tr_pop_none s : ok s [] -> pop s = Done (None, s).
Proof.
  intros [Hh _ _ _]. simpl in Hh. unfold pop. cbn [retry_fuel pop_loop]. by rewrite tr_mask, Hh.
Qed.

Lemma tr_push s x l : ok s l -> x ∉ l -> 0 <= x < Z.of_nat (length (next s)) ->
  exists s', push x s = Done s' /\ ok s' (x :: l) /\ length (next s') = length (next s).
Proof.
  intros [Hl Hnd Hr Hs] Hx Hxr. unfold push. cbn [retry_fuel push_loop]. rewrite tr_mask.
  unfold store. destruct (tr_lookup (next s) x Hxr) as [y Hy]. rewrite Hy. simpl.
  rewrite Z.eqb_refl. eexists; split; [done|]. split; [|simpl; by rewrite length_insert].
  assert (x < 2 ^ 32) by (unfold NIL, U32_MAX in *; lia). split; simpl.
  - change (Z.lor _ x) with (pack_head (wadd 32 (head_gen (head s)) 1) x).
    rewrite cp_pack_index; [|apply wrap_range; lia|unfold is_word; lia]. split; [done|].
    unfold succ at 2. simpl. rewrite list_lookup_insert_eq by (by eapply lookup_lt_Some). simpl.
    eapply linked_by_ext; [|done]. intros i Hi. unfold succ. simpl.
    rewrite list_lookup_insert_ne; [done|]. rewrite Forall_forall in Hr.
    pose proof (Hr i Hi). intros E. apply Z2Nat.inj in E; [|lia..]. by subst.
  - by apply NoDup_cons.
  - rewrite length_insert. by apply Forall_cons.
  - by rewrite length_insert.
Qed.
(** ** A stack used in any way

    An index that is pushed while it is on the stack breaks the stack, but the links stay within the slice. *)

(** The links stay within the slice. *)
Definition in_stack (depth : nat) (x : Z) : Prop := x = U32_MAX \/ 0 <= x < Z.of_nat depth.
Record stack_ok (depth : nat) (t : t) : Prop := {
  st_len : length (next t) = depth;
  st_size : Z.of_nat depth <= U32_MAX;
  st_head : in_stack depth (head_index (head t));
  st_next : Forall (in_stack depth) (next t)
}.

Lemma in_stack_word depth x : Z.of_nat depth <= U32_MAX -> in_stack depth x -> is_word 32 x.
Proof. unfold in_stack, is_word, U32_MAX. lia. Qed.

Lemma stack_push depth i t : stack_ok depth t -> (i < depth)%nat ->
  exists t', push (Z.of_nat i) t = Done t' /\ stack_ok depth t' /\
    head_index (head t') = Z.of_nat i /\ next t' !! i = Some (head_index (head t)).
Proof.
  intros [] Hi. unfold push. cbn [retry_fuel push_loop]. rewrite tr_mask. unfold store.
  rewrite Nat2Z.id. destruct (lookup_lt_is_Some_2 (next t) i) as [y Hy]; [lia|]. rewrite Hy. simpl. rewrite Z.eqb_refl.
  eexists. split; [done|]. split; [|split].
  - split; simpl; auto.
    + by rewrite length_insert.
    + change (Z.lor _ (Z.of_nat i)) with (pack_head (wadd 32 (head_gen (head t)) 1) (Z.of_nat i)).
      rewrite cp_pack_index; [right; lia|apply wrap_range; lia|]. apply (in_stack_word depth); [done|right; lia].
    + by apply Forall_insert.
  - simpl. change (Z.lor _ (Z.of_nat i)) with (pack_head (wadd 32 (head_gen (head t)) 1) (Z.of_nat i)).
    rewrite cp_pack_index; [done|apply wrap_range; lia|]. apply (in_stack_word depth); [done|right; lia].
  - simpl. apply list_lookup_insert_eq. lia.
Qed.

Lemma stack_pop depth t : stack_ok depth t ->
  exists o t', pop t = Done (o, t') /\ stack_ok depth t' /\ next t' = next t /\
    (head_index (head t) <> U32_MAX -> o = Some (head_index (head t)) /\
       next t !! Z.to_nat (head_index (head t)) = Some (head_index (head t'))).
Proof.
  intros H. pose proof H as []. unfold pop. cbn [retry_fuel pop_loop]. rewrite tr_mask.
  destruct (Z.eqb_spec (head_index (head t)) U32_MAX) as [E | E]; [by exists None, t|].
  destruct st_head0 as [? | Hr]; [done|]. unfold at_index.
  destruct (lookup_lt_is_Some_2 (next t) (Z.to_nat (head_index (head t)))) as [y Hy]; [lia|].
  rewrite Hy. simpl. rewrite Z.eqb_refl. pose proof (Forall_lookup_1 _ _ _ _ st_next0 Hy) as Hin.
  assert (head_index (Z.lor (Z.shiftl (wadd 32 (wrap 32 (Z.shiftr (head t) 32)) 1) 32) y) = y) as Ey.
  { change (Z.lor _ y) with (pack_head (wadd 32 (head_gen (head t)) 1) y).
    apply cp_pack_index; [apply wrap_range; lia|by apply (in_stack_word depth)]. }
  eexists _, _. split; [done|]. split; [|split; [done|]]; simpl; [|by rewrite Ey].
  split; simpl; auto. by rewrite Ey.
Qed.

(** A stack of indices whose top points to itself. *)
Definition self_loop (i : nat) (t : t) : Prop :=
  head_index (head t) = Z.of_nat i /\ next t !! i = Some (Z.of_nat i).

(** An index pushed when it is on top. *)
Lemma push_twice depth i t : stack_ok depth t -> (i < depth)%nat -> head_index (head t) = Z.of_nat i ->
  exists t', push (Z.of_nat i) t = Done t' /\ stack_ok depth t' /\ self_loop i t'.
Proof.
  intros H Hi Hh. destruct (stack_push depth i t H Hi) as (t' & E & Hok & Hh' & Hn). exists t'.
  split; [done|]. split; [done|]. split; [done|]. by rewrite Hn, Hh.
Qed.

(** It never becomes empty again. *)
Lemma self_loop_pop depth i t : stack_ok depth t -> (i < depth)%nat -> self_loop i t ->
  exists t', pop t = Done (Some (Z.of_nat i), t') /\ stack_ok depth t' /\ self_loop i t'.
Proof.
  intros Hs Hi [Hh Hn]. destruct (stack_pop depth t Hs) as (o & t' & E & Ht & Hnx & Hp).
  destruct Hp as [-> Hl]; [destruct Hs; unfold U32_MAX in *; lia|]. rewrite Hh, Nat2Z.id, Hn in Hl. injection Hl as Hl.
  exists t'. rewrite E, Hh. split; [done|]. split; [done|]. split; [done|]. by rewrite Hnx.
Qed.
End Treiber.

Module BufferPool.

Record t := mk { arena_ptr : Z; layout_size : Z; chunk_size : Z; free : Treiber.t }.

(** The loop linking chunk [i] to [i + 1], and the last one to the end mark. *)
Fixpoint link_slots (k : nat) (total : Z) (s : Treiber.t) : outcome Treiber.t :=
  match k with
  | O => Done s
  | S k' =>
      s1 ← link_slots k' total s;
      let i := Z.of_nat k' in
      Treiber.write_next_slot i (if i =? total - 1 then U32_MAX else wrap 32 (i + 1)) s1
  end.

(** [arena] is the allocator's answer; the layout is valid when its size,
    rounded up to the alignment, fits an [isize]. *)
Definition new (arena : option Z) (total_chunks chunk : Z) : outcome t :=
  let total := Z.max total_chunks 1 in
  let size := Z.max chunk 1 in
  if 2 ^ 63 - 4096 <? total * size then Panic
  else
    match arena with
    | None => Panic
    | Some ptr =>
        s ← link_slots (Z.to_nat total) total (Treiber.new_empty total);
        Done {| arena_ptr := ptr; layout_size := total * size; chunk_size := size;
                free := Treiber.set_head 0 s |}
    end.

Definition get_ptr (idx : Z) (p : t) : Z := arena_ptr p + idx * chunk_size p.

Definition acquire (p : t) : outcome (option Z * t) :=
  '(r, s) ← Treiber.pop (free p);
  Done (r, {| arena_ptr := arena_ptr p; layout_size := layout_size p;
              chunk_size := chunk_size p; free := s |}).

Definition release (idx : Z) (p : t) : outcome t :=
  s ← Treiber.push idx (free p);
  Done {| arena_ptr := arena_ptr p; layout_size := layout_size p;
          chunk_size := chunk_size p; free := s |}.

Lemma bp_link_slots k total s :
  (k <= length (Treiber.next s))%nat ->
  exists s', link_slots k total s = Done s' /\ Treiber.head s' = Treiber.head s /\
    length (Treiber.next s') = length (Treiber.next s) /\
    forall i, 0 <= i < Z.of_nat k ->
      Treiber.succ s' i = (if i =? total - 1 then U32_MAX else wrap 32 (i + 1)).
Proof.
  induction k as [|k IH]; intros Hk; simpl.
  { eexists. split_and!; try done. lia. }
  destruct IH as (s1 & -> & Hh & Hl & Hs); [lia|]. simpl.
  unfold Treiber.write_next_slot, Treiber.store. rewrite Nat2Z.id.
  destruct (lookup_lt_is_Some_2 (Treiber.next s1) k) as [y Hy]; [lia|]. rewrite Hy. simpl.
  eexists. split_and!; [done|done|simpl; by rewrite length_insert|].
  intros i Hi. unfold Treiber.succ. simpl.
  destruct (decide (i = Z.of_nat k)) as [->|Hne].
  - rewrite Nat2Z.id, list_lookup_insert_eq by (by eapply lookup_lt_Some). done.
  - rewrite list_lookup_insert_ne by lia. apply Hs. lia.
Qed.

Lemma bp_new arena ptr total_chunks chunk p : total_chunks <= U32_MAX -> arena = Some ptr ->
  new arena total_chunks chunk = Done p ->
  Treiber.ok (free p) (seqZ 0 (Z.max total_chunks 1)) /\
  chunk_size p = Z.max chunk 1 /\ layout_size p = Z.max total_chunks 1 * chunk_size p /\
  Z.of_nat (length (Treiber.next (free p))) = Z.max total_chunks 1.
Proof.
  intros Ht -> E. unfold new in E. case_match; [done|]. set (total := Z.max total_chunks 1) in *.
  destruct (bp_link_slots (Z.to_nat total) total (Treiber.new_empty total)) as (s & Es & Hh & Hl & Hs).
  { simpl. by rewrite length_replicate. }
  rewrite Es in E. simpl in E. simplify_eq. simpl in *. rewrite length_replicate in Hl.
  split_and!; [|done|done|rewrite Hl; lia]. split; simpl; rewrite ?Hl.
  - change (Pool.head_index 0) with 0.
    replace (seqZ 0 total) with (seqZ 0 (Z.of_nat (Z.to_nat total))) by (f_equal; lia).
    assert (forall i, Treiber.succ (Treiber.set_head 0 s) i = Treiber.succ s i) as Eh by done.
    apply linked_by_seq; [lia|..].
    + intros j Hj. rewrite Eh, Hs by lia. case_test; [lia|].
      apply wrap_small. unfold U32_MAX in *. lia.
    + rewrite Eh, Hs by lia. case_test; [done|lia].
  - apply NoDup_seqZ.
  - apply Forall_forall. intros i Hi%elem_of_seqZ. lia.
  - unfold Pool.NIL, U32_MAX in *. lia.
Qed.
End BufferPool.

(** [BufferPool] refines a stack of chunk indices: an acquire takes
    the most recently released chunk or fails exactly when every chunk is
    out, a release makes its chunk available again, and the chunks of
    distinct indices are disjoint ranges inside the arena. *)
Theorem buffer_pool_stack (p : BufferPool.t) (l : list Z) (n : Z) :
  Treiber.ok (BufferPool.free p) l -> Z.of_nat (length (Treiber.next (BufferPool.free p))) = n ->
  BufferPool.layout_size p = n * BufferPool.chunk_size p -> 0 < BufferPool.chunk_size p ->
  match l with
  | [] => BufferPool.acquire p = Done (None, p)
  | x :: l' =>
      exists p', BufferPool.acquire p = Done (Some x, p') /\
        Treiber.ok (BufferPool.free p') l' /\
        exists p'', BufferPool.release x p' = Done p'' /\ Treiber.ok (BufferPool.free p'') l
  end /\
  (forall i j, 0 <= i < j -> j < n ->
     BufferPool.arena_ptr p <= BufferPool.get_ptr i p /\
     BufferPool.get_ptr i p + BufferPool.chunk_size p <= BufferPool.get_ptr j p /\
     BufferPool.get_ptr j p + BufferPool.chunk_size p
       <= BufferPool.arena_ptr p + BufferPool.layout_size p).
Proof.
  intros Hok Hn Hlay Hc. split.
  - unfold BufferPool.acquire. destruct l as [|x l].
    + rewrite Treiber.tr_pop_none by done. simpl. by destruct p.
    + destruct (Treiber.tr_pop_some _ _ _ Hok) as (s & -> & Hok' & Hnx). simpl.
      eexists; split; [done|]. split; [done|]. unfold BufferPool.release. simpl.
      destruct Hok as [_ Hnd Hr _]. apply NoDup_cons in Hnd as [Hx _].
      apply Forall_cons in Hr as [Hxr _].
      destruct (Treiber.tr_push s x l Hok' Hx) as (s2 & -> & ? & _); [by rewrite Hnx|].
      simpl. by eexists.
  - intros i j Hij Hj. unfold BufferPool.get_ptr. nia.
Qed.

Lemma buffer_pool_stack_witness :
  exists p p', BufferPool.new (Some 4096) 3 512 = Done p /\ BufferPool.acquire p = Done (Some 0, p').
Proof.
  destruct (BufferPool.new (Some 4096) 3 512) as [p| |] eqn:E; try discriminate E.
  destruct (BufferPool.bp_new (Some 4096) 4096 3 512 p) as (Hok & Hcs & Hl & Hlen); [done|done|done|].
  destruct (buffer_pool_stack p [0; 1; 2] 3) as [(p' & ? & _) _].
  - exact Hok.
  - exact Hlen.
  - exact Hl.
  - rewrite Hcs. done.
  - by exists p, p'.
Defined.

(** [TreiberStack::new] is documented to hold indices [0..size], all free, but
    its head is the end mark: the stack it builds is empty. *)
Lemma treiber_new_is_empty (size : Z) :
  Treiber.pop (Treiber.new size) = Done (None, Treiber.new size).
Proof. reflexivity. Qed.
