(* ===== verification/BufferCache.v ===== *)
(** * BufferCache

    The buffer allocator of src/dtact-util/src/io/native.rs: a cache of chunks per thread over the
    global pool, and the stacks through which a thread is given back the chunks that others free.  A call is
    one step.  The pool and the stacks are those of Treiber.v. *)

From S2P Require Import Prelude Ring Types ContextPool Treiber.

Module BufferCache.

Record LocalAllocator := mkLocal { thread_idx : Z; local_chunks : list Z }.

(** A thread: its number and its [LOCAL_ALLOCATOR]. *)
Record thread := mkThread { thread_id : Z; local : option LocalAllocator }.

(** The statics, as [init_runtime] leaves them, and the threads. *)
Record state := mkState {
  pool : BufferPool.t;
  owners : list Z;                (* CHUNK_OWNERS *)
  returned : list Treiber.t;      (* THREAD_RETURNED_STACKS *)
  threads : list thread
}.

Definition STACKS : Z := 512.

(** [init_runtime], with its [workers] io-workers; [arena] is the allocator's answer. *)
Definition init (arena : option Z) (workers : nat) (buffer_pool_size chunk_size : Z) : outcome state :=
  p ← BufferPool.new arena buffer_pool_size chunk_size;
  Done (mkState p (replicate (Z.to_nat buffer_pool_size) U32_MAX) (replicate (Z.to_nat STACKS) (Treiber.new 0))
          ((fun i => mkThread 0 (Some (mkLocal (Z.of_nat i) []))) <$> seq 0 workers)).

Definition put_thread (j : nat) (a : option LocalAllocator) (s : state) : state :=
  mkState (pool s) (owners s) (returned s) (alter (fun t => mkThread (thread_id t) a) j (threads s)).
Definition put_pool (p : BufferPool.t) (s : state) : state := mkState p (owners s) (returned s) (threads s).
Definition put_owners (l : list Z) (s : state) : state := mkState (pool s) l (returned s) (threads s).
Definition put_returned (i : Z) (t : Treiber.t) (s : state) : state :=
  mkState (pool s) (owners s) (<[Z.to_nat i := t]> (returned s)) (threads s).

(** [owners[idx]] panics out of range. *)
Definition owner_of (s : state) (idx : Z) : outcome Z := Treiber.at_index (owners s) idx.
Definition store_owner (idx o : Z) (s : state) : outcome state :=
  l ← Treiber.store (owners s) idx o; Done (put_owners l s).

Definition get_or_init_local_allocator (t : thread) : option LocalAllocator :=
  match local t with
  | Some a => Some a
  | None => if thread_id t <? STACKS then Some (mkLocal (thread_id t) []) else None
  end.

(** [while let Some(idx) = stack.pop() { alloc.local_chunks.push(idx); }]; a vector's top is the head here. *)
Fixpoint drain_returned (fuel : nat) (st : Treiber.t) (l : list Z) : outcome (list Z * Treiber.t) :=
  '(r, st') ← Treiber.pop st;
  match r with
  | None => Done (l, st')
  | Some idx => match fuel with O => OutOfFuel | S fuel' => drain_returned fuel' st' (idx :: l) end
  end.

(** [pool.acquire()], and the store to its entry of [CHUNK_OWNERS]. *)
Definition acquire_for (o : Z) (s : state) : outcome (option Z * state) :=
  '(r, p) ← BufferPool.acquire (pool s);
  match r with
  | None => Done (None, put_pool p s)
  | Some idx => s' ← store_owner idx o (put_pool p s); Done (Some idx, s')
  end.

(** [allocate_buffer], called by thread [j]. *)
Definition allocate_buffer (j : nat) (s : state) : outcome (option Z * state) :=
  match threads s !! j with
  | None => Done (None, s)
  | Some t =>
      match get_or_init_local_allocator t with
      | None => acquire_for U32_MAX s
      | Some a =>
          match local_chunks a with
          | idx :: l => Done (Some idx, put_thread j (Some (mkLocal (thread_idx a) l)) s)
          | [] =>
              '(l, s1) ← match returned s !! Z.to_nat (thread_idx a) with
                         | None => Done ([], s)
                         | Some st =>
                             '(l, st') ← drain_returned (length (Treiber.next st)) st [];
                             Done (l, put_returned (thread_idx a) st' s)
                         end;
              match l with
              | idx :: l' => Done (Some idx, put_thread j (Some (mkLocal (thread_idx a) l')) s1)
              | [] => acquire_for (wrap 32 (thread_idx a)) (put_thread j (Some a) s1)
              end
          end
      end
  end.

(** [free_buffer(idx)], called by thread [j]. *)
Definition free_buffer (j : nat) (idx : Z) (s : state) : outcome state :=
  let release := p ← BufferPool.release idx (pool s); Done (put_pool p s) in
  match threads s !! j with
  | None => Done s
  | Some t =>
      owner ← owner_of s idx;
      if owner =? U32_MAX then release
      else
        let a := get_or_init_local_allocator t in
        let s1 := put_thread j a s in
        match a with
        | Some b =>
            if thread_idx b =? owner then
              Done (put_thread j (Some (mkLocal (thread_idx b) (idx :: local_chunks b))) s1)
            else match returned s !! Z.to_nat owner with
                 | Some st => st' ← Treiber.push idx st; Done (put_returned owner st' s1)
                 | None => p ← BufferPool.release idx (pool s); Done (put_pool p s1)
                 end
        | None =>
            match returned s !! Z.to_nat owner with
            | Some st => st' ← Treiber.push idx st; Done (put_returned owner st' s1)
            | None => release
            end
        end
  end.

(** ** Slices *)

Record BufferSlice := mkSlice { buf_idx : Z; read_pos : Z; write_pos : Z }.

Definition slice_new (idx len : Z) : BufferSlice := mkSlice idx 0 len.
Definition data (b : BufferSlice) (s : state) : Z := BufferPool.get_ptr (buf_idx b) (pool s).
Definition remaining (b : BufferSlice) : Z := sat_sub (write_pos b) (read_pos b).
Definition slice_drop (j : nat) (b : BufferSlice) (s : state) : outcome state := free_buffer j (buf_idx b) s.

(** ** Programs that use it *)

(** [held]: the chunks given out; [lost]: those in the caches of threads that have ended. *)
Record conf := Conf { st : state; held : list Z; lost : list Z }.

Inductive op :=
| Alloc (j : nat)
| Free (j : nat) (idx : Z)
| Start (id : Z)           (* a thread with that number *)
| Exit (j : nat).          (* its cache is dropped with it *)

Fixpoint remove (x : Z) (l : list Z) : list Z :=
  match l with [] => [] | y :: l' => if x =? y then l' else y :: remove x l' end.

Definition cached (t : thread) : list Z := match local t with Some a => local_chunks a | None => [] end.

Definition exec (o : op) (c : conf) : outcome conf :=
  match o with
  | Alloc j =>
      '(r, s) ← allocate_buffer j (st c);
      Done (Conf s (option_list r ++ held c) (lost c))
  | Free j idx => s ← free_buffer j idx (st c); Done (Conf s (remove idx (held c)) (lost c))
  | Start id =>
      Done (Conf (mkState (pool (st c)) (owners (st c)) (returned (st c)) (threads (st c) ++ [mkThread id None]))
              (held c) (lost c))
  | Exit j =>
      match threads (st c) !! j with
      | Some t => Done (Conf (mkState (pool (st c)) (owners (st c)) (returned (st c)) (delete j (threads (st c))))
                          (held c) (cached t ++ lost c))
      | None => Done c
      end
  end.

(** A chunk is freed by who holds it, from a thread with the allocator it was taken from. *)
Definition home (j : nat) (idx : Z) (s : state) : Prop :=
  exists t o, threads s !! j = Some t /\ owners s !! Z.to_nat idx = Some o /\
    (o = U32_MAX \/ thread_idx <$> get_or_init_local_allocator t = Some o).

Definition proper (o : op) (c : conf) : Prop :=
  match o with
  | Free j idx => idx ∈ held c /\ home j idx (st c)
  | Start id => 0 <= id
  | _ => True
  end.

Definition step (c c' : conf) : Prop := exists o, proper o c /\ exec o c = Done c'.

(** ** Invariant *)

Record thread_ok (s : state) (t : thread) : Prop := {
  to_id : 0 <= thread_id t;
  to_idx : forall a, local t = Some a -> 0 <= thread_idx a < U32_MAX;
  to_owns : forall a x, local t = Some a -> x ∈ local_chunks a -> owners s !! Z.to_nat x = Some (thread_idx a)
}.

Record inv (n : Z) (c : conf) : Prop := {
  i_free : exists l, Treiber.ok (BufferPool.free (pool (st c))) l /\
    l ++ (threads (st c) ≫= cached) ++ held c ++ lost c ≡ₚ seqZ 0 n;
  i_size : Z.of_nat (length (Treiber.next (BufferPool.free (pool (st c))))) = n;
  i_owners : Z.of_nat (length (owners (st c))) = n;
  i_returned : returned (st c) = replicate (Z.to_nat STACKS) (Treiber.new 0);
  i_threads : Forall (thread_ok (st c)) (threads (st c))
}.

Lemma bfc_pool_acquire p l : Treiber.ok (BufferPool.free p) l ->
  match l with
  | [] => BufferPool.acquire p = Done (None, p)
  | x :: l' => exists p', BufferPool.acquire p = Done (Some x, p') /\ Treiber.ok (BufferPool.free p') l' /\
                 Treiber.next (BufferPool.free p') = Treiber.next (BufferPool.free p)
  end.
Proof.
  intros Hok. unfold BufferPool.acquire. destruct l as [|x l].
  - rewrite Treiber.tr_pop_none by done. simpl. by destruct p.
  - destruct (Treiber.tr_pop_some _ _ _ Hok) as (t & -> & Hok' & Hn). simpl. by eexists.
Qed.

Lemma bfc_pool_release p l x : Treiber.ok (BufferPool.free p) l -> x ∉ l ->
  0 <= x < Z.of_nat (length (Treiber.next (BufferPool.free p))) ->
  exists p', BufferPool.release x p = Done p' /\ Treiber.ok (BufferPool.free p') (x :: l) /\
    length (Treiber.next (BufferPool.free p')) = length (Treiber.next (BufferPool.free p)).
Proof.
  intros Hok Hx Hr. unfold BufferPool.release.
  destruct (Treiber.tr_push _ x l Hok Hx Hr) as (t & -> & Hok' & Hn). simpl. by eexists.
Qed.

(** Replacing the cache of thread [j]. *)
Lemma bfc_cached_alter j t a ts e1 e2 : ts !! j = Some t -> e1 ++ cached (mkThread (thread_id t) a) ≡ₚ e2 ++ cached t ->
  e1 ++ (alter (fun t => mkThread (thread_id t) a) j ts ≫= cached) ≡ₚ e2 ++ (ts ≫= cached).
Proof.
  intros Hj E. assert (alter (fun t => mkThread (thread_id t) a) j ts = <[j := mkThread (thread_id t) a]> ts) as ->.
  { apply list_eq. intros k. destruct (decide (j = k)) as [<- | Hne].
    - rewrite list_lookup_alter_eq, list_lookup_insert_eq by (by eapply lookup_lt_Some). by rewrite Hj.
    - by rewrite list_lookup_alter_ne, list_lookup_insert_ne. }
  by apply (bind_insert_perm cached ts j t).
Qed.

Lemma bfc_threads_alter (P : thread -> Prop) j a ts : Forall P ts ->
  (forall t, ts !! j = Some t -> P t -> P (mkThread (thread_id t) a)) ->
  Forall P (alter (fun t => mkThread (thread_id t) a) j ts).
Proof.
  rewrite !Forall_lookup. intros Hts Ha k t Hk. apply lookup_alter_Some in Hk as [(<- & t0 & H0 & ->)|[_ Hk]]; eauto.
Qed.

(** The allocator of a thread, found or made. *)
Lemma bfc_allocator s t : thread_ok s t -> match get_or_init_local_allocator t with
  | Some a => cached t = local_chunks a /\ thread_ok s (mkThread (thread_id t) (Some a)) /\ 0 <= thread_idx a < U32_MAX
  | None => cached t = [] /\ local t = None
  end.
Proof.
  intros [Hid Hidx Hown]. unfold get_or_init_local_allocator, cached. destruct (local t) as [a|] eqn:El.
  - split; [done|]. split; [|by apply Hidx]. split; simpl; [done|naive_solver|naive_solver].
  - case_test; [|done]. unfold STACKS in *. split; [done|]. split; [|unfold U32_MAX; simpl; lia]. split; simpl; [done|..].
    + intros a [= <-]. simpl. unfold U32_MAX. lia.
    + intros a x [= <-] Hx. by apply elem_of_nil in Hx.
Qed.

Lemma bfc_elem_cached ts t x : t ∈ ts -> x ∈ cached t -> x ∈ ts ≫= cached.
Proof. intros Ht Hx. apply list_elem_of_bind. eauto. Qed.

(** A chunk's owner changes while no cache has it. *)
Lemma bfc_threads_owners p os r ts x o s : Forall (thread_ok s) ts -> owners s = os -> x ∉ ts ≫= cached -> 0 <= x ->
  Forall (fun i => 0 <= i) (ts ≫= cached) -> Forall (thread_ok (mkState p (<[Z.to_nat x := o]> os) r ts)) ts.
Proof.
  intros Hts <- Hx Hx0 Hpos. rewrite Forall_forall in Hts. rewrite Forall_forall in Hpos. apply Forall_forall. intros t Ht. destruct (Hts t Ht) as [H1 H2 H3].
  split; simpl; [done|done|]. intros a y Ha Hy.
  assert (y ∈ ts ≫= cached) as Hyc by (apply (bfc_elem_cached ts t); [done|unfold cached; by rewrite Ha]).
  rewrite list_lookup_insert_ne; [by apply H3|]. intros E. specialize (Hpos y Hyc).
  assert (x = y) by lia. by subst.
Qed.

Lemma bfc_range n c l : l ++ (threads (st c) ≫= cached) ++ held c ++ lost c ≡ₚ seqZ 0 n ->
  NoDup (l ++ (threads (st c) ≫= cached) ++ held c ++ lost c) /\
  forall x, x ∈ l ++ (threads (st c) ≫= cached) ++ held c ++ lost c -> 0 <= x < n.
Proof.
  intros E. split; [rewrite E; apply NoDup_seqZ|]. intros x Hx. rewrite E in Hx. apply elem_of_seqZ in Hx. lia.
Qed.

(** Taking a chunk from the global pool for owner [o]. *)
Lemma bfc_acquire_for n c l o : inv n c -> Treiber.ok (BufferPool.free (pool (st c))) l ->
  l ++ (threads (st c) ≫= cached) ++ held c ++ lost c ≡ₚ seqZ 0 n ->
  match l with
  | [] => acquire_for o (st c) = Done (None, st c)
  | x :: _ => exists s', acquire_for o (st c) = Done (Some x, s') /\ inv n (Conf s' (x :: held c) (lost c)) /\
                owners s' !! Z.to_nat x = Some o /\ threads s' = threads (st c)
  end.
Proof.
  intros [_ Hsz How Hret Hts] Hok Hp. pose proof (bfc_range n c l Hp) as [Hnd Hr]. unfold acquire_for.
  pose proof (bfc_pool_acquire _ _ Hok) as Ha. destruct l as [|x l].
  - rewrite Ha. simpl. by destruct (st c).
  - destruct Ha as (p' & -> & Hok' & Hn). simpl. assert (0 <= x < n) as Hx by (apply Hr; by left).
    unfold store_owner, Treiber.store. simpl. destruct (lookup_lt_is_Some_2 (owners (st c)) (Z.to_nat x)) as [y Hy]; [lia|].
    rewrite Hy. simpl. eexists. split; [done|]. split; [|split; [|done]].
    + split; simpl.
      * exists l. split; [done|]. rewrite <- Hp. simpl. rewrite <- !Permutation_middle. done.
      * by rewrite Hn.
      * by rewrite length_insert.
      * done.
      * apply (bfc_threads_owners _ _ _ _ _ _ (st c)); try done; [|lia|].
        -- apply NoDup_cons in Hnd as [Hni _]. intros H. apply Hni. apply elem_of_app. right. apply elem_of_app. by left.
        -- apply Forall_forall. intros i Hi. apply Hr. right. apply elem_of_app. right. apply elem_of_app. by left.
    + simpl. apply list_lookup_insert_eq. by eapply lookup_lt_Some.
Qed.

(** Giving thread [j] another cache, with the chunks [out] instead of [take]. *)
Lemma bfc_put_thread n c j t a l held' : inv n c -> threads (st c) !! j = Some t ->
  Treiber.ok (BufferPool.free (pool (st c))) l -> l ++ (threads (st c) ≫= cached) ++ held c ++ lost c ≡ₚ seqZ 0 n ->
  thread_ok (st c) (mkThread (thread_id t) a) ->
  cached (mkThread (thread_id t) a) ++ held' ≡ₚ cached t ++ held c ->
  inv n (Conf (put_thread j a (st c)) held' (lost c)) /\
  l ++ (threads (put_thread j a (st c)) ≫= cached) ++ held' ++ lost c ≡ₚ seqZ 0 n.
Proof.
  intros [_ Hsz How Hret Hts] Hj Hok Hp Ht Hc.
  assert (l ++ (threads (put_thread j a (st c)) ≫= cached) ++ held' ++ lost c ≡ₚ seqZ 0 n) as Hp'.
  { rewrite <- Hp. f_equiv. rewrite !app_assoc. f_equiv. simpl.
    rewrite (Permutation_app_comm _ held'), (Permutation_app_comm _ (held c)).
    apply (bfc_cached_alter j t); [done|]. by rewrite (Permutation_app_comm held'), (Permutation_app_comm (held c)). }
  split; [|done]. split; try done; [by exists l|]. simpl. apply bfc_threads_alter.
  - eapply Forall_impl; [exact Hts|]. intros u [H1 H2 H3]. by split.
  - intros u Hu _. rewrite Hj in Hu. injection Hu as <-. destruct Ht as [H1 H2 H3]. by split.
Qed.

Lemma bfc_drain_empty fuel : drain_returned fuel (Treiber.new 0) [] = Done ([], Treiber.new 0).
Proof. by destruct fuel. Qed.

Lemma bfc_returned n c i : inv n c -> 0 <= i ->
  (if i <? STACKS then returned (st c) !! Z.to_nat i = Some (Treiber.new 0) else returned (st c) !! Z.to_nat i = None) /\
  (i < STACKS -> put_returned i (Treiber.new 0) (st c) = st c).
Proof.
  intros Hi H0. pose proof (i_returned _ _ Hi) as Hr. rewrite Hr. unfold STACKS in *. split.
  - case_test; [apply lookup_replicate; split; [done|lia]|]. apply lookup_ge_None. rewrite length_replicate. lia.
  - intros Hlt. unfold put_returned. rewrite Hr, list_insert_id by (apply lookup_replicate; split; [done|lia]).
    rewrite <- Hr. by destruct (st c).
Qed.

(** What [allocate_buffer] returns: the chunk last put into the thread's cache, or the first free one of the global pool. *)
Lemma bfc_allocate n c j t l : inv n c -> threads (st c) !! j = Some t ->
  Treiber.ok (BufferPool.free (pool (st c))) l -> l ++ (threads (st c) ≫= cached) ++ held c ++ lost c ≡ₚ seqZ 0 n ->
  exists s', allocate_buffer j (st c) = Done (head (cached t ++ l), s') /\
    inv n (Conf s' (option_list (head (cached t ++ l)) ++ held c) (lost c)).
Proof.
  intros Hi Hj Hok Hp. unfold allocate_buffer. rewrite Hj.
  assert (thread_ok (st c) t) as Ht by (pose proof (i_threads _ _ Hi) as H; by eapply Forall_lookup_1 in H).
  pose proof (bfc_allocator _ _ Ht) as Ha. destruct (get_or_init_local_allocator t) as [a|].
  - destruct Ha as (Ec & Hta & Hidx). rewrite Ec. destruct (local_chunks a) as [|x l'] eqn:El; simpl.
    + assert (match returned (st c) !! Z.to_nat (thread_idx a) with
              | None => Done ([], st c)
              | Some st0 => '(l, st') ← drain_returned (length (Treiber.next st0)) st0 [];
                            Done (l, put_returned (thread_idx a) st' (st c))
              end = Done ([], st c)) as ->.
      { destruct (bfc_returned n c (thread_idx a) Hi ltac:(lia)) as [Hr Hput].
        destruct (Z.ltb_spec (thread_idx a) STACKS); rewrite Hr; [|done]. rewrite bfc_drain_empty. simpl. by rewrite Hput. }
      simpl. destruct (bfc_put_thread n c j t (Some a) l (held c) Hi Hj Hok Hp Hta) as [Hi' Hp'].
      { unfold cached at 1. simpl. by rewrite El, Ec. }
      pose proof (bfc_acquire_for n _ l (wrap 32 (thread_idx a)) Hi' Hok Hp') as Hacq. simpl in Hacq.
      destruct l as [|x l]; [by rewrite Hacq; eexists|]. destruct Hacq as (s' & -> & Hi2 & _). simpl. by eexists.
    + eexists. split; [done|]. simpl. apply (bfc_put_thread n c j t _ l); try done.
      * destruct Hta as [H1 H2 H3]. split; simpl; [done|..]; intros b; [intros [= <-]; apply Hidx|].
        intros y [= <-] Hy. apply (H3 a y); [done|]. rewrite El. by right.
      * rewrite Ec. unfold cached. simpl. by rewrite Permutation_middle.
  - destruct Ha as [-> _]. simpl. pose proof (bfc_acquire_for n c l U32_MAX Hi Hok Hp) as Hacq.
    destruct l as [|x l]; [rewrite Hacq; eexists; by destruct c|]. destruct Hacq as (s' & -> & Hi2 & _). simpl. by eexists.
Qed.

Lemma bfc_remove_perm x l : x ∈ l -> x :: remove x l ≡ₚ l.
Proof.
  induction l as [|y l IH]; [by intros ?%elem_of_nil|]. intros Hx. simpl. destruct (Z.eqb_spec x y) as [-> |Hne]; [done|].
  apply elem_of_cons in Hx as [?|Hx]; [done|]. rewrite <- (IH Hx) at 2. apply perm_swap.
Qed.

(** A chunk that is held is in no other place. *)
Lemma bfc_held n c l x : l ++ (threads (st c) ≫= cached) ++ held c ++ lost c ≡ₚ seqZ 0 n -> x ∈ held c ->
  x ∉ l /\ x ∉ threads (st c) ≫= cached /\ 0 <= x < n.
Proof.
  intros Hp Hx. destruct (bfc_range n c l Hp) as [Hnd Hr].
  assert (x ∈ held c ++ lost c) as Hx' by (apply elem_of_app; by left).
  apply NoDup_app in Hnd as (_ & Hd1 & Hnd). apply NoDup_app in Hnd as (_ & Hd2 & _). split; [|split].
  - intros H. apply (Hd1 x H). apply elem_of_app. by right.
  - intros H. by apply (Hd2 x H).
  - apply Hr. apply elem_of_app. right. apply elem_of_app. by right.
Qed.

(** A held chunk goes back to the global pool. *)
Lemma bfc_release n c x : inv n c -> x ∈ held c ->
  exists p, BufferPool.release x (pool (st c)) = Done p /\ inv n (Conf (put_pool p (st c)) (remove x (held c)) (lost c)).
Proof.
  intros [(l & Hok & Hp) Hsz How Hret Hts] Hx. destruct (bfc_held n c l x Hp Hx) as (Hni & _ & Hr).
  destruct (bfc_pool_release _ _ x Hok Hni) as (p & -> & Hok' & Hn); [by rewrite Hsz|].
  exists p. split; [done|]. split; simpl; try done.
  - exists (x :: l). split; [done|]. rewrite <- Hp. pose proof (bfc_remove_perm x (held c) Hx) as Hrm.
    revert Hrm. generalize (remove x (held c)). intros r <-. simpl. by rewrite <- !Permutation_middle.
  - by rewrite Hn.
  - eapply Forall_impl; [exact Hts|]. intros u [H1 H2 H3]. by split.
Qed.

(** [free_buffer] at home. *)
Lemma bfc_free n c j x : inv n c -> x ∈ held c -> home j x (st c) ->
  exists s', free_buffer j x (st c) = Done s' /\ inv n (Conf s' (remove x (held c)) (lost c)).
Proof.
  intros Hi Hx (t & o & Hj & Ho & Hor). unfold free_buffer, owner_of, Treiber.at_index. rewrite Hj, Ho.
  cbn [mbind outcome_bind]. destruct (bfc_release n c x Hi Hx) as (p & Ep & Hip).
  case_test; [rewrite Ep; simpl; by eexists|]. destruct Hor as [?|Hor]; [done|].
  assert (thread_ok (st c) t) as Ht by (pose proof (i_threads _ _ Hi) as H; by eapply Forall_lookup_1 in H).
  pose proof (bfc_allocator _ _ Ht) as Ha. destruct (get_or_init_local_allocator t) as [a|]; [|done].
  injection Hor as <-. rewrite Z.eqb_refl. destruct Ha as (Ec & Hta & Hidx). eexists. split; [done|].
  destruct (i_free _ _ Hi) as (l & Hok & Hp). set (a' := mkLocal (thread_idx a) (x :: local_chunks a)).
  assert (put_thread j (Some a') (put_thread j (Some a) (st c)) = put_thread j (Some a') (st c)) as ->.
  { unfold put_thread. simpl. f_equal. apply list_eq. intros k. destruct (decide (j = k)) as [<- | Hk].
    - rewrite !list_lookup_alter_eq. by destruct (threads (st c) !! j).
    - by rewrite !list_lookup_alter_ne. }
  apply (bfc_put_thread n c j t _ l); try done.
  - destruct Hta as [H1 H2 H3]. split; simpl; [done|..]; intros b; [intros [= <-]; apply Hidx|].
    intros y [= <-] [-> | Hy]%elem_of_cons; [done|]. by apply (H3 a y).
  - rewrite Ec. pose proof (bfc_remove_perm x (held c) Hx) as Hrm. revert Hrm. generalize (remove x (held c)). intros r <-.
    unfold cached. simpl. by rewrite <- Permutation_middle.
Qed.

(** Elsewhere it panics: the returned stacks were made for no index at all. *)
Lemma bfc_foreign n c j x t o : inv n c -> threads (st c) !! j = Some t -> owners (st c) !! Z.to_nat x = Some o ->
  0 <= o < STACKS -> thread_idx <$> get_or_init_local_allocator t <> Some o -> free_buffer j x (st c) = Panic.
Proof.
  intros Hi Hj Ho Hr Hne. unfold free_buffer, owner_of, Treiber.at_index. rewrite Hj, Ho. cbn [mbind outcome_bind].
  unfold STACKS in Hr. case_test; [unfold U32_MAX in *; lia|].
  destruct (bfc_returned n c o Hi ltac:(lia)) as [Hret _]. unfold STACKS in Hret. rewrite (proj2 (Z.ltb_lt o 512)) in Hret by lia.
  rewrite Hret. destruct (get_or_init_local_allocator t) as [a|].
  - destruct (Z.eqb_spec (thread_idx a) o) as [<- |]; [|done]. by destruct Hne.
  - done.
Qed.

Lemma bfc_step n c o : inv n c -> proper o c -> exists c', exec o c = Done c' /\ inv n c'.
Proof.
  intros Hi Hpr. destruct o as [j|j x|id|j]; simpl in *.
  - destruct (threads (st c) !! j) as [t|] eqn:Hj.
    + destruct (i_free _ _ Hi) as (l & Hok & Hp). destruct (bfc_allocate n c j t l Hi Hj Hok Hp) as (s' & -> & Hi'). simpl. by eexists.
    + unfold allocate_buffer. rewrite Hj. simpl. eexists. split; [done|]. by destruct c.
  - destruct Hpr as [Hx Hh]. destruct (bfc_free n c j x Hi Hx Hh) as (s' & -> & Hi'). simpl. by eexists.
  - eexists. split; [done|]. destruct Hi as [(l & Hok & Hp) Hsz How Hret Hts]. split; simpl; try done.
    + exists l. split; [done|]. rewrite bind_app. simpl. by rewrite app_nil_r.
    + apply Forall_app. split; [eapply Forall_impl; [exact Hts|]; intros u [H1 H2 H3]; by split|].
      repeat constructor; simpl; done.
  - destruct (threads (st c) !! j) as [t|] eqn:Hj; [|by eexists]. eexists. split; [done|].
    destruct Hi as [(l & Hok & Hp) Hsz How Hret Hts]. split; simpl; try done.
    + exists l. split; [done|]. rewrite <- Hp. f_equiv. apply delete_Permutation in Hj. rewrite Hj at 2.
      change ((t :: delete j (threads (st c))) ≫= cached) with (cached t ++ (delete j (threads (st c)) ≫= cached)).
      solve_perm.
    + apply Forall_delete. eapply Forall_impl; [exact Hts|]. intros u [H1 H2 H3]. by split.
Qed.

Lemma bfc_init ptr workers size chunk s : 1 <= size <= U32_MAX -> Z.of_nat workers < U32_MAX ->
  init (Some ptr) workers size chunk = Done s -> inv size (Conf s [] []).
Proof.
  intros Hsz Hw E. unfold init in E. destruct (BufferPool.new (Some ptr) size chunk) as [p| |] eqn:Ep; simpl in E; try done.
  injection E as <-. destruct (BufferPool.bp_new (Some ptr) ptr size chunk p ltac:(lia) eq_refl Ep) as (Hok & _ & _ & Hlen).
  rewrite Z.max_l in Hok, Hlen by lia. split; simpl; try done.
  - exists (seqZ 0 size). split; [done|].
    assert ((((fun i => mkThread 0 (Some (mkLocal (Z.of_nat i) []))) <$> seq 0 workers) ≫= cached) = []) as ->.
    { generalize 0%nat as k. induction workers as [|m IH]; intros k; [done|]. simpl. apply (IH ltac:(lia)). }
    by rewrite app_nil_r.
  - rewrite length_replicate. lia.
  - apply Forall_fmap, Forall_forall. intros i Hi%elem_of_seq. split; simpl; [done|..].
    + intros a [= <-]. simpl. lia.
    + intros a x [= <-] Hx. by apply elem_of_nil in Hx.
Qed.

Lemma bfc_reachable n c c' : inv n c -> rtc step c c' -> inv n c'.
Proof.
  intros Hi H. induction H as [|c1 c2 c3 (o & Hp & E) _ IH]; [done|]. apply IH.
  destruct (bfc_step n c1 o Hi Hp) as (c' & E' & Hi'). rewrite E in E'. by injection E' as <-.
Qed.

(** ** Theorems *)

Definition fresh_runtime (workers : nat) (size chunk : Z) (s : state) : Prop :=
  1 <= size <= U32_MAX /\ Z.of_nat workers < U32_MAX /\ exists ptr, init (Some ptr) workers size chunk = Done s.

(** C14.  Every chunk of the arena is in one place at each moment: free in the global pool, in the cache of a thread, given out, or
    lost with the cache of a thread that has ended.  As long as chunks are freed by threads with the
    allocator they were taken from, no call panics; an allocation returns the chunk the thread freed last
    or the first free one of the global pool, and fails exactly when its own cache and the pool are
    empty, whatever other threads have in their caches. *)
Theorem buffer_chunks_conserved (workers : nat) (size chunk : Z) (s : state) (c : conf) :
  fresh_runtime workers size chunk s -> rtc step (Conf s [] []) c ->
  exists free, Treiber.ok (BufferPool.free (pool (st c))) free /\
    free ++ (threads (st c) ≫= cached) ++ held c ++ lost c ≡ₚ seqZ 0 size /\
    (forall o, proper o c -> exists c', exec o c = Done c') /\
    forall j t, threads (st c) !! j = Some t ->
      exists s', allocate_buffer j (st c) = Done (head (cached t ++ free), s').
Proof.
  intros (Hsz & Hw & ptr & Hinit) Hr. pose proof (bfc_reachable size _ c (bfc_init ptr workers size chunk s Hsz Hw Hinit) Hr) as Hi.
  destruct (i_free _ _ Hi) as (l & Hok & Hp). exists l. split; [done|]. split; [done|]. split.
  - intros o Ho. destruct (bfc_step size c o Hi Ho) as (c' & E & _). by exists c'.
  - intros j t Hj. destruct (bfc_allocate size c j t l Hi Hj Hok Hp) as (s' & E & _). by exists s'.
Qed.

(** A chunk cannot be freed on another thread: if it was taken from the pool by a thread numbered below 512, freeing it on a thread with
    another allocator, or none, panics with an index out of range.  The stacks that should take it back are
    built by [init_runtime] with [TreiberStack::new(0)], which has no room for any index. *)
Theorem free_elsewhere_panics (workers : nat) (size chunk : Z) (s : state) (c : conf) (j : nat) (t : thread) (x o : Z) :
  fresh_runtime workers size chunk s -> rtc step (Conf s [] []) c ->
  threads (st c) !! j = Some t -> owners (st c) !! Z.to_nat x = Some o -> 0 <= o < STACKS ->
  thread_idx <$> get_or_init_local_allocator t <> Some o -> free_buffer j x (st c) = Panic.
Proof.
  intros (Hsz & Hw & ptr & Hinit) Hr. eapply (bfc_foreign size).
  exact (bfc_reachable size _ c (bfc_init ptr workers size chunk s Hsz Hw Hinit) Hr).
Qed.

(** *** Concrete executions *)

Fixpoint run (os : list op) (c : conf) : outcome conf :=
  match os with [] => Done c | o :: os' => c' ← exec o c; run os' c' end.

#[export] Instance proper_dec o c : Decision (proper o c).
Proof.
  destruct o as [j|j x|id|j]; simpl; try apply _. unfold home.
  destruct (threads (st c) !! j) as [t|]; [|right; naive_solver].
  destruct (owners (st c) !! Z.to_nat x) as [o|]; [|right; naive_solver].
  destruct (decide (x ∈ held c /\ (o = U32_MAX \/ thread_idx <$> get_or_init_local_allocator t = Some o))) as [H|H].
  - left. destruct H. split; [done|]. by exists t, o.
  - right. intros [Hx (t' & o' & [= <-] & [= <-] & Ho)]. by apply H.
Defined.

Fixpoint all_proper (os : list op) (c : conf) : bool :=
  match os with
  | [] => true
  | o :: os' => bool_decide (proper o c) && match exec o c with Done c' => all_proper os' c' | _ => false end
  end.

Lemma bfc_run_reachable os c c' : all_proper os c = true -> run os c = Done c' -> rtc step c c'.
Proof.
  revert c; induction os as [|o os IH]; intros c Hp E; simpl in *; [by injection E as ->|].
  apply andb_true_iff in Hp as [Ho%bool_decide_eq_true Hp]. destruct (exec o c) as [c1| |] eqn:E1; try done.
  simpl in E. eapply rtc_l; [by exists o|by apply IH].
Qed.

Definition runtime : state :=
  match init (Some 4096) 1 4 512 with Done s => s | _ => mkState (BufferPool.mk 0 0 0 (Treiber.new 0)) [] [] [] end.

Lemma bfc_runtime_fresh : fresh_runtime 1 4 512 runtime.
Proof. split; [unfold U32_MAX; lia|]. split; [unfold U32_MAX; simpl; lia|]. by exists 4096. Qed.

(** Application threads 0 and 1 start (the io-worker is first in the list); the first takes two chunks and frees one. *)
Definition two_threads : list op := [Start 1; Start 2; Alloc 1; Alloc 1; Free 1 0].

Lemma buffer_chunks_conserved_witness :
  exists c, run two_threads (Conf runtime [] []) = Done c /\ held c = [1] /\
    exists free, free ++ (threads (st c) ≫= cached) ++ held c ++ lost c ≡ₚ seqZ 0 4.
Proof.
  eexists. split; [vm_compute; reflexivity|]. split; [reflexivity|].
  match goal with |- context [held ?c] => destruct (buffer_chunks_conserved 1 4 512 runtime c) as (free & _ & H & _) end.
  - exact bfc_runtime_fresh.
  - apply bfc_run_reachable with (os := two_threads); vm_compute; reflexivity.
  - by exists free.
Defined.

Lemma free_elsewhere_panics_witness :
  exists c, run two_threads (Conf runtime [] []) = Done c /\ held c = [1] /\ free_buffer 2 1 (st c) = Panic.
Proof.
  eexists. split; [vm_compute; reflexivity|]. split; [reflexivity|].
  match goal with |- free_buffer 2 1 (st ?c) = Panic =>
    apply (free_elsewhere_panics 1 4 512 runtime c 2 (mkThread 2 None) 1 1) end.
  - exact bfc_runtime_fresh.
  - apply bfc_run_reachable with (os := two_threads); vm_compute; reflexivity.
  - reflexivity.
  - reflexivity.
  - unfold STACKS. lia.
  - discriminate.
Defined.

(** What a thread has cached when it ends is never given out again. *)
Lemma exit_loses_chunks :
  exists c, run (two_threads ++ [Exit 1; Alloc 1; Alloc 1; Alloc 1]) (Conf runtime [] []) = Done c /\
    lost c = [0] /\ held c = [3; 2; 1].
Proof. eexists. split; [vm_compute; reflexivity|]. by split. Qed.

End BufferCache.
