(* ===== verification/MpmcStack.v ===== *)
(** * MpmcStack

    [MpmcStack] of [src/dtact-util/src/lockfree.rs]: the heap-allocated
    Treiber stack behind the timer wheel, the wait queues and the unbounded
    channel.  One call at a time; [items] is the chain from the head, the
    newest first, and [slen] the advisory length counter. *)

From S2P Require Import Prelude.

Module Stack.
Section stack.
Context {A : Type}.

Record t := mk { items : list A; slen : Z }.

Definition new : t := mk [] 0.

Definition push (value : A) (s : t) : t := mk (value :: items s) (wadd 64 (slen s) 1).

Definition pop (s : t) : option A * t :=
  match items s with
  | [] => (None, s)
  | v :: l => (Some v, mk l (wsub 64 (slen s) 1))
  end.

(** The chain is walked from the head and the result reversed. *)
Definition drain_all (s : t) : list A * t := (reverse (items s), mk [] 0).

Definition is_empty (s : t) : bool := match items s with [] => true | _ => false end.

Definition len (s : t) : Z := slen s.

(** The pointer reversal of [drain_into_vec_deque]: [prev] is the chain
    reversed so far. *)
Fixpoint reverse_chain (current prev : list A) : list A :=
  match current with
  | [] => prev
  | v :: next => reverse_chain next (v :: prev)
  end.

(** The length counter is left as it was. *)
Definition drain_into_vec_deque (target : list A) (s : t) : list A * t :=
  (target ++ reverse_chain (items s) [], mk [] (slen s)).

Lemma st_reverse_chain current prev : reverse_chain current prev = reverse current ++ prev.
Proof.
  revert prev. induction current as [|v l IH]; intros prev; simpl; [done|].
  by rewrite IH, reverse_cons, <- app_assoc.
Qed.

Lemma st_drain_into target s :
  fst (drain_into_vec_deque target s) = target ++ fst (drain_all s).
Proof. simpl. by rewrite st_reverse_chain, app_nil_r. Qed.

Lemma st_pushes l s :
  items (foldl (fun s v => push v s) s l) = reverse l ++ items s.
Proof.
  revert s. induction l as [|v l IH]; intros s; simpl; [done|].
  rewrite IH, reverse_cons, <- app_assoc. done.
Qed.
End stack.
Arguments t A : clear implicits.
End Stack.
