(* ===== verification/Timer.v ===== *)
(** * Timer

    The native timer backend (src/dtact-util/src/timer/native.rs): a hashed
    timing wheel of 256 slots of one millisecond, its worker thread, and the
    futures on top of it.

    Instants are nanoseconds since [Wheel::start].  A registration reads the
    current tick and pushes its node later, so the worker may tick in between;
    the state of a timer ([SleepState::status]) is looked up by a number that
    stands for its [Arc]. *)

From S2P Require Import Prelude MpmcStack.

Module Wheel.

Definition WHEEL_BITS : Z := 8.
Definition WHEEL_SIZE : Z := Z.shiftl 1 WHEEL_BITS.
Definition WHEEL_MASK : Z := WHEEL_SIZE - 1.
Definition TICK : Z := 1000000.

Definition PENDING : Z := 0.
Definition DONE : Z := 1.

Record node := mkNode { nd_state : Z; nd_rounds : Z }.

#[global] Instance node_eq_dec : EqDecision node.
Proof. solve_decision. Defined.

Record t := mk {
  buckets : gmap Z (Stack.t node);
  current_tick : Z;
  pending : Z;
  status : gmap Z Z
}.

Definition bucket (w : t) (slot : Z) : Stack.t node := default Stack.new (buckets w !! slot).

Definition wheel : t := mk ∅ 0 0 ∅.

(** ** Registration *)

(** [remaining.as_nanos().div_ceil(TICK.as_nanos()) as u64]. *)
Definition ticks_from_now (remaining : Z) : Z := wrap 64 ((remaining + TICK - 1) / TICK).

(** Where a registration puts its node, from the tick it has read. *)
Definition place (tick ticks : Z) : Z * Z :=
  (Z.land (wadd 64 tick ticks) WHEEL_MASK, Z.shiftr ticks WHEEL_BITS).

(** The push of the node and the count. *)
Definition push_node (slot : Z) (nd : node) (w : t) : t :=
  mk (<[slot := Stack.push nd (bucket w slot)]> (buckets w)) (current_tick w)
     (wadd 64 (pending w) 1) (<[nd_state nd := PENDING]> (status w)).

(** [register] with nothing in between. *)
Definition register (deadline now id : Z) (w : t) : t :=
  if deadline <=? now then
    mk (buckets w) (current_tick w) (pending w) (<[id := DONE]> (status w))
  else
    let '(slot, rounds) := place (current_tick w) (ticks_from_now (deadline - now)) in
    push_node slot (mkNode id rounds) w.

(** ** The worker *)

(** [w.start + TICK * (tick as u32 + 1)]. *)
Definition tick_deadline (w : t) : Z := TICK * wadd 32 (wrap 32 (current_tick w)) 1.

(** One node of a drained batch: fire it, or count a round down and push it back. *)
Definition visit (slot : Z) (acc : t * list Z) (nd : node) : t * list Z :=
  let '(w, fired) := acc in
  if nd_rounds nd =? 0 then
    (mk (buckets w) (current_tick w) (pending w) (<[nd_state nd := DONE]> (status w)),
     fired ++ [nd_state nd])
  else
    let nd' := mkNode (nd_state nd) (wsub 64 (nd_rounds nd) 1) in
    (mk (<[slot := Stack.push nd' (bucket w slot)]> (buckets w)) (current_tick w)
        (pending w) (status w), fired).

(** The worker's loop body from the [fetch_add] on. *)
Definition tick (w : t) : t * list Z :=
  let tk := wadd 64 (current_tick w) 1 in
  let slot := Z.land tk WHEEL_MASK in
  let w1 := mk (buckets w) tk (pending w) (status w) in
  if Stack.is_empty (bucket w1 slot) then (w1, [])
  else
    let '(batch, rest) := Stack.drain_all (bucket w1 slot) in
    let w2 := mk (<[slot := rest]> (buckets w1)) tk (pending w) (status w) in
    let '(w3, fired) := foldl (visit slot) (w2, []) batch in
    (mk (buckets w3) (current_tick w3)
        (match fired with [] => pending w3 | _ => wsub 64 (pending w3) (Z.of_nat (length fired)) end)
        (status w3), fired).

(** One iteration of [worker_loop]; [now] and [now'] are the readings of the
    clock before and after [park_timeout].  The result says whether the
    worker parked, and which timers fired. *)
Definition worker_iteration (now now' : Z) (w : t) : t * (bool * list Z) :=
  if pending w =? 0 then (w, (true, []))
  else if now <? tick_deadline w then
    if now' <? tick_deadline w then (w, (true, []))
    else let '(w', fired) := tick w in (w', (true, fired))
  else let '(w', fired) := tick w in (w', (false, fired)).

(** ** The futures *)

(** [DtactSleep::poll]: [s1] and [s2] are the statuses seen before and after the
    waker is registered; the second component says whether it was. *)
Definition sleep_poll (s1 s2 : Z) : Poll unit * bool :=
  if s1 =? DONE then (Ready tt, false)
  else if s2 =? DONE then (Ready tt, true)
  else (Pending, true).

(** [DtactSleep::new]. *)
Definition sleep (duration now now' id : Z) (w : t) : t := register (now + duration) now' id w.

Inductive MissedTickBehavior := Burst | Skip | Delay.

Record DtactInterval := mkInterval {
  period : Z;
  next : Z;
  missed_tick_behavior : MissedTickBehavior
}.

Definition interval_new (p now : Z) : outcome DtactInterval :=
  if 0 <? p then Done (mkInterval p (now + p) Burst) else Panic.

Fixpoint skip_loop (fuel : nat) (p nxt now : Z) : outcome Z :=
  if nxt <=? now then
    match fuel with O => OutOfFuel | S fuel' => skip_loop fuel' p (nxt + p) now end
  else Done nxt.

Definition skip_fuel (p nxt now : Z) : nat := Z.to_nat ((now - nxt) / p + 1).

(** [tick] once its sleep is over. *)
Definition interval_tick (now : Z) (i : DtactInterval) : outcome (Z * DtactInterval) :=
  let fired_at := next i in
  nxt ← match missed_tick_behavior i with
        | Burst => Done (next i + period i)
        | Skip => skip_loop (skip_fuel (period i) (next i + period i) now) (period i)
                    (next i + period i) now
        | Delay => Done (now + period i)
        end;
  Done (fired_at, mkInterval (period i) nxt (missed_tick_behavior i)).

Inductive TimeoutError := Elapsed.

Definition timeout_poll {A} (inner : Poll A) (s1 s2 : Z) : Poll (result A TimeoutError) :=
  match inner with
  | Ready v => Ready (Ok v)
  | Pending => match fst (sleep_poll s1 s2) with Ready _ => Ready (Err Elapsed) | Pending => Pending end
  end.
End Wheel.

(** ** The wheel as a set of countdowns *)

Module WheelSpec.
Import Wheel.

(** Ticks until a node of [slot] with [rounds] left fires. *)
Definition countdown (tk slot rounds : Z) : Z := (slot - tk - 1) `mod` 256 + 1 + 256 * rounds.

Definition slot_view (tk slot : Z) (l : list node) : list (Z * Z) :=
  (fun nd => (nd_state nd, countdown tk slot (nd_rounds nd))) <$> l.

Definition view (w : t) : list (Z * Z) :=
  seqZ 0 256 ≫= fun s => slot_view (current_tick w) s (Stack.items (bucket w s)).

(** A tick of the specification: countdowns at one expire, the others go down. *)
Definition survivors (l : list (Z * Z)) : list (Z * Z) :=
  omap (fun '(i, c) => if c =? 1 then None else Some (i, c - 1)) l.
Definition expired (l : list (Z * Z)) : list Z :=
  omap (fun '(i, c) => if c =? 1 then Some i else None) l.

Definition rounds_ok (w : t) : Prop :=
  forall s nd, nd ∈ Stack.items (bucket w s) -> 0 <= nd_rounds nd < 2 ^ 64.

Definition ok (w : t) : Prop :=
  rounds_ok w /\ pending w = wrap 64 (Z.of_nat (length (view w))).

(** The delay in ticks of a timer of [n] ticks. *)
Definition fire_after (n : Z) : Z := if n `mod` 256 =? 0 then n + 256 else n.

Lemma tw_bind_perm {A B} (l : list A) (f g : A -> list B) :
  (forall x, x ∈ l -> f x ≡ₚ g x) -> l ≫= f ≡ₚ l ≫= g.
Proof.
  induction l as [|x l IH]; intros H; simpl; [done|].
  rewrite (H x) by set_solver. rewrite IH by set_solver. done.
Qed.

(** One element's share of a concatenation changes. *)
Lemma tw_bind_at {B} (l : list Z) (x : Z) (e : list B) (f g : Z -> list B) :
  NoDup l -> x ∈ l -> (forall y, y ∈ l -> y <> x -> f y ≡ₚ g y) -> f x ≡ₚ e ++ g x ->
  l ≫= f ≡ₚ e ++ (l ≫= g).
Proof.
  intros Hnd Hin Hne Hx. apply list_elem_of_split in Hin as (l1 & l2 & ->).
  apply NoDup_app in Hnd as (_ & N1 & N2). apply NoDup_cons in N2 as [N2 _].
  rewrite !bind_app, !bind_cons, Hx.
  rewrite (tw_bind_perm l1 f g), (tw_bind_perm l2 f g) by set_solver.
  rewrite <- app_assoc, Permutation_app_swap_app. done.
Qed.

Lemma tw_omap_bind {A B C} (h : B -> option C) (f : A -> list B) l :
  omap h (l ≫= f) = l ≫= (fun x => omap h (f x)).
Proof. induction l as [|x l IH]; [done|]. simpl. rewrite omap_app. by f_equal. Qed.

Lemma tw_bucket_insert_eq w s st tk p stt :
  bucket (mk (<[s := st]> (buckets w)) tk p stt) s = st.
Proof. unfold bucket. simpl. by rewrite lookup_insert_eq. Qed.

Lemma tw_bucket_insert_ne w s s' st tk p stt : s <> s' ->
  bucket (mk (<[s := st]> (buckets w)) tk p stt) s' = bucket w s'.
Proof. intros. unfold bucket. simpl. by rewrite lookup_insert_ne. Qed.

Definition fires (nd : node) : bool := nd_rounds nd =? 0.
Definition kept (l : list node) : list node :=
  omap (fun nd => if fires nd then None
                  else Some (mkNode (nd_state nd) (wsub 64 (nd_rounds nd) 1))) l.
Definition fired (l : list node) : list Z :=
  omap (fun nd => if fires nd then Some (nd_state nd) else None) l.

(** The worker's walk over a batch. *)
Lemma tw_visits slot batch : forall w f,
  let r := foldl (visit slot) (w, f) batch in
  snd r = f ++ fired batch /\
  Stack.items (bucket (fst r) slot) = reverse (kept batch) ++ Stack.items (bucket w slot) /\
  (forall s, s <> slot -> bucket (fst r) s = bucket w s) /\
  current_tick (fst r) = current_tick w /\ pending (fst r) = pending w.
Proof.
  induction batch as [|nd batch IH]; intros w f; simpl.
  - rewrite app_nil_r. auto.
  - unfold fires. destruct (nd_rounds nd =? 0) eqn:E.
    + destruct (IH (mk (buckets w) (current_tick w) (pending w) (<[nd_state nd := DONE]> (status w)))
        (f ++ [nd_state nd])) as (-> & -> & H3 & -> & ->).
      rewrite <- app_assoc. repeat split; auto.
    + set (w1 := mk _ _ _ _). destruct (IH w1 f) as (-> & -> & H3 & -> & ->).
      repeat split; auto.
      * unfold w1. rewrite tw_bucket_insert_eq. simpl.
        rewrite reverse_cons, <- app_assoc. done.
      * intros s Hs. rewrite H3 by done. unfold w1. by rewrite tw_bucket_insert_ne.
Qed.

Lemma tw_mask x : Z.land x WHEEL_MASK = x `mod` 256.
Proof. exact (land_mask 8 x ltac:(lia)). Qed.

Lemma tw_wadd_mod x y : wadd 64 x y `mod` 256 = (x + y) `mod` 256.
Proof. exact (mod_sub_pow2 64 8 (x + y) ltac:(lia)). Qed.

(** What [tick] leaves: every bucket but the visited one as it was. *)
Lemma tw_tick w :
  let s0 := (current_tick w + 1) `mod` 256 in
  let batch := reverse (Stack.items (bucket w s0)) in
  snd (tick w) = fired batch /\
  Stack.items (bucket (fst (tick w)) s0) = reverse (kept batch) /\
  (forall s, s <> s0 -> bucket (fst (tick w)) s = bucket w s) /\
  current_tick (fst (tick w)) = wadd 64 (current_tick w) 1 /\
  pending (fst (tick w)) =
    match fired batch with [] => pending w
    | _ => wsub 64 (pending w) (Z.of_nat (length (fired batch))) end.
Proof.
  cbv zeta. unfold tick. rewrite tw_mask, tw_wadd_mod.
  set (s0 := (current_tick w + 1) `mod` 256). set (w1 := mk _ _ _ _).
  assert (Hb : bucket w1 s0 = bucket w s0) by done. rewrite Hb.
  unfold Stack.is_empty. destruct (Stack.items (bucket w s0)) as [|nd l] eqn:E.
  - simpl. rewrite Hb, E. auto.
  - rewrite <- E. unfold Stack.drain_all. set (batch := reverse (Stack.items (bucket w s0))).
    set (w2 := mk (<[s0 := _]> _) _ _ _).
    pose proof (tw_visits s0 batch w2 []) as H. cbv zeta in H.
    destruct (foldl (visit s0) (w2, []) batch) as [w3 f3]. simpl in H.
    destruct H as (-> & H2 & H3 & H4 & H5). simpl.
    split; [done|]. split; [|split; [|split]].
    + change (bucket (mk (buckets w3) _ _ _) s0) with (bucket w3 s0). rewrite H2.
      unfold w2. rewrite tw_bucket_insert_eq. apply app_nil_r.
    + intros s Hs. change (bucket (mk (buckets w3) _ _ _) s) with (bucket w3 s).
      rewrite H3 by done. unfold w2. by rewrite tw_bucket_insert_ne.
    + by rewrite H4.
    + rewrite H5. done.
Qed.

Lemma tw_mod_ext a b a' b' : a `mod` 256 = a' `mod` 256 -> b `mod` 256 = b' `mod` 256 ->
  (a - b - 1) `mod` 256 = (a' - b' - 1) `mod` 256.
Proof.
  intros Ha Hb. rewrite (Zminus_mod (a - b)), (Zminus_mod a b), Ha, Hb.
  by rewrite <- (Zminus_mod a' b'), <- (Zminus_mod (a' - b')).
Qed.

Lemma tw_countdown_step tk s r : s <> (tk + 1) `mod` 256 -> 0 <= s < 256 ->
  countdown (wadd 64 tk 1) s r = countdown tk s r - 1 /\ countdown tk s r <> 1 + 256 * r.
Proof.
  intros Hne Hs. unfold countdown.
  assert (Hm : (s - tk - 1) `mod` 256 <> 0).
  { intros Hz. apply Hne. rewrite Zmod_divides in Hz by lia. destruct Hz as [q Hq].
    symmetry. replace (tk + 1) with (s + (-q) * 256) by lia. rewrite Z_mod_plus_full.
    apply Z.mod_small. lia. }
  assert (Hw : (s - wadd 64 tk 1 - 1) `mod` 256 = (s - tk - 2) `mod` 256).
  { rewrite (tw_mod_ext _ _ s (tk + 1) eq_refl (tw_wadd_mod tk 1)). f_equal. lia. }
  rewrite Hw. pose proof (Z.mod_pos_bound (s - tk - 1) 256 ltac:(lia)).
  assert ((s - tk - 2) `mod` 256 = (s - tk - 1) `mod` 256 - 1) as ->; [|lia].
  symmetry. apply (Z.mod_unique_pos _ _ ((s - tk - 1) / 256)); [lia|].
  pose proof (Z.div_mod (s - tk - 1) 256). lia.
Qed.

Lemma tw_countdown_here tk r :
  countdown tk ((tk + 1) `mod` 256) r = 1 + 256 * r /\
  countdown (wadd 64 tk 1) ((tk + 1) `mod` 256) r = 256 + 256 * r.
Proof.
  unfold countdown. split.
  - rewrite (tw_mod_ext _ tk (tk + 1) tk (Zmod_mod _ _) eq_refl).
    replace (tk + 1 - tk - 1) with 0 by lia. reflexivity.
  - rewrite (tw_mod_ext _ _ (tk + 1) (tk + 1) (Zmod_mod _ _) (tw_wadd_mod tk 1)).
    replace (tk + 1 - (tk + 1) - 1) with (-1) by lia. reflexivity.
Qed.

Lemma tw_countdown_pos tk s r : 0 <= r -> 1 <= countdown tk s r.
Proof. intros. unfold countdown. pose proof (Z.mod_pos_bound (s - tk - 1) 256). lia. Qed.

Lemma tw_slot_view_cons tk s nd l :
  slot_view tk s (nd :: l) = (nd_state nd, countdown tk s (nd_rounds nd)) :: slot_view tk s l.
Proof. done. Qed.

Lemma tw_survivors_cons i c l :
  survivors ((i, c) :: l) = if c =? 1 then survivors l else (i, c - 1) :: survivors l.
Proof. unfold survivors. simpl. by destruct (c =? 1). Qed.

Lemma tw_expired_cons i c l :
  expired ((i, c) :: l) = if c =? 1 then i :: expired l else expired l.
Proof. unfold expired. simpl. by destruct (c =? 1). Qed.

Lemma tw_kept_cons nd l :
  kept (nd :: l) = if fires nd then kept l
    else mkNode (nd_state nd) (wsub 64 (nd_rounds nd) 1) :: kept l.
Proof. unfold kept. simpl. by destruct (fires nd). Qed.

Lemma tw_fired_cons nd l :
  fired (nd :: l) = if fires nd then nd_state nd :: fired l else fired l.
Proof. unfold fired. simpl. by destruct (fires nd). Qed.

(** A slot the hand does not reach. *)
Lemma tw_slot_away tk s l : s <> (tk + 1) `mod` 256 -> 0 <= s < 256 ->
  Forall (fun nd => 0 <= nd_rounds nd < 2 ^ 64) l ->
  slot_view (wadd 64 tk 1) s l = survivors (slot_view tk s l) /\
  expired (slot_view tk s l) = [].
Proof.
  intros Hne Hs. induction 1 as [|nd l Hnd _ [IH1 IH2]]; [done|].
  destruct (tw_countdown_step tk s (nd_rounds nd) Hne Hs) as [E N].
  pose proof (Z.mod_pos_bound (s - tk - 1) 256).
  assert (Hc : countdown tk s (nd_rounds nd) =? 1 = false).
  { apply Z.eqb_neq. unfold countdown in *. lia. }
  rewrite !tw_slot_view_cons, tw_survivors_cons, tw_expired_cons, Hc, E, IH1, IH2. done.
Qed.

(** The slot the hand reaches. *)
Lemma tw_slot_here tk l : let s0 := (tk + 1) `mod` 256 in
  Forall (fun nd => 0 <= nd_rounds nd < 2 ^ 64) l ->
  slot_view (wadd 64 tk 1) s0 (kept l) = survivors (slot_view tk s0 l) /\
  expired (slot_view tk s0 l) = fired l.
Proof.
  cbv zeta. set (s0 := (tk + 1) `mod` 256).
  induction 1 as [|nd l Hnd _ [IH1 IH2]]; [done|].
  destruct (tw_countdown_here tk (nd_rounds nd)) as [E _].
  destruct (tw_countdown_here tk (wsub 64 (nd_rounds nd) 1)) as [_ E'].
  fold s0 in E, E'.
  rewrite tw_slot_view_cons, tw_survivors_cons, tw_expired_cons, tw_kept_cons, tw_fired_cons.
  unfold fires. rewrite E. destruct (nd_rounds nd =? 0) eqn:H0; bool_prop.
  - rewrite H0. split; [exact IH1|]. simpl. by rewrite IH2.
  - assert (1 + 256 * nd_rounds nd =? 1 = false) as -> by (apply Z.eqb_neq; lia).
    rewrite tw_slot_view_cons. cbn [nd_state nd_rounds]. rewrite E', IH1, IH2.
    rewrite wsub_small by lia. split; [|done]. do 2 f_equal. lia.
Qed.

Lemma tw_rounds_forall w s : rounds_ok w ->
  Forall (fun nd => 0 <= nd_rounds nd < 2 ^ 64) (Stack.items (bucket w s)).
Proof. intros H. apply Forall_forall. intros nd. apply H. Qed.

#[export] Instance tw_slot_view_perm tk s : Proper ((≡ₚ) ==> (≡ₚ)) (slot_view tk s).
Proof. intros l l' H. unfold slot_view. by rewrite H. Qed.

(** ** The refinement *)

(** One tick of the wheel is one tick of the set of countdowns. *)
Lemma tw_tick_view w : rounds_ok w ->
  view (fst (tick w)) ≡ₚ survivors (view w) /\ snd (tick w) ≡ₚ expired (view w).
Proof.
  intros Hr. destruct (tw_tick w) as (Hf & H0 & Hne & Ht & _). set (s0 := _ `mod` 256) in *.
  set (l0 := Stack.items (bucket w s0)) in *.
  assert (Hl0 : Forall (fun nd => 0 <= nd_rounds nd < 2 ^ 64) (reverse l0)).
  { rewrite Forall_forall. intros nd. rewrite elem_of_reverse. apply Hr. }
  destruct (tw_slot_here (current_tick w) (reverse l0) Hl0) as [Hs1 Hs2]. fold s0 in Hs1, Hs2.
  split.
  - unfold view, survivors. rewrite tw_omap_bind. apply tw_bind_perm. intros s Hs.
    apply elem_of_seqZ in Hs. rewrite Ht. destruct (decide (s = s0)) as [->|Hn].
    + rewrite H0, reverse_Permutation, Hs1. unfold survivors, slot_view.
      by rewrite reverse_Permutation.
    + rewrite Hne by done. fold (survivors (slot_view (current_tick w) s (Stack.items (bucket w s)))).
      destruct (tw_slot_away (current_tick w) s (Stack.items (bucket w s)) Hn) as [-> _];
        [lia|by apply tw_rounds_forall|done].
  - rewrite Hf, <- Hs2. unfold view, expired. rewrite tw_omap_bind.
    pose proof (Z.mod_pos_bound (current_tick w + 1) 256 ltac:(lia)).
    rewrite (tw_bind_at _ s0 (expired (slot_view (current_tick w) s0 (reverse l0))) _
      (fun _ => [])).
    + assert (Hnil : forall l : list Z, (l ≫= fun _ => []) = @nil Z) by (clear; by induction l).
      rewrite Hnil, app_nil_r. done.
    + apply NoDup_seqZ.
    + apply elem_of_seqZ. lia.
    + intros s Hs Hn. apply elem_of_seqZ in Hs.
      destruct (tw_slot_away (current_tick w) s (Stack.items (bucket w s)) Hn) as [_ Hx];
        [lia|by apply tw_rounds_forall|]. unfold expired in Hx. by rewrite Hx.
    + rewrite app_nil_r. unfold expired, slot_view. by rewrite reverse_Permutation.
Qed.

(** A push adds one countdown. *)
Lemma tw_push_view slot nd w : 0 <= slot < 256 ->
  view (push_node slot nd w) ≡ₚ
    (nd_state nd, countdown (current_tick w) slot (nd_rounds nd)) :: view w.
Proof.
  intros Hs. unfold view.
  apply (tw_bind_at _ slot [(nd_state nd, countdown (current_tick w) slot (nd_rounds nd))]).
  - apply NoDup_seqZ.
  - apply elem_of_seqZ. lia.
  - intros y _ Hy. unfold push_node. rewrite tw_bucket_insert_ne by done. done.
  - unfold push_node. rewrite tw_bucket_insert_eq. done.
Qed.

Lemma tw_tick_rounds w : rounds_ok w -> rounds_ok (fst (tick w)).
Proof.
  intros Hr s nd. destruct (tw_tick w) as (_ & H0 & Hne & _). set (s0 := _ `mod` 256) in *.
  destruct (decide (s = s0)) as [->|Hn]; [|rewrite Hne by done; apply Hr].
  rewrite H0, elem_of_reverse. unfold kept. rewrite list_elem_of_omap.
  intros (nd0 & H1 & H2). rewrite elem_of_reverse in H1. apply Hr in H1.
  unfold fires in H2. destruct (nd_rounds nd0 =? 0) eqn:E; [done|]. simplify_eq.
  bool_prop. simpl. rewrite wsub_small; lia.
Qed.

Lemma tw_expired_survivors l : (length (expired l) + length (survivors l) = length l)%nat.
Proof.
  induction l as [|[i c] l IH]; [done|]. rewrite tw_expired_cons, tw_survivors_cons.
  destruct (c =? 1); simpl; lia.
Qed.

Lemma tw_tick_ok w : ok w -> ok (fst (tick w)).
Proof.
  intros [Hr Hp]. split; [by apply tw_tick_rounds|].
  destruct (tw_tick_view w Hr) as [Hv Hf]. destruct (tw_tick w) as (Hs & _ & _ & _ & ->).
  rewrite Hs in Hf. set (fs := fired _) in *.
  pose proof (tw_expired_survivors (view w)) as Hl. rewrite <- Hf, <- Hv in Hl.
  destruct fs as [|f fs'] eqn:E; rewrite <- ?E in *.
  - rewrite E in Hl. simpl in Hl. by rewrite Hp, Hl.
  - rewrite Hp, <- Hl. unfold wsub, wrap. rewrite Zminus_mod_idemp_l. f_equal. lia.
Qed.

Lemma tw_push_ok slot nd w : 0 <= slot < 256 -> 0 <= nd_rounds nd < 2 ^ 64 -> ok w ->
  ok (push_node slot nd w).
Proof.
  intros Hs Hn [Hr Hp]. split.
  - intros s nd'. unfold push_node. destruct (decide (slot = s)) as [->|Hne].
    + rewrite tw_bucket_insert_eq. simpl. intros [->|H]%elem_of_cons; [done|]. by apply (Hr s).
    + rewrite tw_bucket_insert_ne by done. apply Hr.
  - rewrite tw_push_view by done. simpl. rewrite Hp. unfold wadd, wrap.
    rewrite Zplus_mod_idemp_l. f_equal. lia.
Qed.

Lemma tw_place tk n : 0 <= n < 2 ^ 64 ->
  0 <= fst (place tk n) < 256 /\ 0 <= snd (place tk n) < 2 ^ 64 /\
  forall tk', countdown tk' (fst (place tk n)) (snd (place tk n)) =
    (tk + n - tk' - 1) `mod` 256 + 1 + 256 * (n / 256).
Proof.
  intros Hn. unfold place. cbn [fst snd]. rewrite tw_mask, tw_wadd_mod.
  change (Z.shiftr n WHEEL_BITS) with (Z.shiftr n 8). rewrite Z.shiftr_div_pow2 by lia.
  change (2 ^ 8) with 256. pose proof (Z.mod_pos_bound (tk + n) 256). split; [lia|].
  split; [split; [apply Z.div_pos; lia|apply Z.div_lt_upper_bound; lia]|].
  intros tk'. unfold countdown. by rewrite (tw_mod_ext _ tk' (tk + n) tk' (Zmod_mod _ _) eq_refl).
Qed.

(** With the tick read when the node is pushed. *)
Lemma tw_place_now tk n : 1 <= n < 2 ^ 64 ->
  countdown tk (fst (place tk n)) (snd (place tk n)) = fire_after n.
Proof.
  intros Hn. destruct (tw_place tk n) as (_ & _ & ->); [lia|]. unfold fire_after.
  replace (tk + n - tk - 1) with (n - 1) by lia.
  pose proof (Z.div_mod n 256). pose proof (Z.mod_pos_bound n 256).
  case_test.
  - assert ((n - 1) `mod` 256 = 255); [|lia].
    symmetry. apply (Z.mod_unique_pos _ _ (n / 256 - 1)); lia.
  - assert ((n - 1) `mod` 256 = n `mod` 256 - 1); [|lia].
    symmetry. apply (Z.mod_unique_pos _ _ (n / 256)); lia.
Qed.

(** ** Runs *)

(** What happens to a wheel: ticks, and pushes by registrations that read the tick
    [tk] earlier. *)
Inductive event := Tick | Push (tk ticks id : Z).

Definition run_event (acc : t * list Z) (e : event) : t * list Z :=
  let '(w, fired) := acc in
  match e with
  | Tick => let '(w', f) := tick w in (w', fired ++ f)
  | Push tk ticks id =>
      let '(slot, rounds) := place tk ticks in (push_node slot (mkNode id rounds) w, fired)
  end.

Definition run (w : t) (es : list event) : t * list Z := foldl run_event (w, []) es.

Definition ticks_of (es : list event) : Z :=
  Z.of_nat (length (List.filter (fun e => match e with Tick => true | _ => false end) es)).

Definition pushes_other (id : Z) (e : event) : Prop :=
  match e with Tick => True | Push _ ticks id' => id' <> id /\ 0 <= ticks < 2 ^ 64 end.

Definition times (id : Z) (l : list Z) : nat := count_occ Z.eq_dec l id.

(** The countdowns of [id]: none, or one, at [d]. *)
Definition gone (id : Z) (w : t) : Prop := id ∉ (view w).*1.
Definition live (id d : Z) (w : t) : Prop :=
  exists rest, view w ≡ₚ (id, d) :: rest /\ id ∉ rest.*1.

Lemma tw_expired_in id l : id ∈ expired l -> id ∈ l.*1.
Proof.
  unfold expired. rewrite list_elem_of_omap. intros ([i c] & H1 & H2).
  destruct (c =? 1); simplify_eq. by apply (list_elem_of_fmap_2 fst l (id, c)).
Qed.

Lemma tw_survivors_in id l : id ∈ (survivors l).*1 -> id ∈ l.*1.
Proof.
  rewrite list_elem_of_fmap. intros ([i c] & -> & H). unfold survivors in H.
  apply list_elem_of_omap in H as ([i' c'] & H1 & H2). destruct (c' =? 1); simplify_eq.
  by apply (list_elem_of_fmap_2 fst l (i, c')).
Qed.

Lemma tw_times_notin id l : id ∉ l -> times id l = 0%nat.
Proof. intros H. apply count_occ_not_In. by rewrite <- list_elem_of_In. Qed.

#[export] Instance tw_times_perm id : Proper ((≡ₚ) ==> (=)) (times id).
Proof. intros l l' H. unfold times. by apply (Permutation_count_occ Z.eq_dec). Qed.

#[export] Instance tw_survivors_perm : Proper ((≡ₚ) ==> (≡ₚ)) survivors.
Proof. intros l l' H. unfold survivors. by rewrite H. Qed.

#[export] Instance tw_expired_perm : Proper ((≡ₚ) ==> (≡ₚ)) expired.
Proof. intros l l' H. unfold expired. by rewrite H. Qed.

Lemma tw_times_app id l l' : times id (l ++ l') = (times id l + times id l')%nat.
Proof. apply count_occ_app. Qed.

Lemma tw_gone_tick id w : ok w -> gone id w ->
  gone id (fst (tick w)) /\ times id (snd (tick w)) = 0%nat.
Proof.
  intros [Hr _] Hg. destruct (tw_tick_view w Hr) as [Hv Hf]. split.
  - unfold gone. rewrite Hv. intros H%tw_survivors_in. by apply Hg.
  - rewrite Hf. apply tw_times_notin. intros H%tw_expired_in. by apply Hg.
Qed.

Lemma tw_live_tick id d w : ok w -> live id d w ->
  times id (snd (tick w)) = (if Z.eqb d 1 then 1%nat else 0%nat) /\
  (if Z.eqb d 1 then gone id (fst (tick w)) else live id (d - 1) (fst (tick w))).
Proof.
  intros [Hr _] (rest & Hl & Hn). destruct (tw_tick_view w Hr) as [Hv Hf].
  rewrite Hl in Hv, Hf. rewrite tw_survivors_cons in Hv. rewrite tw_expired_cons in Hf.
  assert (H0 : times id (expired rest) = 0%nat) by (apply tw_times_notin; auto using tw_expired_in).
  rewrite Hf. destruct (d =? 1).
  - split; [simpl; unfold times in *; simpl; destruct (Z.eq_dec id id); lia|].
    unfold gone. rewrite Hv. auto using tw_survivors_in.
  - split; [done|]. exists (survivors rest). split; [done|]. auto using tw_survivors_in.
Qed.

Lemma tw_push_other e id acc : ok (fst acc) -> e <> Tick -> pushes_other id e ->
  let r := run_event acc e in
  ok (fst r) /\ snd r = snd acc /\ current_tick (fst r) = current_tick (fst acc) /\
  (gone id (fst acc) -> gone id (fst r)) /\ (forall d, live id d (fst acc) -> live id d (fst r)).
Proof.
  destruct acc as [w f], e as [|tk n i]; [done|]. intros Hok _ [Hi Hn]. cbv zeta.
  unfold run_event. cbn [fst snd] in *.
  destruct (tw_place tk n Hn) as (Hs & Hr & _). destruct (place tk n) as [slot rounds].
  cbn [fst snd] in *.
  pose proof (tw_push_view slot (mkNode i rounds) w Hs) as Hv. simpl in Hv.
  split; [apply (tw_push_ok slot (mkNode i rounds) w Hs Hr Hok)|].
  split; [done|]. split; [done|]. split.
  - unfold gone. rewrite Hv, fmap_cons, not_elem_of_cons. auto.
  - intros d (rest & Hl & Hn'). exists ((i, countdown (current_tick w) slot rounds) :: rest).
    rewrite Hv, Hl. split; [apply perm_swap|]. rewrite fmap_cons, not_elem_of_cons. auto.
Qed.

Lemma tw_run_gone id es acc : ok (fst acc) -> gone id (fst acc) ->
  Forall (pushes_other id) es ->
  let r := foldl run_event acc es in
  ok (fst r) /\ times id (snd r) = times id (snd acc).
Proof.
  revert acc. induction es as [|e es IH]; intros acc Hok Hg Hes; [done|].
  apply Forall_cons in Hes as [He Hes]. simpl. destruct e as [|tk n i].
  - destruct acc as [w f]. simpl in *. destruct (tw_gone_tick id w Hok Hg) as [Hg' H0].
    pose proof (tw_tick_ok w Hok) as Hok'. destruct (tick w) as [w' fs]. simpl in *.
    destruct (IH (w', f ++ fs)) as [H1 H2]; [done..|]. split; [done|].
    rewrite H2. simpl. rewrite tw_times_app. lia.
  - destruct (tw_push_other (Push tk n i) id acc) as (H1 & H2 & _ & H4 & _); [done..|].
    destruct (IH (run_event acc (Push tk n i))) as [H5 H6]; [auto..|].
    by rewrite H6, H2.
Qed.

Lemma tw_ticks_cons e es : ticks_of (e :: es) = (match e with Tick => 1 | _ => 0 end) + ticks_of es.
Proof. unfold ticks_of. simpl. destruct e; simpl; lia. Qed.

Lemma tw_run_live id es : forall d acc, 1 <= d -> ok (fst acc) -> live id d (fst acc) ->
  Forall (pushes_other id) es ->
  let r := foldl run_event acc es in
  ok (fst r) /\
  times id (snd r) = (times id (snd acc) + if Z.leb d (ticks_of es) then 1 else 0)%nat /\
  (ticks_of es < d -> live id (d - ticks_of es) (fst r)).
Proof.
  induction es as [|e es IH]; intros d acc Hd Hok Hl Hes.
  - simpl. change (ticks_of []) with 0.
    assert (d <=? 0 = false) as -> by (apply Z.leb_gt; lia).
    split; [done|]. split; [lia|]. intros _. by rewrite Z.sub_0_r.
  - apply Forall_cons in Hes as [He Hes]. rewrite tw_ticks_cons. simpl. destruct e as [|tk n i].
    + destruct acc as [w f]. simpl in *. destruct (tw_live_tick id d w Hok Hl) as [H0 H1].
      pose proof (tw_tick_ok w Hok) as Hok'. destruct (tick w) as [w' fs]. simpl in *.
      destruct (d =? 1) eqn:E; bool_prop.
      * destruct (tw_run_gone id es (w', f ++ fs)) as [H2 H3]; [done..|]. split; [done|].
        rewrite H3. simpl. rewrite tw_times_app, H0.
        assert (0 <= ticks_of es) by (unfold ticks_of; lia).
        assert (d <=? 1 + ticks_of es = true) as -> by (apply Z.leb_le; lia).
        split; [done|lia].
      * destruct (IH (d - 1) (w', f ++ fs)) as (H2 & H3 & H4); [lia|done..|].
        split; [done|]. rewrite H3. simpl. rewrite tw_times_app, H0, Nat.add_0_r.
        replace (d <=? 1 + ticks_of es) with (d - 1 <=? ticks_of es)
          by (apply eq_bool_prop_intro; rewrite !Is_true_true, !Z.leb_le; lia).
        split; [done|]. intros Ht. replace (d - (1 + ticks_of es)) with (d - 1 - ticks_of es) by lia.
        apply H4. lia.
    + destruct (tw_push_other (Push tk n i) id acc) as (H1 & H2 & _ & _ & H5); [done..|].
      destruct (IH d (run_event acc (Push tk n i))) as (H6 & H7 & H8); [auto..|].
      rewrite H7, H2. auto.
Qed.
End WheelSpec.

(** C20.  The timing wheel refines a set of countdowns.  A timer of [n]
    ticks, registered from the current tick, fires on the [n]-th tick
    after it, or, when [n] is a multiple of 256, one whole rotation later;
    whatever else is registered meanwhile it fires once, on that tick
    and not before, and until then the count that keeps the worker ticking
    is not zero.  If the registration read its tick earlier and the hand
    passed the slot before the push, the timer waits for the hand to come round. *)
Theorem timer_fires_on_its_tick (w : Wheel.t) (tk n id : Z) (es : list WheelSpec.event) :
  WheelSpec.ok w -> 1 <= n < 2 ^ 64 -> id ∉ (WheelSpec.view w).*1 ->
  Forall (WheelSpec.pushes_other id) es ->
  let d := (tk + n - Wheel.current_tick w - 1) `mod` 256 + 1 + 256 * (n / 256) in
  let r := WheelSpec.run w (WheelSpec.Push tk n id :: es) in
  WheelSpec.ok (fst r) /\
  WheelSpec.times id (snd r) = (if d <=? WheelSpec.ticks_of es then 1%nat else 0%nat) /\
  (WheelSpec.ticks_of es < d -> Z.of_nat (length (WheelSpec.view (fst r))) < 2 ^ 64 ->
     Wheel.pending (fst r) <> 0) /\
  (tk = Wheel.current_tick w -> d = if n `mod` 256 =? 0 then n + 256 else n) /\
  (tk + n = Wheel.current_tick w -> d = 256 + 256 * (n / 256)).
Proof.
  intros Hok Hn Hid Hes d r.
  destruct (WheelSpec.tw_place tk n) as (Hs & Hr & Hc); [lia|].
  set (w1 := Wheel.push_node (fst (Wheel.place tk n)) (Wheel.mkNode id (snd (Wheel.place tk n))) w).
  assert (Hrun : r = foldl WheelSpec.run_event (w1, []) es).
  { unfold r, WheelSpec.run, w1. simpl. by destruct (Wheel.place tk n). }
  assert (Hl : WheelSpec.live id d w1).
  { exists (WheelSpec.view w). split; [|done].
    unfold w1. rewrite WheelSpec.tw_push_view by done. simpl. rewrite Hc. done. }
  assert (Hd : 1 <= d).
  { unfold d. pose proof (Z.mod_pos_bound (tk + n - Wheel.current_tick w - 1) 256).
    pose proof (Z.div_pos n 256). lia. }
  destruct (WheelSpec.tw_run_live id es d (w1, []) Hd) as (H1 & H2 & H3);
    [exact (WheelSpec.tw_push_ok _ (Wheel.mkNode id _) _ Hs Hr Hok)|exact Hl|exact Hes|]. cbv zeta in *. rewrite <- Hrun in *.
  split; [exact H1|]. split; [exact H2|]. split; [|split].
  - intros Ht Hlen Hp. destruct (H3 Ht) as (rest & Hv & _). destruct H1 as [_ Hpe].
    rewrite Hpe, wrap_small in Hp by lia. rewrite Hv in Hp. simpl in Hp. lia.
  - intros ->. unfold d. rewrite <- Hc. apply WheelSpec.tw_place_now. lia.
  - intros E. unfold d. rewrite E, Z.sub_diag. reflexivity.
Qed.

Lemma timer_fires_on_its_tick_witness :
  WheelSpec.times 7 (snd (WheelSpec.run Wheel.wheel
    [WheelSpec.Push 0 3 7; WheelSpec.Tick; WheelSpec.Push 1 9 8; WheelSpec.Tick; WheelSpec.Tick]))
  = 1%nat.
Proof.
  apply (timer_fires_on_its_tick Wheel.wheel 0 3 7
    [WheelSpec.Tick; WheelSpec.Push 1 9 8; WheelSpec.Tick; WheelSpec.Tick]).
  - split; [|vm_compute; reflexivity]. intros s nd. unfold Wheel.bucket, Wheel.wheel. simpl.
    rewrite lookup_empty. simpl. set_solver.
  - lia.
  - vm_compute. set_solver.
  - repeat constructor; simpl; lia.
Defined.

(** ** The worker's clock *)

Module Worker.
Import Wheel WheelSpec.

(** Iterations of the worker with the readings of its clock, and pushes by
    registrations. *)
Inductive wevent := Iterate (now now' : Z) | Registers (tk ticks id : Z).

Definition work_event (acc : t * list Z) (e : wevent) : t * list Z :=
  match e with
  | Iterate now now' =>
      let '(w', (_, f)) := worker_iteration now now' (fst acc) in (w', snd acc ++ f)
  | Registers tk ticks id => run_event acc (Push tk ticks id)
  end.

Definition work (acc : t * list Z) (es : list wevent) : t * list Z := foldl work_event acc es.

(** No reading after [c], and no other push under the name [id]. *)
Definition quiet (c id : Z) (e : wevent) : Prop :=
  match e with
  | Iterate now now' => now <= now' <= c
  | Registers _ ticks id' => id' <> id /\ 0 <= ticks < 2 ^ 64
  end.

(** A tick only happens once its deadline has passed. *)
Lemma tk_iteration now now' w : now <= now' -> 0 <= current_tick w < 2 ^ 32 - 1 ->
  let r := worker_iteration now now' w in
  (fst r = w /\ snd (snd r) = []) \/
  (fst r = fst (tick w) /\ snd (snd r) = snd (tick w) /\ TICK * (current_tick w + 1) <= now').
Proof.
  intros Hn Ht. unfold worker_iteration, tick_deadline.
  rewrite (wrap_small 32), wadd_small by (try rewrite wrap_small; lia).
  destruct (pending w =? 0); [by left|].
  destruct (now <? _) eqn:E; [destruct (now' <? _) eqn:E'; [by left|]|];
    bool_prop; destruct (tick w); right; repeat split; simpl in *; lia.
Qed.

(** The hand never gets ahead of the clock. *)
Lemma tk_work_quiet c id es : forall d acc,
  0 <= current_tick (fst acc) < 2 ^ 32 - 1 -> c < TICK * (2 ^ 32 - 1) ->
  c < TICK * (current_tick (fst acc) + d) ->
  1 <= d -> ok (fst acc) -> live id d (fst acc) -> Forall (quiet c id) es ->
  times id (snd (work acc es)) = times id (snd acc).
Proof.
  induction es as [|e es IH]; intros d acc H0 Hc Hlt Hd Hok Hl Hes; [done|].
  apply Forall_cons in Hes as [He Hes]. simpl. destruct e as [now now'|tk n i].
  - destruct acc as [w f]. simpl in *.
    assert (TICK = 1000000) as HT by done.
    pose proof (tk_iteration now now' w ltac:(lia) H0) as H.
    destruct (worker_iteration now now' w) as [w' [pk f']]. cbv zeta in H. simpl in H.
    destruct H as [[-> ->]|(-> & -> & Hdl)].
    + rewrite app_nil_r. by apply (IH d (w, f)).
    + destruct (tw_live_tick id d w Hok Hl) as [E1 E2]. destruct (tw_tick w) as (_ & _ & _ & Et & _).
      rewrite wadd_small in Et by lia.
      assert (Hd1 : d =? 1 = false) by (apply Z.eqb_neq; nia). rewrite Hd1 in E1, E2.
      rewrite (IH (d - 1) (fst (tick w), f ++ snd (tick w)));
        simpl; rewrite ?Et; try nia; auto using tw_tick_ok.
      rewrite tw_times_app. lia.
  - assert (Hne : Push tk n i <> Tick) by done.
    destruct (tw_push_other (Push tk n i) id acc Hok Hne He) as (H1 & H2 & H3 & _ & H5).
    change (work_event acc (Registers tk n i)) with (run_event acc (Push tk n i)).
    rewrite <- H2. apply (IH d (run_event acc (Push tk n i))); rewrite ?H3; auto.
Qed.

(** A worker that is behind ticks without parking. *)
Lemma tk_catch_up now : forall (k : nat) d id w f,
  0 <= current_tick w -> current_tick w + Z.of_nat k < 2 ^ 32 ->
  TICK * (current_tick w + Z.of_nat k) <= now -> Z.of_nat k = d -> 1 <= d ->
  ok w -> Z.of_nat (length (view w)) < 2 ^ 64 -> live id d w ->
  times id (snd (work (w, f) (replicate k (Iterate now now)))) = S (times id f).
Proof.
  assert (TICK = 1000000) as HT by done.
  induction k as [|k IH]; intros d id w f H0 H32 Hnow Hk Hd Hok Hlen Hl; [lia|].
  assert (Hp : pending w <> 0).
  { destruct Hok as [_ ->], Hl as (rest & Hv & _). rewrite wrap_small by lia.
    rewrite Hv. simpl. lia. }
  simpl. unfold worker_iteration, tick_deadline.
  rewrite (wrap_small 32), wadd_small by (try rewrite wrap_small; lia).
  apply Z.eqb_neq in Hp. rewrite Hp.
  assert (now <? TICK * (current_tick w + 1) = false) as -> by (apply Z.ltb_ge; nia).
  destruct (tw_live_tick id d w Hok Hl) as [E1 E2]. destruct (tw_tick w) as (_ & _ & _ & Et & _).
  destruct (tw_tick_view w (proj1 Hok)) as [Hv _]. pose proof (tw_tick_ok w Hok) as Hok'.
  rewrite wadd_small in Et by lia. pose proof (tw_expired_survivors (view w)) as Hx.
  rewrite <- Hv in Hx. destruct (tick w) as [w' f']. simpl in *.
  destruct (d =? 1) eqn:Ed; bool_prop.
  - assert (k = 0%nat) as -> by lia. simpl. rewrite tw_times_app. lia.
  - rewrite (IH (d - 1) id w' (f ++ f')); try lia; try done; try nia.
    rewrite tw_times_app. lia.
Qed.

Lemma tk_register dur now id w : 0 < dur -> dur < TICK * (2 ^ 64 - 1) -> ok w ->
  id ∉ (view w).*1 ->
  let n := ticks_from_now dur in
  let w' := register (now + dur) now id w in
  TICK * (n - 1) < dur <= TICK * n /\ 1 <= n < 2 ^ 64 /\
  ok w' /\ live id (fire_after n) w' /\ current_tick w' = current_tick w /\
  length (view w') = S (length (view w)).
Proof.
  intros Hd Hd' Hok Hid n w'. assert (TICK = 1000000) as HT by done.
  assert (Hn : TICK * (n - 1) < dur <= TICK * n /\ 1 <= n < 2 ^ 64).
  { pose proof (Z.div_mod (dur + TICK - 1) TICK). pose proof (Z.mod_pos_bound (dur + TICK - 1) TICK).
    assert (En : n = (dur + TICK - 1) / TICK).
    { unfold n, ticks_from_now. apply wrap_small. lia. }
    nia. }
  destruct Hn as [Hn1 Hn2]. split; [exact Hn1|]. split; [exact Hn2|].
  destruct (tw_place (current_tick w) n) as (Hs & Hr & _); [lia|].
  assert (Ew : w' = push_node (fst (place (current_tick w) n))
                      (mkNode id (snd (place (current_tick w) n))) w).
  { unfold w', register. assert (now + dur <=? now = false) as -> by (apply Z.leb_gt; lia).
    replace (now + dur - now) with dur by lia. fold n. by destruct (place (current_tick w) n). }
  pose proof (tw_push_view _ (mkNode id (snd (place (current_tick w) n))) w Hs) as Hv.
  rewrite <- Ew in Hv. cbn [nd_state nd_rounds] in Hv.
  rewrite (tw_place_now (current_tick w) n Hn2) in Hv.
  split; [rewrite Ew; exact (tw_push_ok _ (mkNode id _) _ Hs Hr Hok)|].
  split; [exists (view w); by split|]. split; [rewrite Ew; done|]. by rewrite Hv.
Qed.
End Worker.

(** When a sleep ends depends on where the hand of the wheel is.  With
    the worker up to date (the clock is inside the current tick), the
    sleep does not end while the clock is more than one tick short of
    the deadline.  But the hand only moves while timers are pending: if it is
    behind the clock by at least the ticks of the sleep, for instance
    because no timer was pending for as long, the worker catches up without
    parking and the sleep ends at once, at the very instant it started. *)
Theorem sleep_tracks_the_hand (w : Wheel.t) (dur now id : Z) :
  WheelSpec.ok w -> id ∉ (WheelSpec.view w).*1 -> 0 < dur -> 0 <= Wheel.current_tick w ->
  let w' := Wheel.register (now + dur) now id w in
  let n := Wheel.ticks_from_now dur in
  (Wheel.TICK * Wheel.current_tick w <= now < Wheel.TICK * (Wheel.current_tick w + 1) ->
   now + dur < Wheel.TICK * (2 ^ 32 - 1) ->
   forall es, Forall (Worker.quiet (now + dur - Wheel.TICK) id) es ->
     WheelSpec.times id (snd (Worker.work (w', []) es)) = 0%nat) /\
  (Wheel.TICK * (Wheel.current_tick w + WheelSpec.fire_after n) <= now ->
   dur < Wheel.TICK * (2 ^ 64 - 1) -> Wheel.current_tick w + WheelSpec.fire_after n < 2 ^ 32 ->
   Z.of_nat (length (WheelSpec.view w')) < 2 ^ 64 ->
     WheelSpec.times id (snd (Worker.work (w', [])
       (replicate (Z.to_nat (WheelSpec.fire_after n)) (Worker.Iterate now now)))) = 1%nat).
Proof.
  intros Hok Hid Hd Ht w' n. assert (Wheel.TICK = 1000000) as HT by done. split.
  - intros Hin Hb es Hes.
    destruct (Worker.tk_register dur now id w Hd) as (H1 & H2 & H3 & H4 & H5 & _); [lia|done..|].
    fold n in H1, H2, H4. fold w' in H3, H4, H5.
    assert (Hf : n <= WheelSpec.fire_after n) by (unfold WheelSpec.fire_after; case_test; lia).
    apply (Worker.tk_work_quiet (now + dur - Wheel.TICK) id es (WheelSpec.fire_after n) (w', []));
      cbn [fst snd]; rewrite ?H5; try done; nia.
  - intros Hb Hd' H32 Hlen.
    destruct (Worker.tk_register dur now id w Hd Hd' Hok Hid) as (H1 & H2 & H3 & H4 & H5 & _).
    fold n in H1, H2, H4. fold w' in H3, H4, H5.
    assert (Hf : n <= WheelSpec.fire_after n) by (unfold WheelSpec.fire_after; case_test; lia).
    apply (Worker.tk_catch_up now _ (WheelSpec.fire_after n)); rewrite ?H5; try done; lia.
Qed.

(** Three milliseconds, a second behind: over at once. *)
Lemma sleep_tracks_the_hand_witness :
  WheelSpec.times 7 (snd (Worker.work (Wheel.register (1000000000 + 3000000) 1000000000 7 Wheel.wheel, [])
    (replicate 3 (Worker.Iterate 1000000000 1000000000)))) = 1%nat.
Proof.
  apply (sleep_tracks_the_hand Wheel.wheel 3000000 1000000000 7).
  - split; [|vm_compute; reflexivity]. intros s nd. unfold Wheel.bucket, Wheel.wheel. simpl.
    rewrite lookup_empty. simpl. set_solver.
  - vm_compute. set_solver.
  - lia.
  - vm_compute. discriminate.
  - vm_compute. discriminate.
  - vm_compute. reflexivity.
  - vm_compute. reflexivity.
  - vm_compute. reflexivity.
Defined.

(** ** Intervals *)

(** The loop of [Skip] ends, at the first boundary after [now] that is not before
    the next one scheduled. *)
Lemma tw_skip_loop p now : 0 < p -> forall fuel nxt, (now - nxt) / p < Z.of_nat fuel ->
  exists k, 0 <= k /\ Wheel.skip_loop fuel p nxt now = Done (nxt + k * p) /\ now < nxt + k * p /\
    (0 < k -> nxt + (k - 1) * p <= now).
Proof.
  intros Hp. induction fuel as [|fuel IH]; intros nxt Hf; simpl.
  - destruct (nxt <=? now) eqn:E; bool_prop.
    + pose proof (Z.div_pos (now - nxt) p). lia.
    + exists 0. rewrite Z.add_0_r. repeat split; lia.
  - destruct (nxt <=? now) eqn:E; bool_prop.
    + destruct (IH (nxt + p)) as (k & Hk & -> & H1 & H2).
      { replace (now - (nxt + p)) with (now - nxt + (-1) * p) by lia.
        rewrite Z_div_plus_full by lia. lia. }
      exists (k + 1). split; [lia|]. split; [f_equal; lia|]. split; [lia|].
      intros _. destruct (decide (k = 0)) as [->|]; [lia|]. lia.
    + exists 0. rewrite Z.add_0_r. repeat split; lia.
Qed.

Lemma tw_interval_tick now i : 0 < Wheel.period i ->
  exists i', Wheel.interval_tick now i = Done (Wheel.next i, i') /\
    Wheel.period i' = Wheel.period i /\
    match Wheel.missed_tick_behavior i with
    | Wheel.Burst => Wheel.next i' = Wheel.next i + Wheel.period i
    | Wheel.Skip =>
        (exists k, 1 <= k /\ Wheel.next i' = Wheel.next i + k * Wheel.period i) /\
        now < Wheel.next i' /\
        (Wheel.next i + Wheel.period i < Wheel.next i' -> Wheel.next i' - Wheel.period i <= now)
    | Wheel.Delay => Wheel.next i' = now + Wheel.period i
    end.
Proof.
  intros Hp. unfold Wheel.interval_tick. destruct i as [p nxt []]; simpl in *; [by eexists| |by eexists].
  destruct (tw_skip_loop p now Hp (Wheel.skip_fuel p (nxt + p) now) (nxt + p)) as (k & Hk & -> & H1 & H2).
  { unfold Wheel.skip_fuel. destruct (Z_lt_le_dec ((now - (nxt + p)) / p + 1) 0); [lia|].
    rewrite Z2Nat.id by lia. lia. }
  simpl. eexists. split; [done|]. split; [done|]. simpl. split; [exists (k + 1); lia|].
  split; [lia|]. intros Hlt. assert (0 < k) by nia. specialize (H2 ltac:(lia)). lia.
Qed.
