(* ===== verification/ModelCheck.v ===== *)
(** * ModelCheck: finite protocols

    Small protocols are modelled as a successor function on a type with
    decidable equality.  Exploration computes their reachable states and
    [checked_reachable] turns a boolean check of all of them into a theorem
    about every execution; [follow] replays a schedule. *)

From stdpp Require Import pmap.
From S2P Require Import Prelude.

(** ** Checking a finite state space *)

Section model_check.
Context {S : Type} `{EqDecision S} (succs : S -> list S).

Definition member (s : S) (l : list S) : bool := existsb (fun x => bool_decide (s = x)) l.

(** Worklist exploration. *)
Fixpoint explore (fuel : nat) (todo seen : list S) : list S :=
  match fuel, todo with
  | Datatypes.S fuel', s :: todo' =>
      let fresh := List.filter (fun x => negb (member x seen)) (succs s) in
      let fresh' := foldr (fun x l => if member x l then l else x :: l) [] fresh in
      explore fuel' (fresh' ++ todo') (fresh' ++ seen)
  | _, _ => seen
  end.

Definition closed (l : list S) : bool := forallb (fun s => forallb (fun x => member x l) (succs s)) l.

Definition step_of (s s' : S) : Prop := s' ∈ succs s.

Lemma member_spec s l : member s l = true <-> s ∈ l.
Proof.
  unfold member. rewrite existsb_exists. split.
  - intros (x & Hx & E). bool_prop. subst. by apply list_elem_of_In.
  - intros Hs. exists s. split; [by apply list_elem_of_In|by apply bool_decide_eq_true].
Qed.

Lemma checked_reachable s0 l (P : S -> bool) :
  member s0 l = true -> closed l = true -> forallb P l = true ->
  forall s, rtc step_of s0 s -> P s = true.
Proof.
  intros H0 Hc HP s Hr. apply member_spec in H0.
  assert (s ∈ l) as Hin.
  { induction Hr as [|x y z Hxy _ IH]; [done|]. apply IH.
    unfold closed in Hc. rewrite forallb_forall in Hc.
    specialize (Hc x ltac:(by apply list_elem_of_In)). rewrite forallb_forall in Hc.
    apply member_spec, Hc. by apply list_elem_of_In. }
  rewrite forallb_forall in HP. by apply HP, list_elem_of_In.
Qed.

(** Following a schedule: at each state take the successor of that number. *)
Fixpoint follow (sched : list nat) (s : S) : option S :=
  match sched with
  | [] => Some s
  | i :: sched' => s' ← succs s !! i; follow sched' s'
  end.

Lemma follow_reachable sched s s' : follow sched s = Some s' -> rtc step_of s s'.
Proof.
  revert s; induction sched as [|i sched IH]; intros s H; simpl in H.
  - by injection H as ->.
  - destruct (succs s !! i) as [s1|] eqn:E; [|done]. simpl in H.
    eapply rtc_l; [|by apply IH]. by eapply list_elem_of_lookup_2.
Qed.
End model_check.

(** ** Larger state spaces

    The states found are kept in buckets by a key, which need not be
    injective: it only spares comparisons. *)

Section keyed.
Context {S : Type} `{EqDecision S} (succs : S -> list S) (key : S -> positive).

Definition bucket (x : S) (m : Pmap (list S)) : list S := default [] (m !! key x).
Definition has (m : Pmap (list S)) (x : S) : bool := member x (bucket x m).
Definition add (m : Pmap (list S)) (x : S) : Pmap (list S) := <[key x := x :: bucket x m]> m.

Fixpoint explore_keyed (fuel : nat) (todo found : list S) (m : Pmap (list S)) : list S :=
  match fuel, todo with
  | Datatypes.S fuel', s :: todo' =>
      let '(todo1, found1, m1) :=
        fold_left (fun '(t, f, m) x => if has m x then (t, f, m) else (x :: t, x :: f, add m x))
          (succs s) (todo', found, m) in
      explore_keyed fuel' todo1 found1 m1
  | _, _ => found
  end.

(** Every successor of a state found is found, and [P] holds of all of them. *)
Definition all_checked (starts : list S) (P : S -> bool) (l : list S) : bool :=
  let m := fold_left add l ∅ in
  forallb (has m) starts && forallb (fun s => forallb (has m) (succs s)) l && forallb P l.

(** The whole of it: explore from the initial states and check. *)
Definition verified (fuel : nat) (starts : list S) (P : S -> bool) : bool :=
  all_checked starts P (explore_keyed fuel starts starts (fold_left add starts ∅)).

Lemma mc_has l m x : has (fold_left add l m) x = true -> x ∈ l \/ has m x = true.
Proof.
  revert m; induction l as [|y l IH]; intros m H; [by right|]. simpl in H.
  destruct (IH _ H) as [Hx|Hx]; [left; by apply list_elem_of_further|]. clear IH H.
  unfold has, bucket, add in Hx. destruct (decide (key x = key y)) as [E|E].
  - rewrite E, lookup_insert_eq in Hx. apply member_spec in Hx. apply elem_of_cons in Hx as [-> | Hx];
      [left; apply list_elem_of_here|right]. apply member_spec. unfold bucket in *. by rewrite E.
  - rewrite lookup_insert_ne in Hx by done. by right.
Qed.

Lemma verified_reachable fuel starts (P : S -> bool) s0 :
  verified fuel starts P = true -> s0 ∈ starts ->
  forall s, rtc (step_of succs) s0 s -> P s = true.
Proof.
  unfold verified, all_checked. set (l := explore_keyed _ _ _ _). set (m := fold_left add l ∅).
  intros H H0 s Hr. apply andb_true_iff in H as [H HP]. apply andb_true_iff in H as [Hs Hc].
  rewrite forallb_forall in HP, Hc, Hs.
  assert (forall x, has m x = true -> x ∈ l) as Hm.
  { intros x Hx. destruct (mc_has l ∅ x Hx) as [? | Hn]; [done|].
    unfold has, bucket in Hn. by rewrite lookup_empty in Hn. }
  assert (s ∈ l) as Hin; [|by apply HP, list_elem_of_In].
  assert (s0 ∈ l) as Hin0 by (apply Hm, Hs; by apply list_elem_of_In). clear H0.
  induction Hr as [|x y z Hxy _ IH]; [done|]. apply IH, Hm.
  specialize (Hc x ltac:(by apply list_elem_of_In)). rewrite forallb_forall in Hc.
  apply Hc. by apply list_elem_of_In.
Qed.
End keyed.
