(* ===== verification/BoundedMpmc.v ===== *)
(** * BoundedMpmc

    [BoundedMpmcQueue] of [src/dtact-util/src/lockfree.rs], as one thread
    runs it, at 64-bit width.  The laws of [Fifo] hold for capacities of at
    least two that divide [2^64]; interleavings, for every capacity of at
    least two, are in [VyukovRace].  A capacity of one is a different
    matter: see [capacity_one_broken]. *)

From S2P Require Import Prelude Ring Fifo Vyukov.

Module Mpmc.
Section mpmc.
Context {A : Type}.

Record t := mk {
  buffer : gmap Z (cell A);
  capacity : Z;
  enqueue_pos : Z;
  dequeue_pos : Z
}.

(** Cell [i] starts with sequence number [i]. *)
Fixpoint init_cells (n : nat) : gmap Z (cell A) :=
  match n with
  | O => ∅
  | S i => wr (init_cells i) (Z.of_nat i) (mkCell (Z.of_nat i) None)
  end.

Definition new (cap : Z) : t :=
  let cap' := Z.max cap 1 in
  {| buffer := init_cells (Z.to_nat cap'); capacity := cap'; enqueue_pos := 0; dequeue_pos := 0 |}.

Definition cell_of (q : t) (pos : Z) : cell A :=
  rd Vyukov.blank (buffer q) (pos `mod` capacity q).

Fixpoint try_push_loop (fuel : nat) (pos : Z) (value : A) (q : t) : outcome (result unit A * t) :=
  match fuel with
  | O => OutOfFuel
  | S fuel' =>
      match Z.compare (Vyukov.signed_diff (sequence (cell_of q pos)) pos) 0 with
      | Eq =>
          if enqueue_pos q =? pos then
            Done (Ok tt,
                  {| buffer := wr (buffer q) (pos `mod` capacity q)
                                  (mkCell (wadd 64 pos 1) (Some value));
                     capacity := capacity q; enqueue_pos := wadd 64 pos 1;
                     dequeue_pos := dequeue_pos q |})
          else try_push_loop fuel' (enqueue_pos q) value q
      | Lt => Done (Err value, q)
      | Gt => try_push_loop fuel' (enqueue_pos q) value q
      end
  end.

Fixpoint try_pop_loop (fuel : nat) (pos : Z) (q : t) : outcome (option A * t) :=
  match fuel with
  | O => OutOfFuel
  | S fuel' =>
      let c := cell_of q pos in
      match Z.compare (Vyukov.signed_diff (sequence c) (wadd 64 pos 1)) 0 with
      | Eq =>
          if dequeue_pos q =? pos then
            match data c with
            | Some value =>
                Done (Some value,
                      {| buffer := wr (buffer q) (pos `mod` capacity q)
                                      (mkCell (wadd 64 pos (capacity q)) (data c));
                         capacity := capacity q; enqueue_pos := enqueue_pos q;
                         dequeue_pos := wadd 64 pos 1 |})
            | None => Panic
            end
          else try_pop_loop fuel' (dequeue_pos q) q
      | Lt => Done (None, q)
      | Gt => try_pop_loop fuel' (dequeue_pos q) q
      end
  end.

(** Turns granted to a thread running alone; one is used. *)
Definition retry_fuel : nat := 4.

Definition try_push (value : A) (q : t) : outcome (result unit A * t) :=
  try_push_loop retry_fuel (enqueue_pos q) value q.

Definition try_pop (q : t) : outcome (option A * t) :=
  try_pop_loop retry_fuel (dequeue_pos q) q.

Definition enqueue_snapshot (q : t) : Z := enqueue_pos q.

(** The values handed to [on_pop], in order. *)
Fixpoint drain_until (fuel : nat) (target : Z) (q : t) : outcome (list A * t) :=
  if 0 <? cast_signed (wsub 64 target (dequeue_pos q)) then
    match fuel with
    | O => OutOfFuel
    | S fuel' =>
        '(r, q1) ← try_pop q;
        '(l, q2) ← drain_until fuel' target q1;
        Done (option_list r ++ l, q2)
    end
  else Done ([], q).

Definition len (q : t) : Z := sat_sub (enqueue_pos q) (dequeue_pos q).
Definition is_empty (q : t) : bool := len q =? 0.

(** ** Refinement *)

Definition contents (q : t) : list A :=
  Vyukov.contents (capacity q) (buffer q) (enqueue_pos q) (dequeue_pos q).

Definition ok (q : t) : Prop :=
  Vyukov.good_cap (capacity q) /\
  Vyukov.ok (capacity q) (buffer q) (enqueue_pos q) (dequeue_pos q).

Lemma mp_length_contents q : ok q ->
  length (contents q) = Z.to_nat (Vyukov.len (enqueue_pos q) (dequeue_pos q)).
Proof. intros [_ Hok]. by apply Vyukov.vy_length_contents. Qed.

Lemma mp_len_range q : ok q ->
  0 <= Vyukov.len (enqueue_pos q) (dequeue_pos q) <= capacity q.
Proof.
  intros [_ Hok]. pose proof (Vyukov.vy_len_range (enqueue_pos q) (dequeue_pos q)).
  destruct Hok. lia.
Qed.

Lemma mp_push_ok q v : ok q -> (length (contents q) < Z.to_nat (capacity q))%nat ->
  exists q', try_push v q = Done (Ok tt, q') /\ ok q' /\ contents q' = contents q ++ [v] /\
    capacity q' = capacity q /\ dequeue_pos q' = dequeue_pos q.
Proof.
  intros Hok Hl. rewrite mp_length_contents in Hl by done. pose proof (mp_len_range q Hok).
  destruct Hok as [Hc Hok].
  assert (Vyukov.len (enqueue_pos q) (dequeue_pos q) < capacity q) as Hlt by lia.
  unfold try_push. cbn [retry_fuel try_push_loop].
  change (cell_of q (enqueue_pos q)) with (Vyukov.cell_at (capacity q) (buffer q) (enqueue_pos q)).
  rewrite (Vyukov.vy_push_room _ _ _ _ Hc Hok Hlt), Vyukov.vy_diff_eq, Z.eqb_refl. simpl.
  eexists; split; [done|]. split; [split; [done|by apply Vyukov.vy_push_ok]|].
  split; [by apply Vyukov.vy_push_contents|done].
Qed.

Lemma mp_push_full q v : ok q -> length (contents q) = Z.to_nat (capacity q) ->
  try_push v q = Done (Err v, q).
Proof.
  intros Hok Hl. rewrite mp_length_contents in Hl by done. pose proof (mp_len_range q Hok).
  destruct Hok as [Hc Hok]. unfold try_push. cbn [retry_fuel try_push_loop].
  change (cell_of q (enqueue_pos q)) with (Vyukov.cell_at (capacity q) (buffer q) (enqueue_pos q)).
  rewrite (Vyukov.vy_push_full _ _ _ _ Hc Hok) by lia.
  destruct Hc as [Hc _]. assert ((1 - capacity q ?= 0) = Lt) as -> by (apply Z.compare_lt_iff; lia).
  done.
Qed.

Lemma mp_pop_some q v l : ok q -> contents q = v :: l ->
  exists q', try_pop q = Done (Some v, q') /\ ok q' /\ contents q' = l /\
    capacity q' = capacity q /\ enqueue_pos q' = enqueue_pos q /\
    dequeue_pos q' = wadd 64 (dequeue_pos q) 1.
Proof.
  intros Hok E. pose proof (mp_len_range q Hok).
  pose proof (mp_length_contents q Hok) as Hl. rewrite E in Hl. simpl in Hl.
  destruct Hok as [Hc Hok].
  assert (0 < Vyukov.len (enqueue_pos q) (dequeue_pos q)) as Hlt by lia.
  destruct (Vyukov.vy_pop_ready _ _ _ _ Hok Hlt) as (w & Ew).
  unfold contents in E.
  rewrite (Vyukov.vy_pop_contents _ _ _ _ Hc Hok w) in E by (done || by rewrite Ew). simplify_eq.
  unfold try_pop. cbn [retry_fuel try_pop_loop].
  change (cell_of q (dequeue_pos q)) with (Vyukov.cell_at (capacity q) (buffer q) (dequeue_pos q)).
  rewrite Ew. cbn [sequence data]. rewrite Vyukov.vy_diff_eq, Z.eqb_refl. simpl.
  eexists; split; [done|]. pose proof (Vyukov.vy_pop_ok _ _ _ _ Hc Hok Hlt) as Hok'.
  unfold Vyukov.pop_cells in *. rewrite Ew in *. split; [by split|done].
Qed.

Lemma mp_pop_none q : ok q -> contents q = [] -> try_pop q = Done (None, q).
Proof.
  intros Hok E. pose proof (mp_len_range q Hok).
  pose proof (mp_length_contents q Hok) as Hl. rewrite E in Hl. simpl in Hl.
  destruct Hok as [Hc Hok]. unfold try_pop. cbn [retry_fuel try_pop_loop].
  change (cell_of q (dequeue_pos q)) with (Vyukov.cell_at (capacity q) (buffer q) (dequeue_pos q)).
  rewrite (Vyukov.vy_pop_empty _ _ _ _ Hc Hok) by lia. done.
Qed.

#[global] Instance mpmc_fifo : FifoQueue t A := {|
  q_ok := ok; q_list := contents; q_cap := fun q => Z.to_nat (capacity q);
  q_push := try_push; q_pop := try_pop |}.

#[global] Instance mpmc_laws : FifoLaws t A.
Proof.
  split; simpl.
  - intros q x Hok Hl. destruct (mp_push_ok q x Hok Hl) as (q' & ? & ? & ? & E & _).
    exists q'. by rewrite E.
  - apply mp_push_full.
  - intros q x l Hok E. destruct (mp_pop_some q x l Hok E) as (q' & ? & ? & ? & Ec & _).
    exists q'. by rewrite Ec.
  - apply mp_pop_none.
  - intros q Hok. rewrite mp_length_contents by done. pose proof (mp_len_range q Hok). lia.
Qed.

Lemma mp_init_cells n i : 0 <= i < Z.of_nat n ->
  rd Vyukov.blank (init_cells n) i = mkCell i None.
Proof.
  induction n as [|n IH]; intros Hi; [lia|]. cbn [init_cells].
  destruct (decide (i = Z.of_nat n)) as [->|]; [apply rd_wr_eq|].
  rewrite rd_wr_ne by done. apply IH. lia.
Qed.

Lemma mp_new_ok cap : Vyukov.good_cap cap -> ok (new cap) /\ contents (new cap) = [].
Proof.
  intros [Hc Hd]. unfold ok, new, contents. cbn [capacity buffer enqueue_pos dequeue_pos].
  rewrite Z.max_l by lia. split_and!; try done.
  assert (Vyukov.len 0 0 = 0) as El by done. split; rewrite ?El; [done|done|lia|lia|].
  intros j Hj. unfold Vyukov.cell_at.
  rewrite Z.add_0_l, Z.mod_small, mp_init_cells by lia. simpl. symmetry. apply wrap_small. lia.
Qed.

(** Draining up to a snapshot of the enqueue position empties the queue. *)
Lemma mp_drain_all q fuel : ok q -> (length (contents q) <= fuel)%nat ->
  exists q', drain_until fuel (enqueue_snapshot q) q = Done (contents q, q') /\ ok q' /\
    contents q' = [] /\ capacity q' = capacity q.
Proof.
  unfold enqueue_snapshot. remember (enqueue_pos q) as target eqn:Et.
  revert q Et. induction fuel as [|fuel IH]; intros q Et Hok Hf.
  - destruct (contents q) as [|] eqn:E; simpl in Hf; [|lia].
    assert (Vyukov.len (enqueue_pos q) (dequeue_pos q) = 0) as El.
    { pose proof (mp_length_contents q Hok) as Hl. rewrite E in Hl. pose proof (mp_len_range q Hok).
      simpl in Hl. lia. }
    unfold Vyukov.len in El. simpl. rewrite Et, El. simpl. by exists q.
  - cbn [drain_until]. pose proof (mp_len_range q Hok) as Hr. pose proof (mp_length_contents q Hok) as Hl.
    unfold Vyukov.len in *. rewrite <- Et in *.
    pose proof Hok as [[Hc _] _].
    destruct (contents q) as [|v l] eqn:E; simpl in Hl, Hf.
    + assert (wsub 64 target (dequeue_pos q) = 0) as -> by lia. simpl. by exists q.
    + assert (cast_signed (wsub 64 target (dequeue_pos q)) = wsub 64 target (dequeue_pos q)) as ->.
      { unfold cast_signed. case_test; [done|lia]. }
      rewrite (proj2 (Z.ltb_lt _ _)) by lia.
      destruct (mp_pop_some q v l Hok E) as (q1 & -> & Hok1 & E1 & Ec & Ee & _). simpl.
      destruct (IH q1) as (q2 & -> & ? & ? & ?); [congruence|done|rewrite E1; lia|].
      rewrite E1. simpl. exists q2. by rewrite <- Ec.
Qed.
End mpmc.
Arguments t : clear implicits.
End Mpmc.

(** A [BoundedMpmcQueue] whose capacity is at least two and divides
    [2^64], used by one thread at a time, is a bounded FIFO queue for every
    sequence of operations, and draining it up to a snapshot hands over
    exactly what it held, in order. *)
Theorem mpmc_refines_bounded_fifo (A : Type) (cap : Z) (os : list (fifo_op A)) :
  Vyukov.good_cap cap ->
  exists rs q, impl_run (Mpmc.new cap) os = Done (rs, q) /\
    (rs, Mpmc.contents q) = spec_run (Z.to_nat cap) [] os /\
    exists q', Mpmc.drain_until (Z.to_nat cap) (Mpmc.enqueue_snapshot q) q
               = Done (Mpmc.contents q, q') /\ Mpmc.contents q' = [].
Proof.
  intros Hc. destruct (Mpmc.mp_new_ok (A := A) cap Hc) as [Hok Hnil].
  destruct (impl_run_refines (Mpmc.new cap) os) as (rs & q & E & H & Hq & Hcap); [exact Hok|].
  assert (Mpmc.capacity q = cap) as Ec.
  { pose proof Hq as [[? _] _]. simpl in Hcap. destruct Hc as [? _].
    unfold Mpmc.new in Hcap. simpl in Hcap. lia. }
  exists rs, q. split_and!; [done| |].
  - etrans; [exact H|]. unfold q_list, q_cap. cbn [Mpmc.mpmc_fifo]. rewrite Hnil. f_equal.
    unfold Mpmc.new. cbn [Mpmc.capacity]. destruct Hc as [? _]. f_equal. lia.
  - destruct (Mpmc.mp_drain_all q (Z.to_nat cap) Hq) as (q' & ? & _ & ? & _); [|by exists q'].
    rewrite Mpmc.mp_length_contents by done. pose proof (Mpmc.mp_len_range q Hq). lia.
Qed.

Lemma mpmc_refines_bounded_fifo_witness :
  exists rs q, impl_run (Mpmc.new 2) [OpPush 7; OpPush 8; OpPush 9; OpPop] = Done (rs, q) /\
    (rs, Mpmc.contents q) = ([Pushed; Pushed; Rejected 9; Popped 7], [8]).
Proof.
  destruct (mpmc_refines_bounded_fifo Z 2 [OpPush 7; OpPush 8; OpPush 9; OpPop])
    as (rs & q & E & H & _).
  - split; [done|]. by exists (2 ^ 63).
  - exists rs, q. split; [done|]. rewrite H. reflexivity.
Defined.

(** A queue of capacity one is broken (a bounded channel of capacity
    one or zero is built on it): a second [try_push] does not see that the
    queue is full, overwrites the first value and reports success, and
    [try_pop] then finds a sequence number ahead of its position and retries
    for ever, whatever number of turns it is given. *)
Theorem capacity_one_broken (A : Type) (a b : A) (fuel : nat) :
  exists q1 q2,
    Mpmc.try_push a (Mpmc.new 1) = Done (Ok tt, q1) /\
    Mpmc.try_push b q1 = Done (Ok tt, q2) /\
    Mpmc.try_pop_loop fuel (Mpmc.dequeue_pos q2) q2 = OutOfFuel.
Proof.
  do 2 eexists. split; [reflexivity|]. split; [reflexivity|].
  induction fuel as [|fuel IH]; [done|]. exact IH.
Qed.
