(* ===== verification/WaitQueue.v ===== *)
(** * WaitQueue

    The waiter list behind every primitive of [dtact_util::sync]
    (src/dtact-util/src/sync/wait_queue.rs), one call at a time: a ring
    of 256 registrations, allocated with the first one, and a stack for the
    overflow.  A registration is a number that stands for its [Arc<Entry>];
    [valid] and [waker] are the entry's fields.  What the waker does is the
    client's business: the operations return the wakers they call, in order.

    The interleaved use of the queue by the locks is in [Locks]. *)

From S2P Require Import Prelude Ring Fifo Vyukov BoundedMpmc MpmcStack.

Module WaitQ.

Definition READY_CAPACITY : Z := 256.

Record t := mk {
  ready : option (Mpmc.t Z);
  overflow : Stack.t Z;
  valid : gmap Z bool;
  waker : gmap Z Z
}.

Definition new : t := mk None Stack.new ∅ ∅.

Definition is_valid (q : t) (e : Z) : bool := default false (valid q !! e).
Definition waker_of (q : t) (e : Z) : Z := default 0 (waker q !! e).

(** [ready.get_or_init]. *)
Definition get_ready (q : t) : Mpmc.t Z :=
  match ready q with Some r => r | None => Mpmc.new READY_CAPACITY end.

(** [entry] is the address of the new [Entry]; it is the token returned. *)
Definition register (entry wkr : Z) (q : t) : outcome (Z * t) :=
  let v := <[entry := true]> (valid q) in
  let wk := <[entry := wkr]> (waker q) in
  '(r, rdy) ← Mpmc.try_push entry (get_ready q);
  Done (entry,
        match r with
        | Ok _ => mk (Some rdy) (overflow q) v wk
        | Err e => mk (Some rdy) (Stack.push e (overflow q)) v wk
        end).

Definition cancel (token : Z) (q : t) : t :=
  mk (ready q) (overflow q) (<[token := false]> (valid q)) (waker q).

(** [entry.valid.swap(false)]. *)
Definition swap_valid (e : Z) (q : t) : bool * t := (is_valid q e, cancel e q).

Definition set_ready (r : Mpmc.t Z) (q : t) : t := mk (Some r) (overflow q) (valid q) (waker q).
Definition set_overflow (s : Stack.t Z) (q : t) : t := mk (ready q) s (valid q) (waker q).

(** The first loop of [wake_one]. *)
Fixpoint wake_one_ready (fuel : nat) (q : t) : outcome (option Z * t) :=
  match ready q with
  | None => Done (None, q)
  | Some r =>
      '(e, r') ← Mpmc.try_pop r;
      let q1 := set_ready r' q in
      match e with
      | None => Done (None, q1)
      | Some e =>
          let '(v, q2) := swap_valid e q1 in
          if v then Done (Some (waker_of q2 e), q2)
          else match fuel with O => OutOfFuel | S fuel' => wake_one_ready fuel' q2 end
      end
  end.

(** The second loop. *)
Fixpoint wake_one_overflow (fuel : nat) (q : t) : outcome (option Z * t) :=
  let '(e, s) := Stack.pop (overflow q) in
  let q1 := set_overflow s q in
  match e with
  | None => Done (None, q1)
  | Some e =>
      let '(v, q2) := swap_valid e q1 in
      if v then Done (Some (waker_of q2 e), q2)
      else match fuel with O => OutOfFuel | S fuel' => wake_one_overflow fuel' q2 end
  end.

(** The ring holds at most 256 entries; the stack is walked to its end. *)
Definition wake_one (q : t) : outcome (option Z * t) :=
  '(w, q1) ← wake_one_ready (Z.to_nat READY_CAPACITY) q;
  match w with
  | Some k => Done (Some k, q1)
  | None => wake_one_overflow (length (Stack.items (overflow q1))) q1
  end.

(** The closure applied to each drained entry; [l] collects the wakers called. *)
Definition wake_entry (acc : list Z * t) (e : Z) : list Z * t :=
  let '(l, q) := acc in
  let '(v, q') := swap_valid e q in
  (if v then l ++ [waker_of q' e] else l, q').

Definition wake_all (q : t) : outcome (list Z * t) :=
  '(l, q1) ← match ready q with
             | None => Done ([], q)
             | Some r =>
                 '(es, r') ← Mpmc.drain_until (Z.to_nat READY_CAPACITY) (Mpmc.enqueue_snapshot r) r;
                 Done (foldl wake_entry ([], set_ready r' q) es)
             end;
  let '(es, s) := Stack.drain_all (overflow q1) in
  Done (foldl wake_entry (l, set_overflow s q1) es).

Definition has_waiters (q : t) : bool :=
  match ready q with Some r => negb (Mpmc.is_empty r) | None => false end
  || negb (Stack.is_empty (overflow q)).

(** ** The abstract waiter list *)

Definition ready_list (q : t) : list Z :=
  match ready q with Some r => Mpmc.contents r | None => [] end.
Definition over_list (q : t) : list Z := Stack.items (overflow q).

Definition ok (q : t) : Prop :=
  match ready q with Some r => Mpmc.ok r /\ Mpmc.capacity r = READY_CAPACITY | None => True end.

(** The entries in the order [wake_one] looks at them. *)
Definition order (q : t) : list Z := ready_list q ++ over_list q.

(** Waking one: the entries before the first valid one are dropped. *)
Fixpoint spec_wake_one (live : Z -> bool) (l : list Z) : option Z * list Z :=
  match l with
  | [] => (None, [])
  | e :: l' => if live e then (Some e, l') else spec_wake_one live l'
  end.

Lemma wq_good_cap : Vyukov.good_cap READY_CAPACITY.
Proof. split; [done|]. by exists (2 ^ 56). Qed.

Lemma wq_get_ready q : ok q ->
  Mpmc.ok (get_ready q) /\ Mpmc.capacity (get_ready q) = READY_CAPACITY /\
  Mpmc.contents (get_ready q) = ready_list q.
Proof.
  unfold ok, get_ready, ready_list. destruct (ready q) as [r|]; [tauto|]. intros _.
  destruct (Mpmc.mp_new_ok (A := Z) READY_CAPACITY wq_good_cap) as [H1 H2]. auto.
Qed.

Lemma wq_ready_bound q : ok q -> (length (ready_list q) <= 256)%nat.
Proof.
  intros Hok. destruct (wq_get_ready q Hok) as (H1 & H2 & <-).
  rewrite Mpmc.mp_length_contents by done. pose proof (Mpmc.mp_len_range _ H1) as H.
  rewrite H2 in H. unfold READY_CAPACITY in H. lia.
Qed.

Lemma wq_register e k q : ok q -> exists q',
  register e k q = Done (e, q') /\ ok q' /\
  valid q' = <[e := true]> (valid q) /\ waker q' = <[e := k]> (waker q) /\
  (if (length (ready_list q) <? 256)%nat
   then ready_list q' = ready_list q ++ [e] /\ over_list q' = over_list q
   else ready_list q' = ready_list q /\ over_list q' = e :: over_list q).
Proof.
  intros Hok. destruct (wq_get_ready q Hok) as (H1 & H2 & H3).
  pose proof (wq_ready_bound q Hok). unfold register.
  destruct (length (ready_list q) <? 256)%nat eqn:E.
  - apply Nat.ltb_lt in E.
    destruct (Mpmc.mp_push_ok (get_ready q) e H1) as (r & -> & Hr & Hl & Hc & _).
    { rewrite H3, H2. unfold READY_CAPACITY. lia. }
    simpl. eexists. split; [done|]. unfold ok, ready_list, over_list. simpl.
    rewrite Hl, H3. split; [split; congruence|done].
  - apply Nat.ltb_ge in E.
    rewrite Mpmc.mp_push_full; [|done|rewrite H3, H2; unfold READY_CAPACITY; lia].
    simpl. eexists. split; [done|]. unfold ok, ready_list, over_list. simpl.
    rewrite H3. done.
Qed.

(** The state after the entry [o], if any, was woken and entries that were not
    valid were dropped. *)
Definition woken (o : option Z) (q q' : t) : Prop :=
  waker q' = waker q /\
  forall x, is_valid q' x = is_valid q x && negb (bool_decide (o = Some x)).

Lemma wq_woken_refl q q' : valid q' = valid q -> waker q' = waker q -> woken None q q'.
Proof. intros Hv Hw. split; [done|]. intros x. unfold is_valid. by rewrite Hv, andb_true_r. Qed.

Lemma wq_cancel_valid e q x :
  is_valid (cancel e q) x = is_valid q x && negb (bool_decide (e = x)).
Proof.
  unfold is_valid, cancel. simpl. destruct (decide (e = x)) as [->|Hne].
  - rewrite lookup_insert_eq, bool_decide_true by done. by rewrite andb_false_r.
  - rewrite lookup_insert_ne, bool_decide_false by done. by rewrite andb_true_r.
Qed.

Lemma wq_cancel_woken e q : woken (Some e) q (cancel e q).
Proof.
  split; [done|]. intros x. rewrite wq_cancel_valid. do 2 f_equal.
  apply bool_decide_ext. naive_solver.
Qed.

(** Dropping an entry that is not valid changes nothing one can see. *)
Lemma wq_drop_woken e o q q1 q2 : is_valid q1 e = false -> woken None q q1 ->
  woken o (cancel e q1) q2 -> woken o q q2.
Proof.
  intros He [Hw1 Hv1] [Hw2 Hv2]. split; [by rewrite Hw2, <- Hw1|].
  intros x. rewrite Hv2, wq_cancel_valid. specialize (Hv1 x).
  rewrite andb_true_r in Hv1. rewrite <- Hv1. case_bool_decide as Hx; [|by rewrite andb_true_r].
  subst x. by rewrite He.
Qed.

Lemma wq_spec_ext f g l : (forall x, f x = g x) -> spec_wake_one f l = spec_wake_one g l.
Proof. intros H. induction l as [|x l IH]; simpl; [done|]. by rewrite H, IH. Qed.

Lemma wq_spec_app f l1 l2 :
  spec_wake_one f (l1 ++ l2) =
  match spec_wake_one f l1 with
  | (Some e, l') => (Some e, l' ++ l2)
  | (None, _) => spec_wake_one f l2
  end.
Proof. induction l1 as [|x l1 IH]; simpl; [done|]. by destruct (f x). Qed.

Lemma wq_spec_none f l l' : spec_wake_one f l = (None, l') -> l' = [].
Proof. induction l as [|x l IH]; simpl; [naive_solver|]. destruct (f x); naive_solver. Qed.

(** What either loop of [wake_one] does to the list it walks. *)
Definition wakes (l l' : list Z) (q : t) (w : option Z) (q' : t) : Prop :=
  exists o, spec_wake_one (is_valid q) l = (o, l') /\ w = waker_of q <$> o /\ woken o q q'.

Lemma wq_wakes_drop e l l' q q1 w q2 : is_valid q1 e = false -> woken None q q1 ->
  wakes l l' (cancel e q1) w q2 -> wakes (e :: l) l' q w q2.
Proof.
  intros He Hq (o & Hs & Hw & Ho). exists o.
  assert (Hext : forall x, is_valid (cancel e q1) x = is_valid q x).
  { intros x. rewrite wq_cancel_valid. destruct Hq as [_ Hv]. specialize (Hv x).
    rewrite andb_true_r in Hv. rewrite Hv. case_bool_decide as Hx; [|by rewrite andb_true_r].
    subst x. rewrite He in Hv. by rewrite <- Hv. }
  split_and!.
  - simpl. rewrite <- Hext, wq_cancel_valid, bool_decide_true, andb_false_r by done.
    rewrite <- Hs. by apply wq_spec_ext.
  - rewrite Hw. destruct Hq as [Hq _]. unfold waker_of. simpl. by rewrite Hq.
  - by apply (wq_drop_woken e o q q1 q2).
Qed.

Lemma wq_wakes_found e l q q1 : is_valid q1 e = true -> woken None q q1 ->
  wakes (e :: l) l q (Some (waker_of (cancel e q1) e)) (cancel e q1).
Proof.
  intros He [Hw Hv]. exists (Some e). pose proof (Hv e) as Hve. rewrite andb_true_r in Hve.
  split_and!.
  - simpl. by rewrite <- Hve, He.
  - simpl. unfold waker_of. simpl. by rewrite Hw.
  - destruct (wq_cancel_woken e q1) as [H1 H2]. split; [by rewrite H1|].
    intros x. rewrite H2, Hv. by rewrite andb_true_r.
Qed.

Lemma wq_wake_ready fuel : forall q, ok q -> (length (ready_list q) <= fuel)%nat ->
  exists w q', wake_one_ready fuel q = Done (w, q') /\ ok q' /\ over_list q' = over_list q /\
    wakes (ready_list q) (ready_list q') q w q'.
Proof.
  induction fuel as [|fuel IH]; intros q Hok Hf; simpl; unfold ready_list, ok in *;
    destruct (ready q) as [r|] eqn:Er.
  1, 3: destruct Hok as [Hr Hc]; destruct (Mpmc.contents r) as [|e l] eqn:El.
  - rewrite (Mpmc.mp_pop_none r Hr El). simpl. do 2 eexists. split; [done|].
    split; [done|]. split; [done|]. simpl. rewrite El. exists None. split_and!; try done.
    by apply wq_woken_refl.
  - simpl in Hf. lia.
  - rewrite (Mpmc.mp_pop_none r Hr El). simpl. do 2 eexists. split; [done|].
    split; [done|]. split; [done|]. simpl. rewrite El. exists None. split_and!; try done.
    by apply wq_woken_refl.
  - destruct (Mpmc.mp_pop_some r e l Hr El) as (r' & -> & Hr' & El' & Hc' & _). simpl.
    assert (Hq1 : woken None q (set_ready r' q)) by (by apply wq_woken_refl).
    destruct (is_valid (set_ready r' q) e) eqn:Ev.
    + do 2 eexists. split; [done|]. simpl. rewrite El'. split; [split; congruence|].
      split; [done|]. by apply wq_wakes_found.
    + destruct (IH (cancel e (set_ready r' q))) as (w & q' & E & H1 & H2 & H3).
      { simpl. split; congruence. }
      { simpl. rewrite El'. simpl in Hf. lia. }
      rewrite E. do 2 eexists. split; [done|]. split; [done|]. split; [by rewrite H2|].
      eapply wq_wakes_drop; [exact Ev|exact Hq1|]. simpl in H3. by rewrite El' in H3.
  - do 2 eexists. split; [done|]. rewrite Er. split; [done|]. split; [done|].
    exists None. split_and!; try done. by apply wq_woken_refl.
  - do 2 eexists. split; [done|]. rewrite Er. split; [done|]. split; [done|].
    exists None. split_and!; try done. by apply wq_woken_refl.
Qed.

Lemma wq_wake_overflow fuel : forall q, (length (over_list q) <= fuel)%nat ->
  exists w q', wake_one_overflow fuel q = Done (w, q') /\ ready q' = ready q /\
    wakes (over_list q) (over_list q') q w q'.
Proof.
  unfold over_list.
  induction fuel as [|fuel IH]; intros q Hf; simpl; unfold Stack.pop;
    destruct (Stack.items (overflow q)) as [|e l] eqn:El; simpl in Hf; try lia.
  1, 2: do 2 eexists; split; [done|]; split; [done|]; simpl; rewrite El; exists None;
    split_and!; try done; by apply wq_woken_refl.
  set (q1 := set_overflow _ q). assert (Hq1 : woken None q q1) by (by apply wq_woken_refl).
  change (match swap_valid e q1 with (v, q2) => _ end) with
    (if is_valid q1 e then Done (Some (waker_of (cancel e q1) e), cancel e q1)
     else wake_one_overflow fuel (cancel e q1)).
  destruct (is_valid q1 e) eqn:Ev.
  - do 2 eexists. split; [done|]. split; [done|]. by apply wq_wakes_found.
  - destruct (IH (cancel e q1)) as (w & q' & E & H2 & H3); [simpl; lia|].
    rewrite E. do 2 eexists. split; [done|]. split; [done|].
    eapply wq_wakes_drop; [exact Ev|exact Hq1|exact H3].
Qed.

Lemma wq_wake_one q : ok q -> exists w q',
  wake_one q = Done (w, q') /\ ok q' /\ wakes (order q) (order q') q w q'.
Proof.
  intros Hok. pose proof (wq_ready_bound q Hok).
  destruct (wq_wake_ready 256 q Hok) as (w & q1 & E & Hok1 & Ho & o & Hs & Hw & Hwk); [lia|].
  unfold wake_one. change (Z.to_nat READY_CAPACITY) with 256%nat. rewrite E. simpl.
  unfold order. destruct o as [e|]; simpl in Hw; subst w.
  - do 2 eexists. split; [done|]. split; [done|]. exists (Some e).
    rewrite wq_spec_app, Hs, Ho. done.
  - pose proof (wq_spec_none _ _ _ Hs) as Hnil.
    destruct (wq_wake_overflow (length (Stack.items (overflow q1))) q1)
      as (w & q2 & E2 & Hr & o & Hs2 & Hw2 & Hwk2); [done|].
    rewrite E2. do 2 eexists. split; [done|].
    split; [unfold ok; by rewrite Hr|].
    assert (Hr2 : ready_list q2 = []) by (unfold ready_list; rewrite Hr; exact Hnil).
    destruct Hwk as [Hk1 Hv1], Hwk2 as [Hk2 Hv2].
    assert (Hext : forall x, is_valid q x = is_valid q1 x).
    { intros x. rewrite Hv1. by rewrite andb_true_r. }
    exists o. split_and!.
    + rewrite wq_spec_app, Hs, Hr2. simpl. rewrite <- Ho, <- Hs2. by apply wq_spec_ext.
    + rewrite Hw2. unfold waker_of. by rewrite Hk1.
    + split; [by rewrite Hk2|]. intros x. rewrite Hv2, <- Hext. done.
Qed.

(** [wake_all] over a batch of distinct entries. *)
Definition live_wakers (q : t) (es : list Z) : list Z :=
  waker_of q <$> List.filter (is_valid q) es.

Lemma wq_wake_entries es : forall l q, NoDup es ->
  let r := foldl wake_entry (l, q) es in
  fst r = l ++ live_wakers q es /\ ready (snd r) = ready q /\ overflow (snd r) = overflow q /\
  waker (snd r) = waker q /\
  forall x, is_valid (snd r) x = is_valid q x && negb (bool_decide (x ∈ es)).
Proof.
  unfold live_wakers. induction es as [|e es IH]; intros l q Hnd; simpl.
  - rewrite app_nil_r. split_and!; try done. intros x. by rewrite andb_true_r.
  - apply NoDup_cons in Hnd as [He Hnd].
    destruct (IH (if is_valid q e then l ++ [waker_of (cancel e q) e] else l) (cancel e q) Hnd)
      as (-> & -> & -> & -> & Hv).
    split_and!; try done.
    + assert (Hf : List.filter (is_valid (cancel e q)) es = List.filter (is_valid q) es).
      { apply List.filter_ext_in. intros x Hx%list_elem_of_In. rewrite wq_cancel_valid.
        rewrite bool_decide_false by naive_solver. by rewrite andb_true_r. }
      rewrite Hf. destruct (is_valid q e); [by rewrite <- app_assoc|done].
    + intros x. rewrite Hv, wq_cancel_valid.
      rewrite <- andb_assoc, <- negb_orb, <- bool_decide_or. do 2 f_equal.
      apply bool_decide_ext. rewrite elem_of_cons. split; intros []; auto.
Qed.

Lemma wq_wake_all q : ok q -> NoDup (order q) -> exists q',
  wake_all q = Done (live_wakers q (ready_list q ++ reverse (over_list q)), q') /\
  ok q' /\ order q' = [] /\ waker q' = waker q /\
  forall x, is_valid q' x = is_valid q x && negb (bool_decide (x ∈ order q)).
Proof.
  intros Hok Hnd. pose proof (wq_ready_bound q Hok) as Hb. unfold order in *.
  apply NoDup_app in Hnd as (Hn1 & Hn3 & Hn2). unfold wake_all.
  change (Z.to_nat READY_CAPACITY) with 256%nat.
  assert (H1 : exists q1, (match ready q with
      | None => Done ([], q)
      | Some r => '(es, r') ← Mpmc.drain_until 256 (Mpmc.enqueue_snapshot r) r;
                  Done (foldl wake_entry ([], set_ready r' q) es) end)
      = Done (live_wakers q (ready_list q), q1) /\ ok q1 /\ ready_list q1 = [] /\
      overflow q1 = overflow q /\ waker q1 = waker q /\
      forall x, is_valid q1 x = is_valid q x && negb (bool_decide (x ∈ ready_list q))).
  { unfold ready_list, ok in *. destruct (ready q) as [r|] eqn:Er.
    - destruct Hok as [Hr Hc]. destruct (Mpmc.mp_drain_all r 256 Hr) as (r' & -> & Hr' & El & Ec'); [done|].
      simpl. destruct (wq_wake_entries (Mpmc.contents r) [] (set_ready r' q) Hn1)
        as (E1 & E2 & E3 & E4 & E5).
      destruct (foldl wake_entry _ _) as [l q1]. simpl in *. subst l. exists q1.
      split; [done|]. rewrite E2. split_and!; try done. congruence.
    - exists q. rewrite Er. split_and!; try done. intros x.
      rewrite bool_decide_false by set_solver. by rewrite andb_true_r. }
  destruct H1 as (q1 & -> & Hok1 & Hr1 & Ho1 & Hk1 & Hv1). simpl. rewrite Ho1.
  fold (over_list q). set (q2 := set_overflow _ q1).
  destruct (wq_wake_entries (reverse (over_list q)) (live_wakers q (ready_list q)) q2)
    as (E1 & E2 & E3 & E4 & E5); [by rewrite reverse_Permutation|].
  destruct (foldl wake_entry _ _) as [l q']. simpl in *. subst l. exists q'. split.
  - do 2 f_equal. unfold live_wakers. rewrite List.filter_app, fmap_app. f_equal.
    unfold waker_of. simpl. rewrite Hk1. f_equal. apply List.filter_ext_in.
    intros x Hx%list_elem_of_In. rewrite elem_of_reverse in Hx. unfold is_valid at 1. simpl.
    change (default false (valid q1 !! x)) with (is_valid q1 x). rewrite Hv1.
    rewrite bool_decide_false; [by rewrite andb_true_r|]. intros H. by apply (Hn3 x).
  - unfold ok, ready_list, over_list in *. rewrite E2, E3. simpl. split_and!; try done.
    + by rewrite Hr1.
    + by rewrite E4.
    + intros x. rewrite E5. unfold is_valid at 1. simpl.
      change (default false (valid q1 !! x)) with (is_valid q1 x). rewrite Hv1, <- andb_assoc.
      f_equal. rewrite <- negb_orb. f_equal. rewrite <- bool_decide_or.
      apply bool_decide_ext. rewrite elem_of_app, elem_of_reverse. done.
Qed.

(** What a client keeps: a well-formed queue whose entries are distinct and were
    allocated before [n]. *)
Definition good (n : Z) (q : t) : Prop :=
  ok q /\ NoDup (order q) /\ Forall (fun e => e < n) (order q).

Lemma wq_new_good n : good n new.
Proof. split; [done|]. split; constructor. Qed.

Lemma wq_good_weaken n n' q : n <= n' -> good n q -> good n' q.
Proof.
  intros Hn (H1 & H2 & H3). split_and!; [done..|]. eapply Forall_impl; [exact H3|]. simpl. lia.
Qed.

Lemma wq_cancel_good n e q : good n q -> good n (cancel e q).
Proof. done. Qed.

Lemma wq_register_good e k q : good e q -> exists q',
  register e k q = Done (e, q') /\ good (e + 1) q' /\ is_valid q' e = true /\
  waker_of q' e = k /\ e ∈ order q'.
Proof.
  intros (Hok & Hnd & Hlt). destruct (wq_register e k q Hok) as (q' & E & Hok' & Hv & Hw & Hl).
  assert (Ho : order q' = ready_list q ++ e :: over_list q).
  { unfold order. destruct (length (ready_list q) <? 256)%nat; destruct Hl as [-> ->];
      [by rewrite <- app_assoc|done]. }
  assert (Hp : order q' ≡ₚ e :: order q) by (rewrite Ho; unfold order; by rewrite Permutation_middle).
  exists q'. split; [exact E|]. split; [|split; [|split]].
  - split; [done|]. rewrite Hp. split.
    + constructor; [|done]. rewrite Forall_forall in Hlt. intros He. apply Hlt in He. lia.
    + constructor; [lia|]. eapply Forall_impl; [exact Hlt|]. simpl. lia.
  - unfold is_valid. by rewrite Hv, lookup_insert_eq.
  - unfold waker_of. by rewrite Hw, lookup_insert_eq.
  - rewrite Hp. by left.
Qed.

Lemma wq_spec_suffix f l o l' : spec_wake_one f l = (o, l') -> exists l0, l = l0 ++ l'.
Proof.
  revert o l'. induction l as [|x l IH]; simpl; intros o l' H; [by simplify_eq; exists []|].
  destruct (f x); simplify_eq; [by exists [x]|]. destruct (IH _ _ H) as [l0 ->]. by exists (x :: l0).
Qed.

Lemma wq_wake_one_good n q : good n q -> exists w q', wake_one q = Done (w, q') /\ good n q' /\
  w = waker_of q <$> fst (spec_wake_one (is_valid q) (order q)).
Proof.
  intros (Hok & Hnd & Hlt). destruct (wq_wake_one q Hok) as (w & q' & E & Hok' & o & Hs & Hw & _).
  exists w, q'. split; [done|]. rewrite Hs. split; [|done].
  destruct (wq_spec_suffix _ _ _ _ Hs) as [l0 El]. rewrite El in Hnd, Hlt.
  split; [done|]. apply NoDup_app in Hnd. apply Forall_app in Hlt. tauto.
Qed.

Lemma wq_wake_all_good n q : good n q -> exists l q', wake_all q = Done (l, q') /\ good n q' /\
  forall e, e ∈ order q -> is_valid q e = true -> waker_of q e ∈ l.
Proof.
  intros (Hok & Hnd & Hlt). destruct (wq_wake_all q Hok Hnd) as (q' & E & Hok' & Ho & _ & _).
  do 2 eexists. split; [exact E|]. split; [split; [done|rewrite Ho; split; constructor]|].
  intros e He Hv. unfold live_wakers. apply list_elem_of_fmap. exists e. split; [done|].
  apply list_elem_of_In, List.filter_In. split; [|done]. apply list_elem_of_In.
  unfold order in He. rewrite elem_of_app, elem_of_reverse in *. done.
Qed.

(** The positions of the ring have not wrapped. *)
Definition unwrapped (q : t) : Prop :=
  match ready q with Some r => Mpmc.dequeue_pos r <= Mpmc.enqueue_pos r | None => True end.

Lemma wq_has_waiters q : ok q -> unwrapped q -> has_waiters q = false <-> order q = [].
Proof.
  intros Hok Hu. unfold has_waiters, order, ready_list, over_list, ok, unwrapped, Stack.is_empty in *.
  rewrite orb_false_iff, app_nil.
  assert (Ho : negb (match Stack.items (overflow q) with [] => true | _ => false end) = false <->
               Stack.items (overflow q) = []) by (destruct (Stack.items (overflow q)); done).
  rewrite Ho. destruct (ready q) as [r|]; [|naive_solver].
  destruct Hok as [Hr _]. pose proof (Mpmc.mp_length_contents r Hr) as Hl.
  pose proof (Mpmc.mp_len_range r Hr) as Hb. destruct Hr as [Hc [Hp Hd _ _ _]].
  assert (He : Mpmc.is_empty r = true <-> Mpmc.contents r = []).
  { rewrite <- length_zero_iff_nil, Hl. unfold Mpmc.is_empty, Mpmc.len, sat_sub, Vyukov.len in *.
    rewrite Z.eqb_eq. unfold is_word in *. rewrite wsub_small in * by lia. lia. }
  rewrite negb_false_iff. tauto.
Qed.
End WaitQ.

(** C21.  A wait queue refines a list of registrations.  [register] puts the
    new entry behind all others of the ring and before those of the
    overflow stack; it goes to the ring while that has room for it,
    so that with nobody on the stack the list is first in, first out.  [wake_one] drops the
    entries that were cancelled and wakes exactly the first valid one,
    which is thereby spent; [wake_all] wakes every valid entry once, and
    leaves the queue empty and none of its entries valid; a cancelled entry is
    never woken; and [has_waiters] says whether anything is queued, cancelled or not. *)
Theorem wait_queue_refines_list (q : WaitQ.t) (e k : Z) :
  WaitQ.ok q ->
  (exists q', WaitQ.register e k q = Done (e, q') /\ WaitQ.ok q' /\
     WaitQ.is_valid q' e = true /\ WaitQ.waker_of q' e = k /\
     WaitQ.order q' = WaitQ.ready_list q ++ e :: WaitQ.over_list q /\
     ((length (WaitQ.ready_list q) < 256)%nat -> WaitQ.over_list q' = WaitQ.over_list q)) /\
  (exists q', WaitQ.wake_one q =
       Done (WaitQ.waker_of q <$> fst (WaitQ.spec_wake_one (WaitQ.is_valid q) (WaitQ.order q)), q') /\
     WaitQ.ok q' /\
     WaitQ.order q' = snd (WaitQ.spec_wake_one (WaitQ.is_valid q) (WaitQ.order q)) /\
     forall x, WaitQ.is_valid q' x = WaitQ.is_valid q x &&
       negb (bool_decide (fst (WaitQ.spec_wake_one (WaitQ.is_valid q) (WaitQ.order q)) = Some x))) /\
  (NoDup (WaitQ.order q) -> exists l q', WaitQ.wake_all q = Done (l, q') /\
     l ≡ₚ WaitQ.waker_of q <$> List.filter (WaitQ.is_valid q) (WaitQ.order q) /\
     WaitQ.ok q' /\ WaitQ.order q' = [] /\
     forall x, WaitQ.is_valid q' x = WaitQ.is_valid q x && negb (bool_decide (x ∈ WaitQ.order q))) /\
  WaitQ.is_valid (WaitQ.cancel e q) e = false /\
  (WaitQ.unwrapped q -> WaitQ.has_waiters q = false <-> WaitQ.order q = []).
Proof.
  intros Hok. split; [|split; [|split; [|split]]].
  - destruct (WaitQ.wq_register e k q Hok) as (q' & E & Hok' & Hv & Hw & Hl). exists q'.
    split; [exact E|]. split; [exact Hok'|]. unfold WaitQ.is_valid, WaitQ.waker_of, WaitQ.order.
    rewrite Hv, Hw, !lookup_insert_eq. split; [done|]. split; [done|].
    destruct (length (WaitQ.ready_list q) <? 256)%nat eqn:El; destruct Hl as [-> ->].
    + by rewrite <- app_assoc.
    + apply Nat.ltb_ge in El. split; [done|]. lia.
  - destruct (WaitQ.wq_wake_one q Hok) as (w & q' & E & Hok' & o & Hs & Hw & _ & Hv).
    exists q'. rewrite Hs, E, Hw. done.
  - intros Hnd. destruct (WaitQ.wq_wake_all q Hok Hnd) as (q' & E & Hok' & Ho & _ & Hv).
    do 2 eexists. split; [exact E|]. split; [|done]. unfold WaitQ.live_wakers, WaitQ.order.
    rewrite !List.filter_app, !fmap_app. apply Permutation_app_head. apply fmap_Permutation.
    clear. induction (WaitQ.over_list q) as [|x l IH]; [done|].
    rewrite reverse_cons, List.filter_app, IH. simpl.
    destruct (WaitQ.is_valid q x); [by rewrite Permutation_app_comm|by rewrite app_nil_r].
  - rewrite WaitQ.wq_cancel_valid, bool_decide_true by done. apply andb_false_r.
  - by apply WaitQ.wq_has_waiters.
Qed.

Lemma wait_queue_refines_list_witness : exists q1 q2,
  WaitQ.register 1 11 WaitQ.new = Done (1, q1) /\ WaitQ.order q1 = [1] /\
  WaitQ.wake_one q1 = Done (Some 11, q2).
Proof.
  destruct (wait_queue_refines_list WaitQ.new 1 11 I) as ((q1 & E1 & H1 & V1 & K1 & O1 & _) & _).
  destruct (wait_queue_refines_list q1 2 22 H1) as (_ & (q2 & E2 & _) & _).
  exists q1, q2. split; [exact E1|]. split; [exact O1|]. rewrite E2, O1. simpl. rewrite V1. simpl.
  by rewrite K1.
Defined.
