(* ===== verification/Mpsc.v ===== *)
(** * Mpsc

    The multi-producer, single-consumer channel of
    src/dtact-util/src/sync/mpsc.rs, bounded and unbounded, one poll or
    call at a time.  The operations run in a monad that threads the shared state
    and collects the tasks whose wakers are called.

    [fresh] stands for the allocator of wait-queue entries.  The
    receiver's local deque is part of the state; a bounded channel never uses it. *)

From S2P Require Import Prelude Ring Fifo Vyukov BoundedMpmc MpmcStack WaitQueue.

Module Mpsc.
Section mpsc.
Context {A : Type}.

Inductive Queue := Bounded (q : Mpmc.t A) | Unbounded (q : Stack.t A).

Record t := mk {
  queue : Queue;
  local : list A;
  sender_count : Z;
  receiver_dropped : bool;
  recv_wait : WaitQ.t;
  send_wait : WaitQ.t;
  fresh : Z
}.

Definition channel (capacity : Z) : t :=
  mk (Bounded (Mpmc.new (Z.max capacity 1))) [] 1 false WaitQ.new WaitQ.new 0.

Definition unbounded_channel : t := mk (Unbounded Stack.new) [] 1 false WaitQ.new WaitQ.new 0.

(** ** The monad *)

Definition chan (T : Type) : Type := t -> outcome (T * (list Z * t)).

#[local] Instance chan_ret : MRet chan := fun T x s => Done (x, ([], s)).
#[local] Instance chan_bind : MBind chan := fun T U f m s =>
  match m s with
  | Done (x, (w, s1)) =>
      match f x s1 with
      | Done (y, (w', s2)) => Done (y, (w ++ w', s2))
      | Panic => Panic
      | OutOfFuel => OutOfFuel
      end
  | Panic => Panic
  | OutOfFuel => OutOfFuel
  end.

Definition gets {T} (f : t -> T) : chan T := fun s => Done (f s, ([], s)).

Definition set_queue (q : Queue) (l : list A) (s : t) : t :=
  mk q l (sender_count s) (receiver_dropped s) (recv_wait s) (send_wait s) (fresh s).
Definition set_recv (q : WaitQ.t) (s : t) : t :=
  mk (queue s) (local s) (sender_count s) (receiver_dropped s) q (send_wait s) (fresh s).
Definition set_send (q : WaitQ.t) (s : t) : t :=
  mk (queue s) (local s) (sender_count s) (receiver_dropped s) (recv_wait s) q (fresh s).
Definition allocated (s : t) : t :=
  mk (queue s) (local s) (sender_count s) (receiver_dropped s) (recv_wait s) (send_wait s) (fresh s + 1).

(** ** Operations on the queue *)

Definition try_push (value : A) : chan (result unit A) := fun s =>
  match queue s with
  | Bounded q => '(r, q') ← Mpmc.try_push value q; Done (r, ([], set_queue (Bounded q') (local s) s))
  | Unbounded q => Done (Ok tt, ([], set_queue (Unbounded (Stack.push value q)) (local s) s))
  end.

(** The pop, without the wakeup that follows it. *)
Definition pop_queue : chan (option A) := fun s =>
  match queue s with
  | Bounded q => '(r, q') ← Mpmc.try_pop q; Done (r, ([], set_queue (Bounded q') (local s) s))
  | Unbounded q =>
      match local s with
      | v :: l => Done (Some v, ([], set_queue (Unbounded q) l s))
      | [] =>
          let '(l, q') := Stack.drain_into_vec_deque [] q in
          match l with
          | v :: l' => Done (Some v, ([], set_queue (Unbounded q') l' s))
          | [] => Done (None, ([], set_queue (Unbounded q') [] s))
          end
      end
  end.

(** ** Operations on the wait queues *)

Definition recv_wake_one : chan unit := fun s =>
  '(w, q) ← WaitQ.wake_one (recv_wait s); Done (tt, (option_list w, set_recv q s)).
Definition send_wake_one : chan unit := fun s =>
  '(w, q) ← WaitQ.wake_one (send_wait s); Done (tt, (option_list w, set_send q s)).
Definition recv_wake_all : chan unit := fun s =>
  '(w, q) ← WaitQ.wake_all (recv_wait s); Done (tt, (w, set_recv q s)).
Definition send_wake_all : chan unit := fun s =>
  '(w, q) ← WaitQ.wake_all (send_wait s); Done (tt, (w, set_send q s)).
Definition recv_register (k : Z) : chan Z := fun s =>
  '(e, q) ← WaitQ.register (fresh s) k (recv_wait s); Done (e, ([], allocated (set_recv q s))).
Definition send_register (k : Z) : chan Z := fun s =>
  '(e, q) ← WaitQ.register (fresh s) k (send_wait s); Done (e, ([], allocated (set_send q s))).
Definition recv_cancel (e : Z) : chan unit := fun s =>
  Done (tt, ([], set_recv (WaitQ.cancel e (recv_wait s)) s)).
Definition send_cancel (e : Z) : chan unit := fun s =>
  Done (tt, ([], set_send (WaitQ.cancel e (send_wait s)) s)).

Definition is_closed_for_send : chan bool := gets receiver_dropped.
Definition is_closed_for_recv : chan bool := gets (fun s => sender_count s =? 0).

(** [if recv_wait.has_waiters() { recv_wait.wake_one() }]. *)
Definition wake_receiver : chan unit :=
  b ← gets (fun s => WaitQ.has_waiters (recv_wait s));
  if b : bool then recv_wake_one else mret tt.
Definition wake_sender : chan unit :=
  b ← gets (fun s => WaitQ.has_waiters (send_wait s));
  if b : bool then send_wake_one else mret tt.

(** ** The sender *)

(** [poll_send] from the registration on. *)
Definition poll_send_slow (k : Z) (value : A) : chan (Poll (result unit A)) :=
  token ← send_register k;
  closed ← is_closed_for_send;
  if closed : bool then
    send_cancel token;; mret (Ready (Err value))
  else
    r ← try_push value;
    match r with
    | Ok _ => send_cancel token;; wake_receiver;; mret (Ready (Ok tt))
    | Err _ => mret Pending
    end.

Definition poll_send (k : Z) (value : A) : chan (Poll (result unit A)) :=
  closed ← is_closed_for_send;
  if closed : bool then mret (Ready (Err value)) else
  waiters ← gets (fun s => WaitQ.has_waiters (send_wait s));
  if negb waiters then
    r ← try_push value;
    match r with
    | Ok _ => wake_receiver;; mret (Ready (Ok tt))
    | Err v => poll_send_slow k v
    end
  else poll_send_slow k value.

(** [UnboundedSender::send]. *)
Definition unbounded_send (value : A) : chan (result unit A) :=
  closed ← is_closed_for_send;
  if closed : bool then mret (Err value) else
  r ← try_push value;
  match r with
  | Ok _ => recv_wake_one;; mret (Ok tt)
  | Err _ => fun _ => Panic
  end.

Definition clone_sender : chan unit := fun s =>
  Done (tt, ([], mk (queue s) (local s) (wadd 64 (sender_count s) 1) (receiver_dropped s)
                    (recv_wait s) (send_wait s) (fresh s))).

Definition drop_sender : chan unit := fun s =>
  let s' := mk (queue s) (local s) (wsub 64 (sender_count s) 1) (receiver_dropped s)
               (recv_wait s) (send_wait s) (fresh s) in
  if sender_count s =? 1 then recv_wake_all s' else Done (tt, ([], s')).

(** ** The receiver *)

Definition try_pop : chan (option A) :=
  v ← pop_queue;
  match v with
  | Some x => wake_sender;; mret (Some x)
  | None => mret None
  end.

Definition poll_recv_slow (k : Z) : chan (Poll (option A)) :=
  token ← recv_register k;
  v ← try_pop;
  match v with
  | Some x => recv_cancel token;; mret (Ready (Some x))
  | None =>
      closed ← is_closed_for_recv;
      if closed : bool then v' ← try_pop; recv_cancel token;; mret (Ready v')
      else mret Pending
  end.

Definition poll_recv (k : Z) : chan (Poll (option A)) :=
  v ← try_pop;
  match v with
  | Some x => mret (Ready (Some x))
  | None =>
      closed ← is_closed_for_recv;
      if closed : bool then v' ← try_pop; mret (Ready v')
      else poll_recv_slow k
  end.

Definition drop_receiver : chan unit := fun s =>
  send_wake_all (mk (queue s) (local s) (sender_count s) true (recv_wait s) (send_wait s) (fresh s)).

(** ** The abstract channel *)

Definition contents (s : t) : list A :=
  match queue s with
  | Bounded q => Mpmc.contents q
  | Unbounded q => local s ++ reverse (Stack.items q)
  end.

(** Whether a push would be accepted. *)
Definition has_room (s : t) : bool :=
  match queue s with
  | Bounded q => (length (Mpmc.contents q) <? Z.to_nat (Mpmc.capacity q))%nat
  | Unbounded _ => true
  end.

Definition ok (s : t) : Prop :=
  match queue s with Bounded q => Mpmc.ok q | Unbounded _ => True end /\
  WaitQ.good (fresh s) (recv_wait s) /\ WaitQ.good (fresh s) (send_wait s).

(** ** What the operations do *)

(** [m] returns from [s], with a result, wakeups and a state in [Q]. *)
Definition runs {T} (m : chan T) (s : t) (Q : T -> list Z -> t -> Prop) : Prop :=
  exists x w s', m s = Done (x, (w, s')) /\ Q x w s'.

Lemma ch_runs_ret {T} (x : T) s (Q : T -> list Z -> t -> Prop) :
  Q x [] s -> runs (mret x) s Q.
Proof. intros H. by exists x, [], s. Qed.

Lemma ch_runs_gets {T} (f : t -> T) s (Q : T -> list Z -> t -> Prop) :
  Q (f s) [] s -> runs (gets f) s Q.
Proof. intros H. by exists (f s), [], s. Qed.

Lemma ch_runs_bind {T U} (m : chan T) (f : T -> chan U) s Q :
  runs m s (fun x w s1 => runs (f x) s1 (fun y w' s2 => Q y (w ++ w') s2)) -> runs (m ≫= f) s Q.
Proof.
  intros (x & w & s1 & E1 & y & w' & s2 & E2 & HQ). exists y, (w ++ w'), s2.
  split; [|done]. unfold mbind, chan_bind. by rewrite E1, E2.
Qed.

Lemma ch_runs_mono {T} (m : chan T) s (Q Q' : T -> list Z -> t -> Prop) :
  runs m s Q -> (forall x w s', Q x w s' -> Q' x w s') -> runs m s Q'.
Proof. intros (x & w & s' & E & H) HQ. exists x, w, s'. auto. Qed.

(** Nothing but the wait queues changes. *)
Definition framed (s s' : t) : Prop :=
  queue s' = queue s /\ local s' = local s /\ sender_count s' = sender_count s /\
  receiver_dropped s' = receiver_dropped s.

Lemma ch_framed_contents s s' : framed s s' ->
  contents s' = contents s /\ has_room s' = has_room s.
Proof. intros (H1 & H2 & _). unfold contents, has_room. by rewrite H1, H2. Qed.

(** The first waiter [wake_one] finds. *)
Definition first_waiter (q : WaitQ.t) : list Z :=
  option_list (WaitQ.waker_of q <$> fst (WaitQ.spec_wake_one (WaitQ.is_valid q) (WaitQ.order q))).

(** The task [k] is registered, and its registration is valid. *)
Definition registered (k : Z) (q : WaitQ.t) : Prop :=
  exists e, e ∈ WaitQ.order q /\ WaitQ.is_valid q e = true /\ WaitQ.waker_of q e = k.

Definition all_woken (q : WaitQ.t) (w : list Z) : Prop := forall k, registered k q -> k ∈ w.

Lemma ch_recv_wake_one s : ok s ->
  runs recv_wake_one s (fun _ w s' => ok s' /\ framed s s' /\ send_wait s' = send_wait s /\
    w = first_waiter (recv_wait s)).
Proof.
  intros (H1 & H2 & H3). destruct (WaitQ.wq_wake_one_good _ _ H2) as (w & q & E & Hq & Hw).
  exists tt, (option_list w), (set_recv q s). unfold recv_wake_one. rewrite E.
  split; [done|]. unfold first_waiter. by rewrite Hw.
Qed.

Lemma ch_send_wake_one s : ok s ->
  runs send_wake_one s (fun _ w s' => ok s' /\ framed s s' /\ recv_wait s' = recv_wait s /\
    w = first_waiter (send_wait s)).
Proof.
  intros (H1 & H2 & H3). destruct (WaitQ.wq_wake_one_good _ _ H3) as (w & q & E & Hq & Hw).
  exists tt, (option_list w), (set_send q s). unfold send_wake_one. rewrite E.
  split; [done|]. unfold first_waiter. by rewrite Hw.
Qed.

Lemma ch_recv_wake_all s : ok s ->
  runs recv_wake_all s (fun _ w s' => ok s' /\ framed s s' /\ all_woken (recv_wait s) w).
Proof.
  intros (H1 & H2 & H3). destruct (WaitQ.wq_wake_all_good _ _ H2) as (w & q & E & Hq & Hw).
  exists tt, w, (set_recv q s). unfold recv_wake_all. rewrite E.
  split; [done|]. split; [done|]. split; [done|]. intros k (e & He & Hv & <-). by apply Hw.
Qed.

Lemma ch_send_wake_all s : ok s ->
  runs send_wake_all s (fun _ w s' => ok s' /\ framed s s' /\ all_woken (send_wait s) w).
Proof.
  intros (H1 & H2 & H3). destruct (WaitQ.wq_wake_all_good _ _ H3) as (w & q & E & Hq & Hw).
  exists tt, w, (set_send q s). unfold send_wake_all. rewrite E.
  split; [done|]. split; [done|]. split; [done|]. intros k (e & He & Hv & <-). by apply Hw.
Qed.

Lemma ch_recv_register k s : ok s ->
  runs (recv_register k) s (fun _ w s' => ok s' /\ framed s s' /\ send_wait s' = send_wait s /\
    w = [] /\ registered k (recv_wait s')).
Proof.
  intros (H1 & H2 & H3). destruct (WaitQ.wq_register_good (fresh s) k _ H2)
    as (q & E & Hq & Hv & Hw & Hin).
  exists (fresh s), [], (allocated (set_recv q s)). unfold recv_register. rewrite E.
  split; [done|]. split.
  - split; [done|]. split; [done|]. simpl. eapply WaitQ.wq_good_weaken; [|exact H3]. lia.
  - split; [done|]. split; [done|]. split; [done|]. by exists (fresh s).
Qed.

Lemma ch_send_register k s : ok s ->
  runs (send_register k) s (fun _ w s' => ok s' /\ framed s s' /\ recv_wait s' = recv_wait s /\
    w = [] /\ registered k (send_wait s')).
Proof.
  intros (H1 & H2 & H3). destruct (WaitQ.wq_register_good (fresh s) k _ H3)
    as (q & E & Hq & Hv & Hw & Hin).
  exists (fresh s), [], (allocated (set_send q s)). unfold send_register. rewrite E.
  split; [done|]. split.
  - split; [done|]. split; [|done]. simpl. eapply WaitQ.wq_good_weaken; [|exact H2]. lia.
  - split; [done|]. split; [done|]. split; [done|]. by exists (fresh s).
Qed.

Lemma ch_recv_cancel e s : ok s ->
  runs (recv_cancel e) s (fun _ w s' => ok s' /\ framed s s' /\ send_wait s' = send_wait s /\ w = []).
Proof. intros H. by exists tt, [], (set_recv (WaitQ.cancel e (recv_wait s)) s). Qed.

Lemma ch_send_cancel e s : ok s ->
  runs (send_cancel e) s (fun _ w s' => ok s' /\ framed s s' /\ recv_wait s' = recv_wait s /\ w = []).
Proof. intros H. by exists tt, [], (set_send (WaitQ.cancel e (send_wait s)) s). Qed.

(** Looking first whether anyone waits makes no difference. *)
Lemma ch_wake_receiver s : ok s ->
  runs wake_receiver s (fun _ w s' => ok s' /\ framed s s' /\ send_wait s' = send_wait s /\
    (WaitQ.unwrapped (recv_wait s) -> w = first_waiter (recv_wait s))).
Proof.
  intros H. apply ch_runs_bind, ch_runs_gets.
  destruct (WaitQ.has_waiters (recv_wait s)) eqn:E.
  - eapply ch_runs_mono; [by apply ch_recv_wake_one|]. simpl. tauto.
  - apply ch_runs_ret. split; [done|]. split; [done|]. split; [done|]. intros Hu.
    apply WaitQ.wq_has_waiters in E; [|apply H|done]. unfold first_waiter. by rewrite E.
Qed.

Lemma ch_wake_sender s : ok s ->
  runs wake_sender s (fun _ w s' => ok s' /\ framed s s' /\ recv_wait s' = recv_wait s /\
    (WaitQ.unwrapped (send_wait s) -> w = first_waiter (send_wait s))).
Proof.
  intros H. apply ch_runs_bind, ch_runs_gets.
  destruct (WaitQ.has_waiters (send_wait s)) eqn:E.
  - eapply ch_runs_mono; [by apply ch_send_wake_one|]. simpl. tauto.
  - apply ch_runs_ret. split; [done|]. split; [done|]. split; [done|]. intros Hu.
    apply WaitQ.wq_has_waiters in E; [|apply H|done]. unfold first_waiter. by rewrite E.
Qed.

(** Nothing but the message buffer changes. *)
Definition buffered (s s' : t) : Prop :=
  sender_count s' = sender_count s /\ receiver_dropped s' = receiver_dropped s /\
  recv_wait s' = recv_wait s /\ send_wait s' = send_wait s.

Lemma ch_try_push v s : ok s ->
  runs (try_push v) s (fun r w s' => ok s' /\ buffered s s' /\ w = [] /\
    if has_room s then r = Ok tt /\ contents s' = contents s ++ [v]
    else r = Err v /\ framed s s').
Proof.
  intros (H1 & H2 & H3). unfold runs, try_push, has_room, contents, ok, framed.
  destruct (queue s) as [q|q] eqn:Eq.
  - destruct (length (Mpmc.contents q) <? Z.to_nat (Mpmc.capacity q))%nat eqn:El.
    + apply Nat.ltb_lt in El. destruct (Mpmc.mp_push_ok q v H1 El) as (q' & -> & Hq & Hc & _).
      simpl. do 3 eexists. split; [done|]. simpl. unfold buffered. split_and!; done.
    + apply Nat.ltb_ge in El.
      assert (Hfull : length (Mpmc.contents q) = Z.to_nat (Mpmc.capacity q)).
      { rewrite Mpmc.mp_length_contents in * by done. pose proof (Mpmc.mp_len_range q H1). lia. }
      rewrite (Mpmc.mp_push_full q v H1 Hfull). simpl. do 3 eexists. split; [done|]. simpl. unfold buffered. split_and!; done.
  - do 3 eexists. split; [done|]. simpl. unfold buffered. rewrite reverse_cons, app_assoc. split_and!; done.
Qed.

Lemma ch_pop_queue s : ok s ->
  runs pop_queue s (fun r w s' => ok s' /\ buffered s s' /\ w = [] /\
    match contents s with
    | v :: l => r = Some v /\ contents s' = l
    | [] => r = None /\ contents s' = []
    end).
Proof.
  intros (H1 & H2 & H3). unfold runs, pop_queue, contents, ok.
  destruct (queue s) as [q|q] eqn:Eq.
  - destruct (Mpmc.contents q) as [|v l] eqn:El.
    + rewrite (Mpmc.mp_pop_none q H1 El). simpl. do 3 eexists. split; [done|]. simpl. unfold buffered. split_and!; done.
    + destruct (Mpmc.mp_pop_some q v l H1 El) as (q' & -> & Hq & Hc & _). simpl.
      do 3 eexists. split; [done|]. simpl. unfold buffered. split_and!; done.
  - destruct (local s) as [|v l] eqn:El; simpl.
    + rewrite Stack.st_reverse_chain, app_nil_r.
      destruct (reverse (Stack.items q)) as [|v l]; do 3 eexists; (split; [done|]); simpl;
        rewrite ?app_nil_r; unfold buffered; split_and!; done.
    + do 3 eexists. split; [done|]. simpl. unfold buffered. split_and!; done.
Qed.

Lemma ch_buffered_framed s s1 s2 : buffered s s1 -> framed s1 s2 ->
  sender_count s2 = sender_count s /\ receiver_dropped s2 = receiver_dropped s /\
  contents s2 = contents s1.
Proof.
  intros (B1 & B2 & _) Hf. destruct (ch_framed_contents _ _ Hf) as [-> _].
  destruct Hf as (_ & _ & F3 & F4). split_and!; congruence.
Qed.

(** What is left alone by every operation on messages. *)
Definition same_ends (s s' : t) : Prop :=
  sender_count s' = sender_count s /\ receiver_dropped s' = receiver_dropped s.

(** What a poll of a send does. *)
Definition send_result (k : Z) (v : A) (s : t) (r : Poll (result unit A)) (w : list Z) (s' : t) : Prop :=
  ok s' /\ same_ends s s' /\
  if receiver_dropped s then r = Ready (Err v) /\ contents s' = contents s
  else if has_room s then
    r = Ready (Ok tt) /\ contents s' = contents s ++ [v] /\
    (WaitQ.unwrapped (recv_wait s) -> w = first_waiter (recv_wait s))
  else r = Pending /\ contents s' = contents s /\ registered k (send_wait s').

(** The wakeup after a push. *)
Lemma ch_accepted {T} (x : T) s : ok s ->
  runs (wake_receiver;; mret x) s (fun r w s' => r = x /\ ok s' /\ framed s s' /\
    (WaitQ.unwrapped (recv_wait s) -> w = first_waiter (recv_wait s))).
Proof.
  intros H. apply ch_runs_bind. eapply ch_runs_mono; [by apply ch_wake_receiver|].
  intros _ w s1 (H1 & H2 & _ & H3). apply ch_runs_ret. rewrite app_nil_r. auto.
Qed.

Lemma ch_poll_send_slow k v s : ok s -> runs (poll_send_slow k v) s (send_result k v s).
Proof.
  intros Hok. apply ch_runs_bind. eapply ch_runs_mono; [by apply ch_send_register|].
  intros e w1 s1 (Hok1 & Hf1 & Hr1 & -> & Hreg). apply ch_runs_bind, ch_runs_gets.
  destruct (ch_framed_contents _ _ Hf1) as [Hc1 Hroom1].
  pose proof Hf1 as (_ & _ & Hs1 & Hd1). unfold send_result, same_ends. rewrite <- Hd1, <- Hroom1, <- Hc1, <- Hs1, <- Hr1.
  destruct (receiver_dropped s1) eqn:Ed.
  - apply ch_runs_bind. eapply ch_runs_mono; [by apply ch_send_cancel|].
    intros _ w2 s2 (Hok2 & Hf2 & _ & ->). apply ch_runs_ret.
    destruct (ch_framed_contents _ _ Hf2) as [Hc2 _]. destruct Hf2 as (_ & _ & Hs2 & Hd2).
    rewrite Hd2, Hs2, Hc2, Ed. auto.
  - apply ch_runs_bind. eapply ch_runs_mono; [by apply ch_try_push|].
    intros r w2 s2 (Hok2 & Hb2 & -> & H). pose proof Hb2 as (Bs & Bd & Br & Bw).
    destruct (has_room s1).
    + destruct H as [-> Hc2]. apply ch_runs_bind.
      eapply ch_runs_mono; [by apply ch_send_cancel|].
      intros _ w3 s3 (Hok3 & Hf3 & Hr3 & ->).
      eapply ch_runs_mono; [by apply (ch_accepted (Ready (Ok tt)))|].
      intros r w4 s4 (-> & Hok4 & Hf4 & Hw). simpl.
      destruct (ch_framed_contents _ _ Hf3) as [Hc3 _], (ch_framed_contents _ _ Hf4) as [Hc4 _].
      destruct Hf3 as (_ & _ & Hs3 & Hd3), Hf4 as (_ & _ & Hs4 & Hd4).
      rewrite Hr3, Br in Hw. split_and!; try congruence; exact Hw.
    + destruct H as [-> Hf2]. apply ch_runs_ret. simpl.
      destruct (ch_framed_contents _ _ Hf2) as [Hc2 _]. split_and!; congruence.
Qed.

Lemma ch_poll_send k v s : ok s -> runs (poll_send k v) s (send_result k v s).
Proof.
  intros Hok. apply ch_runs_bind, ch_runs_gets. destruct (receiver_dropped s) eqn:Ed.
  - apply ch_runs_ret. unfold send_result. rewrite Ed. done.
  - apply ch_runs_bind, ch_runs_gets. destruct (WaitQ.has_waiters (send_wait s)); simpl.
    + by apply ch_poll_send_slow.
    + apply ch_runs_bind. eapply ch_runs_mono; [by apply ch_try_push|].
      intros r w1 s1 (Hok1 & Hb & -> & H). pose proof Hb as (Bs & Bd & Br & Bw).
      destruct (has_room s) eqn:Eroom.
      * destruct H as [-> Hc]. eapply ch_runs_mono; [by apply (ch_accepted (Ready (Ok tt)))|].
        intros r w2 s2 (-> & Hok2 & Hf2 & Hw). simpl. unfold send_result. rewrite Ed, Eroom.
        destruct (ch_framed_contents _ _ Hf2) as [Hc2 _].
        destruct Hf2 as (_ & _ & Hs2 & Hd2). rewrite Br in Hw. unfold same_ends.
        split_and!; try congruence; exact Hw.
      * destruct H as [-> Hf]. eapply ch_runs_mono; [by apply ch_poll_send_slow|].
        intros r w2 s2 (Hok2 & [Hs2 Hd2] & H2). simpl. unfold send_result, same_ends.
        destruct (ch_framed_contents _ _ Hf) as [Hc Hroom].
        rewrite Ed, Eroom. rewrite Hroom, Eroom, Bd, Ed in H2. destruct H2 as (-> & Hc2 & Hreg).
        split_and!; congruence.
Qed.

(** [UnboundedSender::send], on an unbounded channel. *)
Lemma ch_unbounded_send v s q : ok s -> queue s = Unbounded q ->
  runs (unbounded_send v) s (fun r w s' => ok s' /\ same_ends s s' /\
    if receiver_dropped s then r = Err v /\ contents s' = contents s
    else r = Ok tt /\ contents s' = contents s ++ [v] /\ w = first_waiter (recv_wait s)).
Proof.
  intros Hok Hq. apply ch_runs_bind, ch_runs_gets. destruct (receiver_dropped s) eqn:Ed.
  - apply ch_runs_ret. done.
  - apply ch_runs_bind. eapply ch_runs_mono; [by apply ch_try_push|].
    intros r w1 s1 (Hok1 & (Bs & Bd & Br & Bw) & -> & H).
    assert (Hroom : has_room s = true) by (unfold has_room; by rewrite Hq). rewrite Hroom in H.
    destruct H as [-> Hc]. apply ch_runs_bind. eapply ch_runs_mono; [by apply ch_recv_wake_one|].
    intros _ w2 s2 (Hok2 & Hf2 & _ & ->). apply ch_runs_ret. simpl. rewrite app_nil_r.
    destruct (ch_framed_contents _ _ Hf2) as [Hc2 _]. destruct Hf2 as (_ & _ & Hs2 & Hd2).
    unfold same_ends. rewrite Br. split_and!; congruence.
Qed.

(** What taking the oldest message does. *)
Definition pop_result (s : t) (r : option A) (w : list Z) (s' : t) : Prop :=
  ok s' /\ same_ends s s' /\ recv_wait s' = recv_wait s /\
  match contents s with
  | v :: l => r = Some v /\ contents s' = l /\
      (WaitQ.unwrapped (send_wait s) -> w = first_waiter (send_wait s))
  | [] => r = None /\ contents s' = [] /\ w = [] /\ send_wait s' = send_wait s
  end.

Lemma ch_try_pop s : ok s -> runs try_pop s (pop_result s).
Proof.
  intros Hok. apply ch_runs_bind. eapply ch_runs_mono; [by apply ch_pop_queue|].
  intros r w1 s1 (Hok1 & (Bs & Bd & Br & Bw) & -> & H). unfold pop_result, same_ends.
  destruct (contents s) as [|v l]; destruct H as [-> Hc].
  - apply ch_runs_ret. split_and!; done.
  - apply ch_runs_bind. eapply ch_runs_mono; [by apply ch_wake_sender|].
    intros _ w2 s2 (Hok2 & Hf2 & Hr2 & Hw). apply ch_runs_ret. simpl. rewrite app_nil_r.
    destruct (ch_framed_contents _ _ Hf2) as [Hc2 _]. destruct Hf2 as (_ & _ & Hs2 & Hd2).
    rewrite Bw in Hw. split_and!; try congruence; exact Hw.
Qed.

Definition recv_result (k : Z) (s : t) (r : Poll (option A)) (w : list Z) (s' : t) : Prop :=
  ok s' /\ same_ends s s' /\
  match contents s with
  | v :: l => r = Ready (Some v) /\ contents s' = l /\
      (WaitQ.unwrapped (send_wait s) -> w = first_waiter (send_wait s))
  | [] => contents s' = [] /\
      if sender_count s =? 0 then r = Ready None else r = Pending /\ registered k (recv_wait s')
  end.

(** Nothing to take, the second time as well. *)
Lemma ch_poll_recv_slow k s : ok s -> contents s = [] -> sender_count s <> 0 ->
  runs (poll_recv_slow k) s (recv_result k s).
Proof.
  intros Hok He Hs. apply ch_runs_bind. eapply ch_runs_mono; [by apply ch_recv_register|].
  intros e w1 s1 (Hok1 & Hf1 & _ & -> & Hreg).
  destruct (ch_framed_contents _ _ Hf1) as [Hc1 _]. destruct Hf1 as (_ & _ & Hs1 & Hd1).
  apply ch_runs_bind. eapply ch_runs_mono; [by apply ch_try_pop|].
  intros r w2 s2 (Hok2 & [Hs2 Hd2] & Hr2 & H). rewrite Hc1, He in H.
  destruct H as (-> & Hc2 & -> & _). apply ch_runs_bind, ch_runs_gets.
  rewrite Hs2, Hs1. apply Z.eqb_neq in Hs. rewrite Hs. apply ch_runs_ret. simpl.
  unfold recv_result, same_ends. rewrite He, Hs, Hr2. split_and!; congruence.
Qed.

Lemma ch_poll_recv k s : ok s -> runs (poll_recv k) s (recv_result k s).
Proof.
  intros Hok. apply ch_runs_bind. eapply ch_runs_mono; [by apply ch_try_pop|].
  intros r w1 s1 (Hok1 & [Hs1 Hd1] & Hr1 & H). unfold recv_result.
  destruct (contents s) as [|v l] eqn:Ec.
  - destruct H as (-> & Hc1 & -> & Hw1). apply ch_runs_bind, ch_runs_gets. rewrite Hs1.
    destruct (sender_count s =? 0) eqn:Es.
    + apply ch_runs_bind. eapply ch_runs_mono; [by apply ch_try_pop|].
      intros r w2 s2 (Hok2 & [Hs2 Hd2] & _ & H). rewrite Hc1 in H. destruct H as (-> & Hc2 & -> & _).
      apply ch_runs_ret. unfold same_ends. split_and!; congruence.
    + bool_prop. eapply ch_runs_mono; [apply (ch_poll_recv_slow k s1 Hok1 Hc1); congruence|].
      intros r w2 s2 (Hok2 & [Hs2 Hd2] & H). rewrite Hc1, Hs1 in H. apply Z.eqb_neq in Es.
      rewrite Es in H. destruct H as (Hc2 & -> & Hreg). unfold same_ends. split_and!; congruence.
  - destruct H as (-> & Hc & Hw). apply ch_runs_ret. rewrite app_nil_r. simpl.
    unfold same_ends. split_and!; congruence || exact Hw.
Qed.

Lemma ch_drop_sender s : ok s -> runs drop_sender s (fun _ w s' => ok s' /\ contents s' = contents s /\
  sender_count s' = wsub 64 (sender_count s) 1 /\
  (sender_count s = 1 -> all_woken (recv_wait s) w)).
Proof.
  intros Hok. unfold drop_sender, runs. cbv zeta.
  set (s1 := mk (queue s) (local s) (wsub 64 (sender_count s) 1) (receiver_dropped s)
               (recv_wait s) (send_wait s) (fresh s)).
  destruct (sender_count s =? 1) eqn:E; bool_prop.
  - destruct (ch_recv_wake_all s1 Hok) as (x & w & s2 & E2 & Hok2 & Hf2 & Hw).
    exists x, w, s2. split; [done|]. destruct (ch_framed_contents _ _ Hf2) as [Hc2 _].
    destruct Hf2 as (_ & _ & Hs2 & _). split_and!; done.
  - exists tt, [], s1. split_and!; done.
Qed.

Lemma ch_drop_receiver s : ok s -> runs drop_receiver s (fun _ w s' => ok s' /\
  contents s' = contents s /\ receiver_dropped s' = true /\ all_woken (send_wait s) w).
Proof.
  intros Hok. unfold drop_receiver.
  set (s1 := mk (queue s) (local s) (sender_count s) true (recv_wait s) (send_wait s) (fresh s)).
  destruct (ch_send_wake_all s1 Hok) as (x & w & s2 & E2 & Hok2 & Hf2 & Hw).
  exists x, w, s2. split; [exact E2|]. destruct (ch_framed_contents _ _ Hf2) as [Hc2 _].
  destruct Hf2 as (_ & _ & _ & Hd2). split_and!; done.
Qed.

(** ** Runs *)

Inductive op := OSend (k : Z) (v : A) | ORecv (k : Z) | OCloneSender | ODropSender | ODropReceiver.

Definition send_op (k : Z) (v : A) : chan (Poll (result unit A)) := fun s =>
  match queue s with
  | Bounded _ => poll_send k v s
  | Unbounded _ => (r ← unbounded_send v; mret (Ready r)) s
  end.

(** The values an operation made the channel accept, and those it took out. *)
Definition step (o : op) : chan (list A * list A) :=
  match o with
  | OSend k v => r ← send_op k v; mret (match r with Ready (Ok _) => [v] | _ => [] end, [])
  | ORecv k => r ← poll_recv k; mret ([], match r with Ready (Some v) => [v] | _ => [] end)
  | OCloneSender => clone_sender;; mret ([], [])
  | ODropSender => drop_sender;; mret ([], [])
  | ODropReceiver => drop_receiver;; mret ([], [])
  end.

Fixpoint run (os : list op) : chan (list A * list A) :=
  match os with
  | [] => mret ([], [])
  | o :: os' =>
      '(a, r) ← step o;
      '(a', r') ← run os';
      mret (a ++ a', r ++ r')
  end.

Lemma ch_send_op k v s : ok s -> runs (send_op k v) s (send_result k v s).
Proof.
  intros Hok. unfold send_op, runs. destruct (queue s) as [q|q] eqn:Eq.
  - by apply ch_poll_send.
  - apply (ch_runs_bind (unbounded_send v) (fun r => mret (Ready r)) s).
    eapply ch_runs_mono; [by apply (ch_unbounded_send v s q)|].
    intros r w s1 (H1 & H2 & H). apply ch_runs_ret. rewrite app_nil_r. split; [done|]. split; [done|].
    assert (Hroom : has_room s = true) by (unfold has_room; by rewrite Eq). rewrite Hroom.
    destruct (receiver_dropped s); destruct H as [-> H]; [done|]. destruct H. auto.
Qed.

(** Nothing is lost, duplicated or reordered by one operation. *)
Lemma ch_step o s : ok s ->
  runs (step o) s (fun ar _ s' => ok s' /\ contents s ++ fst ar = snd ar ++ contents s').
Proof.
  intros Hok. destruct o as [k v|k| | |]; apply ch_runs_bind.
  - eapply ch_runs_mono; [by apply ch_send_op|]. intros r w s1 (H1 & _ & H). apply ch_runs_ret.
    split; [done|]. simpl. destruct (receiver_dropped s); [|destruct (has_room s)].
    + destruct H as [-> ->]. apply app_nil_r.
    + by destruct H as (-> & -> & _).
    + destruct H as (-> & -> & _). apply app_nil_r.
  - eapply ch_runs_mono; [by apply ch_poll_recv|]. intros r w s1 (H1 & _ & H). apply ch_runs_ret.
    split; [done|]. simpl. rewrite app_nil_r. destruct (contents s) as [|v l].
    + destruct H as [-> H]. destruct (sender_count s =? 0); [by subst r|by destruct H as [-> _]].
    + by destruct H as (-> & -> & _).
  - unfold clone_sender. exists tt, []. eexists. split; [done|]. apply ch_runs_ret.
    split; [done|]. simpl. apply app_nil_r.
  - eapply ch_runs_mono; [by apply ch_drop_sender|]. intros r w s1 (H1 & H2 & _). apply ch_runs_ret.
    split; [done|]. simpl. rewrite H2. apply app_nil_r.
  - eapply ch_runs_mono; [by apply ch_drop_receiver|]. intros r w s1 (H1 & H2 & _). apply ch_runs_ret.
    split; [done|]. simpl. rewrite H2. apply app_nil_r.
Qed.

Lemma ch_run os : forall s, ok s ->
  runs (run os) s (fun ar _ s' => ok s' /\ contents s ++ fst ar = snd ar ++ contents s').
Proof.
  induction os as [|o os IH]; intros s Hok.
  - apply ch_runs_ret. simpl. by rewrite app_nil_r.
  - apply ch_runs_bind. eapply ch_runs_mono; [by apply ch_step|]. intros [a r] w s1 [H1 H2].
    apply ch_runs_bind. eapply ch_runs_mono; [by apply IH|]. intros [a' r'] w' s2 [H3 H4].
    apply ch_runs_ret. simpl in *. split; [done|]. by rewrite app_assoc, H2, <- app_assoc, H4, app_assoc.
Qed.

Lemma ch_channel_ok cap : Vyukov.good_cap cap -> ok (channel cap) /\ contents (channel cap) = [].
Proof.
  intros Hc. unfold ok, channel, contents. simpl. pose proof Hc as [Hc' _].
  rewrite Z.max_l by lia. destruct (Mpmc.mp_new_ok (A := A) cap Hc) as [H1 H2].
  split; [|done]. split; [done|]. split; apply WaitQ.wq_new_good.
Qed.

Lemma ch_unbounded_ok : ok unbounded_channel /\ contents unbounded_channel = [].
Proof. split; [|done]. split; [done|]. split; apply WaitQ.wq_new_good. Qed.
End mpsc.
Arguments t : clear implicits.
End Mpsc.


