(* ===== verification/Broadcast.v ===== *)
(** * Broadcast

    The broadcast channel of src/dtact-util/src/sync/broadcast.rs, one call at a
    time: the ring of sequence-numbered slots, sends, the receiver's
    classification of the slot it looks at, and closing.  The overlap of a send with the clone of
    the value it overwrites is not modelled. *)

From S2P Require Import Prelude Ring Fifo WaitQueue.

Module Bcast.
Section broadcast.
Context {A : Type}.

Record Slot := mkSlot { seq : Z; value : option A }.

Definition blank : Slot := mkSlot U64_MAX None.

(** [strong]: the handles that share the channel, senders and receivers. *)
Record t := mk {
  slots : gmap Z Slot;
  capacity : Z;
  next_seq : Z;
  sender_count : Z;
  strong : Z;
  wait : WaitQ.t;
  fresh : Z
}.

Inductive RecvError := Lagged (skipped : Z) | Closed.

(** A receiver is the sequence number it expects. *)
Definition channel (cap : Z) : t * Z :=
  (mk ∅ (Z.max cap 1) 0 1 2 WaitQ.new 0, 0).

Definition slot_at (s : t) (n : Z) : Slot := rd blank (slots s) (n `mod` capacity s).

Definition receiver_count (s : t) : Z := sat_sub (strong s) (sender_count s).

(** The three stores to the slot of sequence number [n]. *)
Definition store (n : Z) (v : A) (s : t) : gmap Z Slot :=
  let i := n `mod` capacity s in
  let m1 := wr (slots s) i (mkSlot (U64_MAX - 1) (value (slot_at s n))) in
  let m2 := wr m1 i (mkSlot (U64_MAX - 1) (Some v)) in
  wr m2 i (mkSlot n (Some v)).

(** The outcome, the tasks woken, the state. *)
Definition send (v : A) (s : t) : outcome (result unit A * (list Z * t)) :=
  if receiver_count s =? 0 then Done (Err v, ([], s))
  else
    let s1 := mk (store (next_seq s) v s) (capacity s) (wadd 64 (next_seq s) 1)
                 (sender_count s) (strong s) (wait s) (fresh s) in
    if WaitQ.has_waiters (wait s1) then
      '(w, q) ← WaitQ.wake_all (wait s1);
      Done (Ok tt, (w, mk (slots s1) (capacity s1) (next_seq s1) (sender_count s1) (strong s1) q (fresh s1)))
    else Done (Ok tt, ([], s1)).

(** [try_recv_one]: the result and the receiver's next position.  [again] is the
    sequence number seen after the value was cloned. *)
Definition try_recv_one (s : t) (again : Z) (n : Z) : option (result A RecvError) * Z :=
  let slot := slot_at s n in
  if (seq slot =? U64_MAX) || (seq slot =? U64_MAX - 1) then (None, n)
  else
    match Z.compare n (seq slot) with
    | Eq =>
        match value slot with
        | Some v => if again =? seq slot then (Some (Ok v), n + 1) else (Some (Err (Lagged 1)), n)
        | None => (None, n)
        end
    | Lt => (Some (Err (Lagged (seq slot - n))), seq slot)
    | Gt => (None, n)
    end.

(** With nothing sent in between. *)
Definition try_recv (s : t) (n : Z) : option (result A RecvError) * Z :=
  try_recv_one s (seq (slot_at s n)) n.

Definition is_closed (s : t) : bool := sender_count s =? 0.

Definition poll_recv (k : Z) (s : t) (n : Z) :
    outcome (Poll (result A RecvError) * Z * t) :=
  match try_recv s n with
  | (Some r, n') => Done (Ready r, n', s)
  | (None, n1) =>
      if is_closed s then
        match try_recv s n1 with
        | (Some r, n') => Done (Ready r, n', s)
        | (None, n') => Done (Ready (Err Closed), n', s)
        end
      else
        '(e, q) ← WaitQ.register (fresh s) k (wait s);
        let s1 := mk (slots s) (capacity s) (next_seq s) (sender_count s) (strong s) q (fresh s + 1) in
        match try_recv s1 n1 with
        | (Some r, n') => Done (Ready r, n', mk (slots s1) (capacity s1) (next_seq s1) (sender_count s1)
                             (strong s1) (WaitQ.cancel e (wait s1)) (fresh s1))
        | (None, n2) =>
            if is_closed s1 then
              match try_recv s1 n2 with
              | (Some r, n') => Done (Ready r, n', s1)
              | (None, n') => Done (Ready (Err Closed), n', s1)
              end
            else Done (Pending, n2, s1)
        end
  end.

Definition clone_sender (s : t) : t :=
  mk (slots s) (capacity s) (next_seq s) (wadd 64 (sender_count s) 1) (strong s + 1) (wait s) (fresh s).
Definition clone_receiver (s : t) : t :=
  mk (slots s) (capacity s) (next_seq s) (sender_count s) (strong s + 1) (wait s) (fresh s).
Definition drop_receiver (s : t) : t :=
  mk (slots s) (capacity s) (next_seq s) (sender_count s) (strong s - 1) (wait s) (fresh s).

(** The count goes down and the waiters are woken before the handle itself goes. *)
Definition drop_sender (s : t) : outcome (list Z * t) :=
  let s1 := mk (slots s) (capacity s) (next_seq s) (wsub 64 (sender_count s) 1) (strong s - 1)
               (wait s) (fresh s) in
  if sender_count s =? 1 then
    '(w, q) ← WaitQ.wake_all (wait s1);
    Done (w, mk (slots s1) (capacity s1) (next_seq s1) (sender_count s1) (strong s1) q (fresh s1))
  else Done ([], s1).

(** ** The log *)

(** The last sequence number below [T] in the slot of [n]. *)
Definition last_in_slot (cap T n : Z) : Z := T - 1 - (T - 1 - n) `mod` cap.

(** The slots hold the last messages of the log [vs]. *)
Definition holds (s : t) (vs : list A) : Prop :=
  let T := Z.of_nat (length vs) in
  1 <= capacity s /\ next_seq s = T /\ T < 2 ^ 64 - 2 /\
  forall n, 0 <= n ->
    slot_at s n = if 0 <=? last_in_slot (capacity s) T n
                  then mkSlot (last_in_slot (capacity s) T n)
                         (vs !! Z.to_nat (last_in_slot (capacity s) T n))
                  else blank.

Definition ok (s : t) (vs : list A) : Prop := holds s vs /\ WaitQ.good (fresh s) (wait s).

Lemma bc_last_bounds cap T n : 1 <= cap ->
  T - cap <= last_in_slot cap T n <= T - 1 /\
  (last_in_slot cap T n) `mod` cap = n `mod` cap.
Proof.
  intros Hc. unfold last_in_slot. pose proof (Z.mod_pos_bound (T - 1 - n) cap). split; [lia|].
  rewrite Zminus_mod_idemp_r. replace (T - 1 - (T - 1 - n)) with n by lia. done.
Qed.

(** The last sequence number in a slot is the one in reach of the end. *)
Lemma bc_last_unique cap T n m : 1 <= cap -> T - cap <= m <= T - 1 -> m `mod` cap = n `mod` cap ->
  last_in_slot cap T n = m.
Proof.
  intros Hc Hm E. destruct (bc_last_bounds cap T n Hc) as [H1 H2]. rewrite <- E in H2.
  set (x := last_in_slot cap T n) in *. pose proof (Z.div_mod x cap ltac:(lia)) as D1.
  pose proof (Z.div_mod m cap ltac:(lia)) as D2.
  assert (Hd : x - m = cap * (x / cap - m / cap)) by lia.
  assert (x / cap - m / cap = 0) by nia. lia.
Qed.

Lemma bc_last_succ cap T n : 1 <= cap ->
  last_in_slot cap (T + 1) n = if decide (n `mod` cap = T `mod` cap) then T else last_in_slot cap T n.
Proof.
  intros Hc. case_decide as E.
  - apply bc_last_unique; [done|lia|done].
  - destruct (bc_last_bounds cap T n Hc) as [H1 H2]. apply bc_last_unique; [done| |done].
    assert (last_in_slot cap T n <> T - cap); [|lia].
    intros H. apply E. rewrite <- H2, H. rewrite Zminus_mod, Z_mod_same_full, Z.sub_0_r.
    apply Zmod_mod.
Qed.

Lemma bc_slot_store s n v m : 1 <= capacity s ->
  rd blank (store n v s) (m `mod` capacity s) =
  if decide (m `mod` capacity s = n `mod` capacity s) then mkSlot n (Some v) else slot_at s m.
Proof.
  intros Hc. unfold store, slot_at. case_decide as E.
  - rewrite E. apply rd_wr_eq.
  - by rewrite !rd_wr_ne by congruence.
Qed.

(** A send appends to the log. *)
Lemma bc_send s vs v : ok s vs -> receiver_count s <> 0 ->
  Z.of_nat (length vs) + 1 < 2 ^ 64 - 2 ->
  exists w s', send v s = Done (Ok tt, (w, s')) /\ ok s' (vs ++ [v]) /\ capacity s' = capacity s /\
    sender_count s' = sender_count s /\
    (WaitQ.unwrapped (wait s) -> forall e, e ∈ WaitQ.order (wait s) ->
       WaitQ.is_valid (wait s) e = true -> WaitQ.waker_of (wait s) e ∈ w).
Proof.
  intros [(Hc & Hn & HT & Hslots) Hq] Hr HT'. unfold send. apply Z.eqb_neq in Hr. rewrite Hr.
  set (T := Z.of_nat (length vs)) in *.
  set (s1 := mk (store (next_seq s) v s) (capacity s) (wadd 64 (next_seq s) 1) (sender_count s)
               (strong s) (wait s) (fresh s)).
  assert (Hholds : forall q, holds (mk (slots s1) (capacity s1) (next_seq s1) (sender_count s1)
                                      (strong s1) q (fresh s1)) (vs ++ [v])).
  { intros q. unfold holds. rewrite length_app, Nat2Z.inj_add. fold T. simpl.
    change (Z.of_nat 1) with 1. split; [done|]. split; [rewrite Hn; apply wadd_small; lia|].
    split; [lia|]. intros n Hn0. unfold slot_at at 1. simpl.
    rewrite bc_slot_store, bc_last_succ, Hn by done.
    destruct (decide (n `mod` capacity s = T `mod` capacity s)) as [E|E].
    - rewrite (proj2 (Z.leb_le 0 T)) by lia.
      unfold T. rewrite Nat2Z.id, lookup_app_r, Nat.sub_diag by lia. done.
    - rewrite Hslots by done. fold T.
      destruct (bc_last_bounds (capacity s) T n Hc) as [Hb _].
      destruct (0 <=? last_in_slot (capacity s) T n) eqn:El; [|done]. bool_prop.
      rewrite lookup_app_l by lia. done. }
  simpl. destruct (WaitQ.has_waiters (wait s)) eqn:Ew.
  - destruct (WaitQ.wq_wake_all_good _ _ Hq) as (w & q & E & Hq' & Hw). rewrite E. simpl.
    do 2 eexists. split; [done|]. split; [split; [apply Hholds|done]|]. auto.
  - do 2 eexists. split; [done|]. split; [split; [apply (Hholds (wait s))|done]|].
    split; [done|]. split; [done|]. intros Hu e He.
    apply WaitQ.wq_has_waiters in Ew; [|apply Hq|done]. rewrite Ew in He. set_solver.
Qed.

(** What a receiver that expects [n] finds. *)
Lemma bc_try_recv s vs n : holds s vs -> 0 <= n <= Z.of_nat (length vs) ->
  let T := Z.of_nat (length vs) in
  try_recv s n =
    if n =? T then (None, n)
    else if T - capacity s <=? n then (Ok <$> vs !! Z.to_nat n, n + 1)
    else let m := last_in_slot (capacity s) T n in (Some (Err (Lagged (m - n))), m).
Proof.
  intros (Hc & Hn & HT & Hslots) Hb T. unfold try_recv, try_recv_one. rewrite Hslots by lia. fold T.
  destruct (bc_last_bounds (capacity s) T n Hc) as [Hl1 Hl2].
  set (m := last_in_slot (capacity s) T n) in *.
  assert (Hm : T - capacity s <= n -> n < T -> m = n) by (intros; apply bc_last_unique; [done|lia|done]).
  destruct (0 <=? m) eqn:E0; simpl; bool_prop.
  - assert (m =? U64_MAX = false) as -> by (apply Z.eqb_neq; unfold U64_MAX; lia).
    assert (m =? U64_MAX - 1 = false) as -> by (apply Z.eqb_neq; unfold U64_MAX; lia). simpl.
    destruct (n =? T) eqn:E1; bool_prop.
    + assert (n ?= m = Gt) as -> by (apply Z.compare_gt_iff; lia). done.
    + destruct (T - capacity s <=? n) eqn:E2; bool_prop.
      * rewrite Hm, Z.compare_refl by lia.
        destruct (vs !! Z.to_nat n) as [v|] eqn:Ev; [by rewrite Z.eqb_refl|].
        apply lookup_ge_None in Ev. lia.
      * assert (n ?= m = Lt) as -> by (apply Z.compare_lt_iff; lia). done.
  - destruct (n =? T) eqn:E1; bool_prop; [done|]. exfalso.
    destruct (decide (T - capacity s <= n)) as [H|H]; [rewrite Hm in E0; lia|lia].
Qed.
End broadcast.
Arguments t : clear implicits.
End Bcast.

(** A broadcast receiver and its position.  Sends append to the log of
    messages, and wake every registered receiver.  A receiver that expects message
    [n] of a log of [T] waits if [n = T]; it gets message [n], and expects the
    next, if that is among the last [capacity]; otherwise it has lagged, and
    is moved, not to the oldest message still buffered, [T - capacity], but to
    the newest message of its own slot: [(n - T) mod capacity] messages that are
    still buffered are skipped along with those overwritten. *)
Theorem broadcast_position (A : Type) (s : Bcast.t A) (vs : list A) (n : Z) :
  Bcast.ok s vs -> 0 <= n <= Z.of_nat (length vs) ->
  let T := Z.of_nat (length vs) in
  let cap := Bcast.capacity s in
  (n = T -> Bcast.try_recv s n = (None, n)) /\
  (T - cap <= n < T -> exists v, vs !! Z.to_nat n = Some v /\
     Bcast.try_recv s n = (Some (Ok v), n + 1)) /\
  (n < T - cap -> exists m, Bcast.try_recv s n = (Some (Err (Bcast.Lagged (m - n))), m) /\
     n < m < T /\ m - (T - cap) = (n - T) `mod` cap /\
     exists v, vs !! Z.to_nat m = Some v /\ Bcast.try_recv s m = (Some (Ok v), m + 1)) /\
  (forall v, Bcast.receiver_count s <> 0 -> T + 1 < 2 ^ 64 - 2 ->
     exists w s', Bcast.send v s = Done (Ok tt, (w, s')) /\ Bcast.ok s' (vs ++ [v])) /\
  (forall k, exists n' s', Bcast.poll_recv k s n =
     Done (match Bcast.try_recv s n with
           | (Some r, _) => Ready r
           | (None, _) => if Bcast.is_closed s then Ready (Err Bcast.Closed) else Pending
           end, n', s') /\ n' = snd (Bcast.try_recv s n)).
Proof.
  intros [Hh Hq] Hn T cap. pose proof Hh as (Hc & _). fold cap in Hc.
  assert (Hin : forall m, T - cap <= m < T -> 0 <= m -> exists v, vs !! Z.to_nat m = Some v /\
     Bcast.try_recv s m = (Some (Ok v), m + 1)).
  { intros m Hm H0. destruct (lookup_lt_is_Some_2 vs (Z.to_nat m)) as [v Hv]; [lia|].
    exists v. split; [done|]. rewrite (Bcast.bc_try_recv s vs m Hh) by lia. fold T cap.
    rewrite (proj2 (Z.eqb_neq m T)), (proj2 (Z.leb_le (T - cap) m)), Hv by lia. done. }
  split; [|split; [|split; [|split]]].
  - intros ->. rewrite (Bcast.bc_try_recv s vs T Hh) by lia. fold T. by rewrite Z.eqb_refl.
  - intros Hm. apply Hin; lia.
  - intros Hm. exists (Bcast.last_in_slot cap T n).
    destruct (Bcast.bc_last_bounds cap T n Hc) as [H1 H2]. split_and!.
    + rewrite (Bcast.bc_try_recv s vs n Hh) by lia. fold T cap.
      rewrite (proj2 (Z.eqb_neq n T)), (proj2 (Z.leb_gt (T - cap) n)) by lia. done.
    + lia.
    + lia.
    + set (m := Bcast.last_in_slot cap T n) in *.
      rewrite Zminus_mod, <- H2, <- Zminus_mod. apply (Z.mod_unique_pos _ _ (-1)); lia.
    + apply Hin; lia.
  - intros v Hr HT. destruct (Bcast.bc_send s vs v (conj Hh Hq) Hr HT) as (w & s' & E & Hok & _).
    by exists w, s'.
  - intros k. unfold Bcast.poll_recv.
    assert (Hstay : forall n1, Bcast.try_recv s n = (None, n1) -> n1 = n).
    { intros n1. rewrite (Bcast.bc_try_recv s vs n Hh Hn). fold T cap.
      destruct (n =? T) eqn:E1; bool_prop; [by intros [=]|].
      destruct (T - cap <=? n) eqn:E2; bool_prop; [|done].
      destruct (lookup_lt_is_Some_2 vs (Z.to_nat n)) as [v ->]; [lia|done]. }
    destruct (Bcast.try_recv s n) as [[r|] n1] eqn:E; [by eexists _, _|].
    rewrite (Hstay n1 eq_refl) in *. rewrite E.
    destruct (Bcast.is_closed s) eqn:Ec; [by eexists _, _|].
    destruct (WaitQ.wq_register_good _ k _ Hq) as (q & Er & _). rewrite Er. simpl.
    set (s1 := Bcast.mk _ _ _ _ _ _ _).
    change (Bcast.try_recv s1 n) with (Bcast.try_recv s n). rewrite E.
    change (Bcast.is_closed s1) with (Bcast.is_closed s). rewrite Ec. by eexists _, _.
Qed.

(** Capacity two, five messages, a receiver at the start: messages 0 to 3 are skipped, although
    3 is still buffered. *)
Definition five_sent : Bcast.t Z :=
  Bcast.mk {[ 0 := Bcast.mkSlot 4 (Some 50); 1 := Bcast.mkSlot 3 (Some 40) ]} 2 5 1 2 WaitQ.new 0.

Lemma broadcast_position_witness :
  exists m, Bcast.try_recv five_sent 0 = (Some (Err (Bcast.Lagged (m - 0))), m) /\ m - 3 = 1.
Proof.
  assert (Hok : Bcast.ok five_sent [10; 20; 30; 40; 50]).
  { split; [|apply WaitQ.wq_new_good]. split; [vm_compute; discriminate|]. split; [reflexivity|].
    split; [reflexivity|]. intros n Hn. unfold Bcast.slot_at, Bcast.last_in_slot.
    cbn [Bcast.capacity five_sent length Z.of_nat]. change (Z.of_nat 5) with 5.
    assert (H : n `mod` 2 = 0 \/ n `mod` 2 = 1) by (pose proof (Z.mod_pos_bound n 2); lia).
    assert (E : (5 - 1 - n) `mod` 2 = n `mod` 2).
    { rewrite Zminus_mod. destruct H as [-> | ->]; reflexivity. }
    rewrite E. destruct H as [-> | ->]; reflexivity. }
  destruct (broadcast_position Z five_sent [10; 20; 30; 40; 50] 0 Hok) as (_ & _ & H & _);
    [simpl; lia|].
  destruct H as (m & H1 & _ & H2 & _); [vm_compute; reflexivity|].
  exists m. split; [exact H1|]. change (Z.of_nat (length [10; 20; 30; 40; 50]) - Bcast.capacity five_sent) with 3 in H2.
  rewrite H2. reflexivity.
Defined.
