(* ===== verification/WaitList.v ===== *)
(** * WaitList

    The wait queue of src/dtact-util/src/sync/wait_queue.rs as the interleaved models of the oneshot and watch
    channels use it: the list of its registrations, in order, of which [wake_all] pops one per
    step.  That the ring and the overflow stack behave like such a list is the subject of
    WaitQueue.v.  A registration is a number; [woken] collects those whose wakers have been called. *)

From stdpp Require Import sorting.
From S2P Require Import Prelude.

Module WaitList.

Record entry := mkEntry { e_id : nat; e_valid : bool }.

Record t := mk { queue : list entry; next : nat; woken : list nat }.

Definition new : t := mk [] 0 [].

(** The token returned is [next]. *)
Definition register (q : t) : t := mk (queue q ++ [mkEntry (next q) true]) (S (next q)) (woken q).

Definition invalidate (e : nat) (x : entry) : entry :=
  if (e_id x =? e)%nat then mkEntry (e_id x) false else x.
Definition cancel (e : nat) (q : t) : t := mk (invalidate e <$> queue q) (next q) (woken q).

(** A call of [wake_all]: before and after it has read the enqueue position. *)
Inductive waking := Snapshot | Draining (target : nat).

(** One step of it, or [None] at its end. *)
Definition wake_step (w : waking) (q : t) : option (waking * t) :=
  match w with
  | Snapshot => Some (Draining (next q), q)
  | Draining target =>
      match queue q with
      | x :: l => if (e_id x <? target)%nat
                  then Some (Draining target,
                             mk l (next q) (if e_valid x then e_id x :: woken q else woken q))
                  else None
      | [] => None
      end
  end.

(** ** Laws *)

(** Registration [e] is queued, or its waker has been called. *)
Definition known (q : t) (e : nat) : Prop := mkEntry e true ∈ queue q \/ e ∈ woken q.

(** A [wake_all] that has come this far will wake [e]. *)
Definition covers (w : waking) (e : nat) : Prop :=
  match w with Snapshot => True | Draining target => (e < target)%nat end.

(** It does not look beyond what has been registered. *)
Definition in_range (w : waking) (q : t) : Prop := forall n, w = Draining n -> (n <= next q)%nat.

Record ok (q : t) : Prop := {
  ok_sorted : StronglySorted lt (e_id <$> queue q);
  ok_below : forall x, x ∈ queue q -> (e_id x < next q)%nat
}.

Lemma wl_snapshot_in_range q : in_range Snapshot q.
Proof. done. Qed.

Lemma wl_new_ok : ok new.
Proof. split; [constructor|by intros x ?%elem_of_nil]. Qed.

Lemma wl_register_ok q : ok q -> ok (register q).
Proof.
  intros [Hs Hb]. split; simpl.
  - rewrite fmap_app. simpl. apply StronglySorted_app_2; [|done|by repeat constructor].
    intros x y (z & -> & Hz)%list_elem_of_fmap ->%list_elem_of_singleton. by apply Hb.
  - intros x [Hx| ->%list_elem_of_singleton]%elem_of_app; [specialize (Hb x Hx); lia|simpl; lia].
Qed.

Lemma wl_register_new q : known (register q) (next q).
Proof. left. apply elem_of_app. right. by apply list_elem_of_singleton. Qed.

Lemma wl_register_known q e : known q e -> known (register q) e.
Proof. intros [?|?]; [left|by right]. apply elem_of_app. by left. Qed.

Lemma wl_cancel_ids e q : (e_id <$> queue (cancel e q)) = e_id <$> queue q.
Proof.
  unfold cancel. simpl. rewrite <- list_fmap_compose. apply list_fmap_ext. intros _ x _.
  simpl. unfold invalidate. by case_match.
Qed.

Lemma wl_cancel_ok e q : ok q -> ok (cancel e q).
Proof.
  intros [Hs Hb]. split; [by rewrite wl_cancel_ids|]. intros x (y & -> & Hy)%list_elem_of_fmap.
  specialize (Hb y Hy). unfold invalidate. by case_match.
Qed.

Lemma wl_cancel_known e e' q : e <> e' -> known q e' -> known (cancel e q) e'.
Proof.
  intros Hne [Hin|Hw]; [left|by right]. apply list_elem_of_fmap. exists (mkEntry e' true).
  split; [|done]. unfold invalidate. simpl. by destruct (Nat.eqb_spec e' e).
Qed.

(** One step of [wake_all]: nothing is lost, and what it covered it covers still. *)
Lemma wl_wake_step w q w' q' : wake_step w q = Some (w', q') -> ok q -> in_range w q ->
  ok q' /\ in_range w' q' /\ next q' = next q /\ (forall e, e ∈ woken q -> e ∈ woken q') /\
  (forall e, known q e -> known q' e) /\
  (forall e, known q e -> covers w e -> covers w' e \/ e ∈ woken q').
Proof.
  unfold wake_step, known, in_range. intros E [Hs Hb] Ht. destruct w as [|n].
  { injection E as <- <-. split_and!; try done; [by intros ? [= <-]|]. intros e [Hin|?] _; [left|by right].
    apply (Hb _ Hin). }
  destruct (queue q) as [|x l] eqn:Eq; [done|]. destruct (e_id x <? n)%nat eqn:Ex; [|done].
  injection E as <- <-. simpl in *. apply StronglySorted_inv in Hs as [Hs _]. split_and!; auto.
  - split; [done|]. simpl. intros y Hy. apply Hb. by right.
  - intros e He. destruct (e_valid x); [by right|done].
  - intros e [[<- | He]%elem_of_cons | He]; [right; by left|by left|right]. destruct (e_valid x); [by right|done].
Qed.

(** At its end, the registrations it covered have been woken. *)
Lemma wl_wake_end w q e : wake_step w q = None -> ok q -> known q e -> covers w e -> e ∈ woken q.
Proof.
  unfold wake_step. destruct w as [|n]; [done|]. intros E [Hs _] [Hin|]; [|done]. simpl. intros Hlt.
  destruct (queue q) as [|x l]; [by apply elem_of_nil in Hin|]. destruct (Nat.ltb_spec (e_id x) n); [done|].
  apply StronglySorted_inv in Hs as [_ Hf]. apply elem_of_cons in Hin as [<- | Hy]; [simpl in *; lia|].
  rewrite Forall_forall in Hf. specialize (Hf e ltac:(by apply (list_elem_of_fmap_2 e_id _ _ Hy))). lia.
Qed.

(** It comes to its end. *)
Lemma wl_wake_ends q n : exists k q', (k <= length (queue q))%nat /\
  Nat.iter k (fun o => '(w, q) ← o; wake_step w q) (Some (Draining n, q)) = Some (Draining n, q') /\
  wake_step (Draining n) q' = None.
Proof.
  destruct q as [l nx wk]. revert wk; induction l as [|x l IH]; intros wk.
  { by exists 0%nat, (mk [] nx wk). }
  destruct (e_id x <? n)%nat eqn:E.
  - destruct (IH (if e_valid x then e_id x :: wk else wk)) as (k & q' & Hk & Hi & He). simpl in *.
    exists (S k), q'. split; [lia|]. split; [|done]. rewrite Nat.iter_succ_r. simpl. by rewrite E.
  - exists 0%nat, (mk (x :: l) nx wk). split; [simpl; lia|]. split; [done|]. simpl. by rewrite E.
Qed.

End WaitList.
