(* ===== verification/Oneshot.v ===== *)
(** * Oneshot

    The oneshot channel of src/dtact-util/src/sync/oneshot.rs: the sender's
    [send] and [drop], the receiver's [poll] and [drop], and the handful of
    flags they share, access by access, for a value of any type.

    The wait queue is that of WaitList.v.  The receiver may be polled at any time, notified or not, and polled again after it has completed. *)

From S2P Require Import Prelude WaitList.
Import WaitList (waking, Snapshot, Draining, covers, known).

Module Oneshot.
Section oneshot.
Context {A : Type}.

(** Program points of the sender; [r] is what [send] is going to return, if it was called. *)
Inductive sender_pc :=
| SHeld                                           (* the program has it *)
| SCheck (v : A)                                  (* load receiver_dropped *)
| SWrite (v : A)                                  (* *value.get() = Some(v) *)
| SPublish                                        (* store sent *)
| SWake (w : waking)                              (* wake_all of send *)
| SDrop (r : option (result unit A))              (* store sender_dropped *)
| SDropWake (w : waking) (r : option (result unit A))
| SGone (r : option (result unit A)).

(** Program points of the receiver; [reg] is the registration of this poll, if it has made it. *)
Inductive receiver_pc :=
| RHeld
| RSent (reg : option nat)                        (* try_take: load sent *)
| RTake (reg : option nat)                        (* value.take() *)
| RDropped (reg : option nat)                     (* load sender_dropped *)
| RSentAgain (reg : option nat)                   (* load sent once more *)
| RRegister
| RCancel (e : nat) (r : result A unit)
| RParked (e : nat)                               (* the poll returned [Pending] *)
| RGone.

(** [arg] is the value that [send] was called with, [got] what the polls returned. *)
Record conf := Conf {
  value : option A;
  sent : bool;
  sender_dropped : bool;
  receiver_dropped : bool;
  wait : WaitList.t;
  spc : sender_pc;
  rpc : receiver_pc;
  arg : option A;
  got : list (result A unit)
}.

Definition channel : conf := Conf None false false false WaitList.new SHeld RHeld None [].

Definition with_spc (p : sender_pc) (c : conf) : conf :=
  Conf (value c) (sent c) (sender_dropped c) (receiver_dropped c) (wait c) p (rpc c)
    (arg c) (got c).
Definition with_rpc (p : receiver_pc) (c : conf) : conf :=
  Conf (value c) (sent c) (sender_dropped c) (receiver_dropped c) (wait c) (spc c) p
    (arg c) (got c).
Definition with_value (v : option A) (c : conf) : conf :=
  Conf v (sent c) (sender_dropped c) (receiver_dropped c) (wait c) (spc c) (rpc c)
    (arg c) (got c).
Definition with_flags (s sd rd : bool) (c : conf) : conf :=
  Conf (value c) s sd rd (wait c) (spc c) (rpc c) (arg c) (got c).
Definition with_wait (q : WaitList.t) (c : conf) : conf :=
  Conf (value c) (sent c) (sender_dropped c) (receiver_dropped c) q (spc c) (rpc c) (arg c) (got c).

(** A poll returns [Ready r]. *)
Definition ready (r : result A unit) (c : conf) : conf :=
  Conf (value c) (sent c) (sender_dropped c) (receiver_dropped c) (wait c) (spc c) RHeld
    (arg c) (got c ++ [r]).

(** One step of [wake_all]: the next program point and the state, or [None] at its end. *)
Definition wake_step (w : waking) (c : conf) : option (waking * conf) :=
  '(w', q) ← WaitList.wake_step w (wait c); Some (w', with_wait q c).

(** [value.take().ok_or(RecvError)]. *)
Definition ok_or (v : option A) : result A unit := match v with Some v => Ok v | None => Err tt end.

(** [try_take] found a result: return it, or retract the registration first. *)
Definition finish (reg : option nat) (r : result A unit) (c : conf) : conf :=
  match reg with Some e => with_rpc (RCancel e r) c | None => ready r c end.

(** The sender's next access. *)
Definition sender_step (c : conf) : option conf :=
  match spc c with
  | SHeld | SGone _ => None
  | SCheck v => Some (with_spc (if receiver_dropped c then SDrop (Some (Err v)) else SWrite v) c)
  | SWrite v => Some (with_spc SPublish (with_value (Some v) c))
  | SPublish => Some (with_spc (SWake Snapshot) (with_flags true (sender_dropped c) (receiver_dropped c) c))
  | SWake w =>
      Some (match wake_step w c with
            | Some (w', c') => with_spc (SWake w') c'
            | None => with_spc (SDrop (Some (Ok tt))) c
            end)
  | SDrop r => Some (with_spc (SDropWake Snapshot r) (with_flags (sent c) true (receiver_dropped c) c))
  | SDropWake w r =>
      Some (match wake_step w c with
            | Some (w', c') => with_spc (SDropWake w' r) c'
            | None => with_spc (SGone r) c
            end)
  end.

(** The receiver's next access. *)
Definition receiver_step (c : conf) : option conf :=
  match rpc c with
  | RHeld | RParked _ | RGone => None
  | RSent reg => Some (with_rpc (if sent c then RTake reg else RDropped reg) c)
  | RTake reg => Some (finish reg (ok_or (value c)) (with_value None c))
  | RDropped reg =>
      Some (with_rpc (if sender_dropped c then RSentAgain reg
                      else match reg with Some e => RParked e | None => RRegister end) c)
  | RSentAgain reg => Some (if sent c then with_rpc (RTake reg) c else finish reg (Err tt) c)
  | RRegister => Some (with_rpc (RSent (Some (WaitList.next (wait c)))) (with_wait (WaitList.register (wait c)) c))
  | RCancel e r => Some (ready r (with_wait (WaitList.cancel e (wait c)) c))
  end.

Inductive label :=
| LSend (v : A)            (* the program calls [send] *)
| LDropSender
| LSender
| LPoll
| LDropReceiver
| LReceiver.

(** Whether the program has the receiver: no poll of it is running. *)
Definition resting (p : receiver_pc) : bool := match p with RHeld | RParked _ => true | _ => false end.

Definition exec (l : label) (c : conf) : option conf :=
  match l with
  | LSend v =>
      match spc c with
      | SHeld => Some (Conf (value c) (sent c) (sender_dropped c) (receiver_dropped c) (wait c)
                         (SCheck v) (rpc c) (Some v) (got c))
      | _ => None
      end
  | LDropSender => match spc c with SHeld => Some (with_spc (SDrop None) c) | _ => None end
  | LSender => sender_step c
  | LPoll => if resting (rpc c) then Some (with_rpc (RSent None) c) else None
  | LDropReceiver =>
      if resting (rpc c) then Some (with_rpc RGone (with_flags (sent c) (sender_dropped c) true c)) else None
  | LReceiver => receiver_step c
  end.

Definition step (c c' : conf) : Prop := exists l, exec l c = Some c'.

Definition is_closed (c : conf) : bool := receiver_dropped c.

(** ** Invariant *)

(** What the polls returned, the one about to return included. *)
Definition results (c : conf) : list (result A unit) :=
  got c ++ match rpc c with RCancel _ r => [r] | _ => [] end.

(** The state of the channel once [send] has returned [r], or was never called. *)
Definition outcome_is (r : option (result unit A)) (c : conf) : Prop :=
  match r with
  | None => arg c = None /\ sent c = false /\ value c = None
  | Some (Ok _) => is_Some (arg c) /\ sent c = true
  | Some (Err v) => arg c = Some v /\ sent c = false /\ value c = None /\ rpc c = RGone
  end.

Definition sender_inv (c : conf) : Prop :=
  match spc c with
  | SHeld => arg c = None /\ sent c = false /\ value c = None /\ sender_dropped c = false
  | SCheck v | SWrite v => arg c = Some v /\ sent c = false /\ value c = None /\ sender_dropped c = false
  | SPublish => is_Some (arg c) /\ sent c = false /\ value c = arg c /\ sender_dropped c = false
  | SWake _ => is_Some (arg c) /\ sent c = true /\ sender_dropped c = false
  | SDrop r => outcome_is r c /\ sender_dropped c = false
  | SDropWake _ r | SGone r => outcome_is r c /\ sender_dropped c = true
  end.

Definition is_err (r : result A unit) : Prop := r = Err tt.

Definition results_inv (c : conf) : Prop :=
  match results c with
  | [] => sent c = true -> value c = arg c
  | Ok v :: l => arg c = Some v /\ sent c = true /\ value c = None /\ Forall is_err l
  | Err _ :: l => arg c = None /\ sender_dropped c = true /\ Forall is_err l
  end.

Definition receiver_inv (c : conf) : Prop :=
  (receiver_dropped c = true <-> rpc c = RGone) /\
  match rpc c with
  | RTake _ => sent c = true
  | RSentAgain _ => sender_dropped c = true
  | _ => True
  end.

(** The registration of the running or parked poll. *)
Definition registered (c : conf) : option nat :=
  match rpc c with
  | RSent r | RTake r | RDropped r | RSentAgain r => r
  | RParked e => Some e
  | _ => None
  end.

(** A [wake_all] is still to come, or under way, that covers registration [e]. *)
Definition to_be_woken (e : nat) (p : sender_pc) : Prop :=
  match p with
  | SHeld | SCheck _ | SWrite _ | SPublish | SDrop None | SDrop (Some (Err _)) => True
  | SWake w | SDropWake w _ => covers w e
  | SDrop (Some (Ok _)) | SGone _ => False
  end.

Record queue_inv (c : conf) : Prop := {
  q_ok : WaitList.ok (wait c);
  q_range : forall w r, spc c = SWake w \/ spc c = SDropWake w r -> WaitList.in_range w (wait c);
  q_registered : forall e, registered c = Some e -> known (wait c) e;
  (* a poll that has found nothing after it registered *)
  q_checked : forall e, rpc c = RParked e \/ (rpc c = RDropped (Some e) /\ sender_dropped c = false) ->
    e ∈ WaitList.woken (wait c) \/ to_be_woken e (spc c)
}.

Record inv (c : conf) : Prop := {
  inv_sender : sender_inv c;
  inv_results : results_inv c;
  inv_receiver : receiver_inv c;
  inv_queue : queue_inv c
}.

Lemma os_wake_frame w c w' c' : wake_step w c = Some (w', c') ->
  exists q, WaitList.wake_step w (wait c) = Some (w', q) /\ c' = with_wait q c.
Proof.
  unfold wake_step. destruct (WaitList.wake_step w (wait c)) as [[w1 q]|]; [|done]. simpl.
  intros [= <- <-]. eauto.
Qed.

Ltac wake_frame H := let Eq := fresh in apply os_wake_frame in H as (q & Eq & ->); simpl in *.

Ltac sender_cases c E :=
  unfold sender_step in E; destruct (spc c) eqn:Ep; try done;
  try match type of E with context [wake_step ?w ?c] => destruct (wake_step w c) as [[w' c1]|] eqn:Ew end;
  injection E as <-.

Lemma os_sender_inv_sender c c' : sender_inv c -> receiver_inv c -> sender_step c = Some c' -> sender_inv c'.
Proof.
  intros Hs [Hd _] E. unfold sender_inv in *.
  sender_cases c E; try destruct r as [[]|]; simpl in *; try wake_frame Ew; try naive_solver.
  destruct (receiver_dropped c) eqn:Er; simpl; naive_solver.
Qed.

(** The receiver's accesses leave what the sender relies on alone, except that a value that was sent is taken. *)
Lemma os_sender_inv_frame c c' :
  sender_inv c -> spc c' = spc c -> sent c' = sent c -> sender_dropped c' = sender_dropped c ->
  arg c' = arg c -> (value c' = value c \/ sent c = true) -> (rpc c = RGone -> rpc c' = RGone) -> sender_inv c'.
Proof.
  intros Hs E1 E2 E3 E4 Hv Hg. unfold sender_inv, outcome_is in *. rewrite E1, E2, E3, E4.
  destruct (spc c) as [| | | | |o|? o|o]; try destruct o as [[]|]; destruct Hv as [Ev|Es]; rewrite ?Ev; intuition congruence.
Qed.

Lemma os_sender_inv_receiver c c' : sender_inv c -> receiver_inv c -> receiver_step c = Some c' -> sender_inv c'.
Proof.
  intros Hs [_ Hv] E. apply (os_sender_inv_frame c); [done|..]; unfold receiver_step in E.
  all: destruct (rpc c) as [|reg|reg|reg|reg| |e r|e|] eqn:Er; try done; injection E as <-;
    try destruct reg; simpl; try destruct (sent c) eqn:Es; auto.
Qed.

Lemma os_sent_arg c : sender_inv c -> sent c = true -> is_Some (arg c).
Proof.
  unfold sender_inv, outcome_is. destruct (spc c) as [| | | | |o|? o|o]; try destruct o as [[]|]; naive_solver congruence.
Qed.

Lemma os_unsent c : sender_inv c -> sender_dropped c = true -> sent c = false -> rpc c <> RGone -> arg c = None.
Proof.
  unfold sender_inv, outcome_is. destruct (spc c) as [| | | | |o|? o|o]; try destruct o as [[]|]; naive_solver congruence.
Qed.

Lemma os_results_sender c c' : sender_inv c -> results_inv c -> sender_step c = Some c' -> results_inv c'.
Proof.
  intros Hs Hr E. unfold sender_inv in Hs. unfold results_inv, results in *.
  sender_cases c E; simpl in *; try wake_frame Ew; try done;
    destruct (got c ++ _) as [|[?|?] l]; try naive_solver congruence.
Qed.

(** A poll returns [r] or is about to. *)
Lemma os_results_more r c c' : results_inv c -> results c' = results c ++ [r] ->
  sent c' = sent c -> sender_dropped c' = sender_dropped c -> arg c' = arg c -> value c' = None ->
  (match results c with
   | [] => match r with Ok v => arg c = Some v /\ sent c = true
           | Err _ => arg c = None /\ sender_dropped c = true end
   | Ok _ :: _ | Err _ :: _ => r = Err tt
   end) -> results_inv c'.
Proof.
  intros Hr E E1 E2 E3 Ev Hm. unfold results_inv in *. rewrite E, E1, E2, E3, Ev.
  destruct (results c) as [|[v|?] l]; simpl.
  - destruct r as [v|[]]; naive_solver.
  - destruct Hr as (? & ? & ? & ?). split_and!; [done..|]. apply Forall_app. split; [done|]. by constructor.
  - destruct Hr as (? & ? & ?). split_and!; [done..|]. apply Forall_app. split; [done|]. by constructor.
Qed.

Lemma os_results_finish reg r c : results_inv (finish reg r c) <-> results_inv (ready r c).
Proof. destruct reg; [|done]. unfold results_inv, results. simpl. by rewrite app_nil_r. Qed.

(** Before a poll returns nothing is about to be returned. *)
Lemma os_results_got c : (forall e r, rpc c <> RCancel e r) -> results c = got c.
Proof. intros H. unfold results. destruct (rpc c); rewrite ?app_nil_r; try done. by destruct (H e r). Qed.

Lemma os_results_receiver c c' :
  sender_inv c -> results_inv c -> receiver_inv c -> receiver_step c = Some c' -> results_inv c'.
Proof.
  intros Hs Hr [_ Hv] E. unfold receiver_step in E.
  assert (Hstay : forall p, (forall e r, rpc c <> RCancel e r) -> (forall e r, p <> RCancel e r) ->
            results_inv (with_rpc p c)).
  { intros p H1 H2. unfold results_inv in *. rewrite os_results_got in Hr |- * by done. done. }
  destruct (rpc c) as [|reg|reg|reg|reg| |e r|e|] eqn:Er; try done; injection E as <-.
  - by apply Hstay; destruct (sent c).
  - rewrite os_results_finish. eapply (os_results_more (ok_or (value c))); [done|..|]; try done.
    + unfold results. by rewrite Er, !app_nil_r.
    + unfold results_inv in Hr. destruct (os_sent_arg _ Hs Hv) as [v Ha]. destruct (results c) as [|[w|?] l].
      * by rewrite Hr, Ha by done.
      * destruct Hr as (_ & _ & -> & _). done.
      * destruct Hr as (? & _). congruence.
  - apply Hstay; [done|]. intros e r. by destruct (sender_dropped c), reg.
  - destruct (sent c) eqn:Es; [by apply Hstay|]. rewrite os_results_finish.
    assert (arg c = None) as Ha by (apply os_unsent; [done..|by rewrite Er]).
    assert (value c = None) as Hn.
    { clear Hr Hstay. unfold sender_inv, outcome_is in Hs. rewrite Er in Hs.
      destruct (spc c) as [| | | | |o|? o|o]; try destruct o as [[]|]; naive_solver congruence. }
    eapply (os_results_more (Err tt)); [done|..|]; try done.
    + unfold results. by rewrite Er, !app_nil_r.
    + destruct (results c) as [|[w|?] l]; done.
  - unfold results_inv, results in *. rewrite Er in Hr. done.
  - unfold results_inv, results in *. rewrite Er in Hr. simpl. by rewrite app_nil_r.
Qed.

Lemma os_receiver_receiver c c' : receiver_inv c -> receiver_step c = Some c' -> receiver_inv c'.
Proof.
  intros [Hd Hv] E. unfold receiver_step in E. unfold receiver_inv.
  destruct (rpc c) as [|reg|reg|reg|reg| |e r|e|] eqn:Er; try done; injection E as <-; simpl.
  - destruct (sent c) eqn:Es; simpl; naive_solver.
  - destruct reg; simpl; naive_solver.
  - destruct (sender_dropped c) eqn:Es, reg; simpl; naive_solver.
  - destruct (sent c) eqn:Es, reg; simpl; naive_solver.
  - naive_solver.
  - naive_solver.
Qed.

Lemma os_receiver_sender c c' : receiver_inv c -> sender_step c = Some c' -> receiver_inv c'.
Proof.
  intros [Hd Hv] E. unfold receiver_inv.
  sender_cases c E; simpl; try wake_frame Ew; split; try done; destruct (rpc c); try done.
Qed.

(** At the end of a [wake_all], the registrations it covered have been woken. *)
Lemma os_wake_all_done w c e : queue_inv c -> wake_step w c = None -> registered c = Some e ->
  covers w e -> e ∈ WaitList.woken (wait c).
Proof.
  unfold wake_step. intros [Hq _ Hr _] E He Hcov. destruct (WaitList.wake_step w (wait c)) as [[]|] eqn:Ew; [done|].
  by apply (WaitList.wl_wake_end w); auto.
Qed.

Lemma os_checked_registered c e :
  rpc c = RParked e \/ (rpc c = RDropped (Some e) /\ sender_dropped c = false) -> registered c = Some e.
Proof. unfold registered. by intros [-> | [-> _]]. Qed.

(** A move of the sender that leaves the queue alone. *)
Lemma os_queue_move c c' : queue_inv c ->
  wait c' = wait c -> rpc c' = rpc c ->
  (sender_dropped c = true -> sender_dropped c' = true) ->
  (forall w r, spc c' = SWake w \/ spc c' = SDropWake w r -> w = Snapshot) ->
  (forall e, registered c = Some e -> to_be_woken e (spc c) ->
     to_be_woken e (spc c') \/ e ∈ WaitList.woken (wait c)) -> queue_inv c'.
Proof.
  intros [Hq Ht Hr Hc] E1 E3 Hd Ht' Hk.
  assert (registered c' = registered c) as E5 by (unfold registered; by rewrite E3).
  split; rewrite ?E1, ?E3, ?E5; try done.
  - intros w r Hw. by rewrite (Ht' w r Hw).
  - intros e He. assert (registered c = Some e) as Hreg by (rewrite <- E5; eapply os_checked_registered; by rewrite E3).
    destruct (Hc e) as [?|Hw]; [|by left|].
    + destruct He as [?|[? Hf]]; [by left|right]. split; [done|]. destruct (sender_dropped c); [|done]. by rewrite Hd in Hf.
    + destruct (Hk e Hreg Hw); auto.
Qed.

(** A step of one of the two [wake_all]s. *)
Lemma os_queue_wake w w' c c1 (mk : waking -> sender_pc) :
  queue_inv c -> wake_step w c = Some (w', c1) -> spc c = mk w ->
  mk = SWake \/ (exists r, mk = fun w => SDropWake w r) -> queue_inv (with_spc (mk w') c1).
Proof.
  intros [Hq Ht Hr Hc] E Ep Hmk. apply os_wake_frame in E as (q & E & ->).
  assert (WaitList.in_range w (wait c)) as Hin.
  { destruct Hmk as [-> | [r ->]]; [apply (Ht w None)|apply (Ht w r)]; auto. }
  destruct (WaitList.wl_wake_step _ _ _ _ E Hq Hin) as (Hq' & Hin' & _ & Hw & Hk & Hcov).
  assert (forall e w0, to_be_woken e (mk w0) = covers w0 e) as Hm by (intros; by destruct Hmk as [-> | [r ->]]).
  split; simpl; auto.
  - intros v r Hv. assert (v = w') as -> by (destruct Hmk as [-> | [r' ->]]; destruct Hv; congruence). done.
  - intros e He. pose proof (os_checked_registered c e He) as Hreg.
    destruct (Hc e He) as [?|Htb]; [auto|]. rewrite Ep, Hm in Htb. rewrite Hm.
    destruct (Hcov e (Hr e Hreg) Htb); auto.
Qed.

Lemma os_queue_sender c c' : queue_inv c -> sender_step c = Some c' -> queue_inv c'.
Proof.
  intros Hq E. sender_cases c E.
  - apply (os_queue_move c); try done; rewrite ?Ep; simpl; destruct (receiver_dropped c); auto; by intros ? ? [?|?].
  - apply (os_queue_move c); try done; rewrite ?Ep; simpl; [by intros ? ? [?|?]|auto].
  - apply (os_queue_move c); try done; rewrite ?Ep; simpl; [by intros w r [[= <-]|?]|auto].
  - apply (os_queue_wake w w' c c1 SWake); auto.
  - apply (os_queue_move c); try done; rewrite ?Ep; simpl; [by intros ? ? [?|?]|].
    intros e He Hcov. right. by apply (os_wake_all_done w c e).
  - apply (os_queue_move c); try done; rewrite ?Ep; simpl; [by intros ? ? [?|[= <-]]|auto].
  - apply (os_queue_wake w w' c c1 (fun w => SDropWake w r)); eauto.
  - apply (os_queue_move c); try done; rewrite ?Ep; simpl; [by intros ? ? [?|?]|].
    intros e He Hcov. right. by apply (os_wake_all_done w c e).
Qed.

(** A move of the receiver that leaves the queue alone, or only retracts a registration. *)
Lemma os_queue_rpc c c' : queue_inv c -> spc c' = spc c -> sender_dropped c' = sender_dropped c ->
  wait c' = wait c \/ (registered c' = None /\ exists e, wait c' = WaitList.cancel e (wait c)) ->
  (forall e, registered c' = Some e -> registered c = Some e) ->
  (forall e, rpc c' = RParked e \/ (rpc c' = RDropped (Some e) /\ sender_dropped c = false) ->
     e ∈ WaitList.woken (wait c) \/ to_be_woken e (spc c)) -> queue_inv c'.
Proof.
  intros [Hq Ht Hr Hc] E2 E6 [E|[Hn [x E]]] Hreg Hck.
  - split; rewrite ?E, ?E2, ?E6; auto.
  - split; rewrite ?E, ?E2, ?E6, ?Hn; try done.
    { by apply WaitList.wl_cancel_ok. }
Qed.

Lemma os_not_started c e : sender_inv c -> rpc c <> RGone -> sent c = false -> sender_dropped c = false ->
  to_be_woken e (spc c).
Proof.
  unfold sender_inv, outcome_is. intros H Hg E1 E2. rewrite E1, E2 in H.
  destruct (spc c) as [| | | | |o|? o|o]; try destruct o as [[]|]; simpl; naive_solver.
Qed.

Lemma os_queue_register c : queue_inv c -> rpc c = RRegister ->
  queue_inv (with_rpc (RSent (Some (WaitList.next (wait c)))) (with_wait (WaitList.register (wait c)) c)).
Proof.
  intros [Hq Ht Hr Hc] Er. split; unfold registered; simpl.
  - by apply WaitList.wl_register_ok.
  - intros w r H n ->. specialize (Ht _ r H n eq_refl). simpl. lia.
  - intros e [= <-]. apply WaitList.wl_register_new.
  - by intros e [?|[? _]].
Qed.

Lemma os_queue_receiver c c' : sender_inv c -> queue_inv c -> receiver_step c = Some c' -> queue_inv c'.
Proof.
  intros Hs Hq E. pose proof Hq as [_ _ _ Hc]. unfold receiver_step in E. pose proof os_not_started c as Hns.
  assert (Hfin : forall reg r v, queue_inv (finish reg r (with_value v c))).
  { intros reg r v. destruct reg; (eapply os_queue_rpc; [exact Hq|done..|by left| |]); simpl; try done;
      by intros ? [?|[? ?]]. }
  destruct (rpc c) as [|reg|reg|reg|reg| |e r|e|] eqn:Er; try done; injection E as <-.
  - eapply (os_queue_rpc c); [done..|by left| |]; simpl.
    + unfold registered. simpl. rewrite Er. by destruct (sent c).
    + intros e. destruct (sent c); [by intros [?|[? _]]|]. intros [?|[[= ->] Hd]]; [done|]. right. by apply Hns.
  - apply Hfin.
  - eapply (os_queue_rpc c); [done..|by left| |]; simpl.
    + unfold registered. simpl. rewrite Er. by destruct (sender_dropped c), reg.
    + intros e. destruct (sender_dropped c) eqn:Ed; [by intros [?|[? _]]|].
      destruct reg as [e'|]; intros [[= ->]|[? _]]; try done. apply Hc. by right.
  - destruct (sent c).
    + eapply (os_queue_rpc c); [done..|by left| |]; simpl; [unfold registered; simpl; by rewrite Er|by intros ? [?|[? _]]].
    + replace c with (with_value (value c) c) by by destruct c. apply Hfin.
  - by apply os_queue_register.
  - eapply (os_queue_rpc c); [done..|right; eauto|done|]. by intros ? [?|[? _]].
Qed.

Lemma os_init : inv channel.
Proof.
  split; [done|done|by split|]. split; simpl; try done; [apply WaitList.wl_new_ok|by intros ? ? [?|?]|by intros ? [?|[? _]]].
Qed.

(** The program calls [send], drops the sender, polls or drops the receiver. *)
Lemma os_step_program l c c' : inv c -> l <> LSender -> l <> LReceiver -> exec l c = Some c' -> inv c'.
Proof.
  intros [Hs Hr Hv Hq] N1 N2 E. destruct l; simpl in E; try done.
  - destruct (spc c) eqn:Ep; try done. injection E as <-.
    unfold sender_inv, results_inv, receiver_inv in *. rewrite Ep in Hs. destruct Hs as (Ha & Hse & Hva & Hd).
    split; simpl; try done.
    + unfold results_inv, results in *. simpl. destruct (got c ++ _) as [|[?|?] l]; naive_solver congruence.
    + apply (os_queue_move c); try done; [by intros ? ? [?|?]|]. simpl. auto.
  - destruct (spc c) eqn:Ep; try done. injection E as <-.
    unfold sender_inv in Hs. rewrite Ep in Hs. destruct Hs as (Ha & Hse & Hva & Hd).
    split; simpl; try done. apply (os_queue_move c); try done; [by intros ? ? [?|?]|]. simpl. auto.
  - destruct (resting (rpc c)) eqn:Er; [|done]. injection E as <-. assert (rpc c <> RGone) by (by intros E; rewrite E in Er).
    split; simpl.
    + apply (os_sender_inv_frame c); simpl; auto. done.
    + unfold results_inv in *. rewrite os_results_got in Hr by (intros e r E; by rewrite E in Er).
      unfold results. simpl. by rewrite app_nil_r.
    + destruct Hv as [Hd _]. unfold receiver_inv. simpl. naive_solver.
    + eapply (os_queue_rpc c); [done..|by left| |]; simpl; [done|by intros ? [?|[? _]]].
  - destruct (resting (rpc c)) eqn:Er; [|done]. injection E as <-.
    split; simpl.
    + apply (os_sender_inv_frame c); simpl; auto.
    + unfold results_inv in *. rewrite os_results_got in Hr by (intros e r E; by rewrite E in Er).
      unfold results. simpl. by rewrite app_nil_r.
    + done.
    + eapply (os_queue_rpc c); [done..|by left| |]; simpl; [done|by intros ? [?|[? _]]].
Qed.

Lemma os_step c c' : inv c -> step c c' -> inv c'.
Proof.
  intros Hi [l E]. pose proof Hi as [Hs Hr Hv Hq].
  destruct l; try (by eapply os_step_program; [exact Hi| | |exact E]); simpl in E.
  - split; [by eapply os_sender_inv_sender|by eapply os_results_sender|by eapply os_receiver_sender|
            by eapply os_queue_sender].
  - split; [by eapply os_sender_inv_receiver|by eapply os_results_receiver|by eapply os_receiver_receiver|
            by eapply os_queue_receiver].
Qed.

Lemma os_reachable c : rtc step channel c -> inv c.
Proof.
  intros H. remember channel as c0 eqn:E. assert (inv c0) as H0 by (subst; apply os_init). clear E.
  induction H as [|c1 c2 c3 Hs _ IH]; [done|]. eauto using os_step.
Qed.

(** ** Theorems *)

(** C24.  A value passes at most once, and nothing is reported wrongly, in every interleaving.  The first
    result of the receiver is the value that [send] was called with, or [RecvError] when
    the sender was dropped without a call of [send]; every later poll returns [RecvError].  When [send] gives the value
    back the receiver is gone and has not taken it; when it returns [Ok] the value is in the
    channel, about to be returned, or has been.  The two accesses to the unsynchronised cell
    never come together: when the sender is about to write it, the receiver is not about to take from it. *)
Theorem oneshot_passes_once (c : conf) : rtc step channel c ->
  match got c with
  | [] => True
  | Ok v :: l => arg c = Some v /\ value c = None /\ Forall (eq (Err tt)) l
  | Err _ :: l => arg c = None /\ sender_dropped c = true /\ Forall (eq (Err tt)) l
  end /\
  (forall v, spc c = SGone (Some (Err v)) -> arg c = Some v /\ value c = None /\ rpc c = RGone /\
     forall w, Ok w ∉ got c) /\
  (spc c = SGone (Some (Ok tt)) -> exists v, arg c = Some v /\
     (value c = Some v \/ (exists e, rpc c = RCancel e (Ok v)) \/ exists l, got c = Ok v :: l)) /\
  (forall v reg, spc c = SWrite v -> rpc c <> RTake reg).
Proof.
  intros [Hs Hr [Hd Hv] _]%os_reachable. unfold results_inv, results in Hr.
  assert (forall l, Forall is_err l -> Forall (eq (Err tt)) l) as Hf.
  { intros l H. eapply Forall_impl; [exact H|by intros ? ->]. }
  split_and!.
  - destruct (got c) as [|[v|?] l]; [done|..]; simpl in Hr; destruct Hr as (? & ? & Hr).
    + destruct Hr as [? [Hr _]%Forall_app]. auto.
    + apply Forall_app in Hr as [Hr _]. auto.
  - intros v E. unfold sender_inv in Hs. rewrite E in Hs. destruct Hs as [(Ha & Hse & Hva & Hg) _].
    split_and!; [done..|]. intros w Hin. rewrite Hg, app_nil_r in Hr. destruct (got c) as [|[?|?] l].
    + by apply elem_of_nil in Hin.
    + naive_solver congruence.
    + naive_solver congruence.
  - intros E. unfold sender_inv in Hs. rewrite E in Hs. destruct Hs as [[[v Ha] Hse] _]. exists v. split; [done|].
    destruct (got c) as [|[w|?] l]; simpl in Hr.
    + destruct (rpc c) as [| | | | | |e [w|?]| |]; simpl in Hr; try (left; by rewrite Hr).
      * destruct Hr as [Hr _]. right. left. exists e. congruence.
      * destruct Hr as [Hr _]. congruence.
    + destruct Hr as [Hr _]. right. right. exists l. congruence.
    + destruct Hr as [Hr _]. congruence.
  - intros v reg E Er. unfold sender_inv in Hs. rewrite E in Hs. rewrite Er in Hv. naive_solver congruence.
Qed.

(** A receiver does not wait for nothing: while it is parked and the waker of its last poll has not been called,
    the sender has not been dropped, or its wake-up that covers the registration is on its way.  In
    particular, once the sender is gone, the waker has been called, and the next poll completes
    without registering again. *)
Theorem oneshot_parked_is_woken (c : conf) (e : nat) : rtc step channel c -> rpc c = RParked e ->
  (e ∈ WaitList.woken (wait c) \/ to_be_woken e (spc c)) /\
  (sender_dropped c = true -> exists n r c', (n <= 4)%nat /\
     foldl (fun o _ => c ← o; receiver_step c) (exec LPoll c) (seq 0 n) = Some c' /\
     rpc c' = RHeld /\ got c' = got c ++ [r]).
Proof.
  intros [Hs Hr _ [_ _ _ Hc]]%os_reachable Er. split; [apply Hc; by left|]. intros Hd. simpl. rewrite Er. simpl.
  destruct (sent c) eqn:Es.
  - exists 2%nat, (ok_or (value c)). eexists. split; [lia|]. simpl. rewrite Es. simpl. done.
  - exists 3%nat, (Err tt). eexists. split; [lia|]. simpl.
    rewrite Es. simpl. unfold receiver_step at 1. simpl. rewrite Hd. simpl. unfold receiver_step. simpl. rewrite Es. done.
Qed.

End oneshot.

(** *** Concrete executions *)

Fixpoint run {A} (ls : list (@label A)) (c : conf) : option conf :=
  match ls with [] => Some c | l :: ls' => c' ← exec l c; run ls' c' end.

Lemma os_run_reachable {A} (ls : list (@label A)) c c' : run ls c = Some c' -> rtc step c c'.
Proof.
  revert c; induction ls as [|l ls IH]; intros c E; simpl in E; [by injection E as ->|].
  destruct (exec l c) as [c1|] eqn:E1; [|done]. eapply rtc_l; [by exists l|by apply IH].
Qed.

(** The receiver parks, the value is sent, and the sender goes. *)
Definition park_then_send : list (@label nat) :=
  [LPoll] ++ repeat LReceiver 5 ++ [LSend 7%nat] ++ repeat LSender 9.

Lemma oneshot_passes_once_witness :
  exists c, run (park_then_send ++ [LPoll; LReceiver; LReceiver]) channel = Some c /\ got c = [Ok 7%nat] /\
    spc c = SGone (Some (Ok tt)) /\ arg c = Some 7%nat.
Proof.
  eexists. split; [vm_compute; reflexivity|]. split; [reflexivity|]. split; [reflexivity|].
  match goal with |- arg ?c = _ => destruct (oneshot_passes_once c) as [P _]; [|exact (proj1 P)] end.
  apply os_run_reachable with (ls := park_then_send ++ [LPoll; LReceiver; LReceiver]). vm_compute. reflexivity.
Defined.

Lemma oneshot_parked_is_woken_witness :
  exists c, run park_then_send channel = Some c /\ rpc c = RParked 0 /\ sender_dropped c = true /\
    (0%nat ∈ WaitList.woken (wait c) \/ to_be_woken 0 (spc c)).
Proof.
  eexists. split; [vm_compute; reflexivity|]. split; [reflexivity|]. split; [reflexivity|].
  refine (proj1 (oneshot_parked_is_woken _ 0 _ _)); [|reflexivity].
  eapply os_run_reachable with (ls := park_then_send). vm_compute. reflexivity.
Defined.

End Oneshot.
