(* ===== verification/Watch.v ===== *)
(** * Watch

    The watch channel of src/dtact-util/src/sync/watch.rs: any number of senders and
    receivers, interleaved access by access.  The [RwLock] around the value makes
    reading and writing it one access each; the wait queue is that of WaitList.v.  A receiver is polled at any time, notified or not,
    and its [changed] may be given up while it waits.  The reference counts of the [Arc]
    abort the process beyond [isize::MAX]. *)

From S2P Require Import Prelude WaitList.
Import WaitList (waking, Snapshot, Draining, covers).

Module Watch.
Section watch.
Context {A : Type}.

Inductive sender_pc :=
| SHeld                                (* the program has it *)
| SWrite (v : A)                       (* write under the lock *)
| SBump                                (* version.fetch_add(1) *)
| SWake (w : waking)                   (* wake_all of send *)
| SCount                               (* drop: sender_count.fetch_sub(1) *)
| SDropWake (w : waking)               (* wake_all of the last drop *)
| SGone.

(** Program points of [poll_changed]; [reg] is the registration, if it has been made. *)
Inductive receiver_pc :=
| RHeld
| RObserve (reg : option nat)          (* try_observe_change: load version *)
| RClosed (reg : option nat)           (* is_closed: load sender_count *)
| RObserveLast (reg : option nat)      (* once more, before reporting closed *)
| RRegister
| RCancel (e : nat) (r : result unit unit)
| RParked (e : nat)                    (* the poll returned [Pending] *)
| RCount                               (* drop: receiver_count.fetch_sub(1) *)
| RGone.

(** [seen] is the field [seen_version]; [at_send] is the number of the send it stands for and
    [got] what the last [changed] returned. *)
Record receiver := Rcv { r_pc : receiver_pc; seen : Z; at_send : nat; got : option (result unit unit) }.

(** [log] holds all the values written, [bumps] counts the increments of [version]. *)
Record conf := Conf {
  value : A;
  version : Z;
  sender_count : Z;
  receiver_count : Z;
  wait : WaitList.t;
  senders : list sender_pc;
  receivers : list receiver;
  log : list A;
  bumps : nat
}.

Definition channel (init : A) : conf :=
  Conf init 0 1 1 WaitList.new [SHeld] [Rcv RHeld 0 0 None] [init] 0.

Definition set_sender (i : nat) (p : sender_pc) (c : conf) : conf :=
  Conf (value c) (version c) (sender_count c) (receiver_count c) (wait c) (<[i := p]> (senders c))
    (receivers c) (log c) (bumps c).
Definition set_receiver (j : nat) (r : receiver) (c : conf) : conf :=
  Conf (value c) (version c) (sender_count c) (receiver_count c) (wait c) (senders c)
    (<[j := r]> (receivers c)) (log c) (bumps c).
Definition set_wait (q : WaitList.t) (c : conf) : conf :=
  Conf (value c) (version c) (sender_count c) (receiver_count c) q (senders c) (receivers c) (log c) (bumps c).
Definition set_counts (s r : Z) (c : conf) : conf :=
  Conf (value c) (version c) s r (wait c) (senders c) (receivers c) (log c) (bumps c).

Definition write (v : A) (c : conf) : conf :=
  Conf v (version c) (sender_count c) (receiver_count c) (wait c) (senders c) (receivers c)
    (log c ++ [v]) (bumps c).
Definition bump (c : conf) : conf :=
  Conf (value c) (wadd 64 (version c) 1) (sender_count c) (receiver_count c) (wait c) (senders c)
    (receivers c) (log c) (S (bumps c)).

(** One step of [wake_all], or [None] at its end. *)
Definition wake_step (w : waking) (c : conf) : option (waking * conf) :=
  '(w', q) ← WaitList.wake_step w (wait c); Some (w', set_wait q c).

(** The next access of sender [i]. *)
Definition sender_step (i : nat) (c : conf) : option conf :=
  p ← senders c !! i;
  match p with
  | SHeld | SGone => None
  | SWrite v => Some (set_sender i SBump (write v c))
  | SBump => Some (set_sender i (SWake Snapshot) (bump c))
  | SWake w =>
      Some (match wake_step w c with
            | Some (w', c') => set_sender i (SWake w') c'
            | None => set_sender i SHeld c
            end)
  | SCount =>
      Some (set_sender i (if sender_count c =? 1 then SDropWake Snapshot else SGone)
              (set_counts (wsub 64 (sender_count c) 1) (receiver_count c) c))
  | SDropWake w =>
      Some (match wake_step w c with
            | Some (w', c') => set_sender i (SDropWake w') c'
            | None => set_sender i SGone c
            end)
  end.

(** [try_observe_change]: whether there is something new, and the receiver then. *)
Definition try_observe_change (r : receiver) (c : conf) : bool * receiver :=
  if version c =? seen r then (false, r) else (true, Rcv (r_pc r) (version c) (bumps c) (got r)).

Definition with_pc (p : receiver_pc) (r : receiver) : receiver := Rcv p (seen r) (at_send r) (got r).

(** The poll has the result [res]: it returns, or retracts its registration first. *)
Definition finish (reg : option nat) (res : result unit unit) (r : receiver) : receiver :=
  match reg with
  | Some e => with_pc (RCancel e res) r
  | None => Rcv RHeld (seen r) (at_send r) (Some res)
  end.

(** The next access of receiver [j]. *)
Definition receiver_step (j : nat) (c : conf) : option conf :=
  r ← receivers c !! j;
  match r_pc r with
  | RHeld | RParked _ | RGone => None
  | RObserve reg =>
      let '(b, r') := try_observe_change r c in
      Some (set_receiver j (if b then finish reg (Ok tt) r' else with_pc (RClosed reg) r') c)
  | RClosed reg =>
      Some (set_receiver j
              (with_pc (if sender_count c =? 0 then RObserveLast reg
                        else match reg with Some e => RParked e | None => RRegister end) r) c)
  | RObserveLast reg =>
      let '(b, r') := try_observe_change r c in
      Some (set_receiver j (finish reg (if b then Ok tt else Err tt) r') c)
  | RRegister => Some (set_receiver j (with_pc (RObserve (Some (WaitList.next (wait c)))) r) (set_wait (WaitList.register (wait c)) c))
  | RCancel e res => Some (set_receiver j (Rcv RHeld (seen r) (at_send r) (Some res)) (set_wait (WaitList.cancel e (wait c)) c))
  | RCount =>
      Some (set_receiver j (with_pc RGone r) (set_counts (sender_count c) (wsub 64 (receiver_count c) 1) c))
  end.

(** The handles that still hold the [Arc]. *)
Definition strong (c : conf) : nat :=
  (sum_list_with (fun p => match p with SGone => 0 | _ => 1 end) (senders c) +
   sum_list_with (fun r => match r_pc r with RGone => 0 | _ => 1 end) (receivers c))%nat.

(** Cloning a handle: the process goes on if the [Arc] can count it. *)
Definition clone_sender (c : conf) : conf :=
  Conf (value c) (version c) (wadd 64 (sender_count c) 1) (receiver_count c) (wait c)
    (senders c ++ [SHeld]) (receivers c) (log c) (bumps c).
Definition clone_receiver (r : receiver) (c : conf) : conf :=
  Conf (value c) (version c) (sender_count c) (wadd 64 (receiver_count c) 1) (wait c)
    (senders c) (receivers c ++ [Rcv RHeld (seen r) (at_send r) None]) (log c) (bumps c).
Definition can_clone (c : conf) : bool := Z.of_nat (strong c) <? 2 ^ 63.

Inductive label :=
| LSend (i : nat) (v : A)
| LCloneSender (i : nat)
| LDropSender (i : nat)
| LSender (i : nat)
| LPoll (j : nat)                   (* poll [changed], for the first time or again *)
| LGiveUp (j : nat)                 (* drop a [changed] that waits *)
| LUpdate (j : nat)                 (* the load of [borrow_and_update] *)
| LCloneReceiver (j : nat)
| LDropReceiver (j : nat)
| LReceiver (j : nat).

Definition held_sender (i : nat) (c : conf) : bool := match senders c !! i with Some SHeld => true | _ => false end.

Definition exec (l : label) (c : conf) : option conf :=
  match l with
  | LSend i v => if held_sender i c then Some (set_sender i (SWrite v) c) else None
  | LCloneSender i => if held_sender i c && can_clone c then Some (clone_sender c) else None
  | LDropSender i => if held_sender i c then Some (set_sender i SCount c) else None
  | LSender i => sender_step i c
  | LPoll j =>
      r ← receivers c !! j;
      match r_pc r with RHeld | RParked _ => Some (set_receiver j (with_pc (RObserve None) r) c) | _ => None end
  | LGiveUp j =>
      r ← receivers c !! j;
      match r_pc r with RParked _ => Some (set_receiver j (with_pc RHeld r) c) | _ => None end
  | LUpdate j =>
      r ← receivers c !! j;
      match r_pc r with
      | RHeld => Some (set_receiver j (Rcv RHeld (version c) (bumps c) (got r)) c)
      | _ => None
      end
  | LCloneReceiver j =>
      r ← receivers c !! j;
      match r_pc r with RHeld => if can_clone c then Some (clone_receiver r c) else None | _ => None end
  | LDropReceiver j =>
      r ← receivers c !! j;
      match r_pc r with RHeld => Some (set_receiver j (with_pc RCount r) c) | _ => None end
  | LReceiver j => receiver_step j c
  end.

Definition step (c c' : conf) : Prop := exists l, exec l c = Some c'.

(** [borrow], of either handle. *)
Definition borrow (c : conf) : A := value c.

(** [Sender::is_closed]. *)
Definition is_closed (c : conf) : bool := receiver_count c =? 0.

(** ** Invariant *)

Definition alive (p : sender_pc) : nat := match p with SDropWake _ | SGone => 0%nat | _ => 1%nat end.
Definition bumping (p : sender_pc) : nat := match p with SBump => 1%nat | _ => 0%nat end.
Definition present (r : receiver) : nat := match r_pc r with RGone => 0%nat | _ => 1%nat end.

(** A [wake_all] is under way that will call the waker of registration [e]. *)
Definition send_wakes (c : conf) (e : nat) : Prop := exists i w, senders c !! i = Some (SWake w) /\ covers w e.
Definition drop_wakes (c : conf) (e : nat) : Prop := exists i w, senders c !! i = Some (SDropWake w) /\ covers w e.

Definition known (c : conf) (e : nat) : Prop := WaitList.known (wait c) e.
Definition woken (c : conf) : list nat := WaitList.woken (wait c).

(** Registration [e] has been woken, or will be, or there is nothing new; or no closing. *)
Definition up_to_date (c : conf) (e : nat) (s : Z) : Prop := e ∈ woken c \/ version c = s \/ send_wakes c e.
Definition kept_open (c : conf) (e : nat) : Prop := e ∈ woken c \/ sender_count c <> 0 \/ drop_wakes c e.

Definition registered (p : receiver_pc) : option nat :=
  match p with RObserve r | RClosed r | RObserveLast r => r | RParked e => Some e | _ => None end.

(** The registration that a receiver may still retract. *)
Definition owned (r : receiver) : option nat :=
  match r_pc r with RCancel e _ => Some e | p => registered p end.

Definition closed_at (c : conf) (r : receiver) : Prop := sender_count c = 0 /\ version c = seen r.

Record receiver_ok (c : conf) (r : receiver) : Prop := {
  ro_seen : seen r = wrap 64 (Z.of_nat (at_send r)) /\ (at_send r <= bumps c)%nat;
  ro_got : forall x, got r = Some (Err x) -> closed_at c r;
  ro_known : forall e, registered (r_pc r) = Some e -> known c e;
  ro_below : forall e, owned r = Some e -> (e < WaitList.next (wait c))%nat;
  ro_pc : match r_pc r with
          | RClosed (Some e) => up_to_date c e (seen r)
          | RObserveLast _ => sender_count c = 0
          | RCancel _ (Err _) => closed_at c r
          | RParked e => up_to_date c e (seen r) /\ kept_open c e
          | _ => True
          end
}.

Record inv (c : conf) : Prop := {
  i_version : version c = wrap 64 (Z.of_nat (bumps c));
  i_value : list.last (log c) = Some (value c);
  i_log : length (log c) = (1 + bumps c + sum_list_with bumping (senders c))%nat;
  i_senders : sender_count c = Z.of_nat (sum_list_with alive (senders c));
  i_receivers : receiver_count c = Z.of_nat (sum_list_with present (receivers c));
  i_strong : Z.of_nat (strong c) <= 2 ^ 63;
  i_wait : WaitList.ok (wait c);
  i_range : forall i w, senders c !! i = Some (SWake w) \/ senders c !! i = Some (SDropWake w) ->
    WaitList.in_range w (wait c);
  i_owned : forall j k rj rk e, receivers c !! j = Some rj -> receivers c !! k = Some rk ->
    owned rj = Some e -> owned rk = Some e -> j = k;
  i_receiver : forall j r, receivers c !! j = Some r -> receiver_ok c r
}.

(** What a step must keep for the receivers it does not move: for the registrations in [P]. *)
Record keeps (P : nat -> Prop) (c c' : conf) : Prop := {
  k_bumps : (bumps c <= bumps c')%nat;
  k_next : (WaitList.next (wait c) <= WaitList.next (wait c'))%nat;
  k_closed : sender_count c = 0 -> sender_count c' = 0 /\ version c' = version c;
  k_known : forall e, P e -> known c e -> known c' e;
  k_fresh : forall e s, P e -> known c e -> up_to_date c e s -> up_to_date c' e s;
  k_open : forall e, P e -> known c e -> kept_open c e -> kept_open c' e
}.

Lemma wt_keeps (P : nat -> Prop) c c' r : receiver_ok c r -> keeps P c c' ->
  (forall e, registered (r_pc r) = Some e -> P e) -> receiver_ok c' r.
Proof.
  intros [[H1 H2] Hg Hk Hb Hp] [K1 K2 K3 K4 K5 K6] HP.
  assert (closed_at c r -> closed_at c' r) as Hcl.
  { unfold closed_at. intros [E1 E2]. destruct (K3 E1) as [-> ->]. done. }
  split; [by split; [|lia]|naive_solver|naive_solver|intros e He; specialize (Hb e He); lia|].
  destruct (r_pc r) as [|reg|[e|]|reg|  |e [|]|e| |]; simpl in *; auto.
  - naive_solver.
  - destruct Hp. split; naive_solver.
Qed.

Lemma wt_keeps_refl P c c' :
  bumps c' = bumps c -> (WaitList.next (wait c) <= WaitList.next (wait c'))%nat -> sender_count c' = sender_count c -> version c' = version c ->
  senders c' = senders c -> woken c' = woken c -> (forall e, P e -> known c e -> known c' e) -> keeps P c c'.
Proof.
  intros E1 E2 E3 E4 E5 E6 Hk. split; [lia|done|by rewrite E3, E4|done|..];
    intros; unfold up_to_date, kept_open, send_wakes, drop_wakes in *; by rewrite ?E3, ?E4, ?E5, ?E6.
Qed.

(** A step of sender [i]: what has to be shown. *)
Lemma wt_inv_sender i p p' c c' : inv c -> senders c !! i = Some p ->
  senders c' = <[i := p']> (senders c) -> receivers c' = receivers c -> receiver_count c' = receiver_count c ->
  version c' = wrap 64 (Z.of_nat (bumps c')) -> list.last (log c') = Some (value c') ->
  (length (log c') + bumps c + bumping p = length (log c) + bumps c' + bumping p')%nat ->
  sender_count c' + Z.of_nat (alive p) = sender_count c + Z.of_nat (alive p') ->
  (p = SGone -> p' = SGone) ->
  WaitList.ok (wait c') -> (forall w, p' = SWake w \/ p' = SDropWake w -> WaitList.in_range w (wait c')) ->
  keeps (fun _ => True) c c' -> inv c'.
Proof.
  intros [I1 I2 I3 I4 I5 I6 I7 I8 I9 I10] Hi Es Er Erc Hv Hl Hlen Hc Hg Hq Ht Hk.
  pose proof (sum_insert bumping (senders c) i p p' Hi) as S1.
  pose proof (sum_insert alive (senders c) i p p' Hi) as S2.
  pose proof (sum_insert (fun p => match p with SGone => 0 | _ => 1 end)%nat (senders c) i p p' Hi) as S3.
  split; rewrite ?Es, ?Er, ?Erc; auto.
  - lia.
  - lia.
  - unfold strong in *. rewrite Es, Er. simpl in S3.
    assert ((match p' with SGone => 0 | _ => 1 end <= match p with SGone => 0 | _ => 1 end)%nat) as H.
    { destruct p, p'; try lia; by discriminate Hg. }
    lia.
  - intros i' w. destruct (decide (i = i')) as [<- | Hne].
    + rewrite list_lookup_insert_eq by (by eapply lookup_lt_Some). intros [[= ->]|[= ->]]; auto.
    + rewrite list_lookup_insert_ne by done. intros H n E. specialize (I8 i' w H n E). pose proof (k_next _ _ _ Hk). lia.
  - intros j r Hj. apply (wt_keeps (fun _ => True) c); eauto.
Qed.

(** The wake-ups under way survive a step of sender [i] if its own does, or has been done. *)
Lemma wt_send_wakes i p p' c c' e : senders c !! i = Some p -> senders c' = <[i := p']> (senders c) ->
  (forall w, p = SWake w -> covers w e -> (exists w', p' = SWake w' /\ covers w' e) \/ e ∈ woken c') ->
  send_wakes c e -> e ∈ woken c' \/ send_wakes c' e.
Proof.
  intros Hi Es Hw (k & w & Hk & Hcov). pose proof (lookup_lt_Some _ _ _ Hi). destruct (decide (i = k)) as [<- | Hne].
  - rewrite Hi in Hk. destruct (Hw w) as [(w' & -> & H')|]; [congruence|done| |by left].
    right. exists i, w'. rewrite Es, list_lookup_insert_eq by done. done.
  - right. exists k, w. rewrite Es, list_lookup_insert_ne by done. done.
Qed.

Lemma wt_drop_wakes i p p' c c' e : senders c !! i = Some p -> senders c' = <[i := p']> (senders c) ->
  (forall w, p = SDropWake w -> covers w e -> (exists w', p' = SDropWake w' /\ covers w' e) \/ e ∈ woken c') ->
  drop_wakes c e -> e ∈ woken c' \/ drop_wakes c' e.
Proof.
  intros Hi Es Hw (k & w & Hk & Hcov). pose proof (lookup_lt_Some _ _ _ Hi). destruct (decide (i = k)) as [<- | Hne].
  - rewrite Hi in Hk. destruct (Hw w) as [(w' & -> & H')|]; [congruence|done| |by left].
    right. exists i, w'. rewrite Es, list_lookup_insert_eq by done. done.
  - right. exists k, w. rewrite Es, list_lookup_insert_ne by done. done.
Qed.

(** A step of sender [i] that leaves version and count alone, or only takes the count down to a closing. *)
Lemma wt_keeps_sender i p p' c c' : senders c !! i = Some p -> senders c' = <[i := p']> (senders c) ->
  (bumps c <= bumps c')%nat -> (WaitList.next (wait c) <= WaitList.next (wait c'))%nat ->
  (sender_count c = 0 -> sender_count c' = 0 /\ version c' = version c) ->
  (forall e, known c e -> known c' e) -> (forall e, e ∈ woken c -> e ∈ woken c') ->
  (forall w e, known c e -> p = SWake w -> covers w e -> (exists w', p' = SWake w' /\ covers w' e) \/ e ∈ woken c') ->
  (forall w e, known c e -> p = SDropWake w -> covers w e ->
     (exists w', p' = SDropWake w' /\ covers w' e) \/ e ∈ woken c') ->
  (version c' = version c \/ p' = SWake Snapshot) ->
  (sender_count c <> 0 -> sender_count c' <> 0 \/ p' = SDropWake Snapshot) -> keeps (fun _ => True) c c'.
Proof.
  intros Hi Es Hb Hn Hcl Hk Hwk Hsw Hdw Hv Hc. pose proof (lookup_lt_Some _ _ _ Hi).
  split; auto.
  - intros e s _ He [?|[?|Hd]]; [left; auto| |].
    + destruct Hv as [Ev| ->]; [right; left; congruence|]. right. right. exists i, Snapshot.
      rewrite Es, list_lookup_insert_eq by done. done.
    + destruct (wt_send_wakes i p p' c c' e Hi Es (fun w => Hsw w e He) Hd); [by left|by right; right].
  - intros e _ He [?|[Hz|Hd]]; [left; auto| |].
    + destruct (Hc Hz) as [?| ->]; [right; by left|]. right. right. exists i, Snapshot.
      rewrite Es, list_lookup_insert_eq by done. done.
    + destruct (wt_drop_wakes i p p' c c' e Hi Es (fun w => Hdw w e He) Hd); [by left|by right; right].
Qed.

(** ** The steps of [wake_all] *)

Lemma wt_wake_frame w c w' c' : wake_step w c = Some (w', c') ->
  exists q, WaitList.wake_step w (wait c) = Some (w', q) /\ c' = set_wait q c.
Proof.
  unfold wake_step. destruct (WaitList.wake_step w (wait c)) as [[w1 q]|]; [|done]. simpl.
  intros [= <- <-]. eauto.
Qed.

(** At its end, the registrations it covered have been woken. *)
Lemma wt_wake_end w c e : wake_step w c = None -> WaitList.ok (wait c) -> known c e -> covers w e -> e ∈ woken c.
Proof.
  unfold wake_step. destruct (WaitList.wake_step w (wait c)) as [[]|] eqn:E; [done|]. intros _. by apply WaitList.wl_wake_end.
Qed.

(** A step of one of the two [wake_all]s of sender [i]. *)
Lemma wt_inv_wake i w w' c c1 (mk : waking -> sender_pc) : inv c -> senders c !! i = Some (mk w) ->
  mk = SWake \/ mk = SDropWake -> wake_step w c = Some (w', c1) -> inv (set_sender i (mk w') c1).
Proof.
  intros Hi Hs Hmk E. pose proof Hi as [I1 I2 I3 I4 I5 I6 I7 I8 I9 I10].
  apply wt_wake_frame in E as (q & E & ->).
  assert (WaitList.in_range w (wait c)) as Hr by (apply (I8 i); rewrite Hs; destruct Hmk as [-> | ->]; auto).
  destruct (WaitList.wl_wake_step _ _ _ _ E I7 Hr) as (Q1 & Q2 & Q3 & Q4 & Q5 & Hcov). set (c' := set_sender _ _ _).
  apply (wt_inv_sender i (mk w) (mk w') c); try done; simpl; try (destruct Hmk as [-> | ->]; done || lia).
  - intros v Hv. assert (v = w') as -> by (destruct Hmk as [-> | ->], Hv; congruence). done.
  - apply (wt_keeps_sender i (mk w) (mk w') c); try done; simpl; auto; [lia|..].
    + intros v e He Hv Hc. destruct Hmk as [-> | ->]; [injection Hv as ->|done].
      destruct (Hcov e He Hc); [left; eauto|by right].
    + intros v e He Hv Hc. destruct Hmk as [-> | ->]; [done|injection Hv as ->].
      destruct (Hcov e He Hc); [left; eauto|by right].
Qed.

(** The end of one. *)
Lemma wt_inv_wake_end i w p' c (mk : waking -> sender_pc) : inv c -> senders c !! i = Some (mk w) ->
  (mk = SWake /\ p' = SHeld) \/ (mk = SDropWake /\ p' = SGone) -> wake_step w c = None -> inv (set_sender i p' c).
Proof.
  intros Hi Hs Hmk E. pose proof Hi as [I1 I2 I3 I4 I5 I6 I7 I8 I9 I10].
  pose proof (fun e => wt_wake_end w c e E I7) as He.
  apply (wt_inv_sender i (mk w) p' c); try done; simpl; try (destruct Hmk as [[-> ->]|[-> ->]]; done || lia || (by intros ? [?|?])).
  apply (wt_keeps_sender i (mk w) p' c); try done; simpl; auto.
  - intros v e Hk Hv Hc. right. apply He; [done|]. destruct Hmk as [[-> _]|[-> _]]; congruence.
  - intros v e Hk Hv Hc. right. apply He; [done|]. destruct Hmk as [[-> _]|[-> _]]; congruence.
Qed.

Lemma wt_inv_sender_step i c c' : inv c -> sender_step i c = Some c' -> inv c'.
Proof.
  intros Hi E. pose proof Hi as [I1 I2 I3 I4 I5 I6 I7 I8 I9 I10]. unfold sender_step in E.
  destruct (senders c !! i) as [p|] eqn:Hs; [|done]. simpl in E.
  destruct p as [|v| |w| |w|]; try done.
  - injection E as <-. apply (wt_inv_sender i (SWrite v) SBump c); try done; simpl.
    + by rewrite last_snoc.
    + rewrite length_app. simpl. lia.
    + by intros w [?|?].
    + by apply (wt_keeps_sender i (SWrite v) SBump c); try done; simpl; auto.
  - injection E as <-. pose proof (sum_ge alive (senders c) i SBump Hs) as Ha. simpl in Ha.
    apply (wt_inv_sender i SBump (SWake Snapshot) c); try done; simpl.
    + rewrite I1. unfold wadd, wrap. rewrite Zplus_mod_idemp_l. f_equal. lia.
    + lia.
    + by intros w [[= <-]|?].
    + apply (wt_keeps_sender i SBump (SWake Snapshot) c); try done; simpl; auto. lia.
  - destruct (wake_step w c) as [[w' c1]|] eqn:Ew; injection E as <-.
    + by apply (wt_inv_wake i w w' c c1 SWake); auto.
    + by apply (wt_inv_wake_end i w SHeld c SWake); auto.
  - pose proof (sum_ge alive (senders c) i SCount Hs) as Ha. simpl in Ha.
    assert (Z.of_nat (sum_list_with alive (senders c)) <= 2 ^ 63) as Hle.
    { unfold strong in I6. clear -I6.
      assert (forall l, sum_list_with alive l <= sum_list_with (fun p => match p with SGone => 0 | _ => 1 end) l)%nat as H.
      { induction l as [|p l IH]; simpl; [lia|]. destruct p; simpl; lia. }
      specialize (H (senders c)). lia. }
    assert (wsub 64 (sender_count c) 1 = sender_count c - 1) as Hw by (apply wsub_small; lia).
    injection E as <-. set (p' := if sender_count c =? 1 then _ else _).
    assert (alive p' = 0%nat /\ bumping p' = 0%nat) as [Hp1 Hp2] by (unfold p'; by case_match).
    apply (wt_inv_sender i SCount p' c); try done; simpl; rewrite ?Hw, ?Hp1, ?Hp2; try lia.
    + unfold p'. by destruct (sender_count c =? 1); intros w [?|[= <-]].
    + apply (wt_keeps_sender i SCount p' c); try done; simpl; auto; rewrite ?Hw; [lia|].
      intros _. unfold p'. destruct (Z.eqb_spec (sender_count c) 1); [by right|left; lia].
  - destruct (wake_step w c) as [[w' c1]|] eqn:Ew; injection E as <-.
    + by apply (wt_inv_wake i w w' c c1 SDropWake); auto.
    + by apply (wt_inv_wake_end i w SGone c SDropWake); auto.
Qed.

(** A step of receiver [j]: what has to be shown. *)
Lemma wt_inv_receiver j r r' (P : nat -> Prop) c c' : inv c -> receivers c !! j = Some r ->
  receivers c' = <[j := r']> (receivers c) -> senders c' = senders c -> sender_count c' = sender_count c ->
  version c' = version c -> bumps c' = bumps c -> log c' = log c -> value c' = value c ->
  receiver_count c' + Z.of_nat (present r) = receiver_count c + Z.of_nat (present r') ->
  (present r' <= present r)%nat ->
  WaitList.ok (wait c') -> keeps P c c' ->
  (forall k rk e, k <> j -> receivers c !! k = Some rk -> registered (r_pc rk) = Some e -> P e) ->
  (forall e, owned r' = Some e -> owned r = Some e \/ e = WaitList.next (wait c)) ->
  receiver_ok c' r' -> inv c'.
Proof.
  intros [I1 I2 I3 I4 I5 I6 I7 I8 I9 I10] Hj Er Es Esc Ev Eb El Eva Hc Hpr Hq Hk HP Ho Hr.
  pose proof (sum_insert present (receivers c) j r r' Hj) as S1.
  pose proof (lookup_lt_Some _ _ _ Hj) as Hlt.
  assert (forall k rk, receivers c' !! k = Some rk -> (k = j /\ rk = r') \/ (k <> j /\ receivers c !! k = Some rk)) as Hlook.
  { intros k rk. rewrite Er. destruct (decide (j = k)) as [<- | Hne].
    - rewrite list_lookup_insert_eq by done. intros [= ->]. by left.
    - rewrite list_lookup_insert_ne by done. auto. }
  split; rewrite ?Es, ?Esc, ?Ev, ?Eb, ?El, ?Eva; auto.
  - rewrite Er. lia.
  - unfold strong in *. rewrite Es, Er. unfold present in S1, Hpr. lia.
  - intros i w H n E. specialize (I8 i w H n E). pose proof (k_next _ _ _ Hk). lia.
  - assert (forall k rk e, k <> j -> receivers c !! k = Some rk -> owned rk = Some e -> owned r' <> Some e) as Hd.
    { intros k rk e Hne Hk' Hok Hor. destruct (Ho e Hor) as [?| ->]; [by apply Hne, (I9 k j rk r e)|].
      pose proof (ro_below _ _ (I10 k rk Hk') _ Hok). lia. }
    intros k m rk rm e [[-> ->]|[Hnk Hk']]%Hlook [[-> ->]|[Hnm Hm']]%Hlook Hok Hom; try done.
    + by destruct (Hd m rm e).
    + by destruct (Hd k rk e).
    + by apply (I9 k m rk rm e).
  - intros k rk [[-> ->]|[Hne Hk']]%Hlook; [done|]. apply (wt_keeps P c); eauto.
Qed.

(** Most steps of a receiver change nothing but itself. *)
Lemma wt_inv_receiver_only j r r' c : inv c -> receivers c !! j = Some r -> present r' = present r ->
  (forall e, owned r' = Some e -> owned r = Some e) -> receiver_ok c r' -> inv (set_receiver j r' c).
Proof.
  intros Hi Hj Hp Ho [[O1 O2] O3 O4 O5 O6]. pose proof Hi as [I1 I2 I3 I4 I5 I6 I7 I8 I9 I10].
  apply (wt_inv_receiver j r r' (fun _ => True) c); try done; simpl; try lia; auto.
Qed.

(** A poll that is about to return [res]. *)
Lemma wt_finish c reg res r r0 : receiver_ok c r0 ->
  seen r = wrap 64 (Z.of_nat (at_send r)) -> (at_send r <= bumps c)%nat ->
  (reg = registered (r_pc r0)) -> (forall x, got r = Some (Err x) -> closed_at c r) ->
  (forall x, res = Err x -> closed_at c r) -> receiver_ok c (finish reg res r).
Proof.
  intros [O1 O2 O3 O4 O5] Hs Ha Hreg Hg Hres. destruct reg as [e|]; simpl.
  - split; simpl; try done. 2: by destruct res; [|eapply Hres].
    intros e' [= <-]. apply O4. unfold owned. by destruct (r_pc r0).
  - split; simpl; try done. intros x [= ->]. by apply (Hres x).
Qed.

Lemma wt_finish_owned reg res r r0 e : reg = registered (r_pc r0) -> owned (finish reg res r) = Some e -> owned r0 = Some e.
Proof. intros E. destruct reg as [e'|]; [|done]. intros [= <-]. unfold owned. by destruct (r_pc r0). Qed.

Lemma wt_finish_present reg res r : present (finish reg res r) = 1%nat.
Proof. by destruct reg. Qed.

(** A poll that goes on, with the registration it had. *)
Lemma wt_with_pc c r p : receiver_ok c r ->
  (forall e, registered p = Some e -> registered (r_pc r) = Some e) -> (forall e x, p <> RCancel e x) ->
  match p with
  | RClosed (Some e) => up_to_date c e (seen r)
  | RObserveLast _ => sender_count c = 0
  | RParked e => up_to_date c e (seen r) /\ kept_open c e
  | _ => True
  end -> receiver_ok c (with_pc p r).
Proof.
  intros [O1 O2 O3 O4 O5] Hreg Hc Hp. split; simpl; auto.
  - intros e He. apply O4. unfold owned in *. simpl in He.
    assert (registered p = Some e) as H by (destruct p; try done; by destruct (Hc e0 r0)).
    specialize (Hreg e H). by destruct (r_pc r).
  - destruct p; try done. by destruct (Hc e r0).
Qed.

Lemma wt_observe_got c r : inv c -> receiver_ok c r -> forall x, got r = Some (Err x) ->
  closed_at c (Rcv (r_pc r) (version c) (bumps c) (got r)).
Proof. intros Hi Hr x Hg. destruct (ro_got _ _ Hr x Hg). by split. Qed.

Lemma wt_inv_receiver_step j c c' : inv c -> receiver_step j c = Some c' -> inv c'.
Proof.
  intros Hi E. pose proof Hi as [I1 I2 I3 I4 I5 I6 I7 I8 I9 I10]. unfold receiver_step in E.
  destruct (receivers c !! j) as [r|] eqn:Hj; [|done]. simpl in E.
  pose proof (I10 j r Hj) as Hr. pose proof Hr as [[O1 O2] O3 O4 O5 O6].
  pose proof (wt_observe_got c r Hi Hr) as Hog.
  assert (present r = match r_pc r with RGone => 0%nat | _ => 1%nat end) as Hpr by done.
  destruct (r_pc r) as [|reg|reg|reg| |e res|e| |] eqn:Ep; try done.
  - unfold try_observe_change in E. destruct (Z.eqb_spec (version c) (seen r)) as [Ev|Ev]; injection E as <-.
    + apply (wt_inv_receiver_only j r); try done; [unfold owned; simpl; by rewrite Ep|].
      apply wt_with_pc; try done; [by rewrite Ep|]. destruct reg; [|done]. right. by left.
    + apply (wt_inv_receiver_only j r); try done; [by rewrite wt_finish_present|intros e; apply wt_finish_owned; by rewrite Ep|].
      apply (wt_finish c reg (Ok tt) _ r); simpl; try done; by rewrite Ep.
  - injection E as <-. apply (wt_inv_receiver_only j r); try done.
    + unfold present at 1. simpl. rewrite Hpr. destruct (sender_count c =? 0), reg; done.
    + unfold owned. rewrite Ep. simpl. destruct (sender_count c =? 0), reg; done.
    + destruct (Z.eqb_spec (sender_count c) 0) as [Ez|Ez]; [apply wt_with_pc; by rewrite ?Ep|].
      apply wt_with_pc; try done; destruct reg as [e|]; rewrite ?Ep; try done.
      split; [done|]. right. by left.
  - unfold try_observe_change in E. destruct (Z.eqb_spec (version c) (seen r)) as [Ev|Ev]; injection E as <-.
    + apply (wt_inv_receiver_only j r); try done; [by rewrite wt_finish_present|intros e; apply wt_finish_owned; by rewrite Ep|].
      apply (wt_finish c reg (Err tt) _ r); simpl; try done; by rewrite Ep.
    + apply (wt_inv_receiver_only j r); try done; [by rewrite wt_finish_present|intros e; apply wt_finish_owned; by rewrite Ep|].
      apply (wt_finish c reg (Ok tt) _ r); simpl; try done; by rewrite Ep.
  - injection E as <-.
    apply (wt_inv_receiver j r (with_pc (RObserve (Some (WaitList.next (wait c)))) r) (fun _ => True) c);
      try done; simpl; try lia.
    + rewrite Hpr. unfold present. simpl. lia.
    + rewrite Hpr. unfold present. simpl. lia.
    + by apply WaitList.wl_register_ok.
    + apply wt_keeps_refl; try done; [simpl; lia|]. intros e _ He. by apply WaitList.wl_register_known.
    + intros e. unfold owned. simpl. intros [= <-]. by right.
    + split; simpl; try done; [|by unfold owned; simpl; intros e [= <-]; lia].
      intros e [= <-]. apply WaitList.wl_register_new.
  - injection E as <-. set (r' := Rcv RHeld (seen r) (at_send r) (Some res)).
    apply (wt_inv_receiver j r r' (fun x => x <> e) c); try done; cbn [set_receiver set_wait wait receivers receiver_count].
    + rewrite Hpr. unfold present. simpl. lia.
    + rewrite Hpr. unfold present. simpl. lia.
    + by apply WaitList.wl_cancel_ok.
    + apply wt_keeps_refl; try done. intros x Hne Hx. by apply WaitList.wl_cancel_known.
    + intros k rk x Hne Hk Hx ->. apply Hne, (I9 k j rk r e); [done|done| |unfold owned; by rewrite Ep].
      unfold owned. by destruct (r_pc rk).
    + split; simpl; try done. intros x [= ->]. done.
  - injection E as <-. pose proof (sum_ge present (receivers c) j r Hj) as Hge. rewrite Hpr in Hge.
    assert (Z.of_nat (sum_list_with present (receivers c)) <= 2 ^ 63) as Hle.
    { unfold strong in I6. fold present in I6. lia. }
    apply (wt_inv_receiver j r (with_pc RGone r) (fun _ => True) c); try done; simpl.
    + rewrite Hpr. unfold present at 1. simpl. rewrite wsub_small by lia. lia.
    + rewrite Hpr. unfold present. simpl. lia.
Qed.

(** ** What the program does with its handles *)

Lemma wt_held i c : held_sender i c = true -> senders c !! i = Some SHeld.
Proof. unfold held_sender. by destruct (senders c !! i) as [[]|]. Qed.

Lemma wt_inv_start i p' c : inv c -> senders c !! i = Some SHeld -> (exists v, p' = SWrite v) \/ p' = SCount ->
  inv (set_sender i p' c).
Proof.
  intros Hi Hs Hp. pose proof Hi as [I1 I2 I3 I4 I5 I6 I7 I8 I9 I10].
  assert (alive p' = 1%nat /\ bumping p' = 0%nat /\ forall w, p' <> SWake w /\ p' <> SDropWake w) as (Ha & Hb & Hw).
  { by destruct Hp as [[v ->]| ->]. }
  apply (wt_inv_sender i SHeld p' c); try done; simpl; rewrite ?Ha, ?Hb; try lia.
  - intros w [?|?]; by destruct (Hw w).
  - by apply (wt_keeps_sender i SHeld p' c); try done; simpl; auto.
Qed.

Lemma wt_inv_clone_sender i c : inv c -> senders c !! i = Some SHeld -> can_clone c = true -> inv (clone_sender c).
Proof.
  intros Hi Hs Hc. pose proof Hi as [I1 I2 I3 I4 I5 I6 I7 I8 I9 I10]. unfold can_clone in Hc. apply Z.ltb_lt in Hc.
  pose proof (sum_ge alive (senders c) i SHeld Hs) as Ha. simpl in Ha.
  assert (Z.of_nat (sum_list_with alive (senders c)) <= 2 ^ 63) as Hle.
  { unfold strong in I6. clear -I6.
    assert (forall l, sum_list_with alive l <= sum_list_with (fun p => match p with SGone => 0 | _ => 1 end) l)%nat as H.
    { induction l as [|p l IH]; simpl; [lia|]. destruct p; simpl; lia. }
    specialize (H (senders c)). lia. }
  assert (wadd 64 (sender_count c) 1 = sender_count c + 1) as Hw by (apply wadd_small; lia).
  assert (forall i t, (senders c ++ [SHeld]) !! i = Some (SWake t) -> senders c !! i = Some (SWake t)) as H1.
  { intros k t [?|[_ H]]%lookup_app_Some; [done|]. by apply list_lookup_singleton_Some in H as [_ ?]. }
  assert (forall i t, (senders c ++ [SHeld]) !! i = Some (SDropWake t) -> senders c !! i = Some (SDropWake t)) as H2.
  { intros k t [?|[_ H]]%lookup_app_Some; [done|]. by apply list_lookup_singleton_Some in H as [_ ?]. }
  assert (keeps (fun _ => True) c (clone_sender c)) as Hk.
  { split; try done.
    - simpl. lia.
    - intros e x _ _ [?|[?|(k & w & Hk & Hcov)]]; [by left|right; by left|right; right].
      exists k, w. simpl. split; [by apply lookup_app_l_Some|done].
    - intros e _ _ [?|[?|(k & w & Hk & Hcov)]]; [by left|right; left; simpl; rewrite Hw; lia|right; right].
      exists k, w. simpl. split; [by apply lookup_app_l_Some|done]. }
  split; simpl; try done.
  - rewrite sum_list_with_app. simpl. lia.
  - rewrite Hw, sum_list_with_app. simpl. lia.
  - unfold strong in *. simpl. rewrite sum_list_with_app. simpl. lia.
  - intros k t [?|?]; eapply (I8 k t); eauto.
  - intros j r Hj. apply (wt_keeps (fun _ => True) c); eauto.
Qed.

Lemma wt_inv_clone_receiver j r c : inv c -> receivers c !! j = Some r -> r_pc r = RHeld -> can_clone c = true ->
  inv (clone_receiver r c).
Proof.
  intros Hi Hj Hp Hc. pose proof Hi as [I1 I2 I3 I4 I5 I6 I7 I8 I9 I10]. unfold can_clone in Hc. apply Z.ltb_lt in Hc.
  assert (Z.of_nat (sum_list_with present (receivers c)) < 2 ^ 63) as Hle.
  { unfold strong in Hc. fold present in Hc. lia. }
  assert (forall k rk, receivers (clone_receiver r c) !! k = Some rk ->
            receivers c !! k = Some rk \/ rk = Rcv RHeld (seen r) (at_send r) None) as Hlook.
  { intros k rk [?|[_ H]]%lookup_app_Some; [by left|]. apply list_lookup_singleton_Some in H as [_ <-]. by right. }
  split; simpl; try done.
  - rewrite sum_list_with_app. simpl. rewrite wadd_small by lia. lia.
  - unfold strong in *. simpl. rewrite sum_list_with_app. simpl. lia.
  - intros k m rk rm e [Hk| ->]%Hlook [Hm| ->]%Hlook; [by apply I9|done..].
  - intros k rk [Hk| ->]%Hlook.
    + apply (wt_keeps (fun _ => True) c); eauto. by apply wt_keeps_refl.
    + destruct (ro_seen _ _ (I10 j r Hj)). by split.
Qed.

Lemma wt_step c c' : inv c -> step c c' -> inv c'.
Proof.
  intros Hi [l E]. pose proof Hi as [I1 I2 I3 I4 I5 I6 I7 I8 I9 I10]. destruct l; cbn [exec] in E.
  - destruct (held_sender i c) eqn:Hh; [|done]. injection E as <-. apply wt_inv_start; [done|by apply wt_held|eauto].
  - destruct (held_sender i c) eqn:Hh; [|done]. destruct (can_clone c) eqn:Hcc; [|done]. injection E as <-.
    by apply (wt_inv_clone_sender i); [|apply wt_held|].
  - destruct (held_sender i c) eqn:Hh; [|done]. injection E as <-. apply wt_inv_start; [done|by apply wt_held|eauto].
  - by apply (wt_inv_sender_step i c).
  - destruct (receivers c !! j) as [r|] eqn:Hj; [|done]. cbn [mbind option_bind] in E.
    assert (c' = set_receiver j (with_pc (RObserve None) r) c /\ present r = 1%nat) as [-> Hp].
    { unfold present. destruct (r_pc r); try done; by injection E as <-. }
    apply (wt_inv_receiver_only j r); try done. apply wt_with_pc; [by apply (I10 j)|done..].
  - destruct (receivers c !! j) as [r|] eqn:Hj; [|done]. cbn [mbind option_bind] in E.
    assert (c' = set_receiver j (with_pc RHeld r) c /\ present r = 1%nat) as [-> Hp].
    { unfold present. destruct (r_pc r); try done; by injection E as <-. }
    apply (wt_inv_receiver_only j r); try done. apply wt_with_pc; [by apply (I10 j)|done..].
  - destruct (receivers c !! j) as [r|] eqn:Hj; [|done]. cbn [mbind option_bind] in E.
    destruct (r_pc r) eqn:Ep; try done. injection E as <-. pose proof (I10 j r Hj) as Hr.
    apply (wt_inv_receiver_only j r); try done; [unfold present; by rewrite Ep|].
    split; try done. intros x Hg. destruct (ro_got _ _ Hr x Hg). by split.
  - destruct (receivers c !! j) as [r|] eqn:Hj; [|done]. cbn [mbind option_bind] in E.
    destruct (r_pc r) eqn:Ep; try done. destruct (can_clone c) eqn:Hcc; [|done]. injection E as <-.
    by apply (wt_inv_clone_receiver j).
  - destruct (receivers c !! j) as [r|] eqn:Hj; [|done]. cbn [mbind option_bind] in E.
    destruct (r_pc r) eqn:Ep; try done. injection E as <-.
    apply (wt_inv_receiver_only j r); try done; [unfold present; by rewrite Ep|]. apply wt_with_pc; [by apply (I10 j)|done..].
  - by apply (wt_inv_receiver_step j c).
Qed.

Lemma wt_init v : inv (channel v).
Proof.
  split; simpl; try done.
  - apply WaitList.wl_new_ok.
  - intros [|i] t [?|?]; done.
  - intros [|j] [|k] rj rk e; simpl; try done.
  - intros [|j] r; simpl; [|done]. intros [= <-]. split; simpl; try done; by split.
Qed.

Lemma wt_reachable v c : rtc step (channel v) c -> inv c.
Proof.
  intros H. remember (channel v) as c0 eqn:E. assert (inv c0) as H0 by (subst; apply wt_init). clear E.
  induction H as [|c1 c2 c3 Hs _ IH]; [done|]. eauto using wt_step.
Qed.

(** ** Theorems *)

(** A receiver never misses the latest value, for any number of handles in any interleaving.  What [borrow]
    reads is the last value written; all values whose [version] has been counted are written, those on
    their way excepted.  A receiver that has marked the [n]-th send as seen finds the [n]-th value or a later
    one there; as long as there have been fewer than 2^64 sends, one whose mark equals the version has seen
    them all, and [changed] reports closing only when every sender is dropped and
    nothing is unseen: the last value written is the one the receiver has marked. *)
Theorem watch_sees_latest (v : A) (c : conf) : rtc step (channel v) c ->
  list.last (log c) = Some (borrow c) /\
  length (log c) = (1 + bumps c + sum_list_with bumping (senders c))%nat /\
  forall j r, receivers c !! j = Some r ->
    (at_send r <= bumps c)%nat /\
    (Z.of_nat (bumps c) < 2 ^ 64 -> version c = seen r -> at_send r = bumps c) /\
    (Z.of_nat (bumps c) < 2 ^ 64 -> got r = Some (Err tt) ->
       (forall p, p ∈ senders c -> alive p = 0%nat) /\ length (log c) = S (at_send r)).
Proof.
  intros [I1 I2 I3 I4 I5 I6 I7 I8 I9 I10]%wt_reachable. split; [done|]. split; [done|]. intros j r Hj.
  destruct (I10 j r Hj) as [[O1 O2] O3 O4 O5 O6].
  assert (Heq : Z.of_nat (bumps c) < 2 ^ 64 -> version c = seen r -> at_send r = bumps c).
  { rewrite I1, O1. intros Hb. rewrite !wrap_small by lia. lia. }
  split; [done|]. split; [done|]. intros Hb Hg. destruct (O3 tt Hg) as [Hz Hv].
  assert (forall p, p ∈ senders c -> alive p = 0%nat) as Hall.
  { intros p [k Hk]%list_elem_of_lookup. pose proof (sum_ge alive (senders c) k p Hk). lia. }
  split; [done|]. rewrite (Heq Hb Hv), I3. assert (sum_list_with bumping (senders c) = 0%nat) as ->; [|lia].
  clear -Hall. induction (senders c) as [|p l IH]; [done|]. simpl. rewrite IH.
  - specialize (Hall p ltac:(by left)). by destruct p.
  - intros q Hq. apply Hall. by right.
Qed.

(** No receiver waits for nothing: while it is parked and the waker of its last poll has not been called, its mark is
    the current version or the wake-up of a send that covers its registration is under way, and
    there is a sender or the wake-up of the last drop is.  And whenever there is something new or every sender is
    gone, a poll returns at once, without registering. *)
Theorem watch_parked_is_woken (v : A) (c : conf) (j : nat) (r : receiver) : rtc step (channel v) c ->
  receivers c !! j = Some r ->
  (forall e, r_pc r = RParked e -> e ∈ woken c \/
     ((version c = seen r \/ send_wakes c e) /\ (sender_count c <> 0 \/ drop_wakes c e))) /\
  (r_pc r = RHeld \/ (exists e, r_pc r = RParked e) -> version c <> seen r \/ sender_count c = 0 ->
     exists n c' r', (n <= 3)%nat /\
       foldl (fun o _ => c ← o; receiver_step j c) (exec (LPoll j) c) (seq 0 n) = Some c' /\
       receivers c' !! j = Some r' /\ r_pc r' = RHeld /\ wait c' = wait c /\
       got r' = Some (if version c =? seen r then Err tt else Ok tt)).
Proof.
  intros [I1 I2 I3 I4 I5 I6 I7 I8 I9 I10]%wt_reachable Hj. destruct (I10 j r Hj) as [_ _ _ _ O5]. split.
  { intros e Ep. rewrite Ep in O5. destruct O5 as [[?|?] [?|?]]; auto. }
  clear O5. intros Hp Hn. pose proof (lookup_lt_Some _ _ _ Hj) as Hlt.
  assert (exec (LPoll j) c = Some (set_receiver j (with_pc (RObserve None) r) c)) as ->.
  { cbn [exec]. rewrite Hj. simpl. by destruct Hp as [-> | [e ->]]. }
  assert (forall p c0, receivers (set_receiver j p c0) !! j = if decide (j < length (receivers c0))%nat then Some p else None) as Hl.
  { intros p c0. simpl. case_decide; [by apply list_lookup_insert_eq|]. apply lookup_ge_None. rewrite length_insert. lia. }
  destruct (Z.eqb_spec (version c) (seen r)) as [Ev|Ev].
  - destruct Hn as [?|Hz]; [done|].
    exists 3%nat. do 2 eexists. split; [lia|]. cbn [seq foldl mbind option_bind].
    unfold receiver_step at 3. rewrite Hl, decide_True by done. cbn. unfold try_observe_change. cbn.
    rewrite (proj2 (Z.eqb_eq _ _) Ev). cbn.
    unfold receiver_step at 2. cbn. rewrite list_lookup_insert_eq by (by rewrite length_insert). cbn.
    rewrite (proj2 (Z.eqb_eq _ _) Hz). unfold receiver_step. cbn.
    rewrite list_lookup_insert_eq by (by rewrite !length_insert). cbn. unfold try_observe_change. cbn.
    rewrite (proj2 (Z.eqb_eq _ _) Ev). split; [reflexivity|]. cbn.
    rewrite list_lookup_insert_eq by (by rewrite !length_insert). done.
  - exists 1%nat. do 2 eexists. split; [lia|]. cbn [seq foldl mbind option_bind].
    unfold receiver_step. rewrite Hl, decide_True by done. cbn. unfold try_observe_change. cbn.
    rewrite (proj2 (Z.eqb_neq _ _) Ev). split; [reflexivity|]. cbn.
    rewrite list_lookup_insert_eq by (by rewrite !length_insert). done.
Qed.

End watch.

(** *** Concrete executions *)

Fixpoint run {A} (ls : list (@label A)) (c : conf) : option conf :=
  match ls with [] => Some c | l :: ls' => c' ← exec l c; run ls' c' end.

Lemma wt_run_reachable {A} (ls : list (@label A)) c c' : run ls c = Some c' -> rtc step c c'.
Proof.
  revert c; induction ls as [|l ls IH]; intros c E; simpl in E; [by injection E as ->|].
  destruct (exec l c) as [c1|] eqn:E1; [|done]. eapply rtc_l; [by exists l|by apply IH].
Qed.

(** A receiver parks while two senders send and go. *)
Definition two_senders : list (@label nat) :=
  [LCloneSender 0; LPoll 0] ++ repeat (LReceiver 0) 5 ++
  [LSend 0 5%nat; LSend 1 6%nat; LSender 0; LSender 1; LSender 1; LSender 0] ++ repeat (LSender 0) 3 ++ repeat (LSender 1) 2 ++
  [LDropSender 0; LDropSender 1; LSender 0; LSender 1; LSender 1; LSender 1].

Lemma watch_sees_latest_witness :
  exists c r, run (two_senders ++ [LPoll 0; LReceiver 0; LPoll 0; LReceiver 0; LReceiver 0; LReceiver 0]) (channel 4%nat) = Some c /\
    receivers c !! 0%nat = Some r /\ got r = Some (Err tt) /\ at_send r = 2%nat /\ borrow c = 6%nat /\
    length (log c) = S (at_send r).
Proof.
  do 2 eexists. split; [vm_compute; reflexivity|]. split; [reflexivity|]. do 3 (split; [reflexivity|]).
  match goal with |- length (log ?c) = S (at_send ?r) =>
    destruct (watch_sees_latest 4%nat c) as (_ & _ & P); [|exact (proj2 (proj2 (proj2 (P 0%nat r eq_refl)) eq_refl eq_refl))] end.
  apply wt_run_reachable with (ls := two_senders ++ [LPoll 0; LReceiver 0; LPoll 0; LReceiver 0; LReceiver 0; LReceiver 0]).
  vm_compute. reflexivity.
Defined.

Lemma watch_parked_is_woken_witness :
  exists c r, run two_senders (channel 4%nat) = Some c /\ receivers c !! 0%nat = Some r /\ r_pc r = RParked 0 /\
    woken c = [0%nat].
Proof.
  do 2 eexists. split; [vm_compute; reflexivity|]. split; [reflexivity|]. split; [reflexivity|].
  match goal with |- woken ?c = _ => assert (rtc step (channel 4%nat) c) as H end.
  { apply wt_run_reachable with (ls := two_senders). vm_compute. reflexivity. }
  destruct (proj1 (watch_parked_is_woken 4%nat _ 0 _ H eq_refl) 0%nat eq_refl) as [_|_]; reflexivity.
Defined.

End Watch.
