(* ===== verification/Spsc.v ===== *)
(** * Spsc

    [SpscQueue] of [src/dtact-util/src/lockfree.rs]: the ring between one
    producer and one consumer, with free-running 64-bit counters, and its
    bulk operations.  A cell not yet written holds [None]; reading it would
    be undefined behaviour, rendered as [Panic]. *)

From S2P Require Import Prelude Ring Fifo.

Module Spsc.
Section spsc.
Context {A : Type}.

Record t := mk { head : Z; tail : Z; buffer : gmap Z (option A); capacity : Z }.

Definition is_power_of_two (n : Z) : bool := (0 <? n) && (Z.land n (n - 1) =? 0).

Definition new (cap : Z) : outcome t :=
  if is_power_of_two cap
  then Done {| head := 0; tail := 0; buffer := ∅; capacity := cap |}
  else Panic.

Definition push (value : A) (q : t) : result unit A * t :=
  if wsub 64 (tail q) (head q) =? capacity q then (Err value, q)
  else
    let mask := capacity q - 1 in
    let idx := Z.land (tail q) mask in
    (Ok tt, {| head := head q; tail := wadd 64 (tail q) 1;
               buffer := wr (buffer q) idx (Some value); capacity := capacity q |}).

Definition pop (q : t) : outcome (option A * t) :=
  if head q =? tail q then Done (None, q)
  else
    let mask := capacity q - 1 in
    let idx := Z.land (head q) mask in
    match rd None (buffer q) idx with
    | Some value =>
        Done (Some value, {| head := wadd 64 (head q) 1; tail := tail q;
                             buffer := buffer q; capacity := capacity q |})
    | None => Panic
    end.

Definition is_empty (q : t) : bool := head q =? tail q.
Definition is_full (q : t) : bool := wsub 64 (tail q) (head q) =? capacity q.
Definition len (q : t) : Z := wsub 64 (tail q) (head q).

Definition push_slice (src : list A) (q : t) : Z * t :=
  let free := capacity q - wsub 64 (tail q) (head q) in
  let to_push := Z.min free (Z.of_nat (length src)) in
  if to_push =? 0 then (0, q)
  else
    let mask := capacity q - 1 in
    let start := Z.land (tail q) mask in
    let first := Z.min to_push (capacity q - start) in
    let b1 := copy_to (buffer q) start (Some <$> take (Z.to_nat first) src) in
    let b2 := if first <? to_push
              then copy_to b1 0 (Some <$> take (Z.to_nat (to_push - first)) (drop (Z.to_nat first) src))
              else b1 in
    (to_push, {| head := head q; tail := wadd 64 (tail q) to_push; buffer := b2;
                 capacity := capacity q |}).

(** The first [to_pop] elements of [dst], then its length unchanged. *)
Definition pop_slice (dst_len : Z) (q : t) : Z * list (option A) * t :=
  let avail := wsub 64 (tail q) (head q) in
  let to_pop := Z.min avail dst_len in
  if to_pop =? 0 then (0, [], q)
  else
    let mask := capacity q - 1 in
    let start := Z.land (head q) mask in
    let first := Z.min to_pop (capacity q - start) in
    let d1 := copy_from None (buffer q) start (Z.to_nat first) in
    let d2 := if first <? to_pop
              then copy_from None (buffer q) 0 (Z.to_nat (to_pop - first)) else [] in
    (to_pop, d1 ++ d2, {| head := wadd 64 (head q) to_pop; tail := tail q;
                          buffer := buffer q; capacity := capacity q |}).

(** ** Abstraction *)

Definition cells (q : t) : list (option A) :=
  ring_list None (buffer q) (capacity q) (head q) (Z.to_nat (len q)).

Definition contents (q : t) : list A := omap id (cells q).

Record ok (q : t) : Prop := {
  sp_head : is_word 64 (head q);
  sp_tail : is_word 64 (tail q);
  sp_cap : exists k, 0 <= k <= 62 /\ capacity q = 2 ^ k;
  sp_len : len q <= capacity q;
  sp_init : exists l, cells q = Some <$> l
}.

Lemma sp_omap_some (l : list A) : omap id (Some <$> l) = l.
Proof. induction l as [|x l IH]; [done|].
  change (x :: omap id (Some <$> l) = x :: l). by rewrite IH.
Qed.

Lemma sp_cells q : ok q -> cells q = Some <$> contents q.
Proof. intros [_ _ _ _ [l E]]. unfold contents. by rewrite E, sp_omap_some. Qed.

Lemma sp_contents q l : cells q = Some <$> l -> contents q = l.
Proof. intros E. unfold contents. by rewrite E, sp_omap_some. Qed.

Lemma sp_len_range q : 0 <= len q < 2 ^ 64.
Proof. apply wrap_range. lia. Qed.

Lemma sp_length q : ok q -> Z.of_nat (length (contents q)) = len q.
Proof.
  intros Hok. pose proof (sp_len_range q). pose proof (f_equal length (sp_cells q Hok)) as E.
  unfold cells in E. rewrite length_ring_list, length_fmap in E. lia.
Qed.

Lemma sp_is_pow2 cap : is_power_of_two cap = true -> cap < 2 ^ 63 ->
  exists k, 0 <= k <= 62 /\ cap = 2 ^ k.
Proof.
  unfold is_power_of_two. intros H Hlt. bool_prop. exists (Z.log2 cap).
  pose proof (Z.log2_spec cap ltac:(lia)) as [Hlo Hhi]. pose proof (Z.log2_nonneg cap).
  assert (Z.log2 cap < 63) by (apply Z.log2_lt_pow2; lia).
  split; [lia|]. destruct (decide (cap = 2 ^ Z.log2 cap)); [done|exfalso].
  assert (Z.testbit (Z.land cap (cap - 1)) (Z.log2 cap) = true) as Ht.
  { rewrite Z.land_spec, Z.bit_log2 by lia. simpl.
    replace (Z.log2 cap) with (Z.log2 (cap - 1)); [apply Z.bit_log2; lia|].
    apply Z.log2_unique; lia. }
  rewrite H0, Z.bits_0 in Ht. done.
Qed.

Section facts.
Context (q : t).
Hypothesis Hok : ok q.

Lemma sp_cap_pos : 0 < capacity q <= 2 ^ 62.
Proof.
  destruct Hok as [_ _ (k & Hk & ->) _ _]. split; [apply Z.pow_pos_nonneg; lia|].
  apply Z.pow_le_mono_r; lia.
Qed.

Lemma sp_mask x : Z.land x (capacity q - 1) = x `mod` capacity q.
Proof. destruct Hok as [_ _ (k & Hk & ->) _ _]. apply land_mask. lia. Qed.

Lemma sp_wrap_mod x : wrap 64 x `mod` capacity q = x `mod` capacity q.
Proof. destruct Hok as [_ _ (k & Hk & ->) _ _]. apply (mod_sub_pow2 64). lia. Qed.

Lemma sp_tail_mod : tail q `mod` capacity q = (head q + len q) `mod` capacity q.
Proof.
  pose proof sp_cap_pos. unfold len, wsub. rewrite <- Zplus_mod_idemp_r, sp_wrap_mod, Zplus_mod_idemp_r.
  f_equal. lia.
Qed.

(** Moving the tail [k] cells over memory that holds [l] there. *)
Lemma sp_advance_tail b k l : 0 <= k -> len q + k <= capacity q ->
  ring_list None b (capacity q) (head q) (Z.to_nat (len q) + Z.to_nat k) = cells q ++ (Some <$> l) ->
  let q' := {| head := head q; tail := wadd 64 (tail q) k; buffer := b; capacity := capacity q |} in
  ok q' /\ contents q' = contents q ++ l /\ len q' = len q + k.
Proof.
  intros Hk Hle Hr q'. pose proof sp_cap_pos. pose proof (sp_len_range q).
  assert (len q' = len q + k) as El.
  { unfold len, q', wsub, wadd, wrap. simpl. rewrite Zminus_mod_idemp_l.
    replace (tail q + k - head q) with ((tail q - head q) + k) by lia.
    rewrite <- Zplus_mod_idemp_l. fold (wrap 64 (tail q - head q)). fold (wsub 64 (tail q) (head q)).
    fold (len q). apply Z.mod_small. lia. }
  assert (cells q' = Some <$> (contents q ++ l)) as Ec.
  { unfold cells. rewrite El, Z2Nat.inj_add by lia. unfold q'. simpl.
    by rewrite Hr, fmap_app, <- sp_cells. }
  split; [|split; [by apply sp_contents|done]].
  destruct Hok as [? ? ? ? _]. split; try done; [apply wrap_range; lia|rewrite El; simpl; lia|eauto].
Qed.

(** Moving the head [k] cells drops the [k] oldest elements. *)
Lemma sp_advance_head k : 0 <= k <= len q ->
  let q' := {| head := wadd 64 (head q) k; tail := tail q; buffer := buffer q;
               capacity := capacity q |} in
  ok q' /\ contents q' = drop (Z.to_nat k) (contents q) /\
  ring_list None (buffer q) (capacity q) (head q) (Z.to_nat k)
    = Some <$> take (Z.to_nat k) (contents q).
Proof.
  intros Hk q'. pose proof sp_cap_pos. pose proof (sp_len_range q). pose proof (sp_len _ Hok).
  assert (len q' = len q - k) as El.
  { unfold len, q', wsub, wadd, wrap. simpl. rewrite Zminus_mod_idemp_r.
    replace (tail q - (head q + k)) with ((tail q - head q) - k) by lia.
    rewrite <- Zminus_mod_idemp_l. fold (wrap 64 (tail q - head q)). fold (wsub 64 (tail q) (head q)).
    fold (len q). apply Z.mod_small. lia. }
  assert (cells q = ring_list None (buffer q) (capacity q) (head q) (Z.to_nat k) ++ cells q') as Ec.
  { unfold cells at 1. replace (Z.to_nat (len q)) with (Z.to_nat k + Z.to_nat (len q - k))%nat by lia.
    rewrite ring_list_app. f_equal. unfold cells. rewrite El. unfold q'. simpl.
    apply ring_list_ext. intros j Hj. f_equal. unfold wadd.
    rewrite <- (Zplus_mod_idemp_l (wrap 64 _)), sp_wrap_mod, Zplus_mod_idemp_l. f_equal. lia. }
  rewrite sp_cells in Ec by done. rewrite <- (take_drop (Z.to_nat k) (contents q)), fmap_app in Ec.
  pose proof (sp_length q Hok).
  apply app_inj_1 in Ec as [E1 E2].
  2:{ rewrite length_ring_list, length_fmap, length_take. lia. }
  split; [|split; [by apply sp_contents|done]].
  destruct Hok as [? ? ? ? _]. split; try done; [apply wrap_range; lia|rewrite El; simpl; lia|eauto].
Qed.

Lemma sp_push v : len q < capacity q ->
  exists q', push v q = (Ok tt, q') /\ ok q' /\ contents q' = contents q ++ [v] /\
    capacity q' = capacity q.
Proof.
  intros Hl. pose proof sp_cap_pos. pose proof (sp_len_range q). unfold push. fold (len q).
  rewrite (proj2 (Z.eqb_neq _ _)) by lia. rewrite sp_mask, sp_tail_mod.
  edestruct (sp_advance_tail (wr (buffer q) ((head q + len q) `mod` capacity q) (Some v)) 1 [v])
    as (? & ? & _); [lia|lia| |by eexists].
  rewrite <- (Z2Nat.id (len q)) at 1 by lia. change (Z.to_nat 1) with 1%nat.
  rewrite Nat.add_1_r. apply ring_list_push; lia.
Qed.

Lemma sp_push_full v : len q = capacity q -> push v q = (Err v, q).
Proof. intros Hl. unfold push. fold (len q). by rewrite Hl, Z.eqb_refl. Qed.

Lemma sp_empty : (head q =? tail q) = (len q =? 0).
Proof.
  destruct Hok as [[? ?] [? ?] _ _ _]. unfold len, wsub, wrap.
  apply eq_bool_prop_intro. rewrite !Is_true_true, !Z.eqb_eq. split.
  - intros ->. by rewrite Z.sub_diag.
  - intros E. destruct (proj1 (Z.mod_divide (tail q - head q) (2 ^ 64) ltac:(lia)) E) as [z Hz]. nia.
Qed.

Lemma sp_pop v l : contents q = v :: l ->
  exists q', pop q = Done (Some v, q') /\ ok q' /\ contents q' = l /\ capacity q' = capacity q.
Proof.
  intros E. pose proof (sp_length q Hok) as Hl. rewrite E in Hl. cbn [length] in Hl.
  destruct (sp_advance_head 1) as (Hok' & Hc & Hr); [lia|].
  unfold pop. rewrite sp_empty, (proj2 (Z.eqb_neq _ _)) by lia. rewrite sp_mask.
  rewrite E in Hr, Hc. change (Z.to_nat 1) with 1%nat in *. simpl in Hr, Hc.
  rewrite ring_list_S_l in Hr. injection Hr as Hv. rewrite Hv. by eexists.
Qed.

Lemma sp_pop_empty : contents q = [] -> pop q = Done (None, q).
Proof.
  intros E. pose proof (sp_length q Hok) as Hl. rewrite E in Hl.
  unfold pop. by rewrite sp_empty, <- Hl.
Qed.

Lemma sp_push_slice src :
  let n := Z.min (capacity q - len q) (Z.of_nat (length src)) in
  exists q', push_slice src q = (n, q') /\ ok q' /\
    contents q' = contents q ++ take (Z.to_nat n) src /\ capacity q' = capacity q.
Proof.
  intros n. pose proof sp_cap_pos. pose proof (sp_len_range q). pose proof (sp_len _ Hok).
  unfold push_slice. fold (len q). fold n. case_test.
  { exists q. rewrite E. simpl. by rewrite app_nil_r. }
  rewrite sp_mask, sp_tail_mod. set (start := (head q + len q) `mod` capacity q).
  pose proof (Z.mod_pos_bound (head q + len q) (capacity q) ltac:(lia)) as Hst. fold start in Hst.
  set (first := Z.min n (capacity q - start)).
  set (b1 := copy_to (buffer q) start (Some <$> take (Z.to_nat first) src)).
  assert (length (Some <$> take (Z.to_nat first) src) = Z.to_nat first) as Hl1.
  { rewrite length_fmap, length_take. lia. }
  assert (ring_list None b1 (capacity q) (head q) (Z.to_nat (len q) + Z.to_nat first)
          = cells q ++ (Some <$> take (Z.to_nat first) src)) as Hb1.
  { pose proof (ring_list_copy None (buffer q) (capacity q) (head q) (Z.to_nat (len q))
                  (Some <$> take (Z.to_nat first) src)) as Hcp.
    rewrite Hl1, Z2Nat.id in Hcp by lia. fold start in Hcp. apply Hcp; lia. }
  case_test.
  - set (snd := take (Z.to_nat (n - first)) (drop (Z.to_nat first) src)).
    assert (length (Some <$> snd) = Z.to_nat (n - first)) as Hl2.
    { unfold snd. rewrite length_fmap, length_take, length_drop. lia. }
    assert ((head q + Z.of_nat (Z.to_nat (len q) + Z.to_nat first)) `mod` capacity q = 0) as E0'.
    { replace (head q + Z.of_nat (Z.to_nat (len q) + Z.to_nat first)) with (head q + len q + first) by lia.
      rewrite <- Zplus_mod_idemp_l. fold start. replace (start + first) with (capacity q) by lia.
      apply Z.mod_same. lia. }
    edestruct (sp_advance_tail (copy_to b1 0 (Some <$> snd)) n (take (Z.to_nat n) src))
      as (? & ? & _); [lia|lia| |by eexists].
    replace (Z.to_nat n) with (Z.to_nat first + Z.to_nat (n - first))%nat by lia.
    rewrite Nat.add_assoc, <- Hl2.
    replace (copy_to b1 0 (Some <$> snd)) with
      (copy_to b1 ((head q + Z.of_nat (Z.to_nat (len q) + Z.to_nat first)) `mod` capacity q) (Some <$> snd))
      by (by rewrite E0').
    rewrite ring_list_copy by (rewrite ?E0'; lia). rewrite Hb1, <- app_assoc, <- fmap_app. do 2 f_equal.
    rewrite Hl2. unfold snd. by rewrite take_take_drop.
  - assert (first = n) as Ef by lia. rewrite Ef in *.
    edestruct (sp_advance_tail b1 n (take (Z.to_nat n) src)) as (? & ? & _); [lia|lia|done|by eexists].
Qed.

Lemma sp_pop_slice dst_len : 0 <= dst_len ->
  let n := Z.min (len q) dst_len in
  exists q', pop_slice dst_len q = (n, Some <$> take (Z.to_nat n) (contents q), q') /\ ok q' /\
    contents q' = drop (Z.to_nat n) (contents q) /\ capacity q' = capacity q.
Proof.
  intros Hd n. pose proof sp_cap_pos. pose proof (sp_len_range q). pose proof (sp_len _ Hok).
  unfold pop_slice. fold (len q). fold n. case_test.
  { exists q. by rewrite E. }
  destruct (sp_advance_head n) as (Hok' & Hc & Hr); [lia|].
  rewrite sp_mask. set (start := head q `mod` capacity q).
  pose proof (Z.mod_pos_bound (head q) (capacity q) ltac:(lia)) as Hst. fold start in Hst.
  set (first := Z.min n (capacity q - start)). eexists. split; [|done]. f_equal. f_equal.
  rewrite <- Hr. replace (Z.to_nat n) with (Z.to_nat first + Z.to_nat (n - first))%nat by lia.
  rewrite ring_list_app. f_equal.
  - unfold start. apply copy_from_ring; [lia|]. fold start. lia.
  - case_test; [|replace (n - first) with 0 by lia; done].
    assert ((head q + Z.of_nat (Z.to_nat first)) `mod` capacity q = 0) as E1.
    { rewrite Z2Nat.id, <- Zplus_mod_idemp_l by lia. fold start.
      replace (start + first) with (capacity q) by lia. apply Z.mod_same. lia. }
    rewrite <- E1 at 1. rewrite copy_from_ring; [done|lia|]. rewrite E1. lia.
Qed.
End facts.

#[global] Instance spsc_fifo : FifoQueue t A := {|
  q_ok := ok; q_list := contents; q_cap := fun q => Z.to_nat (capacity q);
  q_push := fun v q => Done (push v q); q_pop := pop |}.

#[global] Instance spsc_laws : FifoLaws t A.
Proof.
  split; simpl.
  - intros q x Hok Hl. pose proof (sp_length q Hok). pose proof (sp_cap_pos q Hok).
    destruct (sp_push q Hok x) as (q' & -> & ? & ? & Ec); [lia|]. exists q'. by rewrite Ec.
  - intros q x Hok Hl. pose proof (sp_length q Hok). pose proof (sp_cap_pos q Hok).
    by rewrite sp_push_full by lia.
  - intros q x l Hok E. destruct (sp_pop q Hok x l E) as (q' & -> & ? & ? & Ec).
    exists q'. by rewrite Ec.
  - intros. by apply sp_pop_empty.
  - intros q Hok. pose proof (sp_length q Hok). pose proof (sp_len _ Hok). lia.
Qed.

Lemma sp_new_ok cap q : new cap = Done q -> cap < 2 ^ 63 -> ok q /\ contents q = [] /\ capacity q = cap.
Proof.
  unfold new. case_match; [|done]. intros E Hc. simplify_eq.
  destruct (sp_is_pow2 cap H Hc) as (k & Hk & Ec).
  assert (0 < cap) by (rewrite Ec; apply Z.pow_pos_nonneg; lia).
  split; [|done]. split; simpl; try done; [by exists k| |by exists []].
  change (len _) with 0. lia.
Qed.
End spsc.
Arguments t : clear implicits.
End Spsc.

(** The bulk operations of [SpscQueue] are the one-by-one operations:
    [push_slice] appends the longest prefix of its source that fits and
    reports its length, [pop_slice] takes the longest prefix of the queue
    that fits the destination, in order and never reading an uninitialised
    cell, also where the run wraps past the end of the buffer and where the
    64-bit counters wrap. *)
Theorem spsc_bulk_operations (A : Type) (q : Spsc.t A) (src : list A) (dst_len : Z) :
  Spsc.ok q -> 0 <= dst_len ->
  (let n := Z.min (Spsc.capacity q - Spsc.len q) (Z.of_nat (length src)) in
   exists q', Spsc.push_slice src q = (n, q') /\ Spsc.ok q' /\
     Spsc.contents q' = Spsc.contents q ++ take (Z.to_nat n) src) /\
  (let m := Z.min (Spsc.len q) dst_len in
   exists q', Spsc.pop_slice dst_len q = (m, Some <$> take (Z.to_nat m) (Spsc.contents q), q') /\
     Spsc.ok q' /\ Spsc.contents q' = drop (Z.to_nat m) (Spsc.contents q)).
Proof.
  intros Hok Hd. split.
  - destruct (Spsc.sp_push_slice q Hok src) as (q' & ? & ? & ? & _). by exists q'.
  - destruct (Spsc.sp_pop_slice q Hok dst_len Hd) as (q' & ? & ? & ? & _). by exists q'.
Qed.

Lemma spsc_bulk_operations_witness :
  exists q q' : Spsc.t Z, Spsc.new 4 = Done q /\
    Spsc.push_slice [1; 2; 3; 4; 5] q = (4, q') /\ Spsc.contents q' = [1; 2; 3; 4].
Proof.
  destruct (Spsc.new (A := Z) 4) as [q| |] eqn:E; try discriminate E.
  destruct (Spsc.sp_new_ok 4 q E ltac:(lia)) as (Hok & Hc & Hcap).
  assert (Spsc.len q = 0) as Hl by (rewrite <- Spsc.sp_length, Hc by done; done).
  destruct (spsc_bulk_operations Z q [1; 2; 3; 4; 5] 0 Hok ltac:(lia)) as [(q' & Ep & _ & Ec) _].
  rewrite Hcap, Hl in Ep, Ec. rewrite Hc in Ec. by exists q, q'.
Defined.
