(* ===== verification/WakerSlot.v ===== *)
(** * WakerSlot

    [AtomicWakerSlot] and [OnceSlot] of [src/dtact-util/src/lockfree.rs],
    interleaved access by access.  The waker stored is that of the single
    polling task, so the cell holds it or not; "awake" records that the
    task has been woken since it last started to poll.  The threads'
    programs are functions from the program point to the next one, and the
    interleavings a relation over them; the state spaces are finite, and the
    theorems about [OnceSlot] are proved by exploring them (ModelCheck.v). *)

From S2P Require Import Prelude ModelCheck.

Module WakerSlot.

Inductive slot_state := WAITING | REGISTERING | WAKING | REGISTERING_WAKING.

#[global] Instance slot_state_eq_dec : EqDecision slot_state.
Proof. solve_decision. Defined.

(** [state] and whether the cell holds the task's waker. *)
Record slot := mkSlot { state : slot_state; cell : bool }.

#[global] Instance slot_eq_dec : EqDecision slot.
Proof. solve_decision. Defined.

Definition new : slot := {| state := WAITING; cell := false |}.

(** Program points of [register]. *)
Inductive reg_pc :=
| RCas
| RCell
| RRelease
| RTake
| RReset (taken : bool)
| RWake (taken : bool)
| RWakeByRef
| RDone.

#[global] Instance reg_pc_eq_dec : EqDecision reg_pc.
Proof. solve_decision. Defined.

(** One access of [register]: the slot after it, the next point, and whether
    the task is woken by it. *)
Definition reg_step (s : slot) (pc : reg_pc) : option (slot * reg_pc * bool) :=
  match pc with
  | RCas =>
      if bool_decide (state s = WAITING)
      then Some ({| state := REGISTERING; cell := cell s |}, RCell, false)
      else Some (s, RWakeByRef, false)
  | RCell => Some ({| state := state s; cell := true |}, RRelease, false)
  | RRelease =>
      if bool_decide (state s = REGISTERING)
      then Some ({| state := WAITING; cell := cell s |}, RDone, false)
      else Some (s, RTake, false)
  | RTake => Some ({| state := state s; cell := false |}, RReset (cell s), false)
  | RReset b => Some ({| state := WAITING; cell := cell s |}, RWake b, false)
  | RWake b => Some (s, RDone, b)
  | RWakeByRef => Some (s, RDone, true)
  | RDone => None
  end.

(** Program points of [take_and_wake]. *)
Inductive wake_pc :=
| WCas
| WTake
| WReset (taken : bool)
| WWake (taken : bool)
| WOr
| WDone.

#[global] Instance wake_pc_eq_dec : EqDecision wake_pc.
Proof. solve_decision. Defined.

(** [state.fetch_or(WAKING)] *)
Definition or_waking (st : slot_state) : slot_state :=
  match st with
  | WAITING | WAKING => WAKING
  | REGISTERING | REGISTERING_WAKING => REGISTERING_WAKING
  end.

Definition wake_step (s : slot) (pc : wake_pc) : option (slot * wake_pc * bool) :=
  match pc with
  | WCas =>
      if bool_decide (state s = WAITING)
      then Some ({| state := WAKING; cell := cell s |}, WTake, false)
      else Some (s, WOr, false)
  | WTake => Some ({| state := state s; cell := false |}, WReset (cell s), false)
  | WReset b => Some ({| state := WAITING; cell := cell s |}, WWake b, false)
  | WWake b => Some (s, WDone, b)
  | WOr => Some ({| state := or_waking (state s); cell := cell s |}, WDone, false)
  | WDone => None
  end.

(** ** One registering task and two waking threads *)

Record conf := mkConf {
  sl : slot;
  reg : reg_pc;
  wk1 : wake_pc;
  wk2 : wake_pc;
  awake : bool
}.

#[global] Instance conf_eq_dec : EqDecision conf.
Proof. solve_decision. Defined.

(** Every thread repeats its operation; starting to register forgets an
    earlier wake. *)
Definition succs (c : conf) : list conf :=
  (match reg_step (sl c) (reg c) with
   | Some (s, p, w) => [mkConf s p (wk1 c) (wk2 c) (awake c || w)]
   | None => [mkConf (sl c) RCas (wk1 c) (wk2 c) false]
   end) ++
  (match wake_step (sl c) (wk1 c) with
   | Some (s, p, w) => [mkConf s (reg c) p (wk2 c) (awake c || w)]
   | None => [mkConf (sl c) (reg c) WCas (wk2 c) (awake c)]
   end) ++
  (match wake_step (sl c) (wk2 c) with
   | Some (s, p, w) => [mkConf s (reg c) (wk1 c) p (awake c || w)]
   | None => [mkConf (sl c) (reg c) (wk1 c) WCas (awake c)]
   end).

Definition start : conf := mkConf new RDone WDone WDone false.

(** The threads about to touch the cell. *)
Definition in_cell (c : conf) : nat :=
  (match reg c with RCell | RTake => 1 | _ => 0 end +
   match wk1 c with WTake => 1 | _ => 0 end +
   match wk2 c with WTake => 1 | _ => 0 end)%nat.

(** ** The state word is a lock on the cell *)

Definition reg_holds (p : reg_pc) : nat :=
  match p with RCell | RRelease | RTake | RReset _ => 1 | _ => 0 end.
Definition wake_holds (p : wake_pc) : nat :=
  match p with WTake | WReset _ => 1 | _ => 0 end.

(** A step acquires the lock from [WAITING], gives it back, or changes
    neither the holder nor, to [WAITING], the state. *)
Definition lock_move (s s' : slot) (h h' : nat) : Prop :=
  (state s = WAITING /\ h = 0%nat /\ h' = 1%nat /\ state s' <> WAITING) \/
  (h = 1%nat /\ h' = 0%nat) \/
  (h' = h /\ (state s' = WAITING -> state s = WAITING)).

Lemma ws_reg_move s p s' p' w : reg_step s p = Some (s', p', w) ->
  lock_move s s' (reg_holds p) (reg_holds p').
Proof.
  unfold lock_move. destruct s as [st c], p; simpl; try case_bool_decide; intros E;
    simplify_eq/=; auto 10.
Qed.

Lemma ws_wake_move s p s' p' w : wake_step s p = Some (s', p', w) ->
  lock_move s s' (wake_holds p) (wake_holds p').
Proof.
  unfold lock_move. destruct s as [st c], p; simpl; try case_bool_decide; intros E;
    simplify_eq/=; auto 10. right. right. by destruct st.
Qed.

Definition inv (c : conf) : Prop :=
  (reg_holds (reg c) + wake_holds (wk1 c) + wake_holds (wk2 c) <= 1)%nat /\
  (state (sl c) = WAITING ->
   reg_holds (reg c) + wake_holds (wk1 c) + wake_holds (wk2 c) = 0)%nat.

Lemma ws_lock_inv s s' h h' k : lock_move s s' h h' ->
  (h + k <= 1)%nat /\ (state s = WAITING -> h + k = 0)%nat ->
  (h' + k <= 1)%nat /\ (state s' = WAITING -> h' + k = 0)%nat.
Proof. intros [(E & -> & -> & ?)|[[-> ->]|[-> ?]]] [? Hw]; [specialize (Hw E)|..]; split; (lia || naive_solver lia). Qed.

Lemma ws_inv_step c c' : inv c -> step_of succs c c' -> inv c'.
Proof.
  unfold step_of, succs, inv. intros Hi Hs. rewrite !elem_of_app in Hs.
  destruct Hs as [Hs|[Hs|Hs]].
  - destruct (reg_step _ _) as [[[s p] w]|] eqn:E; apply list_elem_of_singleton in Hs as ->; simpl.
    + apply ws_reg_move in E. rewrite <- !Nat.add_assoc in *. by eapply ws_lock_inv.
    + destruct c as [sc r1 p1 p2 aw]; simpl in *. destruct r1; simpl in *; try case_bool_decide; simplify_eq/=; done.
  - destruct (wake_step _ _) as [[[s p] w]|] eqn:E; apply list_elem_of_singleton in Hs as ->; simpl.
    + apply ws_wake_move in E.
      rewrite (Nat.add_comm (reg_holds _)), <- !Nat.add_assoc in *. by eapply ws_lock_inv.
    + destruct c as [sc r1 p1 p2 aw]; simpl in *. destruct p1; simpl in *; try case_bool_decide; simplify_eq/=; done.
  - destruct (wake_step _ _) as [[[s p] w]|] eqn:E; apply list_elem_of_singleton in Hs as ->; simpl.
    + apply ws_wake_move in E. rewrite (Nat.add_comm _ (wake_holds (wk2 c))) in Hi.
      rewrite (Nat.add_comm _ (wake_holds p)). by eapply ws_lock_inv.
    + destruct c as [sc r1 p1 p2 aw]; simpl in *. destruct p2; simpl in *; try case_bool_decide; simplify_eq/=; done.
Qed.

Lemma ws_in_cell c : (in_cell c <= reg_holds (reg c) + wake_holds (wk1 c) + wake_holds (wk2 c))%nat.
Proof. unfold in_cell. destruct (reg c), (wk1 c), (wk2 c); simpl; lia. Qed.
End WakerSlot.

Module OnceSlot.
Import WakerSlot.

(** Program points of [set] and [poll]. *)
Inductive set_pc := SSwap | SWake (p : wake_pc) | SDone.
Inductive poll_pc :=
| PLoad
| PSwap1
| PRegister (p : reg_pc)
| PSwap2
| PReady
| PParked.

#[global] Instance set_pc_eq_dec : EqDecision set_pc.
Proof. solve_decision. Defined.
#[global] Instance poll_pc_eq_dec : EqDecision poll_pc.
Proof. solve_decision. Defined.

(** [ptr]: whether the boxed value is in the slot. *)
Record conf := mkConf { ptr : bool; waker : slot; setter : set_pc; poller : poll_pc; awake : bool }.

#[global] Instance conf_eq_dec : EqDecision conf.
Proof. solve_decision. Defined.

Definition set_step (c : conf) : list conf :=
  match setter c with
  | SSwap => [mkConf true (waker c) (SWake WCas) (poller c) (awake c)]
  | SWake p =>
      match wake_step (waker c) p with
      | Some (s, p', w) => [mkConf (ptr c) s (SWake p') (poller c) (awake c || w)]
      | None => [mkConf (ptr c) (waker c) SDone (poller c) (awake c)]
      end
  | SDone => []
  end.

(** A parked task polls again only after it was woken. *)
Definition poll_step (c : conf) : list conf :=
  match poller c with
  | PLoad =>
      [mkConf (ptr c) (waker c) (setter c) (if ptr c then PSwap1 else PRegister RCas) (awake c)]
  | PSwap1 =>
      [mkConf false (waker c) (setter c) (if ptr c then PReady else PRegister RCas) (awake c)]
  | PRegister p =>
      match reg_step (waker c) p with
      | Some (s, p', w) => [mkConf (ptr c) s (setter c) (PRegister p') (awake c || w)]
      | None => [mkConf (ptr c) (waker c) (setter c) PSwap2 (awake c)]
      end
  | PSwap2 =>
      [mkConf false (waker c) (setter c) (if ptr c then PReady else PParked) (awake c)]
  | PReady => []
  | PParked => if awake c then [mkConf (ptr c) (waker c) (setter c) PLoad false] else []
  end.

Definition succs (c : conf) : list conf := set_step c ++ poll_step c.

Definition start : conf := mkConf false new SSwap PLoad false.

Definition all_states : list conf := explore succs 2000 [start] [start].

Definition is_set (c : conf) : bool := match setter c with SSwap => false | _ => true end.
Definition is_ready (c : conf) : bool := bool_decide (poller c = PReady).

(** Once set, the value is in exactly one place: the slot or the poller. *)
Definition value_once (c : conf) : bool :=
  if is_set c then xorb (ptr c) (is_ready c) else negb (ptr c) && negb (is_ready c).

(** A configuration where no thread can move has delivered the value. *)
Definition not_stuck (c : conf) : bool :=
  match succs c with [] => is_ready c | _ => true end.
End OnceSlot.

(** However a registration and two deliveries interleave and repeat on
    one [AtomicWakerSlot], at most one thread touches the cell at a time. *)
Theorem waker_slot_exclusive (c : WakerSlot.conf) :
  rtc (step_of WakerSlot.succs) WakerSlot.start c -> (WakerSlot.in_cell c <= 1)%nat.
Proof.
  intros Hr. assert (WakerSlot.inv c) as [Hi _].
  { assert (WakerSlot.inv WakerSlot.start) as H0 by (split; simpl; lia).
    induction Hr; eauto using WakerSlot.ws_inv_step. }
  pose proof (WakerSlot.ws_in_cell c). lia.
Qed.

(** Thread 1 takes the lock and is in the cell. *)
Lemma waker_slot_exclusive_witness :
  exists c, rtc (step_of WakerSlot.succs) WakerSlot.start c /\ WakerSlot.wk1 c = WakerSlot.WTake /\
    (WakerSlot.in_cell c <= 1)%nat.
Proof.
  set (c := WakerSlot.mkConf (WakerSlot.mkSlot WakerSlot.WAKING false)
              WakerSlot.RDone WakerSlot.WTake WakerSlot.WDone false).
  assert (rtc (step_of WakerSlot.succs) WakerSlot.start c) as Hr.
  { eapply (rtc_l _ _ (WakerSlot.mkConf WakerSlot.new WakerSlot.RDone WakerSlot.WCas WakerSlot.WDone false));
      [by apply member_spec|]. apply rtc_once. by apply member_spec. }
  exists c. split_and!; [done|done|]. by apply (waker_slot_exclusive c).
Defined.

(** [OnceSlot] loses neither the value nor the wake-up: in every
    interleaving of one [set] with a task that polls whenever it is woken,
    the value is, once set, in exactly one of the slot and the task, and no
    configuration is stuck before the task has it. *)
Theorem once_slot_delivers (c : OnceSlot.conf) :
  rtc (step_of OnceSlot.succs) OnceSlot.start c ->
  OnceSlot.value_once c = true /\ OnceSlot.not_stuck c = true.
Proof.
  intros Hr. apply andb_true_iff. revert c Hr.
  apply (checked_reachable OnceSlot.succs OnceSlot.start OnceSlot.all_states
           (fun c => OnceSlot.value_once c && OnceSlot.not_stuck c)); exact eq_refl.
Qed.

(** The value is set while the task is registering. *)
Lemma once_slot_delivers_witness :
  exists c, rtc (step_of OnceSlot.succs) OnceSlot.start c /\ OnceSlot.ptr c = true /\
    OnceSlot.poller c = OnceSlot.PRegister WakerSlot.RCas /\ OnceSlot.value_once c = true.
Proof.
  set (c := OnceSlot.mkConf true WakerSlot.new (OnceSlot.SWake WakerSlot.WCas)
              (OnceSlot.PRegister WakerSlot.RCas) false).
  assert (rtc (step_of OnceSlot.succs) OnceSlot.start c) as Hr.
  { eapply (rtc_l _ _ (OnceSlot.mkConf false WakerSlot.new OnceSlot.SSwap
                         (OnceSlot.PRegister WakerSlot.RCas) false)); [by apply member_spec|].
    apply rtc_once. by apply member_spec. }
  exists c. split_and!; [done|done|done|]. by apply (once_slot_delivers c).
Defined.

(** On its own the slot can lose a delivery: a [take_and_wake] that
    fails its compare-exchange because a registration is in flight, and sets
    the [WAKING] bit only after that registration has released the slot,
    leaves the waker stored, nobody woken, and the state [WAKING] with no
    thread in it; every later registration then finds the slot taken. *)
Theorem waker_slot_loses_delivery :
  exists c, rtc (step_of WakerSlot.succs) WakerSlot.start c /\
    WakerSlot.reg c = WakerSlot.RDone /\ WakerSlot.wk1 c = WakerSlot.WDone /\
    WakerSlot.wk2 c = WakerSlot.WDone /\ WakerSlot.cell (WakerSlot.sl c) = true /\
    WakerSlot.awake c = false /\ WakerSlot.state (WakerSlot.sl c) = WakerSlot.WAKING /\
    WakerSlot.reg_step (WakerSlot.sl c) WakerSlot.RCas
      = Some (WakerSlot.sl c, WakerSlot.RWakeByRef, false).
Proof.
  set (k := fun st ce r w => WakerSlot.mkConf (WakerSlot.mkSlot st ce) r w WakerSlot.WDone false).
  exists (k WakerSlot.WAKING true WakerSlot.RDone WakerSlot.WDone). split; [|done].
  eapply (rtc_l _ _ (k WakerSlot.WAITING false WakerSlot.RCas WakerSlot.WDone)); [by apply member_spec|].
  eapply (rtc_l _ _ (k WakerSlot.REGISTERING false WakerSlot.RCell WakerSlot.WDone)); [by apply member_spec|].
  eapply (rtc_l _ _ (k WakerSlot.REGISTERING false WakerSlot.RCell WakerSlot.WCas)); [by apply member_spec|].
  eapply (rtc_l _ _ (k WakerSlot.REGISTERING false WakerSlot.RCell WakerSlot.WOr)); [by apply member_spec|].
  eapply (rtc_l _ _ (k WakerSlot.REGISTERING true WakerSlot.RRelease WakerSlot.WOr)); [by apply member_spec|].
  eapply (rtc_l _ _ (k WakerSlot.WAITING true WakerSlot.RDone WakerSlot.WOr)); [by apply member_spec|].
  apply rtc_once. by apply member_spec.
Qed.
