(* ===== verification/Locks.v ===== *)
(** * Locks

    [Mutex], [Semaphore], [RwLock], [OnceCell] and [Notify] of [dtact_util::sync]
    (src/dtact-util/src/sync/): any number of tasks, interleaved access by
    access.  They share one shape, [poll_lock] of mutex.rs: try, register
    with the wait queue, try again, and cancel the registration if that
    succeeded; releasing changes the state and then wakes.  The class
    [Lock] holds what differs.

    The wait queue is its ring ([WaitQueue]) as a list, with one entry popped and
    woken per step; entries are numbered in the order of registration, and at most 256
    are queued.  A parked task may be polled at any time, notified or
    not, as [wait_pinned] does while it spins, and its future may be dropped. *)

From Stdlib Require Import Sorted.
From S2P Require Import Prelude ModelCheck.

(** What a release does to the wait queue. *)
Inductive wake_kind := NoWake | WakeOne | WakeAll.

Class Lock (St M : Type) := {
  (** One attempt: the new state, or failure. *)
  try_acquire : M -> St -> option St;
  release : M -> St -> St * wake_kind;
  (** Whether the first attempt is skipped while somebody waits. *)
  gated : M -> bool;
  (** What a failed first attempt goes on to try instead of registering. *)
  fallback : M -> option M
}.
Arguments gated St {M _} m.
Arguments fallback St {M _} m.

Module Sys.
Section system.
Context {St M : Type} `{!Lock St M} (modes : list M).

Record entry := mkEntry { e_id : nat; e_task : nat; e_valid : bool }.

(** Program points of a task. *)
Inductive pc :=
| Idle
| Gate (m : M)                    (* poll: look for waiters *)
| Fast (m : M)                    (* first attempt *)
| Register (m : M)
| Recheck (m : M) (e : nat)
| Cancel (m : M) (e : nat)        (* acquired: retract the registration *)
| Parked (m : M) (e : nat)        (* the poll returned [Pending] *)
| Holds (m : M)
| WakingOne
| Snapshot                        (* [wake_all]: read the enqueue position *)
| WakingAll (target : nat).

Record task := mkTask { t_pc : pc; notified : bool }.

Record conf := mkConf {
  lk : St;
  queue : list entry;
  next : nat;
  tasks : list task
}.

Definition set_pc (i : nat) (p : pc) (c : conf) : conf :=
  mkConf (lk c) (queue c) (next c)
    (alter (fun t => mkTask p (notified t)) i (tasks c)).

Definition set_lk (s : St) (c : conf) : conf := mkConf s (queue c) (next c) (tasks c).
Definition set_queue (q : list entry) (c : conf) : conf := mkConf (lk c) q (next c) (tasks c).

(** The waker of task [i]. *)
Definition notify (i : nat) (c : conf) : conf :=
  mkConf (lk c) (queue c) (next c) (alter (fun t => mkTask (t_pc t) true) i (tasks c)).

Definition cancel (e : nat) (q : list entry) : list entry :=
  (fun x => if (e_id x =? e)%nat then mkEntry (e_id x) (e_task x) false else x) <$> q.

(** An entry is popped, and woken if it is valid. *)
Definition pop_wake (x : entry) (q : list entry) (c : conf) : conf :=
  if e_valid x then notify (e_task x) (set_queue q c) else set_queue q c.

(** The poll of a parked task: its waker's notification is used up. *)
Definition repoll (i : nat) (m : M) (c : conf) : conf :=
  mkConf (lk c) (queue c) (next c) (alter (fun _ => mkTask (Gate m) false) i (tasks c)).

Definition has_waiters (c : conf) : bool := match queue c with [] => false | _ => true end.

(** One access of task [i]. *)
Definition task_step (i : nat) (p : pc) (c : conf) : list conf :=
  match p with
  | Idle => (fun m => set_pc i (Gate m) c) <$> modes
  | Gate m => [set_pc i (if gated St m && has_waiters c then Register m else Fast m) c]
  | Fast m =>
      match try_acquire m (lk c) with
      | Some s => [set_pc i (Holds m) (set_lk s c)]
      | None => [set_pc i (match fallback St m with Some m' => Fast m' | None => Register m end) c]
      end
  | Register m =>
      [set_pc i (Recheck m (next c))
         (mkConf (lk c) (queue c ++ [mkEntry (next c) i true]) (S (next c)) (tasks c))]
  | Recheck m e =>
      match try_acquire m (lk c) with
      | Some s => [set_pc i (Cancel m e) (set_lk s c)]
      | None => [set_pc i (Parked m e) c]
      end
  | Cancel m e => [set_pc i (Holds m) (set_queue (cancel e (queue c)) c)]
  | Parked m e => [repoll i m c; set_pc i Idle c]
  | Holds m =>
      let '(s, w) := release m (lk c) in
      [set_pc i (match w with NoWake => Idle | WakeOne => WakingOne | WakeAll => Snapshot end)
         (set_lk s c)]
  | WakingOne =>
      match queue c with
      | [] => [set_pc i Idle c]
      | x :: q => [if e_valid x then set_pc i Idle (pop_wake x q c) else pop_wake x q c]
      end
  | Snapshot => [set_pc i (WakingAll (next c)) c]
  | WakingAll target =>
      match queue c with
      | x :: q => if (e_id x <? target)%nat then [pop_wake x q c] else [set_pc i Idle c]
      | [] => [set_pc i Idle c]
      end
  end.

Definition succs (c : conf) : list conf :=
  seq 0 (length (tasks c)) ≫= fun i =>
    match tasks c !! i with Some t => task_step i (t_pc t) c | None => [] end.

Definition start (n : nat) (s : St) : conf := mkConf s [] 0 (replicate n (mkTask Idle false)).

Definition pcs (c : conf) : list pc := t_pc <$> tasks c.

(** The modes in which the lock is held. *)
Definition holding (p : pc) : list M :=
  match p with Holds m | Cancel m _ => [m] | _ => [] end.
Definition holders (c : conf) : list M := pcs c ≫= holding.

(** A task in the middle of a release. *)
Definition waking (p : pc) : bool :=
  match p with WakingOne | Snapshot | WakingAll _ => true | _ => false end.

Lemma lk_alter {A} (f : A -> A) i (l : list A) x : l !! i = Some x -> alter f i l = <[i := f x]> l.
Proof.
  intros H. pose proof (lookup_lt_Some _ _ _ H). apply list_eq. intros j.
  rewrite list_lookup_alter. destruct (decide (i = j)) as [->|].
  - by rewrite H, list_lookup_insert_eq.
  - by rewrite list_lookup_insert_ne.
Qed.

Lemma lk_pcs_alter i p f c t : tasks c !! i = Some t -> t_pc (f t) = p ->
  forall s q n, pcs (mkConf s q n (alter f i (tasks c))) = <[i := p]> (pcs c).
Proof.
  intros Hi <- s q n. unfold pcs. simpl. rewrite (lk_alter f i _ t Hi).
  by rewrite list_fmap_insert.
Qed.

Lemma lk_pcs_set i p c t : tasks c !! i = Some t -> pcs (set_pc i p c) = <[i := p]> (pcs c).
Proof. intros H. by apply (lk_pcs_alter _ _ _ c t). Qed.

Lemma lk_pcs_notify i c : pcs (notify i c) = pcs c.
Proof.
  unfold pcs. simpl. apply list_eq. intros j. rewrite !list_lookup_fmap, list_lookup_alter.
  destruct (decide (i = j)) as [->|]; [|done]. by destruct (tasks c !! j).
Qed.

Lemma lk_pcs_pop_wake x q c : pcs (pop_wake x q c) = pcs c.
Proof. unfold pop_wake. destruct (e_valid x); [by rewrite lk_pcs_notify|done]. Qed.

Lemma lk_length_pop_wake x q c i t : tasks c !! i = Some t ->
  exists t', tasks (pop_wake x q c) !! i = Some t'.
Proof.
  intros H. unfold pop_wake. destruct (e_valid x); simpl; [|by eexists].
  rewrite list_lookup_alter. case_decide; [subst; rewrite H|]; by eexists.
Qed.

Lemma lk_succs c c' : c' ∈ succs c <->
  exists i t, tasks c !! i = Some t /\ c' ∈ task_step i (t_pc t) c.
Proof.
  unfold succs. rewrite list_elem_of_bind. split.
  - intros (i & Hc & Hi). destruct (tasks c !! i) as [t|] eqn:E; [by exists i, t|]. set_solver.
  - intros (i & t & E & Hc). exists i. rewrite E. split; [done|].
    apply elem_of_seq. apply lookup_lt_Some in E. lia.
Qed.

(** What a step of task [i] does to the lock and to the program points. *)
Inductive moves (i : nat) (p : pc) (c c' : conf) : Prop :=
| moves_pc p' : pcs c' = <[i := p']> (pcs c) -> lk c' = lk c -> holding p' = holding p ->
    moves i p c c'
| moves_same : pcs c' = pcs c -> lk c' = lk c -> moves i p c c'
| moves_acquire m p' s : try_acquire m (lk c) = Some s -> lk c' = s ->
    pcs c' = <[i := p']> (pcs c) -> holding p = [] -> holding p' = [m] -> moves i p c c'
| moves_release m p' : p = Holds m -> lk c' = fst (release m (lk c)) ->
    pcs c' = <[i := p']> (pcs c) -> holding p' = [] -> moves i p c c'.

Lemma lk_moves i t c c' : tasks c !! i = Some t -> c' ∈ task_step i (t_pc t) c ->
  moves i (t_pc t) c c'.
Proof.
  intros Hi Hc. pose proof (fun p => lk_pcs_set i p c t Hi) as Hp.
  destruct (t_pc t) as [|m|m|m|m e|m e|m e|m| | |target] eqn:Et; simpl in Hc.
  - apply list_elem_of_fmap in Hc as (m & -> & _). by apply (moves_pc _ _ _ _ (Gate m)).
  - apply list_elem_of_singleton in Hc as ->. eapply moves_pc; [apply Hp|done|].
    by destruct (gated St m && has_waiters c).
  - destruct (try_acquire m (lk c)) as [s|] eqn:Ea; apply list_elem_of_singleton in Hc as ->.
    + by eapply (moves_acquire _ _ _ _ m (Holds m) s); [|simpl|apply (lk_pcs_alter _ _ _ c t)|..].
    + eapply moves_pc; [apply Hp|done|]. by destruct (fallback St m).
  - apply list_elem_of_singleton in Hc as ->.
    by eapply (moves_pc _ _ _ _ (Recheck m (next c))); [apply (lk_pcs_alter _ _ _ c t)|..].
  - destruct (try_acquire m (lk c)) as [s|] eqn:Ea; apply list_elem_of_singleton in Hc as ->.
    + by eapply (moves_acquire _ _ _ _ m (Cancel m e) s); [|simpl|apply (lk_pcs_alter _ _ _ c t)|..].
    + by eapply moves_pc; [apply Hp|..].
  - apply list_elem_of_singleton in Hc as ->.
    by eapply (moves_pc _ _ _ _ (Holds m)); [apply (lk_pcs_alter _ _ _ c t)|..].
  - repeat (apply elem_of_cons in Hc as [->|Hc]); [| |set_solver].
    + by eapply (moves_pc _ _ _ _ (Gate m)); [apply (lk_pcs_alter _ _ _ c t)|..].
    + by eapply moves_pc; [apply Hp|..].
  - destruct (release m (lk c)) as [s w] eqn:Er. apply list_elem_of_singleton in Hc as ->.
    eapply (moves_release _ _ _ _ m); [done|by rewrite Er|by apply (lk_pcs_alter _ _ _ c t)|].
    by destruct w.
  - destruct (queue c) as [|x q]; apply list_elem_of_singleton in Hc as ->.
    + by eapply moves_pc; [apply Hp|..].
    + destruct (e_valid x) eqn:Ev.
      * destruct (lk_length_pop_wake x q c i t Hi) as [t' Ht'].
        eapply (moves_pc _ _ _ _ Idle); [|by unfold pop_wake; destruct (e_valid x)|done].
        by rewrite (lk_pcs_set i Idle _ t' Ht'), lk_pcs_pop_wake.
      * apply moves_same; [by rewrite lk_pcs_pop_wake|by unfold pop_wake; destruct (e_valid x)].
  - apply list_elem_of_singleton in Hc as ->. by eapply moves_pc; [apply Hp|..].
  - destruct (queue c) as [|x q]; [|destruct (e_id x <? target)%nat];
      apply list_elem_of_singleton in Hc as ->.
    1, 3: by eapply moves_pc; [apply Hp|..].
    apply moves_same; [by rewrite lk_pcs_pop_wake|by unfold pop_wake; destruct (e_valid x)].
Qed.

Lemma lk_holders_move i p p' c c' : pcs c !! i = Some p -> pcs c' = <[i := p']> (pcs c) ->
  holding p ++ holders c' ≡ₚ holding p' ++ holders c.
Proof.
  intros Hi E. unfold holders. rewrite E.
  apply (bind_insert_perm holding (pcs c) i p p'); [done|]. apply Permutation_app_comm.
Qed.

(** The lock's state accounts for its holders. *)
Section exclusion.
Context (ok : St -> list M -> Prop).
Hypothesis ok_perm : forall s h h', h ≡ₚ h' -> ok s h -> ok s h'.
Hypothesis ok_acquire : forall m s s' h, ok s h -> try_acquire m s = Some s' -> ok s' (m :: h).
Hypothesis ok_release : forall m s h, ok s (m :: h) -> ok (fst (release m s)) h.

Lemma lk_step_ok c c' : ok (lk c) (holders c) -> step_of succs c c' -> ok (lk c') (holders c').
Proof.
  intros Hok Hs. apply lk_succs in Hs as (i & t & Hi & Hc).
  assert (Hp : pcs c !! i = Some (t_pc t)) by (unfold pcs; by rewrite list_lookup_fmap, Hi).
  destruct (lk_moves i t c c' Hi Hc) as [p' E -> Hh|E ->|m p' s Ha -> E Hh Hh'|m p' Et -> E Hh'].
  - pose proof (lk_holders_move i _ p' c c' Hp E) as Hm. rewrite Hh in Hm.
    apply Permutation_app_inv_l in Hm. by apply (ok_perm _ (holders c)).
  - unfold holders. by rewrite E.
  - pose proof (lk_holders_move i _ p' c c' Hp E) as Hm. rewrite Hh, Hh' in Hm.
    apply (ok_perm _ (m :: holders c)); [by rewrite Hm|]. by apply (ok_acquire m (lk c)).
  - pose proof (lk_holders_move i _ p' c c' Hp E) as Hm. rewrite Et, Hh' in Hm. simpl in Hm.
    apply ok_release. apply (ok_perm _ (holders c)); [by rewrite Hm|done].
Qed.

Lemma lk_start_holders n s : holders (start n s) = [].
Proof. unfold holders, pcs. simpl. induction n; simpl; auto. Qed.

Lemma lk_reachable_ok n s c : ok s [] -> rtc (step_of succs) (start n s) c -> ok (lk c) (holders c).
Proof.
  intros H0 Hr. apply (invariant_reachable (fun c => c = start n s) (step_of succs)
    (fun c => ok (lk c) (holders c))).
  - intros ? ->. by rewrite lk_start_holders.
  - intros. by eapply lk_step_ok.
  - by exists (start n s).
Qed.
End exclusion.

(** ** No lost wakeups

    The registration a task carries, and the releases under way that will reach the
    registration numbered [e]. *)
Definition token (p : pc) : option nat :=
  match p with Recheck _ e | Cancel _ e | Parked _ e => Some e | _ => None end.

Definition will_wake (p : pc) (e : nat) : bool :=
  match p with Snapshot => true | WakingAll target => (e <? target)%nat | _ => false end.

Definition queued (e : nat) (q : list entry) : Prop := exists x, x ∈ q /\ e_id x = e.

Definition queue_ok (c : conf) : Prop :=
  StronglySorted (fun x y => (e_id x < e_id y)%nat) (queue c) /\
  Forall (fun x => (e_id x < next c)%nat) (queue c).

(** The lock is not to be had in mode [m], or somebody will wake [e]. *)
Definition attended (c : conf) (m : M) (e : nat) : Prop :=
  try_acquire m (lk c) = None \/ exists k p, pcs c !! k = Some p /\ will_wake p e = true.

Record good (c : conf) (i : nat) (t : task) : Prop := {
  good_token : forall e, token (t_pc t) = Some e ->
    (e < next c)%nat /\ forall x, x ∈ queue c -> e_id x = e -> e_task x = i;
  good_queued : forall m e, notified t = false -> t_pc t = Recheck m e \/ t_pc t = Parked m e ->
    exists x, x ∈ queue c /\ e_id x = e /\ e_task x = i /\ e_valid x = true;
  good_attended : forall m e, notified t = false -> t_pc t = Parked m e -> attended c m e
}.

Definition tidy (c : conf) : Prop :=
  queue_ok c /\ forall i t, tasks c !! i = Some t -> good c i t.

Lemma lk_good_no_token c i t : token (t_pc t) = None -> good c i t.
Proof. intros H. split; destruct (t_pc t); naive_solver. Qed.

(** A step of task [i] from [p] to [p'], seen by everybody else. *)
Lemma lk_tidy_step i p p' c c' :
  tidy c -> pcs c !! i = Some p -> pcs c' = <[i := p']> (pcs c) ->
  queue_ok c' -> (next c <= next c')%nat ->
  (forall j t', tasks c' !! j = Some t' -> j <> i ->
     exists t, tasks c !! j = Some t /\ t_pc t' = t_pc t /\
       (notified t' = false -> notified t = false /\
          forall x, x ∈ queue c -> e_task x = j -> e_valid x = true -> x ∈ queue c')) ->
  (forall x', x' ∈ queue c' ->
     (exists x, x ∈ queue c /\ e_id x' = e_id x /\ e_task x' = e_task x) \/ e_id x' = next c) ->
  (forall m e, queued e (queue c') -> try_acquire m (lk c) = None ->
     try_acquire m (lk c') = None \/ will_wake p' e = true) ->
  (forall e, queued e (queue c') -> will_wake p e = true -> will_wake p' e = true) ->
  (forall t', tasks c' !! i = Some t' -> good c' i t') ->
  tidy c'.
Proof.
  intros [_ Hg] Hp Hpcs Hq Hn Hothers Hnew Hlk Hww Hi. split; [done|].
  intros j t' Hj. destruct (decide (j = i)) as [->|Hne]; [by apply Hi|].
  destruct (Hothers j t' Hj Hne) as (t & Ht & Epc & Hnot). pose proof (Hg j t Ht) as [G1 G2 G3].
  assert (Q2 : forall m e, notified t' = false -> t_pc t' = Recheck m e \/ t_pc t' = Parked m e ->
    exists x, x ∈ queue c' /\ e_id x = e /\ e_task x = j /\ e_valid x = true).
  { intros m e Hf Hpc. destruct (Hnot Hf) as [Hf0 Hx]. rewrite Epc in Hpc.
    destruct (G2 m e Hf0 Hpc) as (x & X1 & X2 & X3 & X4). exists x. auto. }
  split; [|exact Q2|].
  - intros e He. rewrite Epc in He. destruct (G1 e He) as [E1 E2]. split; [lia|].
    intros x' Hx' Ee. destruct (Hnew x' Hx') as [(x & X1 & X2 & X3)|X]; [|lia].
    rewrite X3. apply (E2 x X1). congruence.
  - intros m e Hf Hpc. destruct (Q2 m e Hf (or_intror Hpc)) as (x & X1 & X2 & _).
    assert (Hqe : queued e (queue c')) by (by exists x).
    rewrite Epc in Hpc. destruct (G3 m e (proj1 (Hnot Hf)) Hpc) as [Hnone|(k & pk & Hk & Hw)].
    + destruct (Hlk m e Hqe Hnone) as [H|H]; [by left|]. right. exists i, p'.
      rewrite Hpcs, list_lookup_insert_eq; [done|]. by eapply lookup_lt_Some.
    + right. destruct (decide (k = i)) as [->|Hk'].
      * exists i, p'. rewrite Hpcs, list_lookup_insert_eq by (by eapply lookup_lt_Some).
        split; [done|]. apply (Hww e Hqe). by simplify_eq.
      * exists k, pk. by rewrite Hpcs, list_lookup_insert_ne.
Qed.

(** The law of a lock that wakes everybody: taking it makes it available to no one
    who could not have it, and a release that does wakes all. *)
Definition wakes_all (ok : St -> list M -> Prop) : Prop :=
  (forall m m' s s' h, ok s h -> try_acquire m s = Some s' -> try_acquire m' s = None ->
     try_acquire m' s' = None) /\
  (forall m m' s h, ok s (m :: h) -> try_acquire m' s = None ->
     try_acquire m' (fst (release m s)) = None \/ snd (release m s) = WakeAll).

Lemma lk_pcs_lookup c i t : tasks c !! i = Some t -> pcs c !! i = Some (t_pc t).
Proof. intros H. unfold pcs. by rewrite list_lookup_fmap, H. Qed.

Lemma lk_set_pc_lookup i p c t j t' : tasks c !! i = Some t ->
  tasks (set_pc i p c) !! j = Some t' ->
  (j = i /\ t' = mkTask p (notified t)) \/ (j <> i /\ tasks c !! j = Some t').
Proof.
  intros Hi. simpl. rewrite list_lookup_alter. case_decide as Hd; [subst|naive_solver].
  rewrite Hi. simpl. intros [= <-]. auto.
Qed.

(** Steps that leave the queue alone. *)
Lemma lk_tidy_pc i t p' s c : tidy c -> tasks c !! i = Some t ->
  (forall m e, try_acquire m (lk c) = None ->
     try_acquire m s = None \/ will_wake p' e = true) ->
  (forall e, queued e (queue c) -> will_wake (t_pc t) e = true -> will_wake p' e = true) ->
  token p' = None \/
    (exists m e, t_pc t = Recheck m e /\
       (p' = Cancel m e \/ p' = Parked m e /\ try_acquire m s = None)) ->
  tidy (set_pc i p' (set_lk s c)).
Proof.
  intros Htidy Hi Hlk Hww Hgood.
  apply (lk_tidy_step i (t_pc t) p' c); [done|by apply lk_pcs_lookup| |apply Htidy|done|..].
  - by apply (lk_pcs_alter _ _ _ c t).
  - intros j t' Hj Hne. apply (lk_set_pc_lookup i p' c t) in Hj; [|done].
    destruct Hj as [[-> _]|[_ Hj]]; [done|]. exists t'. auto.
  - intros x Hx. left. by exists x.
  - intros m e _. apply Hlk.
  - intros e He. by apply Hww.
  - intros t' Ht'. apply (lk_set_pc_lookup i p' c t) in Ht'; [|done].
    destruct Ht' as [[_ ->]|[? _]]; [|done].
    destruct Htidy as [Hq Hg]. destruct (Hg i t Hi) as [G1 G2 G3].
    destruct Hgood as [Hn|(m & e & Ht & Hp')]; [by apply lk_good_no_token|].
    rewrite Ht in G1. split; simpl.
    + intros e' He. apply G1. by destruct Hp' as [-> | [-> _]].
    + intros m' e' Hf Hpc. apply (G2 m e'); [done|]. rewrite Ht.
      destruct Hp' as [-> | [-> _]]; naive_solver.
    + intros m' e' Hf Hpc. left. destruct Hp' as [-> | [-> Hnone]]; naive_solver.
Qed.

Lemma lk_tidy_repoll i t m c : tidy c -> tasks c !! i = Some t ->
  (forall e, will_wake (t_pc t) e = false) -> tidy (repoll i m c).
Proof.
  intros Htidy Hi Hw.
  apply (lk_tidy_step i (t_pc t) (Gate m) c); simpl; try done; [by apply lk_pcs_lookup|..].
  - by apply (lk_pcs_alter _ _ _ c t).
  - apply Htidy.
  - intros j t' Hj Hne. rewrite list_lookup_alter_ne in Hj by done. exists t'. auto.
  - intros x Hx. left. by exists x.
  - auto.
  - intros e _. by rewrite Hw.
  - intros t' Ht'. rewrite list_lookup_alter_eq, Hi in Ht'. injection Ht' as <-.
    by apply lk_good_no_token.
Qed.

(** Popping the head. *)
Lemma lk_tidy_pop i t x q c : tidy c -> tasks c !! i = Some t -> token (t_pc t) = None ->
  queue c = x :: q -> tidy (pop_wake x q c).
Proof.
  intros Htidy Hi Htok Hq. pose proof (lk_pcs_lookup c i t Hi) as Hp.
  assert (Hlk : lk (pop_wake x q c) = lk c) by (unfold pop_wake; by destruct (e_valid x)).
  assert (Hnx : next (pop_wake x q c) = next c) by (unfold pop_wake; by destruct (e_valid x)).
  assert (Hqu : queue (pop_wake x q c) = q) by (unfold pop_wake; by destruct (e_valid x)).
  apply (lk_tidy_step i (t_pc t) (t_pc t) c); [done|done| |..].
  - by rewrite lk_pcs_pop_wake, list_insert_id.
  - destruct Htidy as [[Hs Hb] _]. rewrite Hq in Hs, Hb. unfold queue_ok. rewrite Hqu, Hnx.
    apply StronglySorted_inv in Hs. apply Forall_cons in Hb. tauto.
  - lia.
  - intros j t' Hj Hne. unfold pop_wake in Hj. destruct (e_valid x) eqn:Ev; simpl in Hj.
    + rewrite list_lookup_alter in Hj. case_decide as Hd; [subst|].
      * destruct (tasks c !! e_task x) as [t0|] eqn:E0; [|done]. simpl in Hj.
        injection Hj as <-. exists t0. split; [done|]. split; [done|]. done.
      * exists t'. split; [done|]. split; [done|]. intros Hf. split; [done|].
        intros y Hy Hj' Hv. rewrite Hqu. rewrite Hq in Hy. apply elem_of_cons in Hy as [->|Hy]; [done|done].
    + exists t'. split; [done|]. split; [done|]. intros Hf. split; [done|].
      intros y Hy Hj' Hv. rewrite Hqu. rewrite Hq in Hy.
      apply elem_of_cons in Hy as [->|Hy]; [congruence|done].
  - intros y Hy. left. exists y. rewrite Hqu in Hy. rewrite Hq. split; [by right|done].
  - rewrite Hlk. auto.
  - auto.
  - intros t' Ht'. apply lk_good_no_token. apply lk_pcs_lookup in Ht'.
    rewrite lk_pcs_pop_wake, Hp in Ht'. by injection Ht' as <-.
Qed.

Lemma lk_tidy_register i t m c : tidy c -> tasks c !! i = Some t -> t_pc t = Register m ->
  tidy (set_pc i (Recheck m (next c))
    (mkConf (lk c) (queue c ++ [mkEntry (next c) i true]) (S (next c)) (tasks c))).
Proof.
  intros Htidy Hi Ht. pose proof (lk_pcs_lookup c i t Hi) as Hp.
  pose proof Htidy as [[Hs Hb] Hg].
  apply (lk_tidy_step i (t_pc t) (Recheck m (next c)) c); [done|done| |..]; simpl; try done.
  - by apply (lk_pcs_alter _ _ _ c t).
  - split; simpl.
    + clear Htidy. induction Hs as [|x q Hs IH Hx]; simpl; [by repeat constructor|].
      apply Forall_cons in Hb as [Hb0 Hb]. constructor; [by apply IH|].
      apply Forall_app. split; [done|]. by repeat constructor.
    + apply Forall_app. split; [|by repeat constructor].
      eapply Forall_impl; [exact Hb|]. simpl. lia.
  - lia.
  - intros j t' Hj Hne. rewrite list_lookup_alter_ne in Hj by done. exists t'.
    split; [done|]. split; [done|]. intros Hf. split; [done|]. intros x Hx _ _. set_solver.
  - intros x Hx. apply elem_of_app in Hx as [Hx|Hx]; [left; by exists x|right].
    by apply list_elem_of_singleton in Hx as ->.
  - auto.
  - intros e _. by rewrite Ht.
  - intros t' Ht'. rewrite list_lookup_alter_eq, Hi in Ht'. injection Ht' as <-.
    split; simpl; [|intros m' e _ [[= -> <-]|?]; [|done]|done].
    + intros e [= <-]. split; [lia|]. intros x Hx He.
      apply elem_of_app in Hx as [Hx|Hx]; [|by apply list_elem_of_singleton in Hx as ->].
      rewrite Forall_forall in Hb. apply Hb in Hx. lia.
    + exists (mkEntry (next c) i true). set_solver.
Qed.

Lemma lk_tidy_cancel i t m e c : tidy c -> tasks c !! i = Some t -> t_pc t = Cancel m e ->
  tidy (set_pc i (Holds m) (set_queue (cancel e (queue c)) c)).
Proof.
  intros Htidy Hi Ht. pose proof (lk_pcs_lookup c i t Hi) as Hp.
  pose proof Htidy as [[Hs Hb] Hg]. destruct (Hg i t Hi) as [G1 _ _]. rewrite Ht in G1.
  destruct (G1 e eq_refl) as [_ Gown].
  apply (lk_tidy_step i (t_pc t) (Holds m) c); [done|done| |..]; simpl; try done.
  - by apply (lk_pcs_alter _ _ _ c t).
  - assert (Hid : forall x, e_id ((fun x => if (e_id x =? e)%nat
        then mkEntry (e_id x) (e_task x) false else x) x) = e_id x).
    { intros x. simpl. by destruct (e_id x =? e)%nat. }
    split; simpl; unfold cancel.
    + clear - Hs Hid. induction Hs as [|x q Hs IH Hx]; simpl; constructor; [done|].
      apply Forall_fmap. eapply Forall_impl; [exact Hx|]. intros y Hy. unfold compose.
      rewrite (Hid x), (Hid y). done.
    + apply Forall_fmap. eapply Forall_impl; [exact Hb|]. intros y Hy. unfold compose.
      by rewrite (Hid y).
  - intros j t' Hj Hne. rewrite list_lookup_alter_ne in Hj by done. exists t'.
    split; [done|]. split; [done|]. intros Hf. split; [done|]. intros x Hx Hj' _.
    apply list_elem_of_fmap. exists x. split; [|done].
    destruct (Nat.eqb_spec (e_id x) e) as [Ee|]; [|done]. exfalso. apply Hne.
    rewrite <- Hj'. by apply Gown.
  - intros x' Hx'. left. apply list_elem_of_fmap in Hx' as (x & -> & Hx). exists x.
    by destruct (e_id x =? e)%nat.
  - auto.
  - intros e' _. by rewrite Ht.
  - intros t' Ht'. rewrite list_lookup_alter_eq, Hi in Ht'. injection Ht' as <-.
    by apply lk_good_no_token.
Qed.

Lemma lk_holders_in c i m : pcs c !! i = Some (Holds m) -> exists h, holders c ≡ₚ m :: h.
Proof.
  intros Hi. unfold holders. rewrite <- (take_drop_middle _ _ _ Hi), bind_app, bind_cons.
  eexists. simpl. by rewrite <- Permutation_middle.
Qed.

Lemma lk_queued_bound c e : queue_ok c -> queued e (queue c) -> (e < next c)%nat.
Proof. intros [_ Hb] (x & Hx & <-). rewrite Forall_forall in Hb. by apply Hb. Qed.

Section attended.
Context (ok : St -> list M -> Prop).
Hypothesis ok_perm : forall s h h', h ≡ₚ h' -> ok s h -> ok s h'.
Hypothesis Hall : wakes_all ok.

Lemma lk_tidy_task i t c c' : ok (lk c) (holders c) -> tidy c -> tasks c !! i = Some t ->
  c' ∈ task_step i (t_pc t) c -> tidy c'.
Proof.
  intros Hok Htidy Hi Hc. destruct Hall as [Hacq Hrel].
  assert (Hpc : forall p', token p' = None \/
      (exists m e, t_pc t = Recheck m e /\
         (p' = Cancel m e \/ p' = Parked m e /\ try_acquire m (lk c) = None)) ->
      (forall e, queued e (queue c) -> will_wake (t_pc t) e = true -> will_wake p' e = true) ->
      tidy (set_pc i p' c)).
  { intros p' Hp' Hw. apply (lk_tidy_pc i t p' (lk c) c); auto. }
  destruct (t_pc t) as [|m|m|m|m e|m e|m e|m| | |target] eqn:Et; simpl in Hc.
  - apply list_elem_of_fmap in Hc as (m & -> & _). apply Hpc; [by left|done].
  - apply list_elem_of_singleton in Hc as ->. apply Hpc; [|done].
    left. by destruct (gated St m && has_waiters c).
  - destruct (try_acquire m (lk c)) as [s|] eqn:Ea; apply list_elem_of_singleton in Hc as ->.
    + apply (lk_tidy_pc i t); try done.
      * intros m' e Hn. left. by apply (Hacq m m' (lk c) s (holders c)).
      * intros e _. by rewrite Et.
      * by left.
    + apply Hpc; [|done]. left. by destruct (fallback St m).
  - apply list_elem_of_singleton in Hc as ->. by apply (lk_tidy_register i t m c).
  - destruct (try_acquire m (lk c)) as [s|] eqn:Ea; apply list_elem_of_singleton in Hc as ->.
    + apply (lk_tidy_pc i t); try done.
      * intros m' e' Hn. left. by apply (Hacq m m' (lk c) s (holders c)).
      * intros e' _. by rewrite Et.
      * right. exists m, e. rewrite Et. auto.
    + apply Hpc; [|done]. right. exists m, e. auto.
  - apply list_elem_of_singleton in Hc as ->. by apply (lk_tidy_cancel i t m e c).
  - repeat (apply elem_of_cons in Hc as [->|Hc]); [| |set_solver].
    + apply (lk_tidy_repoll i t); [done..|]. intros e'. by rewrite Et.
    + apply Hpc; [by left|done].
  - destruct (release m (lk c)) as [s w] eqn:Er. apply list_elem_of_singleton in Hc as ->.
    apply (lk_tidy_pc i t); try done.
    + intros m' e Hn. destruct (lk_holders_in c i m) as [h Hh].
      { rewrite (lk_pcs_lookup c i t Hi). by rewrite Et. }
      apply (ok_perm _ _ _ Hh) in Hok. destruct (Hrel m m' (lk c) h Hok Hn) as [H|H];
        rewrite Er in H; simpl in H; [by left|right]. by rewrite H.
    + intros e _. by rewrite Et.
    + left. by destruct w.
  - destruct (queue c) as [|x q] eqn:Eq; apply list_elem_of_singleton in Hc as ->.
    + apply Hpc; [by left|done].
    + assert (Hpop : tidy (pop_wake x q c)) by (apply (lk_tidy_pop i t); [done..|by rewrite Et|done]).
      destruct (e_valid x) eqn:Ev; [|done].
      destruct (lk_length_pop_wake x q c i t Hi) as [t' Ht'].
      assert (Et' : t_pc t' = t_pc t).
      { apply lk_pcs_lookup in Ht'. rewrite lk_pcs_pop_wake, (lk_pcs_lookup c i t Hi) in Ht'.
        by injection Ht'. }
      apply (lk_tidy_pc i t' Idle (lk (pop_wake x q c)) (pop_wake x q c)); try done.
      * by left.
      * intros e _. by rewrite Et', Et.
      * by left.
  - apply list_elem_of_singleton in Hc as ->. apply Hpc; [by left|].
    intros e He _. apply Nat.ltb_lt. exact (lk_queued_bound c e (proj1 Htidy) He).
  - destruct (queue c) as [|x q] eqn:Eq; [|destruct (e_id x <? target)%nat eqn:El];
      apply list_elem_of_singleton in Hc as ->.
    + apply Hpc; [by left|]. intros e (y & Hy & _). set_solver.
    + apply (lk_tidy_pop i t); [done..|by rewrite Et|done].
    + apply Hpc; [by left|]. intros e (y & Hy & <-) Hw. simpl in Hw. exfalso.
      destruct Htidy as [[Hs _] _]. rewrite Eq in Hs. apply StronglySorted_inv in Hs as [_ Hs].
      apply Nat.ltb_lt in Hw. apply Nat.ltb_ge in El.
      apply elem_of_cons in Hy as [->|Hy]; [lia|]. rewrite Forall_forall in Hs.
      apply Hs in Hy. lia.
Qed.

Hypothesis ok_acquire : forall m s s' h, ok s h -> try_acquire m s = Some s' -> ok s' (m :: h).
Hypothesis ok_release : forall m s h, ok s (m :: h) -> ok (fst (release m s)) h.

Lemma lk_start_tidy n s : tidy (start n s).
Proof.
  split; [split; constructor|]. intros i t Ht. simpl in Ht.
  apply lookup_replicate in Ht as [-> _]. by apply lk_good_no_token.
Qed.

(** In every reachable state the tasks parked and not notified are attended to. *)
Lemma lk_reachable_attended n s c i m e : ok s [] -> rtc (step_of succs) (start n s) c ->
  tasks c !! i = Some (mkTask (Parked m e) false) -> attended c m e.
Proof.
  intros H0 Hr Hi.
  assert (H : ok (lk c) (holders c) /\ tidy c).
  { apply (invariant_reachable (fun c => c = start n s) (step_of succs)
      (fun c => ok (lk c) (holders c) /\ tidy c)); [| |by exists (start n s)].
    - intros ? ->. rewrite lk_start_holders. split; [done|apply lk_start_tidy].
    - intros c1 c2 [Hok Ht] Hs. split; [by eapply lk_step_ok|].
      apply lk_succs in Hs as (j & t & Hj & Hc). by eapply lk_tidy_task. }
  destruct H as [_ [_ Hg]]. by apply (Hg i _ Hi).
Qed.

(** A state in which no release is under way. *)
Definition quiescent (c : conf) : Prop := Forall (fun p => waking p = false) (pcs c).

Lemma lk_quiescent_attended c m e : quiescent c -> attended c m e -> try_acquire m (lk c) = None.
Proof.
  intros Hq [H|(k & p & Hk & Hw)]; [done|]. unfold quiescent in Hq. rewrite Forall_lookup in Hq.
  specialize (Hq k p Hk). by destruct p.
Qed.
End attended.
End system.
Arguments pc : clear implicits.
Arguments task : clear implicits.
Arguments conf : clear implicits.
End Sys.

(** ** The four primitives *)

Module Mutex.
(** On [locked]: [try_lock] and the drop of the guard. *)
Definition try_lock (m : unit) (locked : bool) : option bool := if locked then None else Some true.
Definition drop_guard (m : unit) (locked : bool) : bool * wake_kind := (false, WakeOne).
Arguments try_lock _ _ /.
Arguments drop_guard _ _ /.

#[global] Instance lock : Lock bool unit := {|
  try_acquire := try_lock; release := drop_guard; gated := fun _ => true; fallback := fun _ => None |}.
End Mutex.

Module Semaphore.
(** On [permits]. *)
Definition try_acquire_one (m : unit) (permits : Z) : option Z :=
  if permits =? 0 then None else Some (permits - 1).
Definition drop_permit (m : unit) (permits : Z) : Z * wake_kind := (wadd 64 permits 1, WakeOne).
Arguments try_acquire_one _ _ /.
Arguments drop_permit _ _ /.

#[global] Instance lock : Lock Z unit := {|
  try_acquire := try_acquire_one; release := drop_permit; gated := fun _ => true;
  fallback := fun _ => None |}.
End Semaphore.

Module RwLock.
Definition WRITE_LOCKED : Z := -1.
Inductive mode := Read | Write.

#[global] Instance mode_eq_dec : EqDecision mode.
Proof. solve_decision. Defined.

(** [state]: the readers, or [WRITE_LOCKED]. *)
Definition try_acquire_read (state : Z) : option Z := if state <? 0 then None else Some (state + 1).
Definition try_write (state : Z) : option Z := if state =? 0 then Some WRITE_LOCKED else None.
Definition drop_read (state : Z) : Z * wake_kind :=
  (state - 1, if state =? 1 then WakeAll else NoWake).
Definition drop_write (state : Z) : Z * wake_kind := (0, WakeAll).
Arguments try_acquire_read _ /.
Arguments try_write _ /.
Arguments drop_read _ /.
Arguments drop_write _ /.

#[global] Instance lock : Lock Z mode := {|
  try_acquire := fun m state => match m with Read => try_acquire_read state | Write => try_write state end;
  release := fun m state => match m with Read => drop_read state | Write => drop_write state end;
  gated := fun m => match m with Read => false | Write => true end;
  fallback := fun _ => None |}.
End RwLock.

Module OnceCell.
Definition UNINIT : Z := 0.
Definition INITIALIZING : Z := 1.
Definition INIT : Z := 2.

(** [Init] takes the cell and runs the initialiser; whoever fails waits, in the
    mode [Wait], for [INIT]. *)
Inductive mode := Init | Wait.

Definition begin_init (state : Z) : option Z := if state =? UNINIT then Some INITIALIZING else None.
Definition get (state : Z) : option Z := if state =? INIT then Some state else None.
Definition finish_init (state : Z) : Z * wake_kind := (INIT, WakeAll).
Arguments begin_init _ /.
Arguments get _ /.
Arguments finish_init _ /.

#[global] Instance lock : Lock Z mode := {|
  try_acquire := fun m state => match m with Init => begin_init state | Wait => get state end;
  release := fun m state => match m with Init => finish_init state | Wait => (state, NoWake) end;
  gated := fun _ => false;
  fallback := fun m => match m with Init => Some Wait | Wait => None end |}.
End OnceCell.

(** ** Exclusion *)

Lemma lk_mutex_ok (modes : list unit) n c :
  rtc (step_of (Sys.succs modes)) (Sys.start n false) c ->
  length (Sys.holders c) = if Sys.lk c then 1%nat else 0%nat.
Proof.
  apply (Sys.lk_reachable_ok modes (fun (s : bool) h => length h = if s then 1%nat else 0%nat)).
  - intros s h h' Hh H. by rewrite <- Hh.
  - intros m [] s' h H; simpl; [done|]. intros [= <-]. lia.
  - intros m s h H. simpl in *. destruct s; lia.
  - done.
Qed.

Lemma lk_semaphore_ok (modes : list unit) n permits c : 0 <= permits < 2 ^ 64 ->
  rtc (step_of (Sys.succs modes)) (Sys.start n permits) c ->
  0 <= Sys.lk c /\ Sys.lk c + Z.of_nat (length (Sys.holders c)) = permits.
Proof.
  intros Hp. apply (Sys.lk_reachable_ok modes
    (fun (s : Z) h => 0 <= s /\ s + Z.of_nat (length h) = permits)).
  - intros s h h' Hh H. by rewrite <- Hh.
  - intros m s s' h H. simpl. destruct (s =? 0) eqn:E; [done|]. intros [= <-]. bool_prop. lia.
  - intros m s h H. simpl in *. rewrite wadd_small by lia. lia.
  - simpl. lia.
Qed.

(** -1 and one writer, or the number of readers. *)
Definition rw_ok (s : Z) (h : list RwLock.mode) : Prop :=
  (s = RwLock.WRITE_LOCKED /\ h = [RwLock.Write]) \/
  (0 <= s /\ s = Z.of_nat (length h) /\ RwLock.Write ∉ h).

Lemma lk_rw_perm s h h' : h ≡ₚ h' -> rw_ok s h -> rw_ok s h'.
Proof.
  intros Hh [[-> ->]|(H1 & H2 & H3)].
  - left. split; [done|]. by apply Permutation_singleton_l in Hh.
  - right. by rewrite <- Hh.
Qed.

Lemma lk_rw_acquire m s s' h : rw_ok s h -> try_acquire m s = Some s' -> rw_ok s' (m :: h).
Proof.
  unfold rw_ok, RwLock.WRITE_LOCKED. intros [[-> ->]|(H1 & H2 & H3)].
  - destruct m; simpl; [|done]. by intros [=].
  - destruct m; simpl.
    + destruct (s <? 0) eqn:E; [done|]. intros [= <-]. right. split; [lia|]. split; [lia|]. set_solver.
    + destruct (s =? 0) eqn:E; [|done]. intros [= <-]. bool_prop. left.
      split; [done|]. destruct h; [done|]. simpl in H2. lia.
Qed.

Lemma lk_rw_release m s h : rw_ok s (m :: h) -> rw_ok (fst (release m s)) h.
Proof.
  unfold rw_ok. intros [[-> [= -> ->]]|(H1 & H2 & H3)].
  - right. simpl. set_solver.
  - destruct m; [|set_solver]. simpl in *. right. split; [lia|]. split; [lia|]. set_solver.
Qed.

Lemma lk_rwlock_ok (modes : list RwLock.mode) n c :
  rtc (step_of (Sys.succs modes)) (Sys.start n 0) c -> rw_ok (Sys.lk c) (Sys.holders c).
Proof.
  apply (Sys.lk_reachable_ok modes rw_ok).
  - apply lk_rw_perm.
  - apply lk_rw_acquire.
  - apply lk_rw_release.
  - right. simpl. set_solver.
Qed.

(** The initialiser is alone, before anybody can read. *)
Definition once_ok (s : Z) (h : list OnceCell.mode) : Prop :=
  (s = OnceCell.UNINIT /\ h = []) \/ (s = OnceCell.INITIALIZING /\ h = [OnceCell.Init]) \/
  (s = OnceCell.INIT /\ OnceCell.Init ∉ h).

Lemma lk_once_perm s h h' : h ≡ₚ h' -> once_ok s h -> once_ok s h'.
Proof.
  intros Hh [[-> ->]|[[-> ->]|[-> H]]].
  - left. split; [done|]. by apply Permutation_nil_l in Hh.
  - right. left. split; [done|]. by apply Permutation_singleton_l in Hh.
  - do 2 right. by rewrite <- Hh.
Qed.

Lemma lk_once_acquire m s s' h : once_ok s h -> try_acquire m s = Some s' -> once_ok s' (m :: h).
Proof.
  unfold once_ok, OnceCell.UNINIT, OnceCell.INITIALIZING, OnceCell.INIT.
  intros [[-> ->]|[[-> ->]|[-> H]]]; destruct m; simpl; try done; intros [= <-].
  - right. by left.
  - do 2 right. split; [done|]. set_solver.
Qed.

Lemma lk_once_release m s h : once_ok s (m :: h) -> once_ok (fst (release m s)) h.
Proof.
  unfold once_ok. intros [[-> [=]]|[[-> [= -> ->]]|[-> H]]].
  - do 2 right. simpl. set_solver.
  - destruct m; [set_solver|]. simpl. do 2 right. set_solver.
Qed.

Lemma lk_oncecell_ok (modes : list OnceCell.mode) n c :
  rtc (step_of (Sys.succs modes)) (Sys.start n OnceCell.UNINIT) c -> once_ok (Sys.lk c) (Sys.holders c).
Proof.
  apply (Sys.lk_reachable_ok modes once_ok).
  - apply lk_once_perm.
  - apply lk_once_acquire.
  - apply lk_once_release.
  - by left.
Qed.


(** ** Wakeups *)

Lemma lk_rw_wakes_all : Sys.wakes_all rw_ok.
Proof.
  split.
  - intros m m' s s' h Hok Ha Hn. destruct Hok as [[-> _]|(H & _)]; destruct m, m'; simpl in *;
      repeat case_match; bool_prop; simplify_eq/=; try done; lia.
  - intros m m' s h Hok Hn. destruct m; simpl in *; [|by right].
    destruct Hok as [[_ [=]]|(H & Hl & _)]. simpl in Hl.
    destruct (s =? 1) eqn:E1; bool_prop; [by right|left].
    destruct m'; simpl in *; repeat case_match; bool_prop; try done; lia.
Qed.

Lemma lk_once_wakes_all : Sys.wakes_all once_ok.
Proof.
  unfold once_ok, OnceCell.UNINIT, OnceCell.INITIALIZING, OnceCell.INIT. split.
  - intros m m' s s' h Hok Ha Hn. destruct Hok as [[-> _]|[[-> _]|[-> _]]];
      destruct m, m'; by simplify_eq/=.
  - intros m m' s h Hok Hn. destruct m; [by right|left].
    destruct Hok as [[-> _]|[[-> _]|[-> _]]]; by destruct m'.
Qed.


(** Releasing with [wake_all] loses no wakeup.  In every reachable state
    of an [RwLock] or an [OnceCell], however many tasks use it and however
    they are polled and dropped: a task that is parked and not notified
    cannot have what it waits for (the lock in its mode, the
    initialised cell), unless a release is under way that will reach its
    registration; so once no release is under way, it cannot have it. *)
Theorem wake_all_loses_no_wakeup (n : nat) :
  (forall modes c i m e, rtc (step_of (Sys.succs modes)) (Sys.start n 0) c ->
     Sys.tasks c !! i = Some (Sys.mkTask (Sys.Parked (M := RwLock.mode) m e) false) ->
     Sys.attended c m e /\ (Sys.quiescent c -> try_acquire m (Sys.lk c) = None)) /\
  (forall modes c i m e, rtc (step_of (Sys.succs modes)) (Sys.start n OnceCell.UNINIT) c ->
     Sys.tasks c !! i = Some (Sys.mkTask (Sys.Parked (M := OnceCell.mode) m e) false) ->
     Sys.attended c m e /\ (Sys.quiescent c -> try_acquire m (Sys.lk c) = None)).
Proof.
  split; intros modes c i m e Hr Hi.
  - assert (Ha : Sys.attended c m e).
    { eapply (Sys.lk_reachable_attended modes rw_ok lk_rw_perm lk_rw_wakes_all
        lk_rw_acquire lk_rw_release); [|exact Hr|exact Hi]. right. simpl. set_solver. }
    split; [exact Ha|]. intros Hq. by apply (Sys.lk_quiescent_attended c m e).
  - assert (Ha : Sys.attended c m e).
    { eapply (Sys.lk_reachable_attended modes once_ok lk_once_perm lk_once_wakes_all
        lk_once_acquire lk_once_release); [|exact Hr|exact Hi]. by left. }
    split; [exact Ha|]. intros Hq. by apply (Sys.lk_quiescent_attended c m e).
Qed.

(** A writer parked behind a reader. *)
Lemma wake_all_loses_no_wakeup_witness :
  exists c, Sys.quiescent c /\ Sys.tasks c !! 1%nat = Some (Sys.mkTask (Sys.Parked RwLock.Write 0%nat) false) /\
    try_acquire RwLock.Write (Sys.lk c) = None.
Proof.
  set (modes := [RwLock.Read; RwLock.Write]).
  set (c := Sys.mkConf 1 [Sys.mkEntry 0 1 true] 1
    [Sys.mkTask (Sys.Holds RwLock.Read) false; Sys.mkTask (Sys.Parked RwLock.Write 0) false]).
  assert (Hr : rtc (step_of (Sys.succs modes)) (Sys.start 2 0) c)
    by (apply (follow_reachable _ [0; 0; 0; 2; 1; 1; 1; 1]%nat); exact eq_refl).
  exists c. assert (Hq : Sys.quiescent c) by (repeat constructor). split; [exact Hq|].
  split; [reflexivity|].
  apply (proj1 (wake_all_loses_no_wakeup 2) modes c 1%nat RwLock.Write 0%nat Hr eq_refl). exact Hq.
Defined.

(** Task 0 takes the lock; task 1 is polled twice and woken by its first
    registration; task 2 registers behind the second; task 1 releases. *)
Definition double_poll : list nat :=
  [0; 0; 0; 1; 1; 1; 1; 1; 1; 1; 1; 1; 0; 0; 1; 1; 1; 1; 1; 2; 2; 2; 2; 1; 1]%nat.

Definition stranded {St} (s : St) : Sys.conf St unit :=
  Sys.mkConf s [Sys.mkEntry 2 1 false; Sys.mkEntry 3 2 true] 4
    [Sys.mkTask Sys.Idle false; Sys.mkTask Sys.Idle true; Sys.mkTask (Sys.Parked tt 3) false].

(** [Mutex] and [Semaphore] wake one waiter per release, and can wake the
    wrong one.  A task polled twice while it waits, as [wait_pinned] does
    when it spins, is registered twice; the first registration earns it the
    lock, the second stays in the queue, and the release that follows
    spends its wakeup on it.  There is an execution of three tasks that
    ends with the lock free (the permit back), no release under way, and a task parked, not
    notified, and still registered behind. *)
Theorem wake_one_loses_wakeup :
  (exists c, rtc (step_of (Sys.succs [tt])) (Sys.start 3 false) c /\
     Sys.quiescent c /\ Sys.lk c = false /\ Sys.holders c = [] /\
     exists e, Sys.tasks c !! 2%nat = Some (Sys.mkTask (Sys.Parked tt e) false)) /\
  (exists c, rtc (step_of (Sys.succs (St := Z) [tt])) (Sys.start 3 1) c /\
     Sys.quiescent c /\ Sys.lk c = 1 /\ Sys.holders c = [] /\
     exists e, Sys.tasks c !! 2%nat = Some (Sys.mkTask (Sys.Parked tt e) false)).
Proof.
  split; [exists (stranded false)|exists (stranded 1)];
    (split; [apply (follow_reachable _ double_poll); exact eq_refl|]);
    (split; [repeat constructor|]); (split; [reflexivity|]); (split; [reflexivity|]);
    exists 3%nat; reflexivity.
Qed.

(** ** Notify *)

Module Notify.
(** [Waiter] polls [Notified]; the others call [notify_one] and [notify_waiters]. *)
Inductive mode := Waiter | NotifyOne | NotifyWaiters.

(** [permit]; and, to state things, how often [notify_one] stored it and how
    many [Notified] futures took it. *)
Record state := mkState { permit : bool; stored : nat; resolved : nat }.

Definition take_permit (s : state) : option state :=
  if permit s then Some (mkState false (stored s) (S (resolved s))) else None.
Definition notify_one (s : state) : state * wake_kind :=
  (mkState true (S (stored s)) (resolved s), WakeOne).
Definition notify_waiters (s : state) : state * wake_kind := (s, WakeAll).
Arguments take_permit _ /.
Arguments notify_one _ /.
Arguments notify_waiters _ /.

#[global] Instance lock : Lock state mode := {|
  try_acquire := fun m s => match m with Waiter => take_permit s | NotifyOne | NotifyWaiters => Some s end;
  release := fun m s =>
    match m with
    | Waiter => (s, NoWake)
    | NotifyOne => notify_one s
    | NotifyWaiters => notify_waiters s
    end;
  gated := fun _ => false;
  fallback := fun _ => None |}.

Definition initial : state := mkState false 0 0.
End Notify.

Lemma lk_notify_ok (modes : list Notify.mode) n c :
  rtc (step_of (Sys.succs modes)) (Sys.start n Notify.initial) c ->
  (Notify.resolved (Sys.lk c) + (if Notify.permit (Sys.lk c) then 1 else 0)
     <= Notify.stored (Sys.lk c))%nat.
Proof.
  apply (Sys.lk_reachable_ok modes (fun s _ =>
    (Notify.resolved s + (if Notify.permit s then 1 else 0) <= Notify.stored s)%nat)).
  - auto.
  - intros m s s' h H. destruct m; simpl; try (by intros [= <-]).
    destruct (Notify.permit s); [|done]. intros [= <-]. simpl. lia.
  - intros m s h H. destruct m; simpl; [done| |done]. destruct (Notify.permit s); lia.
  - simpl. lia.
Qed.

(** [Notify] resolves by permits only.  However many tasks wait and notify,
    and however they are interleaved: no more [Notified] futures resolve than
    permits were stored by [notify_one]; so while [notify_one] is not called none
    resolves, and [notify_waiters], which stores nothing, only makes waiting
    tasks poll and register again. *)
Theorem notify_waiters_resolves_nothing (n : nat) (modes : list Notify.mode) c :
  rtc (step_of (Sys.succs modes)) (Sys.start n Notify.initial) c ->
  (Notify.resolved (Sys.lk c) <= Notify.stored (Sys.lk c))%nat /\
  (Notify.stored (Sys.lk c) = 0%nat -> Notify.resolved (Sys.lk c) = 0%nat).
Proof. intros H. pose proof (lk_notify_ok modes n c H). lia. Qed.

(** A waiter is parked, [notify_waiters] runs, the waiter polls and is parked again. *)
Lemma notify_waiters_resolves_nothing_witness :
  exists c, Sys.tasks c !! 0%nat = Some (Sys.mkTask (Sys.Parked Notify.Waiter 1%nat) false) /\
    Sys.quiescent c /\ Notify.resolved (Sys.lk c) = 0%nat.
Proof.
  set (c := Sys.mkConf Notify.initial [Sys.mkEntry 1 0 true] 2
    [Sys.mkTask (Sys.Parked Notify.Waiter 1) false; Sys.mkTask Sys.Idle false]).
  assert (Hr : rtc (step_of (Sys.succs [Notify.Waiter; Notify.NotifyWaiters]))
    (Sys.start 2 Notify.initial) c).
  { apply (follow_reachable _ [0; 0; 0; 0; 0; 3; 2; 2; 2; 2; 2; 2; 0; 0; 0; 0; 0]%nat).
    exact eq_refl. }
  exists c. split; [reflexivity|]. split; [repeat constructor|].
  apply (notify_waiters_resolves_nothing 2 _ c Hr). reflexivity.
Defined.
