(* ===== verification/Barrier.v ===== *)
(** * Barrier

    [Barrier] of src/dtact-util/src/sync/barrier.rs, access by access, for
    any number of tasks.  A parked task may be polled at any time, so what the
    leader's [wake_all] does is left out: that it reaches everybody is
    [wake_all_loses_no_wakeup]'s business. *)

From S2P Require Import Prelude ModelCheck.

Module Bar.

(** Program points of [wait]; [g] is the generation observed on entry. *)
Inductive pc :=
| Start
| Arrive (g : nat)
| Reset                 (* the last to arrive: count to zero *)
| Bump                  (* generation + 1 *)
| Wake
| Check (g : nat)       (* [poll_generation_advanced] *)
| Register (g : nat)
| Recheck (g : nat)
| Parked (g : nat)
| Done (is_leader : bool).

Record conf := mkConf { count : nat; generation : nat; tasks : list pc }.

(** [Barrier::new]: a barrier of zero is one of one. *)
Definition participants (n : nat) : nat := if (n =? 0)%nat then 1%nat else n.

Definition set_pc (i : nat) (p : pc) (c : conf) : conf :=
  mkConf (count c) (generation c) (<[i := p]> (tasks c)).

(** One access of task [i]. *)
Definition task_step (n i : nat) (p : pc) (c : conf) : list conf :=
  match p with
  | Start => [set_pc i (Arrive (generation c)) c]
  | Arrive g =>
      [set_pc i (if (S (count c) =? participants n)%nat then Reset else Check g)
         (mkConf (S (count c)) (generation c) (tasks c))]
  | Reset => [set_pc i Bump (mkConf 0 (generation c) (tasks c))]
  | Bump => [set_pc i Wake (mkConf (count c) (S (generation c)) (tasks c))]
  | Wake => [set_pc i (Done true) c]
  | Check g => [set_pc i (if (generation c =? g)%nat then Register g else Done false) c]
  | Register g => [set_pc i (Recheck g) c]
  | Recheck g => [set_pc i (if (generation c =? g)%nat then Parked g else Done false) c]
  | Parked g => [set_pc i (Check g) c]
  | Done _ => []
  end.

Definition succs (n : nat) (c : conf) : list conf :=
  seq 0 (length (tasks c)) ≫= fun i =>
    match tasks c !! i with Some p => task_step n i p c | None => [] end.

Definition start (k : nat) : conf := mkConf 0 0 (replicate k Start).

Definition arrived (p : pc) : bool := match p with Start | Arrive _ => false | _ => true end.
Definition leads (p : pc) : bool :=
  match p with Reset | Bump | Wake | Done true => true | _ => false end.

(** How many tasks satisfy [f]. *)
Definition cnt (f : pc -> bool) (l : list pc) : nat := length (List.filter f l).

Lemma ba_cnt_insert f l i p p' : l !! i = Some p ->
  (cnt f (<[i := p']> l) + Nat.b2n (f p) = cnt f l + Nat.b2n (f p'))%nat.
Proof.
  revert i. induction l as [|x l IH]; intros [|i] Hi; simplify_eq/=; unfold cnt in *; simpl.
  - destruct (f p), (f p'); simpl; lia.
  - specialize (IH i Hi). destruct (f x); simpl; lia.
Qed.

Lemma ba_cnt_all f l : cnt f l = length l <-> Forall (fun p => f p = true) l.
Proof.
  unfold cnt. induction l as [|x l IH]; simpl; [done|].
  pose proof (List.filter_length_le f l). rewrite Forall_cons. destruct (f x); simpl.
  - rewrite <- IH. split; [intros; split; [done|lia]|intros [_ ?]; lia].
  - split; [lia|naive_solver].
Qed.

Lemma ba_cnt_replicate f k p : f p = false -> cnt f (replicate k p) = 0%nat.
Proof. intros H. unfold cnt. induction k; simpl; [done|]. by rewrite H. Qed.

(** Before the last arrival: everybody is in generation zero. *)
Definition early (p : pc) : Prop :=
  match p with
  | Start => True
  | Arrive g | Check g | Register g | Recheck g | Parked g => g = 0%nat
  | _ => False
  end.

(** After it, with the current generation. *)
Definition late (gen : nat) (p : pc) : Prop :=
  match p with
  | Start | Arrive _ => False
  | Reset | Bump => gen = 0%nat
  | Wake | Done _ => gen = 1%nat
  | Check g | Register g | Recheck g | Parked g => g = 0%nat /\ (gen <= 1)%nat
  end.

Definition ok (n : nat) (c : conf) : Prop :=
  length (tasks c) = n /\
  ((generation c = 0%nat /\ count c = cnt arrived (tasks c) /\ (count c < n)%nat /\
    Forall early (tasks c)) \/
   (cnt leads (tasks c) = 1%nat /\ Forall (late (generation c)) (tasks c))).

Lemma ba_succs n c c' : c' ∈ succs n c <->
  exists i p, tasks c !! i = Some p /\ c' ∈ task_step n i p c.
Proof.
  unfold succs. rewrite list_elem_of_bind. split.
  - intros (i & Hc & Hi). destruct (tasks c !! i) as [p|] eqn:E; [by exists i, p|]. set_solver.
  - intros (i & p & E & Hc). exists i. rewrite E. split; [done|].
    apply elem_of_seq. apply lookup_lt_Some in E. lia.
Qed.

Lemma ba_no_leader l : Forall early l -> cnt leads l = 0%nat.
Proof.
  unfold cnt. induction 1 as [|p l Hp _ IH]; [done|]. simpl. destruct p; simpl in *; done.
Qed.

Lemma ba_early_arrived_late l : Forall early l -> Forall (fun p => arrived p = true) l ->
  Forall (late 0) l.
Proof.
  rewrite !Forall_forall. intros H1 H2 p Hp. specialize (H1 p Hp). specialize (H2 p Hp).
  destruct p; simpl in *; try done; lia.
Qed.

Lemma ba_one_leader l i p j q : cnt leads l = 1%nat -> l !! i = Some p -> leads p = true ->
  l !! j = Some q -> j <> i -> leads q = false.
Proof.
  intros H1 Hi Hp Hj Hne. pose proof (ba_cnt_insert leads l i p Start Hi) as E.
  rewrite H1, Hp in E. simpl in E.
  assert (Hj' : <[i := Start]> l !! j = Some q) by (by rewrite list_lookup_insert_ne).
  pose proof (ba_cnt_insert leads _ j q Start Hj') as E'. destruct (leads q); [|done].
  simpl in E'. lia.
Qed.

(** Replacing one element, when the others are known. *)
Lemma ba_forall_insert (P : pc -> Prop) l i p :
  (forall j q, l !! j = Some q -> j <> i -> P q) -> P p -> Forall P (<[i := p]> l).
Proof.
  intros H Hp. apply Forall_lookup. intros j q Hj. destruct (decide (j = i)) as [->|Hne].
  - apply list_lookup_insert_Some in Hj as [(_ & <- & _)|[? _]]; done.
  - rewrite list_lookup_insert_ne in Hj by done. by apply (H j).
Qed.

(** A step of task [i] after the last arrival that does not change the generation. *)
Lemma ba_late_step n c i p p' k : length (tasks c) = n -> cnt leads (tasks c) = 1%nat ->
  Forall (late (generation c)) (tasks c) -> tasks c !! i = Some p ->
  leads p' = leads p -> late (generation c) p' ->
  ok n (set_pc i p' (mkConf k (generation c) (tasks c))).
Proof.
  intros Hn H1 Hl Hi Hlead Hp'. split; simpl; [by rewrite length_insert|]. right. split.
  - pose proof (ba_cnt_insert leads _ i p p' Hi) as E. rewrite Hlead in E. lia.
  - by apply Forall_insert.
Qed.

Lemma ba_early_step n c i p p' : length (tasks c) = n -> generation c = 0%nat ->
  count c = cnt arrived (tasks c) -> (count c < n)%nat -> Forall early (tasks c) ->
  tasks c !! i = Some p -> arrived p' = arrived p -> early p' -> ok n (set_pc i p' c).
Proof.
  intros Hn Hg Hc Hlt He Hi Ha Hp'. split; simpl; [by rewrite length_insert|]. left.
  pose proof (ba_cnt_insert arrived _ i p p' Hi) as E. rewrite Ha in E.
  split_and!; [done|simpl; lia|done|by apply Forall_insert].
Qed.

Lemma ba_arrive n c i g : (0 < n)%nat -> length (tasks c) = n -> generation c = 0%nat ->
  count c = cnt arrived (tasks c) -> (count c < n)%nat -> Forall early (tasks c) ->
  tasks c !! i = Some (Arrive g) ->
  ok n (set_pc i (if (S (count c) =? participants n)%nat then Reset else Check g)
    (mkConf (S (count c)) (generation c) (tasks c))).
Proof.
  intros Hpos Hn Hg Hc Hlt He Hi.
  assert (Hg0 : g = 0%nat) by (rewrite Forall_lookup in He; by apply (He i (Arrive g))). subst g.
  assert (Hpn : participants n = n) by (unfold participants; destruct n; [lia|done]). rewrite Hpn.
  destruct (Nat.eqb_spec (S (count c)) n) as [E|E]; (split; simpl; [by rewrite length_insert|]).
  - right. pose proof (ba_cnt_insert leads _ i _ Reset Hi) as El.
    rewrite (ba_no_leader _ He) in El. simpl in El. split; [lia|]. rewrite Hg.
    pose proof (ba_cnt_insert arrived _ i _ (Check 0) Hi) as Ea. simpl in Ea.
    assert (Hall : Forall (fun p => arrived p = true) (<[i := Check 0]> (tasks c))).
    { apply ba_cnt_all. rewrite length_insert. lia. }
    assert (Hlate : Forall (late 0) (<[i := Check 0]> (tasks c))).
    { apply ba_early_arrived_late; [by apply Forall_insert|done]. }
    apply ba_forall_insert; [|done]. intros j q Hj Hne. rewrite Forall_lookup in Hlate.
    apply (Hlate j). by rewrite list_lookup_insert_ne.
  - left. pose proof (ba_cnt_insert arrived _ i _ (Check 0) Hi) as Ea. simpl in Ea.
    split_and!; [done|simpl; lia|lia|by apply Forall_insert].
Qed.

Lemma ba_step n c c' : (0 < n)%nat -> ok n c -> step_of (succs n) c c' -> ok n c'.
Proof.
  intros Hpos [Hn [(Hg & Hc & Hlt & He)|[H1 Hl]]] Hs; apply ba_succs in Hs as (i & p & Hi & Hs).
  - assert (Hp : early p) by (rewrite Forall_lookup in He; by apply (He i)).
    pose proof (fun p' => ba_early_step n c i p p' Hn Hg Hc Hlt He Hi) as Hstep.
    destruct p as [|g| | | |g|g|g|g|b]; simpl in Hs, Hp; try done; try (by apply not_elem_of_nil in Hs);
      apply list_elem_of_singleton in Hs as ->.
    + by apply Hstep.
    + by apply (ba_arrive n c i g).
    + subst g. rewrite Hg. by apply Hstep.
    + by apply Hstep.
    + subst g. rewrite Hg. by apply Hstep.
    + by apply Hstep.
  - assert (Hp : late (generation c) p) by (rewrite Forall_lookup in Hl; by apply (Hl i)).
    pose proof (fun p' k => ba_late_step n c i p p' k Hn H1 Hl Hi) as Hstep.
    destruct p as [|g| | | |g|g|g|g|b]; simpl in Hs, Hp; try done; try (by apply not_elem_of_nil in Hs);
      apply list_elem_of_singleton in Hs as ->.
    + by apply Hstep.
    + split; simpl; [by rewrite length_insert|]. right.
      pose proof (ba_cnt_insert leads _ i _ Wake Hi) as E. simpl in E. split; [lia|].
      apply ba_forall_insert; [|simpl; lia]. intros j q Hj Hne.
      pose proof (ba_one_leader _ i _ j q H1 Hi eq_refl Hj Hne) as Hq.
      rewrite Forall_lookup in Hl. specialize (Hl j q Hj). rewrite Hp in *.
      destruct q as [| | | | | | | | |[]]; simpl in *; done || lia.
    + by apply (Hstep (Done true) (count c)).
    + apply (Hstep _ (count c)); [by destruct (generation c =? g)%nat|]. destruct Hp as [-> Hp].
      destruct (Nat.eqb_spec (generation c) 0) as [E|E]; simpl; lia.
    + by apply (Hstep _ (count c)).
    + apply (Hstep _ (count c)); [by destruct (generation c =? g)%nat|]. destruct Hp as [-> Hp].
      destruct (Nat.eqb_spec (generation c) 0) as [E|E]; simpl; lia.
    + by apply (Hstep _ (count c)).
Qed.
End Bar.

(** A barrier releases its participants together.  When exactly [n]
    tasks wait, in every interleaving: nobody returns before all have
    arrived, at most one is told it is the leader, and once all have
    returned exactly one is.  With more tasks than participants this breaks: three tasks
    at a barrier for two can all return, the third with nobody to meet,
    because it observed the generation before the other two advanced it. *)
Theorem barrier_releases_together :
  (forall n c, (0 < n)%nat -> rtc (step_of (Bar.succs n)) (Bar.start n) c ->
     ((exists b, Bar.Done b ∈ Bar.tasks c) -> Forall (fun p => Bar.arrived p = true) (Bar.tasks c)) /\
     (Bar.cnt Bar.leads (Bar.tasks c) <= 1)%nat /\
     (Forall (fun p => exists b, p = Bar.Done b) (Bar.tasks c) ->
        Bar.cnt Bar.leads (Bar.tasks c) = 1%nat)) /\
  (exists c, rtc (step_of (Bar.succs 2)) (Bar.start 3) c /\
     Bar.tasks c = [Bar.Done false; Bar.Done true; Bar.Done false] /\ Bar.count c = 1%nat).
Proof.
  split.
  - intros n c Hn Hr.
    assert (Hok : Bar.ok n c).
    { apply (invariant_reachable (fun c => c = Bar.start n) (step_of (Bar.succs n)) (Bar.ok n));
        [| |by exists (Bar.start n)].
      - intros ? ->. split; simpl; [by rewrite length_replicate|]. left.
        rewrite Bar.ba_cnt_replicate by done. split_and!; [done..|lia|].
        apply Forall_replicate. done.
      - intros. by eapply Bar.ba_step. }
    destruct Hok as [Hlen [(_ & _ & Hlt & He)|[H1 Hl]]].
    + assert (Hno : forall b, Bar.Done b ∉ Bar.tasks c).
      { intros b Hb. rewrite Forall_forall in He. by apply He in Hb. }
      split; [intros [b Hb]; by destruct (Hno b)|]. rewrite (Bar.ba_no_leader _ He).
      split; [lia|]. intros Hall. destruct (Bar.tasks c) as [|p l]; simpl in Hlen; [lia|].
      apply Forall_cons in Hall as [[b ->] _]. destruct (Hno b). by left.
    + split; [|split; [lia|done]]. intros _. eapply Forall_impl; [exact Hl|].
      intros p Hp. by destruct p.
  - exists (Bar.mkConf 1 1 [Bar.Done false; Bar.Done true; Bar.Done false]). split; [|done].
    apply (follow_reachable _ [2; 0; 0; 1; 1; 1; 1; 1; 0; 0; 0]%nat). exact eq_refl.
Qed.

(** Two tasks through. *)
Lemma barrier_releases_together_witness :
  exists c, Bar.tasks c = [Bar.Done false; Bar.Done true] /\
    Bar.cnt Bar.leads (Bar.tasks c) = 1%nat.
Proof.
  set (c := Bar.mkConf 0 1 [Bar.Done false; Bar.Done true]).
  assert (Hr : rtc (step_of (Bar.succs 2)) (Bar.start 2) c)
    by (apply (follow_reachable _ [0; 0; 1; 1; 1; 1; 1; 0]%nat); exact eq_refl).
  exists c. split; [reflexivity|].
  apply (proj1 barrier_releases_together 2%nat c ltac:(lia) Hr).
  repeat constructor; by eexists.
Defined.
