(* ===== verification/Handoff.v ===== *)
(** * Handoff

    The protocol that every user of an [AtomicWakerSlot] follows when more than one thing
    is delivered through it (the half-pipes of stream/native.rs, the listeners
    of signal/registry.rs): a waiting task looks for something to do, registers
    its waker, looks again and parks; a notifying thread makes something
    available and then calls [take_and_wake].  What the task looks for is
    a level, which the task itself may use up ([c1]: bytes, room, deliveries),
    and a flag that is set for good ([c2]: the other end was dropped).

    The state space is finite and explored completely (ModelCheck.v); the components are
    mapped into it. *)

From S2P Require Import Prelude ModelCheck WakerSlot.

Module Handoff.
Import WakerSlot.

(** Program points of the waiting task.  It looks again for the level and for
    the flag in either order, or for both at once; [WFlagged] has seen no level, then
    the flag, and looks for the level a last time. *)
Inductive waiter_pc :=
| WOut
| WCheck
| WReg (p : reg_pc)
| WAgain
| WNoLevel
| WNoFlag
| WFlagged
| WParked.

#[global] Instance waiter_pc_eq_dec : EqDecision waiter_pc.
Proof. solve_decision. Defined.

(** Program points of the notifying thread. *)
Inductive notifier_pc := NIdle | NWake (p : wake_pc).

#[global] Instance notifier_pc_eq_dec : EqDecision notifier_pc.
Proof. solve_decision. Defined.

Record conf := mk {
  c1 : bool;
  c2 : bool;
  sl : slot;
  w : waiter_pc;
  n : notifier_pc;
  awake : bool
}.

#[global] Instance conf_eq_dec : EqDecision conf.
Proof. solve_decision. Defined.

(** A task can be polled again at any time, woken or not; a poll that begins
    forgets an earlier wake. *)
Definition waiter_succs (c : conf) : list conf :=
  let to p := mk (c1 c) (c2 c) (sl c) p (n c) (awake c) in
  match w c with
  | WOut => [to WOut; to WCheck; mk false (c2 c) (sl c) WOut (n c) (awake c);
             mk (c1 c) (c2 c) (sl c) WCheck (n c) false]
  | WCheck => [to WCheck; to WOut; to (WReg RCas)]
  | WReg p =>
      match reg_step (sl c) p with
      | Some (s, p', wk) => [mk (c1 c) (c2 c) s (WReg p') (n c) (awake c || wk)]
      | None => [to WAgain]
      end
  | WAgain => [to (if c1 c then WOut else WNoLevel); to (if c2 c then WOut else WNoFlag);
               to (if c1 c || c2 c then WCheck else WParked)]
  | WNoLevel => [to (if c2 c then WFlagged else WParked)]
  | WNoFlag => [to (if c1 c then WOut else WParked)]
  | WFlagged => [to (if c1 c then WParked else WOut)]
  | WParked => [to WOut; mk (c1 c) (c2 c) (sl c) WCheck (n c) false]
  end.

Definition notifier_succs (c : conf) : list conf :=
  match n c with
  | NIdle => [mk true (c2 c) (sl c) (w c) (NWake WCas) (awake c);
              mk (c1 c) true (sl c) (w c) (NWake WCas) (awake c);
              mk (c1 c) (c2 c) (sl c) (w c) (NWake WCas) (awake c)]
  | NWake p =>
      match wake_step (sl c) p with
      | Some (s, p', wk) => [mk (c1 c) (c2 c) s (w c) (NWake p') (awake c || wk)]
      | None => [mk (c1 c) (c2 c) (sl c) (w c) NIdle (awake c)]
      end
  end.

Definition succs (c : conf) : list conf := waiter_succs c ++ notifier_succs c.

Definition start (level : bool) : conf := mk level false new WOut NIdle false.

(** A key for exploration: where both threads are, and the slot. *)
Definition reg_key (p : reg_pc) : positive :=
  (match p with
  | RCas => 1 | RCell => 2 | RRelease => 3 | RTake => 4 | RReset false => 5 | RReset true => 6
  | RWake false => 7 | RWake true => 8 | RWakeByRef => 9 | RDone => 10
  end)%positive.
Definition wake_key (p : wake_pc) : positive :=
  (match p with
  | WCas => 1 | WTake => 2 | WReset false => 3 | WReset true => 4 | WWake false => 5
  | WWake true => 6 | WOr => 7 | WDone => 8
  end)%positive.
Definition key (c : conf) : positive :=
  (let kw := match w c with
            | WOut => 1 | WCheck => 2 | WAgain => 3 | WNoLevel => 4 | WNoFlag => 5 | WFlagged => 6
            | WParked => 7 | WReg p => reg_key p + 7
            end in
  let kn := match n c with NIdle => 1 | NWake p => wake_key p + 1 end in
  let ks := match state (sl c) with WAITING => 1 | REGISTERING => 2 | WAKING => 3 | REGISTERING_WAKING => 4 end in
  kw + 32 * (kn + 16 * ks))%positive.

(** The slot says that a delivery is in progress, and none is. *)
Definition jammed (c : conf) : bool :=
  bool_decide (state (sl c) = WAKING) &&
  match n c with NWake WTake | NWake (WReset _) => false | _ => true end.

(** A call of [take_and_wake] under way that will wake a task it finds. *)
Definition delivering (c : conf) : bool :=
  match n c with
  | NWake WCas | NWake WTake | NWake (WReset true) | NWake (WWake true) => true
  | _ => false
  end.

(** A parked task is woken, has nothing to do, or is about to be woken,
    unless the slot is jammed. *)
Definition attended (c : conf) : bool :=
  match w c with
  | WParked => awake c || negb (c1 c || c2 c) || delivering c || jammed c
  | _ => true
  end.

Definition jam_stays (c : conf) : bool := implb (jammed c) (forallb jammed (succs c)).

Lemma ho_checked level c : rtc (step_of succs) (start level) c -> attended c && jam_stays c = true.
Proof.
  intros Hr. apply (verified_reachable succs key 5000 [start false; start true]
                      (fun c => attended c && jam_stays c) (start level)); [|by destruct level; set_solver|done].
  vm_compute. reflexivity.
Qed.

Lemma ho_attended level c : rtc (step_of succs) (start level) c -> w c = WParked -> awake c = false ->
  c1 c || c2 c = true -> jammed c = false -> delivering c = true.
Proof.
  intros Hr Hw Ha Hc Hj. pose proof (ho_checked _ _ Hr) as H. apply andb_true_iff in H as [H _].
  unfold attended in H. rewrite Hw, Ha, Hc, Hj in H. destruct (delivering c); done.
Qed.

(** A jammed slot is jammed for good. *)
Lemma ho_jammed_stays level c c' : rtc (step_of succs) (start level) c -> step_of succs c c' ->
  jammed c = true -> jammed c' = true.
Proof.
  intros Hr Hs Hj. pose proof (ho_checked _ _ Hr) as H. apply andb_true_iff in H as [_ H].
  unfold jam_stays in H. rewrite Hj in H. simpl in H. rewrite forallb_forall in H.
  apply H. by apply list_elem_of_In.
Qed.

Lemma ho_jammed_forever level c c' : rtc (step_of succs) (start level) c -> rtc (step_of succs) c c' ->
  jammed c = true -> jammed c' = true.
Proof.
  intros Hr Hs. revert Hr. induction Hs as [|x y z Hxy _ IH]; intros Hr Hj; [done|].
  apply IH; [by eapply rtc_r|by eapply ho_jammed_stays].
Qed.

(** A step that a view of a component makes, or does not see. *)
Definition seen {S} (view : S -> conf) (s s' : S) : Prop :=
  step_of succs (view s) (view s') \/ view s' = view s.

Lemma ho_waiter {S} (view : S -> conf) s s' : view s' ∈ waiter_succs (view s) -> seen view s s'.
Proof. intros H. left. apply elem_of_app. by left. Qed.
Lemma ho_notifier {S} (view : S -> conf) s s' : view s' ∈ notifier_succs (view s) -> seen view s s'.
Proof. intros H. left. apply elem_of_app. by right. Qed.

(** A component with an invariant under which its steps map to steps of the
    protocol, or to nothing. *)
Lemma ho_simulation {S} (step : S -> S -> Prop) (P : S -> Prop) (view : S -> conf) s s' :
  (forall a b, P a -> step a b -> P b /\ seen view a b) ->
  P s -> rtc step s s' -> P s' /\ rtc (step_of succs) (view s) (view s').
Proof.
  intros Hv Hs Hr. induction Hr as [|x y z Hxy _ IH]; [done|].
  destruct (Hv _ _ Hs Hxy) as [Hy [H|H]]; destruct (IH Hy) as [? ?]; split; try done;
    [by eapply rtc_l|by rewrite <- H].
Qed.
End Handoff.

(** The successors of a configuration, one by one. *)
Ltac successors Hc :=
  repeat match type of Hc with context [if ?b then _ else _] =>
    lazymatch b with context [if _ then _ else _] => fail | _ => destruct b eqn:? end end;
  repeat match type of Hc with context [match WakerSlot.reg_step ?s ?p with _ => _ end] =>
    destruct (WakerSlot.reg_step s p) as [[[? ?] ?]|] eqn:? end;
  try (apply list_elem_of_fmap in Hc as (? & -> & Hc); apply elem_of_seq in Hc);
  try (set_unfold in Hc; destruct_or?; subst).

(** Which successor of a view a step is. *)
Ltac pick :=
  simpl; repeat match goal with E : ?b = _ |- context [?b] => rewrite E end; simpl;
  repeat (first [apply list_elem_of_here | apply list_elem_of_further]).
