(* ===== verification/Stream.v ===== *)
(** * Stream

    The in-process duplex pipe of src/dtact-util/src/stream/native.rs: two
    half-pipes, each an [SpscQueue] of bytes (Spsc.v) with a waker slot per
    end.  First one call at a time, on the real ring: a pipe refines a pair
    of byte sequences.  Then one half-pipe with its reader and its writer
    interleaved access by access, where it matters only how many bytes there
    are. *)

From S2P Require Import Prelude Ring Fifo Spsc ModelCheck WakerSlot Handoff.

Module Stream.

Inductive ErrorKind := BrokenPipe.

(** Between calls a waker slot is [WAITING], and holds the waker of a task or
    none. *)
Record HalfPipe := mkHalf {
  queue : Spsc.t Z;
  read_waker : option Z;
  write_waker : option Z;
  writer_dropped : bool;
  reader_dropped : bool
}.

Definition half_new (capacity : Z) : outcome HalfPipe :=
  q ← Spsc.new capacity; Done (mkHalf q None None false false).

Definition set_queue (q : Spsc.t Z) (h : HalfPipe) : HalfPipe :=
  mkHalf q (read_waker h) (write_waker h) (writer_dropped h) (reader_dropped h).
Definition register_reader (k : Z) (h : HalfPipe) : HalfPipe :=
  mkHalf (queue h) (Some k) (write_waker h) (writer_dropped h) (reader_dropped h).
Definition register_writer (k : Z) (h : HalfPipe) : HalfPipe :=
  mkHalf (queue h) (read_waker h) (Some k) (writer_dropped h) (reader_dropped h).

(** [take_and_wake] on either slot: the tasks woken. *)
Definition wake_reader (h : HalfPipe) : list Z * HalfPipe :=
  (option_list (read_waker h), mkHalf (queue h) None (write_waker h) (writer_dropped h) (reader_dropped h)).
Definition wake_writer (h : HalfPipe) : list Z * HalfPipe :=
  (option_list (write_waker h), mkHalf (queue h) (read_waker h) None (writer_dropped h) (reader_dropped h)).

(** The answer of a poll, the tasks woken, and the half-pipe after it. *)
Definition polled (A : Type) : Type := Poll (result A ErrorKind) * (list Z * HalfPipe).

(** ** Reading *)

(** The bytes that [pop_slice] copied; an uninitialised one would be
    undefined behaviour. *)
Fixpoint bytes_of (cells : list (option Z)) : outcome (list Z) :=
  match cells with
  | [] => Done []
  | Some x :: cells' => l ← bytes_of cells'; Done (x :: l)
  | None :: _ => Panic
  end.

(** [pop_slice] and what follows when it moved anything. *)
Definition drain (buf_len : Z) (h : HalfPipe) : outcome (option (list Z * list Z * HalfPipe)) :=
  let '(n, cells, q) := Spsc.pop_slice buf_len (queue h) in
  if 0 <? n then
    bytes ← bytes_of cells;
    let '(w, h') := wake_writer (set_queue q h) in Done (Some (bytes, w, h'))
  else Done None.

Definition at_eof (h : HalfPipe) : bool := writer_dropped h && Spsc.is_empty (queue h).

(** [poll_read] by the task [k] with a buffer of [buf_len] bytes; the answer
    is what was written to the buffer. *)
Definition poll_read (k buf_len : Z) (h : HalfPipe) : outcome (polled (list Z)) :=
  if buf_len =? 0 then Done (Ready (Ok []), ([], h)) else
  r ← drain buf_len h;
  match r with
  | Some (bytes, w, h') => Done (Ready (Ok bytes), (w, h'))
  | None =>
      if at_eof h then Done (Ready (Ok []), ([], h)) else
      let h1 := register_reader k h in
      r ← drain buf_len h1;
      match r with
      | Some (bytes, w, h') => Done (Ready (Ok bytes), (w, h'))
      | None =>
          if at_eof h1 then Done (Ready (Ok []), ([], h1)) else Done (Pending, ([], h1))
      end
  end.

(** ** Writing *)

Definition fill (buf : list Z) (h : HalfPipe) : option (Z * list Z * HalfPipe) :=
  let '(n, q) := Spsc.push_slice buf (queue h) in
  if 0 <? n then let '(w, h') := wake_reader (set_queue q h) in Some (n, w, h') else None.

Definition poll_write (k : Z) (buf : list Z) (h : HalfPipe) : polled Z :=
  match buf with
  | [] => (Ready (Ok 0), ([], h))
  | _ =>
      if reader_dropped h then (Ready (Err BrokenPipe), ([], h)) else
      match fill buf h with
      | Some (n, w, h') => (Ready (Ok n), (w, h'))
      | None =>
          let h1 := register_writer k h in
          if reader_dropped h1 then (Ready (Err BrokenPipe), ([], h1)) else
          match fill buf h1 with
          | Some (n, w, h') => (Ready (Ok n), (w, h'))
          | None => (Pending, ([], h1))
          end
      end
  end.

(** One poll of [write_all]: the answer, with what is left to write. *)
Fixpoint write_all (fuel : nat) (k : Z) (buf : list Z) (h : HalfPipe) :
    outcome (Poll (result unit ErrorKind) * list Z * (list Z * HalfPipe)) :=
  match buf with
  | [] => Done (Ready (Ok tt), [], ([], h))
  | _ =>
      match fuel with
      | O => OutOfFuel
      | S fuel' =>
          let '(r, (w, h1)) := poll_write k buf h in
          match r with
          | Pending => Done (Pending, buf, (w, h1))
          | Ready (Err e) => Done (Ready (Err e), buf, (w, h1))
          | Ready (Ok n) =>
              '(r', rest, (w', h2)) ← write_all fuel' k (drop (Z.to_nat n) buf) h1;
              Done (r', rest, (w ++ w', h2))
          end
      end
  end.

(** ** The pair *)

(** [usize::next_power_of_two], which wraps to zero in a release build. *)
Definition next_power_of_two (n : Z) : Z := if n <=? 1 then 1 else wrap 64 (2 ^ Z.log2_up n).

(** Two half-pipes; the first end writes [half_a] and reads [half_b]. *)
Record duplex (H : Type) : Type := mkDuplex { half_a : H; half_b : H }.
Arguments mkDuplex {H}.
Arguments half_a {H}.
Arguments half_b {H}.

Definition pair (capacity : Z) : outcome (duplex HalfPipe) :=
  let capacity := Z.max (next_power_of_two capacity) 1 in
  a ← half_new capacity; b ← half_new capacity; Done (mkDuplex a b).

Inductive side := First | Second.

#[global] Instance side_eq_dec : EqDecision side.
Proof. solve_decision. Defined.

Section ends.
Context {H : Type}.

Definition tx (e : side) (s : duplex H) : H := match e with First => half_a s | Second => half_b s end.
Definition rx (e : side) (s : duplex H) : H := match e with First => half_b s | Second => half_a s end.
Definition set_tx (e : side) (h : H) (s : duplex H) : duplex H :=
  match e with First => mkDuplex h (half_b s) | Second => mkDuplex (half_a s) h end.
Definition set_rx (e : side) (h : H) (s : duplex H) : duplex H :=
  match e with First => mkDuplex (half_a s) h | Second => mkDuplex h (half_b s) end.
End ends.

(** [Drop for DtactStream]. *)
Definition drop_end (e : side) (s : duplex HalfPipe) : list Z * duplex HalfPipe :=
  let h := tx e s in
  let '(w1, h1) := wake_reader (mkHalf (queue h) (read_waker h) (write_waker h) true (reader_dropped h)) in
  let s1 := set_tx e h1 s in
  let h := rx e s1 in
  let '(w2, h2) := wake_writer (mkHalf (queue h) (read_waker h) (write_waker h) (writer_dropped h) true) in
  (w1 ++ w2, set_rx e h2 s1).

(** ** The abstract pipe *)

Record pipe := mkPipe {
  buffered : list Z;
  waiting_reader : option Z;
  waiting_writer : option Z;
  closed : bool;      (* no writer *)
  broken : bool       (* no reader *)
}.

Section spec.
Context (cap : nat).

Definition spec_read (k len : Z) (p : pipe) : Poll (result (list Z) ErrorKind) * (list Z * pipe) :=
  if len =? 0 then (Ready (Ok []), ([], p)) else
  match buffered p with
  | [] =>
      if closed p then (Ready (Ok []), ([], p))
      else (Pending, ([], mkPipe [] (Some k) (waiting_writer p) (closed p) (broken p)))
  | l =>
      (Ready (Ok (take (Z.to_nat len) l)),
       (option_list (waiting_writer p),
        mkPipe (drop (Z.to_nat len) l) (waiting_reader p) None (closed p) (broken p)))
  end.

Definition spec_write (k : Z) (data : list Z) (p : pipe) : Poll (result Z ErrorKind) * (list Z * pipe) :=
  match data with
  | [] => (Ready (Ok 0), ([], p))
  | _ =>
      if broken p then (Ready (Err BrokenPipe), ([], p))
      else
        let fits := take (cap - length (buffered p)) data in
        match fits with
        | [] => (Pending, ([], mkPipe (buffered p) (waiting_reader p) (Some k) (closed p) (broken p)))
        | _ =>
            (Ready (Ok (Z.of_nat (length fits))),
             (option_list (waiting_reader p),
              mkPipe (buffered p ++ fits) None (waiting_writer p) (closed p) (broken p)))
        end
  end.

Definition spec_close_writer (p : pipe) : list Z * pipe :=
  (option_list (waiting_reader p), mkPipe (buffered p) None (waiting_writer p) true (broken p)).
Definition spec_close_reader (p : pipe) : list Z * pipe :=
  (option_list (waiting_writer p), mkPipe (buffered p) (waiting_reader p) None (closed p) true).
End spec.

Definition abs (h : HalfPipe) : pipe :=
  mkPipe (Spsc.contents (queue h)) (read_waker h) (write_waker h) (writer_dropped h) (reader_dropped h).

Definition ok (h : HalfPipe) : Prop := Spsc.ok (queue h).
Definition half_cap (h : HalfPipe) : nat := Z.to_nat (Spsc.capacity (queue h)).

(** What an operation on a half-pipe and its specification have in common. *)
Definition agree {A} (cap : nat) (impl : A * (list Z * HalfPipe)) (spec : A * (list Z * pipe)) : Prop :=
  impl.1 = spec.1 /\ impl.2.1 = spec.2.1 /\ abs impl.2.2 = spec.2.2 /\ ok impl.2.2 /\
  half_cap impl.2.2 = cap.

Lemma pi_bytes_of l : bytes_of (Some <$> l) = Done l.
Proof.
  induction l as [|x l IH]; [done|]. rewrite fmap_cons. cbn [bytes_of]. by rewrite IH.
Qed.

Lemma pi_empty h : ok h -> Spsc.is_empty (queue h) = bool_decide (Spsc.contents (queue h) = []).
Proof.
  intros H. unfold Spsc.is_empty. rewrite Spsc.sp_empty by done. rewrite <- Spsc.sp_length by done.
  destruct (Spsc.contents (queue h)); done.
Qed.

Lemma pi_cap h : ok h -> Spsc.len (queue h) = Z.of_nat (length (Spsc.contents (queue h))) /\
  Spsc.capacity (queue h) = Z.of_nat (half_cap h).
Proof.
  intros H. pose proof (Spsc.sp_cap_pos _ H). unfold half_cap. rewrite Spsc.sp_length by done. lia.
Qed.

(** Moving at most as much as there is. *)
Lemma pi_take_min {A} (l : list A) n :
  take (Z.to_nat (Z.min (Z.of_nat (length l)) n)) l = take (Z.to_nat n) l.
Proof.
  destruct (Z.min_spec (Z.of_nat (length l)) n) as [[? ->] | [? ->]]; [|done].
  rewrite !take_ge; [done|lia|lia].
Qed.

Lemma pi_drop_min {A} (l : list A) n :
  drop (Z.to_nat (Z.min (Z.of_nat (length l)) n)) l = drop (Z.to_nat n) l.
Proof.
  destruct (Z.min_spec (Z.of_nat (length l)) n) as [[? ->] | [? ->]]; [|done].
  rewrite !drop_ge; [done|lia|lia].
Qed.

Lemma pi_drain len h : ok h -> 0 < len ->
  drain len h =
    match Spsc.contents (queue h) with
    | [] => Done None
    | l => Done (Some (take (Z.to_nat len) l, option_list (write_waker h),
             mkHalf (snd (Spsc.pop_slice len (queue h))) (read_waker h) None (writer_dropped h) (reader_dropped h)))
    end /\
  let q := snd (Spsc.pop_slice len (queue h)) in
  Spsc.ok q /\ Spsc.contents q = drop (Z.to_nat len) (Spsc.contents (queue h)) /\
  Spsc.capacity q = Spsc.capacity (queue h).
Proof.
  intros Hok Hl. destruct (Spsc.sp_pop_slice (queue h) Hok len ltac:(lia)) as (q & E & Hq & Hc & Hp).
  destruct (pi_cap h Hok) as [El _]. unfold drain. rewrite E, El in *. simpl.
  rewrite pi_bytes_of. destruct (Spsc.contents (queue h)) as [|x l] eqn:Ec.
  - rewrite Z.min_l by (simpl; lia). simpl in *. rewrite drop_nil in *. done.
  - rewrite (proj2 (Z.ltb_lt _ _)) by (simpl; lia). rewrite pi_take_min. simpl mbind.
    rewrite Hc, pi_drop_min. done.
Qed.

Lemma pi_read k len h : ok h -> 0 <= len ->
  exists r, poll_read k len h = Done r /\ agree (half_cap h) r (spec_read k len (abs h)).
Proof.
  intros Hok Hl. unfold poll_read, spec_read, agree. simpl.
  destruct (len =? 0) eqn:E0; bool_prop; [by eexists|].
  destruct (pi_drain len h Hok ltac:(lia)) as (-> & Hq & Hc & Hp).
  unfold at_eof. rewrite pi_empty by done.
  destruct (Spsc.contents (queue h)) as [|x l] eqn:Ec.
  - simpl. rewrite andb_true_r. destruct (writer_dropped h) eqn:Ew.
    + eexists. split; [done|]. simpl. unfold abs. by rewrite Ec, Ew.
    + destruct (pi_drain len (register_reader k h) Hok ltac:(lia)) as (-> & _). simpl. rewrite Ec. simpl.
      eexists. split; [done|]. simpl. unfold abs. simpl. by rewrite Ec, Ew.
  - eexists. split; [done|]. simpl. unfold abs, half_cap. simpl. by rewrite Hc, Hp.
Qed.

Lemma pi_fill buf h : ok h ->
  let fits := take (half_cap h - length (Spsc.contents (queue h))) buf in
  fill buf h =
    match fits with
    | [] => None
    | _ => Some (Z.of_nat (length fits), option_list (read_waker h),
             mkHalf (snd (Spsc.push_slice buf (queue h))) None (write_waker h) (writer_dropped h) (reader_dropped h))
    end /\
  let q := snd (Spsc.push_slice buf (queue h)) in
  Spsc.ok q /\ Spsc.contents q = Spsc.contents (queue h) ++ fits /\
  Spsc.capacity q = Spsc.capacity (queue h).
Proof.
  intros Hok fits. destruct (Spsc.sp_push_slice (queue h) Hok buf) as (q & E & Hq & Hc & Hp).
  destruct (pi_cap h Hok) as [El Ecap]. pose proof (Spsc.sp_len _ Hok) as Hle.
  set (m := Z.min (Spsc.capacity (queue h) - Spsc.len (queue h)) (Z.of_nat (length buf))) in *.
  assert (Hm : take (Z.to_nat m) buf = fits).
  { unfold fits, m. rewrite Z.min_comm, pi_take_min, El, Ecap. f_equal. lia. }
  assert (Z.of_nat (length fits) = m) as Hlen by (rewrite <- Hm, length_take; unfold m; lia).
  unfold fill. rewrite E. simpl. rewrite Hc, Hm. split; [|done].
  destruct fits as [|x l] eqn:Ef.
  - simpl in Hlen. by rewrite <- Hlen.
  - rewrite Hlen, (proj2 (Z.ltb_lt _ _)); [done|]. rewrite <- Hlen. simpl. lia.
Qed.

Lemma pi_write k buf h : ok h ->
  agree (half_cap h) (poll_write k buf h) (spec_write (half_cap h) k buf (abs h)).
Proof.
  intros Hok. unfold poll_write, spec_write, agree. destruct buf as [|b buf]; [done|].
  destruct (pi_fill (b :: buf) h Hok) as (Ef & Hq & Hc & Hp). rewrite Ef. simpl broken. simpl buffered.
  destruct (reader_dropped h) eqn:Er; [done|].
  set (fits := take _ (b :: buf)) in *. destruct fits as [|x l] eqn:El.
  - destruct (pi_fill (b :: buf) (register_writer k h) Hok) as (Ef' & _).
    change (half_cap (register_writer k h)) with (half_cap h) in Ef'.
    change (Spsc.contents (queue (register_writer k h))) with (Spsc.contents (queue h)) in Ef'.
    change (reader_dropped (register_writer k h)) with (reader_dropped h). rewrite Er, Ef'.
    fold fits. rewrite El. unfold abs. simpl. by rewrite Er.
  - unfold abs, half_cap. simpl. by rewrite Hc, Hp.
Qed.

(** One poll of [write_all]: everything that fits is written, and if that is
    not everything the writer waits for room. *)
Definition spec_write_all (cap : nat) (k : Z) (data : list Z) (p : pipe) :
    Poll (result unit ErrorKind) * list Z * (list Z * pipe) :=
  match data with
  | [] => (Ready (Ok tt), [], ([], p))
  | _ =>
      if broken p then (Ready (Err BrokenPipe), data, ([], p))
      else
        let fits := take (cap - length (buffered p)) data in
        let rest := drop (cap - length (buffered p)) data in
        let '(w, p1) :=
          match fits with
          | [] => ([], p)
          | _ => (option_list (waiting_reader p),
                  mkPipe (buffered p ++ fits) None (waiting_writer p) (closed p) (broken p))
          end in
        match rest with
        | [] => (Ready (Ok tt), [], (w, p1))
        | _ => (Pending, rest,
                (w, mkPipe (buffered p1) (waiting_reader p1) (Some k) (closed p1) (broken p1)))
        end
  end.

(** The turns of [write_all] when nobody reads meanwhile: one that writes and
    one that finds no room. *)
Definition write_all_turns : nat := 2.

(** The same loop over the specification of a write. *)
Fixpoint spec_write_loop (cap fuel : nat) (k : Z) (buf : list Z) (p : pipe) :
    outcome (Poll (result unit ErrorKind) * list Z * (list Z * pipe)) :=
  match buf with
  | [] => Done (Ready (Ok tt), [], ([], p))
  | _ =>
      match fuel with
      | O => OutOfFuel
      | S fuel' =>
          let '(r, (w, p1)) := spec_write cap k buf p in
          match r with
          | Pending => Done (Pending, buf, (w, p1))
          | Ready (Err e) => Done (Ready (Err e), buf, (w, p1))
          | Ready (Ok n) =>
              '(r', rest, (w', p2)) ← spec_write_loop cap fuel' k (drop (Z.to_nat n) buf) p1;
              Done (r', rest, (w ++ w', p2))
          end
      end
  end.

Lemma pi_write_loop fuel k data h : ok h ->
  match spec_write_loop (half_cap h) fuel k data (abs h) with
  | Done s => exists r, write_all fuel k data h = Done r /\ agree (half_cap h) r s
  | _ => True
  end.
Proof.
  revert data h. induction fuel as [|fuel IH]; intros [|b data] h Hok;
    [by eexists|done|by eexists|]. cbn [write_all spec_write_loop].
  destruct (pi_write k (b :: data) h Hok) as (H1 & H2 & H3 & H4 & H5).
  destruct (poll_write k (b :: data) h) as [r [w h1]], (spec_write _ k (b :: data) (abs h)) as [r' [w' p1]].
  simpl in H1, H2, H3, H4, H5. subst r' w' p1. destruct r as [[n | e] | ]; [|by eexists..].
  specialize (IH (drop (Z.to_nat n) (b :: data)) h1 H4). rewrite H5 in IH.
  destruct (spec_write_loop _ fuel k _ (abs h1)) as [[[r' rest] [w' p2]]| |]; [|done..].
  destruct IH as ([[q1 q2] [q3 q4]] & -> & G1 & G2 & G3 & G4 & G5). simpl in *. simplify_eq.
  eexists. split; [done|]. done.
Qed.

Lemma pi_spec_write_all cap k data p :
  spec_write_loop cap write_all_turns k data p = Done (spec_write_all cap k data p).
Proof.
  destruct data as [|b data]; [done|]. unfold write_all_turns, spec_write_all. cbn [spec_write_loop].
  unfold spec_write. destruct (broken p) eqn:Eb; [done|].
  set (d := b :: data). destruct (cap - length (buffered p))%nat as [|free] eqn:Ef; [by rewrite <- Eb|].
  simpl take. cbv iota beta. rewrite Nat2Z.id.
  replace (drop (length (b :: take free data)) d) with (drop (S free) d).
  2:{ unfold d. simpl. rewrite length_take.
      destruct (Nat.min_spec free (length data)) as [[? ->] | [? ->]]; [done|].
      by rewrite !drop_ge by lia. }
  destruct (drop (S free) d) as [|y rest] eqn:Ed; [simpl; by rewrite app_nil_r|].
  cbn [broken buffered]. cbv iota.
  replace (cap - length (buffered p ++ b :: take free data))%nat with 0%nat; [simpl; by rewrite app_nil_r|].
  rewrite length_app. simpl. rewrite length_take.
  assert (free < length data)%nat.
  { destruct (decide (free < length data)%nat); [done|].
    unfold d in Ed. simpl in Ed. by rewrite drop_ge in Ed by lia. }
  lia.
Qed.

Lemma pi_write_all k data h : ok h ->
  exists r, write_all write_all_turns k data h = Done r /\
    agree (half_cap h) r (spec_write_all (half_cap h) k data (abs h)).
Proof.
  intros Hok. pose proof (pi_write_loop write_all_turns k data h Hok) as H.
  by rewrite pi_spec_write_all in H.
Qed.

(** ** Sequences of calls *)

Inductive op :=
| ORead (e : side) (k len : Z)
| OWrite (e : side) (k : Z) (data : list Z)
| OWriteAll (e : side) (k : Z) (data : list Z)
| ODrop (e : side).

(** What the caller sees, and the tasks woken. *)
Inductive answer :=
| ARead (r : Poll (result (list Z) ErrorKind)) (w : list Z)
| AWrite (r : Poll (result Z ErrorKind)) (w : list Z)
| AWriteAll (r : Poll (result unit ErrorKind)) (rest w : list Z)
| ADrop (w : list Z).

Definition impl_step (o : op) (s : duplex HalfPipe) : outcome (answer * duplex HalfPipe) :=
  match o with
  | ORead e k len => '(r, (w, h)) ← poll_read k len (rx e s); Done (ARead r w, set_rx e h s)
  | OWrite e k data => let '(r, (w, h)) := poll_write k data (tx e s) in Done (AWrite r w, set_tx e h s)
  | OWriteAll e k data =>
      '(r, rest, (w, h)) ← write_all write_all_turns k data (tx e s);
      Done (AWriteAll r rest w, set_tx e h s)
  | ODrop e => let '(w, s') := drop_end e s in Done (ADrop w, s')
  end.

Definition spec_step (cap : nat) (o : op) (s : duplex pipe) : answer * duplex pipe :=
  match o with
  | ORead e k len => let '(r, (w, p)) := spec_read k len (rx e s) in (ARead r w, set_rx e p s)
  | OWrite e k data => let '(r, (w, p)) := spec_write cap k data (tx e s) in (AWrite r w, set_tx e p s)
  | OWriteAll e k data =>
      let '(r, rest, (w, p)) := spec_write_all cap k data (tx e s) in (AWriteAll r rest w, set_tx e p s)
  | ODrop e =>
      let '(w1, p1) := spec_close_writer (tx e s) in
      let s1 := set_tx e p1 s in
      let '(w2, p2) := spec_close_reader (rx e s1) in (ADrop (w1 ++ w2), set_rx e p2 s1)
  end.

Fixpoint impl_run (os : list op) (s : duplex HalfPipe) : outcome (list answer * duplex HalfPipe) :=
  match os with
  | [] => Done ([], s)
  | o :: os' => '(a, s1) ← impl_step o s; '(l, s2) ← impl_run os' s1; Done (a :: l, s2)
  end.

Fixpoint spec_run (cap : nat) (os : list op) (s : duplex pipe) : list answer * duplex pipe :=
  match os with
  | [] => ([], s)
  | o :: os' => let '(a, s1) := spec_step cap o s in let '(l, s2) := spec_run cap os' s1 in (a :: l, s2)
  end.

Definition abs_duplex (s : duplex HalfPipe) : duplex pipe := mkDuplex (abs (half_a s)) (abs (half_b s)).
Definition empty_pipe : pipe := mkPipe [] None None false false.

(** The bytes that a call moved. *)
Definition read_bytes (r : Poll (result (list Z) ErrorKind)) : list Z :=
  match r with Ready (Ok bytes) => bytes | _ => [] end.
Definition written_bytes (data : list Z) (r : Poll (result Z ErrorKind)) : list Z :=
  match r with Ready (Ok n) => take (Z.to_nat n) data | _ => [] end.

(** The bytes that the end [e] sent, and those that it received. *)
Definition sent (e : side) (o : op) (a : answer) : list Z :=
  match o, a with
  | OWrite e' _ data, AWrite r _ => if decide (e' = e) then written_bytes data r else []
  | OWriteAll e' _ data, AWriteAll _ rest _ =>
      if decide (e' = e) then take (length data - length rest) data else []
  | _, _ => []
  end.
Definition received (e : side) (o : op) (a : answer) : list Z :=
  match o, a with
  | ORead e' _ _, ARead r _ => if decide (e' = e) then read_bytes r else []
  | _, _ => []
  end.

Fixpoint total (f : op -> answer -> list Z) (os : list op) (l : list answer) : list Z :=
  match os, l with
  | o :: os', a :: l' => f o a ++ total f os' l'
  | _, _ => []
  end.

(** Buffers have a length. *)
Definition legal (o : op) : Prop := match o with ORead _ _ len => 0 <= len | _ => True end.

Definition duplex_ok (cap : nat) (s : duplex HalfPipe) : Prop :=
  (ok (half_a s) /\ half_cap (half_a s) = cap) /\ ok (half_b s) /\ half_cap (half_b s) = cap.

Lemma pi_rx e s : rx e (abs_duplex s) = abs (rx e s).
Proof. by destruct e. Qed.
Lemma pi_tx e s : tx e (abs_duplex s) = abs (tx e s).
Proof. by destruct e. Qed.
Lemma pi_set_rx e h s : abs_duplex (set_rx e h s) = set_rx e (abs h) (abs_duplex s).
Proof. by destruct e. Qed.
Lemma pi_set_tx e h s : abs_duplex (set_tx e h s) = set_tx e (abs h) (abs_duplex s).
Proof. by destruct e. Qed.

Lemma pi_ok_rx cap e s : duplex_ok cap s -> ok (rx e s) /\ half_cap (rx e s) = cap.
Proof. intros [? ?]. by destruct e. Qed.
Lemma pi_ok_tx cap e s : duplex_ok cap s -> ok (tx e s) /\ half_cap (tx e s) = cap.
Proof. intros [? ?]. by destruct e. Qed.
Lemma pi_ok_set_rx cap e h s : duplex_ok cap s -> ok h -> half_cap h = cap -> duplex_ok cap (set_rx e h s).
Proof. intros [? ?] ? ?. by destruct e. Qed.
Lemma pi_ok_set_tx cap e h s : duplex_ok cap s -> ok h -> half_cap h = cap -> duplex_ok cap (set_tx e h s).
Proof. intros [? ?] ? ?. by destruct e. Qed.

(** One call refines its specification. *)
Lemma pi_step cap o s : duplex_ok cap s -> legal o ->
  exists a s', impl_step o s = Done (a, s') /\ duplex_ok cap s' /\
    spec_step cap o (abs_duplex s) = (a, abs_duplex s').
Proof.
  intros Hok Hl. destruct o as [e k len|e k data|e k data|e]; cbn [impl_step spec_step];
    rewrite ?pi_rx, ?pi_tx.
  - destruct (pi_ok_rx cap e s Hok) as [H1 H2].
    destruct (pi_read k len _ H1 Hl) as ([r [w h]] & -> & G1 & G2 & G3 & G4 & G5). simpl in *.
    destruct (spec_read k len _) as [r' [w' p]]. simpl in *. subst. do 2 eexists. split; [done|].
    split; [by apply pi_ok_set_rx|]. by rewrite pi_set_rx.
  - destruct (pi_ok_tx cap e s Hok) as [H1 H2]. pose proof (pi_write k data _ H1) as (G1 & G2 & G3 & G4 & G5).
    rewrite H2 in *. destruct (poll_write k data _) as [r [w h]], (spec_write cap k data _) as [r' [w' p]].
    simpl in *. subst. do 2 eexists. split; [done|].
    split; [by apply pi_ok_set_tx|]. by rewrite pi_set_tx.
  - destruct (pi_ok_tx cap e s Hok) as [H1 H2].
    destruct (pi_write_all k data _ H1) as ([[r rest] [w h]] & -> & G1 & G2 & G3 & G4 & G5). rewrite H2 in *.
    destruct (spec_write_all cap k data _) as [[r' rest'] [w' p]]. simpl in *. simplify_eq.
    do 2 eexists. split; [done|]. split; [by apply pi_ok_set_tx|]. by rewrite pi_set_tx.
  - do 2 eexists. split; [done|]. destruct Hok as [[? ?] [? ?]]. by destruct e.
Qed.

Lemma pi_run cap os s : duplex_ok cap s -> Forall legal os ->
  exists l s', impl_run os s = Done (l, s') /\ duplex_ok cap s' /\
    spec_run cap os (abs_duplex s) = (l, abs_duplex s').
Proof.
  intros Hok Hl. revert s Hok. induction Hl as [|o os Ho _ IH]; intros s Hok.
  - by exists [], s.
  - destruct (pi_step cap o s Hok Ho) as (a & s1 & E1 & Hok1 & S1).
    destruct (IH s1 Hok1) as (l & s2 & E2 & Hok2 & S2). exists (a :: l), s2.
    simpl. by rewrite E1, S1; simpl; rewrite E2, S2.
Qed.

(** ** No byte is lost, duplicated or reordered *)

Definition peer (e : side) : side := match e with First => Second | Second => First end.

Lemma pi_flow_read k len p :
  read_bytes (spec_read k len p).1 ++ buffered (spec_read k len p).2.2 = buffered p.
Proof.
  unfold spec_read. case_match; [done|]. destruct p as [b r w c d]; simpl.
  destruct b as [|x b]; [by destruct c|]. simpl. by rewrite take_drop.
Qed.

Lemma pi_flow_write cap k data p :
  buffered (spec_write cap k data p).2.2 = buffered p ++ written_bytes data (spec_write cap k data p).1.
Proof.
  unfold spec_write. destruct data as [|b data]; [by rewrite app_nil_r|].
  destruct (broken p); [by rewrite app_nil_r|].
  destruct (take (cap - length (buffered p)) (b :: data)) as [|x l] eqn:Et; [by rewrite app_nil_r|].
  cbn [fst snd buffered written_bytes]. rewrite Nat2Z.id, <- Et. f_equal.
  rewrite length_take. destruct (Nat.min_spec (cap - length (buffered p)) (length (b :: data)))
    as [[? ->] | [? ->]]; [done|]. by rewrite !take_ge by lia.
Qed.

Lemma pi_flow_write_all cap k data p :
  buffered (spec_write_all cap k data p).2.2 =
    buffered p ++ take (length data - length (spec_write_all cap k data p).1.2) data.
Proof.
  unfold spec_write_all. destruct data as [|b data]; [by rewrite app_nil_r|]. set (d := b :: data).
  destruct (broken p); [simpl; by rewrite Nat.sub_diag, app_nil_r|].
  set (free := (cap - length (buffered p))%nat).
  assert (take free d = take (length d - length (drop free d)) d) as Ht.
  { rewrite length_drop. destruct (decide (free <= length d)%nat); [f_equal; lia|].
    by rewrite !take_ge by lia. }
  rewrite Ht. destruct (drop free d) as [|y rest];
    destruct (take (length d - _) d) as [|x l] eqn:Et; cbn [fst snd buffered];
    by rewrite ?Et, ?app_nil_r.
Qed.

(** What an end sent is what its peer received, and then what is buffered. *)
Lemma pi_flow cap e o s :
  let '(a, s') := spec_step cap o s in
  buffered (tx e s) ++ sent e o a = received (peer e) o a ++ buffered (tx e s').
Proof.
  destruct o as [e' k len|e' k data|e' k data|e']; cbn [spec_step].
  - pose proof (pi_flow_read k len (rx e' s)) as H. destruct (spec_read k len _) as [r [w p]].
    simpl in *. rewrite app_nil_r. destruct e', e; simpl in *; congruence.
  - pose proof (pi_flow_write cap k data (tx e' s)) as H. destruct (spec_write cap k data _) as [r [w p]].
    simpl in *. destruct e', e; simpl in *; rewrite ?app_nil_r; congruence.
  - pose proof (pi_flow_write_all cap k data (tx e' s)) as H.
    destruct (spec_write_all cap k data _) as [[r rest] [w p]].
    simpl in *. destruct e', e; simpl in *; rewrite ?app_nil_r; congruence.
  - destruct e', e; simpl; by rewrite app_nil_r.
Qed.

Lemma pi_flow_run cap e os s :
  let '(l, s') := spec_run cap os s in
  buffered (tx e s) ++ total (sent e) os l = total (received (peer e)) os l ++ buffered (tx e s').
Proof.
  revert s. induction os as [|o os IH]; intros s; simpl; [by rewrite app_nil_r|].
  pose proof (pi_flow cap e o s) as H. destruct (spec_step cap o s) as [a s1].
  specialize (IH s1). destruct (spec_run cap os s1) as [l s2]. simpl.
  by rewrite app_assoc, H, <- !app_assoc, IH.
Qed.

(** ** A new pair *)

Lemma pi_pow2 k : 0 <= k <= 62 -> Spsc.is_power_of_two (2 ^ k) = true.
Proof.
  intros Hk. unfold Spsc.is_power_of_two. pose proof (Z.pow_pos_nonneg 2 k).
  rewrite (proj2 (Z.ltb_lt _ _)) by lia. rewrite land_mask by lia. by rewrite Z.mod_same by lia.
Qed.

Lemma pi_next_power capacity : capacity <= 2 ^ 62 ->
  exists k, 0 <= k <= 62 /\ Z.max (next_power_of_two capacity) 1 = 2 ^ k /\ capacity <= 2 ^ k.
Proof.
  intros Hc. unfold next_power_of_two. destruct (capacity <=? 1) eqn:E; bool_prop.
  { exists 0. simpl. lia. }
  exists (Z.log2_up capacity). pose proof (Z.log2_up_nonneg capacity).
  pose proof (Z.log2_up_spec capacity ltac:(lia)) as [_ Hle].
  assert (Z.log2_up capacity <= 62) by (rewrite <- (Z.log2_up_pow2 62) by lia; by apply Z.log2_up_le_mono).
  assert (2 ^ Z.log2_up capacity <= 2 ^ 62) by (apply Z.pow_le_mono_r; lia).
  rewrite wrap_small by lia. lia.
Qed.

Lemma pi_pair capacity : capacity <= 2 ^ 62 ->
  let cap := Z.to_nat (Z.max (next_power_of_two capacity) 1) in
  exists s, pair capacity = Done s /\ capacity <= Z.of_nat cap /\ duplex_ok cap s /\
    abs_duplex s = mkDuplex empty_pipe empty_pipe.
Proof.
  intros Hc cap. destruct (pi_next_power capacity Hc) as (k & Hk & Ek & Hle).
  unfold cap, pair. rewrite Ek. unfold half_new. clear cap.
  destruct (Spsc.new (2 ^ k)) as [q| |] eqn:Eq; unfold Spsc.new in Eq; rewrite pi_pow2 in Eq by done;
    [|done..].
  assert (2 ^ k < 2 ^ 63) by (apply Z.pow_lt_mono_r; lia).
  destruct (Spsc.sp_new_ok (2 ^ k) q) as (Hok & Hcs & Hcap); [|done|].
  { unfold Spsc.new. by rewrite pi_pow2. }
  pose proof (Z.pow_pos_nonneg 2 k).
  exists (mkDuplex (mkHalf q None None false false) (mkHalf q None None false false)).
  split; [done|]. split; [lia|]. split.
  - unfold duplex_ok, ok, half_cap. simpl. by rewrite Hcap.
  - unfold abs_duplex, abs, empty_pipe. simpl. by rewrite Hcs.
Qed.
End Stream.

(** C25.  A stream pair is a pair of bounded pipes: every sequence of reads,
    writes, [write_all] polls and drops on the two ends returns, and answers
    (and wakes) as two byte sequences bounded by the capacity rounded up to a power of two would: a
    read takes the longest prefix that fits its buffer and wakes the
    writer, or reports the end when the other end is gone and everything was read, or waits; a
    write takes the longest prefix that fits and wakes the reader, fails when
    the other end is gone, or waits when there is no room; [write_all] needs no third turn.
    In both directions the bytes sent are those received followed by those still buffered. *)
Theorem stream_is_a_pipe (capacity : Z) (os : list Stream.op) :
  capacity <= 2 ^ 62 -> Forall Stream.legal os ->
  let cap := Z.to_nat (Z.max (Stream.next_power_of_two capacity) 1) in
  exists s0 l s, capacity <= Z.of_nat cap /\
    Stream.pair capacity = Done s0 /\ Stream.impl_run os s0 = Done (l, s) /\
    Stream.spec_run cap os (Stream.mkDuplex Stream.empty_pipe Stream.empty_pipe)
      = (l, Stream.abs_duplex s) /\
    forall e, Stream.total (Stream.sent e) os l =
      Stream.total (Stream.received (Stream.peer e)) os l ++
      Stream.buffered (Stream.abs (Stream.tx e s)).
Proof.
  intros Hc Hl cap. destruct (Stream.pi_pair capacity Hc) as (s0 & Ep & Hle & Hok & Ea).
  destruct (Stream.pi_run cap os s0 Hok Hl) as (l & s & El & _ & Es). rewrite Ea in Es.
  exists s0, l, s. split_and!; try done. intros e.
  pose proof (Stream.pi_flow_run cap e os (Stream.mkDuplex Stream.empty_pipe Stream.empty_pipe)) as H.
  rewrite Es, Stream.pi_tx in H. by destruct e.
Qed.

(** Three bytes into a pipe of two, then reads past its end. *)
Lemma stream_is_a_pipe_witness :
  let os := [Stream.OWriteAll Stream.First 7 [1; 2; 3]; Stream.ORead Stream.Second 8 4;
             Stream.ODrop Stream.First; Stream.ORead Stream.Second 8 4; Stream.OWrite Stream.Second 8 [5]] in
  exists s0 s, Stream.pair 2 = Done s0 /\
    Stream.impl_run os s0 =
      Done ([Stream.AWriteAll Pending [3] []; Stream.ARead (Ready (Ok [1; 2])) [7]; Stream.ADrop [];
             Stream.ARead (Ready (Ok [])) []; Stream.AWrite (Ready (Err Stream.BrokenPipe)) []], s).
Proof.
  intros os. destruct (stream_is_a_pipe 2 os ltac:(lia)) as (s0 & l & s & _ & Ep & Er & Es & _).
  { repeat constructor; simpl; lia. }
  exists s0, s. split; [exact Ep|]. rewrite Er.
  injection Es as <- _. reflexivity.
Defined.
