(* ===== verification/StreamRace.v ===== *)
(** * StreamRace

    One half-pipe of src/dtact-util/src/stream/native.rs with its reader and
    its writer interleaved access by access: the polls, the two waker slots
    (WakerSlot.v) and the drops.  Of the ring only the number of bytes in
    it matters here.  Each end is the waiting task of the protocol of
    Handoff.v for its own slot, and the notifying thread for the other's. *)

From S2P Require Import Prelude ModelCheck WakerSlot Handoff.

Module StreamRace.
Import WakerSlot.

(** Program points of [poll_read] and of the drop of a reader.  [RLoad1] and
    [RLoad2] are the loads of [tail] in the two [pop_slice] calls, [RStore n] the store
    of [head] that takes [n] bytes out; [REof] loads [writer_dropped] and [REmpty]
    is the call of [is_empty] after it. *)
Inductive reader_pc :=
| RIdle
| RLoad1
| RStore (n : nat)
| RWake (p : wake_pc)
| REof1
| REmpty1
| RReg (p : reg_pc)
| RLoad2
| REof2
| REmpty2
| REnd       (* has returned [Ok(0)] *)
| RParked    (* has returned [Pending] *)
| RClosing (p : wake_pc)
| RGone.

(** Program points of [poll_write] and of the drop of a writer. *)
Inductive writer_pc :=
| WIdle
| WCheck1
| WLoad1
| WStore (n : nat)
| WWake (p : wake_pc)
| WReg (p : reg_pc)
| WCheck2
| WLoad2
| WBroken    (* has returned [BrokenPipe] *)
| WParked
| WClosing (p : wake_pc)
| WGone.

Record conf := mk {
  len : nat;
  closed : bool;      (* writer_dropped *)
  broken : bool;      (* reader_dropped *)
  rslot : slot;
  wslot : slot;
  rd : reader_pc;
  wr : writer_pc;
  r_awake : bool;
  w_awake : bool
}.

Definition start : conf := mk 0 false false new new RIdle WIdle false false.

Definition to_rd (p : reader_pc) (c : conf) : conf :=
  mk (len c) (closed c) (broken c) (rslot c) (wslot c) p (wr c) (r_awake c) (w_awake c).
Definition to_wr (p : writer_pc) (c : conf) : conf :=
  mk (len c) (closed c) (broken c) (rslot c) (wslot c) (rd c) p (r_awake c) (w_awake c).
Definition set_len (n : nat) (c : conf) : conf :=
  mk n (closed c) (broken c) (rslot c) (wslot c) (rd c) (wr c) (r_awake c) (w_awake c).

(** A step of [take_and_wake] on the writer's slot by the reader, and [next] when it returns. *)
Definition wake_wr (p : wake_pc) (at_pc : wake_pc -> reader_pc) (next : reader_pc) (c : conf) : conf :=
  match wake_step (wslot c) p with
  | Some (s, p', wk) =>
      mk (len c) (closed c) (broken c) (rslot c) s (at_pc p') (wr c) (r_awake c) (w_awake c || wk)
  | None => to_rd next c
  end.
Definition wake_rd (p : wake_pc) (at_pc : wake_pc -> writer_pc) (next : writer_pc) (c : conf) : conf :=
  match wake_step (rslot c) p with
  | Some (s, p', wk) =>
      mk (len c) (closed c) (broken c) s (wslot c) (rd c) (at_pc p') (r_awake c || wk) (w_awake c)
  | None => to_wr next c
  end.

Section half_pipe.
Context (cap : nat).

(** Between polls an end can be polled again, woken or not, or dropped. *)
Definition reader_free (c : conf) : list conf :=
  [mk (len c) (closed c) (broken c) (rslot c) (wslot c) RLoad1 (wr c) false (w_awake c);
   mk (len c) (closed c) true (rslot c) (wslot c) (RClosing WCas) (wr c) (r_awake c) (w_awake c)].

(** The buffer, and so the number of bytes taken, is the caller's. *)
Definition reader_succs (c : conf) : list conf :=
  match rd c with
  | RIdle | REnd | RParked => reader_free c
  | RLoad1 => if (len c =? 0)%nat then [to_rd REof1 c] else (fun n => to_rd (RStore n) c) <$> seq 1 (len c)
  | RStore n => [to_rd (RWake WCas) (set_len (len c - n) c)]
  | RWake p => [wake_wr p RWake RIdle c]
  | REof1 => [to_rd (if closed c then REmpty1 else RReg RCas) c]
  | REmpty1 => [to_rd (if (len c =? 0)%nat then REnd else RReg RCas) c]
  | RReg p =>
      match reg_step (rslot c) p with
      | Some (s, p', wk) =>
          [mk (len c) (closed c) (broken c) s (wslot c) (RReg p') (wr c) (r_awake c || wk) (w_awake c)]
      | None => [to_rd RLoad2 c]
      end
  | RLoad2 => if (len c =? 0)%nat then [to_rd REof2 c] else (fun n => to_rd (RStore n) c) <$> seq 1 (len c)
  | REof2 => [to_rd (if closed c then REmpty2 else RParked) c]
  | REmpty2 => [to_rd (if (len c =? 0)%nat then REnd else RParked) c]
  | RClosing p => [wake_wr p RClosing RGone c]
  | RGone => []
  end.

Definition writer_free (c : conf) : list conf :=
  [mk (len c) (closed c) (broken c) (rslot c) (wslot c) (rd c) WCheck1 (r_awake c) false;
   mk (len c) true (broken c) (rslot c) (wslot c) (rd c) (WClosing WCas) (r_awake c) (w_awake c)].

Definition writer_succs (c : conf) : list conf :=
  match wr c with
  | WIdle | WBroken | WParked => writer_free c
  | WCheck1 => [to_wr (if broken c then WBroken else WLoad1) c]
  | WLoad1 =>
      if (len c =? cap)%nat then [to_wr (WReg RCas) c]
      else (fun n => to_wr (WStore n) c) <$> seq 1 (cap - len c)
  | WStore n => [to_wr (WWake WCas) (set_len (len c + n) c)]
  | WWake p => [wake_rd p WWake WIdle c]
  | WReg p =>
      match reg_step (wslot c) p with
      | Some (s, p', wk) =>
          [mk (len c) (closed c) (broken c) (rslot c) s (rd c) (WReg p') (r_awake c) (w_awake c || wk)]
      | None => [to_wr WCheck2 c]
      end
  | WCheck2 => [to_wr (if broken c then WBroken else WLoad2) c]
  | WLoad2 =>
      if (len c =? cap)%nat then [to_wr WParked c]
      else (fun n => to_wr (WStore n) c) <$> seq 1 (cap - len c)
  | WClosing p => [wake_rd p WClosing WGone c]
  | WGone => []
  end.

Definition succs (c : conf) : list conf := reader_succs c ++ writer_succs c.

(** ** The two views *)

Definition reader_waits (p : reader_pc) : Handoff.waiter_pc :=
  match p with
  | RIdle | RStore _ | RWake _ | REnd | RClosing _ | RGone => Handoff.WOut
  | RLoad1 | REof1 | REmpty1 => Handoff.WCheck
  | RReg p => Handoff.WReg p
  | RLoad2 => Handoff.WAgain
  | REof2 => Handoff.WNoLevel
  | REmpty2 => Handoff.WFlagged
  | RParked => Handoff.WParked
  end.
Definition reader_notifies (p : reader_pc) : Handoff.notifier_pc :=
  match p with RWake p | RClosing p => Handoff.NWake p | _ => Handoff.NIdle end.

Definition writer_waits (p : writer_pc) : Handoff.waiter_pc :=
  match p with
  | WIdle | WStore _ | WWake _ | WBroken | WClosing _ | WGone => Handoff.WOut
  | WCheck1 | WLoad1 => Handoff.WCheck
  | WReg p => Handoff.WReg p
  | WCheck2 => Handoff.WAgain
  | WLoad2 => Handoff.WNoFlag
  | WParked => Handoff.WParked
  end.
Definition writer_notifies (p : writer_pc) : Handoff.notifier_pc :=
  match p with WWake p | WClosing p => Handoff.NWake p | _ => Handoff.NIdle end.

(** What the reader waits for: bytes, or the end of the stream. *)
Definition reader_view (c : conf) : Handoff.conf :=
  Handoff.mk (negb (len c =? 0)%nat) (closed c) (rslot c) (reader_waits (rd c)) (writer_notifies (wr c)) (r_awake c).

(** What the writer waits for: room, or that there is nobody to write to. *)
Definition writer_view (c : conf) : Handoff.conf :=
  Handoff.mk (negb (len c =? cap)%nat) (broken c) (wslot c) (writer_waits (wr c)) (reader_notifies (rd c)) (w_awake c).

Record inv (c : conf) : Prop := {
  in_len : (len c <= cap)%nat;
  in_store : forall n, rd c = RStore n -> (1 <= n <= len c)%nat;
  in_push : forall n, wr c = WStore n -> (1 <= n <= cap - len c)%nat;
  in_closed : closed c = match wr c with WClosing _ | WGone => true | _ => false end;
  in_broken : broken c = match rd c with RClosing _ | RGone => true | _ => false end;
  in_end : match rd c with REmpty1 | REmpty2 => closed c = true
           | REnd => closed c = true /\ len c = 0%nat | _ => True end;
  in_err : wr c = WBroken -> broken c = true
}.

(** The parts of the invariant after a step. *)
Ltac kept :=
  intros; simplify_eq; try done; try lia; try tauto;
  repeat match goal with
  | H : forall n, rd ?c = RStore n -> _, E : rd ?c = RStore _ |- _ => specialize (H _ E)
  | H : forall n, wr ?c = WStore n -> _, E : wr ?c = WStore _ |- _ => specialize (H _ E)
  | H : forall n, RStore ?m = RStore n -> _ |- _ => specialize (H m eq_refl)
  | H : forall n, WStore ?m = WStore n -> _ |- _ => specialize (H m eq_refl)
  | H : (_ =? _)%nat = true |- _ => apply Nat.eqb_eq in H
  | H : closed _ = _ /\ _ |- _ => destruct H
  end; try lia; try (split; congruence); try congruence.

Lemma hp_reader_inv c c' : inv c -> c' ∈ reader_succs c -> inv c'.
Proof.
  intros [H1 H2 H3 H4 H5 H6 H7] Hc. unfold reader_succs in Hc.
  destruct (rd c) eqn:Er; successors Hc; try (unfold wake_wr; destruct (wake_step _ _) as [[[? ?] ?]|]);
    (split; simpl; kept).
Qed.

Lemma hp_writer_inv c c' : inv c -> c' ∈ writer_succs c -> inv c'.
Proof.
  intros [H1 H2 H3 H4 H5 H6 H7] Hc. unfold writer_succs in Hc.
  destruct (wr c) eqn:Er; successors Hc; try (unfold wake_rd; destruct (wake_step _ _) as [[[? ?] ?]|]);
    (split; simpl; kept; destruct (rd c); kept).
Qed.

Lemma hp_reader_waits c c' : c' ∈ reader_succs c -> Handoff.seen reader_view c c'.
Proof.
  intros Hc. unfold reader_succs in Hc.
  destruct (rd c) eqn:Er; successors Hc; try (unfold wake_wr; destruct (wake_step _ _) as [[[? ?] ?]|]);
    try (right; unfold reader_view; simpl; by rewrite Er);
    (apply Handoff.ho_waiter; unfold Handoff.waiter_succs, reader_view; simpl; rewrite Er; simpl; try by pick).
  destruct (len c) as [|l]; [pick|]. destruct (S l - n)%nat; pick.
Qed.

Lemma hp_writer_waits c c' : inv c -> c' ∈ writer_succs c -> Handoff.seen writer_view c c'.
Proof.
  intros Hi Hc. unfold writer_succs in Hc.
  destruct (wr c) eqn:Er; successors Hc; try (unfold wake_rd; destruct (wake_step _ _) as [[[? ?] ?]|]);
    try (right; unfold writer_view; simpl; by rewrite Er);
    (apply Handoff.ho_waiter; unfold Handoff.waiter_succs, writer_view; simpl; rewrite Er; simpl; try by pick).
  pose proof (in_push c Hi n Er). rewrite (proj2 (Nat.eqb_neq (len c) cap)) by lia.
  destruct (len c + n =? cap)%nat; pick.
Qed.

Lemma hp_reader_notifies c c' : inv c -> c' ∈ reader_succs c -> Handoff.seen writer_view c c'.
Proof.
  intros Hi Hc. unfold reader_succs in Hc.
  destruct (rd c) eqn:Er; successors Hc;
    try (unfold wake_wr; destruct (wake_step _ _) as [[[? ?] ?]|] eqn:?);
    try (right; unfold writer_view; simpl; by rewrite Er);
    (apply Handoff.ho_notifier; unfold Handoff.notifier_succs, writer_view; simpl; rewrite Er; simpl; try by pick).
  pose proof (in_store c Hi n Er). pose proof (in_len c Hi). rewrite (proj2 (Nat.eqb_neq (len c - n) cap)) by lia. pick.
Qed.

Lemma hp_writer_notifies c c' : inv c -> c' ∈ writer_succs c -> Handoff.seen reader_view c c'.
Proof.
  intros Hi Hc. unfold writer_succs in Hc.
  destruct (wr c) eqn:Er; successors Hc;
    try (unfold wake_rd; destruct (wake_step _ _) as [[[? ?] ?]|] eqn:?);
    try (right; unfold reader_view; simpl; by rewrite Er);
    (apply Handoff.ho_notifier; unfold Handoff.notifier_succs, reader_view; simpl; rewrite Er; simpl; try by pick).
  pose proof (in_push c Hi n Er). rewrite (proj2 (Nat.eqb_neq (len c + n) 0)) by lia. pick.
Qed.

Lemma hp_step c c' : inv c -> step_of succs c c' ->
  inv c' /\ Handoff.seen reader_view c c' /\ Handoff.seen writer_view c c'.
Proof.
  intros Hi Hs. apply elem_of_app in Hs as [Hs | Hs]; split_and!;
    eauto using hp_reader_inv, hp_writer_inv, hp_reader_waits, hp_writer_waits, hp_reader_notifies,
      hp_writer_notifies.
Qed.

Lemma hp_start : inv start.
Proof. split; simpl; try done; lia. Qed.

Lemma hp_reachable c : (0 < cap)%nat -> rtc (step_of succs) start c ->
  inv c /\ rtc (step_of Handoff.succs) (Handoff.start false) (reader_view c) /\
  rtc (step_of Handoff.succs) (Handoff.start true) (writer_view c).
Proof.
  intros Hcap Hr.
  destruct (Handoff.ho_simulation (step_of succs) inv reader_view start c) as [Hi Hv]; [|apply hp_start|done|].
  { intros a b Ha Hab. destruct (hp_step a b Ha Hab) as (? & ? & ?). done. }
  destruct (Handoff.ho_simulation (step_of succs) inv writer_view start c) as [_ Hw]; [|apply hp_start|done|].
  { intros a b Ha Hab. destruct (hp_step a b Ha Hab) as (? & ? & ?). done. }
  split_and!; [done|done|].
  assert (writer_view start = Handoff.start true) as <-; [|done].
  unfold writer_view. by destruct cap; [lia|].
Qed.
End half_pipe.
End StreamRace.

(** In every interleaving of a half-pipe's reader with its writer the ring
    never holds more than its capacity; a read reports the end of the stream only when the
    writer is gone and every byte has been read, and a write reports a broken pipe only when
    the reader is gone; and a parked task that could go on (bytes or the end for the
    reader, room or a broken pipe for the writer) has been woken or is about
    to be, by a call of [take_and_wake] that will find its waker, unless its
    slot is jammed in the state [WAKING]. *)
Theorem stream_parked_is_attended (cap : nat) (c : StreamRace.conf) :
  (0 < cap)%nat -> rtc (step_of (StreamRace.succs cap)) StreamRace.start c ->
  (StreamRace.len c <= cap)%nat /\
  (StreamRace.rd c = StreamRace.REnd -> StreamRace.closed c = true /\ StreamRace.len c = 0%nat) /\
  (StreamRace.wr c = StreamRace.WBroken -> StreamRace.broken c = true) /\
  (StreamRace.rd c = StreamRace.RParked -> StreamRace.r_awake c = false ->
   StreamRace.len c <> 0%nat \/ StreamRace.closed c = true ->
   Handoff.jammed (StreamRace.reader_view c) = false ->
   Handoff.delivering (StreamRace.reader_view c) = true) /\
  (StreamRace.wr c = StreamRace.WParked -> StreamRace.w_awake c = false ->
   StreamRace.len c <> cap \/ StreamRace.broken c = true ->
   Handoff.jammed (StreamRace.writer_view cap c) = false ->
   Handoff.delivering (StreamRace.writer_view cap c) = true).
Proof.
  intros Hcap Hr. destruct (StreamRace.hp_reachable cap c Hcap Hr) as (Hi & Hv & Hw).
  split; [by apply Hi|]. split.
  { intros Hend. pose proof (StreamRace.in_end _ _ Hi) as H. by rewrite Hend in H. }
  split; [by apply Hi|]. split.
  - intros Hp Ha Hc Hj. apply (Handoff.ho_attended false); try done; simpl; [by rewrite Hp|].
    apply orb_true_iff. destruct Hc as [Hc|Hc]; [left|by right]. by apply negb_true_iff, Nat.eqb_neq.
  - intros Hp Ha Hc Hj. apply (Handoff.ho_attended true); try done; simpl; [by rewrite Hp|].
    apply orb_true_iff. destruct Hc as [Hc|Hc]; [left|by right]. by apply negb_true_iff, Nat.eqb_neq.
Qed.

(** The reader parks on an empty ring of four bytes, and the writer has pushed
    one and not yet called [take_and_wake]. *)
Lemma stream_parked_is_attended_witness :
  exists c, rtc (step_of (StreamRace.succs 4)) StreamRace.start c /\
    StreamRace.rd c = StreamRace.RParked /\ StreamRace.len c = 1%nat /\
    Handoff.delivering (StreamRace.reader_view c) = true.
Proof.
  set (slot1 := WakerSlot.mkSlot WakerSlot.WAITING true).
  set (c := StreamRace.mk 1 false false slot1 WakerSlot.new StreamRace.RParked
              (StreamRace.WWake WakerSlot.WCas) false false).
  assert (rtc (step_of (StreamRace.succs 4)) StreamRace.start c) as Hr.
  { apply (follow_reachable _ (repeat 0 9 ++ [2; 2; 2; 2])%nat). exact eq_refl. }
  exists c. split; [exact Hr|]. split; [reflexivity|]. split; [reflexivity|].
  apply (stream_parked_is_attended 4 c ltac:(lia) Hr); [reflexivity..|left; discriminate|reflexivity].
Defined.

(** The slots do jam, and then a stream can deadlock: with a buffer of one
    byte, a [take_and_wake] that meets a registration and sets its bit only after the
    registration is over leaves the reader's slot in [WAKING] for ever.
    The reader then parks, the writer's next byte wakes nobody, and the
    writer parks in turn behind the byte that the reader never fetches.
    Nothing but a poll or a drop from outside moves either of them. *)
Theorem stream_can_deadlock :
  exists c, rtc (step_of (StreamRace.succs 1)) StreamRace.start c /\
    StreamRace.rd c = StreamRace.RParked /\ StreamRace.r_awake c = false /\
    StreamRace.len c = 1%nat /\
    StreamRace.wr c = StreamRace.WParked /\ StreamRace.w_awake c = false /\
    StreamRace.closed c = false /\ StreamRace.broken c = false /\
    StreamRace.succs 1 c = StreamRace.reader_free c ++ StreamRace.writer_free c /\
    forall c', rtc (step_of (StreamRace.succs 1)) c c' ->
      Handoff.jammed (StreamRace.reader_view c') = true.
Proof.
  set (c := StreamRace.mk 1 false false (WakerSlot.mkSlot WakerSlot.WAKING true)
              (WakerSlot.mkSlot WakerSlot.WAITING true) StreamRace.RParked StreamRace.WParked false false).
  assert (rtc (step_of (StreamRace.succs 1)) StreamRace.start c) as Hr.
  { apply (follow_reachable _ ([0; 0; 0; 1; 1; 1; 1; 0; 1] ++ repeat 0 19 ++ repeat 2 18)%nat). exact eq_refl. }
  exists c. repeat (split; [done|]). intros c' Hc'.
  destruct (StreamRace.hp_reachable 1 c ltac:(lia) Hr) as (Hi & Hv & _).
  destruct (Handoff.ho_simulation (step_of (StreamRace.succs 1)) (StreamRace.inv 1) StreamRace.reader_view c c')
    as [_ Hs]; [|done|done|by apply (Handoff.ho_jammed_forever false (StreamRace.reader_view c))].
  intros a b Ha Hab. destruct (StreamRace.hp_step 1 a b Ha Hab) as (? & ? & ?). done.
Qed.
