(* ===== verification/SignalRegistry.v ===== *)
(** * SignalRegistry

    The listeners of one signal, src/dtact-util/src/signal/registry.rs: the registry of at
    most sixteen, what a delivery does to each of them, and one listener
    with its delivery thread interleaved access by access (on Handoff.v). *)

From S2P Require Import Prelude ModelCheck WakerSlot Handoff.

Module SignalRegistry.

Definition MAX_LISTENERS : Z := 16.

(** Between calls the waker slot is [WAITING], and holds the waker of a task
    or none. *)
Record ListenerState := mkListener { pending : Z; waker : option Z; dead : bool }.

Definition listener_new : ListenerState := mkListener 0 None false.

(** The tasks woken, and the listener after the delivery. *)
Definition deliver (l : ListenerState) : list Z * ListenerState :=
  if dead l then ([], l)
  else (option_list (waker l), mkListener (wadd 64 (pending l) 1) None (dead l)).

(** The turns of the loop are those of a weak compare-exchange that fails
    spuriously; alone, the listener needs one. *)
Fixpoint poll_recv (fuel : nat) (k : Z) (l : ListenerState) : outcome (Poll unit * ListenerState) :=
  match fuel with
  | O => OutOfFuel
  | S fuel' =>
      let n := pending l in
      if 0 <? n then Done (Ready tt, mkListener (n - 1) (waker l) (dead l))
      else
        let l' := mkListener (pending l) (Some k) (dead l) in
        if 0 <? pending l' then poll_recv fuel' k l' else Done (Pending, l')
  end.

Definition mark_dead (l : ListenerState) : ListenerState := mkListener (pending l) (waker l) true.

(** The slots hold pointers to listeners; a listener is known by its number of
    allocation, and is never freed. *)
Record t := mk { slots : list (option nat); len : Z; listeners : list ListenerState }.

Definition new : t := mk (replicate (Z.to_nat MAX_LISTENERS) None) 0 [].

(** What a call did before it panicked stays: the outcome, with the state. *)
Definition register (s : t) : outcome nat * t :=
  let state := length (listeners s) in
  let idx := len s in
  let s1 := mk (slots s) (wadd 64 (len s) 1) (listeners s ++ [listener_new]) in
  if idx <? MAX_LISTENERS
  then (Done state, mk (<[Z.to_nat idx := Some state]> (slots s1)) (len s1) (listeners s1))
  else (Panic, s1).

(** Delivery to the listeners of a slice of the slots, in order. *)
Fixpoint deliver_all (ptrs : list (option nat)) (ls : list ListenerState) : list Z * list ListenerState :=
  match ptrs with
  | [] => ([], ls)
  | None :: ptrs' => deliver_all ptrs' ls
  | Some i :: ptrs' =>
      match ls !! i with
      | Some l =>
          let '(w, l') := deliver l in
          let '(w', ls') := deliver_all ptrs' (<[i := l']> ls) in (w ++ w', ls')
      | None => deliver_all ptrs' ls
      end
  end.

(** [&self.slots[..len]] panics when [len] is beyond the slots. *)
Definition broadcast (s : t) : outcome (list Z) * t :=
  if len s <=? Z.of_nat (length (slots s)) then
    let '(w, ls) := deliver_all (take (Z.to_nat (len s)) (slots s)) (listeners s) in
    (Done w, mk (slots s) (len s) ls)
  else (Panic, s).

(** ** Sequences of calls *)

Inductive op := Register | Broadcast | Recv (i : nat) (k : Z) | DropListener (i : nat).

Inductive answer :=
| ARegister (r : outcome nat)
| ABroadcast (r : outcome (list Z))
| ARecv (r : outcome (Poll unit))
| ADrop.

Definition outcome_map {A B} (f : A -> B) (m : outcome A) : outcome B := x ← m; Done (f x).

Definition impl_step (o : op) (s : t) : answer * t :=
  match o with
  | Register => let '(r, s') := register s in (ARegister r, s')
  | Broadcast => let '(r, s') := broadcast s in (ABroadcast r, s')
  | Recv i k =>
      match listeners s !! i with
      | Some l =>
          let r := poll_recv 1 k l in
          (ARecv (outcome_map fst r),
           mk (slots s) (len s)
              (match r with Done (_, l') => <[i := l']> (listeners s) | _ => listeners s end))
      | None => (ARecv Panic, s)
      end
  | DropListener i => (ADrop, mk (slots s) (len s) (alter mark_dead i (listeners s)))
  end.

(** ** The abstract registry *)

(** A listener is owed a number of deliveries. *)
Record listener := mkSpec { owed : nat; waiting : option Z; gone : bool }.

(** The number of registrations ever tried, and the listeners of those that
    succeeded. *)
Record registry := mkReg { tried : nat; live : list listener }.

Definition spec_deliver (l : listener) : list Z * listener :=
  if gone l then ([], l) else (option_list (waiting l), mkSpec (S (owed l)) None (gone l)).

Definition spec_recv (k : Z) (l : listener) : Poll unit * listener :=
  match owed l with
  | O => (Pending, mkSpec 0 (Some k) (gone l))
  | S n => (Ready tt, mkSpec n (waiting l) (gone l))
  end.

Definition spec_step (o : op) (s : registry) : answer * registry :=
  match o with
  | Register =>
      if (tried s <? 16)%nat
      then (ARegister (Done (tried s)), mkReg (S (tried s)) (live s ++ [mkSpec 0 None false]))
      else (ARegister Panic, mkReg (S (tried s)) (live s))
  | Broadcast =>
      if (tried s <=? 16)%nat
      then (ABroadcast (Done (live s ≫= fun l => (spec_deliver l).1)),
            mkReg (tried s) ((fun l => (spec_deliver l).2) <$> live s))
      else (ABroadcast Panic, s)
  | Recv i k =>
      match live s !! i with
      | Some l => (ARecv (Done (spec_recv k l).1), mkReg (tried s) (<[i := (spec_recv k l).2]> (live s)))
      | None => (ARecv Panic, s)
      end
  | DropListener i =>
      (ADrop, mkReg (tried s) (alter (fun l => mkSpec (owed l) (waiting l) true) i (live s)))
  end.

Section runs.
Context {S A : Type} (step : op -> S -> A * S).

Fixpoint run (os : list op) (s : S) : list A * S :=
  match os with
  | [] => ([], s)
  | o :: os' => let '(a, s1) := step o s in let '(l, s2) := run os' s1 in (a :: l, s2)
  end.
End runs.

(** A call is made by the owner of a listener that was registered. *)
Definition legal (o : op) (s : registry) : Prop :=
  match o with Recv i _ | DropListener i => (i < length (live s))%nat | _ => True end.

Fixpoint all_legal (os : list op) (s : registry) : Prop :=
  match os with [] => True | o :: os' => legal o s /\ all_legal os' (spec_step o s).2 end.

(** ** Refinement *)

Definition rep (l : ListenerState) (a : listener) : Prop :=
  pending l = Z.of_nat (owed a) /\ waker l = waiting a /\ dead l = gone a.

(** After [n] calls. *)
Record rel (n : nat) (s : t) (a : registry) : Prop := {
  rl_tried : (tried a <= n)%nat;
  rl_len : len s = Z.of_nat (tried a);
  rl_live : length (live a) = Nat.min 16 (tried a);
  rl_slots : slots s = (Some <$> seq 0 (length (live a))) ++ replicate (16 - length (live a)) None;
  rl_listeners : Forall2 rep (take (length (live a)) (listeners s)) (live a);
  rl_extra : length (listeners s) = tried a;
  rl_owed : Forall (fun l => owed l <= n)%nat (live a)
}.

Lemma sg_deliver n l a : rep l a -> (owed a <= n)%nat -> Z.of_nat (S n) < 2 ^ 64 ->
  (deliver l).1 = (spec_deliver a).1 /\ rep (deliver l).2 (spec_deliver a).2.
Proof.
  intros (H1 & H2 & H3) Ho Hn. unfold deliver, spec_deliver. rewrite H3.
  unfold rep. destruct (gone a) eqn:Eg; simpl; rewrite ?H3, ?Eg; [by split_and!|]. rewrite H1, H2.
  rewrite wadd_small by lia. split_and!; try done. lia.
Qed.

Lemma sg_deliver_all n ls ls1 (as_ : list listener) :
  Forall2 rep ls as_ -> Forall (fun l => owed l <= n)%nat as_ -> Z.of_nat (S n) < 2 ^ 64 ->
  exists ls', deliver_all (Some <$> seq (length ls1) (length as_)) (ls1 ++ ls) = (as_ ≫= fun l => (spec_deliver l).1, ls1 ++ ls') /\
    Forall2 rep ls' ((fun l => (spec_deliver l).2) <$> as_).
Proof.
  intros Hr Ho Hn. revert ls1. induction Hr as [|l a ls as_ Hla _ IH]; intros ls1.
  - by exists [].
  - inversion Ho; subst. destruct (sg_deliver n l a Hla ltac:(done) Hn) as [Hw Hrep].
    destruct (IH ltac:(done) (ls1 ++ [(deliver l).2])) as (ls' & E & Hls').
    exists ((deliver l).2 :: ls'). split; [|by constructor].
    rewrite length_app in E. cbn [length] in E. rewrite Nat.add_1_r, <- app_assoc in E.
    cbn [length seq]. rewrite fmap_cons. cbn [deliver_all].
    rewrite list_lookup_middle by done. destruct (deliver l) as [w l']. simpl in *.
    rewrite insert_app_r_alt, Nat.sub_diag by done. simpl. rewrite E, Hw. by rewrite <- app_assoc.
Qed.

(** Changing one listener on both sides. *)
Lemma sg_update n s a i l b : rel n s a -> (i < length (live a))%nat -> rep l b -> (owed b <= S n)%nat ->
  rel (S n) (mk (slots s) (len s) (<[i := l]> (listeners s))) (mkReg (tried a) (<[i := b]> (live a))).
Proof.
  intros [H1 H2 H3 H4 H5 H6 H7] Hi Hr Ho. split; cbn [fst snd tried live slots len listeners]; rewrite ?length_insert; try done; try lia.
  - rewrite take_insert_lt by done. by apply Forall2_insert.
  - apply Forall_insert; [|done]. eapply Forall_impl; [exact H7|]. simpl. lia.
Qed.

Lemma sg_lookup n s a i : rel n s a -> (i < length (live a))%nat ->
  exists l b, listeners s !! i = Some l /\ live a !! i = Some b /\ rep l b /\ (owed b <= n)%nat.
Proof.
  intros [H1 H2 H3 H4 H5 H6 H7] Hi. destruct (lookup_lt_is_Some_2 _ _ Hi) as [b Hb].
  destruct (Forall2_lookup_r _ _ _ _ _ H5 Hb) as (l & Hl & Hr). rewrite lookup_take_lt in Hl by done.
  exists l, b. split_and!; try done. by eapply Forall_lookup_1 in H7.
Qed.

Lemma sg_register n s a : rel n s a -> Z.of_nat (S n) < 2 ^ 64 ->
  exists ans s', impl_step Register s = (ans, s') /\ (spec_step Register a).1 = ans /\
    rel (S n) s' (spec_step Register a).2.
Proof.
  intros [H1 H2 H3 H4 H5 H6 H7] Hn. simpl. unfold register. rewrite H2, H6.
  rewrite wadd_small by lia. unfold MAX_LISTENERS.
  assert (Forall (fun l => owed l <= S n)%nat (live a)) as H7'.
  { eapply Forall_impl; [exact H7|]. simpl. lia. }
  destruct (tried a <? 16)%nat eqn:Et.
  - apply Nat.ltb_lt in Et. rewrite (proj2 (Z.ltb_lt _ _)) by lia. do 2 eexists. split; [done|].
    split; [done|]. rewrite Nat.min_r in H3 by lia. rewrite Nat2Z.id.
    split; cbn [fst snd tried live slots len listeners]; rewrite ?length_app, ?Nat.add_1_r; cbn [length]; try lia.
    + rewrite H4, H3, seq_S, fmap_app, insert_app_r_alt;
        rewrite length_fmap, length_seq; [|lia]. rewrite Nat.sub_diag.
      replace (16 - tried a)%nat with (S (16 - S (tried a))) by lia. simpl. by rewrite <- app_assoc.
    + rewrite H3, <- H6, take_ge in H5 by lia.
      rewrite take_ge by (rewrite length_app; simpl; lia).
      apply Forall2_app; [done|]. by repeat constructor.
    + apply Forall_app. split; [done|]. constructor; [simpl; lia|constructor].
  - apply Nat.ltb_ge in Et. rewrite (proj2 (Z.ltb_ge _ _)) by lia. do 2 eexists. split; [done|].
    split; [done|]. split; cbn [fst snd tried live slots len listeners]; rewrite ?length_app; cbn [length]; try lia; try done.
    rewrite take_app_le by lia. done.
Qed.

Lemma sg_broadcast n s a : rel n s a -> Z.of_nat (S n) < 2 ^ 64 ->
  exists ans s', impl_step Broadcast s = (ans, s') /\ (spec_step Broadcast a).1 = ans /\
    rel (S n) s' (spec_step Broadcast a).2.
Proof.
  intros [H1 H2 H3 H4 H5 H6 H7] Hn. simpl. unfold broadcast. rewrite H2.
  replace (Z.of_nat (length (slots s))) with 16.
  2:{ rewrite H4, length_app, length_fmap, length_seq, length_replicate. lia. }
  destruct (tried a <=? 16)%nat eqn:Et.
  - apply Nat.leb_le in Et. rewrite (proj2 (Z.leb_le _ _)) by lia. rewrite Nat.min_r in H3 by lia.
    rewrite Nat2Z.id. replace (take (tried a) (slots s)) with (Some <$> seq 0 (length (live a))).
    2:{ rewrite H4, H3, take_app_length'; [done|]. by rewrite length_fmap, length_seq. }
    rewrite H3, <- H6, take_ge in H5 by lia.
    destruct (sg_deliver_all n (listeners s) [] (live a) H5 H7 Hn) as (ls' & E & Hls').
    cbn [length app] in E. rewrite E. do 2 eexists. split; [done|]. split; [done|].
    pose proof (Forall2_length _ _ _ Hls') as Hlen. rewrite length_fmap in Hlen.
    split; cbn [fst snd tried live slots len listeners]; rewrite ?length_fmap; try done; try lia.
    + rewrite take_ge by lia. done.
    + apply Forall_fmap. eapply Forall_impl; [exact H7|]. intros b Hb. unfold compose, spec_deliver.
      destruct (gone b); simpl in *; lia.
  - apply Nat.leb_gt in Et. rewrite (proj2 (Z.leb_gt _ _)) by lia. do 2 eexists. split; [done|].
    split; [done|].
    split; cbn [fst snd tried live slots len listeners]; try done; [lia|].
    eapply Forall_impl; [exact H7|]. simpl. lia.
Qed.

Lemma sg_recv k n l b : rep l b -> (owed b <= n)%nat -> Z.of_nat (S n) < 2 ^ 64 ->
  exists l', poll_recv 1 k l = Done ((spec_recv k b).1, l') /\ rep l' (spec_recv k b).2 /\
    (owed (spec_recv k b).2 <= n)%nat.
Proof.
  intros (H1 & H2 & H3) Ho Hn. unfold poll_recv, spec_recv. simpl. rewrite H1.
  destruct (owed b) as [|m] eqn:Eo; simpl; rewrite ?H3; eexists; (split; [done|]); unfold rep; simpl;
    split_and!; try done; lia.
Qed.

Lemma sg_alter {A} (f : A -> A) i (l : list A) x : l !! i = Some x -> alter f i l = <[i := f x]> l.
Proof. intros H. apply list_eq. intros j. destruct (decide (i = j)) as [<-|Hne].
  - by rewrite list_lookup_alter_eq, H, list_lookup_insert_eq by (by eapply lookup_lt_Some).
  - by rewrite list_lookup_alter_ne, list_lookup_insert_ne.
Qed.

Lemma sg_step n o s a : rel n s a -> legal o a -> Z.of_nat (S n) < 2 ^ 64 ->
  exists ans s', impl_step o s = (ans, s') /\ (spec_step o a).1 = ans /\
    rel (S n) s' (spec_step o a).2.
Proof.
  intros Hr Hl Hn. destruct o as [| |i k|i]; [by apply sg_register|by apply sg_broadcast|..].
  - destruct (sg_lookup n s a i Hr Hl) as (l & b & E1 & E2 & Hrep & Ho). cbn [impl_step spec_step]. rewrite E1, E2.
    destruct (sg_recv k n l b Hrep Ho Hn) as (l' & -> & Hrep' & Ho'). do 2 eexists. split; [done|].
    split; [done|]. simpl. apply sg_update; try done. lia.
  - destruct (sg_lookup n s a i Hr Hl) as (l & b & E1 & E2 & Hrep & Ho). simpl.
    rewrite (sg_alter _ _ _ _ E1), (sg_alter _ _ _ _ E2). do 2 eexists. split; [done|]. split; [done|].
    apply sg_update; [done|done| |simpl; lia]. destruct Hrep as (? & ? & ?). done.
Qed.

Lemma sg_new : rel 0 new (mkReg 0 []).
Proof. split; simpl; try done; lia. Qed.

Lemma sg_run n os s a : rel n s a -> all_legal os a -> Z.of_nat (n + length os) < 2 ^ 64 ->
  exists l s', run impl_step os s = (l, s') /\ (run spec_step os a).1 = l /\
    rel (n + length os) s' (run spec_step os a).2.
Proof.
  revert n s a. induction os as [|o os IH]; intros n s a Hr Hl Hn.
  - exists [], s. simpl. by rewrite Nat.add_0_r.
  - destruct Hl as [Ho Hl]. cbn [length] in Hn.
    destruct (sg_step n o s a Hr Ho ltac:(lia)) as (ans & s1 & E1 & E2 & Hr1).
    destruct (IH (S n) s1 _ Hr1 Hl ltac:(lia)) as (l & s2 & E3 & E4 & Hr2).
    exists (ans :: l), s2. simpl. rewrite E1, E3.
    destruct (spec_step o a) as [ans' a1]. simpl in *. subst ans'.
    destruct (run spec_step os a1) as [l' a2]. simpl in *. subst. split_and!; try done.
    by rewrite Nat.add_succ_r.
Qed.

(** ** The process

    src/dtact-util/src/signal/unix.rs: a registry per signal number, and one pipe from the
    handler to the reader thread.  [pipe] is the content of the pipe once [WRITE_FD] is set;
    the operating system's part is that a raised signal runs its handler if one
    is installed, and that the pipe keeps bytes in order. *)

Definition NSIG : nat := 65.

Record process := mkProcess {
  registries : list t;
  installed : list bool;
  pipe : option (list Z);
  reader : bool      (* the reader thread runs *)
}.

Definition process_new : process := mkProcess (replicate NSIG new) (replicate NSIG false) None false.

Definition set_registry (i : nat) (s : t) (p : process) : process :=
  mkProcess (<[i := s]> (registries p)) (installed p) (pipe p) (reader p).

Definition ensure_pipe_and_reader (p : process) : process :=
  match pipe p with
  | Some _ => p
  | None => mkProcess (registries p) (installed p) (Some []) true
  end.

Definition ensure_handler_installed (sig : nat) (p : process) : process :=
  let p1 := ensure_pipe_and_reader p in
  mkProcess (registries p1) (<[sig := true]> (installed p1)) (pipe p1) (reader p1).

(** [DtactSignalStream::new]; the index panics past the registries. *)
Definition stream_new (sig : nat) (p : process) : outcome nat * process :=
  let p1 := ensure_handler_installed sig p in
  match registries p1 !! sig with
  | Some s => let '(r, s') := register s in (r, set_registry sig s' p1)
  | None => (Panic, p1)
  end.

(** The signal number as a byte, into a pipe that has room. *)
Definition handler (sig : nat) (p : process) : process :=
  match pipe p with
  | Some bytes => mkProcess (registries p) (installed p) (Some (bytes ++ [Z.of_nat sig `mod` 256])) (reader p)
  | None => p
  end.

Definition raise (sig : nat) (p : process) : process :=
  match installed p !! sig with Some true => handler sig p | _ => p end.

(** One turn of [reader_loop]: a panic ends the thread. *)
Definition reader_turn (p : process) : process :=
  match pipe p with
  | Some (b :: rest) =>
      if reader p then
        let p1 := mkProcess (registries p) (installed p) (Some rest) true in
        match registries p !! Z.to_nat b with
        | Some s =>
            match broadcast s with
            | (Done _, s') => set_registry (Z.to_nat b) s' p1
            | (_, s') => let p2 := set_registry (Z.to_nat b) s' p1 in
                         mkProcess (registries p2) (installed p2) (pipe p2) false
            end
        | None => p1
        end
      else p
  | _ => p
  end.

Inductive event :=
| ENew (sig : nat)
| ERaise (sig : nat)
| ETurn
| ECall (sig : nat) (o : op).

(** A listener's own calls: receiving and dropping. *)
Definition own_call (o : op) : bool := match o with Recv _ _ | DropListener _ => true | _ => false end.

Definition event_step (e : event) (p : process) : process :=
  match e with
  | ENew sig => (stream_new sig p).2
  | ERaise sig => raise sig p
  | ETurn => reader_turn p
  | ECall sig o =>
      match registries p !! sig with
      | Some s => if own_call o then set_registry sig (impl_step o s).2 p else p
      | None => p
      end
  end.

Definition process_run (es : list event) (p : process) : process := fold_left (fun p e => event_step e p) es p.

Definition listener_at (sig i : nat) (p : process) : option ListenerState :=
  s ← registries p !! sig; listeners s !! i.

(** No listener gains a delivery. *)
Definition no_gain (p p' : process) : Prop :=
  forall sig i l, listener_at sig i p = Some l ->
    exists l', listener_at sig i p' = Some l' /\ pending l' <= pending l.

Lemma sg_no_gain_refl p : no_gain p p.
Proof. intros sig i l H. eauto with lia. Qed.

Lemma sg_no_gain_trans p q r : no_gain p q -> no_gain q r -> no_gain p r.
Proof.
  intros H1 H2 sig i l Hl. destruct (H1 _ _ _ Hl) as (l1 & Hl1 & Hle).
  destruct (H2 _ _ _ Hl1) as (l2 & Hl2 & Hle'). eauto with lia.
Qed.

Lemma sg_no_gain_registries p q : registries q = registries p -> no_gain p q.
Proof. intros E sig i l H. unfold listener_at in *. rewrite E. eauto with lia. Qed.

Lemma sg_no_gain_set sig s s' p : registries p !! sig = Some s ->
  (forall i l, listeners s !! i = Some l -> exists l', listeners s' !! i = Some l' /\ pending l' <= pending l) ->
  no_gain p (set_registry sig s' p).
Proof.
  intros Hs Hl sig' i l H. unfold listener_at in *. simpl.
  destruct (decide (sig = sig')) as [<-|Hne].
  - rewrite list_lookup_insert_eq by (by eapply lookup_lt_Some). rewrite Hs in H. by apply Hl.
  - rewrite list_lookup_insert_ne by done. eauto with lia.
Qed.

Lemma sg_register_no_gain s i l : listeners s !! i = Some l -> listeners (register s).2 !! i = Some l.
Proof.
  intros H. unfold register. case_match; simpl; rewrite lookup_app_l by (by eapply lookup_lt_Some); done.
Qed.

Lemma sg_call_no_gain o s i l : own_call o = true -> listeners s !! i = Some l ->
  exists l', listeners (impl_step o s).2 !! i = Some l' /\ pending l' <= pending l.
Proof.
  intros Ho Hl. destruct o as [| |j k|j]; try done; cbn [impl_step].
  - destruct (listeners s !! j) as [l0|] eqn:Ej; [|eauto with lia].
    unfold poll_recv. cbn -[Z.ltb]. destruct (0 <? pending l0) eqn:E; bool_prop; simpl;
      destruct (decide (j = i)) as [<-|Hne];
      rewrite ?list_lookup_insert_eq by (by eapply lookup_lt_Some); rewrite ?list_lookup_insert_ne by done;
      simplify_eq; try (eexists; split; [done|simpl; lia]).
  - simpl. destruct (decide (j = i)) as [<-|Hne].
    + rewrite list_lookup_alter_eq, Hl. eexists. split; [done|]. simpl. lia.
    + rewrite list_lookup_alter_ne by done. eauto with lia.
Qed.

(** The reader thread is gone, and is never started again. *)
Definition deaf (p : process) : Prop := reader p = false /\ pipe p <> None.

Lemma sg_deaf_step e p : deaf p -> deaf (event_step e p) /\ no_gain p (event_step e p).
Proof.
  intros [Hr Hp]. destruct (pipe p) as [bytes|] eqn:Ep; [|done].
  destruct e as [sig|sig| |sig o]; cbn [event_step].
  - unfold stream_new, ensure_handler_installed, ensure_pipe_and_reader. rewrite Ep. cbn [registries].
    destruct (registries p !! sig) as [s|] eqn:Es.
    + pose proof (sg_register_no_gain s) as Hreg. destruct (register s) as [r s']. simpl in *.
      split; [split; simpl; congruence|].
      eapply sg_no_gain_trans; [|apply (sg_no_gain_set sig s)]; [by apply sg_no_gain_registries|done|].
      intros i l Hl. eauto with lia.
    + split; [split; simpl; congruence|by apply sg_no_gain_registries].
  - unfold raise, handler. rewrite Ep. repeat case_match; (split; [split; simpl; congruence|]);
      by apply sg_no_gain_registries.
  - unfold reader_turn. rewrite Ep, Hr. destruct bytes; (split; [split; congruence|apply sg_no_gain_refl]).
  - destruct (registries p !! sig) as [s|] eqn:Es; [|split; [split; congruence|apply sg_no_gain_refl]].
    destruct (own_call o) eqn:Eo; [|split; [split; congruence|apply sg_no_gain_refl]].
    split; [split; simpl; congruence|]. apply (sg_no_gain_set sig s); [done|].
    intros i l Hl. by apply sg_call_no_gain.
Qed.

Lemma sg_deaf_run es p : deaf p -> deaf (process_run es p) /\ no_gain p (process_run es p).
Proof.
  revert p. induction es as [|e es IH]; intros p Hp; [split; [done|apply sg_no_gain_refl]|].
  destruct (sg_deaf_step e p Hp) as [H1 H2]. destruct (IH _ H1) as [H3 H4].
  split; [done|]. by eapply sg_no_gain_trans.
Qed.
End SignalRegistry.

(** The registry refines a list of at most sixteen counters: for every
    sequence of fewer than 2^64 registrations, broadcasts, polls and drops, the first
    sixteen registrations succeed, a broadcast adds one to what every
    listener that is not dropped is owed and wakes those that wait, and a poll takes one
    of the deliveries owed or waits.  Slots are not given back: the
    seventeenth registration panics even when earlier listeners have been dropped, and
    from then on every broadcast panics and delivers nothing. *)
Theorem signal_registry_refines_counters (os : list SignalRegistry.op) :
  SignalRegistry.all_legal os (SignalRegistry.mkReg 0 []) -> Z.of_nat (length os) < 2 ^ 64 ->
  exists l s a, SignalRegistry.run SignalRegistry.impl_step os SignalRegistry.new = (l, s) /\
    SignalRegistry.run SignalRegistry.spec_step os (SignalRegistry.mkReg 0 []) = (l, a) /\
    Forall2 SignalRegistry.rep (take (length (SignalRegistry.live a)) (SignalRegistry.listeners s))
      (SignalRegistry.live a) /\
    length (SignalRegistry.live a) = Nat.min (Z.to_nat SignalRegistry.MAX_LISTENERS) (SignalRegistry.tried a) /\
    (16 < SignalRegistry.tried a -> SignalRegistry.broadcast s = (Panic, s))%nat.
Proof.
  intros Hl Hn. destruct (SignalRegistry.sg_run 0 os _ _ SignalRegistry.sg_new Hl Hn) as (l & s & E1 & E2 & Hr).
  destruct (SignalRegistry.run SignalRegistry.spec_step os _) as [l' a] eqn:E. simpl in E2, Hr. subst l'.
  destruct Hr as [H1 H2 H3 H4 H5 H6 H7]. exists l, s, a. split_and!; try done.
  intros Ht. unfold SignalRegistry.broadcast. rewrite H2, H4.
  rewrite length_app, length_fmap, length_seq, length_replicate, (proj2 (Z.leb_gt _ _)); [done|lia].
Qed.

(** Two listeners; one is dropped, one receives. *)
Lemma signal_registry_refines_counters_witness :
  let os := [SignalRegistry.Register; SignalRegistry.Recv 0 7; SignalRegistry.Register;
             SignalRegistry.DropListener 1; SignalRegistry.Broadcast; SignalRegistry.Recv 0 7;
             SignalRegistry.Recv 0 7] in
  exists s, SignalRegistry.run SignalRegistry.impl_step os SignalRegistry.new =
    ([SignalRegistry.ARegister (Done 0%nat); SignalRegistry.ARecv (Done Pending);
      SignalRegistry.ARegister (Done 1%nat); SignalRegistry.ADrop;
      SignalRegistry.ABroadcast (Done [7]); SignalRegistry.ARecv (Done (Ready tt));
      SignalRegistry.ARecv (Done Pending)], s).
Proof.
  intros os. destruct (signal_registry_refines_counters os) as (l & s & a & -> & E & _);
    [simpl; lia|simpl; lia|]. exists s. by injection E as <- _.
Defined.

(** Seventeen registrations for one signal silence all of them: once a
    signal arrives whose registry has had more registrations than slots, the
    broadcast panics on the reader thread and ends it, and whatever happens
    afterwards (new streams, further signals of any kind) no listener of any
    signal is ever delivered anything again. *)
Theorem signal_reader_dies (p : SignalRegistry.process) (sig : nat) (rest : list Z)
    (s : SignalRegistry.t) (es : list SignalRegistry.event) :
  SignalRegistry.reader p = true ->
  SignalRegistry.pipe p = Some (Z.of_nat sig :: rest) ->
  SignalRegistry.registries p !! sig = Some s ->
  Z.of_nat (length (SignalRegistry.slots s)) < SignalRegistry.len s ->
  let p' := SignalRegistry.process_run (SignalRegistry.ETurn :: es) p in
  SignalRegistry.reader p' = false /\ SignalRegistry.no_gain p p'.
Proof.
  intros Hr Hp Hs Hlen. simpl. unfold SignalRegistry.reader_turn. rewrite Hp, Hr, Nat2Z.id, Hs.
  unfold SignalRegistry.broadcast. rewrite (proj2 (Z.leb_gt _ _)) by done. simpl.
  match goal with |- context [SignalRegistry.process_run es ?q] => set (p1 := q) end.
  destruct (SignalRegistry.sg_deaf_run es p1) as [[H1 _] H2]; [done|]. split; [done|].
  eapply SignalRegistry.sg_no_gain_trans; [|exact H2].
  apply (SignalRegistry.sg_no_gain_set sig s s p); [done|]. intros i l Hl. eauto with lia.
Qed.

(** Seventeen streams for signal 10 and one for signal 2; signal 10 arrives. *)
Lemma signal_reader_dies_witness :
  let p := SignalRegistry.process_run
    (SignalRegistry.ENew 2 :: repeat (SignalRegistry.ENew 10) 17 ++ [SignalRegistry.ERaise 10])
    SignalRegistry.process_new in
  let es := [SignalRegistry.ERaise 2; SignalRegistry.ETurn; SignalRegistry.ECall 2 (SignalRegistry.Recv 0 1)] in
  let p' := SignalRegistry.process_run (SignalRegistry.ETurn :: es) p in
  SignalRegistry.listener_at 2 0 p = Some SignalRegistry.listener_new /\
  SignalRegistry.reader p' = false /\ SignalRegistry.no_gain p p'.
Proof.
  intros p es p'. split; [vm_compute; reflexivity|].
  destruct (SignalRegistry.registries p !! 10%nat) as [s|] eqn:E; [|vm_compute in E; discriminate E].
  refine (signal_reader_dies p 10 [] s es _ _ E _); [vm_compute; reflexivity..|].
  assert (SignalRegistry.registries p !! 10%nat = Some s) as E' by exact E.
  vm_compute in E'. injection E' as <-. vm_compute. reflexivity.
Defined.
