(* ===== verification/SignalRace.v ===== *)
(** * SignalRace

    One listener of src/dtact-util/src/signal/registry.rs: its [poll_recv], its drop and the
    [deliver] of the delivery thread, interleaved access by access.  The listener is
    the waiting task of the protocol of Handoff.v. *)

From S2P Require Import Prelude ModelCheck WakerSlot Handoff.

Module SignalRace.
Import WakerSlot.

(** Program points of [poll_recv]; [LCas n] has loaded [n] deliveries. *)
Inductive listener_pc :=
| LIdle
| LLoad1
| LCas (n : nat)
| LReg (p : reg_pc)
| LLoad2
| LReady
| LParked
| LGone.

(** Program points of [deliver]. *)
Inductive deliver_pc := DIdle | DLoad | DAdd | DWake (p : wake_pc).

Record conf := mk {
  pending : nat;
  dead : bool;
  waker : slot;
  li : listener_pc;
  de : deliver_pc;
  awake : bool
}.

Definition start : conf := mk 0 false new LIdle DIdle false.

Definition to_li (p : listener_pc) (c : conf) : conf := mk (pending c) (dead c) (waker c) p (de c) (awake c).
Definition to_de (p : deliver_pc) (c : conf) : conf := mk (pending c) (dead c) (waker c) (li c) p (awake c).

Definition listener_succs (c : conf) : list conf :=
  match li c with
  | LIdle | LReady | LParked =>
      [mk (pending c) (dead c) (waker c) LLoad1 (de c) false;
       mk (pending c) true (waker c) LGone (de c) (awake c)]
  | LLoad1 => [to_li (if (pending c =? 0)%nat then LReg RCas else LCas (pending c)) c]
  | LCas n =>
      (* the weak compare-exchange can also fail for no reason *)
      to_li LLoad1 c ::
      (if (pending c =? n)%nat then [mk (n - 1) (dead c) (waker c) LReady (de c) (awake c)] else [])
  | LReg p =>
      match reg_step (waker c) p with
      | Some (s, p', wk) => [mk (pending c) (dead c) s (LReg p') (de c) (awake c || wk)]
      | None => [to_li LLoad2 c]
      end
  | LLoad2 => [to_li (if (pending c =? 0)%nat then LParked else LLoad1) c]
  | LGone => []
  end.

Definition deliver_succs (c : conf) : list conf :=
  match de c with
  | DIdle => [to_de DLoad c]
  | DLoad => [to_de (if dead c then DIdle else DAdd) c]
  | DAdd => [mk (S (pending c)) (dead c) (waker c) (li c) (DWake WCas) (awake c)]
  | DWake p =>
      match wake_step (waker c) p with
      | Some (s, p', wk) => [mk (pending c) (dead c) s (li c) (DWake p') (awake c || wk)]
      | None => [to_de DIdle c]
      end
  end.

Definition succs (c : conf) : list conf := listener_succs c ++ deliver_succs c.

Definition listener_waits (p : listener_pc) : Handoff.waiter_pc :=
  match p with
  | LIdle | LCas _ | LReady | LGone => Handoff.WOut
  | LLoad1 => Handoff.WCheck
  | LReg p => Handoff.WReg p
  | LLoad2 => Handoff.WAgain
  | LParked => Handoff.WParked
  end.

Definition view (c : conf) : Handoff.conf :=
  Handoff.mk (negb (pending c =? 0)%nat) false (waker c) (listener_waits (li c))
    (match de c with DWake p => Handoff.NWake p | _ => Handoff.NIdle end) (awake c).

Lemma sl_listener c c' : c' ∈ listener_succs c -> Handoff.seen view c c'.
Proof.
  intros Hc. unfold listener_succs in Hc. destruct (li c) eqn:Er; successors Hc;
    try (right; unfold view; simpl; by rewrite Er);
    (apply Handoff.ho_waiter; unfold Handoff.waiter_succs, view; simpl; rewrite Er; simpl; try by pick).
  match goal with E : (pending c =? n)%nat = true |- _ => apply Nat.eqb_eq in E; rewrite E end.
  destruct n as [|[|n]]; pick.
Qed.

Lemma sl_deliver c c' : c' ∈ deliver_succs c -> Handoff.seen view c c'.
Proof.
  intros Hc. unfold deliver_succs in Hc. destruct (de c) eqn:Er;
    try destruct (wake_step _ _) as [[[? ?] ?]|] eqn:?; successors Hc;
    try (right; unfold view; simpl; by rewrite Er);
    (apply Handoff.ho_notifier; unfold Handoff.notifier_succs, view; simpl; rewrite Er; simpl; by pick).
Qed.

Lemma sl_reachable c : rtc (step_of succs) start c -> rtc (step_of Handoff.succs) (Handoff.start false) (view c).
Proof.
  intros Hr. apply (Handoff.ho_simulation (step_of succs) (fun _ => True) view start c); [|done|done].
  intros a b _ Hs. split; [done|]. apply elem_of_app in Hs as [Hs | Hs];
    [by apply sl_listener|by apply sl_deliver].
Qed.

(** A parked listener with a delivery pending has been woken or is about to be,
    unless its slot is jammed. *)
Lemma sl_attended c : rtc (step_of succs) start c -> li c = LParked -> awake c = false ->
  pending c <> 0%nat -> Handoff.jammed (view c) = false -> Handoff.delivering (view c) = true.
Proof.
  intros Hr Hl Ha Hp Hj. apply (Handoff.ho_attended false); try done; [by apply sl_reachable| |];
    simpl; [by rewrite Hl|]. rewrite orb_false_r. by apply negb_true_iff, Nat.eqb_neq.
Qed.

(** It can be: then the listener sleeps with a delivery pending, and no later
    delivery wakes it. *)
Lemma sl_can_miss_delivery :
  exists c, rtc (step_of succs) start c /\ li c = LParked /\ awake c = false /\ pending c = 1%nat /\
    de c = DIdle /\
    forall c', rtc (step_of succs) c c' -> Handoff.jammed (view c') = true.
Proof.
  set (c := mk 1 false (mkSlot WAKING true) LParked DIdle false).
  assert (rtc (step_of succs) start c) as Hr.
  { apply (follow_reachable _ ([0; 0; 1; 1; 1; 0; 1] ++ repeat 0 5 ++ [1] ++ repeat 0 7 ++ repeat 2 8)%nat). exact eq_refl. }
  exists c. repeat (split; [done|]). intros c' Hc'.
  apply (Handoff.ho_jammed_forever false (view c)); [by apply sl_reachable| |done].
  apply (Handoff.ho_simulation (step_of succs) (fun _ => True) view c c'); [|done|done].
  intros a b _ Hs. split; [done|]. apply elem_of_app in Hs as [Hs | Hs];
    [by apply sl_listener|by apply sl_deliver].
Qed.
End SignalRace.
