(* ===== verification/BufIO.v ===== *)
(** * BufIO

    The combinators of src/dtact-util/src/io/combinators.rs over a stream that is a
    parameter: [copy], [BufReader] and [BufWriter].  An [await] is the call that
    it waits for.  A future dropped while it waits leaves behind what an
    error at that point leaves behind, so the error cases cover it. *)

From S2P Require Import Prelude.

(** ** The streams *)

(** [AsyncRead::read] into a buffer of a length, with the bytes that arrived, and
    [AsyncWrite::write], with the number accepted. *)
Class AsyncRead (R E : Type) := read : Z -> R -> result (list Z) E * R.
Class AsyncWrite (W E : Type) := write : list Z -> W -> result Z E * W.

(** The documented contract of the two calls, for a source that ends: a
    read returns the next bytes, none only at the end, and an error consumes nothing. *)
Class ReadLaws (R E : Type) `{!AsyncRead R E} := {
  source : R -> list Z;
  read_ok : forall n r l r', read n r = (Ok l, r') -> 0 <= n ->
    Z.of_nat (length l) <= n /\ source r = l ++ source r' /\ (l = [] -> 0 < n -> source r = []);
  read_err : forall n r e r', read n r = (Err e, r') -> source r' = source r
}.

(** A write takes a prefix, and an error takes nothing. *)
Class WriteLaws (W E : Type) `{!AsyncWrite W E} := {
  sink : W -> list Z;
  write_ok : forall l w n w', write l w = (Ok n, w') ->
    0 <= n <= Z.of_nat (length l) /\ sink w' = sink w ++ take (Z.to_nat n) l;
  write_err : forall l w e w', write l w = (Err e, w') -> sink w' = sink w
}.

Inductive io_error (E : Type) := WriteZero | Inner (e : E).
Arguments WriteZero {E}.
Arguments Inner {E} e.

Module BufIO.
Section streams.
Context {R W E : Type} `{!AsyncRead R E, !AsyncWrite W E}.

(** The inner loop of [copy] and the loop of [flush]: write out [data], of which
    [written] bytes are done. *)
Fixpoint write_out (fuel : nat) (data : list Z) (written : Z) (w : W) : outcome (result Z (io_error E) * W) :=
  match fuel with
  | O => OutOfFuel
  | S fuel' =>
      if written <? Z.of_nat (length data) then
        match write (drop (Z.to_nat written) data) w with
        | (Ok n, w') =>
            if n =? 0 then Done (Err WriteZero, w') else write_out fuel' data (written + n) w'
        | (Err e, w') => Done (Err (Inner e), w')
        end
      else Done (Ok written, w)
  end.

(** Every turn but the last writes a byte. *)
Definition turns (data : list Z) : nat := S (length data).

(** ** [copy] *)

Definition COPY_BUF : Z := 8192.

Fixpoint copy_loop (fuel : nat) (total : Z) (r : R) (w : W) : outcome (result Z (io_error E) * R * W) :=
  match fuel with
  | O => OutOfFuel
  | S fuel' =>
      match read COPY_BUF r with
      | (Err e, r') => Done (Err (Inner e), r', w)
      | (Ok [], r') => Done (Ok total, r', w)
      | (Ok data, r') =>
          '(res, w') ← write_out (turns data) data 0 w;
          match res with
          | Ok written => copy_loop fuel' (wadd 64 total written) r' w'
          | Err e => Done (Err e, r', w')
          end
      end
  end.

Definition copy (fuel : nat) (r : R) (w : W) : outcome (result Z (io_error E) * R * W) := copy_loop fuel 0 r w.

(** ** [BufReader] *)

Record BufReader := mkReader { r_inner : R; r_buf : list Z; pos : nat; filled : nat }.

Definition reader_with_capacity (capacity : Z) (r : R) : BufReader :=
  mkReader r (replicate (Z.to_nat (Z.max capacity 1)) 0) 0 0.

Definition available (s : BufReader) : list Z := take (filled s - pos s) (drop (pos s) (r_buf s)).

(** The second half of [read], into a buffer of [len] bytes. *)
Definition take_buffered (len : Z) (s : BufReader) : result (list Z) E * BufReader :=
  let n := Nat.min (length (available s)) (Z.to_nat len) in
  (Ok (take n (available s)), mkReader (r_inner s) (r_buf s) (pos s + n) (filled s)).

Definition reader_read (len : Z) (s : BufReader) : result (list Z) E * BufReader :=
  if (pos s =? filled s)%nat then
    match read (Z.of_nat (length (r_buf s))) (r_inner s) with
    | (Err e, r') => (Err e, mkReader r' (r_buf s) (pos s) (filled s))
    | (Ok l, r') =>
        let s' := mkReader r' (l ++ drop (length l) (r_buf s)) 0 (length l) in
        if (length l =? 0)%nat then (Ok [], s') else take_buffered len s'
    end
  else take_buffered len s.

(** ** [BufWriter] *)

Record BufWriter := mkWriter { inner : W; buf : list Z; capacity : Z }.

Definition with_capacity (capacity : Z) (w : W) : BufWriter := mkWriter w [] (Z.max capacity 1).

Definition flush (s : BufWriter) : outcome (result unit (io_error E) * BufWriter) :=
  '(r, w) ← write_out (turns (buf s)) (buf s) 0 (inner s);
  match r with
  | Ok _ => Done (Ok tt, mkWriter w [] (capacity s))
  | Err e => Done (Err e, mkWriter w (buf s) (capacity s))
  end.

Definition writer_write (data : list Z) (s : BufWriter) : outcome (result Z (io_error E) * BufWriter) :=
  let extend s :=
    Done (Ok (Z.of_nat (length data)), mkWriter (inner s) (buf s ++ data) (capacity s)) in
  if capacity s <=? Z.of_nat (length data) then
    '(r, s1) ← flush s;
    match r with
    | Err e => Done (Err e, s1)
    | Ok _ =>
        match write data (inner s1) with
        | (Ok n, w) => Done (Ok n, mkWriter w (buf s1) (capacity s1))
        | (Err e, w) => Done (Err (Inner e), mkWriter w (buf s1) (capacity s1))
        end
    end
  else if capacity s <? Z.of_nat (length (buf s)) + Z.of_nat (length data) then
    '(r, s1) ← flush s;
    match r with
    | Err e => Done (Err e, s1)
    | Ok _ => extend s1
    end
  else extend s.

(** A sequence of writes and flushes, whatever they answer. *)
Inductive writer_op := OWrite (data : list Z) | OFlush.

Definition writer_step (o : writer_op) (s : BufWriter) : outcome (result Z (io_error E) * BufWriter) :=
  match o with
  | OWrite data => writer_write data s
  | OFlush => '(r, s') ← flush s; Done (match r with Ok _ => Ok 0 | Err e => Err e end, s')
  end.

Fixpoint writer_run (os : list writer_op) (s : BufWriter) :
    outcome (list (result Z (io_error E)) * BufWriter) :=
  match os with
  | [] => Done ([], s)
  | o :: os' => '(r, s1) ← writer_step o s; '(l, s2) ← writer_run os' s1; Done (r :: l, s2)
  end.

(** The bytes that the calls reported as written. *)
Fixpoint accepted (os : list writer_op) (l : list (result Z (io_error E))) : list Z :=
  match os, l with
  | OWrite data :: os', Ok n :: l' => take (Z.to_nat n) data ++ accepted os' l'
  | _ :: os', _ :: l' => accepted os' l'
  | _, _ => []
  end.

Definition is_ok {A X} (r : result A X) : bool := match r with Ok _ => true | Err _ => false end.

(** ** What they do *)

Context `{!ReadLaws R E, !WriteLaws W E}.

Lemma bio_take_drop_take (l : list Z) (a b : nat) :
  take a l ++ take b (drop a l) = take (a + b) l.
Proof. by rewrite take_take_drop. Qed.

Lemma bio_write_out fuel data written w :
  0 <= written <= Z.of_nat (length data) -> Z.of_nat (length data) - written < Z.of_nat fuel ->
  exists r w', write_out fuel data written w = Done (r, w') /\
    match r with
    | Ok n => n = Z.of_nat (length data) /\ sink w' = sink w ++ drop (Z.to_nat written) data
    | Err _ => exists m, (m + Z.to_nat written < length data)%nat /\
        sink w' = sink w ++ take m (drop (Z.to_nat written) data)
    end.
Proof.
  revert written w. induction fuel as [|fuel IH]; intros written w Hw Hf; [lia|]. cbn [write_out].
  destruct (written <? Z.of_nat (length data)) eqn:E1; bool_prop.
  2:{ do 2 eexists. split; [done|]. rewrite drop_ge, app_nil_r by lia. split; [lia|done]. }
  destruct (write (drop (Z.to_nat written) data) w) as [[n|e] w1] eqn:E2.
  2:{ apply write_err in E2. do 2 eexists. split; [done|]. exists 0%nat. rewrite E2, app_nil_r. split; [lia|done]. }
  apply write_ok in E2 as [Hn Hs]. rewrite length_drop in Hn. destruct (n =? 0) eqn:E3; bool_prop.
  { subst n. do 2 eexists. split; [done|]. exists 0%nat. rewrite Hs. split; [lia|done]. }
  destruct (IH (written + n) w1) as (r & w2 & -> & Hr); [lia|lia|]. exists r, w2. split; [done|].
  rewrite Hs in Hr. replace (Z.to_nat (written + n)) with (Z.to_nat written + Z.to_nat n)%nat in Hr by lia.
  rewrite <- drop_drop in Hr. destruct r as [k|e].
  - destruct Hr as [? ->]. split; [done|]. by rewrite <- app_assoc, take_drop.
  - destruct Hr as (m & Hm & ->). exists (Z.to_nat n + m)%nat. split; [lia|].
    by rewrite <- app_assoc, bio_take_drop_take.
Qed.

(** [write_out] from the start of its data. *)
Lemma bio_write_all data w :
  exists r w', write_out (turns data) data 0 w = Done (r, w') /\
    match r with
    | Ok n => n = Z.of_nat (length data) /\ sink w' = sink w ++ data
    | Err _ => exists m, (m < length data)%nat /\ sink w' = sink w ++ take m data
    end.
Proof.
  unfold turns. destruct (bio_write_out (S (length data)) data 0 w ltac:(lia) ltac:(lia)) as (r & w' & -> & Hr).
  exists r, w'. split; [done|]. destruct r; [done|]. destruct Hr as (m & ? & ?). exists m. split; [lia|done].
Qed.

Lemma bio_flush s :
  exists r s', flush s = Done (r, s') /\ capacity s' = capacity s /\
    match r with
    | Ok _ => buf s' = [] /\ sink (inner s') = sink (inner s) ++ buf s
    | Err _ => buf s' = buf s /\
        exists m, (m < length (buf s))%nat /\ sink (inner s') = sink (inner s) ++ take m (buf s)
    end.
Proof.
  unfold flush. destruct (bio_write_all (buf s) (inner s)) as (r & w & -> & Hr). simpl.
  destruct r as [n|e]; do 2 eexists; (split; [done|]); (split; [done|]); simpl; [|by split].
  split; [done|]. apply Hr.
Qed.

(** The bytes that went through the writer, sent on or not. *)
Definition through (s : BufWriter) : list Z := sink (inner s) ++ buf s.
Definition bounded (cap : Z) (s : BufWriter) : Prop :=
  capacity s = cap /\ Z.of_nat (length (buf s)) <= cap.

Lemma bio_extend data s : Z.of_nat (length (buf s)) + Z.of_nat (length data) <= capacity s ->
  let s' := mkWriter (inner s) (buf s ++ data) (capacity s) in
  through s' = through s ++ take (Z.to_nat (Z.of_nat (length data))) data /\ bounded (capacity s) s'.
Proof.
  intros H. unfold through, bounded. simpl. rewrite Nat2Z.id, take_ge, app_assoc, length_app by done.
  split_and!; [done|done|lia].
Qed.

Lemma bio_write cap data s : bounded cap s ->
  exists r s', writer_write data s = Done (r, s') /\ bounded cap s' /\
    match r with Ok n => through s' = through s ++ take (Z.to_nat n) data | Err _ => True end.
Proof.
  intros Hb. unfold writer_write. destruct (bio_flush s) as (r & s1 & Ef & Ec & Hr).
  assert (is_ok r = true -> buf s1 = [] /\ through s1 = through s) as Hok.
  { destruct r; [|done]. intros _. destruct Hr as [H1 H2]. unfold through. by rewrite H1, H2, app_nil_r. }
  assert (bounded cap s1) as Hb1.
  { unfold bounded in *. rewrite Ec. destruct r; destruct Hr as [-> _]; simpl; lia. }
  destruct (capacity s <=? Z.of_nat (length data)) eqn:E1; bool_prop.
  - rewrite Ef. simpl. destruct r as [u|e]; [|by do 2 eexists].
    destruct (Hok eq_refl) as [H1 H2]. destruct (write data (inner s1)) as [[n|e] w] eqn:Ew;
      do 2 eexists; (split; [done|]); (split; [exact Hb1|]); [|done].
    apply write_ok in Ew as [_ Hs]. rewrite <- H2. unfold through. simpl. by rewrite Hs, H1, !app_nil_r.
  - destruct (capacity s <? _) eqn:E2; bool_prop.
    + rewrite Ef. simpl. destruct r as [u|e]; [|by do 2 eexists].
      destruct (Hok eq_refl) as [H1 H2]. destruct (bio_extend data s1) as [H3 H4]; [rewrite H1, Ec; simpl; lia|].
      do 2 eexists. split; [done|]. rewrite <- H2, <- (proj1 Hb1). by split.
    + destruct (bio_extend data s) as [H3 H4]; [lia|]. do 2 eexists. split; [done|].
      rewrite <- (proj1 Hb). by split.
Qed.

Lemma bio_run cap os s : bounded cap s ->
  exists l s', writer_run os s = Done (l, s') /\ bounded cap s' /\
    (forallb is_ok l = true -> through s' = through s ++ accepted os l).
Proof.
  revert s. induction os as [|o os IH]; intros s Hb.
  { exists [], s. simpl. rewrite app_nil_r. done. }
  assert (exists r s1, writer_step o s = Done (r, s1) /\ bounded cap s1 /\
    (is_ok r = true -> through s1 = through s ++ accepted [o] [r])) as (r & s1 & E1 & Hb1 & H1).
  { destruct o as [data|]; cbn [writer_step].
    - destruct (bio_write cap data s Hb) as (r & s1 & -> & Hb1 & H1). exists r, s1.
      split; [done|]. split; [done|]. destruct r; [|done]. intros _. simpl. by rewrite app_nil_r.
    - destruct (bio_flush s) as (r & s1 & -> & Ec & Hr). do 2 eexists. split; [done|].
      unfold bounded, through in *. rewrite Ec. destruct r; destruct Hr as [Hr1 Hr2]; rewrite Hr1; simpl;
        [|by split]. rewrite !app_nil_r, Hr2. split; [lia|done]. }
  destruct (IH s1 Hb1) as (l & s2 & E2 & Hb2 & H2). exists (r :: l), s2. simpl. rewrite E1. simpl.
  rewrite E2. split; [done|]. split; [done|]. intros Ho. apply andb_true_iff in Ho as [Ho1 Ho2].
  rewrite H2, H1 by done. rewrite <- app_assoc. f_equal.
  destruct o as [data|], r as [n|e]; simpl in *; rewrite ?app_nil_r; done.
Qed.

Lemma bio_copy_loop fuel total r w : (length (source r) < fuel)%nat -> 0 <= total < 2 ^ 64 ->
  exists res r' w', copy_loop fuel total r w = Done (res, r', w') /\
    match res with
    | Ok n => sink w' = sink w ++ source r /\ 0 <= n < 2 ^ 64 /\ wrap 64 n = wrap 64 (total + Z.of_nat (length (source r)))
    | Err _ => exists k, sink w' = sink w ++ take k (source r)
    end.
Proof.
  revert total r w. induction fuel as [|fuel IH]; intros total r w Hf Ht; [lia|]. cbn [copy_loop].
  destruct (read COPY_BUF r) as [[data|e] r1] eqn:Er.
  2:{ do 3 eexists. split; [done|]. exists 0%nat. by rewrite app_nil_r. }
  apply read_ok in Er as (_ & Hs & Hend); [|done]. destruct data as [|x data].
  { do 3 eexists. split; [done|]. rewrite (Hend eq_refl) by done. rewrite app_nil_r. split; [done|].
    split; [done|]. simpl. by rewrite Z.add_0_r. }
  set (d := x :: data) in *. destruct (bio_write_all d w) as (res & w1 & -> & Hw). simpl.
  rewrite Hs in Hf. rewrite length_app in Hf. rewrite Hs.
  destruct res as [n|e].
  - destruct Hw as [-> Hw]. destruct (IH (wadd 64 total (Z.of_nat (length d))) r1 w1) as (res & r2 & w2 & -> & H).
    { unfold d in Hf. simpl in Hf. lia. }
    { apply wrap_range. lia. }
    exists res, r2, w2. split; [done|]. rewrite Hw in H. destruct res as [m|e].
    + destruct H as (-> & Hn & ->). rewrite <- app_assoc. split; [done|]. split; [done|].
      unfold wadd, wrap. rewrite Zplus_mod_idemp_l, length_app. f_equal. lia.
    + destruct H as (k & ->). exists (length d + k)%nat.
      rewrite take_app_add, <- app_assoc. done.
  - destruct Hw as (m & Hm & Hw). do 3 eexists. split; [done|]. exists m. by rewrite Hw, take_app_le by lia.
Qed.

(** ** Reading through a buffer *)

(** The bytes still to come, buffered or not. *)
Definition remaining (s : BufReader) : list Z :=
  available s ++ source (r_inner s).

Definition reader_ok (s : BufReader) : Prop :=
  (pos s <= filled s)%nat /\ (filled s <= length (r_buf s))%nat /\ (0 < length (r_buf s))%nat.

Lemma bio_reader_new capacity r : reader_ok (reader_with_capacity capacity r) /\
  remaining (reader_with_capacity capacity r) = source r.
Proof. split; [|done]. unfold reader_ok. simpl. rewrite length_replicate. lia. Qed.

(** What a read of [len] bytes promises of its answer and the reader after it:
    the next bytes, at most as many as asked for, and none into a
    nonempty buffer only at the end; an error loses nothing. *)
Definition reads (len : Z) (s : BufReader) (a : result (list Z) E * BufReader) : Prop :=
  reader_ok a.2 /\ length (r_buf a.2) = length (r_buf s) /\
  match a.1 with
  | Ok l => remaining s = l ++ remaining a.2 /\ Z.of_nat (length l) <= len /\
            (l = [] -> 0 < len -> remaining s = [])
  | Err _ => remaining a.2 = remaining s
  end.

Lemma bio_take_buffered len s : reader_ok s -> pos s <> filled s -> 0 <= len ->
  reads len s (take_buffered len s).
Proof.
  intros (H1 & H2 & H3) Hne Hlen. unfold reads, take_buffered. cbn [fst snd].
  set (n := Nat.min _ _).
  assert (length (available s) = filled s - pos s)%nat as Ha.
  { unfold available. rewrite length_take, length_drop. lia. }
  assert (length (take n (available s)) = n) as Hn by (rewrite length_take; lia).
  split; [unfold reader_ok; simpl; lia|]. split; [done|]. split; [|split; [lia|]].
  - unfold remaining. simpl. rewrite app_assoc. f_equal. unfold available at 3. simpl.
    replace (filled s - (pos s + n))%nat with (filled s - pos s - n)%nat by lia.
    rewrite <- drop_drop, (take_drop_commute _ (filled s - pos s - n) n).
    replace (n + (filled s - pos s - n))%nat with (filled s - pos s)%nat by lia.
    fold (available s). by rewrite take_drop.
  - intros El Hpos. rewrite El in Hn. simpl in Hn. lia.
Qed.

Lemma bio_reader_read len s : reader_ok s -> 0 <= len -> reads len s (reader_read len s).
Proof.
  intros Hok Hl. unfold reader_read. destruct (pos s =? filled s)%nat eqn:Ep.
  2:{ apply Nat.eqb_neq in Ep. by apply bio_take_buffered. }
  apply Nat.eqb_eq in Ep. destruct Hok as (H1 & H2 & H3).
  assert (available s = []) as Hav by (unfold available; by rewrite Ep, Nat.sub_diag).
  assert (remaining s = source (r_inner s)) as Hrem by (unfold remaining; by rewrite Hav).
  destruct (read _ _) as [[l|e] r'] eqn:Er.
  2:{ apply read_err in Er. unfold reads. cbn [fst snd]. split; [done|]. split; [done|].
      unfold remaining, available in *. simpl. by rewrite Er, Hav. }
  apply read_ok in Er as (Hlen & Hs & Hend); [|lia].
  set (s1 := mkReader r' (l ++ drop (length l) (r_buf s)) 0 (length l)).
  assert (length (r_buf s1) = length (r_buf s)) as Hlb by (simpl; rewrite length_app, length_drop; lia).
  assert (reader_ok s1) as Hok1 by (unfold reader_ok; rewrite Hlb; simpl; lia).
  assert (remaining s1 = remaining s) as Hr1.
  { rewrite Hrem, Hs. unfold remaining, available, s1. cbn [pos filled r_buf r_inner].
    by rewrite drop_0, Nat.sub_0_r, take_app_length. }
  unfold reads. rewrite <- Hlb, <- Hr1. destruct (length l =? 0)%nat eqn:El.
  - apply Nat.eqb_eq, nil_length_inv in El. cbn [fst snd]. split; [done|]. split; [done|].
    split; [done|]. split; [simpl; lia|]. intros _ _. rewrite Hr1, Hrem. apply Hend; [done|lia].
  - apply Nat.eqb_neq in El. apply bio_take_buffered; [done|simpl; lia|done].
Qed.
End streams.
End BufIO.

(** A stream that follows a script: it hands out its input, and a write takes the number of
    bytes that the script says, or fails; past the end of the script it takes
    everything. *)
Module Tape.
Record t := mk { input : list Z; output : list Z; script : list (result nat unit) }.

#[global] Instance tape_read : AsyncRead t unit := fun n r =>
  (Ok (take (Z.to_nat n) (input r)), mk (drop (Z.to_nat n) (input r)) (output r) (script r)).

#[global] Instance tape_write : AsyncWrite t unit := fun l w =>
  match script w with
  | [] => (Ok (Z.of_nat (length l)), mk (input w) (output w ++ l) [])
  | Ok n :: rest => (Ok (Z.of_nat (length (take n l))), mk (input w) (output w ++ take n l) rest)
  | Err e :: rest => (Err e, mk (input w) (output w) rest)
  end.

#[global] Instance tape_read_laws : ReadLaws t unit.
Proof.
  refine {| source := input |}.
  - intros n r l r' E Hn. unfold read, tape_read in E. injection E as <- <-. cbn [input].
    rewrite take_drop. split; [rewrite length_take; lia|]. split; [done|].
    intros El Hpos. destruct (input r); [done|]. by destruct (Z.to_nat n) eqn:?; [lia|].
  - intros n r e r' E. done.
Defined.

#[global] Instance tape_write_laws : WriteLaws t unit.
Proof.
  refine {| sink := output |}.
  - intros l w n w' E. unfold write, tape_write in E. destruct (script w) as [|[k|e] rest]; simplify_eq/=.
    + rewrite Nat2Z.id, firstn_all. split; [lia|done].
    + rewrite Nat2Z.id, take_length_le || rewrite Nat2Z.id. split; [rewrite length_take; lia|].
      rewrite length_take. f_equal. destruct (Nat.min_spec k (length l)) as [[? ->] | [? ->]]; [done|].
      by rewrite !take_ge by lia.
  - intros l w e w' E. unfold write, tape_write in E. by destruct (script w) as [|[k|?] rest]; simplify_eq/=.
Defined.
End Tape.

(** Over any stream that keeps its contract, every sequence of writes to
    and flushes of a [BufWriter] returns and never buffers more than its capacity; if no
    call failed, the bytes sent on followed by those buffered are exactly
    the bytes that the calls reported as written, in order, and a flush that succeeds then
    leaves all of them in the stream. *)
Theorem buf_writer_in_order {W E : Type} `{!AsyncWrite W E, !WriteLaws W E} (w : W) (cap : Z)
    (os : list BufIO.writer_op) :
  exists l s, BufIO.writer_run os (BufIO.with_capacity cap w) = Done (l, s) /\
    Z.of_nat (length (BufIO.buf s)) <= Z.max cap 1 /\
    (forallb BufIO.is_ok l = true ->
     sink (BufIO.inner s) ++ BufIO.buf s = sink w ++ BufIO.accepted os l /\
     forall s', BufIO.flush s = Done (Ok tt, s') ->
       BufIO.buf s' = [] /\ sink (BufIO.inner s') = sink w ++ BufIO.accepted os l).
Proof.
  assert (BufIO.bounded (Z.max cap 1) (BufIO.with_capacity cap w)) as Hb
    by (unfold BufIO.bounded; simpl; lia).
  destruct (BufIO.bio_run _ os _ Hb) as (l & s & Er & Hbs & Ho). exists l, s. split; [done|].
  split; [apply Hbs|]. intros Hl. specialize (Ho Hl). unfold BufIO.through in Ho. simpl in Ho.
  rewrite app_nil_r in Ho. split; [done|]. intros s' Ef.
  destruct (BufIO.bio_flush s) as (r & s1 & E1 & _ & Hr). rewrite E1 in Ef. injection Ef as -> ->.
  destruct Hr as [H1 H2]. by rewrite H2, Ho.
Qed.

(** Small writes through a buffer of four, onto a stream that takes at most two bytes at
    once. *)
Lemma buf_writer_in_order_witness :
  let w := Tape.mk [] [] [Ok 2%nat; Ok 2%nat] in
  exists s, BufIO.writer_run [BufIO.OWrite [1; 2; 3]; BufIO.OWrite [4; 5]] (BufIO.with_capacity 4 w)
      = Done ([Ok 3; Ok 2], s) /\
    Tape.output (BufIO.inner s) ++ BufIO.buf s = [1; 2; 3; 4; 5].
Proof.
  intros w. destruct (buf_writer_in_order w 4 [BufIO.OWrite [1; 2; 3]; BufIO.OWrite [4; 5]])
    as (l & s & E & _ & H). exists s. injection E as <- <-. split; [reflexivity|]. by apply H.
Defined.

(** A flush that fails half-way repeats itself: what it had sent on stays in
    the buffer, so the next flush that succeeds sends those bytes a second
    time, in front of the whole buffer. *)
Theorem failed_flush_repeats {W E : Type} `{!AsyncWrite W E, !WriteLaws W E}
    (s s1 s2 : BufIO.BufWriter) (e : io_error E) :
  BufIO.flush s = Done (Err e, s1) -> BufIO.flush s1 = Done (Ok tt, s2) ->
  exists m, (m < length (BufIO.buf s))%nat /\
    sink (BufIO.inner s1) = sink (BufIO.inner s) ++ take m (BufIO.buf s) /\
    sink (BufIO.inner s2) = sink (BufIO.inner s) ++ take m (BufIO.buf s) ++ BufIO.buf s.
Proof.
  intros E1 E2. destruct (BufIO.bio_flush s) as (r & s' & E3 & _ & Hr). rewrite E1 in E3. injection E3 as <- <-.
  destruct Hr as (Hbuf & m & Hm & Hs).
  destruct (BufIO.bio_flush s1) as (r & s' & E4 & _ & Hr). rewrite E2 in E4. injection E4 as <- <-.
  destruct Hr as [_ Hs2]. exists m. split; [done|]. split; [done|]. by rewrite Hs2, Hs, Hbuf, <- app_assoc.
Qed.

(** Two of three bytes go out before the error; then all three. *)
Lemma failed_flush_repeats_witness :
  let s := BufIO.mkWriter (Tape.mk [] [] [Ok 2%nat; Err tt]) [1; 2; 3] 8 in
  exists s1 s2, BufIO.flush s = Done (Err (Inner tt), s1) /\ BufIO.flush s1 = Done (Ok tt, s2) /\
    Tape.output (BufIO.inner s2) = [1; 2; 1; 2; 3] /\
    exists m, (m < 3)%nat /\ Tape.output (BufIO.inner s2) = take m [1; 2; 3] ++ [1; 2; 3].
Proof.
  intros s. set (s1 := BufIO.mkWriter (Tape.mk [] [1; 2] []) [1; 2; 3] 8).
  set (s2 := BufIO.mkWriter (Tape.mk [] [1; 2; 1; 2; 3] []) [] 8).
  assert (BufIO.flush s = Done (Err (Inner tt), s1)) as E1 by reflexivity.
  assert (BufIO.flush s1 = Done (Ok tt, s2)) as E2 by reflexivity.
  exists s1, s2. split; [exact E1|]. split; [exact E2|]. split; [reflexivity|].
  destruct (failed_flush_repeats s s1 s2 (Inner tt) E1 E2) as (m & Hm & _ & H). by exists m.
Defined.

(** [copy] over streams that keep their contracts and a source that ends
    returns, after at most a turn per byte and one more; if it succeeds it has
    written the whole rest of the source in order and reports its
    length, and if it fails it has written a prefix of it. *)
Theorem copy_moves_everything {R W E : Type} `{!AsyncRead R E, !AsyncWrite W E, !ReadLaws R E, !WriteLaws W E}
    (r : R) (w : W) :
  Z.of_nat (length (source r)) < 2 ^ 64 ->
  exists res r' w', BufIO.copy (S (length (source r))) r w = Done (res, r', w') /\
    match res with
    | Ok n => n = Z.of_nat (length (source r)) /\ sink w' = sink w ++ source r
    | Err _ => exists k, sink w' = sink w ++ take k (source r)
    end.
Proof.
  intros Hlen.
  destruct (BufIO.bio_copy_loop (S (length (source r))) 0 r w ltac:(lia) ltac:(lia)) as (res & r' & w' & E1 & H).
  exists res, r', w'. split; [done|]. destruct res; [|done]. destruct H as (H1 & H2 & H3).
  split; [|done]. rewrite !wrap_small in H3 by lia. lia.
Qed.

(** A writer that takes one byte, then two, then the rest. *)
Lemma copy_moves_everything_witness :
  let r := Tape.mk [1; 2; 3; 4; 5] [] [] in
  let w := Tape.mk [] [0] [Ok 1%nat; Ok 2%nat] in
  exists r' w', BufIO.copy 6 r w = Done (Ok 5, r', w') /\ Tape.output w' = [0; 1; 2; 3; 4; 5].
Proof.
  intros r w. assert (Z.of_nat (length (source (E := unit) r)) < 2 ^ 64) as Hlen by reflexivity.
  destruct (copy_moves_everything (E := unit) r w Hlen) as (res & r' & w' & E & H).
  exists r', w'. assert (res = Ok 5) as -> by (injection E as <- _ _; reflexivity).
  split; [exact E|]. apply H.
Defined.
