(* ===== verification/Machine.v ===== *)
(** * Machine: the processor state and the instructions of the context switch

    The assembly of src/src/context_switch.rs uses some thirty instructions of three
    instruction sets.  This file gives them one semantics over a register
    file and a byte-addressed little-endian memory; the listings themselves
    are in SwitchCode.v, the symbolic evaluator in Symbolic.v and the theorems
    about them in ContextSwitch.v.  Prefetches and [bti] landing pads have no effect on
    this state.  Pointer authentication is the hardware's: [pac] signs a
    pointer under a modifier and [auth] checks and strips a signature. *)

From S2P Require Import Prelude.

(** ** Registers and memory *)

(** [Gpr n], [Vec n]: general and floating-point/SIMD register number [n] of
    the instruction set's encoding; [Sp] is the stack pointer (rsp on
    x86-64, x2 on RISC-V), [Teb] the base address of the thread environment
    block (the [gs] base; on AArch64 Windows code uses x18). *)
Inductive reg : Type :=
| Gpr (n : Z)
| Vec (n : Z)
| Sp
| Mxcsr
| Teb.

#[global] Instance reg_eq_dec : EqDecision reg.
Proof. solve_decision. Defined.

Definition memory : Type := Z -> Z.

Record machine : Type := mk_machine {
  regs : reg -> Z;
  mem : memory
}.

Definition set_reg (r : reg) (v : Z) (s : machine) : machine :=
  mk_machine (fun r' => if decide (r' = r) then v else regs s r') (mem s).

(** Little-endian access to [w] bytes at [a]. *)
Fixpoint load_bytes (w : nat) (a : Z) (m : memory) : Z :=
  match w with
  | O => 0
  | S w' => m a + 256 * load_bytes w' (a + 1) m
  end.

Fixpoint store_bytes (w : nat) (a v : Z) (m : memory) : memory :=
  match w with
  | O => m
  | S w' => store_bytes w' (a + 1) (v / 256)
              (fun b => if b =? a then v mod 256 else m b)
  end.

Definition set_mem (m : memory) (s : machine) : machine := mk_machine (regs s) m.

(** ** Instructions *)

Inductive instr : Type :=
(* x86-64, Intel syntax: [mov_rm r b off] is [mov r, [b + off]] *)
| prefetchw (b : reg) (off : Z)
| prefetcht0 (b : reg) (off : Z)
| mov_rm (r b : reg) (off : Z)
| mov_mr (b : reg) (off : Z) (r : reg)
| mov_r_gs (r : reg) (off : Z)
| mov_gs_r (off : Z) (r : reg)
| stmxcsr (b : reg) (off : Z)
| ldmxcsr (b : reg) (off : Z)
| movaps_mr (b : reg) (off : Z) (r : reg)
| movaps_rm (r b : reg) (off : Z)
| lea_1f (r : reg)
| jmp_m (b : reg) (off : Z)
| label_1
| x86_ret
(* AArch64 *)
| bti_c
| paciasp
| autiasp
| prfm (b : reg) (off : Z)
| ldr (r b : reg) (off : Z)
| str (r b : reg) (off : Z)
| ldp (r1 r2 b : reg) (off : Z)
| stp (r1 r2 b : reg) (off : Z)
| mov (r1 r2 : reg)
| a64_ret
(* RISC-V, [ld r off b] is [ld r, off(b)] *)
| prefetch_r (off : Z) (b : reg)
| prefetch_w (off : Z) (b : reg)
| ld (r : reg) (off : Z) (b : reg)
| sd (r : reg) (off : Z) (b : reg)
| fld (r : reg) (off : Z) (b : reg)
| fsd (r : reg) (off : Z) (b : reg)
| rv_ret.

Definition x30 : reg := Gpr 30.
Definition ra : reg := Gpr 1.

(** What an instruction does, as a sequence of elementary accesses; [al] is
    the alignment the access requires. *)
Inductive uop : Type :=
| ULoad (w : nat) (al : Z) (r b : reg) (off : Z)
| UStore (w : nat) (al : Z) (b : reg) (off : Z) (r : reg)
| UMov (r1 r2 : reg)
| ULea (r : reg)
| UPac
| UAut
| UMxcsrOk.

(** How a straight-line piece of code ends. *)
Inductive ending : Type :=
| EJump (b : reg) (off : Z)
| EPop
| ERet (r : reg).

Definition decode (i : instr) : list uop + ending :=
  match i with
  | prefetchw _ _ | prefetcht0 _ _ | prfm _ _ | prefetch_r _ _ | prefetch_w _ _
  | bti_c | label_1 => inl []
  | mov_rm r b off | ldr r b off => inl [ULoad 8 1 r b off]
  | ld r off b | fld r off b => inl [ULoad 8 1 r b off]
  | mov_mr b off r | str r b off => inl [UStore 8 1 b off r]
  | sd r off b | fsd r off b => inl [UStore 8 1 b off r]
  | mov_r_gs r off => inl [ULoad 8 1 r Teb off]
  | mov_gs_r off r => inl [UStore 8 1 Teb off r]
  | stmxcsr b off => inl [UStore 4 1 b off Mxcsr]
  | ldmxcsr b off => inl [ULoad 4 1 Mxcsr b off; UMxcsrOk]
  | movaps_mr b off r => inl [UStore 16 16 b off r]
  | movaps_rm r b off => inl [ULoad 16 16 r b off]
  | lea_1f r => inl [ULea r]
  | paciasp => inl [UPac]
  | autiasp => inl [UAut]
  | ldp r1 r2 b off => inl [ULoad 8 1 r1 b off; ULoad 8 1 r2 b (off + 8)]
  | stp r1 r2 b off => inl [UStore 8 1 b off r1; UStore 8 1 b (off + 8) r2]
  | mov r1 r2 => inl [UMov r1 r2]
  | jmp_m b off => inr (EJump b off)
  | x86_ret => inr EPop
  | a64_ret => inr (ERet x30)
  | rv_ret => inr (ERet ra)
  end.

(** The straight-line code up to its first control transfer, the transfer,
    and the instructions after it. *)
Fixpoint split_code (code : list instr) : option (list uop * ending * list instr) :=
  match code with
  | [] => None
  | i :: code' =>
      match decode i with
      | inr e => Some ([], e, code')
      | inl us => '(body, e, rest) ← split_code code'; Some (us ++ body, e, rest)
      end
  end.

(** ** Execution *)

Section exec.
Context (pac : Z -> Z -> Z) (auth : Z -> Z -> option Z).
(** The address of the local label [1:] of the listing. *)
Context (label : Z).

Definition address (s : machine) (b : reg) (off : Z) : Z := wrap 64 (regs s b + off).

(** [None] is a fault: a misaligned [movaps], reserved bits set in MXCSR, or a failed
    pointer authentication. *)
Definition ustep (u : uop) (s : machine) : option machine :=
  match u with
  | ULoad w al r b off =>
      let a := address s b off in
      if a mod al =? 0 then Some (set_reg r (load_bytes w a (mem s)) s) else None
  | UStore w al b off r =>
      let a := address s b off in
      if a mod al =? 0 then Some (set_mem (store_bytes w a (regs s r) (mem s)) s) else None
  | UMov r1 r2 => Some (set_reg r1 (regs s r2) s)
  | ULea r => Some (set_reg r label s)
  | UPac => Some (set_reg x30 (pac (regs s x30) (regs s Sp)) s)
  | UAut => p ← auth (regs s x30) (regs s Sp); Some (set_reg x30 p s)
  | UMxcsrOk => if regs s Mxcsr <? 2 ^ 16 then Some s else None
  end.

Fixpoint usteps (us : list uop) (s : machine) : option machine :=
  match us with
  | [] => Some s
  | u :: us' => s' ← ustep u s; usteps us' s'
  end.

Definition transfer (e : ending) (s : machine) : Z * machine :=
  match e with
  | EJump b off => (load_bytes 8 (address s b off) (mem s), s)
  | EPop => (load_bytes 8 (wrap 64 (regs s Sp)) (mem s), set_reg Sp (wrap 64 (regs s Sp + 8)) s)
  | ERet r => (regs s r, s)
  end.

(** Run a listing up to its first transfer: the target address, the state there. *)
Definition run (code : list instr) (s : machine) : option (Z * machine) :=
  '(body, e, _) ← split_code code; s' ← usteps body s; Some (transfer e s').

(** The code at the local label: what follows the first transfer. *)
Definition at_label (code : list instr) : list instr :=
  match split_code code with Some (_, _, rest) => rest | None => [] end.

(** A call of a switch routine up to the point where control leaves its
    listing: a jump to its own label goes on with the code there. *)
Definition switch (code : list instr) (s : machine) : option (Z * machine) :=
  '(t, s') ← run code s;
  match at_label code with
  | [] => Some (t, s')
  | tail => if t =? label then run tail s' else Some (t, s')
  end.
End exec.

(** ** Memory laws *)

Definition wf_memory (m : memory) : Prop := forall a, 0 <= m a < 256.

Lemma mc_load_range w a m :
  wf_memory m -> 0 <= load_bytes w a m < 256 ^ Z.of_nat w.
Proof.
  intros Hm. revert a; induction w as [|w IH]; intros a; simpl load_bytes.
  - change (256 ^ Z.of_nat 0) with 1. lia.
  - replace (Z.of_nat (S w)) with (Z.of_nat w + 1) by lia.
    rewrite Z.pow_add_r by lia. specialize (IH (a + 1)). specialize (Hm a).
    set (p := 256 ^ Z.of_nat w) in *. change (256 ^ 1) with 256. nia.
Qed.

Lemma mc_load_ext w a m m' :
  (forall b, a <= b < a + Z.of_nat w -> m b = m' b) ->
  load_bytes w a m = load_bytes w a m'.
Proof.
  revert a; induction w as [|w IH]; intros a H; simpl; [done|].
  rewrite (H a) by lia. rewrite (IH (a + 1)); [done|]. intros; apply H; lia.
Qed.

Lemma mc_store_other w a v m b :
  ~ (a <= b < a + Z.of_nat w) -> store_bytes w a v m b = m b.
Proof.
  revert a v m; induction w as [|w IH]; intros a v m H; simpl; [done|].
  rewrite IH by lia. destruct (Z.eqb_spec b a); [lia|done].
Qed.

Lemma mc_load_store_same w a v m :
  load_bytes w a (store_bytes w a v m) = v mod 256 ^ Z.of_nat w.
Proof.
  revert a v m; induction w as [|w IH]; intros a v m.
  - simpl. by rewrite Z.mod_1_r.
  - cbn [load_bytes store_bytes].
    rewrite mc_store_other by lia. rewrite Z.eqb_refl, IH.
    replace (Z.of_nat (S w)) with (1 + Z.of_nat w) by lia.
    rewrite Z.pow_add_r by lia. change (256 ^ 1) with 256.
    rewrite Z.rem_mul_r by lia. lia.
Qed.

Lemma mc_load_store_other w1 w2 a1 a2 v m :
  a1 + Z.of_nat w1 <= a2 \/ a2 + Z.of_nat w2 <= a1 ->
  load_bytes w1 a1 (store_bytes w2 a2 v m) = load_bytes w1 a1 m.
Proof. intros H. apply mc_load_ext. intros b Hb. apply mc_store_other. lia. Qed.

Lemma mc_store_wf w a v m : wf_memory m -> wf_memory (store_bytes w a v m).
Proof.
  revert a v m; induction w as [|w IH]; intros a v m Hm; simpl; [done|].
  apply IH. intros b. destruct (b =? a); [apply Z.mod_pos_bound; lia | apply Hm].
Qed.
