(* ===== verification/Symbolic.v ===== *)
(** * Symbolic: symbolic evaluation of straight-line switch code

    A symbolic evaluator for the elementary accesses of Machine.v, with its
    soundness: from any machine state whose save area, restore area and
    thread environment block are apart, the symbolic result describes the
    registers and the memory the code leaves.  A switch routine is then
    verified by evaluating it once ([ContextSwitch.v]). *)

From S2P Require Import Prelude Machine.

(** The three memory areas the code works on: the [Registers] it saves to,
    the [Registers] it restores from, and the thread environment block. *)
Inductive area : Type := Save | Rest | Tib.

#[global] Instance area_eq_dec : EqDecision area.
Proof. solve_decision. Defined.

(** A value in terms of the state at entry. *)
Inductive sval : Type :=
| VReg (r : reg)
| VMem (ar : area) (off : Z) (w : nat)
| VLabel
| VPac (p m : sval)
| VAut (p m : sval).

#[global] Instance sval_eq_dec : EqDecision sval.
Proof. solve_decision. Defined.

(** A store of [w] bytes at an offset of an area. *)
Record cell : Type := mk_cell { c_area : area; c_off : Z; c_w : nat; c_val : sval }.

(** What must hold of the entry state for the code not to fault. *)
Inductive guard : Type :=
| GMxcsr (v : sval)
| GAuth (p m : sval).

#[global] Instance guard_eq_dec : EqDecision guard.
Proof. solve_decision. Defined.

Record sym : Type := mk_sym {
  s_regs : list (reg * sval);
  s_cells : list cell;
  s_guards : list guard
}.

Definition sym_init : sym := mk_sym [] [] [].

Fixpoint sreg (l : list (reg * sval)) (r : reg) : sval :=
  match l with
  | [] => VReg r
  | (r', v) :: l' => if decide (r = r') then v else sreg l' r
  end.

Definition sset (r : reg) (v : sval) (s : sym) : sym :=
  mk_sym ((r, v) :: s_regs s) (s_cells s) (s_guards s).

Definition clash (ar : area) (off : Z) (w : nat) (c : cell) : bool :=
  bool_decide (ar = c_area c) &&
  ((off <? c_off c + Z.of_nat (c_w c)) && (c_off c <? off + Z.of_nat w)).

(** Sizes of the areas: [Registers] is 640 bytes, and the code reaches up to
    offset 0x1478 of the thread environment block. *)
Definition area_size (ar : area) : Z :=
  match ar with Save | Rest => 640 | Tib => 0x1480 end.

Section symbolic.
(** The argument registers and the register that holds the TEB address. *)
Context (arg0 arg1 teb : reg).

Definition area_of (v : sval) : option area :=
  if decide (v = VReg arg0) then Some Save
  else if decide (v = VReg arg1) then Some Rest
  else if decide (v = VReg teb) then Some Tib
  else None.

(** The area an access falls in, when it stays inside it and its alignment
    is known from the 64-byte alignment of [Registers]. *)
Definition access (w : nat) (al : Z) (b : reg) (off : Z) (s : sym) : option area :=
  ar ← area_of (sreg (s_regs s) b);
  if (0 <=? off) && (off <? area_size ar) && (off + Z.of_nat w <=? area_size ar)
     && ((al =? 1) || (al =? 16) && (off mod 16 =? 0) && bool_decide (ar ≠ Tib))
     && forallb (fun c => negb (clash ar off w c)) (s_cells s)
  then Some ar else None.

Definition sstep (u : uop) (s : sym) : option sym :=
  match u with
  | ULoad w al r b off =>
      ar ← access w al b off s;
      Some (sset r (VMem ar off w) s)
  | UStore w al b off r =>
      ar ← access w al b off s;
      if bool_decide (ar = Rest) then None else
      Some (mk_sym (s_regs s) (mk_cell ar off w (sreg (s_regs s) r) :: s_cells s) (s_guards s))
  | UMov r1 r2 => Some (sset r1 (sreg (s_regs s) r2) s)
  | ULea r => Some (sset r VLabel s)
  | UPac => Some (sset x30 (VPac (sreg (s_regs s) x30) (sreg (s_regs s) Sp)) s)
  | UAut =>
      let p := sreg (s_regs s) x30 in
      let m := sreg (s_regs s) Sp in
      let s' := sset x30 (VAut p m) s in
      Some (mk_sym (s_regs s') (s_cells s') (GAuth p m :: s_guards s'))
  | UMxcsrOk =>
      Some (mk_sym (s_regs s) (s_cells s) (GMxcsr (sreg (s_regs s) Mxcsr) :: s_guards s))
  end.

Fixpoint ssteps (us : list uop) (s : sym) : option sym :=
  match us with
  | [] => Some s
  | u :: us' => s' ← sstep u s; ssteps us' s'
  end.
End symbolic.

(** ** Meaning *)

Section meaning.
Context (pac : Z -> Z -> Z) (auth : Z -> Z -> option Z) (label : Z).
Context (arg0 arg1 teb : reg).

(** The base address of an area in state [m0]. *)
Definition base (m0 : machine) (ar : area) : Z :=
  match ar with
  | Save => regs m0 arg0
  | Rest => regs m0 arg1
  | Tib => regs m0 teb
  end.

Fixpoint eval (m0 : machine) (v : sval) : Z :=
  match v with
  | VReg r => regs m0 r
  | VMem ar off w => load_bytes w (base m0 ar + off) (mem m0)
  | VLabel => label
  | VPac p m => pac (eval m0 p) (eval m0 m)
  | VAut p m => default 0 (auth (eval m0 p) (eval m0 m))
  end.

Definition guard_ok (m0 : machine) (g : guard) : Prop :=
  match g with
  | GMxcsr v => eval m0 v < 2 ^ 16
  | GAuth p m => is_Some (auth (eval m0 p) (eval m0 m))
  end.

(** The areas are in the address space, 64-byte aligned where they are
    [Registers], and apart from each other. *)
Definition apart (m0 : machine) : Prop :=
  (forall ar, 0 <= base m0 ar /\ base m0 ar + area_size ar <= 2 ^ 64) /\
  (forall ar, ar <> Tib -> base m0 ar mod 64 = 0) /\
  (forall a1 a2, a1 <> a2 ->
     base m0 a1 + area_size a1 <= base m0 a2 \/ base m0 a2 + area_size a2 <= base m0 a1).

Definition in_cell (m0 : machine) (c : cell) (b : Z) : Prop :=
  base m0 (c_area c) + c_off c <= b < base m0 (c_area c) + c_off c + Z.of_nat (c_w c).

Definition cell_in (c : cell) : Prop :=
  c_area c <> Rest /\ 0 <= c_off c /\ c_off c + Z.of_nat (c_w c) <= area_size (c_area c).

(** [m] is described by the symbolic state [s] over the entry state [m0]. *)
Record describes (m0 : machine) (s : sym) (m : machine) : Prop := {
  d_regs : forall r, regs m r = eval m0 (sreg (s_regs s) r);
  d_cells : forall c, In c (s_cells s) ->
    cell_in c /\
    load_bytes (c_w c) (base m0 (c_area c) + c_off c) (mem m)
      = eval m0 (c_val c) mod 256 ^ Z.of_nat (c_w c);
  d_frame : forall b, (forall c, In c (s_cells s) -> ~ in_cell m0 c b) -> mem m b = mem m0 b
}.

Lemma sy_describes_init m0 : describes m0 sym_init m0.
Proof. split; [done | intros ? [] | done]. Qed.

Lemma sy_area_of m0 v ar : area_of arg0 arg1 teb v = Some ar -> eval m0 v = base m0 ar.
Proof.
  unfold area_of. repeat case_decide; intros [= <-]; subst; done.
Qed.

(** An access the evaluator accepts: its address, its alignment, and the
    cells it does not meet. *)
Lemma sy_access m0 s m w al b off ar :
  apart m0 -> describes m0 s m -> access arg0 arg1 teb w al b off s = Some ar ->
  address m b off = base m0 ar + off /\ address m b off mod al = 0 /\
  0 <= off /\ off + Z.of_nat w <= area_size ar /\
  (forall c, In c (s_cells s) -> clash ar off w c = false).
Proof.
  intros (Hr & Hal & _) Hd Ha. unfold access in Ha.
  destruct (area_of _ _ _ _) as [ar'|] eqn:E; [|done]. simpl in Ha.
  destruct (_ && _) eqn:Ec in Ha; [|done]. injection Ha as ->.
  apply andb_true_iff in Ec as [Ec Hcl].
  apply andb_true_iff in Ec as [Ec Halign].
  apply andb_true_iff in Ec as [H0 H1]. apply andb_true_iff in H0 as [H0 H0'].
  apply Z.leb_le in H0, H1. apply Z.ltb_lt in H0'.
  apply (sy_area_of m0) in E.
  assert (Haddr : address m b off = base m0 ar + off).
  { unfold address, wrap. rewrite (d_regs _ _ _ Hd), E.
    specialize (Hr ar). apply Z.mod_small. lia. }
  rewrite Haddr. repeat split; try done.
  - apply orb_true_iff in Halign as [H|H]; bool_prop; subst.
    + apply Z.mod_1_r.
    + specialize (Hal ar H2). rewrite Z.add_mod, H3, Z.add_0_r, Z.mod_mod by lia.
      rewrite (Z.div_mod (base m0 ar) 64), Hal by lia.
      replace (64 * (base m0 ar / 64) + 0) with (4 * (base m0 ar / 64) * 16) by lia.
      apply Z.mod_mul. lia.
  - intros c Hc. rewrite forallb_forall in Hcl. apply Hcl in Hc. by apply negb_true_iff in Hc.
Qed.

(** A range that clashes with no cell is apart from the cell in memory. *)
Lemma sy_no_clash m0 ar off w c :
  apart m0 -> cell_in c -> 0 <= off -> off + Z.of_nat w <= area_size ar ->
  clash ar off w c = false ->
  base m0 ar + off + Z.of_nat w <= base m0 (c_area c) + c_off c \/
  base m0 (c_area c) + c_off c + Z.of_nat (c_w c) <= base m0 ar + off.
Proof.
  intros (_ & _ & Hap) (_ & ? & ?) ?? Hcl. unfold clash in Hcl.
  destruct (decide (ar = c_area c)) as [->|Hne].
  - rewrite bool_decide_eq_true_2 in Hcl by done. simpl in Hcl.
    apply andb_false_iff in Hcl as [Hcl|Hcl]; apply Z.ltb_ge in Hcl; lia.
  - destruct (Hap ar (c_area c) Hne); lia.
Qed.

Lemma sy_describes_set m0 s m r v :
  describes m0 s m -> describes m0 (sset r v s) (set_reg r (eval m0 v) m).
Proof.
  intros [Hr Hc Hf]. split; [|done|done].
  intros r'. simpl. repeat case_decide; congruence || auto.
Qed.

(** Loading outside the cells reads the entry memory. *)
Lemma sy_load m0 s m ar off w :
  apart m0 -> describes m0 s m -> 0 <= off -> off + Z.of_nat w <= area_size ar ->
  (forall c, In c (s_cells s) -> clash ar off w c = false) ->
  load_bytes w (base m0 ar + off) (mem m) = eval m0 (VMem ar off w).
Proof.
  intros Hap Hd ?? Hcl. simpl. apply mc_load_ext. intros b Hb.
  apply (d_frame _ _ _ Hd). intros c Hc Hin.
  destruct (d_cells _ _ _ Hd c Hc) as [Hci _].
  pose proof (sy_no_clash m0 ar off w c Hap Hci ltac:(lia) ltac:(lia) (Hcl c Hc)).
  unfold in_cell in Hin. lia.
Qed.

Lemma sy_describes_store m0 s m ar off w v :
  apart m0 -> describes m0 s m -> ar <> Rest -> 0 <= off -> off + Z.of_nat w <= area_size ar ->
  (forall c, In c (s_cells s) -> clash ar off w c = false) ->
  describes m0 (mk_sym (s_regs s) (mk_cell ar off w v :: s_cells s) (s_guards s))
    (set_mem (store_bytes w (base m0 ar + off) (eval m0 v) (mem m)) m).
Proof.
  intros Hap Hd Hne ?? Hcl. split.
  - intros r. simpl. apply (d_regs _ _ _ Hd).
  - intros c [<-|Hc]; simpl.
    + split; [done|]. apply mc_load_store_same.
    + destruct (d_cells _ _ _ Hd c Hc) as [Hci Hl]. split; [done|]. rewrite <- Hl.
      apply mc_load_store_other.
      pose proof (sy_no_clash m0 ar off w c Hap Hci ltac:(lia) ltac:(lia) (Hcl c Hc)). lia.
  - intros b Hb. simpl. rewrite mc_store_other.
    + apply (d_frame _ _ _ Hd). intros c Hc. apply Hb. by right.
    + intros Hin. apply (Hb (mk_cell ar off w v)); [by left|]. done.
Qed.

(** One elementary access. *)
Lemma sy_step_sound u m0 s m s' :
  apart m0 -> describes m0 s m -> sstep arg0 arg1 teb u s = Some s' ->
  (forall g, In g (s_guards s') -> guard_ok m0 g) ->
  exists m', ustep pac auth label u m = Some m' /\ describes m0 s' m'.
Proof.
  intros Hap Hd Hs Hg. destruct u as [w al r b off|w al b off r|r1 r2|r| | |]; simpl in Hs.
  - destruct (access _ _ _ _ _ _ _ _) as [ar|] eqn:Ha; [|done]. injection Hs as <-.
    apply (sy_access m0 s m) in Ha as (Haddr & Halign & ? & ? & Hcl); [|done..].
    eexists. simpl. rewrite Halign. split; [done|]. rewrite Haddr.
    rewrite (sy_load m0 s m ar off w) by done. by apply sy_describes_set.
  - destruct (access _ _ _ _ _ _ _ _) as [ar|] eqn:Ha; [|done]. simpl in Hs.
    case_bool_decide as Hr; [done|]. injection Hs as <-.
    apply (sy_access m0 s m) in Ha as (Haddr & Halign & ? & ? & Hcl); [|done..].
    eexists. simpl. rewrite Halign. split; [done|]. rewrite Haddr, (d_regs _ _ _ Hd).
    by apply sy_describes_store.
  - injection Hs as <-. eexists; split; [done|]. simpl. rewrite (d_regs _ _ _ Hd r2).
    by apply sy_describes_set.
  - injection Hs as <-. eexists; split; [done|]. by apply (sy_describes_set _ _ _ _ VLabel).
  - injection Hs as <-. eexists; split; [done|].
    rewrite (d_regs _ _ _ Hd x30), (d_regs _ _ _ Hd Sp).
    by apply (sy_describes_set _ _ _ _ (VPac _ _)).
  - injection Hs as <-. destruct (Hg (GAuth (sreg (s_regs s) x30) (sreg (s_regs s) Sp)))
      as [p Hp]; [by left|].
    eexists. simpl. rewrite (d_regs _ _ _ Hd x30), (d_regs _ _ _ Hd Sp), Hp. split; [done|].
    pose proof (sy_describes_set m0 s m x30 (VAut (sreg (s_regs s) x30) (sreg (s_regs s) Sp)) Hd) as Hd'.
    simpl in Hd'. rewrite Hp in Hd'. destruct Hd' as [H1 H2 H3]. by split.
  - injection Hs as <-. specialize (Hg _ (or_introl eq_refl)). simpl in Hg.
    eexists. simpl. rewrite (d_regs _ _ _ Hd), (proj2 (Z.ltb_lt _ _) Hg). split; [done|].
    destruct Hd as [H1 H2 H3]. by split.
Qed.

Lemma sy_step_guards u s s' g :
  sstep arg0 arg1 teb u s = Some s' -> In g (s_guards s) -> In g (s_guards s').
Proof.
  intros Hs Hg. destruct u; simpl in Hs;
    try (destruct (access _ _ _ _ _ _ _ _); [|done]; simpl in Hs);
    try (case_bool_decide; [done|]); injection Hs as <-; simpl; auto.
Qed.

Lemma sy_steps_guards us s s' g :
  ssteps arg0 arg1 teb us s = Some s' -> In g (s_guards s) -> In g (s_guards s').
Proof.
  revert s; induction us as [|u us IH]; intros s; simpl; [congruence|].
  destruct (sstep _ _ _ u s) as [s1|] eqn:E; [|done]. simpl.
  eauto using sy_step_guards.
Qed.

(** Soundness of the evaluator. *)
Lemma sy_steps_sound us m0 s m s' :
  apart m0 -> describes m0 s m -> ssteps arg0 arg1 teb us s = Some s' ->
  (forall g, In g (s_guards s') -> guard_ok m0 g) ->
  exists m', usteps pac auth label us m = Some m' /\ describes m0 s' m'.
Proof.
  intros Hap. revert s m; induction us as [|u us IH]; intros s m Hd Hs Hg; simpl in *.
  - injection Hs as <-. eauto.
  - destruct (sstep _ _ _ u s) as [s1|] eqn:E; [|done]. simpl in Hs.
    destruct (sy_step_sound u m0 s m s1) as (m1 & -> & Hd1); [done..| |].
    { eauto using sy_steps_guards. }
    simpl. eauto.
Qed.

(** The guards collected by a run that completes hold. *)
Lemma sy_step_guard_ok u m0 s m s' m' :
  describes m0 s m -> sstep arg0 arg1 teb u s = Some s' ->
  ustep pac auth label u m = Some m' ->
  (forall g, In g (s_guards s) -> guard_ok m0 g) ->
  forall g, In g (s_guards s') -> guard_ok m0 g.
Proof.
  intros Hd Hs Hm Hg. destruct u as [w al r b off|w al b off r|r1 r2|r| | |]; simpl in Hs.
  1, 2: destruct (access _ _ _ _ _ _ _ _); [|done]; simpl in Hs;
    try (case_bool_decide; [done|]); injection Hs as <-; done.
  1, 2, 3: injection Hs as <-; done.
  - injection Hs as <-. simpl in Hm. rewrite (d_regs _ _ _ Hd x30), (d_regs _ _ _ Hd Sp) in Hm.
    intros g [<-|Hin]; [|auto]. simpl. destruct (auth _ _); [eauto|done].
  - injection Hs as <-. simpl in Hm. rewrite (d_regs _ _ _ Hd Mxcsr) in Hm.
    intros g [<-|Hin]; [|auto]. simpl.
    destruct (_ <? _) eqn:E in Hm; [|done]. by apply Z.ltb_lt in E.
Qed.

(** A run that completes is described by the evaluator, and its guards hold. *)
Lemma sy_steps_complete us m0 s m s' m' :
  apart m0 -> describes m0 s m -> ssteps arg0 arg1 teb us s = Some s' ->
  usteps pac auth label us m = Some m' ->
  (forall g, In g (s_guards s) -> guard_ok m0 g) ->
  describes m0 s' m' /\ (forall g, In g (s_guards s') -> guard_ok m0 g).
Proof.
  intros Hap. revert s m; induction us as [|u us IH]; intros s m Hd Hs Hm Hg; simpl in *.
  - injection Hs as <-. injection Hm as <-. done.
  - destruct (sstep _ _ _ u s) as [s1|] eqn:E; [|done].
    destruct (ustep _ _ _ u m) as [m1|] eqn:E'; [|done]. simpl in *.
    assert (Hg1 : forall g, In g (s_guards s1) -> guard_ok m0 g)
      by (eapply (sy_step_guard_ok u m0 s m); eauto).
    destruct (sy_step_sound u m0 s m s1) as (m1' & E'' & Hd1); [done..|].
    rewrite E' in E''. injection E'' as <-. eauto.
Qed.
End meaning.
