(* ===== verification/SwitchCode.v ===== *)
(** * SwitchCode: the listings of src/src/context_switch.rs

    One Module per compilation target, one definition per
    [switch_context_*] routine, one instruction per line of its [naked_asm!]
    block.  Offsets that the source writes in hexadecimal (the [gs:] slots
    and the x18 slots of the Windows targets) are in decimal here. *)

From S2P Require Import Prelude Machine.

(** ** Register names *)

Definition rax : reg := Gpr 0.
Definition rcx : reg := Gpr 1.
Definition rdx : reg := Gpr 2.
Definition rbx : reg := Gpr 3.
Definition rbp : reg := Gpr 5.
Definition rsi : reg := Gpr 6.
Definition rdi : reg := Gpr 7.
Definition r12 : reg := Gpr 12.
Definition r13 : reg := Gpr 13.
Definition r14 : reg := Gpr 14.
Definition r15 : reg := Gpr 15.
Definition rsp : reg := Sp.
Definition xmm6 : reg := Vec 6.
Definition xmm7 : reg := Vec 7.
Definition xmm8 : reg := Vec 8.
Definition xmm9 : reg := Vec 9.
Definition xmm10 : reg := Vec 10.
Definition xmm11 : reg := Vec 11.
Definition xmm12 : reg := Vec 12.
Definition xmm13 : reg := Vec 13.
Definition xmm14 : reg := Vec 14.
Definition xmm15 : reg := Vec 15.
Definition x0 : reg := Gpr 0.
Definition x1 : reg := Gpr 1.
Definition x9 : reg := Gpr 9.
Definition x18 : reg := Gpr 18.
Definition x19 : reg := Gpr 19.
Definition x20 : reg := Gpr 20.
Definition x21 : reg := Gpr 21.
Definition x22 : reg := Gpr 22.
Definition x23 : reg := Gpr 23.
Definition x24 : reg := Gpr 24.
Definition x25 : reg := Gpr 25.
Definition x26 : reg := Gpr 26.
Definition x27 : reg := Gpr 27.
Definition x28 : reg := Gpr 28.
Definition x29 : reg := Gpr 29.
Definition sp : reg := Sp.
Definition d8 : reg := Vec 8.
Definition d9 : reg := Vec 9.
Definition d10 : reg := Vec 10.
Definition d11 : reg := Vec 11.
Definition d12 : reg := Vec 12.
Definition d13 : reg := Vec 13.
Definition d14 : reg := Vec 14.
Definition d15 : reg := Vec 15.
Definition a0 : reg := Gpr 10.
Definition a1 : reg := Gpr 11.
Definition a2 : reg := Gpr 12.
Definition s0 : reg := Gpr 8.
Definition s1 : reg := Gpr 9.
Definition s2 : reg := Gpr 18.
Definition s3 : reg := Gpr 19.
Definition s4 : reg := Gpr 20.
Definition s5 : reg := Gpr 21.
Definition s6 : reg := Gpr 22.
Definition s7 : reg := Gpr 23.
Definition s8 : reg := Gpr 24.
Definition s9 : reg := Gpr 25.
Definition s10 : reg := Gpr 26.
Definition s11 : reg := Gpr 27.
Definition fs0 : reg := Vec 8.
Definition fs1 : reg := Vec 9.
Definition fs2 : reg := Vec 18.
Definition fs3 : reg := Vec 19.
Definition fs4 : reg := Vec 20.
Definition fs5 : reg := Vec 21.
Definition fs6 : reg := Vec 22.
Definition fs7 : reg := Vec 23.
Definition fs8 : reg := Vec 24.
Definition fs9 : reg := Vec 25.
Definition fs10 : reg := Vec 26.
Definition fs11 : reg := Vec 27.

(** [cfg(all(target_arch = x86_64, unix))] *)
Module X86_64_unix.

Definition switch_context_cross_thread_float : list instr := [
  prefetchw rdi 0;
  prefetcht0 rsi 0;
  prefetcht0 rsi 64;
  prefetcht0 rsi 128;
  mov_rm rax rsi 0;
  prefetcht0 rax 0;
  prefetcht0 rax 64;
  mov_mr rdi 0 rsp;
  mov_mr rdi 8 rbp;
  mov_mr rdi 16 rbx;
  mov_mr rdi 24 r12;
  mov_mr rdi 32 r13;
  mov_mr rdi 40 r14;
  mov_mr rdi 48 r15;
  stmxcsr rdi 64;
  lea_1f rax;
  mov_mr rdi 56 rax;
  ldmxcsr rsi 64;
  mov_rm rsp rsi 0;
  mov_rm rbp rsi 8;
  mov_rm rbx rsi 16;
  mov_rm r12 rsi 24;
  mov_rm r13 rsi 32;
  mov_rm r14 rsi 40;
  mov_rm r15 rsi 48;
  jmp_m rsi 56;
  label_1;
  x86_ret ].

Definition switch_context_cross_thread_no_float : list instr := [
  prefetchw rdi 0;
  prefetcht0 rsi 0;
  mov_rm rax rsi 0;
  prefetcht0 rax 0;
  prefetcht0 rax 64;
  mov_mr rdi 0 rsp;
  mov_mr rdi 8 rbp;
  mov_mr rdi 16 rbx;
  mov_mr rdi 24 r12;
  mov_mr rdi 32 r13;
  mov_mr rdi 40 r14;
  mov_mr rdi 48 r15;
  lea_1f rax;
  mov_mr rdi 56 rax;
  mov_rm rsp rsi 0;
  mov_rm rbp rsi 8;
  mov_rm rbx rsi 16;
  mov_rm r12 rsi 24;
  mov_rm r13 rsi 32;
  mov_rm r14 rsi 40;
  mov_rm r15 rsi 48;
  jmp_m rsi 56;
  label_1;
  x86_ret ].

Definition switch_context_same_thread_float : list instr := [
  prefetchw rdi 0;
  prefetcht0 rsi 0;
  prefetcht0 rsi 64;
  prefetcht0 rsi 128;
  mov_rm rax rsi 0;
  prefetcht0 rax 0;
  mov_mr rdi 0 rsp;
  mov_mr rdi 8 rbp;
  mov_mr rdi 16 rbx;
  mov_mr rdi 24 r12;
  mov_mr rdi 32 r13;
  mov_mr rdi 40 r14;
  mov_mr rdi 48 r15;
  stmxcsr rdi 64;
  lea_1f rax;
  mov_mr rdi 56 rax;
  ldmxcsr rsi 64;
  mov_rm rsp rsi 0;
  mov_rm rbp rsi 8;
  mov_rm rbx rsi 16;
  mov_rm r12 rsi 24;
  mov_rm r13 rsi 32;
  mov_rm r14 rsi 40;
  mov_rm r15 rsi 48;
  jmp_m rsi 56;
  label_1;
  x86_ret ].

Definition switch_context_same_thread_no_float : list instr := [
  prefetchw rdi 0;
  prefetcht0 rsi 0;
  prefetcht0 rsi 64;
  mov_rm rax rsi 0;
  prefetcht0 rax 0;
  prefetcht0 rax 64;
  mov_mr rdi 0 rsp;
  mov_mr rdi 8 rbp;
  mov_mr rdi 16 rbx;
  mov_mr rdi 24 r12;
  mov_mr rdi 32 r13;
  mov_mr rdi 40 r14;
  mov_mr rdi 48 r15;
  lea_1f rax;
  mov_mr rdi 56 rax;
  mov_rm rsp rsi 0;
  mov_rm rbp rsi 8;
  mov_rm rbx rsi 16;
  mov_rm r12 rsi 24;
  mov_rm r13 rsi 32;
  mov_rm r14 rsi 40;
  mov_rm r15 rsi 48;
  jmp_m rsi 56;
  label_1;
  x86_ret ].

End X86_64_unix.

(** [cfg(all(target_arch = x86_64, windows))] *)
Module X86_64_windows.

Definition switch_context_cross_thread_float : list instr := [
  prefetchw rcx 0;
  prefetcht0 rdx 0;
  prefetcht0 rdx 64;
  prefetcht0 rdx 128;
  mov_rm rax rdx 0;
  prefetcht0 rax 0;
  prefetcht0 rax 64;
  mov_mr rcx 0 rsp;
  mov_mr rcx 8 rbp;
  mov_mr rcx 16 rbx;
  mov_mr rcx 24 r12;
  mov_mr rcx 32 r13;
  mov_mr rcx 40 r14;
  mov_mr rcx 48 r15;
  mov_mr rcx 64 rdi;
  mov_mr rcx 72 rsi;
  mov_r_gs rax 8;
  mov_mr rcx 80 rax;
  mov_r_gs rax 16;
  mov_mr rcx 88 rax;
  mov_r_gs rax 5240;
  mov_mr rcx 96 rax;
  mov_r_gs rax 0;
  mov_mr rcx 104 rax;
  stmxcsr rcx 112;
  movaps_mr rcx 128 xmm6;
  movaps_mr rcx 144 xmm7;
  movaps_mr rcx 160 xmm8;
  movaps_mr rcx 176 xmm9;
  movaps_mr rcx 192 xmm10;
  movaps_mr rcx 208 xmm11;
  movaps_mr rcx 224 xmm12;
  movaps_mr rcx 240 xmm13;
  movaps_mr rcx 256 xmm14;
  movaps_mr rcx 272 xmm15;
  lea_1f rax;
  mov_mr rcx 56 rax;
  movaps_rm xmm6 rdx 128;
  movaps_rm xmm7 rdx 144;
  movaps_rm xmm8 rdx 160;
  movaps_rm xmm9 rdx 176;
  movaps_rm xmm10 rdx 192;
  movaps_rm xmm11 rdx 208;
  movaps_rm xmm12 rdx 224;
  movaps_rm xmm13 rdx 240;
  movaps_rm xmm14 rdx 256;
  movaps_rm xmm15 rdx 272;
  ldmxcsr rdx 112;
  mov_rm rax rdx 80;
  mov_gs_r 8 rax;
  mov_rm rax rdx 88;
  mov_gs_r 16 rax;
  mov_rm rax rdx 96;
  mov_gs_r 5240 rax;
  mov_rm rax rdx 104;
  mov_gs_r 0 rax;
  mov_rm rsp rdx 0;
  mov_rm rbp rdx 8;
  mov_rm rbx rdx 16;
  mov_rm r12 rdx 24;
  mov_rm r13 rdx 32;
  mov_rm r14 rdx 40;
  mov_rm r15 rdx 48;
  mov_rm rdi rdx 64;
  mov_rm rsi rdx 72;
  jmp_m rdx 56;
  label_1;
  x86_ret ].

Definition switch_context_cross_thread_no_float : list instr := [
  prefetchw rcx 0;
  prefetcht0 rdx 0;
  mov_rm rax rdx 0;
  prefetcht0 rax 0;
  prefetcht0 rax 64;
  mov_mr rcx 0 rsp;
  mov_mr rcx 8 rbp;
  mov_mr rcx 16 rbx;
  mov_mr rcx 24 r12;
  mov_mr rcx 32 r13;
  mov_mr rcx 40 r14;
  mov_mr rcx 48 r15;
  mov_mr rcx 64 rdi;
  mov_mr rcx 72 rsi;
  mov_r_gs rax 8;
  mov_mr rcx 80 rax;
  mov_r_gs rax 16;
  mov_mr rcx 88 rax;
  mov_r_gs rax 5240;
  mov_mr rcx 96 rax;
  mov_r_gs rax 0;
  mov_mr rcx 104 rax;
  lea_1f rax;
  mov_mr rcx 56 rax;
  mov_rm rax rdx 80;
  mov_gs_r 8 rax;
  mov_rm rax rdx 88;
  mov_gs_r 16 rax;
  mov_rm rax rdx 96;
  mov_gs_r 5240 rax;
  mov_rm rax rdx 104;
  mov_gs_r 0 rax;
  mov_rm rsp rdx 0;
  mov_rm rbp rdx 8;
  mov_rm rbx rdx 16;
  mov_rm r12 rdx 24;
  mov_rm r13 rdx 32;
  mov_rm r14 rdx 40;
  mov_rm r15 rdx 48;
  mov_rm rdi rdx 64;
  mov_rm rsi rdx 72;
  jmp_m rdx 56;
  label_1;
  x86_ret ].

Definition switch_context_same_thread_float : list instr := [
  prefetchw rcx 0;
  prefetcht0 rdx 0;
  prefetcht0 rdx 64;
  prefetcht0 rdx 128;
  mov_rm rax rdx 0;
  prefetcht0 rax 0;
  mov_mr rcx 0 rsp;
  mov_mr rcx 8 rbp;
  mov_mr rcx 16 rbx;
  mov_mr rcx 24 r12;
  mov_mr rcx 32 r13;
  mov_mr rcx 40 r14;
  mov_mr rcx 48 r15;
  mov_mr rcx 64 rdi;
  mov_mr rcx 72 rsi;
  mov_r_gs rax 8;
  mov_mr rcx 80 rax;
  mov_r_gs rax 16;
  mov_mr rcx 88 rax;
  mov_r_gs rax 5240;
  mov_mr rcx 96 rax;
  mov_r_gs rax 0;
  mov_mr rcx 104 rax;
  stmxcsr rcx 112;
  movaps_mr rcx 128 xmm6;
  movaps_mr rcx 144 xmm7;
  movaps_mr rcx 160 xmm8;
  movaps_mr rcx 176 xmm9;
  movaps_mr rcx 192 xmm10;
  movaps_mr rcx 208 xmm11;
  movaps_mr rcx 224 xmm12;
  movaps_mr rcx 240 xmm13;
  movaps_mr rcx 256 xmm14;
  movaps_mr rcx 272 xmm15;
  lea_1f rax;
  mov_mr rcx 56 rax;
  movaps_rm xmm6 rdx 128;
  movaps_rm xmm7 rdx 144;
  movaps_rm xmm8 rdx 160;
  movaps_rm xmm9 rdx 176;
  movaps_rm xmm10 rdx 192;
  movaps_rm xmm11 rdx 208;
  movaps_rm xmm12 rdx 224;
  movaps_rm xmm13 rdx 240;
  movaps_rm xmm14 rdx 256;
  movaps_rm xmm15 rdx 272;
  ldmxcsr rdx 112;
  mov_rm rax rdx 80;
  mov_gs_r 8 rax;
  mov_rm rax rdx 88;
  mov_gs_r 16 rax;
  mov_rm rax rdx 96;
  mov_gs_r 5240 rax;
  mov_rm rax rdx 104;
  mov_gs_r 0 rax;
  mov_rm rsp rdx 0;
  mov_rm rbp rdx 8;
  mov_rm rbx rdx 16;
  mov_rm r12 rdx 24;
  mov_rm r13 rdx 32;
  mov_rm r14 rdx 40;
  mov_rm r15 rdx 48;
  mov_rm rdi rdx 64;
  mov_rm rsi rdx 72;
  jmp_m rdx 56;
  label_1;
  x86_ret ].

Definition switch_context_same_thread_no_float : list instr := [
  prefetchw rcx 0;
  prefetcht0 rdx 0;
  prefetcht0 rdx 64;
  mov_rm rax rdx 0;
  prefetcht0 rax 0;
  prefetcht0 rax 64;
  mov_mr rcx 0 rsp;
  mov_mr rcx 8 rbp;
  mov_mr rcx 16 rbx;
  mov_mr rcx 24 r12;
  mov_mr rcx 32 r13;
  mov_mr rcx 40 r14;
  mov_mr rcx 48 r15;
  mov_mr rcx 64 rdi;
  mov_mr rcx 72 rsi;
  mov_r_gs rax 8;
  mov_mr rcx 80 rax;
  mov_r_gs rax 16;
  mov_mr rcx 88 rax;
  mov_r_gs rax 5240;
  mov_mr rcx 96 rax;
  mov_r_gs rax 0;
  mov_mr rcx 104 rax;
  lea_1f rax;
  mov_mr rcx 56 rax;
  mov_rm rax rdx 80;
  mov_gs_r 8 rax;
  mov_rm rax rdx 88;
  mov_gs_r 16 rax;
  mov_rm rax rdx 96;
  mov_gs_r 5240 rax;
  mov_rm rax rdx 104;
  mov_gs_r 0 rax;
  mov_rm rsp rdx 0;
  mov_rm rbp rdx 8;
  mov_rm rbx rdx 16;
  mov_rm r12 rdx 24;
  mov_rm r13 rdx 32;
  mov_rm r14 rdx 40;
  mov_rm r15 rdx 48;
  mov_rm rdi rdx 64;
  mov_rm rsi rdx 72;
  jmp_m rdx 56;
  label_1;
  x86_ret ].

End X86_64_windows.

(** AArch64 Unix other than macOS, without the feature security-hardened. *)
Module Aarch64_unix.

Definition switch_context_cross_thread_float : list instr := [
  prfm x0 0;
  prfm x1 0;
  prfm x1 64;
  prfm x1 128;
  ldr x9 x1 96;
  prfm x9 0;
  prfm x9 64;
  stp x19 x20 x0 0;
  stp x21 x22 x0 16;
  stp x23 x24 x0 32;
  stp x25 x26 x0 48;
  stp x27 x28 x0 64;
  stp x29 x30 x0 80;
  mov x9 sp;
  str x9 x0 96;
  stp d8 d9 x0 128;
  stp d10 d11 x0 144;
  stp d12 d13 x0 160;
  stp d14 d15 x0 176;
  ldp x19 x20 x1 0;
  ldp x21 x22 x1 16;
  ldp x23 x24 x1 32;
  ldp x25 x26 x1 48;
  ldp x27 x28 x1 64;
  ldp x29 x30 x1 80;
  ldr x9 x1 96;
  mov sp x9;
  ldp d8 d9 x1 128;
  ldp d10 d11 x1 144;
  ldp d12 d13 x1 160;
  ldp d14 d15 x1 176;
  a64_ret ].

Definition switch_context_cross_thread_no_float : list instr := [
  prfm x0 0;
  prfm x1 0;
  prfm x1 64;
  ldr x9 x1 96;
  prfm x9 0;
  prfm x9 64;
  stp x19 x20 x0 0;
  stp x21 x22 x0 16;
  stp x23 x24 x0 32;
  stp x25 x26 x0 48;
  stp x27 x28 x0 64;
  stp x29 x30 x0 80;
  mov x9 sp;
  str x9 x0 96;
  ldp x19 x20 x1 0;
  ldp x21 x22 x1 16;
  ldp x23 x24 x1 32;
  ldp x25 x26 x1 48;
  ldp x27 x28 x1 64;
  ldp x29 x30 x1 80;
  ldr x9 x1 96;
  mov sp x9;
  a64_ret ].

Definition switch_context_same_thread_float : list instr := [
  prfm x0 0;
  prfm x1 0;
  prfm x1 64;
  prfm x1 128;
  ldr x9 x1 96;
  prfm x9 0;
  prfm x9 64;
  stp x19 x20 x0 0;
  stp x21 x22 x0 16;
  stp x23 x24 x0 32;
  stp x25 x26 x0 48;
  stp x27 x28 x0 64;
  stp x29 x30 x0 80;
  mov x9 sp;
  str x9 x0 96;
  stp d8 d9 x0 128;
  stp d10 d11 x0 144;
  stp d12 d13 x0 160;
  stp d14 d15 x0 176;
  ldp x19 x20 x1 0;
  ldp x21 x22 x1 16;
  ldp x23 x24 x1 32;
  ldp x25 x26 x1 48;
  ldp x27 x28 x1 64;
  ldp x29 x30 x1 80;
  ldr x9 x1 96;
  mov sp x9;
  ldp d8 d9 x1 128;
  ldp d10 d11 x1 144;
  ldp d12 d13 x1 160;
  ldp d14 d15 x1 176;
  a64_ret ].

Definition switch_context_same_thread_no_float : list instr := [
  prfm x0 0;
  prfm x1 0;
  prfm x1 64;
  ldr x9 x1 96;
  prfm x9 0;
  prfm x9 64;
  stp x19 x20 x0 0;
  stp x21 x22 x0 16;
  stp x23 x24 x0 32;
  stp x25 x26 x0 48;
  stp x27 x28 x0 64;
  stp x29 x30 x0 80;
  mov x9 sp;
  str x9 x0 96;
  ldp x19 x20 x1 0;
  ldp x21 x22 x1 16;
  ldp x23 x24 x1 32;
  ldp x25 x26 x1 48;
  ldp x27 x28 x1 64;
  ldp x29 x30 x1 80;
  ldr x9 x1 96;
  mov sp x9;
  a64_ret ].

End Aarch64_unix.

(** AArch64 Unix other than macOS, with the feature security-hardened. *)
Module Aarch64_hardened.

Definition switch_context_cross_thread_float : list instr := [
  bti_c;
  paciasp;
  prfm x0 0;
  prfm x1 0;
  prfm x1 64;
  prfm x1 128;
  ldr x9 x1 96;
  prfm x9 0;
  prfm x9 64;
  stp x19 x20 x0 0;
  stp x21 x22 x0 16;
  stp x23 x24 x0 32;
  stp x25 x26 x0 48;
  stp x27 x28 x0 64;
  stp x29 x30 x0 80;
  mov x9 sp;
  str x9 x0 96;
  stp d8 d9 x0 128;
  stp d10 d11 x0 144;
  stp d12 d13 x0 160;
  stp d14 d15 x0 176;
  ldp x19 x20 x1 0;
  ldp x21 x22 x1 16;
  ldp x23 x24 x1 32;
  ldp x25 x26 x1 48;
  ldp x27 x28 x1 64;
  ldp x29 x30 x1 80;
  ldr x9 x1 96;
  mov sp x9;
  ldp d8 d9 x1 128;
  ldp d10 d11 x1 144;
  ldp d12 d13 x1 160;
  ldp d14 d15 x1 176;
  autiasp;
  a64_ret ].

Definition switch_context_cross_thread_no_float : list instr := [
  bti_c;
  paciasp;
  prfm x0 0;
  prfm x1 0;
  prfm x1 64;
  ldr x9 x1 96;
  prfm x9 0;
  prfm x9 64;
  stp x19 x20 x0 0;
  stp x21 x22 x0 16;
  stp x23 x24 x0 32;
  stp x25 x26 x0 48;
  stp x27 x28 x0 64;
  stp x29 x30 x0 80;
  mov x9 sp;
  str x9 x0 96;
  ldp x19 x20 x1 0;
  ldp x21 x22 x1 16;
  ldp x23 x24 x1 32;
  ldp x25 x26 x1 48;
  ldp x27 x28 x1 64;
  ldp x29 x30 x1 80;
  ldr x9 x1 96;
  mov sp x9;
  autiasp;
  a64_ret ].

Definition switch_context_same_thread_float : list instr := [
  bti_c;
  paciasp;
  prfm x0 0;
  prfm x1 0;
  prfm x1 64;
  prfm x1 128;
  ldr x9 x1 96;
  prfm x9 0;
  prfm x9 64;
  stp x19 x20 x0 0;
  stp x21 x22 x0 16;
  stp x23 x24 x0 32;
  stp x25 x26 x0 48;
  stp x27 x28 x0 64;
  stp x29 x30 x0 80;
  mov x9 sp;
  str x9 x0 96;
  stp d8 d9 x0 128;
  stp d10 d11 x0 144;
  stp d12 d13 x0 160;
  stp d14 d15 x0 176;
  ldp x19 x20 x1 0;
  ldp x21 x22 x1 16;
  ldp x23 x24 x1 32;
  ldp x25 x26 x1 48;
  ldp x27 x28 x1 64;
  ldp x29 x30 x1 80;
  ldr x9 x1 96;
  mov sp x9;
  ldp d8 d9 x1 128;
  ldp d10 d11 x1 144;
  ldp d12 d13 x1 160;
  ldp d14 d15 x1 176;
  autiasp;
  a64_ret ].

Definition switch_context_same_thread_no_float : list instr := [
  bti_c;
  paciasp;
  prfm x0 0;
  prfm x1 0;
  prfm x1 64;
  ldr x9 x1 96;
  prfm x9 0;
  prfm x9 64;
  stp x19 x20 x0 0;
  stp x21 x22 x0 16;
  stp x23 x24 x0 32;
  stp x25 x26 x0 48;
  stp x27 x28 x0 64;
  stp x29 x30 x0 80;
  mov x9 sp;
  str x9 x0 96;
  ldp x19 x20 x1 0;
  ldp x21 x22 x1 16;
  ldp x23 x24 x1 32;
  ldp x25 x26 x1 48;
  ldp x27 x28 x1 64;
  ldp x29 x30 x1 80;
  ldr x9 x1 96;
  mov sp x9;
  autiasp;
  a64_ret ].

End Aarch64_hardened.

(** AArch64 macOS. *)
Module Aarch64_macos.

Definition switch_context_cross_thread_float : list instr := [
  bti_c;
  paciasp;
  prfm x0 0;
  prfm x1 0;
  prfm x1 64;
  prfm x1 128;
  ldr x9 x1 96;
  prfm x9 0;
  prfm x9 64;
  stp x19 x20 x0 0;
  stp x21 x22 x0 16;
  stp x23 x24 x0 32;
  stp x25 x26 x0 48;
  stp x27 x28 x0 64;
  stp x29 x30 x0 80;
  mov x9 sp;
  str x9 x0 96;
  stp d8 d9 x0 128;
  stp d10 d11 x0 144;
  stp d12 d13 x0 160;
  stp d14 d15 x0 176;
  ldp d8 d9 x1 128;
  ldp d10 d11 x1 144;
  ldp d12 d13 x1 160;
  ldp d14 d15 x1 176;
  ldp x19 x20 x1 0;
  ldp x21 x22 x1 16;
  ldp x23 x24 x1 32;
  ldp x25 x26 x1 48;
  ldp x27 x28 x1 64;
  ldp x29 x30 x1 80;
  ldr x9 x1 96;
  mov sp x9;
  autiasp;
  a64_ret ].

Definition switch_context_cross_thread_no_float : list instr := [
  bti_c;
  paciasp;
  prfm x0 0;
  prfm x1 0;
  prfm x1 64;
  ldr x9 x1 96;
  prfm x9 0;
  prfm x9 64;
  stp x19 x20 x0 0;
  stp x21 x22 x0 16;
  stp x23 x24 x0 32;
  stp x25 x26 x0 48;
  stp x27 x28 x0 64;
  stp x29 x30 x0 80;
  mov x9 sp;
  str x9 x0 96;
  ldp x19 x20 x1 0;
  ldp x21 x22 x1 16;
  ldp x23 x24 x1 32;
  ldp x25 x26 x1 48;
  ldp x27 x28 x1 64;
  ldp x29 x30 x1 80;
  ldr x9 x1 96;
  mov sp x9;
  autiasp;
  a64_ret ].

Definition switch_context_same_thread_float : list instr := [
  bti_c;
  paciasp;
  prfm x0 0;
  prfm x1 0;
  prfm x1 64;
  prfm x1 128;
  ldr x9 x1 96;
  prfm x9 0;
  prfm x9 64;
  stp x19 x20 x0 0;
  stp x21 x22 x0 16;
  stp x23 x24 x0 32;
  stp x25 x26 x0 48;
  stp x27 x28 x0 64;
  stp x29 x30 x0 80;
  mov x9 sp;
  str x9 x0 96;
  stp d8 d9 x0 128;
  stp d10 d11 x0 144;
  stp d12 d13 x0 160;
  stp d14 d15 x0 176;
  ldp x19 x20 x1 0;
  ldp x21 x22 x1 16;
  ldp x23 x24 x1 32;
  ldp x25 x26 x1 48;
  ldp x27 x28 x1 64;
  ldp x29 x30 x1 80;
  ldr x9 x1 96;
  mov sp x9;
  ldp d8 d9 x1 128;
  ldp d10 d11 x1 144;
  ldp d12 d13 x1 160;
  ldp d14 d15 x1 176;
  autiasp;
  a64_ret ].

Definition switch_context_same_thread_no_float : list instr := [
  bti_c;
  paciasp;
  prfm x0 0;
  prfm x1 0;
  prfm x1 64;
  ldr x9 x1 96;
  prfm x9 0;
  prfm x9 64;
  stp x19 x20 x0 0;
  stp x21 x22 x0 16;
  stp x23 x24 x0 32;
  stp x25 x26 x0 48;
  stp x27 x28 x0 64;
  stp x29 x30 x0 80;
  mov x9 sp;
  str x9 x0 96;
  ldp x19 x20 x1 0;
  ldp x21 x22 x1 16;
  ldp x23 x24 x1 32;
  ldp x25 x26 x1 48;
  ldp x27 x28 x1 64;
  ldp x29 x30 x1 80;
  ldr x9 x1 96;
  mov sp x9;
  autiasp;
  a64_ret ].

End Aarch64_macos.

(** AArch64 Windows: x18 holds the TEB address. *)
Module Aarch64_windows.

Definition switch_context_cross_thread_float : list instr := [
  bti_c;
  paciasp;
  prfm x0 0;
  prfm x1 0;
  prfm x1 64;
  prfm x1 128;
  ldr x9 x1 96;
  prfm x9 0;
  prfm x9 64;
  stp x19 x20 x0 0;
  stp x21 x22 x0 16;
  stp x23 x24 x0 32;
  stp x25 x26 x0 48;
  stp x27 x28 x0 64;
  stp x29 x30 x0 80;
  mov x9 sp;
  str x9 x0 96;
  ldr x9 x18 8;
  str x9 x0 104;
  ldr x9 x18 16;
  str x9 x0 112;
  ldr x9 x18 4808;
  str x9 x0 120;
  stp d8 d9 x0 128;
  stp d10 d11 x0 144;
  stp d12 d13 x0 160;
  stp d14 d15 x0 176;
  ldp d8 d9 x1 128;
  ldp d10 d11 x1 144;
  ldp d12 d13 x1 160;
  ldp d14 d15 x1 176;
  ldr x9 x1 104;
  str x9 x18 8;
  ldr x9 x1 112;
  str x9 x18 16;
  ldr x9 x1 120;
  str x9 x18 4808;
  ldp x19 x20 x1 0;
  ldp x21 x22 x1 16;
  ldp x23 x24 x1 32;
  ldp x25 x26 x1 48;
  ldp x27 x28 x1 64;
  ldp x29 x30 x1 80;
  ldr x9 x1 96;
  mov sp x9;
  autiasp;
  a64_ret ].

Definition switch_context_cross_thread_no_float : list instr := [
  bti_c;
  paciasp;
  prfm x0 0;
  prfm x1 0;
  prfm x1 64;
  ldr x9 x1 96;
  prfm x9 0;
  prfm x9 64;
  stp x19 x20 x0 0;
  stp x21 x22 x0 16;
  stp x23 x24 x0 32;
  stp x25 x26 x0 48;
  stp x27 x28 x0 64;
  stp x29 x30 x0 80;
  mov x9 sp;
  str x9 x0 96;
  ldr x9 x18 8;
  str x9 x0 104;
  ldr x9 x18 16;
  str x9 x0 112;
  ldr x9 x18 4808;
  str x9 x0 120;
  ldr x9 x1 104;
  str x9 x18 8;
  ldr x9 x1 112;
  str x9 x18 16;
  ldr x9 x1 120;
  str x9 x18 4808;
  ldp x19 x20 x1 0;
  ldp x21 x22 x1 16;
  ldp x23 x24 x1 32;
  ldp x25 x26 x1 48;
  ldp x27 x28 x1 64;
  ldp x29 x30 x1 80;
  ldr x9 x1 96;
  mov sp x9;
  autiasp;
  a64_ret ].

Definition switch_context_same_thread_float : list instr := [
  bti_c;
  paciasp;
  prfm x0 0;
  prfm x1 0;
  prfm x1 64;
  prfm x1 128;
  ldr x9 x1 96;
  prfm x9 0;
  stp x19 x20 x0 0;
  stp x21 x22 x0 16;
  stp x23 x24 x0 32;
  stp x25 x26 x0 48;
  stp x27 x28 x0 64;
  stp x29 x30 x0 80;
  mov x9 sp;
  str x9 x0 96;
  ldr x9 x18 8;
  str x9 x0 104;
  ldr x9 x18 16;
  str x9 x0 112;
  ldr x9 x18 4808;
  str x9 x0 120;
  stp d8 d9 x0 128;
  stp d10 d11 x0 144;
  stp d12 d13 x0 160;
  stp d14 d15 x0 176;
  ldp d8 d9 x1 128;
  ldp d10 d11 x1 144;
  ldp d12 d13 x1 160;
  ldp d14 d15 x1 176;
  ldr x9 x1 104;
  str x9 x18 8;
  ldr x9 x1 112;
  str x9 x18 16;
  ldr x9 x1 120;
  str x9 x18 4808;
  ldp x19 x20 x1 0;
  ldp x21 x22 x1 16;
  ldp x23 x24 x1 32;
  ldp x25 x26 x1 48;
  ldp x27 x28 x1 64;
  ldp x29 x30 x1 80;
  ldr x9 x1 96;
  mov sp x9;
  autiasp;
  a64_ret ].

Definition switch_context_same_thread_no_float : list instr := [
  bti_c;
  paciasp;
  prfm x0 0;
  prfm x1 0;
  prfm x1 64;
  ldr x9 x1 96;
  prfm x9 0;
  prfm x9 64;
  stp x19 x20 x0 0;
  stp x21 x22 x0 16;
  stp x23 x24 x0 32;
  stp x25 x26 x0 48;
  stp x27 x28 x0 64;
  stp x29 x30 x0 80;
  mov x9 sp;
  str x9 x0 96;
  ldr x9 x18 8;
  str x9 x0 104;
  ldr x9 x18 16;
  str x9 x0 112;
  ldr x9 x18 4808;
  str x9 x0 120;
  ldr x9 x1 104;
  str x9 x18 8;
  ldr x9 x1 112;
  str x9 x18 16;
  ldr x9 x1 120;
  str x9 x18 4808;
  ldp x19 x20 x1 0;
  ldp x21 x22 x1 16;
  ldp x23 x24 x1 32;
  ldp x25 x26 x1 48;
  ldp x27 x28 x1 64;
  ldp x29 x30 x1 80;
  ldr x9 x1 96;
  mov sp x9;
  autiasp;
  a64_ret ].

End Aarch64_windows.

(** RISC-V with the feature hw-acceleration. *)
Module Riscv64_hw.

Definition switch_context_cross_thread_float : list instr := [
  prefetch_w 0 a0;
  prefetch_r 0 a1;
  prefetch_r 64 a1;
  prefetch_r 128 a1;
  ld a2 0 a1;
  prefetch_r 0 a2;
  prefetch_r 64 a2;
  sd sp 0 a0;
  sd s0 8 a0;
  sd s1 16 a0;
  sd s2 24 a0;
  sd s3 32 a0;
  sd s4 40 a0;
  sd s5 48 a0;
  sd s6 56 a0;
  sd s7 64 a0;
  sd s8 72 a0;
  sd s9 80 a0;
  sd s10 88 a0;
  sd s11 96 a0;
  sd ra 104 a0;
  fsd fs0 128 a0;
  fsd fs1 136 a0;
  fsd fs2 144 a0;
  fsd fs3 152 a0;
  fsd fs4 160 a0;
  fsd fs5 168 a0;
  fsd fs6 176 a0;
  fsd fs7 184 a0;
  fsd fs8 192 a0;
  fsd fs9 200 a0;
  fsd fs10 208 a0;
  fsd fs11 216 a0;
  ld sp 0 a1;
  ld s0 8 a1;
  ld s1 16 a1;
  ld s2 24 a1;
  ld s3 32 a1;
  ld s4 40 a1;
  ld s5 48 a1;
  ld s6 56 a1;
  ld s7 64 a1;
  ld s8 72 a1;
  ld s9 80 a1;
  ld s10 88 a1;
  ld s11 96 a1;
  ld ra 104 a1;
  fld fs0 128 a1;
  fld fs1 136 a1;
  fld fs2 144 a1;
  fld fs3 152 a1;
  fld fs4 160 a1;
  fld fs5 168 a1;
  fld fs6 176 a1;
  fld fs7 184 a1;
  fld fs8 192 a1;
  fld fs9 200 a1;
  fld fs10 208 a1;
  fld fs11 216 a1;
  rv_ret ].

Definition switch_context_cross_thread_no_float : list instr := [
  prefetch_w 0 a0;
  prefetch_r 0 a1;
  prefetch_r 64 a1;
  ld a2 0 a1;
  prefetch_r 0 a2;
  prefetch_r 64 a2;
  sd sp 0 a0;
  sd s0 8 a0;
  sd s1 16 a0;
  sd s2 24 a0;
  sd s3 32 a0;
  sd s4 40 a0;
  sd s5 48 a0;
  sd s6 56 a0;
  sd s7 64 a0;
  sd s8 72 a0;
  sd s9 80 a0;
  sd s10 88 a0;
  sd s11 96 a0;
  sd ra 104 a0;
  ld sp 0 a1;
  ld s0 8 a1;
  ld s1 16 a1;
  ld s2 24 a1;
  ld s3 32 a1;
  ld s4 40 a1;
  ld s5 48 a1;
  ld s6 56 a1;
  ld s7 64 a1;
  ld s8 72 a1;
  ld s9 80 a1;
  ld s10 88 a1;
  ld s11 96 a1;
  ld ra 104 a1;
  rv_ret ].

Definition switch_context_same_thread_float : list instr := [
  prefetch_w 0 a0;
  prefetch_r 0 a1;
  prefetch_r 64 a1;
  prefetch_r 128 a1;
  ld a2 0 a1;
  prefetch_r 0 a2;
  sd sp 0 a0;
  sd s0 8 a0;
  sd s1 16 a0;
  sd s2 24 a0;
  sd s3 32 a0;
  sd s4 40 a0;
  sd s5 48 a0;
  sd s6 56 a0;
  sd s7 64 a0;
  sd s8 72 a0;
  sd s9 80 a0;
  sd s10 88 a0;
  sd s11 96 a0;
  sd ra 104 a0;
  fsd fs0 128 a0;
  fsd fs1 136 a0;
  fsd fs2 144 a0;
  fsd fs3 152 a0;
  fsd fs4 160 a0;
  fsd fs5 168 a0;
  fsd fs6 176 a0;
  fsd fs7 184 a0;
  fsd fs8 192 a0;
  fsd fs9 200 a0;
  fsd fs10 208 a0;
  fsd fs11 216 a0;
  ld sp 0 a1;
  ld s0 8 a1;
  ld s1 16 a1;
  ld s2 24 a1;
  ld s3 32 a1;
  ld s4 40 a1;
  ld s5 48 a1;
  ld s6 56 a1;
  ld s7 64 a1;
  ld s8 72 a1;
  ld s9 80 a1;
  ld s10 88 a1;
  ld s11 96 a1;
  ld ra 104 a1;
  fld fs0 128 a1;
  fld fs1 136 a1;
  fld fs2 144 a1;
  fld fs3 152 a1;
  fld fs4 160 a1;
  fld fs5 168 a1;
  fld fs6 176 a1;
  fld fs7 184 a1;
  fld fs8 192 a1;
  fld fs9 200 a1;
  fld fs10 208 a1;
  fld fs11 216 a1;
  rv_ret ].

Definition switch_context_same_thread_no_float : list instr := [
  prefetch_w 0 a0;
  prefetch_r 0 a1;
  prefetch_r 64 a1;
  ld a2 0 a1;
  prefetch_r 0 a2;
  prefetch_r 64 a2;
  sd sp 0 a0;
  sd s0 8 a0;
  sd s1 16 a0;
  sd s2 24 a0;
  sd s3 32 a0;
  sd s4 40 a0;
  sd s5 48 a0;
  sd s6 56 a0;
  sd s7 64 a0;
  sd s8 72 a0;
  sd s9 80 a0;
  sd s10 88 a0;
  sd s11 96 a0;
  sd ra 104 a0;
  ld sp 0 a1;
  ld s0 8 a1;
  ld s1 16 a1;
  ld s2 24 a1;
  ld s3 32 a1;
  ld s4 40 a1;
  ld s5 48 a1;
  ld s6 56 a1;
  ld s7 64 a1;
  ld s8 72 a1;
  ld s9 80 a1;
  ld s10 88 a1;
  ld s11 96 a1;
  ld ra 104 a1;
  rv_ret ].

End Riscv64_hw.

(** RISC-V without the feature hw-acceleration. *)
Module Riscv64.

Definition switch_context_cross_thread_float : list instr := [
  sd sp 0 a0;
  sd s0 8 a0;
  sd s1 16 a0;
  sd s2 24 a0;
  sd s3 32 a0;
  sd s4 40 a0;
  sd s5 48 a0;
  sd s6 56 a0;
  sd s7 64 a0;
  sd s8 72 a0;
  sd s9 80 a0;
  sd s10 88 a0;
  sd s11 96 a0;
  sd ra 104 a0;
  fsd fs0 128 a0;
  fsd fs1 136 a0;
  fsd fs2 144 a0;
  fsd fs3 152 a0;
  fsd fs4 160 a0;
  fsd fs5 168 a0;
  fsd fs6 176 a0;
  fsd fs7 184 a0;
  fsd fs8 192 a0;
  fsd fs9 200 a0;
  fsd fs10 208 a0;
  fsd fs11 216 a0;
  ld sp 0 a1;
  ld s0 8 a1;
  ld s1 16 a1;
  ld s2 24 a1;
  ld s3 32 a1;
  ld s4 40 a1;
  ld s5 48 a1;
  ld s6 56 a1;
  ld s7 64 a1;
  ld s8 72 a1;
  ld s9 80 a1;
  ld s10 88 a1;
  ld s11 96 a1;
  ld ra 104 a1;
  fld fs0 128 a1;
  fld fs1 136 a1;
  fld fs2 144 a1;
  fld fs3 152 a1;
  fld fs4 160 a1;
  fld fs5 168 a1;
  fld fs6 176 a1;
  fld fs7 184 a1;
  fld fs8 192 a1;
  fld fs9 200 a1;
  fld fs10 208 a1;
  fld fs11 216 a1;
  rv_ret ].

Definition switch_context_cross_thread_no_float : list instr := [
  sd sp 0 a0;
  sd s0 8 a0;
  sd s1 16 a0;
  sd s2 24 a0;
  sd s3 32 a0;
  sd s4 40 a0;
  sd s5 48 a0;
  sd s6 56 a0;
  sd s7 64 a0;
  sd s8 72 a0;
  sd s9 80 a0;
  sd s10 88 a0;
  sd s11 96 a0;
  sd ra 104 a0;
  ld sp 0 a1;
  ld s0 8 a1;
  ld s1 16 a1;
  ld s2 24 a1;
  ld s3 32 a1;
  ld s4 40 a1;
  ld s5 48 a1;
  ld s6 56 a1;
  ld s7 64 a1;
  ld s8 72 a1;
  ld s9 80 a1;
  ld s10 88 a1;
  ld s11 96 a1;
  ld ra 104 a1;
  rv_ret ].

Definition switch_context_same_thread_float : list instr := [
  sd sp 0 a0;
  sd s0 8 a0;
  sd s1 16 a0;
  sd s2 24 a0;
  sd s3 32 a0;
  sd s4 40 a0;
  sd s5 48 a0;
  sd s6 56 a0;
  sd s7 64 a0;
  sd s8 72 a0;
  sd s9 80 a0;
  sd s10 88 a0;
  sd s11 96 a0;
  sd ra 104 a0;
  fsd fs0 128 a0;
  fsd fs1 136 a0;
  fsd fs2 144 a0;
  fsd fs3 152 a0;
  fsd fs4 160 a0;
  fsd fs5 168 a0;
  fsd fs6 176 a0;
  fsd fs7 184 a0;
  fsd fs8 192 a0;
  fsd fs9 200 a0;
  fsd fs10 208 a0;
  fsd fs11 216 a0;
  ld sp 0 a1;
  ld s0 8 a1;
  ld s1 16 a1;
  ld s2 24 a1;
  ld s3 32 a1;
  ld s4 40 a1;
  ld s5 48 a1;
  ld s6 56 a1;
  ld s7 64 a1;
  ld s8 72 a1;
  ld s9 80 a1;
  ld s10 88 a1;
  ld s11 96 a1;
  ld ra 104 a1;
  fld fs0 128 a1;
  fld fs1 136 a1;
  fld fs2 144 a1;
  fld fs3 152 a1;
  fld fs4 160 a1;
  fld fs5 168 a1;
  fld fs6 176 a1;
  fld fs7 184 a1;
  fld fs8 192 a1;
  fld fs9 200 a1;
  fld fs10 208 a1;
  fld fs11 216 a1;
  rv_ret ].

Definition switch_context_same_thread_no_float : list instr := [
  sd sp 0 a0;
  sd s0 8 a0;
  sd s1 16 a0;
  sd s2 24 a0;
  sd s3 32 a0;
  sd s4 40 a0;
  sd s5 48 a0;
  sd s6 56 a0;
  sd s7 64 a0;
  sd s8 72 a0;
  sd s9 80 a0;
  sd s10 88 a0;
  sd s11 96 a0;
  sd ra 104 a0;
  ld sp 0 a1;
  ld s0 8 a1;
  ld s1 16 a1;
  ld s2 24 a1;
  ld s3 32 a1;
  ld s4 40 a1;
  ld s5 48 a1;
  ld s6 56 a1;
  ld s7 64 a1;
  ld s8 72 a1;
  ld s9 80 a1;
  ld s10 88 a1;
  ld s11 96 a1;
  ld ra 104 a1;
  rv_ret ].

End Riscv64.
