(* ===== verification/ContextSwitch.v ===== *)
(** * ContextSwitch: correctness of src/src/context_switch.rs

    The calling conventions of the eight targets and the theorem that
    every one of the thirty-two switch routines of SwitchCode.v restores what
    it saved: a fiber that switches away and is switched back to later
    returns to its caller with its callee-saved registers, stack pointer and
    (on Windows) thread environment block slots as they were. *)

From S2P Require Import Prelude Types Machine Symbolic SwitchCode.

(** ** Targets and routines *)

Inductive platform : Type :=
| x86_64_unix | x86_64_windows
| aarch64_unix | aarch64_hardened | aarch64_macos | aarch64_windows
| riscv64_hw | riscv64.

Definition has_float (k : Switcher) : bool :=
  match k with CrossThreadFloat | SameThreadFloat => true | _ => false end.

(** The routine the [cfg] attributes select for a target. *)
Definition listing (p : platform) (k : Switcher) : list instr :=
  match p, k with
  | x86_64_unix, CrossThreadFloat => X86_64_unix.switch_context_cross_thread_float
  | x86_64_unix, CrossThreadNoFloat => X86_64_unix.switch_context_cross_thread_no_float
  | x86_64_unix, SameThreadFloat => X86_64_unix.switch_context_same_thread_float
  | x86_64_unix, SameThreadNoFloat => X86_64_unix.switch_context_same_thread_no_float
  | x86_64_windows, CrossThreadFloat => X86_64_windows.switch_context_cross_thread_float
  | x86_64_windows, CrossThreadNoFloat => X86_64_windows.switch_context_cross_thread_no_float
  | x86_64_windows, SameThreadFloat => X86_64_windows.switch_context_same_thread_float
  | x86_64_windows, SameThreadNoFloat => X86_64_windows.switch_context_same_thread_no_float
  | aarch64_unix, CrossThreadFloat => Aarch64_unix.switch_context_cross_thread_float
  | aarch64_unix, CrossThreadNoFloat => Aarch64_unix.switch_context_cross_thread_no_float
  | aarch64_unix, SameThreadFloat => Aarch64_unix.switch_context_same_thread_float
  | aarch64_unix, SameThreadNoFloat => Aarch64_unix.switch_context_same_thread_no_float
  | aarch64_hardened, CrossThreadFloat => Aarch64_hardened.switch_context_cross_thread_float
  | aarch64_hardened, CrossThreadNoFloat => Aarch64_hardened.switch_context_cross_thread_no_float
  | aarch64_hardened, SameThreadFloat => Aarch64_hardened.switch_context_same_thread_float
  | aarch64_hardened, SameThreadNoFloat => Aarch64_hardened.switch_context_same_thread_no_float
  | aarch64_macos, CrossThreadFloat => Aarch64_macos.switch_context_cross_thread_float
  | aarch64_macos, CrossThreadNoFloat => Aarch64_macos.switch_context_cross_thread_no_float
  | aarch64_macos, SameThreadFloat => Aarch64_macos.switch_context_same_thread_float
  | aarch64_macos, SameThreadNoFloat => Aarch64_macos.switch_context_same_thread_no_float
  | aarch64_windows, CrossThreadFloat => Aarch64_windows.switch_context_cross_thread_float
  | aarch64_windows, CrossThreadNoFloat => Aarch64_windows.switch_context_cross_thread_no_float
  | aarch64_windows, SameThreadFloat => Aarch64_windows.switch_context_same_thread_float
  | aarch64_windows, SameThreadNoFloat => Aarch64_windows.switch_context_same_thread_no_float
  | riscv64_hw, CrossThreadFloat => Riscv64_hw.switch_context_cross_thread_float
  | riscv64_hw, CrossThreadNoFloat => Riscv64_hw.switch_context_cross_thread_no_float
  | riscv64_hw, SameThreadFloat => Riscv64_hw.switch_context_same_thread_float
  | riscv64_hw, SameThreadNoFloat => Riscv64_hw.switch_context_same_thread_no_float
  | riscv64, CrossThreadFloat => Riscv64.switch_context_cross_thread_float
  | riscv64, CrossThreadNoFloat => Riscv64.switch_context_cross_thread_no_float
  | riscv64, SameThreadFloat => Riscv64.switch_context_same_thread_float
  | riscv64, SameThreadNoFloat => Riscv64.switch_context_same_thread_no_float
  end.

(** ** Calling conventions *)

(** The registers of the two arguments [save] and [restore]. *)
Definition save_arg (p : platform) : reg :=
  match p with
  | x86_64_unix => rdi
  | x86_64_windows => rcx
  | aarch64_unix | aarch64_hardened | aarch64_macos | aarch64_windows => x0
  | riscv64_hw | riscv64 => a0
  end.

Definition restore_arg (p : platform) : reg :=
  match p with
  | x86_64_unix => rsi
  | x86_64_windows => rdx
  | aarch64_unix | aarch64_hardened | aarch64_macos | aarch64_windows => x1
  | riscv64_hw | riscv64 => a1
  end.

(** Windows on AArch64 keeps the TEB address in x18; elsewhere it is the
    hidden [gs] base. *)
Definition teb_reg (p : platform) : reg :=
  match p with aarch64_windows => x18 | _ => Teb end.

(** Registers a call must preserve, with their size in bytes; the
    floating-point ones only count for the [float] routines. *)
Definition callee_saved (p : platform) (k : Switcher) : list (reg * nat) :=
  let words := map (fun r => (r, 8%nat)) in
  match p with
  | x86_64_unix =>
      words [rbp; rbx; r12; r13; r14; r15] ++
      (if has_float k then [(Mxcsr, 4%nat)] else [])
  | x86_64_windows =>
      words [rbp; rbx; rdi; rsi; r12; r13; r14; r15] ++
      (if has_float k then
         (Mxcsr, 4%nat) :: map (fun r => (r, 16%nat))
           [xmm6; xmm7; xmm8; xmm9; xmm10; xmm11; xmm12; xmm13; xmm14; xmm15]
       else [])
  | aarch64_unix | aarch64_hardened | aarch64_macos | aarch64_windows =>
      words [x19; x20; x21; x22; x23; x24; x25; x26; x27; x28; x29] ++
      (if has_float k then words [d8; d9; d10; d11; d12; d13; d14; d15] else [])
  | riscv64_hw | riscv64 =>
      words [s0; s1; s2; s3; s4; s5; s6; s7; s8; s9; s10; s11] ++
      (if has_float k then
         words [fs0; fs1; fs2; fs3; fs4; fs5; fs6; fs7; fs8; fs9; fs10; fs11]
       else [])
  end.

(** The slots of the thread environment block the routines carry along. *)
Definition teb_slots (p : platform) : list Z :=
  match p with
  | x86_64_windows => [0x00; 0x08; 0x10; 0x1478]
  | aarch64_windows => [0x08; 0x10; 0x12C8]
  | _ => []
  end.

(** Where a call returns to, and the stack pointer there. *)
Definition return_address (p : platform) (s : machine) : Z :=
  match p with
  | x86_64_unix | x86_64_windows => load_bytes 8 (regs s Sp) (mem s)
  | aarch64_unix | aarch64_hardened | aarch64_macos | aarch64_windows => regs s x30
  | riscv64_hw | riscv64 => regs s ra
  end.

Definition is_x86 (p : platform) : bool :=
  match p with x86_64_unix | x86_64_windows => true | _ => false end.

Definition caller_sp (p : platform) (s : machine) : Z :=
  if is_x86 p then regs s Sp + 8 else regs s Sp.

Definition link_reg (p : platform) : list (reg * nat) :=
  match p with
  | x86_64_unix | x86_64_windows => []
  | aarch64_unix | aarch64_hardened | aarch64_macos | aarch64_windows => [(x30, 8%nat)]
  | riscv64_hw | riscv64 => [(ra, 8%nat)]
  end.

(** Every register the routine has to carry, the stack pointer included. *)
Definition carried (p : platform) (k : Switcher) : list (reg * nat) :=
  (Sp, 8%nat) :: link_reg p ++ callee_saved p k.

(** ** Composing a save with the restore that follows it *)

(** The width of a carried register. *)
Fixpoint width_in (l : list (reg * nat)) (r : reg) : option nat :=
  match l with
  | [] => None
  | (r', w) :: l' => if decide (r = r') then Some w else width_in l' r
  end.

Fixpoint cell_at (l : list cell) (ar : area) (off : Z) (w : nat) : option sval :=
  match l with
  | [] => None
  | c :: l' =>
      if decide (ar = c_area c /\ off = c_off c /\ w = c_w c) then Some (c_val c)
      else cell_at l' ar off w
  end.

(** The value fits the [w] bytes it is stored in. *)
Definition fits (ws : list (reg * nat)) (v : sval) (w : nat) : bool :=
  match v with
  | VReg r => match width_in ws r with Some w' => (w' <=? w)%nat | None => false end
  | VMem _ _ w' => (w' <=? w)%nat
  | VLabel | VPac _ _ => (8 <=? w)%nat
  | VAut _ _ => false
  end.

(** A value of the second call in terms of the state at the first: what it
    loads from the restored area is what the first call stored there, and
    authenticating a signed pointer under the same modifier strips the
    signature. *)
Fixpoint resolve (ws : list (reg * nat)) (cells : list cell) (v : sval) : option sval :=
  match v with
  | VReg _ => None
  | VMem Rest off w =>
      v' ← cell_at cells Save off w; if fits ws v' w then Some v' else None
  | VMem _ _ _ => None
  | VLabel => Some VLabel
  | VPac _ _ => None
  | VAut p m =>
      match resolve ws cells p, resolve ws cells m with
      | Some (VPac (VReg r) m'), Some m'' =>
          if decide (r = x30 /\ m' = m'' /\ width_in ws x30 = Some 8%nat) then Some (VReg r) else None
      | _, _ => None
      end
  end.

Definition guard_resolves (ws : list (reg * nat)) (cells : list cell) (g : guard) : bool :=
  match g with
  | GMxcsr v => bool_decide (resolve ws cells v = Some (VReg Mxcsr))
  | GAuth p m => bool_decide (resolve ws cells (VAut p m) = Some (VReg x30))
  end.

Definition target_resolves (p : platform) (ws : list (reg * nat)) (a : sym) (e : ending) : bool :=
  match e with
  | EJump b off =>
      is_x86 p &&
      bool_decide (access (save_arg p) (restore_arg p) (teb_reg p) 8 1 b off a = Some Rest) &&
      bool_decide (resolve ws (s_cells a) (VMem Rest off 8) = Some VLabel)
  | EPop => false
  | ERet r =>
      bool_decide (link_reg p = [(r, 8%nat)]) &&
      bool_decide (resolve ws (s_cells a) (sreg (s_regs a) r) = Some (VReg r))
  end.

(** The code at the local label is a bare return where the target is x86,
    and absent elsewhere. *)
Definition tail_ok (p : platform) (rest : list instr) : bool :=
  match rest with
  | [] => negb (is_x86 p)
  | _ => is_x86 p &&
         match split_code rest with Some ([], EPop, []) => true | _ => false end
  end.

(** One evaluation of a listing decides that it restores what it saves. *)
Definition round_trip_check (p : platform) (k : Switcher) (code : list instr) : bool :=
  match split_code code with
  | Some (body, e, rest) =>
      match ssteps (save_arg p) (restore_arg p) (teb_reg p) body sym_init with
      | Some a =>
          let ws := carried p k in
          let cells := s_cells a in
          forallb (fun '(r, _) =>
            bool_decide (resolve ws cells (sreg (s_regs a) r) = Some (VReg r)))
            ((Sp, 8%nat) :: callee_saved p k)
          && forallb (fun off =>
               match cell_at cells Tib off 8 with
               | Some v => bool_decide (resolve ws cells v = Some (VMem Tib off 8))
               | None => false
               end) (teb_slots p)
          && forallb (guard_resolves ws cells) (s_guards a)
          && target_resolves p ws a e
          && tail_ok p rest
      | None => false
      end
  | None => false
  end.

Lemma cs_all_listings_check : forall p k, round_trip_check p k (listing p k) = true.
Proof. intros [] []; vm_compute; reflexivity. Qed.

#[local] Opaque carried.

(** ** Saving and resuming *)

Section round_trip.
Context (pac : Z -> Z -> Z) (auth : Z -> Z -> option Z) (label : Z).
Context (p : platform) (k : Switcher).

Local Notation areas := (apart (save_arg p) (restore_arg p) (teb_reg p)).
Local Notation area_base := (base (save_arg p) (restore_arg p) (teb_reg p)).
Local Notation value := (eval pac auth label (save_arg p) (restore_arg p) (teb_reg p)).
Local Notation holds := (guard_ok pac auth label (save_arg p) (restore_arg p) (teb_reg p)).
Local Notation describe := (describes pac auth label (save_arg p) (restore_arg p) (teb_reg p)).

(** Pointer authentication as documented: signing gives a word, and
    authenticating under the same modifier recovers a user-space address. *)
Definition pac_works : Prop :=
  (forall q m, 0 <= pac q m < 2 ^ 64) /\
  (forall q m, 0 <= q < 2 ^ 48 -> auth (pac q m) m = Some q).

(** A state at the entry of a routine: its areas are apart, registers hold
    values of their width, MXCSR has no reserved bit, the return address of
    an AArch64 caller is a user-space address, and on x86 the stack slot of
    the return address is apart from the areas. *)
Record at_entry (s : machine) : Prop := {
  en_areas : areas s;
  en_mem : wf_memory (mem s);
  en_regs : forall r w, In (r, w) (carried p k) -> 0 <= regs s r < 256 ^ Z.of_nat w;
  en_mxcsr : regs s Mxcsr < 2 ^ 16;
  en_link : In (x30, 8%nat) (carried p k) -> regs s x30 < 2 ^ 48;
  en_sp : regs s Sp + 8 < 2 ^ 64;
  en_stack : is_x86 p = true -> forall ar,
    regs s Sp + 8 <= area_base s ar \/ area_base s ar + area_size ar <= regs s Sp
}.

(** State [s2] is at a call that restores what the call at [s0] saved, [s1]
    being the state in which that call left: nobody wrote the saved
    [Registers] in between, nor, on x86, the stack slot of the return address. *)
Record resumes (s0 s1 s2 : machine) : Prop := {
  rs_areas : areas s2;
  rs_mem : wf_memory (mem s2);
  rs_base : area_base s2 Rest = area_base s0 Save;
  rs_saved : forall b, 0 <= b - area_base s0 Save < 640 -> mem s2 b = mem s1 b;
  rs_stack : is_x86 p = true ->
    forall b, 0 <= b - regs s0 Sp < 8 -> mem s2 b = mem s1 b;
  rs_stack_apart : is_x86 p = true -> forall ar,
    regs s0 Sp + 8 <= area_base s2 ar \/ area_base s2 ar + area_size ar <= regs s0 Sp
}.

Lemma cs_width_in l r w : width_in l r = Some w -> In (r, w) l.
Proof.
  induction l as [|[r' w'] l IH]; simpl; [done|].
  case_decide; [subst; intros [= ->]; by left | auto].
Qed.

Lemma cs_cell_at l ar off w v :
  cell_at l ar off w = Some v -> In (mk_cell ar off w v) l.
Proof.
  induction l as [|[car coff cw cv] l IH]; simpl; [done|].
  case_decide as H; [|auto]. destruct H as (-> & -> & ->). intros [= ->]. auto.
Qed.

Lemma cs_pow_mono a b : (a <= b)%nat -> 256 ^ Z.of_nat a <= 256 ^ Z.of_nat b.
Proof. intros. apply Z.pow_le_mono_r; lia. Qed.

(** A value that fits is stored without loss. *)
Lemma cs_fits s v w :
  pac_works -> 0 <= label < 2 ^ 64 -> at_entry s -> fits (carried p k) v w = true ->
  value s v mod 256 ^ Z.of_nat w = value s v.
Proof.
  intros [Hpac _] Hl He Hf. apply Z.mod_small.
  destruct v; cbn [fits eval] in *; try done.
  - destruct (width_in _ _) as [w'|] eqn:E; [|done]. apply Nat.leb_le in Hf.
    apply cs_width_in, (en_regs _ He) in E. pose proof (cs_pow_mono _ _ Hf). lia.
  - apply Nat.leb_le in Hf. pose proof (cs_pow_mono _ _ Hf).
    pose proof (mc_load_range w0 (area_base s ar + off) _ (en_mem _ He)). lia.
  - apply Nat.leb_le in Hf. pose proof (cs_pow_mono _ _ Hf) as H8.
    change (256 ^ Z.of_nat 8) with (2 ^ 64) in H8. lia.
  - apply Nat.leb_le in Hf. pose proof (cs_pow_mono _ _ Hf) as H8.
    change (256 ^ Z.of_nat 8) with (2 ^ 64) in H8. match goal with |- context [pac ?q ?m] => specialize (Hpac q m) end. lia.
Qed.

(** Soundness of [resolve]: values of the second call in terms of the first. *)
Lemma cs_resolve s0 a s1 s2 v v' :
  pac_works -> 0 <= label < 2 ^ 64 -> at_entry s0 -> describe s0 a s1 -> resumes s0 s1 s2 ->
  resolve (carried p k) (s_cells a) v = Some v' -> value s2 v = value s0 v'.
Proof.
  intros Hpac Hl He Hd Hr. revert v'; induction v as [r|ar off w| |q IHq m IHm|q IHq m IHm];
    intros v' Hv; simpl in Hv; try done.
  - destruct ar; try done. destruct (cell_at _ _ _ _) as [v1|] eqn:Ec; [|done]. simpl in Hv.
    destruct (fits _ _ _) eqn:Ef; [|done]. injection Hv as <-.
    apply cs_cell_at, (d_cells _ _ _ _ _ _ _ _ _ Hd) in Ec as [(_ & H0 & H1) Hload].
    simpl in *. rewrite (cs_fits s0) in Hload by done. rewrite <- Hload.
    pose proof (rs_base _ _ _ Hr) as Hb. simpl in Hb. rewrite Hb.
    apply mc_load_ext. intros b Hin. apply (rs_saved _ _ _ Hr). simpl. lia.
  - by injection Hv as <-.
  - destruct (resolve _ _ q) as [vq|]; [|done]. destruct vq as [| | |vr vm|]; try done.
    destruct vr as [r| | | |]; try done.
    destruct (resolve _ _ m) as [v2|]; [|done].
    case_decide as Hc; [|done]. destruct Hc as (-> & -> & Hw). injection Hv as <-.
    simpl. rewrite (IHq _ eq_refl), (IHm _ eq_refl). simpl.
    apply cs_width_in in Hw. rewrite (proj2 Hpac); [done|].
    pose proof (en_regs _ He _ _ Hw). pose proof (en_link _ He Hw). lia.
Qed.

(** The guards of the second call hold when they resolve. *)
Lemma cs_guards s0 a s1 s2 g :
  pac_works -> 0 <= label < 2 ^ 64 -> at_entry s0 -> describe s0 a s1 -> resumes s0 s1 s2 ->
  guard_resolves (carried p k) (s_cells a) g = true -> holds s2 g.
Proof.
  intros Hpac Hl He Hd Hr Hg. destruct g as [v|q m]; simpl in Hg |- *; bool_prop.
  - erewrite cs_resolve by eauto. apply (en_mxcsr _ He).
  - destruct (resolve _ _ q) as [vq|] eqn:Eq; [|done]. destruct vq as [| | |vr vm|]; try done.
    destruct vr as [r| | | |]; try done.
    destruct (resolve _ _ m) as [v2|] eqn:Em; [|done].
    case_decide as Hc; [|done]. destruct Hc as (-> & -> & Hw).
    rewrite (cs_resolve s0 a s1 s2 q _) by eauto. rewrite (cs_resolve s0 a s1 s2 m _) by eauto.
    simpl. apply cs_width_in in Hw. rewrite (proj2 Hpac); [eauto|].
    pose proof (en_regs _ He _ _ Hw). pose proof (en_link _ He Hw). lia.
Qed.

(** What [round_trip_check] establishes. *)
Record restores (body : list uop) (e : ending) (rest : list instr) (a : sym) : Prop := {
  rt_body : ssteps (save_arg p) (restore_arg p) (teb_reg p) body sym_init = Some a;
  rt_regs : forall r w, In (r, w) ((Sp, 8%nat) :: callee_saved p k) ->
    resolve (carried p k) (s_cells a) (sreg (s_regs a) r) = Some (VReg r);
  rt_teb : forall off, In off (teb_slots p) -> exists v,
    cell_at (s_cells a) Tib off 8 = Some v /\
    resolve (carried p k) (s_cells a) v = Some (VMem Tib off 8);
  rt_guards : forall g, In g (s_guards a) -> guard_resolves (carried p k) (s_cells a) g = true;
  rt_target : target_resolves p (carried p k) a e = true;
  rt_tail : tail_ok p rest = true
}.

Lemma cs_check_spec code :
  round_trip_check p k code = true ->
  exists body e rest a, split_code code = Some (body, e, rest) /\ restores body e rest a.
Proof.
  unfold round_trip_check. destruct (split_code code) as [[[body e] rest]|]; [|done].
  destruct (ssteps _ _ _ _ _) as [a|] eqn:Ea; [|done]. intros H.
  do 4 (apply andb_true_iff in H as [H ?]).
  pose proof (proj1 (forallb_forall _ _) H) as Hregs. clear H.
  exists body, e, rest, a. split; [done|]. split; try done.
  - intros r w Hin. apply Hregs in Hin. by bool_prop.
  - intros off Hin. match goal with H : forallb _ (teb_slots p) = true |- _ =>
      rewrite forallb_forall in H; specialize (H _ Hin) end.
    destruct (cell_at _ _ _ _); [|done]. bool_prop. eauto.
  - apply forallb_forall. done.
Qed.

(** The label code only pops the return address. *)
Lemma cs_tail rest : tail_ok p rest = true ->
  (rest = [] /\ is_x86 p = false) \/
  (rest <> [] /\ is_x86 p = true /\
   forall s, run pac auth label rest s = Some (transfer EPop s)).
Proof.
  unfold tail_ok. destruct rest as [|i rest]; [rewrite negb_true_iff; auto|].
  intros H. apply andb_true_iff in H as [Hx H]. right. do 2 (split; [done|]).
  intros s. unfold run. destruct (split_code _) as [[[b e] r]|]; [|done].
  destruct b; [|done]. by destruct e.
Qed.

(** A call of a routine: its body, its transfer, and the return at the
    label when control reaches it. *)
Lemma cs_switch code body e rest s :
  split_code code = Some (body, e, rest) -> tail_ok p rest = true ->
  switch pac auth label code s =
    (s' ← usteps pac auth label body s;
     let '(t, s'') := transfer e s' in
     Some (if is_x86 p && (t =? label) then transfer EPop s'' else (t, s''))).
Proof.
  intros Hsp Ht. unfold switch, at_label.
  assert (Hrun : run pac auth label code s
    = (s' ← usteps pac auth label body s; Some (transfer e s'))) by (unfold run; by rewrite Hsp).
  rewrite Hrun, Hsp. destruct (usteps _ _ _ _ _) as [s'|]; [|done].
  cbn [mbind option_bind]. destruct (transfer e s') as [t s''].
  destruct (cs_tail rest Ht) as [[-> ->]|(Hne & -> & Htail)]; [done|].
  simpl andb. specialize (Htail s''). destruct rest; [done|]. by destruct (t =? label).
Qed.

Lemma cs_transfer_mem e s : mem (snd (transfer e s)) = mem s.
Proof. by destruct e. Qed.

(** A call that completes: what it left in memory. *)
Lemma cs_first_call code body e rest a s0 t1 s1 :
  split_code code = Some (body, e, rest) -> restores body e rest a -> at_entry s0 ->
  switch pac auth label code s0 = Some (t1, s1) ->
  exists s, describe s0 a s /\ mem s1 = mem s.
Proof.
  intros Hsp Hr He Hsw. rewrite (cs_switch code body e rest) in Hsw by apply Hsp || apply Hr.
  destruct (usteps _ _ _ _ _) as [s|] eqn:Hu; [|done]. simpl in Hsw.
  exists s. split.
  - eapply sy_steps_complete; [apply (en_areas _ He) | apply sy_describes_init
      | apply (rt_body _ _ _ _ Hr) | done | done].
  - pose proof (cs_transfer_mem e s) as Hm. destruct (transfer e s) as [t s'].
    simpl in Hm. injection Hsw as Hsw.
    destruct (_ && _); injection Hsw as <- <-; done.
Qed.

(** A later call that restores that area runs to completion in a state whose
    registers, TEB slots and transfer target are those of the first call. *)
Lemma cs_second_call code body e rest a s0 s s2 :
  pac_works -> 0 <= label < 2 ^ 64 ->
  split_code code = Some (body, e, rest) -> restores body e rest a -> at_entry s0 ->
  describe s0 a s -> resumes s0 s s2 ->
  exists s3, usteps pac auth label body s2 = Some s3 /\
    (forall r w, In (r, w) ((Sp, 8%nat) :: callee_saved p k) -> regs s3 r = regs s0 r) /\
    (forall off, In off (teb_slots p) ->
       load_bytes 8 (area_base s2 Tib + off) (mem s3)
       = load_bytes 8 (area_base s0 Tib + off) (mem s0)) /\
    (forall b, (forall ar, ar <> Rest ->
        b < area_base s2 ar \/ area_base s2 ar + area_size ar <= b) -> mem s3 b = mem s2 b) /\
    transfer e s3 = (if is_x86 p then label else return_address p s0, s3).
Proof.
  intros Hpac Hl Hsp Hrt He Hd Hr.
  destruct (sy_steps_sound pac auth label (save_arg p) (restore_arg p) (teb_reg p)
    body s2 sym_init s2 a) as (s3 & Hu & Hd3).
  { apply (rs_areas _ _ _ Hr). } { apply sy_describes_init. } { apply (rt_body _ _ _ _ Hrt). }
  { intros g Hg. eapply (cs_guards s0 a s s2); eauto. eapply rt_guards; eauto. }
  exists s3. split; [done|]. split; [|split; [|split]].
  - intros r w Hin. rewrite (d_regs _ _ _ _ _ _ _ _ _ Hd3).
    erewrite (cs_resolve s0 a s s2) by eauto using rt_regs. done.
  - intros off Hin. destruct (rt_teb _ _ _ _ Hrt off Hin) as (v & Hc & Hv).
    apply cs_cell_at in Hc. destruct (d_cells _ _ _ _ _ _ _ _ _ Hd3 _ Hc) as [_ Hload].
    simpl c_w in Hload. simpl c_off in Hload. simpl c_area in Hload. simpl c_val in Hload.
    rewrite Hload, (cs_resolve s0 a s s2 v _) by eauto.
    rewrite (cs_fits s0) by done. done.
  - intros b Hb. apply (d_frame _ _ _ _ _ _ _ _ _ Hd3). intros c Hc Hin.
    destruct (d_cells _ _ _ _ _ _ _ _ _ Hd3 c Hc) as [(Hne & ? & ?) _].
    specialize (Hb _ Hne). unfold in_cell in Hin. lia.
  - pose proof (rt_target _ _ _ _ Hrt) as Ht. destruct e as [b off| |r]; simpl in Ht; [|done|].
    + destruct (is_x86 p) eqn:Hx; [|done]. bool_prop. cbn [transfer]. f_equal.
      match goal with H : access _ _ _ _ _ _ _ _ = _ |- _ =>
        apply (sy_access pac auth label (save_arg p) (restore_arg p) (teb_reg p) s2 a s3) in H
          as (Haddr & _ & ? & ? & Hcl); [|apply (rs_areas _ _ _ Hr)|done] end.
      rewrite Haddr, (sy_load pac auth label (save_arg p) (restore_arg p) (teb_reg p) s2 a s3)
        by (done || apply (rs_areas _ _ _ Hr)).
      erewrite (cs_resolve s0 a s s2) by eauto. done.
    + bool_prop. cbn [transfer]. f_equal. rewrite (d_regs _ _ _ _ _ _ _ _ _ Hd3).
      erewrite (cs_resolve s0 a s s2) by eauto.
      destruct p; simpl in *; congruence.
Qed.
End round_trip.

(** ** The round trip *)

Lemma cs_switch_wf pac auth label code s t s' :
  switch pac auth label code s = Some (t, s') -> wf_memory (mem s) -> wf_memory (mem s').
Proof.
  assert (Husteps : forall us s s', usteps pac auth label us s = Some s' ->
    wf_memory (mem s) -> wf_memory (mem s')).
  { clear. induction us as [|u us IH]; intros s s' H Hw; simpl in H; [by injection H as <-|].
    destruct (ustep _ _ _ _ _) as [s1|] eqn:E; [|done]. simpl in H. apply (IH s1 s' H).
    destruct u; cbn [ustep] in E; try (case_match; [|done]); try (by injection E as <-).
    - injection E as <-. by apply mc_store_wf.
    - destruct (auth _ _); [|done]. by injection E as <-. }
  assert (Hrun : forall code s t s', run pac auth label code s = Some (t, s') ->
    wf_memory (mem s) -> wf_memory (mem s')).
  { clear -Husteps. unfold run. intros code s t s' H Hw.
    destruct (split_code code) as [[[body e] rest]|]; [|done].
    cbn [mbind option_bind] in H. destruct (usteps _ _ _ _ _) as [s1|] eqn:E; [|done].
    injection H as H. pose proof (cs_transfer_mem e s1) as Hm. rewrite H in Hm. simpl in Hm.
    rewrite Hm. eauto. }
  unfold switch. destruct (run _ _ _ code s) as [[t1 s1]|] eqn:E; [|done].
  cbn [mbind option_bind]. intros H Hw. apply Hrun in E; [|done].
  destruct (at_label code) as [|i l]; [by injection H as <- <-|].
  destruct (t1 =? label); [eauto | by injection H as <- <-].
Qed.

Lemma cs_callee_saved_not_sp p k w : ~ In (Sp, w) (callee_saved p k).
Proof.
  intros Hin. assert (H : forallb (fun '(r, _) => bool_decide (r <> Sp)) (callee_saved p k) = true)
    by (destruct p, k; reflexivity).
  rewrite forallb_forall in H. specialize (H _ Hin). by bool_prop.
Qed.

(** C15.  Whatever routine a fiber uses, on every target: if the call that
    saves its context completes, then any later call of the same routine that
    restores that [Registers] area - from any thread, with any other register
    contents, nobody having written the saved area (nor the return address
    on an x86 stack) in between - completes, returns to the fiber's own
    return address with its stack pointer, every callee-saved register of
    the target's calling convention (floating-point ones for the [float]
    routines) and, on Windows, every saved TEB slot as they were at the first call, and
    writes no memory outside its save area and the TEB. *)
Theorem switch_round_trip (pac : Z -> Z -> Z) (auth : Z -> Z -> option Z) (label : Z)
    (p : platform) (k : Switcher) (s0 s1 s2 : machine) (t1 : Z) :
  pac_works pac auth -> 0 <= label < 2 ^ 64 ->
  at_entry p k s0 -> switch pac auth label (listing p k) s0 = Some (t1, s1) ->
  resumes p s0 s1 s2 ->
  let bs := base (save_arg p) (restore_arg p) (teb_reg p) in
  exists s3, switch pac auth label (listing p k) s2 = Some (return_address p s0, s3) /\
    regs s3 Sp = caller_sp p s0 /\
    (forall r w, In (r, w) (callee_saved p k) -> regs s3 r = regs s0 r) /\
    (forall off, In off (teb_slots p) ->
       load_bytes 8 (bs s2 Tib + off) (mem s3) = load_bytes 8 (bs s0 Tib + off) (mem s0)) /\
    (forall b, (forall ar, ar <> Rest -> b < bs s2 ar \/ bs s2 ar + area_size ar <= b) ->
       mem s3 b = mem s2 b).
Proof.
  intros Hpac Hl He H1 Hr bs.
  destruct (cs_check_spec p k _ (cs_all_listings_check p k)) as (body & e & rest & a & Hsp & Hrt).
  destruct (cs_first_call pac auth label p k (listing p k) body e rest a s0 t1 s1) as (s & Hd & Hm); [done..|].
  assert (Hr' : resumes p s0 s s2) by (destruct Hr; split; rewrite <- ?Hm; done).
  destruct (cs_second_call pac auth label p k (listing p k) body e rest a s0 s s2)
    as (s3 & Hu & Hregs & Hteb & Hframe & Ht); [done..|].
  rewrite (cs_switch pac auth label p _ body e rest) by (done || apply Hrt).
  rewrite Hu. cbn [mbind option_bind]. rewrite Ht.
  assert (Hsp3 : regs s3 Sp = regs s0 Sp) by (apply (Hregs Sp 8%nat); by left).
  assert (Hcs : forall r w, In (r, w) (callee_saved p k) -> regs s3 r = regs s0 r)
    by (intros r w Hin; apply (Hregs r w); by right).
  unfold caller_sp. destruct (is_x86 p) eqn:Hx.
  - rewrite Z.eqb_refl. cbn [andb transfer].
    pose proof (en_regs _ _ _ He Sp 8%nat ltac:(left; done)) as Hsp0.
    pose proof (en_sp _ _ _ He) as Hsp8. change (256 ^ Z.of_nat 8) with (2 ^ 64) in Hsp0.
    rewrite Hsp3. unfold wrap. rewrite !Z.mod_small by lia.
    exists (set_reg Sp (regs s0 Sp + 8) s3). split; [|split; [|split; [|done]]].
    + apply f_equal, (f_equal2 pair); [|reflexivity]. transitivity (load_bytes 8 (regs s0 Sp) (mem s0)); [|by destruct p].
      apply mc_load_ext. intros b Hb. change (Z.of_nat 8) with 8 in Hb.
      rewrite Hframe by (intros ar _; pose proof (rs_stack_apart _ _ _ _ Hr Hx ar); lia).
      rewrite (rs_stack _ _ _ _ Hr' Hx) by lia. apply (d_frame _ _ _ _ _ _ _ _ _ Hd).
      intros c Hc Hin. destruct (d_cells _ _ _ _ _ _ _ _ _ Hd c Hc) as [(_ & ? & ?) _].
      pose proof (en_stack _ _ _ He Hx (c_area c)). unfold in_cell in Hin. lia.
    + reflexivity.
    + intros r w Hin. simpl. rewrite decide_False; [by apply (Hcs r w)|].
      intros ->. by apply cs_callee_saved_not_sp in Hin.
  - exists s3. done.
Qed.

(** *** An instance *)

(** A signing scheme that puts a 16-bit code above a 48-bit address. *)
Definition demo_pac (q m : Z) : Z := q mod 2 ^ 48 + 2 ^ 48 * ((q + m) mod 2 ^ 16).

Definition demo_auth (x m : Z) : option Z :=
  if x =? demo_pac (x mod 2 ^ 48) m then Some (x mod 2 ^ 48) else None.

Lemma cs_demo_pac_works : pac_works demo_pac demo_auth.
Proof.
  assert (Hp : forall q m, 0 <= demo_pac q m < 2 ^ 64 /\ (demo_pac q m) mod 2 ^ 48 = q mod 2 ^ 48).
  { intros q m. unfold demo_pac.
    pose proof (Z.mod_pos_bound q (2 ^ 48) ltac:(lia)).
    pose proof (Z.mod_pos_bound (q + m) (2 ^ 16) ltac:(lia)).
    split; [nia|]. rewrite Z.mul_comm, Z.mod_add, Z.mod_mod by lia. done. }
  split; [intros; apply Hp|]. intros q m Hq. unfold demo_auth.
  destruct (Hp q m) as [_ ->]. rewrite (Z.mod_small q) by done. by rewrite Z.eqb_refl.
Qed.

(** A caller on x86-64 Windows about to switch, and the same routine later
    called with the two areas exchanged. *)
Definition demo_regs (save restore : Z) : reg -> Z := fun r =>
  if decide (r = rcx) then save else if decide (r = rdx) then restore
  else if decide (r = Teb) then 0x30000 else if decide (r = Sp) then 0x50000
  else if decide (r = Mxcsr) then 0x1F80 else 7.

Definition demo_entry : machine :=
  mk_machine (demo_regs 0x10000 0x20000) (fun a => if a =? 0x50001 then 0x40 else 0).

Definition demo_back (s1 : machine) : machine :=
  mk_machine (demo_regs 0x20000 0x10000) (mem s1).

Lemma cs_demo_base a b m ar :
  base rcx rdx Teb (mk_machine (demo_regs a b) m) ar
  = match ar with Save => a | Rest => b | Tib => 0x30000 end.
Proof. by destruct ar. Qed.

(** The stack slot at 0x50000 is above all three areas. *)
Lemma cs_demo_stack a b m ar :
  (a = 0x10000 /\ b = 0x20000) \/ (a = 0x20000 /\ b = 0x10000) ->
  base rcx rdx Teb (mk_machine (demo_regs a b) m) ar + area_size ar <= 0x50000.
Proof. rewrite cs_demo_base. destruct ar; unfold area_size; lia. Qed.

Lemma cs_demo_areas a b m :
  (a = 0x10000 /\ b = 0x20000) \/ (a = 0x20000 /\ b = 0x10000) ->
  apart rcx rdx Teb (mk_machine (demo_regs a b) m).
Proof.
  intros H. pose proof (cs_demo_base a b m) as Hb. unfold apart, area_size. split; [|split].
  - intros ar. rewrite Hb. destruct ar; lia.
  - intros ar Hne. rewrite Hb.
    destruct ar, H as [[-> ->]|[-> ->]]; done.
  - intros a1 a2 Hne. rewrite !Hb. destruct a1, a2; lia || done.
Qed.

#[local] Transparent carried.

Lemma cs_carried_wide p k r w : In (r, w) (carried p k) -> (4 <= w)%nat.
Proof.
  intros Hin. assert (H : forallb (fun '(_, w) => (4 <=? w)%nat) (carried p k) = true)
    by (destruct p, k; reflexivity).
  rewrite forallb_forall in H. specialize (H _ Hin). by apply Nat.leb_le in H.
Qed.

Lemma cs_demo_regs_range r : 0 <= demo_regs 0x10000 0x20000 r < 2 ^ 32.
Proof. unfold demo_regs. repeat case_decide; lia. Qed.

Lemma cs_demo_entry : at_entry x86_64_windows CrossThreadFloat demo_entry.
Proof.
  split.
  - apply cs_demo_areas. by left.
  - intros a. cbn [demo_entry mem]. by case_match.
  - intros r w Hin. apply cs_carried_wide in Hin.
    pose proof (cs_demo_regs_range r). change (2 ^ 32) with (256 ^ Z.of_nat 4) in *.
    assert (256 ^ Z.of_nat 4 <= 256 ^ Z.of_nat w) by (apply Z.pow_le_mono_r; lia).
    cbn [demo_entry regs]. lia.
  - done.
  - intros Hin. exfalso. simpl in Hin. naive_solver.
  - done.
  - intros _ ar. right. apply cs_demo_stack. by left.
Qed.

Lemma cs_demo_first_call : exists t1 s1,
  switch demo_pac demo_auth 0x7000 (listing x86_64_windows CrossThreadFloat) demo_entry
  = Some (t1, s1).
Proof.
  destruct (switch _ _ _ _ _) as [[t s]|] eqn:E; [eauto|].
  exfalso. assert (H : bool_decide (is_Some (switch demo_pac demo_auth 0x7000
    (listing x86_64_windows CrossThreadFloat) demo_entry)) = true) by (vm_compute; reflexivity).
  rewrite E in H. by vm_compute in H.
Qed.

Lemma switch_round_trip_witness : exists t1 s1 s3,
  switch demo_pac demo_auth 0x7000 (listing x86_64_windows CrossThreadFloat) demo_entry
    = Some (t1, s1) /\
  switch demo_pac demo_auth 0x7000 (listing x86_64_windows CrossThreadFloat) (demo_back s1)
    = Some (0x4000, s3) /\
  regs s3 Sp = 0x50008 /\ regs s3 Mxcsr = 0x1F80 /\ regs s3 xmm15 = 7.
Proof.
  destruct cs_demo_first_call as (t1 & s1 & H1). exists t1, s1.
  destruct (switch_round_trip demo_pac demo_auth 0x7000 x86_64_windows CrossThreadFloat
    demo_entry s1 (demo_back s1) t1) as (s3 & H2 & Hsp & Hregs & _).
  - apply cs_demo_pac_works.
  - lia.
  - apply cs_demo_entry.
  - exact H1.
  - split.
    + apply (cs_demo_areas 0x20000 0x10000 (mem s1)). right. split; reflexivity.
    + apply (cs_switch_wf _ _ _ _ _ _ _ H1), cs_demo_entry.
    + reflexivity.
    + intros b _. reflexivity.
    + intros _ b _. reflexivity.
    + intros _ ar. right. apply (cs_demo_stack 0x20000 0x10000 (mem s1) ar). right. split; reflexivity.
  - exists s3. split; [exact H1|]. split; [exact H2|]. split; [exact Hsp|].
    split; [apply (Hregs Mxcsr 4%nat) | apply (Hregs xmm15 16%nat)]; simpl; tauto.
Defined.

(** ** Entering a context *)

(** Offsets in [Registers] of the stack pointer, the resume address and
    MXCSR that a restore loads. *)
Definition sp_off (p : platform) : Z :=
  match p with
  | aarch64_unix | aarch64_hardened | aarch64_macos | aarch64_windows => 96
  | _ => 0
  end.

Definition pc_off (p : platform) : Z :=
  match p with
  | x86_64_unix | x86_64_windows => 56
  | aarch64_unix | aarch64_hardened | aarch64_macos | aarch64_windows => 88
  | riscv64_hw | riscv64 => 104
  end.

Definition mxcsr_off (p : platform) : Z :=
  match p with x86_64_unix => 64 | _ => 112 end.

Definition authenticates (p : platform) : bool :=
  match p with aarch64_hardened | aarch64_macos | aarch64_windows => true | _ => false end.

(** Whether the routine loads MXCSR. *)
Definition loads_mxcsr (p : platform) (k : Switcher) : bool := is_x86 p && has_float k.

(** What a restore does with the restored area, decided by one evaluation. *)
Definition enter_check (p : platform) (k : Switcher) (code : list instr) : bool :=
  let sp_v := VMem Rest (sp_off p) 8 in
  let pc_v := VMem Rest (pc_off p) 8 in
  match split_code code with
  | Some (body, e, rest) =>
      match ssteps (save_arg p) (restore_arg p) (teb_reg p) body sym_init with
      | Some a =>
          bool_decide (sreg (s_regs a) Sp = sp_v)
          && bool_decide (s_guards a =
               if authenticates p then [GAuth pc_v sp_v]
               else if loads_mxcsr p k then [GMxcsr (VMem Rest (mxcsr_off p) 4)] else [])
          && bool_decide (sreg (s_regs a) Mxcsr =
               if loads_mxcsr p k then VMem Rest (mxcsr_off p) 4 else VReg Mxcsr)
          && match e with
             | EJump b off =>
                 is_x86 p && bool_decide (off = pc_off p)
                 && bool_decide (access (save_arg p) (restore_arg p) (teb_reg p) 8 1 b off a = Some Rest)
             | EPop => false
             | ERet r =>
                 negb (is_x86 p)
                 && bool_decide (sreg (s_regs a) r =
                      if authenticates p then VAut pc_v sp_v else pc_v)
             end
          && tail_ok p rest
      | None => false
      end
  | None => false
  end.

Lemma cs_all_listings_enter : forall p k, enter_check p k (listing p k) = true.
Proof. intros [] []; vm_compute; reflexivity. Qed.

Section enter.
Context (pac : Z -> Z -> Z) (auth : Z -> Z -> option Z) (label : Z).
Context (p : platform) (k : Switcher) (s : machine).

Local Notation area_base := (base (save_arg p) (restore_arg p) (teb_reg p)).

Definition restored (off : Z) (w : nat) : Z := load_bytes w (area_base s Rest + off) (mem s).

(** The address a restore jumps to, if the hardware lets it. *)
Definition resume_target : option Z :=
  if authenticates p then auth (restored (pc_off p) 8) (restored (sp_off p) 8)
  else if loads_mxcsr p k && negb (restored (mxcsr_off p) 4 <? 2 ^ 16) then None
  else Some (restored (pc_off p) 8).

Local Notation value := (eval pac auth label (save_arg p) (restore_arg p) (teb_reg p)).
Local Notation holds := (guard_ok pac auth label (save_arg p) (restore_arg p) (teb_reg p)).

(** The guards a listing collects hold exactly when the target exists. *)
Lemma cs_enter_guards gs :
  gs = (if authenticates p then [GAuth (VMem Rest (pc_off p) 8) (VMem Rest (sp_off p) 8)]
        else if loads_mxcsr p k then [GMxcsr (VMem Rest (mxcsr_off p) 4)] else []) ->
  (forall g, In g gs -> holds s g) <-> is_Some resume_target.
Proof.
  intros ->. unfold resume_target, restored.
  destruct (authenticates p); [|destruct (loads_mxcsr p k)]; cbn [andb negb].
  - split; [intros H; apply (H _ (or_introl eq_refl)) | intros H g [<-|[]]; exact H].
  - destruct (Z.ltb_spec (load_bytes 4 (area_base s Rest + mxcsr_off p) (mem s)) (2 ^ 16));
      cbn [negb]; split; try (intros; by eexists).
    + intros _ g [<-|[]]. done.
    + intros Hg. specialize (Hg _ (or_introl eq_refl)). cbn [guard_ok eval] in Hg. lia.
    + intros [? ?]; done.
  - split; [intros; by eexists | intros _ g []].
Qed.

Lemma cs_enter_guards_of a body e rest :
  split_code (listing p k) = Some (body, e, rest) ->
  ssteps (save_arg p) (restore_arg p) (teb_reg p) body sym_init = Some a ->
  (forall g, In g (s_guards a) -> holds s g) <-> is_Some resume_target.
Proof.
  intros Hsp Ha. pose proof (cs_all_listings_enter p k) as H. unfold enter_check in H.
  rewrite Hsp, Ha in H. do 4 (apply andb_true_iff in H as [H ?]). bool_prop.
  by apply cs_enter_guards.
Qed.

(** What [enter_check] establishes of the body's final state. *)
Lemma cs_enter_body a body e rest s3 :
  split_code (listing p k) = Some (body, e, rest) ->
  ssteps (save_arg p) (restore_arg p) (teb_reg p) body sym_init = Some a ->
  apart (save_arg p) (restore_arg p) (teb_reg p) s ->
  describes pac auth label (save_arg p) (restore_arg p) (teb_reg p) s a s3 ->
  regs s3 Sp = restored (sp_off p) 8 /\
  (loads_mxcsr p k = true -> regs s3 Mxcsr = restored (mxcsr_off p) 4) /\
  (forall t, resume_target = Some t -> transfer e s3 = (t, s3)).
Proof.
  intros Hsp Ha Hap Hd. pose proof (cs_all_listings_enter p k) as H. unfold enter_check in H.
  rewrite Hsp, Ha in H. do 4 (apply andb_true_iff in H as [H ?]). bool_prop.
  rewrite !(d_regs _ _ _ _ _ _ _ _ _ Hd), H.
  split; [done|]. split.
  - intros Hm. rewrite Hm in *. by rewrite H2.
  - intros t Ht. destruct e as [b off| |r]; [|done|].
    + bool_prop. subst off. cbn [transfer]. f_equal.
      match goal with H : access _ _ _ _ _ _ _ _ = _ |- _ =>
        apply (sy_access pac auth label (save_arg p) (restore_arg p) (teb_reg p) s a s3) in H
          as (-> & _ & ? & ? & Hcl); [|done|done] end.
      rewrite (sy_load pac auth label (save_arg p) (restore_arg p) (teb_reg p) s a s3) by done.
      unfold resume_target in Ht. replace (authenticates p) with false in Ht by (by destruct p).
      destruct (_ && _); [done|]. by injection Ht.
    + bool_prop. cbn [transfer]. f_equal. rewrite (d_regs _ _ _ _ _ _ _ _ _ Hd).
      match goal with H : sreg _ r = _ |- _ => rewrite H end.
      unfold resume_target in Ht. destruct (authenticates p).
      * cbn [eval]. unfold restored in Ht. by rewrite Ht.
      * replace (loads_mxcsr p k) with false in Ht by (by destruct p). by injection Ht.
Qed.

(** Switching to any context other than one parked in the same routine: the
    switch faults or control goes to the stored address on the stored stack. *)
Lemma cs_enter :
  apart (save_arg p) (restore_arg p) (teb_reg p) s -> resume_target <> Some label ->
  match resume_target with
  | None => switch pac auth label (listing p k) s = None
  | Some t => exists s', switch pac auth label (listing p k) s = Some (t, s') /\
      regs s' Sp = restored (sp_off p) 8 /\
      (loads_mxcsr p k = true -> regs s' Mxcsr = restored (mxcsr_off p) 4) /\
      (forall b, (forall ar, ar <> Rest ->
          b < area_base s ar \/ area_base s ar + area_size ar <= b) -> mem s' b = mem s b)
  end.
Proof.
  intros Hap Hlab.
  destruct (cs_check_spec p k _ (cs_all_listings_check p k)) as (body & e & rest & a & Hsp & Hrt).
  pose proof (rt_body _ _ _ _ _ _ Hrt) as Hb.
  rewrite (cs_switch pac auth label p _ body e rest) by (done || apply Hrt).
  destruct (usteps pac auth label body s) as [s3|] eqn:Hu.
  - destruct (sy_steps_complete pac auth label (save_arg p) (restore_arg p) (teb_reg p)
      body s sym_init s a s3) as [Hd Hg]; [done|apply sy_describes_init|done|done|done|].
    destruct (cs_enter_body a body e rest s3) as (H1 & H2 & H3); [done..|].
    apply (cs_enter_guards_of a body e rest Hsp Hb) in Hg as [t Ht]. rewrite Ht in *. cbn [mbind option_bind].
    rewrite (H3 t eq_refl). exists s3.
    rewrite (proj2 (Z.eqb_neq t label)), andb_false_r by congruence.
    split; [done|]. split; [done|]. split; [done|]. intros b Hout.
    apply (d_frame _ _ _ _ _ _ _ _ _ Hd). intros c Hc Hin.
    destruct (d_cells _ _ _ _ _ _ _ _ _ Hd c Hc) as [(Hne & ? & ?) _].
    specialize (Hout _ Hne). unfold in_cell in Hin. lia.
  - destruct resume_target as [t|] eqn:Ht; [|done]. exfalso.
    destruct (sy_steps_sound pac auth label (save_arg p) (restore_arg p) (teb_reg p)
      body s sym_init s a) as (s3 & Hu3 & Hd); [done|apply sy_describes_init|done| |congruence].
    apply (cs_enter_guards_of a body e rest Hsp Hb). by eexists.
Qed.
End enter.
