(* ===== verification/FiberInit.v ===== *)
(** * FiberInit: putting a new fiber on its stack

    [SpawnBuilder::spawn] and [fiber::spawn_with_stack] of src/src/api.rs and the four
    [dtact_fiber_launch*] functions of src/src/c_ffi.rs: how they fill a
    context taken from the pool, where they place the future and the stack,
    which initial registers they write, and what the first switch into the
    fiber does with them.

    Addresses the linker and the allocators choose (the entry point, the
    abort routine, a heap box) are parameters. *)

From S2P Require Import Prelude Ring Types ContextPool Machine Symbolic SwitchCode ContextSwitch.

(** How [invoke_closure] drives [closure_ptr]. *)
Inductive invoke : Type :=
| InvokeBoxed        (* unbox the future, poll it to completion, drop it *)
| InvokeInline       (* poll the future in place, drop it in place *)
| InvokeTrampoline   (* call the C function in [trampoline] on the argument *)
| InvokeOnce.        (* read the [FnOnce] out of the buffer and call it *)

(** The context of a fiber as the launching functions write it; the register
    save areas are the first 1280 bytes of the context and live in memory. *)
Record fiber : Type := mk_fiber {
  fb_ctx : FiberContext;
  fb_last_os_thread_id : Z;
  fb_trampoline : Z;
  fb_invoke : invoke;
  fb_cleanup_fn : option Z;
  fb_mem : memory
}.

Definition REGS_SIZE : Z := 640.

Definition set_gpr (ctx_ptr i v : Z) (m : memory) : memory :=
  store_bytes 8 (ctx_ptr + 8 * i) v m.

Definition write_gprs (ctx_ptr : Z) (l : list (Z * Z)) (m : memory) : memory :=
  fold_left (fun m '(i, v) => set_gpr ctx_ptr i v m) l m.

(** The bytes of a value moved to address [a]. *)
Fixpoint write_bytes (a : Z) (l : list Z) (m : memory) : memory :=
  match l with
  | [] => m
  | x :: l' => write_bytes (a + 1) l' (fun b => if b =? a then x else m b)
  end.

(** [x & !(2^k - 1)] for an alignment [al]. *)
Definition align_down (x al : Z) : Z := Z.land x (Z.lnot (al - 1)).

(** The initial registers: stack pointer, first instruction, and on Windows
    the stack bounds for the TEB. *)
Definition boot_gprs (p : platform) (pc sp base limit exceptions : Z) : list (Z * Z) :=
  match p with
  | x86_64_unix => [(0, sp); (7, pc)]
  | x86_64_windows =>
      [(0, sp); (7, pc); (10, base); (11, limit); (12, limit); (13, exceptions)]
  | aarch64_unix | aarch64_hardened | aarch64_macos => [(12, sp); (11, pc)]
  | aarch64_windows => [(12, sp); (11, pc); (13, base); (14, limit); (15, limit)]
  | riscv64_hw | riscv64 => [(0, sp); (13, pc)]
  end.

Definition is_aarch64 (p : platform) : bool :=
  match p with
  | aarch64_unix | aarch64_hardened | aarch64_macos | aarch64_windows => true
  | _ => false
  end.

(** The targets whose switch routines sign and authenticate the link register. *)
Definition signs (p : platform) : bool :=
  match p with aarch64_hardened | aarch64_macos | aarch64_windows => true | _ => false end.

Definition default_spin (k : WorkloadKind) : Z :=
  match k with
  | Types.Compute => 1000
  | IO => 100
  | Memory => 500
  | System => 200
  end.

(** The fields every launching function sets. *)
Definition launch_ctx (core ctx_id : Z) (sw : Switcher) (kd : WorkloadKind) (md : TopologyMode)
    (af : Affinity) (closure spin : Z) (c : FiberContext) : FiberContext :=
  {| fiber_index := ctx_id; origin_core := wrap 16 core; state := Running; switch_fn := sw;
     closure_ptr := closure; read_buffer_ptr := read_buffer_ptr c; kind := kd; mode := md;
     affinity := af; adaptive_spin_count := spin; spin_failure_count := spin_failure_count c;
     waiter_thread_id := waiter_thread_id c; waiter_handle := waiter_handle c;
     generation := generation c; next_free := next_free c |}.

(** [1-bit Valid | 15-bit Generation | 16-bit CoreID | 32-bit ContextID] *)
Definition pack_handle (ctx_id core gen : Z) : Z :=
  Z.lor (Z.lor (Z.lor ctx_id (wrap 64 (Z.shiftl core 32)))
               (wrap 64 (Z.shiftl (Z.land gen 0x7FFF) 48))) (2 ^ 63).

Section launch.
Context (pac : Z -> Z -> Z) (p : platform).
(** Addresses of [fiber_entry_point] and [dtact_abort]. *)
Context (entry abort : Z).
(** The context being launched: its address, and the slot size and rounded
    context size of the pool. *)
Context (ctx_ptr slot_size context_sz : Z).

(** Writing the poison return address, on x86 only. *)
Definition poison (stack_top : Z) (m : memory) : memory :=
  if is_x86 p then store_bytes 8 stack_top abort m else m.

(** ** [SpawnBuilder::spawn] *)

Definition aligned_fut_addr (buffer_start fut_size align : Z) : Z :=
  align_down (wsub 64 (buffer_start + 8192) fut_size) align.

(** The future does not fit the 8 KiB buffer. *)
Definition fut_escapes (buffer_start fut_size align : Z) : bool :=
  (aligned_fut_addr buffer_start fut_size align <? buffer_start) ||
  (buffer_start + 8192 <? wadd 64 (aligned_fut_addr buffer_start fut_size align) fut_size).

(** Where the stack region ends: below the future, or the buffer's end when
    the future is on the heap. *)
Definition stack_limit (buffer_start fut_size align : Z) : Z :=
  if fut_escapes buffer_start fut_size align then buffer_start + 8192
  else aligned_fut_addr buffer_start fut_size align.

Definition spawn_stack_top (limit : Z) : Z :=
  if is_x86 p then wsub 64 (align_down limit 16) 8 else align_down limit 16.

Definition slot_base : Z := sat_sub (ctx_ptr + context_sz) slot_size.

(** Pointer authentication of the first link register. *)
Definition spawn_pc (sp : Z) : Z := if signs p then pac entry sp else entry.

(** [fut] is the bytes of the future, [heap] the address [Box::new] returns,
    [md] the topology mode asked for. *)
Definition spawn (sw : Switcher) (kd : WorkloadKind) (md : TopologyMode) (af : Affinity)
    (core ctx_id : Z) (fut : list Z) (align heap : Z) (f : fiber) : fiber :=
  let buffer_start := read_buffer_ptr (fb_ctx f) in
  let fut_size := Z.of_nat (length fut) in
  let escapes := fut_escapes buffer_start fut_size align in
  let fut_ptr := if escapes then heap else aligned_fut_addr buffer_start fut_size align in
  let limit := stack_limit buffer_start fut_size align in
  let stack_top := spawn_stack_top limit in
  mk_fiber
    (launch_ctx core ctx_id sw kd (if ALLOW_DEFLECTION sw then md else Pinned) af
       fut_ptr (default_spin kd) (fb_ctx f))
    0 (fb_trampoline f)
    (if escapes then InvokeBoxed else InvokeInline)
    (if escapes then None else fb_cleanup_fn f)
    (write_gprs ctx_ptr
       (boot_gprs p (spawn_pc stack_top) stack_top limit slot_base 0)
       (poison stack_top (write_bytes fut_ptr fut (fb_mem f)))).

(** ** [fiber::spawn_with_stack] *)

Definition with_stack_top (buffer_start : Z) : Z := wsub 64 (align_down buffer_start 16) 72.

(** AArch64 always signs here, whatever the target; the poison is written on every target. *)
Definition with_stack_pc (sp : Z) : Z := if is_aarch64 p then pac entry sp else entry.

Definition spawn_with_stack (core ctx_id : Z) (closure : list Z) (f : fiber) : fiber :=
  let buffer_start := read_buffer_ptr (fb_ctx f) in
  let stack_top := with_stack_top buffer_start in
  let c := fb_ctx f in
  mk_fiber
    (launch_ctx core ctx_id SameThreadNoFloat (kind c) (mode c) (affinity c)
       buffer_start (adaptive_spin_count c) c)
    (fb_last_os_thread_id f) (fb_trampoline f) InvokeOnce (fb_cleanup_fn f)
    (write_gprs ctx_ptr
       (boot_gprs p (with_stack_pc stack_top) stack_top buffer_start slot_base 0)
       (store_bytes 8 stack_top abort (write_bytes buffer_start closure (fb_mem f)))).

(** ** The C interface *)

Definition ffi_stack_top : Z :=
  wsub 64 (align_down ctx_ptr 16) (if is_x86 p then 72 else 80).

(** Stack, poison and registers, the same in the four functions. *)
Definition ffi_boot (m : memory) : memory :=
  write_gprs ctx_ptr
    (boot_gprs p entry ffi_stack_top ctx_ptr (sat_sub ctx_ptr slot_size) U64_MAX)
    (poison ffi_stack_top m).

Definition dtact_fiber_launch (core ctx_id func arg : Z) (f : fiber) : fiber :=
  mk_fiber
    (launch_ctx core ctx_id CrossThreadFloat Types.Compute P2PMesh SameCore arg
       (adaptive_spin_count (fb_ctx f)) (fb_ctx f))
    (fb_last_os_thread_id f) func InvokeTrampoline None (ffi_boot (fb_mem f)).

Definition dtact_fiber_launch_with_cleanup (core ctx_id func arg cleanup : Z) (f : fiber) : fiber :=
  mk_fiber
    (launch_ctx core ctx_id CrossThreadFloat Types.Compute P2PMesh SameCore arg
       (adaptive_spin_count (fb_ctx f)) (fb_ctx f))
    (fb_last_os_thread_id f) func InvokeTrampoline (Some cleanup) (ffi_boot (fb_mem f)).

(** [dtact_spawn_options_t] *)
Record spawn_options : Type := mk_options {
  o_priority : Z; o_affinity : Z; o_kind : Z; o_switcher : Z
}.

Definition dtact_default_spawn_options : spawn_options := mk_options 1 0 0 0.

Definition ffi_switcher (o : Z) : Switcher :=
  if o =? 1 then CrossThreadNoFloat else if o =? 2 then SameThreadFloat
  else if o =? 3 then SameThreadNoFloat else CrossThreadFloat.

Definition ffi_mode (o : Z) (topology : TopologyMode) : TopologyMode :=
  if (o =? 0) || (o =? 1) then
    match topology with Global => Global | _ => P2PMesh end
  else Pinned.

Definition ffi_affinity (o : Z) : Affinity :=
  if o =? 1 then SameCCX else if o =? 2 then SameNUMA else if o =? 3 then Any else SameCore.

Definition ffi_kind (o : Z) : WorkloadKind :=
  if o =? 1 then IO else if o =? 2 then Memory else if o =? 3 then System else Types.Compute.

(** The two [_ext] functions on the options given, or the defaults for a null pointer. *)
Definition ext_ctx (topology : TopologyMode) (core ctx_id arg : Z) (options : option spawn_options)
    (c : FiberContext) : FiberContext :=
  let o := default dtact_default_spawn_options options in
  launch_ctx core ctx_id (ffi_switcher (o_switcher o)) (ffi_kind (o_kind o))
    (ffi_mode (o_switcher o) topology) (ffi_affinity (o_affinity o)) arg
    (default_spin (ffi_kind (o_kind o))) c.

Definition dtact_fiber_launch_ext (topology : TopologyMode) (core ctx_id func arg : Z)
    (options : option spawn_options) (f : fiber) : fiber :=
  mk_fiber (ext_ctx topology core ctx_id arg options (fb_ctx f))
    (fb_last_os_thread_id f) func InvokeTrampoline None (ffi_boot (fb_mem f)).

Definition dtact_fiber_launch_with_cleanup_ext (topology : TopologyMode)
    (core ctx_id func arg cleanup : Z) (options : option spawn_options) (f : fiber) : fiber :=
  mk_fiber (ext_ctx topology core ctx_id arg options (fb_ctx f))
    (fb_last_os_thread_id f) func InvokeTrampoline (Some cleanup) (ffi_boot (fb_mem f)).
End launch.

(** ** [dtact_await]: taking a handle apart *)

Definition strip_valid (h : Z) : Z := Z.land h (Z.lnot (2 ^ 63)).
Definition handle_ctx_id (h : Z) : Z := Z.land (strip_valid h) 0xFFFFFFFF.
Definition handle_gen (h : Z) : Z := Z.land (Z.shiftr (strip_valid h) 48) 0x7FFF.

(** The handle a waiting fiber registers, and its decoding by [wake_waiter_handle]. *)
Definition waiter_handle_of (fiber_index worker : Z) : Z :=
  Z.lor (Z.lor fiber_index (wrap 64 (Z.shiftl worker 32))) (2 ^ 63).

Definition wake_waiter_target (packed : Z) : Z * Z :=
  let waiter := strip_valid packed in
  (Z.shiftr waiter 32, Z.land waiter 0xFFFFFFFF).

(** ** The launched context *)

Lemma fi_set_gpr_same cp i v m : is_word 64 v -> load_bytes 8 (cp + 8 * i) (set_gpr cp i v m) = v.
Proof.
  intros Hv. unfold set_gpr. rewrite mc_load_store_same. apply Z.mod_small. exact Hv.
Qed.

Lemma fi_set_gpr_other cp i v m w off :
  off + Z.of_nat w <= 8 * i \/ 8 * i + 8 <= off ->
  load_bytes w (cp + off) (set_gpr cp i v m) = load_bytes w (cp + off) m.
Proof. intros H. unfold set_gpr. apply mc_load_store_other. lia. Qed.

Lemma fi_set_gpr_frame cp i v m b :
  b < cp + 8 * i \/ cp + 8 * i + 8 <= b -> set_gpr cp i v m b = m b.
Proof. intros H. unfold set_gpr. apply mc_store_other. lia. Qed.

Ltac read_gprs :=
  cbn [write_gprs boot_gprs fold_left pc_off sp_off mxcsr_off is_x86]; try done; intros;
  repeat match goal with
  | |- context [load_bytes ?w (?cp + ?off) (set_gpr ?cp ?i ?v ?m)] =>
      first [ rewrite (fi_set_gpr_other cp i v m w off) by lia
            | change (cp + off) with (cp + 8 * i); rewrite (fi_set_gpr_same cp i v m) by done ]
  end; done.

(** The initial registers are what a restore will load, MXCSR is not among them. *)
Lemma fi_boot p pc sp bs lim exc cp m :
  is_word 64 pc -> is_word 64 sp ->
  let m' := write_gprs cp (boot_gprs p pc sp bs lim exc) m in
  load_bytes 8 (cp + pc_off p) m' = pc /\ load_bytes 8 (cp + sp_off p) m' = sp /\
  (is_x86 p = true -> load_bytes 4 (cp + mxcsr_off p) m' = load_bytes 4 (cp + mxcsr_off p) m) /\
  (forall b, b < cp \/ cp + 128 <= b -> m' b = m b).
Proof.
  intros Hpc Hsp.
  assert (Hframe : forall l m b, (forall i v, In (i, v) l -> 0 <= i < 16) ->
    b < cp \/ cp + 128 <= b -> write_gprs cp l m b = m b).
  { intros l; induction l as [|[i v] l IH]; intros m0 b Hl Hb; [done|].
    cbn [write_gprs fold_left]. unfold write_gprs in IH.
    rewrite IH by (done || intros; eapply Hl; right; done).
    apply fi_set_gpr_frame. specialize (Hl i v (or_introl eq_refl)). lia. }
  cbv zeta. split_and!.
  1, 2, 3: destruct p; read_gprs.
  intros b Hb. apply Hframe; [|done].
  intros i v Hin. destruct p; simpl in Hin; naive_solver lia.
Qed.

Lemma fi_write_bytes_other a l m b :
  b < a \/ a + Z.of_nat (length l) <= b -> write_bytes a l m b = m b.
Proof.
  revert a m; induction l as [|x l IH]; intros a m H; simpl in *; [done|].
  rewrite IH by lia. destruct (Z.eqb_spec b a); [lia|done].
Qed.

Lemma fi_write_bytes_lookup a l m i x :
  l !! i = Some x -> write_bytes a l m (a + Z.of_nat i) = x.
Proof.
  revert a m i; induction l as [|y l IH]; intros a m i H; [done|].
  destruct i as [|i]; simpl in H.
  - injection H as ->. simpl. rewrite fi_write_bytes_other by lia.
    rewrite Z.add_0_r, Z.eqb_refl. done.
  - replace (a + Z.of_nat (S i)) with (a + 1 + Z.of_nat i) by lia. by apply IH.
Qed.

Lemma fi_write_bytes_wf a l m :
  wf_memory m -> Forall (fun x => 0 <= x < 256) l -> wf_memory (write_bytes a l m).
Proof.
  revert a m; induction l as [|x l IH]; intros a m Hm Hl; simpl; [done|].
  inversion_clear Hl. apply IH; [|done]. intros b. destruct (b =? a); [done|apply Hm].
Qed.

Lemma fi_align_down x k : 0 <= k -> align_down x (2 ^ k) = x - x mod 2 ^ k.
Proof. apply land_lnot_mask. Qed.

Lemma fi_align_16 x : align_down x 16 = x - x mod 16.
Proof. exact (fi_align_down x 4 ltac:(lia)). Qed.

(** A context of the pool: [read_buffer_ptr] is the 8 KiB below it, and it is
    far from the ends of the address space. *)
Record pool_context (ctx_ptr : Z) (c : FiberContext) : Prop := {
  pc_align : ctx_ptr mod 64 = 0;
  pc_low : 2 ^ 16 <= ctx_ptr;
  pc_high : ctx_ptr + 2 ^ 16 <= 2 ^ 64;
  pc_buffer : read_buffer_ptr c = ctx_ptr - 8192
}.

(** Where [spawn] puts the future and the stack.  Whatever the size and the
    power-of-two alignment: a future in the buffer is aligned, inside the
    buffer, and wholly above the stack, which starts on the boundary the
    calling convention wants at a function's entry. *)
Lemma fi_spawn_layout p ctx_ptr c size k :
  pool_context ctx_ptr c -> 0 <= size <= ctx_ptr -> 0 <= k < 64 ->
  let bs := read_buffer_ptr c in
  let lim := stack_limit bs size (2 ^ k) in
  let top := spawn_stack_top p lim in
  (fut_escapes bs size (2 ^ k) = false ->
     bs <= aligned_fut_addr bs size (2 ^ k) /\
     aligned_fut_addr bs size (2 ^ k) + size <= ctx_ptr /\
     aligned_fut_addr bs size (2 ^ k) mod 2 ^ k = 0) /\
  (size <= 8192 -> k <= 6 -> fut_escapes bs size (2 ^ k) = false) /\
  (if is_x86 p then (top + 8) mod 16 = 0 else top mod 16 = 0) /\
  bs - 24 <= top /\ top + (if is_x86 p then 8 else 0) <= lim /\ lim <= ctx_ptr /\
  top = lim - lim mod 16 - (if is_x86 p then 8 else 0).
Proof.
  intros [Ha Hlo Hhi Hb] Hs Hk. cbv zeta. rewrite Hb. unfold stack_limit, fut_escapes.
  replace (ctx_ptr - 8192 + 8192) with ctx_ptr by lia.
  assert (Haddr : aligned_fut_addr (ctx_ptr - 8192) size (2 ^ k)
    = ctx_ptr - size - (ctx_ptr - size) mod 2 ^ k).
  { unfold aligned_fut_addr, wsub, wrap. rewrite fi_align_down by lia.
    replace (ctx_ptr - 8192 + 8192 - size) with (ctx_ptr - size) by lia.
    by rewrite (Z.mod_small (ctx_ptr - size)) by lia. }
  assert (H2k : 0 < 2 ^ k) by (apply Z.pow_pos_nonneg; lia).
  pose proof (Z.mod_pos_bound (ctx_ptr - size) (2 ^ k) H2k) as Hm.
  set (addr := aligned_fut_addr _ _ _) in *.
  assert (Hle : (ctx_ptr - size) mod 2 ^ k <= ctx_ptr - size) by (apply Z.mod_le; lia).
  assert (Hw : wadd 64 addr size = addr + size) by (unfold wadd, wrap; apply Z.mod_small; lia).
  rewrite Hw. match goal with |- context [spawn_stack_top p ?l] => set (lim := l) end.
  assert (Hlim : ctx_ptr - 8192 <= lim <= ctx_ptr).
  { unfold lim. destruct (_ || _) eqn:E; bool_prop; lia. }
  pose proof (Z.mod_pos_bound lim 16 ltac:(lia)) as Hm16.
  assert (Htop : spawn_stack_top p lim = lim - lim mod 16 - (if is_x86 p then 8 else 0)).
  { unfold spawn_stack_top, wsub, wrap. rewrite fi_align_16.
    destruct (is_x86 p); [|lia]. apply Z.mod_small. lia. }
  rewrite Htop.
  assert (Hal : (lim - lim mod 16) mod 16 = 0).
  { replace (lim - lim mod 16) with (lim / 16 * 16); [apply Z.mod_mul; lia|].
    pose proof (Z.div_mod lim 16). lia. }
  split_and!; try (destruct (is_x86 p); lia).
  - intros E. bool_prop. split_and!; try lia. rewrite Haddr.
    replace (ctx_ptr - size - (ctx_ptr - size) mod 2 ^ k)
      with ((ctx_ptr - size) / 2 ^ k * 2 ^ k); [apply Z.mod_mul; lia|].
    pose proof (Z.div_mod (ctx_ptr - size) (2 ^ k)). lia.
  - intros Hs8 Hk6. apply orb_false_iff. split; [|apply Z.ltb_ge; lia].
    apply Z.ltb_ge. rewrite Haddr.
    assert (Hbuf : exists q, ctx_ptr - 8192 = 2 ^ k * q).
    { exists (2 ^ (6 - k) * (ctx_ptr / 64 - 128)). rewrite Z.mul_assoc, <- Z.pow_add_r by lia.
      replace (k + (6 - k)) with 6 by lia. pose proof (Z.div_mod ctx_ptr 64). lia. }
    destruct Hbuf as [q Hq]. rewrite Hq.
    assert (q <= (ctx_ptr - size) / 2 ^ k) by (apply Z.div_le_lower_bound; lia).
    pose proof (Z.div_mod (ctx_ptr - size) (2 ^ k)). nia.
  - destruct (is_x86 p); [|by rewrite Z.sub_0_r]. replace (lim - lim mod 16 - 8 + 8) with (lim - lim mod 16) by lia. done.
Qed.

(** ** The first switch into a fiber *)

(** The switch of [dispatch_loop]: saving to [executor_regs] and restoring
    [regs] of the context at [ctx_ptr], from memory that agrees with [m] on
    the context's registers and on the slot below it. *)
Record dispatches (p : platform) (ctx_ptr : Z) (m : memory) (s : machine) : Prop := {
  di_areas : apart (save_arg p) (restore_arg p) (teb_reg p) s;
  di_rest : regs s (restore_arg p) = ctx_ptr;
  di_save : regs s (save_arg p) = ctx_ptr + REGS_SIZE;
  di_teb : forall b, ctx_ptr - 2 ^ 14 <= b < ctx_ptr ->
    b < regs s (teb_reg p) \/ regs s (teb_reg p) + area_size Tib <= b;
  di_mem : forall b, ctx_ptr - 2 ^ 14 <= b < ctx_ptr + REGS_SIZE -> mem s b = m b
}.

(** MXCSR holds a value the hardware accepts. *)
Definition mxcsr_ok (p : platform) (k : Switcher) (ctx_ptr : Z) (m : memory) : Prop :=
  loads_mxcsr p k = true -> load_bytes 4 (ctx_ptr + mxcsr_off p) m < 2 ^ 16.

Lemma fi_loads_mxcsr_x86 p k : loads_mxcsr p k = true -> is_x86 p = true.
Proof. intros H. by apply andb_true_iff in H as [? _]. Qed.

Section first_switch.
Context (pac : Z -> Z -> Z) (auth : Z -> Z -> option Z) (label : Z).
Context (p : platform) (k : Switcher) (ctx_ptr : Z) (m0 : memory).
Context (pcv sp bs lim exc : Z) (s : machine).
Hypothesis Hpc : is_word 64 pcv.
Hypothesis Hsp : is_word 64 sp.
Hypothesis Hmx : mxcsr_ok p k ctx_ptr m0.
Hypothesis Hs : dispatches p ctx_ptr (write_gprs ctx_ptr (boot_gprs p pcv sp bs lim exc) m0) s.

Lemma fi_restored off w v :
  0 <= off -> off + Z.of_nat w <= 640 ->
  load_bytes w (ctx_ptr + off) (write_gprs ctx_ptr (boot_gprs p pcv sp bs lim exc) m0) = v ->
  restored p s off w = v.
Proof.
  intros H0 H1 <-. unfold restored. cbn [base]. rewrite (di_rest _ _ _ _ Hs).
  apply mc_load_ext. intros b Hb. apply (di_mem _ _ _ _ Hs). unfold REGS_SIZE. lia.
Qed.

Lemma fi_first_target :
  resume_target auth p k s = if authenticates p then auth pcv sp else Some pcv.
Proof.
  destruct (fi_boot p pcv sp bs lim exc ctx_ptr m0 Hpc Hsp) as (H1 & H2 & H3 & _).
  unfold resume_target.
  rewrite (fi_restored (pc_off p) 8 pcv), (fi_restored (sp_off p) 8 sp)
    by (first [done | destruct p; simpl; lia]).
  destruct (authenticates p); [done|]. destruct (loads_mxcsr p k) eqn:El; [|done].
  assert (Hx := fi_loads_mxcsr_x86 p k El).
  rewrite (fi_restored (mxcsr_off p) 4 _ ltac:(destruct p; simpl; lia) ltac:(destruct p; simpl; lia) eq_refl).
  rewrite H3 by done. rewrite (proj2 (Z.ltb_lt _ _)) by (by apply Hmx). done.
Qed.

(** Into the fiber, or a fault when authentication fails. *)
Lemma fi_first_switch :
  (if authenticates p then auth pcv sp else Some pcv) <> Some label ->
  match (if authenticates p then auth pcv sp else Some pcv) with
  | None => switch pac auth label (listing p k) s = None
  | Some t => exists s', switch pac auth label (listing p k) s = Some (t, s') /\
      regs s' Sp = sp /\
      (loads_mxcsr p k = true -> regs s' Mxcsr = load_bytes 4 (ctx_ptr + mxcsr_off p) m0) /\
      (forall b, ctx_ptr - 2 ^ 14 <= b < ctx_ptr -> mem s' b = m0 b)
  end.
Proof.
  destruct (fi_boot p pcv sp bs lim exc ctx_ptr m0 Hpc Hsp) as (H1 & H2 & H3 & H4).
  intros Hl. rewrite <- fi_first_target in Hl |- *.
  pose proof (cs_enter pac auth label p k s (di_areas _ _ _ _ Hs) Hl) as He.
  destruct (resume_target auth p k s) as [t|]; [|done].
  destruct He as (s' & Hsw & E1 & E2 & E3). exists s'. split; [done|]. split_and!.
  - rewrite E1. apply fi_restored; [destruct p; simpl; lia..|done].
  - intros El. rewrite (E2 El).
    assert (Hx := fi_loads_mxcsr_x86 p k El).
    apply fi_restored; [destruct p; simpl; lia..|]. by apply H3.
  - intros b Hb. rewrite E3.
    + rewrite (di_mem _ _ _ _ Hs) by (unfold REGS_SIZE; lia). apply H4. lia.
    + intros [] Hne; cbn [base area_size]; [|done|].
      * rewrite (di_save _ _ _ _ Hs). unfold REGS_SIZE. lia.
      * pose proof (di_teb _ _ _ _ Hs b Hb). simpl area_size in *. lia.
Qed.
End first_switch.

Lemma fi_poison_frame p ab top m b :
  (is_x86 p = true -> b < top \/ top + 8 <= b) -> poison p ab top m b = m b.
Proof.
  intros H. unfold poison. destruct (is_x86 p); [|done].
  specialize (H eq_refl). apply mc_store_other. lia.
Qed.

Lemma fi_load_frame w a m m' :
  (forall b, a <= b < a + Z.of_nat w -> m b = m' b) -> load_bytes w a m = load_bytes w a m'.
Proof. apply mc_load_ext. Qed.

Lemma fi_restored_auth pac auth p entry sp :
  pac_works pac auth -> 0 <= entry < 2 ^ 48 ->
  (if authenticates p then auth (spawn_pc pac p entry sp) sp
   else Some (spawn_pc pac p entry sp)) = Some entry /\ is_word 64 (spawn_pc pac p entry sp).
Proof.
  intros [Hr Ha] He. unfold spawn_pc. change (signs p) with (authenticates p). destruct (authenticates p).
  - split; [by apply Ha | exact (Hr _ _)].
  - split; [done|]. unfold is_word. lia.
Qed.

(** C16.  Spawning works on every target and with every switcher: for a
    future of any size up to the address of the context and any power-of-two alignment, the first
    switch from [dispatch_loop] into the spawned context completes in
    [fiber_entry_point], on a stack pointer aligned for a function entry, with
    the abort routine as the return address on x86, with the
    MXCSR value the context held; and a future that was placed in the buffer is
    intact there, aligned, with the whole stack below it. *)
Theorem spawn_enters_fiber (pac : Z -> Z -> Z) (auth : Z -> Z -> option Z) (label : Z)
    (p : platform) (entry ab ctx_ptr slot csz : Z) (sw : Switcher) (kd : WorkloadKind)
    (md : TopologyMode) (af : Affinity) (core id : Z) (fut : list Z) (a heap : Z)
    (f : fiber) (s : machine) :
  pac_works pac auth -> 0 <= entry < 2 ^ 48 -> entry <> label -> is_word 64 ab ->
  pool_context ctx_ptr (fb_ctx f) -> Z.of_nat (length fut) <= ctx_ptr -> 0 <= a < 64 ->
  (heap + Z.of_nat (length fut) <= ctx_ptr \/ ctx_ptr + 1280 <= heap) ->
  mxcsr_ok p sw ctx_ptr (fb_mem f) ->
  let f' := spawn pac p entry ab ctx_ptr slot csz sw kd md af core id fut (2 ^ a) heap f in
  let escapes := fut_escapes (read_buffer_ptr (fb_ctx f)) (Z.of_nat (length fut)) (2 ^ a) in
  dispatches p ctx_ptr (fb_mem f') s ->
  exists s', switch pac auth label (listing p sw) s = Some (entry, s') /\
    (regs s' Sp + (if is_x86 p then 8 else 0)) mod 16 = 0 /\
    (is_x86 p = true -> load_bytes 8 (regs s' Sp) (mem s') = ab) /\
    (loads_mxcsr p sw = true ->
       regs s' Mxcsr = load_bytes 4 (ctx_ptr + mxcsr_off p) (fb_mem f)) /\
    (escapes = false ->
       closure_ptr (fb_ctx f') mod 2 ^ a = 0 /\
       regs s' Sp + (if is_x86 p then 8 else 0) <= closure_ptr (fb_ctx f') /\
       forall i x, fut !! i = Some x -> mem s' (closure_ptr (fb_ctx f') + Z.of_nat i) = x) /\
    (Z.of_nat (length fut) <= 8192 -> a <= 6 -> escapes = false).
Proof.
  intros Hpac Hen Hnl Hab Hctx Hsz Ha Hheap Hmx f' escapes Hdi.
  destruct (fi_spawn_layout p ctx_ptr (fb_ctx f) (Z.of_nat (length fut)) a Hctx)
    as (L1 & L2 & L3 & L4 & L5 & L6 & L7); [lia|done|].
  pose proof (pc_low _ _ Hctx). pose proof (pc_high _ _ Hctx). pose proof (pc_buffer _ _ Hctx) as Hb.
  fold escapes in L1, L2. unfold f', spawn in *. fold escapes in Hdi |- *. cbn [fb_ctx fb_mem closure_ptr launch_ctx] in *.
  set (bs := read_buffer_ptr (fb_ctx f)) in *. set (n := Z.of_nat (length fut)) in *.
  set (lim := stack_limit bs n (2 ^ a)) in *. set (top := spawn_stack_top p lim) in *.
  set (fp := if escapes then heap else aligned_fut_addr bs n (2 ^ a)) in *.
  assert (Hpush : 0 <= (if is_x86 p then 8 else 0) <= 8) by (destruct (is_x86 p); lia).
  assert (Htop : is_word 64 top) by (split; lia).
  destruct (fi_restored_auth pac auth p entry top Hpac Hen) as [Htgt Hpcw].
  (* the future and the poison do not touch the context's registers *)
  assert (Hm0 : forall b, ctx_ptr <= b < ctx_ptr + 640 ->
    poison p ab top (write_bytes fp fut (fb_mem f)) b = fb_mem f b).
  { intros b Hb'. rewrite fi_poison_frame by (intros Hx; rewrite Hx in L5; lia). apply fi_write_bytes_other.
    fold n. unfold fp. destruct escapes; [lia|]. destruct L1; [done|lia]. }
  assert (Hmx0 : load_bytes 4 (ctx_ptr + mxcsr_off p) (poison p ab top (write_bytes fp fut (fb_mem f)))
    = load_bytes 4 (ctx_ptr + mxcsr_off p) (fb_mem f)).
  { apply mc_load_ext. intros b Hb'. apply Hm0. destruct p; simpl in Hb'; lia. }
  pose proof (fi_first_switch pac auth label p sw ctx_ptr
    (poison p ab top (write_bytes fp fut (fb_mem f)))
    (spawn_pc pac p entry top) top lim (slot_base ctx_ptr slot csz) 0 s) as He.
  rewrite Htgt in He. destruct He as (s' & Hsw & E1 & E2 & E3); [done|done| |done|congruence|].
  { intros Hl. rewrite Hmx0. by apply Hmx. }
  exists s'. rewrite E1. split; [done|]. split_and!; try done.
  - destruct (is_x86 p); [done|]. by rewrite Z.add_0_r.
  - intros Hx. rewrite <- (Z.mod_small ab (2 ^ 64)) by done.
    change (2 ^ 64) with (256 ^ Z.of_nat 8).
    rewrite <- (mc_load_store_same 8 top ab (write_bytes fp fut (fb_mem f))).
    apply mc_load_ext. intros b Hb'. rewrite E3 by (rewrite Hx in L5; lia).
    unfold poison. by rewrite Hx.
  - intros Hl. by rewrite E2.
  - intros Hesc. destruct (L1 Hesc) as (B1 & B2 & B3). unfold fp. rewrite Hesc.
    assert (Hlim : lim = aligned_fut_addr bs n (2 ^ a)).
    { unfold lim, stack_limit. fold escapes. by rewrite Hesc. }
    split; [done|]. split; [lia|]. intros i x Hi.
    pose proof (lookup_lt_Some _ _ _ Hi) as Hlt. fold n in L1.
    rewrite E3 by (unfold n in *; lia).
    rewrite fi_poison_frame by (intros Hx; rewrite Hx in L5; lia).
    unfold fp. rewrite Hesc. by apply fi_write_bytes_lookup.
Qed.

(** A fresh context at 0x100000 on a target that signs pointers, with a
    three-byte future. *)
Definition demo_fiber : fiber :=
  mk_fiber
    {| fiber_index := 0; origin_core := 0; state := Initial; switch_fn := CrossThreadFloat;
       closure_ptr := 0; read_buffer_ptr := 0x100000 - 8192; kind := Types.Compute;
       mode := P2PMesh; affinity := SameCore; adaptive_spin_count := 50;
       spin_failure_count := 0; waiter_thread_id := 0; waiter_handle := 0; generation := 0;
       next_free := U32_MAX |}
    0 0 InvokeOnce None (fun _ => 0).

(** [dispatch_loop] about to switch into the context at 0x100000. *)
Definition demo_dispatch (p : platform) (m : memory) : machine :=
  mk_machine (fun r => if decide (r = save_arg p) then 0x100000 + 640
                       else if decide (r = restore_arg p) then 0x100000 else 0x30000) m.

Lemma fi_demo_dispatches p m : dispatches p 0x100000 m (demo_dispatch p m).
Proof.
  assert (Hb : forall ar, base (save_arg p) (restore_arg p) (teb_reg p) (demo_dispatch p m) ar
    = match ar with Save => 0x100000 + 640 | Rest => 0x100000 | Tib => 0x30000 end)
    by (intros []; by destruct p).
  split.
  - unfold apart, area_size. split; [|split].
    + intros ar. rewrite Hb. destruct ar; lia.
    + intros ar Hne. rewrite Hb. by destruct ar.
    + intros a1 a2 Hne. rewrite !Hb. destruct a1, a2; lia || done.
  - exact (Hb Rest).
  - exact (Hb Save).
  - intros b Hin. pose proof (Hb Tib) as E. cbn [base] in E. rewrite E. unfold area_size. lia.
  - done.
Qed.

Lemma spawn_enters_fiber_witness : exists s',
  switch demo_pac demo_auth 0x7000 (listing aarch64_hardened CrossThreadFloat)
    (demo_dispatch aarch64_hardened
      (fb_mem (spawn demo_pac aarch64_hardened 0x4000 0x5000 0x100000 65536 1536
        CrossThreadFloat IO P2PMesh Any 3 0 [1; 2; 3] (2 ^ 3) 0x900000 demo_fiber)))
  = Some (0x4000, s') /\ regs s' Sp mod 16 = 0 /\ mem s' (0x100000 - 8 + 1) = 2.
Proof.
  destruct (spawn_enters_fiber demo_pac demo_auth 0x7000 aarch64_hardened 0x4000 0x5000 0x100000
    65536 1536 CrossThreadFloat IO P2PMesh Any 3 0 [1; 2; 3] 3 0x900000 demo_fiber
    (demo_dispatch aarch64_hardened
      (fb_mem (spawn demo_pac aarch64_hardened 0x4000 0x5000 0x100000 65536 1536
        CrossThreadFloat IO P2PMesh Any 3 0 [1; 2; 3] (2 ^ 3) 0x900000 demo_fiber))))
    as (s' & H1 & H2 & _ & _ & H5 & H6).
  - apply cs_demo_pac_works.
  - lia.
  - lia.
  - unfold is_word. lia.
  - split; done.
  - simpl. lia.
  - lia.
  - simpl. lia.
  - done.
  - apply fi_demo_dispatches.
  - exists s'. split; [exact H1|]. split; [by rewrite Z.add_0_r in H2|].
    destruct H5 as (_ & _ & H5); [apply H6; simpl; lia|]. by apply (H5 1%nat).
Defined.

(** ** The other launching functions *)

(** The launching functions of the C interface. *)
Inductive ffi_call : Type :=
| Launch
| LaunchCleanup (cleanup : Z)
| LaunchExt (topology : TopologyMode) (options : option spawn_options)
| LaunchCleanupExt (topology : TopologyMode) (cleanup : Z) (options : option spawn_options).

Definition ffi_launch (p : platform) (entry ab ctx_ptr slot : Z) (call : ffi_call)
    (core id func arg : Z) (f : fiber) : fiber :=
  match call with
  | Launch => dtact_fiber_launch p entry ab ctx_ptr slot core id func arg f
  | LaunchCleanup cl =>
      dtact_fiber_launch_with_cleanup p entry ab ctx_ptr slot core id func arg cl f
  | LaunchExt t o => dtact_fiber_launch_ext p entry ab ctx_ptr slot t core id func arg o f
  | LaunchCleanupExt t cl o =>
      dtact_fiber_launch_with_cleanup_ext p entry ab ctx_ptr slot t core id func arg cl o f
  end.

Lemma fi_ffi_mem p entry ab ctx_ptr slot call core id func arg f :
  fb_mem (ffi_launch p entry ab ctx_ptr slot call core id func arg f)
  = ffi_boot p entry ab ctx_ptr slot (fb_mem f).
Proof. by destruct call. Qed.

Lemma fi_load_poison p ab top m m' :
  is_x86 p = true -> is_word 64 ab ->
  (forall b, top <= b < top + 8 -> m' b = poison p ab top m b) -> load_bytes 8 top m' = ab.
Proof.
  intros Hx Hab H. rewrite <- (Z.mod_small ab (2 ^ 64)) by done.
  change (2 ^ 64) with (256 ^ Z.of_nat 8). rewrite <- (mc_load_store_same 8 top ab m).
  apply mc_load_ext. intros b Hb. rewrite H by lia. unfold poison. by rewrite Hx.
Qed.

Lemma fi_ffi_stack_top p ctx_ptr c :
  pool_context ctx_ptr c ->
  ffi_stack_top p ctx_ptr = ctx_ptr - (if is_x86 p then 72 else 80) /\
  (ffi_stack_top p ctx_ptr + (if is_x86 p then 8 else 0)) mod 16 = 0.
Proof.
  intros [Ha Hlo Hhi _]. unfold ffi_stack_top, wsub, wrap. rewrite fi_align_16.
  assert (H16 : ctx_ptr mod 16 = 0).
  { rewrite (Z.div_mod ctx_ptr 64), Ha by lia.
    replace (64 * (ctx_ptr / 64) + 0) with (4 * (ctx_ptr / 64) * 16) by lia. by apply Z.mod_mul. }
  rewrite H16, Z.sub_0_r. rewrite Z.mod_small by (destruct (is_x86 p); lia). split; [done|].
  destruct (is_x86 p).
  - replace (ctx_ptr - 72 + 8) with (ctx_ptr + (-4) * 16) by lia. by rewrite Z.mod_add.
  - replace (ctx_ptr - 80 + 0) with (ctx_ptr + (-5) * 16) by lia. by rewrite Z.mod_add.
Qed.

(** The four [dtact_fiber_launch*] functions: on the targets whose
    routines do not sign the link register, the first switch with the routine they chose enters
    [fiber_entry_point] on an aligned stack pointer 72 (x86) or 80 bytes
    below the context, above the abort routine's address on x86.  On the
    targets that authenticate (AArch64 hardened, macOS, Windows) they store
    the entry point unsigned: when the hardware rejects it, the first switch
    faults. *)
Theorem ffi_launch_first_switch (pac : Z -> Z -> Z) (auth : Z -> Z -> option Z) (label : Z)
    (p : platform) (entry ab ctx_ptr slot : Z) (call : ffi_call) (core id func arg : Z)
    (f : fiber) (s : machine) :
  is_word 64 entry -> entry <> label -> is_word 64 ab -> pool_context ctx_ptr (fb_ctx f) ->
  let f' := ffi_launch p entry ab ctx_ptr slot call core id func arg f in
  let sw := switch_fn (fb_ctx f') in
  let top := ffi_stack_top p ctx_ptr in
  mxcsr_ok p sw ctx_ptr (fb_mem f) -> dispatches p ctx_ptr (fb_mem f') s ->
  (authenticates p = true -> auth entry top = None ->
     switch pac auth label (listing p sw) s = None) /\
  (authenticates p = false ->
     exists s', switch pac auth label (listing p sw) s = Some (entry, s') /\
       regs s' Sp = top /\ top = ctx_ptr - (if is_x86 p then 72 else 80) /\
       (top + (if is_x86 p then 8 else 0)) mod 16 = 0 /\
       (is_x86 p = true -> load_bytes 8 top (mem s') = ab)).
Proof.
  intros Hen Hnl Hab Hctx f' sw top Hmx Hdi. subst f'. rewrite fi_ffi_mem in Hdi.
  destruct (fi_ffi_stack_top p ctx_ptr (fb_ctx f) Hctx) as [Htop Hal]. fold top in Htop, Hal.
  pose proof (pc_low _ _ Hctx). pose proof (pc_high _ _ Hctx).
  assert (Hw : is_word 64 top) by (rewrite Htop; unfold is_word; destruct (is_x86 p); lia).
  assert (Hm0 : forall b, ctx_ptr <= b -> poison p ab top (fb_mem f) b = fb_mem f b).
  { intros b Hb. apply fi_poison_frame. intros Hx. rewrite Hx in Htop. lia. }
  pose proof (fi_first_switch pac auth label p sw ctx_ptr (poison p ab top (fb_mem f))
    entry top ctx_ptr (sat_sub ctx_ptr slot) U64_MAX s Hen Hw) as He.
  assert (Hmx' : mxcsr_ok p sw ctx_ptr (poison p ab top (fb_mem f))).
  { intros Hl. rewrite (mc_load_ext 4 _ _ (fb_mem f)); [by apply Hmx|].
    intros b Hb. apply Hm0. destruct p; simpl in Hb; lia. }
  specialize (He Hmx' Hdi). split; intros Hau; rewrite Hau in He.
  - intros Hno. rewrite Hno in He. by apply He.
  - destruct He as (s' & Hsw & E1 & _ & E3); [congruence|].
    exists s'. split_and!; try done. intros Hx. eapply fi_load_poison; [done..|].
    intros b Hb. apply E3. rewrite Hx in Htop. lia.
Qed.

(** On macOS AArch64 with the demonstration signatures the first switch of a
    fiber launched from C faults; on x86-64 it enters the fiber. *)
Lemma ffi_launch_first_switch_witness :
  let f' p := ffi_launch p 0x4000 0x5000 0x100000 65536 Launch 0 0 0x6000 0 demo_fiber in
  switch demo_pac demo_auth 0x7000 (listing aarch64_macos CrossThreadFloat)
    (demo_dispatch aarch64_macos (fb_mem (f' aarch64_macos))) = None /\
  exists s', switch demo_pac demo_auth 0x7000 (listing x86_64_unix CrossThreadFloat)
    (demo_dispatch x86_64_unix (fb_mem (f' x86_64_unix))) = Some (0x4000, s') /\
    regs s' Sp = 0x100000 - 72.
Proof.
  cbv zeta. split.
  - apply (ffi_launch_first_switch demo_pac demo_auth 0x7000 aarch64_macos 0x4000 0x5000
      0x100000 65536 Launch 0 0 0x6000 0 demo_fiber
      (demo_dispatch aarch64_macos (fb_mem (ffi_launch aarch64_macos 0x4000 0x5000
         0x100000 65536 Launch 0 0 0x6000 0 demo_fiber)))); try done.
    apply fi_demo_dispatches.
  - destruct (ffi_launch_first_switch demo_pac demo_auth 0x7000 x86_64_unix 0x4000 0x5000
      0x100000 65536 Launch 0 0 0x6000 0 demo_fiber
      (demo_dispatch x86_64_unix (fb_mem (ffi_launch x86_64_unix 0x4000 0x5000
         0x100000 65536 Launch 0 0 0x6000 0 demo_fiber)))) as [_ H]; try done.
    { apply fi_demo_dispatches. }
    destruct (H eq_refl) as (s' & H1 & H2 & H3 & _). exists s'. split; [exact H1|].
    by rewrite H2, H3.
Defined.

(** [fiber::spawn_with_stack] is right on x86-64 only.  On every target
    the first stack pointer is 8 below a multiple of 16: what an x86-64
    function expects at its entry, and misaligned for AArch64 and RISC-V.  And
    it signs the entry point on every AArch64 target, also where the routine
    does not authenticate: there the first switch jumps to the signed pointer. *)
Theorem with_stack_first_switch (pac : Z -> Z -> Z) (auth : Z -> Z -> option Z) (label : Z)
    (p : platform) (entry ab ctx_ptr slot csz core id : Z) (closure : list Z)
    (f : fiber) (s : machine) :
  pac_works pac auth -> 0 <= entry < 2 ^ 48 -> is_word 64 ab ->
  pool_context ctx_ptr (fb_ctx f) -> Z.of_nat (length closure) <= 8192 ->
  let f' := spawn_with_stack pac p entry ab ctx_ptr slot csz core id closure f in
  let top := with_stack_top (read_buffer_ptr (fb_ctx f)) in
  let target := if is_aarch64 p && negb (authenticates p) then pac entry top else entry in
  target <> label -> dispatches p ctx_ptr (fb_mem f') s ->
  exists s', switch pac auth label (listing p (switch_fn (fb_ctx f'))) s = Some (target, s') /\
    regs s' Sp = top /\ (top + 8) mod 16 = 0 /\ top + 72 = read_buffer_ptr (fb_ctx f) /\
    load_bytes 8 top (mem s') = ab /\
    forall i x, closure !! i = Some x -> mem s' (closure_ptr (fb_ctx f') + Z.of_nat i) = x.
Proof.
  intros Hpac Hen Hab Hctx Hlen f' top target Hnl Hdi.
  pose proof (pc_low _ _ Hctx). pose proof (pc_high _ _ Hctx).
  pose proof (pc_align _ _ Hctx) as Ha. pose proof (pc_buffer _ _ Hctx) as Hb.
  unfold f', spawn_with_stack in *. cbn [fb_ctx fb_mem closure_ptr switch_fn launch_ctx] in *.
  fold top in Hdi.
  assert (Hq : exists q, read_buffer_ptr (fb_ctx f) = q * 16).
  { exists (4 * (ctx_ptr / 64) - 512). rewrite Hb. pose proof (Z.div_mod ctx_ptr 64). lia. }
  destruct Hq as [q Hq]. set (bs := read_buffer_ptr (fb_ctx f)) in *.
  assert (Htop : top = bs - 72).
  { unfold top, with_stack_top, wsub, wrap. rewrite fi_align_16, Hq, Z.mod_mul by lia.
    rewrite Z.mod_small by lia. lia. }
  assert (Hw : is_word 64 top) by (unfold is_word; lia).
  assert (Hpw : is_word 64 (with_stack_pc pac p entry top)).
  { unfold with_stack_pc, is_word. destruct (is_aarch64 p); [apply Hpac | lia]. }
  set (m0 := store_bytes 8 top ab (write_bytes bs closure (fb_mem f))) in *.
  assert (Hmx : mxcsr_ok p SameThreadNoFloat ctx_ptr m0) by (intros Hl; by destruct p).
  pose proof (fi_first_switch pac auth label p SameThreadNoFloat ctx_ptr m0
    (with_stack_pc pac p entry top) top bs (slot_base ctx_ptr slot csz) 0 s Hpw Hw Hmx Hdi) as He.
  assert (Htgt : (if authenticates p then auth (with_stack_pc pac p entry top) top
                  else Some (with_stack_pc pac p entry top)) = Some target).
  { unfold with_stack_pc, target. destruct p; cbn [authenticates is_aarch64 andb negb]; try done;
      by apply Hpac. }
  rewrite Htgt in He. destruct He as (s' & Hsw & E1 & _ & E3); [congruence|].
  exists s'. split_and!; try done; try lia.
  - rewrite Htop, Hq. replace (q * 16 - 72 + 8) with ((q - 4) * 16) by lia. by apply Z.mod_mul.
  - rewrite <- (Z.mod_small ab (2 ^ 64)) by done. change (2 ^ 64) with (256 ^ Z.of_nat 8).
    rewrite <- (mc_load_store_same 8 top ab (write_bytes bs closure (fb_mem f))).
    apply mc_load_ext. intros b Hb'. apply E3. lia.
  - intros i x Hi. pose proof (lookup_lt_Some _ _ _ Hi). rewrite E3 by lia. unfold m0.
    rewrite mc_store_other by lia. by apply fi_write_bytes_lookup.
Qed.

Lemma with_stack_first_switch_witness :
  let f' := spawn_with_stack demo_pac aarch64_unix 0x4000 0x5000 0x100000 65536 1536 0 0 [7]
              demo_fiber in
  exists s', switch demo_pac demo_auth 0x7000 (listing aarch64_unix SameThreadNoFloat)
    (demo_dispatch aarch64_unix (fb_mem f')) = Some (demo_pac 0x4000 (0xFE000 - 72), s') /\
    demo_pac 0x4000 (0xFE000 - 72) <> 0x4000 /\ regs s' Sp = 0xFE000 - 72.
Proof.
  cbv zeta.
  destruct (with_stack_first_switch demo_pac demo_auth 0x7000 aarch64_unix 0x4000 0x5000 0x100000
    65536 1536 0 0 [7] demo_fiber
    (demo_dispatch aarch64_unix (fb_mem (spawn_with_stack demo_pac aarch64_unix 0x4000 0x5000
       0x100000 65536 1536 0 0 [7] demo_fiber)))) as (s' & H1 & H2 & H3 & H4 & _).
  - apply cs_demo_pac_works.
  - lia.
  - unfold is_word. lia.
  - split; done.
  - simpl. lia.
  - done.
  - apply fi_demo_dispatches.
  - exists s'. split; [exact H1|]. split; [done|]. rewrite H2. reflexivity.
Defined.

(** A fiber spawned with a floating-point switcher on x86-64 into a
    context that never ran starts with MXCSR zero - every SIMD floating-point
    exception unmasked (bits 7 to 12) - instead of the default 0x1F80: no
    launching function initialises the word that the routine loads. *)
Theorem fresh_fiber_unmasks_exceptions (pac : Z -> Z -> Z) (auth : Z -> Z -> option Z) (label : Z)
    (p : platform) (entry ab ctx_ptr slot : Z) (call : ffi_call) (core id func arg : Z)
    (f : fiber) (s : machine) :
  is_word 64 entry -> entry <> label -> is_word 64 ab -> pool_context ctx_ptr (fb_ctx f) ->
  (forall b, ctx_ptr <= b < ctx_ptr + REGS_SIZE -> fb_mem f b = 0) ->
  let f' := ffi_launch p entry ab ctx_ptr slot call core id func arg f in
  loads_mxcsr p (switch_fn (fb_ctx f')) = true -> dispatches p ctx_ptr (fb_mem f') s ->
  exists s', switch pac auth label (listing p (switch_fn (fb_ctx f'))) s = Some (entry, s') /\
    forall i, 7 <= i <= 12 -> Z.testbit (regs s' Mxcsr) i = false.
Proof.
  intros Hen Hnl Hab Hctx Hz f' Hl Hdi. subst f'. rewrite fi_ffi_mem in Hdi.
  destruct (fi_ffi_stack_top p ctx_ptr (fb_ctx f) Hctx) as [Htop Hal].
  pose proof (fi_loads_mxcsr_x86 _ _ Hl) as Hx. rewrite Hx in Htop.
  pose proof (pc_low _ _ Hctx). pose proof (pc_high _ _ Hctx).
  set (sw := switch_fn _) in *. set (top := ffi_stack_top p ctx_ptr) in *.
  assert (Hload : load_bytes 4 (ctx_ptr + mxcsr_off p) (poison p ab top (fb_mem f)) = 0).
  { rewrite (mc_load_ext 4 _ _ (fun _ => 0)); [done|]. intros b Hb.
    assert (ctx_ptr <= b < ctx_ptr + REGS_SIZE)
      by (unfold REGS_SIZE; destruct p; simpl in Hb; lia).
    rewrite fi_poison_frame by (intros _; lia). by apply Hz. }
  assert (Hw : is_word 64 top) by (unfold is_word; lia).
  pose proof (fi_first_switch pac auth label p sw ctx_ptr (poison p ab top (fb_mem f))
    entry top ctx_ptr (sat_sub ctx_ptr slot) U64_MAX s Hen Hw) as He.
  replace (authenticates p) with false in He by (by destruct p).
  destruct He as (s' & Hsw & _ & E2 & _); [intros _; rewrite Hload; lia|done|congruence|].
  exists s'. split; [done|]. intros i _. rewrite (E2 Hl), Hload. apply Z.bits_0.
Qed.

Lemma fresh_fiber_unmasks_exceptions_witness :
  let f' := ffi_launch x86_64_unix 0x4000 0x5000 0x100000 65536 Launch 0 0 0x6000 0 demo_fiber in
  exists s', switch demo_pac demo_auth 0x7000 (listing x86_64_unix CrossThreadFloat)
    (demo_dispatch x86_64_unix (fb_mem f')) = Some (0x4000, s') /\
    Z.testbit (regs s' Mxcsr) 12 = false.
Proof.
  cbv zeta.
  destruct (fresh_fiber_unmasks_exceptions demo_pac demo_auth 0x7000 x86_64_unix 0x4000 0x5000
    0x100000 65536 Launch 0 0 0x6000 0 demo_fiber
    (demo_dispatch x86_64_unix (fb_mem (ffi_launch x86_64_unix 0x4000 0x5000 0x100000 65536
       Launch 0 0 0x6000 0 demo_fiber)))) as (s' & H1 & H2).
  - unfold is_word. lia.
  - lia.
  - unfold is_word. lia.
  - split; done.
  - done.
  - done.
  - apply fi_demo_dispatches.
  - exists s'. split; [exact H1|]. apply H2. lia.
Defined.

(** ** Handles *)

Lemma fi_testbit_above x w n : 0 <= x < 2 ^ w -> 0 <= w <= n -> Z.testbit x n = false.
Proof.
  intros Hx Hn. destruct (decide (x = 0)) as [->|]; [apply Z.bits_0|].
  apply Z.bits_above_log2; [lia|]. apply Z.log2_lt_pow2; [lia|].
  assert (2 ^ w <= 2 ^ n) by (apply Z.pow_le_mono_r; lia). lia.
Qed.

(** Bit [n] of a packed word whose core field fits 16 bits. *)
Lemma fi_pack_bit ctx_id core gen n :
  is_word 32 ctx_id -> is_word 16 core -> 0 <= n < 64 ->
  Z.testbit (pack_handle ctx_id core gen) n =
    if n <? 32 then Z.testbit ctx_id n
    else if n <? 48 then Z.testbit core (n - 32)
    else if n <? 63 then Z.testbit gen (n - 48) else true.
Proof.
  intros Hc Hk Hn. unfold pack_handle, wrap.
  rewrite !Z.lor_spec, !Z.mod_pow2_bits_low, !Z.shiftl_spec, Z.pow2_bits_eqb by lia.
  rewrite Z.land_spec. change 0x7FFF with (Z.ones 15).
  destruct (Z.ltb_spec n 32).
  { rewrite (Z.testbit_neg_r core), (Z.testbit_neg_r gen) by lia.
    rewrite (proj2 (Z.eqb_neq 63 n)) by lia. by rewrite !orb_false_r. }
  rewrite (fi_testbit_above ctx_id 32) by (done || lia).
  destruct (Z.ltb_spec n 48).
  { rewrite (Z.testbit_neg_r gen), (proj2 (Z.eqb_neq 63 n)) by lia. by rewrite !orb_false_r. }
  rewrite (fi_testbit_above core 16) by (done || lia).
  destruct (Z.ltb_spec n 63).
  { rewrite Z.ones_spec_low, (proj2 (Z.eqb_neq 63 n)), andb_true_r by lia. by rewrite orb_false_r. }
  replace n with 63 by lia. rewrite orb_true_r. done.
Qed.

Lemma fi_pack_bit_high ctx_id core gen n :
  is_word 32 ctx_id -> 64 <= n -> Z.testbit (pack_handle ctx_id core gen) n = false.
Proof.
  intros Hc Hn. unfold pack_handle, wrap.
  rewrite !Z.lor_spec, !Z.mod_pow2_bits_high, Z.pow2_bits_eqb by lia.
  rewrite (fi_testbit_above ctx_id 32), (proj2 (Z.eqb_neq 63 n)) by (done || lia). done.
Qed.

Lemma fi_strip_bit h n : 0 <= n -> Z.testbit (strip_valid h) n = Z.testbit h n && negb (n =? 63).
Proof.
  intros Hn. unfold strip_valid. rewrite Z.land_spec, Z.lnot_spec, Z.pow2_bits_eqb by lia.
  by rewrite Z.eqb_sym.
Qed.

(** Taking a handle apart gives what was packed: [dtact_await] finds the
    context index and the low 15 bits of the generation (so it takes a
    context reused exactly a multiple of 32768 times since for the fiber it
    awaits), and [wake_waiter_handle] finds the worker and the index a
    waiting fiber registered. *)
Theorem handle_roundtrip (ctx_id core gen : Z) :
  is_word 32 ctx_id -> is_word 16 core -> 0 <= gen ->
  handle_ctx_id (pack_handle ctx_id core gen) = ctx_id /\
  handle_gen (pack_handle ctx_id core gen) = gen mod 2 ^ 15 /\
  wake_waiter_target (waiter_handle_of ctx_id core) = (core, ctx_id).
Proof.
  intros Hc Hk Hg.
  assert (Hid : forall h, (forall n, 0 <= n < 32 -> Z.testbit h n = Z.testbit ctx_id n) ->
    handle_ctx_id h = ctx_id).
  { intros h Hh. apply Z.bits_inj'. intros n Hn. unfold handle_ctx_id.
    change 0xFFFFFFFF with (Z.ones 32). rewrite Z.land_spec, fi_strip_bit by lia.
    destruct (decide (n < 32)).
    - rewrite Z.ones_spec_low, Hh by lia. rewrite (proj2 (Z.eqb_neq n 63)) by lia. by rewrite !andb_true_r.
    - rewrite Z.ones_spec_high by lia. rewrite andb_false_r. symmetry.
      apply (fi_testbit_above _ 32); [done|lia]. }
  assert (Hwait : waiter_handle_of ctx_id core = pack_handle ctx_id core 0).
  { unfold waiter_handle_of, pack_handle. cbn [Z.land Z.shiftl]. change (wrap 64 0) with 0.
    by rewrite Z.lor_0_r. }
  split; [|split].
  - apply Hid. intros n Hn. rewrite fi_pack_bit by (done || lia).
    by rewrite (proj2 (Z.ltb_lt n 32)) by lia.
  - apply Z.bits_inj'. intros n Hn. unfold handle_gen. change 0x7FFF with (Z.ones 15).
    rewrite Z.land_spec, Z.shiftr_spec by lia. destruct (decide (n < 15)).
    + rewrite Z.ones_spec_low, Z.mod_pow2_bits_low, fi_strip_bit, fi_pack_bit by (done || lia).
      rewrite (proj2 (Z.ltb_ge (n + 48) 32)), (proj2 (Z.ltb_ge (n + 48) 48)),
        (proj2 (Z.ltb_lt (n + 48) 63)), (proj2 (Z.eqb_neq (n + 48) 63)) by lia.
      rewrite !andb_true_r. f_equal. lia.
    + rewrite Z.ones_spec_high, Z.mod_pow2_bits_high by lia. apply andb_false_r.
  - rewrite Hwait. unfold wake_waiter_target. f_equal.
    + apply Z.bits_inj'. intros n Hn. rewrite Z.shiftr_spec, fi_strip_bit by lia.
      destruct (decide (n < 16)).
      * rewrite fi_pack_bit by (done || lia).
        rewrite (proj2 (Z.ltb_ge (n + 32) 32)), (proj2 (Z.ltb_lt (n + 32) 48)),
          (proj2 (Z.eqb_neq (n + 32) 63)), andb_true_r by lia. f_equal. lia.
      * rewrite (fi_testbit_above core 16) by (done || lia).
        destruct (decide (n + 32 < 63)).
        -- rewrite fi_pack_bit by (done || lia).
           rewrite (proj2 (Z.ltb_ge (n + 32) 32)), (proj2 (Z.ltb_ge (n + 32) 48)),
             (proj2 (Z.ltb_lt (n + 32) 63)), Z.bits_0 by lia. done.
        -- destruct (decide (n + 32 = 63)) as [E|]; [by rewrite E, andb_false_r|].
           by rewrite fi_pack_bit_high by (done || lia).
    + apply Hid. intros n Hn. rewrite fi_pack_bit by (done || lia).
      by rewrite (proj2 (Z.ltb_lt n 32)) by lia.
Qed.

Lemma handle_roundtrip_witness :
  handle_ctx_id (pack_handle 7 3 40000) = 7 /\ handle_gen (pack_handle 7 3 40000) = 7232.
Proof.
  destruct (handle_roundtrip 7 3 40000) as (H1 & H2 & _); [done..|].
  split; [exact H1|]. rewrite H2. reflexivity.
Defined.
