(* ===== verification/FiberLife.v ===== *)
(** * FiberLife: the life of a fiber

    The state word of a [FiberContext] and everyone who touches it, access by
    access: [wait_pinned], [wake_by_ref_impl] and the final part of
    [fiber_entry_point] (src/src/future_bridge.rs, src/src/api.rs), the
    part of [dispatch_loop] that follows a switch (src/src/dta_scheduler.rs),
    [awaken_fiber_by_index] and [backpressure_yield] (src/src/lib.rs).  One
    fiber, the worker that runs it, and any number of wakers.  Where a wake
    or a re-push puts the fiber is the scheduler's business: here a run-queue entry
    is a token.

    The second part is [dtact_await] (src/src/c_ffi.rs) between a waiting
    fiber and its target. *)

From S2P Require Import Prelude Types ModelCheck.

Module Life.

(** Program points of the code running on the fiber. *)
Inductive fiber_pc :=
| FEntry          (* not yet entered *)
| FLoad           (* [wait_pinned]: load the state *)
| FStore          (* store [Running] *)
| FPoll           (* poll the future *)
| FBackStore      (* backpressure inside a poll: store [Notified] *)
| FBackOff        (* switched away by backpressure *)
| FYieldStore     (* [fiber::yield_to] inside a poll: store [Suspending] *)
| FSpin           (* pending: poll again or give up *)
| FCas            (* [Running] to [Suspending] *)
| FOff            (* switched away by [wait_pinned] *)
| FFinish         (* [fiber_entry_point]: store [Finished] *)
| FLast           (* the last switch *)
| FGone           (* switched away for good *)
| FReturned.      (* resumed after the last switch: returns to [dtact_abort] *)

#[global] Instance fiber_pc_eq_dec : EqDecision fiber_pc.
Proof. solve_decision. Defined.

(** Program points of [dispatch_loop] with the fiber. *)
Inductive disp_pc :=
| DIdle
| DRun                        (* the fiber has the processor *)
| DLoad                       (* back: load the state *)
| DCas                        (* [Suspending] to [Yielded] *)
| DFinal (st : FiberStatus)   (* act on the final state *)
| DFree
| DPush.

#[global] Instance disp_pc_eq_dec : EqDecision disp_pc.
Proof. solve_decision. Defined.

(** [queued]: entries in run queues and mailboxes; [inflight]: calls of
    [wake_fiber] that have not enqueued yet; [note]: a wake since the last
    poll; [freed]: returns to the pool. *)
Record conf := mkConf {
  word : FiberStatus;
  fpc : fiber_pc;
  dpc : disp_pc;
  queued : nat;
  inflight : nat;
  note : bool;
  freed : nat
}.

#[global] Instance conf_eq_dec : EqDecision conf.
Proof. solve_decision. Defined.

Definition with_word (w : FiberStatus) (c : conf) : conf :=
  mkConf w (fpc c) (dpc c) (queued c) (inflight c) (note c) (freed c).
Definition with_fpc (p : fiber_pc) (c : conf) : conf :=
  mkConf (word c) p (dpc c) (queued c) (inflight c) (note c) (freed c).
Definition with_dpc (d : disp_pc) (c : conf) : conf :=
  mkConf (word c) (fpc c) d (queued c) (inflight c) (note c) (freed c).
Definition with_note (b : bool) (c : conf) : conf :=
  mkConf (word c) (fpc c) (dpc c) (queued c) (inflight c) b (freed c).
Definition enqueue (c : conf) : conf :=
  mkConf (word c) (fpc c) (dpc c) (S (queued c)) (inflight c) (note c) (freed c).

(** The switch back to the dispatcher. *)
Definition switch_out (p : fiber_pc) (c : conf) : conf := with_dpc DLoad (with_fpc p c).

(** What the fiber's code and the rest of the program do beyond the protocol:
    wakes after the fiber has stored [Finished], and calls of [fiber::yield_to]. *)
Record env := mkEnv { late : bool; yields : bool }.

(** One access of [wait_pinned] or of the end of [fiber_entry_point].  A poll
    may be ready or pending, or meet backpressure. *)
Definition fiber_step (e : env) (c : conf) : list conf :=
  match fpc c with
  | FLoad => [with_fpc (if bool_decide (word c = Running) then FPoll else FStore) c]
  | FStore => [with_fpc FPoll (with_word Running c)]
  | FPoll =>
      [with_fpc FFinish (with_note false c);
       with_fpc FSpin (with_note false c);
       with_fpc FBackStore c] ++ (if yields e then [with_fpc FYieldStore c] else [])
  | FBackStore => [switch_out FBackOff (with_word Notified c)]
  | FYieldStore => [switch_out FBackOff (with_word Suspending c)]
  | FSpin => [with_fpc FPoll c; with_fpc FCas c]
  | FCas =>
      if bool_decide (word c = Running)
      then [switch_out FOff (with_word Suspending c)]
      else [with_fpc FLoad c]
  | FFinish => [with_fpc FLast (with_word Finished c)]
  | FLast => [switch_out FGone c]
  | FEntry | FBackOff | FOff | FGone | FReturned => []
  end.

(** Where a switch into the fiber continues. *)
Definition resume_pc (p : fiber_pc) : fiber_pc :=
  match p with
  | FEntry | FOff => FLoad
  | FBackOff => FPoll
  | FGone => FReturned
  | _ => p
  end.

(** One access of [dispatch_loop].  Once the exchange to [Yielded] succeeded
    the dispatcher only compares local variables before it goes on to the next task: it
    is done with the fiber. *)
Definition dispatch_step (c : conf) : list conf :=
  match dpc c with
  | DIdle =>
      match queued c with
      | O => []
      | S q => [mkConf (word c) (resume_pc (fpc c)) DRun q (inflight c) (note c) (freed c)]
      end
  | DRun => []
  | DLoad => [with_dpc (if bool_decide (word c = Suspending) then DCas else DFinal (word c)) c]
  | DCas =>
      if bool_decide (word c = Suspending)
      then [with_dpc DIdle (with_word Yielded c)]
      else [with_dpc (DFinal (word c)) c]
  | DFinal Finished | DFinal Panicked => [with_dpc DFree c]
  | DFinal Notified => [with_dpc DPush c]
  | DFinal _ => [with_dpc DIdle c]
  | DFree =>
      [mkConf Initial (fpc c) DIdle (queued c) (inflight c) (note c) (S (freed c))]
  | DPush => [with_dpc DIdle (enqueue c)]
  end.

(** [wake_by_ref_impl] and [awaken_fiber_by_index]: the swap. *)
Definition wake (c : conf) : conf :=
  mkConf Notified (fpc c) (dpc c) (queued c)
    (if bool_decide (word c = Yielded) then S (inflight c) else inflight c) true (freed c).

(** The enqueue of a [wake_fiber] in flight. *)
Definition enqueue_step (c : conf) : list conf :=
  match inflight c with
  | O => []
  | S n => [mkConf (word c) (fpc c) (dpc c) (S (queued c)) n (note c) (freed c)]
  end.

Definition finished (c : conf) : bool :=
  match fpc c with FLast | FGone | FReturned => true | _ => false end.

Definition succs (e : env) (c : conf) : list conf :=
  (if bool_decide (dpc c = DRun) then fiber_step e c else []) ++
  dispatch_step c ++ enqueue_step c ++
  (if late e || negb (finished c) then [wake c] else []).

(** A spawned fiber: [Running], and the unconditional [wake_fiber] of spawn. *)
Definition spawned : conf := mkConf Running FEntry DIdle 0 1 false 0.

Definition protocol : env := mkEnv false false.
Definition unrestricted : env := mkEnv true true.

Definition all_states (e : env) : list conf := explore (succs e) 2000 [spawned] [spawned].

(** Someone is responsible for the fiber. *)
Definition owners (c : conf) : nat :=
  (queued c + inflight c + if bool_decide (dpc c = DIdle) then 0 else 1)%nat.

Definition life_ok (c : conf) : bool :=
  (owners c <=? 1)%nat
  && (if bool_decide (owners c = 0%nat)
      then if bool_decide (freed c = 0%nat)
           then bool_decide (word c = Yielded) && negb (note c)
           else bool_decide (freed c = 1%nat) && bool_decide (word c = Initial)
      else bool_decide (freed c = 0%nat))
  && bool_decide (fpc c <> FReturned).
End Life.



(** The state word is swapped without a guard, and that breaks the
    life of a fiber outside the protocol.  A waker used after the fiber has stored
    [Finished] turns [Finished] into [Notified]: the dispatcher
    re-enqueues the fiber instead of freeing it, and the next switch resumes it after its last
    one, where it returns into [dtact_abort].  And [fiber::yield_to], which stores
    [Suspending] over whatever is there, can erase a wake: the fiber is
    parked, unreferenced, with the wake unseen. *)
Theorem unguarded_state_breaks_life :
  (exists c, rtc (step_of (Life.succs (Life.mkEnv true false))) Life.spawned c /\
     Life.fpc c = Life.FReturned /\ Life.freed c = 0%nat) /\
  (exists c, rtc (step_of (Life.succs (Life.mkEnv false true))) Life.spawned c /\
     Life.owners c = 0%nat /\ Life.freed c = 0%nat /\ Life.word c = Yielded /\
     Life.note c = true).
Proof.
  split.
  - exists (Life.mkConf Notified Life.FReturned Life.DRun 0 0 true 0). split; [|done].
    apply (follow_reachable _ [0; 0; 0; 0; 0; 1; 0; 0; 0; 0; 0]%nat). exact eq_refl.
  - exists (Life.mkConf Yielded Life.FBackOff Life.DIdle 0 0 true 0). split; [|done].
    apply (follow_reachable _ [0; 0; 0; 4; 3; 0; 0; 0]%nat). exact eq_refl.
Qed.

(** ** Awaiting a fiber *)

Module Await.
Import Life.

(** Program points of [dtact_await]'s loop. *)
Inductive await_pc :=
| ASwap        (* own state to [Running] *)
| ACheck       (* is the target done? *)
| ARegister    (* swap the own handle into [waiter_handle] *)
| ARecheck
| AUnregister  (* take the own handle out again *)
| ACas         (* [Running] to [Suspending] *)
| AOff         (* switched away *)
| ADone.

#[global] Instance await_pc_eq_dec : EqDecision await_pc.
Proof. solve_decision. Defined.

(** A waiting fiber: its state word, its code, its dispatcher, its run-queue
    entries and enqueues in flight. *)
Record waiter := mkWaiter {
  w_word : FiberStatus;
  w_pc : await_pc;
  w_disp : disp_pc;
  w_tokens : nat
}.

#[global] Instance waiter_eq_dec : EqDecision waiter.
Proof. solve_decision. Defined.

(** Program points of the target: [fiber_entry_point] after the payload, its
    dispatcher, [free_context]. *)
Inductive target_pc :=
| TRun               (* running, then: store [Finished] *)
| TSwap              (* swap the handle out *)
| TWake (i : bool)   (* [wake_waiter_handle]: swap the waiter's state *)
| TEnqueue (i : bool)
| TReset             (* [free_context]: state to [Initial] *)
| TBump              (* generation + 1 *)
| TEnd.

#[global] Instance target_pc_eq_dec : EqDecision target_pc.
Proof. solve_decision. Defined.

(** The waiters are named [false] and [true]; [handle] is the target's
    [waiter_handle], [bumped] whether its generation has moved on. *)
Record conf := mkAwait {
  t_state : FiberStatus;
  bumped : bool;
  handle : option bool;
  t_pc : target_pc;
  w0 : waiter;
  w1 : waiter
}.

#[global] Instance conf_eq_dec : EqDecision conf.
Proof. solve_decision. Defined.

Definition get (i : bool) (c : conf) : waiter := if i then w1 c else w0 c.

Definition put (i : bool) (w : waiter) (c : conf) : conf :=
  if i then mkAwait (t_state c) (bumped c) (handle c) (t_pc c) (w0 c) w
  else mkAwait (t_state c) (bumped c) (handle c) (t_pc c) w (w1 c).

Definition set_handle (h : option bool) (c : conf) : conf :=
  mkAwait (t_state c) (bumped c) h (t_pc c) (w0 c) (w1 c).

(** Generation moved on, [Finished], or [Initial].  The code loads the
    generation, then the state; as the generation only moves on after the state is
    [Initial], the answer is the one at the second load. *)
Definition target_done (c : conf) : bool :=
  bumped c || bool_decide (t_state c = Finished) || bool_decide (t_state c = Initial).

Definition with_pc (p : await_pc) (w : waiter) : waiter :=
  mkWaiter (w_word w) p (w_disp w) (w_tokens w).

(** One access of [dtact_await] on waiter [i]. *)
Definition await_step (i : bool) (c : conf) : list conf :=
  let w := get i c in
  match w_pc w with
  | ASwap => [put i (mkWaiter Running ACheck (w_disp w) (w_tokens w)) c]
  | ACheck => [put i (with_pc (if target_done c then ADone else ARegister) w) c]
  | ARegister => [set_handle (Some i) (put i (with_pc ARecheck w) c)]
  | ARecheck => [put i (with_pc (if target_done c then AUnregister else ACas) w) c]
  | AUnregister =>
      let c' := put i (with_pc ADone w) c in
      [if bool_decide (handle c = Some i) then set_handle None c' else c']
  | ACas =>
      if bool_decide (w_word w = Running)
      then [put i (mkWaiter Suspending AOff DLoad (w_tokens w)) c]
      else [put i (with_pc ASwap w) c]
  | AOff | ADone => []
  end.

(** The waiter's dispatcher, as in [Life.dispatch_step]. *)
Definition waiter_disp_step (w : waiter) : list waiter :=
  match w_disp w with
  | DIdle =>
      match w_tokens w with
      | O => []
      | S n => [mkWaiter (w_word w) (match w_pc w with AOff => ASwap | p => p end) DRun n]
      end
  | DLoad =>
      [mkWaiter (w_word w) (w_pc w)
         (if bool_decide (w_word w = Suspending) then DCas else DFinal (w_word w)) (w_tokens w)]
  | DCas =>
      if bool_decide (w_word w = Suspending)
      then [mkWaiter Yielded (w_pc w) DIdle (w_tokens w)]
      else [mkWaiter (w_word w) (w_pc w) (DFinal (w_word w)) (w_tokens w)]
  | DFinal Notified => [mkWaiter (w_word w) (w_pc w) DPush (w_tokens w)]
  | DFinal _ => [mkWaiter (w_word w) (w_pc w) DIdle (w_tokens w)]
  | DPush => [mkWaiter (w_word w) (w_pc w) DIdle (S (w_tokens w))]
  | DRun | DFree => []
  end.

Definition set_target (st : FiberStatus) (b : bool) (p : target_pc) (c : conf) : conf :=
  mkAwait st b (handle c) p (w0 c) (w1 c).

(** One access on the target's side. *)
Definition target_step (c : conf) : list conf :=
  match t_pc c with
  | TRun => [set_target Finished (bumped c) TSwap c]
  | TSwap =>
      [set_handle None (set_target (t_state c) (bumped c)
         (match handle c with Some i => TWake i | None => TReset end) c)]
  | TWake i =>
      let w := get i c in
      let c' := put i (mkWaiter Notified (w_pc w) (w_disp w) (w_tokens w)) c in
      [set_target (t_state c) (bumped c)
         (if bool_decide (w_word w = Yielded) then TEnqueue i else TReset) c']
  | TEnqueue i =>
      let w := get i c in
      [set_target (t_state c) (bumped c) TReset
         (put i (mkWaiter (w_word w) (w_pc w) (w_disp w) (S (w_tokens w))) c)]
  | TReset => [set_target Initial (bumped c) TBump c]
  | TBump => [set_target (t_state c) true TEnd c]
  | TEnd => []
  end.

Definition waiter_step (i : bool) (c : conf) : list conf :=
  (if bool_decide (w_disp (get i c) = DRun) then await_step i c else []) ++
  ((fun w => put i w c) <$> waiter_disp_step (get i c)).

Definition succs (c : conf) : list conf :=
  target_step c ++ waiter_step false c ++ waiter_step true c.

(** A fiber about to await, and one that does not. *)
Definition awaiting : waiter := mkWaiter Running ASwap DRun 0.
Definition elsewhere : waiter := mkWaiter Running ADone DRun 0.

Definition start (second : waiter) : conf := mkAwait Running false None TRun awaiting second.

Definition all_states : list conf :=
  explore succs 5000 [start elsewhere] [start elsewhere].

Definition parked (w : waiter) : bool :=
  bool_decide (w_pc w = AOff) && bool_decide (w_disp w = DIdle) && bool_decide (w_tokens w = 0%nat).

(** A parked waiter is registered with a target that has yet to take the
    handle, or is about to be enqueued; and the waiter ends only when the target is done. *)
Definition await_ok (c : conf) : bool :=
  (if parked (w0 c)
   then (bool_decide (handle c = Some false) &&
         (bool_decide (t_pc c = TRun) || bool_decide (t_pc c = TSwap)))
        || bool_decide (t_pc c = TWake false) || bool_decide (t_pc c = TEnqueue false)
   else true)
  && (if bool_decide (w_pc (w0 c) = ADone) then target_done c else true)
  && (match succs c with [] => bool_decide (w_pc (w0 c) = ADone) | _ => true end).
End Await.

(** One fiber awaiting another is always woken: in every interleaving
    of [dtact_await] with the target's completion, its return to the pool and
    both dispatchers, a parked waiter is registered with a target that has
    not taken the handle yet, or is being woken; await returns only once the
    target is done; and no execution ends before it has returned. *)
Theorem await_wakes_single_waiter (c : Await.conf) :
  rtc (step_of Await.succs) (Await.start Await.elsewhere) c ->
  (Await.parked (Await.w0 c) = true ->
     (Await.handle c = Some false /\ (Await.t_pc c = Await.TRun \/ Await.t_pc c = Await.TSwap)) \/
     Await.t_pc c = Await.TWake false \/ Await.t_pc c = Await.TEnqueue false) /\
  (Await.w_pc (Await.w0 c) = Await.ADone -> Await.target_done c = true) /\
  (Await.succs c = [] -> Await.w_pc (Await.w0 c) = Await.ADone).
Proof.
  intros Hr. assert (Hok : Await.await_ok c = true).
  { revert c Hr. apply (checked_reachable Await.succs _ Await.all_states Await.await_ok);
      exact eq_refl. }
  unfold Await.await_ok in Hok. apply andb_true_iff in Hok as [Hok H3].
  apply andb_true_iff in Hok as [H1 H2]. split; [|split].
  - intros Hp. rewrite Hp in H1. rewrite !orb_true_iff, andb_true_iff, orb_true_iff in H1.
    rewrite !bool_decide_eq_true in H1. tauto.
  - intros Hd. by rewrite bool_decide_eq_true_2 in H2.
  - intros Hs. rewrite Hs in H3. by bool_prop.
Qed.

(** The waiter has registered and parked before the target finishes. *)
Lemma await_wakes_single_waiter_witness : exists c,
  rtc (step_of Await.succs) (Await.start Await.elsewhere) c /\
  Await.parked (Await.w0 c) = true /\ Await.handle c = Some false.
Proof.
  set (c := Await.mkAwait Running false (Some false) Await.TRun
    (Await.mkWaiter Yielded Await.AOff Life.DIdle 0) Await.elsewhere).
  assert (Hr : rtc (step_of Await.succs) (Await.start Await.elsewhere) c)
    by (apply (follow_reachable _ [1; 1; 1; 1; 1; 1; 1]%nat); exact eq_refl).
  exists c. split; [done|]. split; [done|].
  destruct (await_wakes_single_waiter c Hr) as (H & _).
  destruct (H eq_refl) as [[Hh _]|[Hf|Hf]]; [exact Hh|discriminate Hf..].
Defined.

(** [waiter_handle] has room for one waiter.  When two fibers await the
    same target, the second registration overwrites the first: there is an
    execution that ends with the target finished and freed, the second
    waiter back, and the first one parked, unregistered, for good. *)
Theorem await_second_waiter_displaces_first :
  exists c, rtc (step_of Await.succs) (Await.start Await.awaiting) c /\
    Await.t_pc c = Await.TEnd /\ Await.w_pc (Await.w1 c) = Await.ADone /\
    Await.parked (Await.w0 c) = true /\ Await.handle c = None /\ Await.succs c = [].
Proof.
  exists (Await.mkAwait Initial true None Await.TEnd
    (Await.mkWaiter Yielded Await.AOff Life.DIdle 0)
    (Await.mkWaiter Running Await.ADone Life.DRun 0)).
  split; [|done].
  apply (follow_reachable _ [1; 1; 2; 1; 2; 1; 0; 2; 2; 2; 1; 1; 0; 1; 0; 0]%nat).
  exact eq_refl.
Qed.
