(* ===== verification/Waiting.v ===== *)
(** * Waiting

    How code blocks: [wait] and [wait_pinned] of src/src/future_bridge.rs with their adaptive spinning, the host thread's
    path of [dtact_await] (src/src/c_ffi.rs), and the wait of [SpawnBuilder::spawn] for a free context (src/src/api.rs).

    The future with the rest of the world is a parameter.  A poll tells besides its answer whether a wake has
    reached the fiber's state word since the last access, from the future itself or from elsewhere; the interleaving of single accesses
    is in FiberLife.v.  [gap] is the time between the last poll and the compare-exchange, [away] the time the fiber is switched
    away, which a wake ends. *)

From S2P Require Import Prelude Types.

Module Waiting.

(** The fields of [FiberContext] used here. *)
Record fiber := mkFiber {
  state : FiberStatus;
  adaptive_spin_count : Z;
  spin_failure_count : Z;
  last_os_thread_id : Z
}.

Definition with_state (s : FiberStatus) (c : fiber) : fiber :=
  mkFiber s (adaptive_spin_count c) (spin_failure_count c) (last_os_thread_id c).
Definition with_budget (spins failures : Z) (c : fiber) : fiber := mkFiber (state c) spins failures (last_os_thread_id c).
Definition with_thread (tid : Z) (c : fiber) : fiber :=
  mkFiber (state c) (adaptive_spin_count c) (spin_failure_count c) tid.

(** The swap of a waker. *)
Definition noted (woken : bool) (c : fiber) : fiber := if woken then with_state Notified c else c.

Section wait.
Context {X W : Type} (poll : W -> Poll X * bool * W) (gap : W -> bool * W) (away : W -> W).

(** The worlds in which the future was polled and the fiber switched away. *)
Inductive event := Polled (w : W) | Switched (w : W).

(** The test for a poll in the spin loop, [i.trailing_zeros() >= 3 || i == current_spin - 1]. *)
Definition sparse (i current : Z) : bool := (3 <=? trailing_zeros 32 i) || (i =? current - 1).

Fixpoint spin (todo : nat) (i current failures : Z) (c : fiber) (w : W) : option X * fiber * W * list event :=
  match todo with
  | O => (None, c, w, [])
  | S todo' =>
      if sparse i current then
        match poll w with
        | (Ready x, b, w1) =>
            (Some x, with_budget (Z.min (current + 2) 200) (sat_sub failures 1) (noted b c), w1, [Polled w])
        | (Pending, b, w1) =>
            let '(o, c', w', l) := spin todo' (i + 1) current failures (noted b c) w1 in (o, c', w', Polled w :: l)
        end
      else spin todo' (i + 1) current failures c w
  end.

Fixpoint wait_pinned (fuel : nat) (c : fiber) (w : W) : outcome (X * fiber * W * list event) :=
  match fuel with
  | O => OutOfFuel
  | S fuel' =>
      let c := if bool_decide (state c = Running) then c else with_state Running c in
      match poll w with
      | (Ready x, b, w1) =>
          let c := noted b c in
          Done (x, with_budget (Z.min (adaptive_spin_count c + 1) 200) (sat_sub (spin_failure_count c) 1) c, w1, [Polled w])
      | (Pending, b, w1) =>
          let c := noted b c in
          let current := adaptive_spin_count c in
          let failures := spin_failure_count c in
          let '(o, c, w2, l) :=
            if failures <? 10 then spin (Z.to_nat current) 0 current failures c w1 else (None, c, w1, []) in
          match o with
          | Some x => Done (x, c, w2, Polled w :: l)
          | None =>
              let c := with_budget (Z.max (sat_sub current 5) 5) (sat_add 32 failures 1) c in
              let '(b, w3) := gap w2 in
              let c := noted b c in
              let '(c, w4, l') :=
                if bool_decide (state c = Running)
                then (with_state Notified c, away w3, [Switched w3])
                else (c, w3, []) in
              '(x, c', w', l'') ← wait_pinned fuel' c w4;
              Done (x, c', w', Polled w :: l ++ l' ++ l'')
          end
      end
  end.

(** [wait]: the fiber of this thread, if there is one, and the thread's identifier. *)
Definition wait (fuel : nat) (current : option fiber) (tid : Z) (w : W) : outcome (X * fiber * W * list event) :=
  match current with
  | None => Panic
  | Some c =>
      if last_os_thread_id c =? 0 then wait_pinned fuel (with_thread tid c) w
      else if negb (last_os_thread_id c =? tid) then Panic
      else wait_pinned fuel c w
  end.

(** The future is ready by its [n]-th poll, whatever passes between polls. *)
Fixpoint soon (n : nat) (w : W) : Prop :=
  match n with
  | O => False
  | S n' =>
      match poll w with
      | (Ready _, _, _) => True
      | (Pending, _, w1) => soon n' w1 /\ soon n' (gap w1).2 /\ soon n' (away (gap w1).2)
      end
  end.

Definition pending (e : event) : Prop := match e with Polled w => (poll w).1.1 = Pending | Switched _ => True end.

(** A log of a wait that returned [x]: the last event is the first poll that was ready. *)
Definition ends_ready (x : X) (l : list event) : Prop :=
  exists l0 w, l = l0 ++ [Polled w] /\ Forall pending l0 /\ (poll w).1.1 = Ready x.

(** No switch hides a wake: the poll just before it found nothing, and no wake came before it, in it or after it. *)
Fixpoint quiet (last : option W) (l : list event) : Prop :=
  match l with
  | [] => True
  | Polled v :: l' => quiet (Some v) l'
  | Switched w :: l' =>
      (exists v u, last = Some v /\ poll v = (Pending, false, u) /\ gap u = (false, w)) /\ quiet None l'
  end.

(** ** Spinning *)

Lemma tz_multiple i : 0 <= i -> (3 <=? trailing_zeros 32 i) = (i mod 8 =? 0).
Proof.
  intros Hi. destruct i as [|p|p]; [done| |lia]. unfold trailing_zeros.
  assert (Hnn : forall q, 0 <= pos_trailing_zeros q) by (induction q; simpl; lia).
  destruct p as [p|p|]; [| |done]; simpl pos_trailing_zeros.
  - symmetry. apply Z.eqb_neq. rewrite Pos2Z.inj_xI. intros H. apply Z.mod_divide in H as [k Hk]; lia.
  - destruct p as [p|p|]; simpl pos_trailing_zeros; [| |done].
    + symmetry. apply Z.eqb_neq. intros H. apply Z.mod_divide in H as [k Hk]; lia.
    + destruct p as [p|p|]; simpl pos_trailing_zeros; [| |done].
      * symmetry. apply Z.eqb_neq. intros H. apply Z.mod_divide in H as [k Hk]; lia.
      * specialize (Hnn p). replace (Z.pos p~0~0~0) with (Z.pos p * 8) by lia. rewrite Z.mod_mul by lia. lia.
Qed.

Lemma soon_more n w : soon n w -> soon (S n) w.
Proof.
  revert w. induction n as [|n IH]; intros w; [done|]. intros H. change (soon (S (S n)) w) with
    (match poll w with
     | (Ready _, _, _) => True
     | (Pending, _, w1) => soon (S n) w1 /\ soon (S n) (gap w1).2 /\ soon (S n) (away (gap w1).2)
     end).
  simpl in H. destruct (poll w) as [[[x |] b] w1]; [done|]. destruct H as (H1 & H2 & H3). auto using IH.
Qed.

Lemma soon_pending n w b w1 :
  soon (S n) w -> poll w = (Pending, b, w1) -> soon n w1 /\ soon n (gap w1).2 /\ soon n (away (gap w1).2).
Proof. intros H Hp. simpl in H. by rewrite Hp in H. Qed.

(** All that a spin does. *)
Lemma spin_spec todo i current failures c w o c' w' l :
  spin todo i current failures c w = (o, c', w', l) ->
  Forall (fun e => exists v, e = Polled v) l /\
  match o with
  | Some x => ends_ready x l /\ adaptive_spin_count c' = Z.min (current + 2) 200 /\
      spin_failure_count c' = sat_sub failures 1
  | None => Forall pending l /\ (state c' = Running -> state c = Running /\
      ((l = [] /\ w' = w) \/ exists l0 v, l = l0 ++ [Polled v] /\ poll v = (Pending, false, w')))
  end.
Proof.
  revert i c w o c' w' l. induction todo as [|todo IH]; intros i c w o c' w' l; simpl.
  - intros [= <- <- <- <-]. split; [constructor|]. split; [constructor|]. auto.
  - destruct (sparse i current); [|apply IH].
    destruct (poll w) as [[[x |] b] w1] eqn:Hp.
    + intros [= <- <- <- <-]. split; [by repeat econstructor|]. split; [|done].
      exists [], w. split; [done|]. split; [constructor|]. by rewrite Hp.
    + destruct (spin todo (i + 1) current failures (noted b c) w1) as [[[o1 c1] w2] l1] eqn:Hs.
      intros [= <- <- <- <-]. destruct (IH _ _ _ _ _ _ _ Hs) as [Hall Ho].
      split; [constructor; [by eexists|done]|]. assert (Hw : pending (Polled w)) by (unfold pending; by rewrite Hp).
      destruct o1 as [x|].
      * destruct Ho as ((l0 & v & -> & Hl & Hv) & Hb). split; [|done]. exists (Polled w :: l0), v. auto.
      * destruct Ho as [Hl Hq]. split; [by constructor|]. intros Hr. destruct (Hq Hr) as [Hc Hlast].
        destruct b; [done|]. split; [done|]. right. destruct Hlast as [[-> ->] | (l0 & v & -> & Hv)].
        -- by exists [], w.
        -- by exists (Polled w :: l0), v.
Qed.

Lemma spin_soon n todo i current failures c w c' w' l :
  soon n w -> soon n (gap w).2 /\ soon n (away (gap w).2) ->
  spin todo i current failures c w = (None, c', w', l) ->
  soon n w' /\ soon n (gap w').2 /\ soon n (away (gap w').2).
Proof.
  revert i c w c' w' l. induction todo as [|todo IH]; intros i c w c' w' l Hn Hg; simpl; [by intros [= <- <- <-]|].
  destruct (sparse i current); [|by apply IH].
  destruct (poll w) as [[[x |] b] w1] eqn:Hp; [done|].
  destruct (spin todo (i + 1) current failures (noted b c) w1) as [[[o1 c1] w2] l1] eqn:Hs. intros [= -> <- <- <-].
  destruct n as [|n]; [done|]. destruct (soon_pending _ _ _ _ Hn Hp) as (H1 & H2 & H3).
  eapply IH; [| |exact Hs]; auto using soon_more.
Qed.

(** Between two attempts to suspend a spin polls once in eight turns, and at the last. *)
Lemma spin_polls todo i current failures c w o c' w' l :
  0 <= i -> Z.of_nat todo = current - i ->
  spin todo i current failures c w = (o, c', w', l) ->
  Z.of_nat (length l) <= (current + 7) / 8 - (i + 7) / 8 + (if (i <? current) && negb ((current - 1) mod 8 =? 0) then 1 else 0).
Proof.
  revert i c w o c' w' l. induction todo as [|todo IH]; intros i c w o c' w' l Hi Ht; simpl.
  - intros [= <- <- <- <-]. replace i with current by lia. rewrite Z.ltb_irrefl. simpl. lia.
  - unfold sparse. rewrite tz_multiple by done.
    assert (Hstep : (i + 1 + 7) / 8 = (i + 7) / 8 + (if i mod 8 =? 0 then 1 else 0)).
    { pose proof (Z.div_mod i 8). pose proof (Z.mod_pos_bound i 8).
      destruct (Z.eqb_spec (i mod 8) 0).
      - replace (i + 1 + 7) with ((i / 8 + 1) * 8) by lia. rewrite Z.div_mul by lia.
        replace (i + 7) with (7 + i / 8 * 8) by lia. rewrite Z.div_add by lia. change (7 / 8) with 0. lia.
      - rewrite Z.add_0_r. symmetry. apply (Z.div_unique_pos _ _ _ (i mod 8)); [lia|].
        replace (i + 7) with (i mod 8 - 1 + (i / 8 + 1) * 8) by lia. rewrite Z.div_add by lia.
        rewrite (Z.div_small (i mod 8 - 1)) by lia. lia. }
    assert (Hcur : i <? current = true) by lia. rewrite Hcur. cbn [andb].
    assert (Hlast : i =? current - 1 = true -> todo = O) by lia.
    destruct ((i mod 8 =? 0) || (i =? current - 1)) eqn:Hsp.
    + destruct (poll w) as [[[x |] b] w1].
      * intros [= <- <- <- <-]. simpl. apply orb_true_iff in Hsp as [He | He].
        -- rewrite He in Hstep. assert ((i + 1 + 7) / 8 <= (current + 7) / 8) by (apply Z.div_le_mono; lia).
           destruct (negb _); lia.
        -- apply Z.eqb_eq in He. subst i. replace (current - 1 + 1 + 7) with (current + 7) in Hstep by lia.
           destruct ((current - 1) mod 8 =? 0); simpl; lia.
      * destruct (spin todo (i + 1) current failures (noted b c) w1) as [[[o1 c1] w2] l1] eqn:Hs.
        intros [= <- <- <- <-]. apply IH in Hs; [|lia..]. cbn [length].
        destruct (Z.eqb_spec (i mod 8) 0) as [He | He].
        -- assert (((i + 1 <? current) && negb ((current - 1) mod 8 =? 0) = true) -> negb ((current - 1) mod 8 =? 0) = true)
             by (intros H; by apply andb_true_iff in H as [_ ?]).
           destruct ((i + 1 <? current) && _), (negb ((current - 1) mod 8 =? 0)); lia || naive_solver.
        -- simpl in Hsp.
           replace (i + 1 <? current) with false in Hs by lia. simpl in Hs.
           apply Z.eqb_eq in Hsp. subst i. apply Z.eqb_neq in He. rewrite He. simpl. lia.
    + intros Hs. apply IH in Hs; [|lia..]. apply orb_false_iff in Hsp as [He Hl].
      rewrite He in Hstep. replace (i + 1 <? current) with true in Hs by lia. simpl in Hs. lia.
Qed.

Lemma quiet_none last l : quiet None l -> quiet last l.
Proof.
  revert last. induction l as [|[v | w] l IH]; intros last; simpl; [done|done|].
  intros [(v & u & ? & _) _]. done.
Qed.

Lemma quiet_polled last l l' :
  Forall (fun e => exists v, e = Polled v) l -> quiet None l' -> quiet last (l ++ l').
Proof.
  intros Hl Hq. revert last. induction Hl as [|e l [v ->] _ IH]; intros last; simpl; [by apply quiet_none | apply IH].
Qed.

Lemma quiet_switched last l v u w l' :
  Forall (fun e => exists v, e = Polled v) l -> poll v = (Pending, false, u) -> gap u = (false, w) -> quiet None l' ->
  quiet last ((l ++ [Polled v]) ++ Switched w :: l').
Proof.
  intros Hl Hv Hg Hq. revert last. induction Hl as [|e l [v' ->] _ IH]; intros last; simpl; [|apply IH].
  split; [|done]. by exists v, u.
Qed.

Lemma ends_ready_after x l l' : Forall pending l -> ends_ready x l' -> ends_ready x (l ++ l').
Proof.
  intros Hl (l0 & w & -> & Hl0 & Hw). exists (l ++ l0), w. split; [by rewrite app_assoc|]. split; [|done]. by apply Forall_app.
Qed.

(** The part of a round between the first poll and the attempt to suspend. *)
Lemma round_spec (b : bool) todo current failures c w o c' w' l :
  (if b then spin todo 0 current failures c w else (None, c, w, [])) = (o, c', w', l) ->
  Forall (fun e => exists v, e = Polled v) l /\
  match o with
  | Some x => ends_ready x l /\ adaptive_spin_count c' = Z.min (current + 2) 200 /\
      spin_failure_count c' = sat_sub failures 1
  | None => Forall pending l /\
      (forall n, soon n w -> soon n (gap w).2 -> soon n (away (gap w).2) ->
         soon n w' /\ soon n (gap w').2 /\ soon n (away (gap w').2)) /\
      (state c' = Running -> state c = Running /\
      ((l = [] /\ w' = w) \/ exists l0 v, l = l0 ++ [Polled v] /\ poll v = (Pending, false, w')))
  end.
Proof.
  destruct b; [|intros [= <- <- <- <-]; split; [constructor|]; split; [constructor|]; auto].
  intros Hs. destruct (spin_spec _ _ _ _ _ _ _ _ _ _ Hs) as [Hl Ho]. split; [done|].
  destruct o; [done|]. destruct Ho as [Hp Hq]. split; [done|]. split; [|done].
  intros n Hn Hg Ha. exact (spin_soon _ _ _ _ _ _ _ _ _ _ Hn (conj Hg Ha) Hs).
Qed.

(** C18.  Waiting for a future.  If the future is ready by its [n]-th poll, whatever time passes between polls, then
    [wait_pinned] returns within [n] rounds, whatever the spin budget: with the result of the first poll that is ready,
    never polling after it; never switching the fiber away when a wake has come in the last poll or since; and it
    leaves a budget of at most 200 turns. *)
Theorem wait_pinned_returns n c w :
  soon n w -> exists x c' w' l,
    wait_pinned n c w = Done (x, c', w', l) /\ ends_ready x l /\ quiet None l /\ adaptive_spin_count c' <= 200.
Proof.
  revert c w. induction n as [|n IH]; intros c w Hn; [done|]. cbn [wait_pinned].
  set (c0 := if bool_decide (state c = Running) then c else with_state Running c).
  destruct (poll w) as [[[x |] b] w1] eqn:Hp.
  - eexists _, _, _, _. split; [done|]. split; [|split; [done|simpl; lia]].
    exists [], w. split; [done|]. split; [constructor|]. by rewrite Hp.
  - destruct (soon_pending _ _ _ _ Hn Hp) as (H1 & H2 & H3). assert (Hpw : pending (Polled w)) by (unfold pending; by rewrite Hp).
    destruct (if _ <? 10 then _ else _) as [[[o c2] w2] l] eqn:Hr. apply round_spec in Hr as [Hl Ho].
    destruct o as [x|].
    + destruct Ho as (He & Ha & _). eexists _, _, _, _. split; [done|].
      split; [by apply (ends_ready_after _ [Polled w]); [constructor|]|]. split; [|lia].
      cbn [quiet]. rewrite <- (app_nil_r l). by apply quiet_polled.
    + destruct Ho as (Hpl & Hsoon & Hq). destruct (Hsoon n H1 H2 H3) as (S1 & S2 & S3).
      destruct (gap w2) as [b' w3] eqn:Hg. cbn [snd] in S2, S3.
      match goal with |- context [bool_decide (state ?c3 = Running)] => set (c4 := c3) end.
      case_bool_decide as Hrun.
      * destruct (IH (with_state Notified c4) (away w3) S3) as (x & c' & w' & l'' & -> & He & Hqq & Ha).
        eexists _, _, _, _. split; [done|]. split; [|split; [|done]].
        -- apply (ends_ready_after _ [Polled w]); [by constructor|]. apply ends_ready_after; [done|].
           apply (ends_ready_after _ [Switched w3]); [by constructor | done].
        -- destruct b'; [done|]. destruct (Hq Hrun) as [Hc Hlast]. destruct b; [done|].
           destruct Hlast as [[-> ->] | (l0 & v & -> & Hv)].
           ++ by apply (quiet_switched None [] w w1).
           ++ apply (quiet_switched None (Polled w :: l0) v w2); [|done..]. constructor; [by eexists|].
              by apply Forall_app in Hl as [? _].
      * destruct (IH c4 w3 S2) as (x & c' & w' & l'' & -> & He & Hqq & Ha).
        eexists _, _, _, _. split; [done|]. split; [|split; [|done]].
        -- apply (ends_ready_after _ [Polled w]); [by constructor|]. by apply ends_ready_after.
        -- cbn [quiet app]. by apply quiet_polled.
Qed.

Lemma spin_keeps_thread todo i current failures c w o c' w' l :
  spin todo i current failures c w = (o, c', w', l) -> last_os_thread_id c' = last_os_thread_id c.
Proof.
  revert i c w o c' w' l. induction todo as [|todo IH]; intros i c w o c' w' l; simpl; [by intros [= <- <- <- <-]|].
  destruct (sparse i current); [|apply IH]. destruct (poll w) as [[[x |] b] w1].
  - intros [= <- <- <- <-]. by destruct b.
  - destruct (spin todo (i + 1) current failures (noted b c) w1) as [[[o1 c1] w2] l1] eqn:Hs.
    intros [= <- <- <- <-]. rewrite (IH _ _ _ _ _ _ _ Hs). by destruct b.
Qed.

Lemma wait_keeps_thread n c w x c' w' l :
  wait_pinned n c w = Done (x, c', w', l) -> last_os_thread_id c' = last_os_thread_id c.
Proof.
  revert c w x c' w' l. induction n as [|n IH]; intros c w x c' w' l; [done|]. cbn [wait_pinned].
  set (c0 := if bool_decide (state c = Running) then c else with_state Running c).
  assert (H0 : last_os_thread_id c0 = last_os_thread_id c) by (unfold c0; by case_bool_decide).
  destruct (poll w) as [[[y |] b] w1].
  - intros [= <- <- <- <-]. rewrite <- H0. by destruct b.
  - destruct (if _ <? 10 then _ else _) as [[[o c2] w2] l2] eqn:Hr.
    assert (H2 : last_os_thread_id c2 = last_os_thread_id c).
    { destruct (_ <? 10); [apply spin_keeps_thread in Hr; rewrite Hr, <- H0 | simplify_eq; rewrite <- H0]; by destruct b. }
    destruct o as [y|]; [by intros [= <- <- <- <-]|]. destruct (gap w2) as [b' w3].
    case_bool_decide; intros Hd; apply outcome_bind_done in Hd as ([[[x1 c1] w4] l1] & Hw & Hd); simplify_eq;
      rewrite (IH _ _ _ _ _ _ Hw), <- H2; by destruct b'.
Qed.

(** A fiber that the scheduler has moved to another thread while it waited cannot wait again: [wait] panics, although
    cross-thread fibers are there to be moved. *)
Lemma second_wait_elsewhere_panics n m c t1 t2 w x c' w' l w2 :
  wait n (Some c) t1 w = Done (x, c', w', l) -> t1 <> 0 -> t1 <> t2 -> wait m (Some c') t2 w2 = Panic.
Proof.
  intros Hw H1 H2. assert (Ht : last_os_thread_id c' = t1).
  { unfold wait in Hw. destruct (last_os_thread_id c =? 0) eqn:E0.
    - by apply wait_keeps_thread in Hw.
    - destruct (Z.eqb_spec (last_os_thread_id c) t1) as [E1 | E1]; [|done]. simpl in Hw.
      apply wait_keeps_thread in Hw. congruence. }
  unfold wait. rewrite Ht. by rewrite (proj2 (Z.eqb_neq t1 0) H1), (proj2 (Z.eqb_neq t1 t2) H2).
Qed.

End wait.
Arguments event : clear implicits.

(** ** [yield_now] *)

(** [YieldNow], whose state is its flag: the first poll wakes the fiber and is pending. *)
Definition yield_poll (flag : bool) : Poll unit * bool * bool :=
  if flag then (Ready tt, false, flag) else (Pending, true, true).

(** [yield_now] is documented to yield to the scheduler.  It never does: the wake it gives itself keeps the fiber from being
    switched away, and its second poll, in the spin loop or in the next round, is ready.  Whatever the budget and whatever wakes
    come, the wait returns without a switch. *)
Lemma yield_now_never_switches late away c :
  exists c', exists l, wait_pinned yield_poll (fun w => (late, w)) away 2 c false = Done (tt, c', true, l) /\
    l = [Polled false; Polled true].
Proof.
  cbn [wait_pinned]. set (c0 := if bool_decide (state c = Running) then c else with_state Running c).
  unfold yield_poll at 1. cbv iota beta zeta. set (c1 := noted true c0).
  destruct (spin_failure_count c1 <? 10); [destruct (Z.to_nat (adaptive_spin_count c1)) as [|k] |]; simpl.
  2: { by eexists _, _. }
  all: destruct late; eexists _, _; split; reflexivity.
Qed.

(** ** The wait for a context in [SpawnBuilder::spawn] *)

Section alloc.
Context {W : Type} (alloc_context : W -> option Z * W) (os_yield away : W -> W).

(** On a host thread. *)
Fixpoint alloc_host (fuel : nat) (fixed_spins : Z) (w : W) : outcome (Z * W) :=
  match fuel with
  | O => OutOfFuel
  | S fuel' =>
      match alloc_context w with
      | (Some id, w1) => Done (id, w1)
      | (None, w1) =>
          if fixed_spins <? 8000 then
            let fixed_spins := fixed_spins + 1 in
            if 3 <=? trailing_zeros 32 fixed_spins then
              match alloc_context w1 with
              | (Some id, w2) => Done (id, w2)
              | (None, w2) => alloc_host fuel' fixed_spins w2
              end
            else alloc_host fuel' fixed_spins w1
          else alloc_host fuel' 4000 (os_yield w1)
      end
  end.

(** On a fiber. *)
Fixpoint alloc_spin (todo : nat) (i : Z) (w : W) : option Z * W :=
  match todo with
  | O => (None, w)
  | S todo' =>
      if 3 <=? trailing_zeros 32 i then
        match alloc_context w with (Some id, w1) => (Some id, w1) | (None, w1) => alloc_spin todo' (i + 1) w1 end
      else alloc_spin todo' (i + 1) w
  end.
Fixpoint alloc_fiber (fuel : nat) (c : fiber) (w : W) : outcome (Z * fiber * W) :=
  match fuel with
  | O => OutOfFuel
  | S fuel' =>
      match alloc_context w with
      | (Some id, w1) =>
          Done (id, with_budget (Z.min (adaptive_spin_count c + 1) 2000) (sat_sub (spin_failure_count c) 1) c, w1)
      | (None, w1) =>
          let current := adaptive_spin_count c in
          let failures := spin_failure_count c in
          let '(o, w2) := if failures <? 20 then alloc_spin (Z.to_nat current) 0 w1 else (None, w1) in
          match o with
          | Some id => Done (id, with_budget (Z.min (current + 2) 2000) (sat_sub failures 1) c, w2)
          | None =>
              let c := with_budget (Z.max (sat_sub current 100) 200) (sat_add 32 failures 1) c in
              alloc_fiber fuel' (with_state Notified c) (away w2)
          end
      end
  end.

(** A context becomes free by the [n]-th attempt, whatever passes between attempts. *)
Fixpoint frees (n : nat) (w : W) : Prop :=
  match n with
  | O => False
  | S n' =>
      match alloc_context w with
      | (Some _, _) => True
      | (None, w1) => frees n' w1 /\ frees n' (os_yield w1) /\ frees n' (away w1)
      end
  end.

Lemma frees_more n w : frees n w -> frees (S n) w.
Proof.
  revert w. induction n as [|n IH]; intros w; [done|]. intros H. change (frees (S (S n)) w) with
    (match alloc_context w with
     | (Some _, _) => True
     | (None, w1) => frees (S n) w1 /\ frees (S n) (os_yield w1) /\ frees (S n) (away w1)
     end).
  simpl in H. destruct (alloc_context w) as [[id |] w1]; [done|]. destruct H as (H1 & H2 & H3). auto using IH.
Qed.

Lemma frees_next n w w1 : frees (S n) w -> alloc_context w = (None, w1) -> frees n w1 /\ frees n (os_yield w1) /\ frees n (away w1).
Proof. intros H Ha. simpl in H. by rewrite Ha in H. Qed.

Lemma alloc_host_returns n k w :
  frees n w -> exists id w0 w', alloc_host n k w = Done (id, w') /\ alloc_context w0 = (Some id, w').
Proof.
  revert k w. induction n as [|n IH]; intros k w Hn; [done|]. simpl.
  destruct (alloc_context w) as [[id |] w1] eqn:Ha; [by eexists _, _, _|].
  destruct (frees_next _ _ _ Hn Ha) as (H1 & H2 & H3).
  destruct (k <? 8000); [|by apply IH]. destruct (3 <=? _); [|by apply IH].
  destruct (alloc_context w1) as [[id |] w2] eqn:Ha2; [by eexists _, _, _|].
  apply IH. destruct n; [done|]. apply frees_more. by destruct (frees_next _ _ _ H1 Ha2).
Qed.

Lemma alloc_spin_spec n todo i w o w' :
  alloc_spin todo i w = (o, w') -> frees n w -> frees n (away w) ->
  match o with Some id => exists w0, alloc_context w0 = (Some id, w') | None => frees n (away w') end.
Proof.
  revert i w. induction todo as [|todo IH]; intros i w; simpl; [by intros [= <- <-]|].
  destruct (3 <=? _); [|apply IH]. destruct (alloc_context w) as [[id |] w1] eqn:Ha.
  - intros [= <- <-] _ _. by exists w.
  - intros Hs Hn _. destruct n as [|n]; [done|]. destruct (frees_next _ _ _ Hn Ha) as (H1 & _ & H3).
    eapply IH; [exact Hs | by apply frees_more..].
Qed.

(** A spawn gets a context when one becomes free, on a fiber too; a fiber that has spawned may spin longer than waiting
    alone allows. *)
Lemma alloc_fiber_returns n c w :
  frees n w -> exists id c' w0 w', alloc_fiber n c w = Done (id, c', w') /\ alloc_context w0 = (Some id, w') /\
    adaptive_spin_count c' <= 2000.
Proof.
  revert c w. induction n as [|n IH]; intros c w Hn; [done|]. simpl.
  destruct (alloc_context w) as [[id |] w1] eqn:Ha.
  - eexists _, _, _, _. split; [done|]. split; [done|]. simpl. lia.
  - destruct (frees_next _ _ _ Hn Ha) as (H1 & _ & H3).
    destruct (if _ <? 20 then _ else _) as [o w2] eqn:Hs.
    assert (Ho : match o with Some id => exists w0, alloc_context w0 = (Some id, w2) | None => frees n (away w2) end).
    { destruct (_ <? 20); [by eapply alloc_spin_spec | by simplify_eq]. }
    destruct o as [id|]; [|by apply IH]. destruct Ho as [w0 Hw0].
    eexists _, _, w0, _. split; [done|]. split; [done|]. simpl. lia.
Qed.

End alloc.

(** ** [dtact_await] on a host thread *)

(** The life of the target's context: its generation and its state.  [free_context] stores [Initial] before it moves the
    generation on, and only then can the context be launched again. *)
Inductive target :=
| Live (gen : Z) (st : FiberStatus)
| Ended (gen : Z)
| Resetting (gen : Z)
| Free (gen : Z).
Definition generation (t : target) : Z := match t with Live g _ | Ended g | Resetting g | Free g => g end.
Definition status (t : target) : FiberStatus :=
  match t with Live _ st => st | Ended _ => Finished | Resetting _ | Free _ => Initial end.

Inductive target_step : target -> target -> Prop :=
| runs g st st' : st' <> Finished -> target_step (Live g st) (Live g st')
| ends g st : target_step (Live g st) (Ended g)
| resets g : target_step (Ended g) (Resetting g)
| bumps g : target_step (Resetting g) (Free (wadd 32 g 1))
| launches g : target_step (Free g) (Live g Running).

(** The generation as a handle stores it. *)
Definition tag (gen : Z) : Z := Z.land (wrap 16 gen) 0x7FFF.

(** The loads see the target as it is in turn: [seen n] at the [n]-th.  Returns the number of loads made, and how often the
    thread gave way. *)
Fixpoint host_await (fuel : nat) (seen : nat -> target) (handle_gen : Z) (n : nat) (spins yields : Z) : outcome (nat * Z) :=
  match fuel with
  | O => OutOfFuel
  | S fuel' =>
      let g1 := tag (generation (seen n)) in
      let st := status (seen (n + 1)%nat) in
      let g2 := tag (generation (seen (n + 2)%nat)) in
      if negb (g1 =? handle_gen) || negb (g2 =? handle_gen) then Done ((n + 3)%nat, yields)
      else if bool_decide (st = Finished) then Done ((n + 3)%nat, yields)
      else if spins <? 4000 then host_await fuel' seen handle_gen (n + 3) (spins + 1) yields
      else host_await fuel' seen handle_gen (n + 3) 2000 (yields + 1)
  end.

(** What [seen] is when the target goes on living between loads. *)
Definition observes (seen : nat -> target) : Prop := forall n, rtc target_step (seen n) (seen (S n)).

Definition alive (g : Z) (t : target) : Prop := match t with Live g' st => g' = g /\ st <> Finished | _ => False end.

Lemma host_await_done fuel seen hg n spins yields m y :
  host_await fuel seen hg n spins yields = Done (m, y) ->
  exists k, (n <= k)%nat /\ m = (k + 3)%nat /\
    (tag (generation (seen k)) <> hg \/ tag (generation (seen (k + 2)%nat)) <> hg \/ status (seen (k + 1)%nat) = Finished).
Proof.
  revert n spins yields. induction fuel as [|fuel IH]; intros n spins yields; [done|]. simpl.
  destruct (negb (tag (generation (seen n)) =? hg) || negb (tag (generation (seen (n + 2)%nat)) =? hg)) eqn:Hg.
  - intros [= <- <-]. exists n. split; [lia|]. split; [done|].
    apply orb_true_iff in Hg as [Hg | Hg]; apply negb_true_iff, Z.eqb_neq in Hg; auto.
  - case_bool_decide as Hf; [intros [= <- <-]; exists n; split; [lia|]; auto|].
    destruct (spins <? 4000); intros Hd; apply IH in Hd as (k & Hk & Hd); exists k; (split; [lia|done]).
Qed.

Lemma host_await_runs fuel seen hg n spins yields k :
  (k < fuel)%nat ->
  (tag (generation (seen (n + 3 * k)%nat)) <> hg \/ tag (generation (seen (n + 3 * k + 2)%nat)) <> hg \/
   status (seen (n + 3 * k + 1)%nat) = Finished) ->
  exists m y, host_await fuel seen hg n spins yields = Done (m, y) /\ (m <= n + 3 * k + 3)%nat.
Proof.
  revert n spins yields k. induction fuel as [|fuel IH]; intros n spins yields k Hk Hs; [lia|]. simpl.
  destruct (negb (tag (generation (seen n)) =? hg) || negb (tag (generation (seen (n + 2)%nat)) =? hg)) eqn:Hg.
  { eexists _, _. split; [done|lia]. }
  case_bool_decide as Hf; [eexists _, _; split; [done|lia]|].
  apply orb_false_iff in Hg as [Hg1 Hg2]. apply negb_false_iff, Z.eqb_eq in Hg1, Hg2.
  destruct k as [|k].
  { replace (n + 3 * 0)%nat with n in Hs by lia. by destruct Hs as [? | [? | ?]]. }
  replace (n + 3 * S k)%nat with (n + 3 + 3 * k)%nat in Hs by lia.
  assert (Hnext : forall sp ys, exists m y, host_await fuel seen hg (n + 3) sp ys = Done (m, y) /\ (m <= n + 3 * S k + 3)%nat).
  { intros sp ys. destruct (IH (n + 3)%nat sp ys k ltac:(lia) Hs) as (m & y & -> & Hm). eexists _, _. split; [done|lia]. }
  destruct (spins <? 4000); apply Hnext.
Qed.

Lemma tag_mod g : tag g = g mod 2 ^ 15.
Proof.
  unfold tag, wrap. change 0x7FFF with (Z.ones 15). rewrite Z.land_ones by lia.
  rewrite <- Znumtheory.Zmod_div_mod; [done|lia|lia|]. by exists 2.
Qed.

Lemma tag_wadd g d : 0 < d < 32768 -> tag (wadd 32 g d) <> tag g.
Proof.
  intros Hd. rewrite !tag_mod. unfold wadd, wrap. rewrite <- Znumtheory.Zmod_div_mod; [|lia|lia|by exists (2 ^ 17)].
  intros He. pose proof (Z.div_mod (g + d) (2 ^ 15)). pose proof (Z.div_mod g (2 ^ 15)). nia.
Qed.

Lemma target_life g t t' : alive g t -> rtc target_step t t' -> alive g t' \/ rtc target_step (Ended g) t'.
Proof.
  intros Ha Hr. revert Ha. induction Hr as [t | t u t' Hs Hr IH]; intros Ha; [by left|].
  destruct Hs; simpl in Ha; try done.
  - destruct Ha as [-> _]. by apply IH.
  - destruct Ha as [-> _]. by right.
Qed.

Lemma observes_from seen n : observes seen -> rtc target_step (seen 0%nat) (seen n).
Proof. intros Ho. induction n as [|n IH]; [done | by etrans]. Qed.

(** C19.  [dtact_await] on a thread that is no fiber.  It returns only after the fiber of the handle has come to its end.  It does
    return, within a round of three loads, once a load of the state finds [Finished], or once the context has been freed, even when it has
    been launched again, up to 32767 times. *)
Theorem host_await_waits seen g fuel :
  observes seen -> alive g (seen 0%nat) ->
  (forall m y, host_await fuel seen (tag g) 0 0 0 = Done (m, y) ->
     exists k, (k < m)%nat /\ rtc target_step (Ended g) (seen k)) /\
  (forall k, (k < fuel)%nat ->
     status (seen (3 * k + 1)%nat) = Finished \/
     (exists d, 0 < d < 32768 /\ generation (seen (3 * k)%nat) = wadd 32 g d) ->
     exists m y, host_await fuel seen (tag g) 0 0 0 = Done (m, y) /\ (m <= 3 * k + 3)%nat).
Proof.
  intros Ho Ha. split.
  - intros m y Hd. apply host_await_done in Hd as (k & _ & -> & Hk).
    assert (Hend : forall j, ~ alive g (seen j) -> rtc target_step (Ended g) (seen j)).
    { intros j Hj. by destruct (target_life g _ _ Ha (observes_from seen j Ho)). }
    assert (Hgen : forall j, tag (generation (seen j)) <> tag g -> ~ alive g (seen j)).
    { intros j Hj Hl. apply Hj. destruct (seen j); try done. by destruct Hl as [-> _]. }
    destruct Hk as [Hk | [Hk | Hk]]; [exists k | exists (k + 2)%nat | exists (k + 1)%nat]; (split; [lia|]); apply Hend; auto.
    intros Hl. destruct (seen (k + 1)%nat); try done. by destruct Hl.
  - intros k Hk Hs. destruct (host_await_runs fuel seen (tag g) 0 0 0 k Hk) as (m & y & Hd & Hm).
    + change (0 + 3 * k)%nat with (3 * k)%nat. destruct Hs as [Hs | (d & Hd & Hs)]; [auto|]. left. rewrite Hs. by apply tag_wadd.
    + by exists m, y.
Qed.

(** The generation in a handle has 15 bits: when the context is in its 32768th life after the handle's, the thread waits for that
    fiber too. *)
Lemma host_await_waits_for_another g n fuel spins yields :
  host_await fuel (fun _ => Live (wadd 32 g 32768) Running) (tag g) n spins yields = OutOfFuel.
Proof.
  revert n spins yields. induction fuel as [|fuel IH]; intros n spins yields; [done|]. simpl.
  assert (Ht : tag (wadd 32 g 32768) = tag g).
  { rewrite !tag_mod. unfold wadd, wrap. rewrite <- Znumtheory.Zmod_div_mod; [|lia|lia|by exists (2 ^ 17)].
    rewrite <- (Z_mod_plus_full g 1 (2 ^ 15)). done. }
  rewrite Ht, Z.eqb_refl. simpl. by destruct (spins <? 4000).
Qed.

(** ** Examples *)

(** A future that is ready after [w] polls; the time away does not count. *)
Definition countdown (w : nat) : Poll Z * bool * nat :=
  match w with O => (Ready 7, false, O) | S w' => (Pending, false, w') end.
Definition fresh : fiber := mkFiber Running 50 0 0.

Lemma countdown_soon n w : (w < n)%nat -> soon countdown (fun w => (false, w)) (fun w => w) n w.
Proof. revert w. induction n as [|n IH]; intros [|w] Hw; [lia..|done|]. simpl. split_and!; apply IH; lia. Qed.

Lemma wait_pinned_returns_witness :
  soon countdown (fun w => (false, w)) (fun w => w) 12 11%nat /\
  exists x c' w' l, wait_pinned countdown (fun w => (false, w)) (fun w => w) 12 fresh 11%nat = Done (x, c', w', l) /\
    ends_ready countdown x l /\ quiet countdown (fun w => (false, w)) None l.
Proof.
  assert (Hs : soon countdown (fun w => (false, w)) (fun w => w) 12 11%nat) by (apply countdown_soon; lia).
  split; [exact Hs|].
  destruct (wait_pinned_returns countdown (fun w => (false, w)) (fun w => w) 12 fresh 11%nat Hs) as (x & c' & w' & l & ? & ? & ? & _).
  by exists x, c', w', l.
Defined.

(** It spins, is switched away once, and is ready in the second spin. *)
Lemma countdown_waits :
  ('(x, c, _, l) ← wait_pinned countdown (fun w => (false, w)) (fun w => w) 12 fresh 11%nat;
   Done (x, adaptive_spin_count c, length l)) = Done (7, 47, 13%nat).
Proof. by vm_compute. Qed.

(** A target that ends, is freed and launched again while the thread looks. *)
Definition seen_example (n : nat) : target :=
  if (n <? 5)%nat then Live 5 Running else if (n =? 5)%nat then Ended 5 else if (n =? 6)%nat then Resetting 5
  else if (n <? 9)%nat then Free 6 else Live 6 Running.

Lemma host_await_waits_witness :
  exists m y, host_await 4 seen_example (tag 5) 0 0 0 = Done (m, y) /\ (m <= 12)%nat /\
    exists k, (k < m)%nat /\ rtc target_step (Ended 5) (seen_example k).
Proof.
  assert (Ho : observes seen_example).
  { intros n. do 9 (destruct n as [|n]; [first [apply rtc_refl | apply rtc_once; constructor; done]|]). apply rtc_refl. }
  destruct (host_await_waits seen_example 5 4 Ho) as [Hsafe Hlive]; [done|].
  destruct (Hlive 3%nat) as (m & y & Hd & Hm); [lia | right; by exists 1 |].
  exists m, y. split; [done|]. split; [exact Hm|]. exact (Hsafe m y Hd).
Defined.

End Waiting.
