(* ===== verification/IoRequests.v ===== *)
(** * IoRequests

    From a future to the kernel and back, in src/dtact-util/src/io/native.rs: the request a
    [DtactIoFuture] makes ([create_io_request]), the submission entry made from it
    ([submit_linux_request]), the table of direct files, and the result of
    the future.  Buffers, headers and socket addresses are passed on unread; they are pointers
    here, or values of an abstract type. *)

From S2P Require Import Prelude.

Module IoRequests.

Inductive OpCode := OpRead | OpWrite | OpAccept | OpConnect | OpSendTo | OpRecvFrom.

Section requests.
(** [sockaddr_storage]. *)
Context {A : Type}.

Inductive IoRequest :=
| Read (fd direct_fd_idx buf_ptr len offset : Z) (slot_idx : nat)
| Write (fd direct_fd_idx buf_ptr len offset : Z) (slot_idx : nat)
| Accept (fd direct_fd_idx : Z) (slot_idx : nat)
| Connect (fd direct_fd_idx : Z) (addr : A) (addr_len : Z) (slot_idx : nat)
| SendTo (fd direct_fd_idx msg_ptr : Z) (slot_idx : nat)
| RecvFrom (fd direct_fd_idx msg_ptr : Z) (slot_idx : nat)
| RegisterFile (fd : Z) (slot_idx : nat)
| UnregisterFile (direct_fd_idx : Z) (slot_idx : nat).

Record DtactIoFuture := Future {
  worker_idx : nat;
  fut_fd : Z;
  fut_direct : Z;
  fut_op : OpCode;
  fut_buf : Z;
  fut_len : Z;
  fut_offset : Z;
  fut_addr : option A;
  fut_addr_len : Z;
  fut_slot : option nat;
  fut_msg : Z
}.

(** [DtactIoFuture::new]. *)
Definition new (worker : nat) (fd direct : Z) (op : OpCode) (buf len offset : Z) (addr : option A)
    (addr_len : Z) (slot : option nat) : DtactIoFuture :=
  Future worker fd direct op buf len offset addr addr_len slot 0.

(** [Connect] unwraps the address. *)
Definition create_io_request (f : DtactIoFuture) (slot_idx : nat) : outcome IoRequest :=
  match fut_op f with
  | OpSendTo => Done (SendTo (fut_fd f) (fut_direct f) (fut_msg f) slot_idx)
  | OpRecvFrom => Done (RecvFrom (fut_fd f) (fut_direct f) (fut_msg f) slot_idx)
  | OpRead => Done (Read (fut_fd f) (fut_direct f) (fut_buf f) (fut_len f) (fut_offset f) slot_idx)
  | OpWrite => Done (Write (fut_fd f) (fut_direct f) (fut_buf f) (fut_len f) (fut_offset f) slot_idx)
  | OpAccept => Done (Accept (fut_fd f) (fut_direct f) slot_idx)
  | OpConnect =>
      match fut_addr f with
      | Some addr => Done (Connect (fut_fd f) (fut_direct f) addr (fut_addr_len f) slot_idx)
      | None => Panic
      end
  end.

(** ** Submission entries *)

(** The arguments of the io_uring operation; [AcceptSqe] has null address pointers. *)
Inductive sqe_op :=
| ReadSqe (buf_ptr len offset : Z)
| WriteSqe (buf_ptr len offset : Z)
| AcceptSqe
| ConnectSqe (addr : A) (addr_len : Z)
| SendMsgSqe (msg_ptr : Z)
| RecvMsgSqe (msg_ptr : Z).

Record Sqe := MkSqe {
  target : Z;        (* types::Fd(target_fd), an i32 *)
  fixed : bool;      (* Flags::FIXED_FILE *)
  user_data : Z;
  operation : sqe_op
}.

Definition cast_i32 (x : Z) : Z := let y := wrap 32 x in if y <? 2 ^ 31 then y else y - 2 ^ 32.

(** What the arms share: the target of the operation and the flag. *)
Definition build (fd direct_fd_idx : Z) (slot_idx : nat) (o : sqe_op) : Sqe :=
  let use_fixed := negb (direct_fd_idx =? U32_MAX) in
  MkSqe (cast_i32 (if use_fixed then direct_fd_idx else fd)) use_fixed (Z.of_nat slot_idx) o.

(** What the worker has for direct files, what it pushed to the ring, and the slots it completed itself. *)
Record engine := Engine {
  direct_fd_free : list Z;
  ring : list Sqe;
  completions : list (nat * Z)
}.

Definition push_sqe (s : Sqe) (e : engine) : engine :=
  Engine (direct_fd_free e) (ring e ++ [s]) (completions e).
Definition process_completion (slot_idx : nat) (res : Z) (e : engine) : engine :=
  Engine (direct_fd_free e) (ring e) (completions e ++ [(slot_idx, res)]).
Definition set_direct (l : list Z) (e : engine) : engine := Engine l (ring e) (completions e).

Definition ENFILE : Z := 23.

(** [submit_linux_request]; [update] is the result of [register_files_update] with that index and descriptor:
    [None] for success, or the error's number. *)
Definition submit_linux_request (update : Z -> Z -> option Z) (req : IoRequest) (e : engine) : engine :=
  match req with
  | Read fd d buf len off s => push_sqe (build fd d s (ReadSqe buf (wrap 32 len) (wrap 64 off))) e
  | Write fd d buf len off s => push_sqe (build fd d s (WriteSqe buf (wrap 32 len) (wrap 64 off))) e
  | Accept fd d s => push_sqe (build fd d s AcceptSqe) e
  | Connect fd d addr addr_len s => push_sqe (build fd d s (ConnectSqe addr addr_len)) e
  | SendTo fd d msg s => push_sqe (build fd d s (SendMsgSqe msg)) e
  | RecvFrom fd d msg s => push_sqe (build fd d s (RecvMsgSqe msg)) e
  | RegisterFile fd s =>
      match direct_fd_free e with
      | d :: rest =>
          process_completion s (match update d fd with None => cast_i32 d | Some err => - err end) (set_direct rest e)
      | [] => process_completion s (- ENFILE) e
      end
  | UnregisterFile d s =>
      process_completion s (match update d (-1) with None => 0 | Some err => - err end)
        (set_direct (d :: direct_fd_free e) e)
  end.

Definition slot_of (req : IoRequest) : nat :=
  match req with
  | Read _ _ _ _ _ s | Write _ _ _ _ _ s | Accept _ _ s | Connect _ _ _ _ s | SendTo _ _ _ s
  | RecvFrom _ _ _ s | RegisterFile _ s | UnregisterFile _ s => s
  end.

(** The end of [poll]: the kernel's result as an [io::Result<usize>]. *)
Definition io_result (res : Z) : result Z Z := if res <? 0 then Err (- res) else Ok res.

(** ** Properties *)

(** What an operation asks for, in the future's own terms. *)
Definition asks (f : DtactIoFuture) (o : sqe_op) : Prop :=
  match fut_op f, o with
  | OpRead, ReadSqe buf len off => buf = fut_buf f /\ len = wrap 32 (fut_len f) /\ off = wrap 64 (fut_offset f)
  | OpWrite, WriteSqe buf len off => buf = fut_buf f /\ len = wrap 32 (fut_len f) /\ off = wrap 64 (fut_offset f)
  | OpAccept, AcceptSqe => True
  | OpConnect, ConnectSqe addr addr_len => fut_addr f = Some addr /\ addr_len = fut_addr_len f
  | OpSendTo, SendMsgSqe m => m = fut_msg f
  | OpRecvFrom, RecvMsgSqe m => m = fut_msg f
  | _, _ => False
  end.

(** The entry that reaches the ring for a future is the future's own: its operation and
    arguments, under the number of its slot, on its descriptor, or on its direct index with the
    flag for fixed files exactly when it has one; nothing else of the worker's state changes.  The
    only failure is a [Connect] without an address.  The length is what is left of it in 32 bits. *)
Theorem request_reaches_ring update f slot e :
  0 <= fut_fd f < 2 ^ 31 -> 0 <= fut_direct f < 2 ^ 31 \/ fut_direct f = U32_MAX ->
  match create_io_request f slot with
  | Done req =>
      slot_of req = slot /\
      exists s, submit_linux_request update req e = Engine (direct_fd_free e) (ring e ++ [s]) (completions e) /\
        user_data s = Z.of_nat slot /\ asks f (operation s) /\
        (fixed s = false <-> fut_direct f = U32_MAX) /\
        target s = (if fixed s then fut_direct f else fut_fd f)
  | Panic => fut_op f = OpConnect /\ fut_addr f = None
  | OutOfFuel => False
  end.
Proof.
  intros Hfd Hd.
  assert (forall x, 0 <= x < 2 ^ 31 -> cast_i32 x = x) as Hc.
  { intros x Hx. unfold cast_i32. rewrite wrap_small by lia. case_test; lia. }
  assert (forall o s, target (build (fut_fd f) (fut_direct f) s o) =
    (if fixed (build (fut_fd f) (fut_direct f) s o) then fut_direct f else fut_fd f) /\
    (fixed (build (fut_fd f) (fut_direct f) s o) = false <-> fut_direct f = U32_MAX)) as Hb.
  { intros o s. unfold build. simpl. destruct (Z.eqb_spec (fut_direct f) U32_MAX) as [E | E]; simpl.
    - split; [by apply Hc|done].
    - split; [apply Hc; tauto|done]. }
  unfold create_io_request, asks. destruct (fut_op f) eqn:Eo; simpl;
    try (split; [done|]; eexists; split; [done|]; split; [done|]; split; [by simpl|]; split; apply Hb).
  destruct (fut_addr f) as [addr|] eqn:Ea; [|done].
  split; [done|]. eexists. split; [done|]. split; [done|]. split; [by simpl|]. split; apply Hb.
Qed.

(** The length is truncated: a buffer of [2^32] bytes is read with length 0, which the future
    reports as the end of the stream. *)
Lemma read_length_truncated update fd d buf off slot e :
  submit_linux_request update (Read fd d buf (2 ^ 32) off slot) e =
  push_sqe (build fd d slot (ReadSqe buf 0 (wrap 64 off))) e.
Proof. reflexivity. Qed.

(** *** Direct files *)

(** A sequence of registrations and releases; the indices handed out are those of the successful completions. *)
Fixpoint submit_all (update : nat -> Z -> Z -> option Z) (n : nat) (reqs : list IoRequest) (e : engine) : engine :=
  match reqs with
  | [] => e
  | r :: reqs' => submit_all update (S n) reqs' (submit_linux_request (update n) r e)
  end.

(** A registration that the kernel refuses takes its index out of the table for good: after as many
    failures as there are indices nothing has been handed out and the table is empty. *)
Lemma register_failure_leaks update err fd slot e :
  (forall n d f, update n d f = Some err) ->
  let n := length (direct_fd_free e) in
  submit_all update 0 (replicate n (RegisterFile fd slot)) e =
  Engine [] (ring e) (completions e ++ replicate n (slot, - err)).
Proof.
  intros He. destruct e as [l r c]. simpl. generalize 0%nat as n. revert c.
  induction l as [|d l IH]; intros c n; simpl; [by rewrite app_nil_r|].
  rewrite He. unfold process_completion, set_direct. simpl. rewrite IH. by rewrite <- app_assoc.
Qed.

End requests.

Arguments IoRequest : clear implicits.
Arguments DtactIoFuture : clear implicits.

Lemma request_reaches_ring_witness :
  let f := new (A := unit) 0 7 U32_MAX OpRead 4096 512 0 None 0 None in
  slot_of (Read (A := unit) 7 U32_MAX 4096 512 0 3) = 3%nat /\
  exists s, submit_linux_request (fun _ _ => None) (Read 7 U32_MAX 4096 512 0 3) (Engine [] [] []) =
      Engine [] [s] [] /\ user_data s = 3 /\ asks f (operation s) /\
      (fixed s = false <-> fut_direct f = U32_MAX) /\
      target s = (if fixed s then fut_direct f else fut_fd f).
Proof.
  intros f. apply (request_reaches_ring (fun _ _ => None) f 3 (Engine [] [] [])).
  - split; [by cbv|by cbv].
  - by right.
Defined.

End IoRequests.
