(* ===== verification/IoSlots.v ===== *)
(** * IoSlots

    The operation slots of one worker of src/dtact-util/src/io/native.rs (the
    io_uring build): [DtactIoFuture::poll] and [drop], the worker's loop
    and [process_linux_completion], access by access, for any number of
    fibers and slots.  The kernel is a set of submitted operations that it
    completes in any order, with any result.

    A fiber polls with its own waker, whose identity is the fiber's number.  The section of
    a slot's record that [waker_lock] protects is one access; [origin_fd] is
    read by the mio build only and left out.  The stack of cancellations is the list of what was pushed, which is what it holds
    as long as no slot is on it twice (see [io_slot_cancelled_twice]).  How the worker falls asleep is
    modelled in IoSleep.v. *)

From stdpp Require Import functions.
From S2P Require Import Prelude.

Module IoSlots.

(** An operation: the fiber that issued it, and how many futures that fiber had before it. *)
Definition op : Type := nat * nat.

Record WakerSlot := Slot {
  waker : option nat;
  result : Z;
  completed : bool;
  dropped : bool
}.

Definition set_waker (w : option nat) (s : WakerSlot) : WakerSlot :=
  Slot w (result s) (completed s) (dropped s).
Definition set_result (r : Z) (s : WakerSlot) : WakerSlot :=
  Slot (waker s) r (completed s) (dropped s).
Definition set_completed (b : bool) (s : WakerSlot) : WakerSlot :=
  Slot (waker s) (result s) b (dropped s).
Definition set_dropped (b : bool) (s : WakerSlot) : WakerSlot :=
  Slot (waker s) (result s) (completed s) b.

(** The fields of [WorkerState], the kernel's side of the ring ([kernel]: submitted,
    [cq]: completed and not yet reaped; an entry carries the slot as [user_data]), which
    fibers have been woken since their last poll, and two histories: what
    the kernel performed and what the futures returned. *)
Record shared := Shared {
  free_slots : list nat;
  slots : list WakerSlot;
  wait_slots : list (option nat);
  free_wait_slots : list nat;
  waiting_queue : list nat;
  queues : list (list (nat * op));
  cancel_queue : list nat;
  kernel : list (nat * op);
  cq : list (nat * op * Z);
  awake : list bool;
  performed : list (op * Z);
  returned : list (op * Z)
}.

Definition set_free (l : list nat) (h : shared) : shared :=
  Shared l (slots h) (wait_slots h) (free_wait_slots h) (waiting_queue h) (queues h)
    (cancel_queue h) (kernel h) (cq h) (awake h) (performed h) (returned h).
Definition on_slot (s : nat) (f : WakerSlot -> WakerSlot) (h : shared) : shared :=
  Shared (free_slots h) (alter f s (slots h)) (wait_slots h) (free_wait_slots h) (waiting_queue h)
    (queues h) (cancel_queue h) (kernel h) (cq h) (awake h) (performed h) (returned h).
Definition set_waits (ws : list (option nat)) (fw wq : list nat) (h : shared) : shared :=
  Shared (free_slots h) (slots h) ws fw wq (queues h)
    (cancel_queue h) (kernel h) (cq h) (awake h) (performed h) (returned h).
Definition set_queues (qs : list (list (nat * op))) (h : shared) : shared :=
  Shared (free_slots h) (slots h) (wait_slots h) (free_wait_slots h) (waiting_queue h) qs
    (cancel_queue h) (kernel h) (cq h) (awake h) (performed h) (returned h).
Definition set_cancels (l : list nat) (h : shared) : shared :=
  Shared (free_slots h) (slots h) (wait_slots h) (free_wait_slots h) (waiting_queue h) (queues h)
    l (kernel h) (cq h) (awake h) (performed h) (returned h).
Definition set_ring (k : list (nat * op)) (q : list (nat * op * Z)) (p : list (op * Z)) (h : shared) : shared :=
  Shared (free_slots h) (slots h) (wait_slots h) (free_wait_slots h) (waiting_queue h) (queues h)
    (cancel_queue h) k q (awake h) p (returned h).
Definition set_awake (t : nat) (b : bool) (h : shared) : shared :=
  Shared (free_slots h) (slots h) (wait_slots h) (free_wait_slots h) (waiting_queue h) (queues h)
    (cancel_queue h) (kernel h) (cq h) (<[t := b]> (awake h)) (performed h) (returned h).
Definition returns (o : op) (r : Z) (h : shared) : shared :=
  Shared (free_slots h) (slots h) (wait_slots h) (free_wait_slots h) (waiting_queue h) (queues h)
    (cancel_queue h) (kernel h) (cq h) (awake h) (performed h) ((o, r) :: returned h).

(** [Waker::wake]; a slot without a waker wakes nobody. *)
Definition wake (w : option nat) (h : shared) : shared :=
  match w with Some t => set_awake t true h | None => h end.

(** ** wake_next_waiting_fiber *)

Inductive next_pc :=
| NPop                            (* waiting_queue.pop() *)
| NSwap (k : nat)                 (* swap the waker of the wait slot out *)
| NGive (k : nat) (w : option nat)  (* free_wait_slots.push *)
| NWake (w : option nat).

(** [None] as the program point: it has returned. *)
Definition next_step (p : next_pc) (h : shared) : shared * option next_pc :=
  match p with
  | NPop =>
      match waiting_queue h with
      | k :: rest => (set_waits (wait_slots h) (free_wait_slots h) rest h, Some (NSwap k))
      | [] => (h, None)
      end
  | NSwap k =>
      (set_waits (<[k := None]> (wait_slots h)) (free_wait_slots h) (waiting_queue h) h,
       Some (NGive k (wait_slots h !! k ≫= id)))
  | NGive k w =>
      (set_waits (wait_slots h) (k :: free_wait_slots h) (waiting_queue h) h, Some (NWake w))
  | NWake w => (wake w h, None)
  end.

(** ** Fibers *)

(** Program points of a fiber with its future number [n].  The first group is
    [poll] before the operation is submitted, the second after, the third [drop]. *)
Inductive fiber :=
| FIdle (n : nat)                 (* no future; the next one is number [n] *)
| FNew (n : nat)                  (* slot_idx None, not being polled *)
| FPop (n : nat)                  (* free_slots.pop() *)
| FWaitPop (n : nat)              (* free_wait_slots.pop() *)
| FWaitStore (n k : nat)          (* waker into the wait slot *)
| FWaitPush (n k : nat)           (* waiting_queue.push(wait_idx) *)
| FRetry (n k : nat)              (* free_slots.pop() again *)
| FUnwait (n k s : nat)           (* null the wait slot *)
| FTaken (n s : nat)              (* completed.store(false) *)
| FReset (n s : nat)              (* dropped.store(false) *)
| FArm (n s : nat)                (* waker into the slot *)
| FPush (n s : nat)               (* queue.push(req) *)
| FFull (n s : nat)               (* queue full: waker out of the slot *)
| FGive (n s : nat)               (* free_slots.push *)
| FGaveUp (n : nat) (p : next_pc) (* wake_next_waiting_fiber, then wake_by_ref *)
| FLoad (n s : nat)               (* completed.load() *)
| FUpdate (n s : nat)             (* waker update, Pending *)
| FParked (n s : nat)             (* slot_idx Some, not being polled *)
| FResult (n s : nat)             (* result.load() *)
| FClear (n s : nat) (r : Z)      (* waker out of the slot *)
| FFree (n s : nat) (r : Z)       (* free_slots.push *)
| FFinish (n : nat) (r : Z) (p : next_pc)
| DClear (n s : nat)              (* waker out of the slot *)
| DLoad (n s : nat)               (* completed.load() *)
| DFree (n s : nat)               (* completed: free_slots.push *)
| DFinish (n : nat) (p : next_pc)
| DMark (n s : nat)               (* dropped.store(true) *)
| DCancel (n s : nat).            (* cancel_queue.push *)

(** ** The worker *)

(** One iteration scans the request queues from 0, then the cancel queue, then
    the completions [batch] that [cq.sync()] made visible. *)
Inductive worker_pc :=
| WScan (i : nat)
| WCancels
| WReap (batch : list (nat * op * Z))
| WStore (s : nat) (o : op) (r : Z) (batch : list (nat * op * Z))      (* result.store *)
| WTake (s : nat) (o : op) (r : Z) (batch : list (nat * op * Z))       (* swap the waker out *)
| WPublish (s : nat) (o : op) (r : Z) (w : option nat) (batch : list (nat * op * Z)) (* completed.store(true) *)
| WDropped (s : nat) (w : option nat) (batch : list (nat * op * Z))    (* dropped.load() *)
| WFree (s : nat) (batch : list (nat * op * Z))                        (* free_slots.push *)
| WNext (p : next_pc) (batch : list (nat * op * Z))
| WWake (w : option nat) (batch : list (nat * op * Z)).

Record conf := Conf { sh : shared; fibers : list fiber; wpc : worker_pc }.

Definition ECANCELED : Z := 125.

(** AsyncCancel: an operation in flight under that [user_data] completes with [ECANCELED];
    if there is none the request has no effect. *)
Fixpoint find_slot (s : nat) (l : list (nat * op)) : option (op * list (nat * op)) :=
  match l with
  | [] => None
  | (s', o) :: l' =>
      if (s' =? s)%nat then Some (o, l')
      else '(o', rest) ← find_slot s l'; Some (o', (s', o) :: rest)
  end.
Definition async_cancel (s : nat) (h : shared) : shared :=
  match find_slot s (kernel h) with
  | Some (o, rest) => set_ring rest (cq h ++ [(s, o, -ECANCELED)]) ((o, -ECANCELED) :: performed h) h
  | None => h
  end.

Section steps.
(** [queue_cap]: the capacity of a request queue.  With [calm] the two windows are kept apart in which
    [drop] and the completion of the same slot decide who recycles it. *)
Context (queue_cap : nat) (calm : bool).

Definition marking (s : nat) (f : fiber) : bool :=
  match f with DMark _ s' => (s' =? s)%nat | _ => false end.
Definition deciding (s : nat) (w : worker_pc) : bool :=
  match w with WDropped s' _ _ => (s' =? s)%nat | _ => false end.

(** The next access of fiber [t] in [poll]; [q] is the request queue of the thread it runs on. *)
Definition poll_step (t q : nat) (f : fiber) (h : shared) : option (shared * fiber) :=
  match f with
  | FPop n =>
      Some (match free_slots h with
            | s :: rest => (set_free rest h, FTaken n s)
            | [] => (h, FWaitPop n)
            end)
  | FWaitPop n =>
      Some (match free_wait_slots h with
            | k :: rest => (set_waits (wait_slots h) rest (waiting_queue h) h, FWaitStore n k)
            | [] => (wake (Some t) h, FNew n)
            end)
  | FWaitStore n k =>
      Some (set_waits (<[k := Some t]> (wait_slots h)) (free_wait_slots h) (waiting_queue h) h, FWaitPush n k)
  | FWaitPush n k =>
      Some (set_waits (wait_slots h) (free_wait_slots h) (k :: waiting_queue h) h, FRetry n k)
  | FRetry n k =>
      Some (match free_slots h with
            | s :: rest => (set_free rest h, FUnwait n k s)
            | [] => (h, FNew n)
            end)
  | FUnwait n k s =>
      Some (set_waits (<[k := None]> (wait_slots h)) (free_wait_slots h) (waiting_queue h) h, FTaken n s)
  | FTaken n s => Some (on_slot s (set_completed false) h, FReset n s)
  | FReset n s => Some (on_slot s (set_dropped false) h, FArm n s)
  | FArm n s => Some (on_slot s (set_waker (Some t)) h, FPush n s)
  | FPush n s =>
      l ← queues h !! q;
      Some (if (length l <? queue_cap)%nat
            then (set_queues (<[q := l ++ [(s, (t, n))]]> (queues h)) h, FLoad n s)
            else (h, FFull n s))
  | FFull n s => Some (on_slot s (set_waker None) h, FGive n s)
  | FGive n s => Some (set_free (s :: free_slots h) h, FGaveUp n NPop)
  | FGaveUp n p =>
      let '(h', p') := next_step p h in
      Some (match p' with Some p' => (h', FGaveUp n p') | None => (wake (Some t) h', FNew n) end)
  | FLoad n s =>
      sl ← slots h !! s;
      Some (h, if completed sl then FResult n s else FUpdate n s)
  | FUpdate n s => Some (on_slot s (set_waker (Some t)) h, FParked n s)
  | FResult n s => sl ← slots h !! s; Some (h, FClear n s (result sl))
  | FClear n s r => Some (on_slot s (set_waker None) h, FFree n s r)
  | FFree n s r => Some (set_free (s :: free_slots h) h, FFinish n r NPop)
  | FFinish n r p =>
      let '(h', p') := next_step p h in
      Some (match p' with Some p' => (h', FFinish n r p') | None => (returns (t, n) r h', FIdle (S n)) end)
  | _ => None
  end.

(** The next access of a fiber in [drop]. *)
Definition drop_step (f : fiber) (w : worker_pc) (h : shared) : option (shared * fiber) :=
  match f with
  | DClear n s => Some (on_slot s (set_waker None) h, DLoad n s)
  | DLoad n s =>
      sl ← slots h !! s;
      if completed sl then Some (h, DFree n s)
      else if calm && deciding s w then None else Some (h, DMark n s)
  | DFree n s => Some (set_free (s :: free_slots h) h, DFinish n NPop)
  | DFinish n p =>
      let '(h', p') := next_step p h in
      Some (h', match p' with Some p' => DFinish n p' | None => FIdle (S n) end)
  | DMark n s => Some (on_slot s (set_dropped true) h, DCancel n s)
  | DCancel n s => Some (set_cancels (s :: cancel_queue h) h, FIdle (S n))
  | _ => None
  end.

Definition fiber_step (t q : nat) (f : fiber) (w : worker_pc) (h : shared) : option (shared * fiber) :=
  match f with
  | DClear _ _ | DLoad _ _ | DFree _ _ | DFinish _ _ | DMark _ _ | DCancel _ _ => drop_step f w h
  | _ => poll_step t q f h
  end.

(** The worker's next access in its loop. *)
Definition loop_step (w : worker_pc) (h : shared) : option (shared * worker_pc) :=
  match w with
  | WScan i =>
      Some (match queues h !! i with
            | Some ((s, o) :: rest) =>
                (set_ring (kernel h ++ [(s, o)]) (cq h) (performed h) (set_queues (<[i := rest]> (queues h)) h), WScan i)
            | Some [] => (h, WScan (S i))
            | None => (h, WCancels)
            end)
  | WCancels =>
      Some (match cancel_queue h with
            | s :: rest => (async_cancel s (set_cancels rest h), WCancels)
            | [] => (set_ring (kernel h) [] (performed h) h, WReap (cq h))
            end)
  | WReap [] => Some (h, WScan 0)
  | WReap ((s, o, r) :: b) => Some (h, WStore s o r b)
  | _ => None
  end.

(** The worker's next access in [process_linux_completion]. *)
Definition completion_step (w : worker_pc) (fs : list fiber) (h : shared) : option (shared * worker_pc) :=
  match w with
  | WStore s o r b => Some (on_slot s (set_result r) h, WTake s o r b)
  | WTake s o r b => sl ← slots h !! s; Some (on_slot s (set_waker None) h, WPublish s o r (waker sl) b)
  | WPublish s o r wk b =>
      if calm && existsb (marking s) fs then None
      else Some (on_slot s (set_completed true) h, WDropped s wk b)
  | WDropped s wk b =>
      sl ← slots h !! s;
      Some (h, if dropped sl then WFree s b else WWake wk b)
  | WFree s b => Some (set_free (s :: free_slots h) h, WNext NPop b)
  | WNext p b =>
      let '(h', p') := next_step p h in
      Some (h', match p' with Some p' => WNext p' b | None => WReap b end)
  | WWake wk b => Some (wake wk h, WReap b)
  | _ => None
  end.

Definition worker_step (w : worker_pc) (fs : list fiber) (h : shared) : option (shared * worker_pc) :=
  match w with
  | WScan _ | WCancels | WReap _ => loop_step w h
  | _ => completion_step w fs h
  end.

(** What can happen next: a fiber makes a future, polls it (woken or not), drops it between polls, takes its next
    access; the worker does; the kernel completes a submitted operation with result [r]. *)
Inductive label :=
| LNew (t : nat)
| LPoll (t : nat)
| LDrop (t : nat)
| LFiber (t q : nat)
| LWorker
| LKernel (i : nat) (r : Z).

Definition exec (l : label) (c : conf) : option conf :=
  let h := sh c in
  match l with
  | LNew t =>
      match fibers c !! t with
      | Some (FIdle n) => Some (Conf h (<[t := FNew n]> (fibers c)) (wpc c))
      | _ => None
      end
  | LPoll t =>
      match fibers c !! t with
      | Some (FNew n) => Some (Conf (set_awake t false h) (<[t := FPop n]> (fibers c)) (wpc c))
      | Some (FParked n s) => Some (Conf (set_awake t false h) (<[t := FLoad n s]> (fibers c)) (wpc c))
      | _ => None
      end
  | LDrop t =>
      match fibers c !! t with
      | Some (FNew n) => Some (Conf h (<[t := FIdle (S n)]> (fibers c)) (wpc c))
      | Some (FParked n s) => Some (Conf h (<[t := DClear n s]> (fibers c)) (wpc c))
      | _ => None
      end
  | LFiber t q =>
      f ← fibers c !! t;
      '(h', f') ← fiber_step t q f (wpc c) h;
      Some (Conf h' (<[t := f']> (fibers c)) (wpc c))
  | LWorker =>
      '(h', w') ← worker_step (wpc c) (fibers c) h;
      Some (Conf h' (fibers c) w')
  | LKernel i r =>
      '(s, o) ← kernel h !! i;
      Some (Conf (set_ring (delete i (kernel h)) (cq h ++ [(s, o, r)]) ((o, r) :: performed h) h) (fibers c) (wpc c))
  end.

Fixpoint run (ls : list label) (c : conf) : option conf :=
  match ls with
  | [] => Some c
  | l :: ls' => c' ← exec l c; run ls' c'
  end.

Definition step (c c' : conf) : Prop := exists l, exec l c = Some c'.

End steps.

(** [init_runtime]: [m] slots, [k] wait slots and [nq] queues, all empty; [nf] fibers. *)
Definition start (m k nq nf : nat) : conf :=
  Conf (Shared (reverse (seq 0 m)) (replicate m (Slot None 0 false false))
          (replicate k None) (reverse (seq 0 k)) [] (replicate nq []) [] [] [] (replicate nf false) [] [])
       (replicate nf (FIdle 0)) (WScan 0).

End IoSlots.
