(* ===== verification/IoSlotsInv.v ===== *)
(** * IoSlotsInv

    What the operation slots of IoSlots.v guarantee: who has each slot at each moment, that no slot is
    lost or shared, that results go to the futures they belong to and that waiting
    fibers are woken; and executions in which the code breaks such a promise. *)

From stdpp Require Import functions.
From S2P Require Import Prelude IoSlots.

Module IoSlotsInv.
Import IoSlots.

(** ** Who has a slot *)

(** [Held (Some t)]: fiber [t] has it, nothing is submitted; [Held None]: the worker is
    about to recycle it; [Orphan]: its future was dropped in flight. *)
Inductive phase :=
| Free
| Held (who : option nat)
| Live (t n : nat)
| Finished (t n : nat) (r : Z)
| Orphan (o : op).

Definition owner (p : phase) : option nat :=
  match p with Held who => who | Live t _ | Finished t _ _ => Some t | _ => None end.

(** The slot a fiber has, by its program point. *)
Definition slot_of (f : fiber) : option nat :=
  match f with
  | FUnwait _ _ s | FTaken _ s | FReset _ s | FArm _ s | FPush _ s | FFull _ s | FGive _ s
  | FLoad _ s | FUpdate _ s | FParked _ s | FResult _ s | FClear _ s _ | FFree _ s _
  | DClear _ s | DLoad _ s | DFree _ s | DMark _ s => Some s
  | _ => None
  end.

(** The completions the worker has in hand, and all operations that are submitted and not completed. *)
Definition in_hand (w : worker_pc) : list (nat * op * Z) :=
  match w with
  | WScan _ | WCancels => []
  | WReap b | WDropped _ _ b | WFree _ b | WNext _ b | WWake _ b => b
  | WStore s o r b | WTake s o r b | WPublish s o r _ b => (s, o, r) :: b
  end.
Definition results (c : conf) : list (nat * op * Z) := cq (sh c) ++ in_hand (wpc c).
Definition pending (c : conf) : list (nat * op) := concat (queues (sh c)) ++ kernel (sh c).
Definition outstanding (c : conf) : list (nat * op) := pending c ++ (results c).*1.

(** The operations a fiber has submitted have smaller numbers than this. *)
Definition bound (f : fiber) : nat :=
  match f with
  | FIdle n | FNew n | FPop n | FWaitPop n | FWaitStore n _ | FWaitPush n _ | FRetry n _
  | FUnwait n _ _ | FTaken n _ | FReset n _ | FArm n _ | FPush n _ | FFull n _ | FGive n _
  | FGaveUp n _ => n
  | FLoad n _ | FUpdate n _ | FParked n _ | FResult n _ | FClear n _ _ | FFree n _ _
  | FFinish n _ _ | DClear n _ | DLoad n _ | DFree n _ | DFinish n _ | DMark n _ | DCancel n _ => S n
  end.

Definition slot_ok (p : phase) (perf : list (op * Z)) (sl : WakerSlot) : Prop :=
  match p with
  | Live _ _ => completed sl = false /\ dropped sl = false
  | Finished t n r => completed sl = true /\ dropped sl = false /\ result sl = r /\ ((t, n), r) ∈ perf
  | Orphan _ => dropped sl = true
  | _ => True
  end.

(** What a fiber's program point says of its slot. *)
Definition fiber_ok (own : nat -> phase) (c : conf) (t : nat) (f : fiber) : Prop :=
  match f with
  | FIdle _ | FNew _ | FPop _ | FWaitPop _ | FWaitStore _ _ | FWaitPush _ _ | FRetry _ _
  | FGaveUp _ _ | DFinish _ _ | DCancel _ _ => True
  | FFinish n r _ => ((t, n), r) ∈ performed (sh c)
  | FUnwait _ _ s | FTaken _ s | FFull _ s | FGive _ s => own s = Held (Some t)
  | FReset _ s => own s = Held (Some t) /\ forall sl, slots (sh c) !! s = Some sl -> completed sl = false
  | FArm _ s =>
      own s = Held (Some t) /\ forall sl, slots (sh c) !! s = Some sl -> completed sl = false /\ dropped sl = false
  | FPush _ s =>
      own s = Held (Some t) /\ forall sl, slots (sh c) !! s = Some sl ->
        completed sl = false /\ dropped sl = false /\ waker sl = Some t
  | FLoad n s | FUpdate n s | FParked n s | DClear n s | DLoad n s =>
      own s = Live t n \/ exists r, own s = Finished t n r
  | FResult n s | DFree n s => exists r, own s = Finished t n r
  | FClear n s r | FFree n s r => own s = Finished t n r
  | DMark n s => own s = Live t n /\ deciding s (wpc c) = false
  end.

Definition worker_ok (own : nat -> phase) (c : conf) : Prop :=
  match wpc c with
  | WTake s _ r _ | WPublish s _ r _ _ => forall sl, slots (sh c) !! s = Some sl -> result sl = r
  | WDropped s _ _ => forall sl, slots (sh c) !! s = Some sl -> (own s = Held None <-> dropped sl = true)
  | WFree s _ => own s = Held None
  | _ => True
  end.

(** A fiber that waits for its operation will be woken: its waker is in the slot, or in the
    worker's hand, or it has been woken. *)
Definition attended (own : nat -> phase) (c : conf) (t : nat) (f : fiber) : Prop :=
  match f with
  | FLoad n s | FUpdate n s | FParked n s =>
      match own s with
      | Live _ _ =>
          match wpc c with
          | WPublish s' _ _ w _ => if (s' =? s)%nat then w = Some t
                                   else forall sl, slots (sh c) !! s = Some sl -> waker sl = Some t
          | _ => forall sl, slots (sh c) !! s = Some sl -> waker sl = Some t
          end
      | _ =>
          f = FLoad n s \/ awake (sh c) !! t = Some true \/
          match wpc c with WDropped s' w _ => s' = s /\ w = Some t | WWake w _ => w = Some t | _ => False end
      end
  | _ => True
  end.

(** The operation under way on a slot. *)
Definition submitted (p : phase) : option op :=
  match p with Live t n => Some (t, n) | Orphan o => Some o | _ => None end.

(** The operations on their way through the ring are the submitted ones, and none is
    submitted or performed twice. *)
Record ring_ok (own : nat -> phase) (c : conf) : Prop := {
  r_nodup : NoDup (outstanding c).*1;
  r_out : forall s o, (s, o) ∈ outstanding c <-> submitted (own s) = Some o;
  r_results : forall s o r, (s, o, r) ∈ results c -> (o, r) ∈ performed (sh c);
  r_once : NoDup ((pending c).*2 ++ (performed (sh c)).*1);
  r_bound : forall t n, (t, n) ∈ (pending c).*2 ++ (performed (sh c)).*1 ->
              exists f, fibers c !! t = Some f /\ (n < bound f)%nat
}.

Record inv (m nf : nat) (own : nat -> phase) (c : conf) : Prop := {
  i_len : length (slots (sh c)) = m;
  i_fibers : length (fibers c) = nf;
  i_awake : length (awake (sh c)) = nf;
  i_range : forall s, (m <= s)%nat -> own s = Free;
  i_nodup : NoDup (free_slots (sh c));
  i_free : forall s, s ∈ free_slots (sh c) <-> (s < m)%nat /\ own s = Free;
  i_ring : ring_ok own c;
  i_slot : forall s sl, slots (sh c) !! s = Some sl -> slot_ok (own s) (performed (sh c)) sl;
  i_fiber : forall t f, fibers c !! t = Some f -> fiber_ok own c t f;
  i_owner : forall s t, owner (own s) = Some t -> exists f, fibers c !! t = Some f /\ slot_of f = Some s;
  i_held : forall s, own s = Held None -> match wpc c with WDropped s' _ _ | WFree s' _ => s' = s | _ => False end;
  i_worker : worker_ok own c;
  i_att : forall t f, fibers c !! t = Some f -> attended own c t f;
  i_ret : forall o r, (o, r) ∈ returned (sh c) -> (o, r) ∈ performed (sh c)
}.

(** ** Steps of fibers *)

Lemma ring_same own own' c c' :
  ring_ok own c ->
  (forall s, submitted (own' s) = submitted (own s)) ->
  queues (sh c') = queues (sh c) -> kernel (sh c') = kernel (sh c) -> cq (sh c') = cq (sh c) ->
  performed (sh c') = performed (sh c) -> in_hand (wpc c') = in_hand (wpc c) ->
  (forall t f, fibers c !! t = Some f -> exists f', fibers c' !! t = Some f' /\ (bound f <= bound f')%nat) ->
  ring_ok own' c'.
Proof.
  intros [] Hs Hq Hk Hc Hp Hh Hb. unfold outstanding, results, pending in *.
  split; unfold outstanding, results, pending; rewrite ?Hq, ?Hk, ?Hc, ?Hp, ?Hh; try done.
  - intros. rewrite Hs. done.
  - intros t n Ht. destruct (r_bound0 t n Ht) as (f & Hf & Hn). destruct (Hb t f Hf) as (f' & Hf' & ?).
    exists f'. split; [done|lia].
Qed.

(** A fiber's program point tells who owns its slot. *)
Lemma fiber_owns own c t f s : fiber_ok own c t f -> slot_of f = Some s -> owner (own s) = Some t.
Proof.
  destruct f; simpl; intros H [= ->];
    repeat match goal with
    | H : _ /\ _ |- _ => destruct H as [H _]
    | H : exists _, _ |- _ => destruct H as [? H]
    | H : _ \/ _ |- _ => destruct H as [H|H]
    end; by rewrite H.
Qed.

(** It speaks of that slot only. *)
Lemma fiber_ok_ext own own' c c' t f :
  fiber_ok own c t f ->
  (forall s, slot_of f = Some s -> own' s = own s /\ slots (sh c') !! s = slots (sh c) !! s) ->
  (forall n s, f = DMark n s -> deciding s (wpc c') = false) ->
  (forall o r, (o, r) ∈ performed (sh c) -> (o, r) ∈ performed (sh c')) ->
  fiber_ok own' c' t f.
Proof.
  intros Hf Hs Hw Hp.
  destruct f; simpl in *; try done; try (by apply Hp);
    destruct (Hs _ eq_refl) as [-> Hsl]; rewrite ?Hsl; try done.
  split; [apply Hf|eauto].
Qed.

(** What a step of fiber [t] on slot [x] leaves to the others. *)
Lemma fiber_frame own own' c c' t x t' f :
  t' <> t -> fiber_ok own c t' f ->
  (forall s, s <> x -> own' s = own s /\ slots (sh c') !! s = slots (sh c) !! s) ->
  owner (own x) = Some t \/ own x = Free ->
  wpc c' = wpc c -> performed (sh c') = performed (sh c) ->
  fiber_ok own' c' t' f.
Proof.
  intros Ht Hf Hs Hx Hw Hp. eapply fiber_ok_ext; [done| | |by rewrite Hp].
  - intros s Ho. apply Hs. intros ->. apply (fiber_owns _ _ _ _ _ Hf) in Ho.
    destruct Hx as [Hx|Hx]; rewrite Hx in Ho; simplify_eq/=.
  - intros n s ->. rewrite Hw. apply Hf.
Qed.

Lemma attended_frame own own' c c' t x t' f :
  t' <> t -> fiber_ok own c t' f -> attended own c t' f ->
  (forall s, s <> x -> own' s = own s /\ slots (sh c') !! s = slots (sh c) !! s) ->
  owner (own x) = Some t \/ own x = Free ->
  wpc c' = wpc c -> (awake (sh c) !! t' = Some true -> awake (sh c') !! t' = Some true) ->
  attended own' c' t' f.
Proof.
  intros Ht Hf Ha Hs Hx Hw Hk.
  assert (forall s, slot_of f = Some s -> own' s = own s /\ slots (sh c') !! s = slots (sh c) !! s) as F.
  { intros s Ho. apply Hs. intros ->. apply (fiber_owns _ _ _ _ _ Hf) in Ho.
    destruct Hx as [Hx|Hx]; rewrite Hx in Ho; simplify_eq/=. }
  destruct f; simpl in *; try done; destruct (F _ eq_refl) as [-> ->]; rewrite Hw;
    destruct (own s); try done; naive_solver.
Qed.

Lemma worker_frame own own' c c' t x g :
  worker_ok own c -> wpc c' = wpc c ->
  slots (sh c') = alter g x (slots (sh c)) ->
  (forall s, s <> x -> own' s = own s) ->
  owner (own x) = Some t \/ own x = Free -> own' x <> Held None ->
  (forall sl, result (g sl) = result sl) ->
  (deciding x (wpc c) = true -> forall sl, dropped sl = false -> dropped (g sl) = false) ->
  worker_ok own' c'.
Proof.
  intros H Hw Hs Hown Hx Hn Hr Hd. unfold worker_ok in *. rewrite Hw, Hs.
  destruct (wpc c) as [| | | |s o r b|s o r w b|s w b|s b| |]; try done.
  - intros sl [(-> & y & Hy & ->) | [? ?]]%lookup_alter_Some; [rewrite Hr|]; auto.
  - intros sl [(-> & y & Hy & ->) | [? ?]]%lookup_alter_Some; [rewrite Hr|]; auto.
  - intros sl [(-> & y & Hy & ->) | [? ?]]%lookup_alter_Some.
    + specialize (H y Hy). split; [done|]. intros Hdr. exfalso. simpl in Hd. rewrite Nat.eqb_refl in Hd.
      destruct (dropped y) eqn:E; [|rewrite Hd in Hdr; done].
      destruct Hx as [Hx|Hx]; rewrite (proj2 H eq_refl) in Hx; done.
    + rewrite Hown by done. auto.
  - rewrite Hown; [done|]. intros ->. rewrite H in Hx. destruct Hx; done.
Qed.

(** A step of fiber [t] that touches no slot but [x], which is its own or free. *)
Lemma inv_fiber m nf own own' c t x g f f' h' :
  inv m nf own c -> fibers c !! t = Some f ->
  let c' := Conf h' (<[t := f']> (fibers c)) (wpc c) in
  slot_of f = None \/ slot_of f = Some x ->
  (forall s, s <> x -> own' s = own s) -> slots h' = alter g x (slots (sh c)) ->
  owner (own x) = Some t \/ own x = Free ->
  (forall t', owner (own' x) = Some t' -> t' = t /\ slot_of f' = Some x) ->
  own' x <> Held None -> ((m <= x)%nat -> own' x = Free) ->
  (forall sl, result (g sl) = result sl) ->
  (deciding x (wpc c) = true -> forall sl, dropped sl = false -> dropped (g sl) = false) ->
  length (awake h') = length (awake (sh c)) ->
  (forall t', t' <> t -> awake (sh c) !! t' = Some true -> awake h' !! t' = Some true) ->
  performed h' = performed (sh c) ->
  NoDup (free_slots h') /\ (forall s, s ∈ free_slots h' <-> (s < m)%nat /\ own' s = Free) ->
  ring_ok own' c' ->
  (forall sl, slots (sh c) !! x = Some sl -> slot_ok (own' x) (performed (sh c)) (g sl)) ->
  fiber_ok own' c' t f' -> attended own' c' t f' ->
  (forall o r, (o, r) ∈ returned h' -> (o, r) ∈ performed (sh c)) ->
  inv m nf own' c'.
Proof.
  intros [] Hf c' Hsf Hown Hg Hx Ho Hn Hm Hgr Hgd Hla Hk Hp [Hfn Hfr] Hr Hsl Hfo Ha Hre.
  pose proof (lookup_lt_Some _ _ _ Hf) as Hlt.
  assert (forall s, s <> x -> own' s = own s /\ slots h' !! s = slots (sh c) !! s) as Hs.
  { intros s Hsx. split; [auto|]. rewrite Hg. by apply list_lookup_alter_ne. }
  split; simpl; try done.
  - rewrite Hg, length_alter. done.
  - by rewrite length_insert.
  - lia.
  - intros s Hms. destruct (decide (s = x)) as [-> |]; [auto|]. rewrite Hown by done. auto.
  - intros s sl Hss. rewrite Hp. rewrite Hg in Hss.
    apply lookup_alter_Some in Hss as [(-> & y & Hy & ->) | [? Hss]]; [auto|].
    rewrite Hown by done. auto.
  - intros t' f2 [(-> & <- & _) | (Ht & Hf2)]%list_lookup_insert_Some; [done|].
    apply (fiber_frame own own' c c' t x); auto.
  - intros s t' Hot. destruct (decide (s = x)) as [-> | Hsx].
    + destruct (Ho _ Hot) as [-> ?]. exists f'. by rewrite list_lookup_insert_eq.
    + rewrite Hown in Hot by done. destruct (i_owner0 _ _ Hot) as (f2 & Hf2 & Hso).
      destruct (decide (t' = t)) as [-> |]; [|exists f2; by rewrite list_lookup_insert_ne].
      rewrite Hf in Hf2. simplify_eq. destruct Hsf; congruence.
  - intros s Hh. destruct (decide (s = x)) as [-> | Hsx]; [done|].
    rewrite Hown in Hh by done. by apply i_held0.
  - apply (worker_frame own own' c c' t x g); auto.
  - intros t' f2 [(-> & <- & _) | (Ht & Hf2)]%list_lookup_insert_Some; [done|].
    apply (attended_frame own own' c c' t x); auto.
  - intros o r ?. rewrite Hp. eauto.
Qed.

(** What concerns waiting fibers only. *)
Record same_ops (h h' : shared) : Prop := {
  so_free : free_slots h' = free_slots h;
  so_slots : slots h' = slots h;
  so_queues : queues h' = queues h;
  so_kernel : kernel h' = kernel h;
  so_cq : cq h' = cq h;
  so_performed : performed h' = performed h;
  so_returned : returned h' = returned h;
  so_len : length (awake h') = length (awake h);
  so_awake : forall t, awake h !! t = Some true -> awake h' !! t = Some true
}.

Lemma same_ops_refl h : same_ops h h.
Proof. by split. Qed.

Lemma same_ops_waits ws fw wq h : same_ops h (set_waits ws fw wq h).
Proof. by split. Qed.

Lemma same_ops_wake w h : same_ops h (wake w h).
Proof.
  destruct w as [t|]; [|apply same_ops_refl]. split; simpl; try done; [apply length_insert|].
  intros t' Ht. destruct (decide (t = t')) as [-> | Hne]; [|by rewrite list_lookup_insert_ne].
  apply list_lookup_insert_eq. by eapply lookup_lt_Some.
Qed.

Lemma same_ops_trans h1 h2 h3 : same_ops h1 h2 -> same_ops h2 h3 -> same_ops h1 h3.
Proof. intros [] []. split; try congruence. auto. Qed.

#[local] Hint Resolve same_ops_refl same_ops_waits same_ops_wake same_ops_trans : core.

Lemma next_step_same_ops p h : same_ops h (next_step p h).1.
Proof. destruct p; simpl; [destruct (waiting_queue h)|..]; simpl; auto. Qed.

(** A step of a fiber that has no slot and touches none. *)
Lemma inv_quiet m nf own c t f f' h' :
  inv m nf own c -> fibers c !! t = Some f -> same_ops (sh c) h' ->
  slot_of f = None -> slot_of f' = None -> (bound f <= bound f')%nat ->
  fiber_ok own c t f' ->
  inv m nf own (Conf h' (<[t := f']> (fibers c)) (wpc c)).
Proof.
  intros H Hf [] Hs Hs' Hb Hfo. pose proof H as [].
  apply (inv_fiber m nf own own c t m id f f' h'); auto; try done.
  - rewrite so_slots0. symmetry. by apply list_alter_id.
  - by rewrite (i_range0 m).
  - by rewrite (i_range0 m).
  - by rewrite so_free0.
  - eapply ring_same; [done|done|done..|]. simpl. intros t' f2 Hf2.
    destruct (decide (t' = t)) as [-> |].
    + exists f'. simplify_eq. rewrite list_lookup_insert_eq by (by eapply lookup_lt_Some). done.
    + exists f2. by rewrite list_lookup_insert_ne.
  - eapply fiber_ok_ext; [done|intros s ?; congruence|intros n s ->; done|simpl; by rewrite so_performed0].
  - destruct f'; done.
  - by rewrite so_returned0.
Qed.

Lemma same_ops_id x h : same_ops (on_slot x id h) h.
Proof. split; try done. simpl. symmetry. by apply list_alter_id. Qed.

#[local] Hint Resolve same_ops_id : core.

Lemma bound_mono c t f f' :
  fibers c !! t = Some f -> (bound f <= bound f')%nat ->
  forall t' f2, fibers c !! t' = Some f2 ->
  exists f3, <[t := f']> (fibers c) !! t' = Some f3 /\ (bound f2 <= bound f3)%nat.
Proof.
  intros Hf Hb t' f2 Hf2. destruct (decide (t' = t)) as [-> |].
  - exists f'. simplify_eq. rewrite list_lookup_insert_eq by (by eapply lookup_lt_Some). done.
  - exists f2. by rewrite list_lookup_insert_ne.
Qed.

Lemma returns_performed m nf own c o r : inv m nf own c -> (o, r) ∈ returned (sh c) -> (o, r) ∈ performed (sh c).
Proof. intros []. auto. Qed.

(** A step of a fiber that keeps its slot [x]. *)
Lemma inv_owned m nf own c t x g f f' h' :
  inv m nf own c -> fibers c !! t = Some f -> same_ops (on_slot x g (sh c)) h' ->
  slot_of f = Some x -> slot_of f' = Some x -> (bound f <= bound f')%nat ->
  (forall sl, result (g sl) = result sl) ->
  (deciding x (wpc c) = true -> forall sl, dropped sl = false -> dropped (g sl) = false) ->
  (forall sl, slots (sh c) !! x = Some sl -> slot_ok (own x) (performed (sh c)) sl ->
    slot_ok (own x) (performed (sh c)) (g sl)) ->
  let c' := Conf h' (<[t := f']> (fibers c)) (wpc c) in
  fiber_ok own c' t f' -> attended own c' t f' ->
  inv m nf own c'.
Proof.
  intros H Hf [] Hs Hs' Hb Hg Hd Hsl c' Hfo Ha. simpl in *. pose proof H as [].
  pose proof (fiber_owns _ _ _ _ _ (i_fiber0 t f Hf) Hs) as Hown.
  apply (inv_fiber m nf own own c t x g f f' h'); auto; try done.
  - intros t' Ht'. rewrite Hown in Ht'. by simplify_eq.
  - intros E. by rewrite E in Hown.
  - by rewrite so_free0.
  - eapply ring_same; [done|done|done..|]. by eapply bound_mono.
  - by rewrite so_returned0.
Qed.

(** A step by which a fiber gets, gives back or loses control of slot [x]. *)
Lemma inv_moved m nf own c t x p g f f' h' :
  inv m nf own c -> fibers c !! t = Some f ->
  let own' := <[x := p]> own in
  let c' := Conf h' (<[t := f']> (fibers c)) (wpc c) in
  slot_of f = None \/ slot_of f = Some x ->
  owner (own x) = Some t \/ own x = Free ->
  (forall t', owner p = Some t' -> t' = t /\ slot_of f' = Some x) ->
  p <> Held None -> (x < m)%nat -> submitted p = submitted (own x) -> (bound f <= bound f')%nat ->
  slots h' = alter g x (slots (sh c)) -> queues h' = queues (sh c) -> kernel h' = kernel (sh c) ->
  cq h' = cq (sh c) -> performed h' = performed (sh c) -> returned h' = returned (sh c) ->
  awake h' = awake (sh c) ->
  (forall sl, result (g sl) = result sl) ->
  (deciding x (wpc c) = true -> forall sl, dropped sl = false -> dropped (g sl) = false) ->
  NoDup (free_slots h') -> (forall s, s ∈ free_slots h' <-> (s < m)%nat /\ own' s = Free) ->
  (forall sl, slots (sh c) !! x = Some sl -> slot_ok p (performed (sh c)) (g sl)) ->
  fiber_ok own' c' t f' -> attended own' c' t f' ->
  inv m nf own' c'.
Proof.
  intros H Hf own' c' Hsf Hx Ho Hn Hm Hsub Hb Hs Hq Hk Hc Hp Hr Ha Hg Hd Hnd Hfr Hsl Hfo Hatt.
  pose proof H as [].
  assert (own' x = p) as E by (unfold own'; by rewrite fn_lookup_insert).
  apply (inv_fiber m nf own own' c t x g f f' h'); rewrite ?E; auto; try done.
  - intros s Hsx. unfold own'. by rewrite fn_lookup_insert_ne.
  - lia.
  - by rewrite Ha.
  - by rewrite Ha.
  - eapply (ring_same own); [done| |done..|by eapply bound_mono].
    intros s. destruct (decide (s = x)) as [-> |]; [by rewrite E|]. unfold own'. by rewrite fn_lookup_insert_ne.
  - by rewrite Hr.
Qed.

(** Taking the slot on top of the free list, and putting one back. *)
Lemma inv_pop m nf own c t x rest f f' h' :
  inv m nf own c -> fibers c !! t = Some f -> free_slots (sh c) = x :: rest ->
  h' = set_free rest (sh c) ->
  slot_of f = None -> slot_of f' = Some x -> (bound f <= bound f')%nat ->
  (forall own' c', own' x = Held (Some t) -> fiber_ok own' c' t f' /\ attended own' c' t f') ->
  exists own', inv m nf own' (Conf h' (<[t := f']> (fibers c)) (wpc c)).
Proof.
  intros H Hf Hfree -> Hs Hs' Hb Hfo. pose proof H as []. rewrite Hfree in *.
  apply NoDup_cons in i_nodup0 as [Hni Hnd].
  destruct (proj1 (i_free0 x)) as [Hxm Hx]; [left|].
  exists (<[x := Held (Some t)]> own).
  eapply (inv_moved _ _ _ _ _ _ _ id); simpl; eauto; rewrite ?Hx; try done.
  - intros t' [= ->]. done.
  - symmetry. by apply list_alter_id.
  - intros s. destruct (decide (s = x)) as [-> | Hsx].
    + rewrite fn_lookup_insert. naive_solver.
    + rewrite fn_lookup_insert_ne by done. rewrite <- i_free0, elem_of_cons. naive_solver.
  - apply Hfo. by rewrite fn_lookup_insert.
  - apply Hfo. by rewrite fn_lookup_insert.
Qed.

Lemma attended_slotless own c t f : slot_of f = None -> attended own c t f.
Proof. by destruct f. Qed.

Lemma inv_give m nf own c t x f f' h' :
  inv m nf own c -> fibers c !! t = Some f -> h' = set_free (x :: free_slots (sh c)) (sh c) ->
  slot_of f = Some x -> slot_of f' = None -> (bound f <= bound f')%nat -> submitted (own x) = None ->
  (forall own' c', performed (sh c') = performed (sh c) -> fiber_ok own' c' t f') ->
  exists own', inv m nf own' (Conf h' (<[t := f']> (fibers c)) (wpc c)).
Proof.
  intros H Hf -> Hs Hs' Hb Hsub Hfo. pose proof H as [].
  pose proof (fiber_owns _ _ _ _ _ (i_fiber0 t f Hf) Hs) as Hown.
  assert (x < m)%nat as Hxm.
  { destruct (decide (x < m)%nat); [done|]. rewrite i_range0 in Hown by lia. done. }
  exists (<[x := Free]> own).
  eapply (inv_moved _ _ _ _ _ _ _ id); simpl; eauto; try done.
  - symmetry. by apply list_alter_id.
  - apply NoDup_cons. split; [|done]. intros [_ Hx]%i_free0. by rewrite Hx in Hown.
  - intros s. rewrite elem_of_cons. destruct (decide (s = x)) as [-> | Hsx].
    + rewrite fn_lookup_insert. naive_solver.
    + rewrite fn_lookup_insert_ne by done. rewrite <- i_free0. naive_solver.
  - by apply attended_slotless.
Qed.

(** What [deciding] tells of a slot that a fiber or an outstanding operation owns. *)
Lemma deciding_clear m nf own c x sl :
  inv m nf own c -> own x <> Held None -> deciding x (wpc c) = true ->
  slots (sh c) !! x = Some sl -> dropped sl = false.
Proof.
  intros [] Hx Hd Hsl. unfold worker_ok in *. destruct (wpc c); try done. simpl in Hd.
  apply Nat.eqb_eq in Hd as ->. specialize (i_worker0 sl Hsl).
  destruct (dropped sl); [|done]. destruct Hx. by apply i_worker0.
Qed.

Lemma concat_insert {A} (l l' : list A) ls i :
  ls !! i = Some l -> concat (<[i := l']> ls) ++ l ≡ₚ concat ls ++ l'.
Proof.
  revert i. induction ls as [|l0 ls IH]; intros [|i] Hi; simplify_eq/=.
  - rewrite (Permutation_app_comm l (concat ls)), (Permutation_app_comm l' (concat ls)), <- !app_assoc.
    apply Permutation_app_head, Permutation_app_comm.
  - rewrite <- !app_assoc. apply Permutation_app_head. auto.
Qed.

Lemma concat_insert_snoc {A} (l : list A) e ls i :
  ls !! i = Some l -> concat (<[i := l ++ [e]]> ls) ≡ₚ e :: concat ls.
Proof.
  intros Hi. apply (Permutation_app_inv_r l). rewrite concat_insert by done.
  rewrite app_assoc, Permutation_app_comm. done.
Qed.

Lemma concat_insert_tail {A} (l : list A) e ls i :
  ls !! i = Some (e :: l) -> e :: concat (<[i := l]> ls) ≡ₚ concat ls.
Proof.
  intros Hi. apply (Permutation_app_inv_r l).
  pose proof (concat_insert _ l _ _ Hi) as E. rewrite <- E. by rewrite <- Permutation_middle.
Qed.

(** The request of a future goes into a queue. *)
Lemma ring_push own c t q n x l :
  ring_ok own c -> fibers c !! t = Some (FPush n x) -> queues (sh c) !! q = Some l ->
  own x = Held (Some t) ->
  ring_ok (<[x := Live t n]> own)
    (Conf (set_queues (<[q := l ++ [(x, (t, n))]]> (queues (sh c))) (sh c)) (<[t := FLoad n x]> (fibers c)) (wpc c)).
Proof.
  intros [] Hf Hq Hx.
  set (c' := Conf _ _ _).
  assert (pending c' ≡ₚ (x, (t, n)) :: pending c) as Ep.
  { unfold pending. simpl. by rewrite (concat_insert_snoc _ _ _ _ Hq). }
  assert (outstanding c' ≡ₚ (x, (t, n)) :: outstanding c) as Eo.
  { unfold outstanding. by rewrite Ep. }
  assert (forall o, (x, o) ∉ outstanding c) as Hno.
  { intros o Ho. apply r_out0 in Ho. by rewrite Hx in Ho. }
  assert ((t, n) ∉ (pending c).*2 ++ (performed (sh c)).*1) as Hnew.
  { intros (f & Hf2 & Hn)%r_bound0. rewrite Hf in Hf2. simplify_eq/=. lia. }
  split.
  - rewrite Eo. simpl. apply NoDup_cons. split; [|done].
    intros ([s o] & -> & ?)%list_elem_of_fmap. by eapply Hno.
  - intros s o. rewrite Eo, elem_of_cons, r_out0. destruct (decide (s = x)) as [-> |].
    + rewrite fn_lookup_insert, Hx. simpl. naive_solver.
    + rewrite fn_lookup_insert_ne by done. naive_solver.
  - done.
  - rewrite Ep. simpl. apply NoDup_cons. done.
  - intros t' n'. rewrite Ep. simpl. rewrite elem_of_cons. intros [[= -> ->] | Ht].
    + exists (FLoad n x). rewrite list_lookup_insert_eq by (by eapply lookup_lt_Some). simpl. split; [done|lia].
    + destruct (r_bound0 _ _ Ht) as (f & Hf2 & Hn).
      destruct (bound_mono c t _ (FLoad n x) Hf ltac:(simpl; lia) _ _ Hf2) as (f3 & ? & ?). exists f3. split; [done|lia].
Qed.

Lemma inv_push m nf own c t q n x l :
  inv m nf own c -> fibers c !! t = Some (FPush n x) -> queues (sh c) !! q = Some l ->
  exists own', inv m nf own'
    (Conf (set_queues (<[q := l ++ [(x, (t, n))]]> (queues (sh c))) (sh c)) (<[t := FLoad n x]> (fibers c)) (wpc c)).
Proof.
  intros H Hf Hq. pose proof H as []. destruct (i_fiber0 t _ Hf) as [Hx Hsl].
  assert (x < m)%nat as Hxm.
  { destruct (decide (x < m)%nat); [done|]. rewrite i_range0 in Hx by lia. done. }
  exists (<[x := Live t n]> own).
  apply (inv_fiber m nf own (<[x := Live t n]> own) c t x id (FPush n x)); simpl; auto; rewrite ?fn_lookup_insert; try done.
  - intros s Hs. by rewrite fn_lookup_insert_ne.
  - symmetry. by apply list_alter_id.
  - rewrite Hx. auto.
  - simpl. intros t' [= ->]. done.
  - lia.
  - split; [done|]. intros s. rewrite i_free0. destruct (decide (s = x)) as [-> |].
    + rewrite fn_lookup_insert, Hx. naive_solver.
    + by rewrite fn_lookup_insert_ne.
  - by apply ring_push.
  - intros sl Hs. destruct (Hsl sl Hs) as (? & ? & _). done.
  - auto.
  - assert (forall sl, slots (sh c) !! x = Some sl -> waker sl = Some t) as Hw by (intros sl Hs; by apply Hsl).
    destruct (wpc c) as [| | | | |s o r w b| | | |] eqn:Ew; try done.
    destruct (Nat.eqb_spec s x) as [-> |]; [|done].
    exfalso. destruct i_ring0. assert (submitted (own x) = Some o) as E.
    { apply r_out0. unfold outstanding, results. rewrite Ew. simpl. rewrite fmap_app. simpl.
      rewrite !elem_of_app, elem_of_cons. auto. }
    by rewrite Hx in E.
Qed.

Lemma inv_returns m nf own h fs w o r :
  inv m nf own (Conf h fs w) -> (o, r) ∈ performed h -> inv m nf own (Conf (returns o r h) fs w).
Proof.
  intros [] Hp. split; try done; [by destruct i_ring0|]. simpl.
  intros o' r' [[= -> ->] | ?]%elem_of_cons; auto.
Qed.

(** The record of a slot that has just been written. *)
Lemma alter_self {A} (g : A -> A) (l : list A) (i : nat) y : alter g i l !! i = Some y -> exists x, l !! i = Some x /\ y = g x.
Proof. rewrite lookup_alter_Some. naive_solver. Qed.

Ltac at_slot := intros ? (? & ? & ->)%alter_self; simpl; eauto.

Lemma attended_mono own c c' t f :
  attended own c t f -> slots (sh c') = slots (sh c) -> wpc c' = wpc c ->
  (awake (sh c) !! t = Some true -> awake (sh c') !! t = Some true) -> attended own c' t f.
Proof.
  intros H Hs Hw Ha. destruct f; simpl in *; rewrite ?Hs, ?Hw; try done; destruct (own s); try done; naive_solver.
Qed.

Lemma fiber_step_inv m nf own c t q cap f h' f' :
  inv m nf own c -> fibers c !! t = Some f ->
  fiber_step cap true t q f (wpc c) (sh c) = Some (h', f') ->
  exists own', inv m nf own' (Conf h' (<[t := f']> (fibers c)) (wpc c)).
Proof.
  intros H Hf Hs. pose proof H as []. pose proof (i_fiber0 t f Hf) as Hfo. pose proof (i_att0 t f Hf) as Hatt.
  destruct f; cbn [fiber_step poll_step drop_step] in Hs; try done.
  - (* FPop *) destruct (free_slots (sh c)) as [|x rest] eqn:E; simplify_eq.
    + exists own. by eapply inv_quiet.
    + eapply inv_pop; eauto.
  - destruct (free_wait_slots (sh c)) as [|k rest]; simplify_eq; exists own; eapply inv_quiet; eauto; done.
  - simplify_eq. exists own. eapply inv_quiet; eauto; done.
  - simplify_eq. exists own. eapply inv_quiet; eauto; done.
  - destruct (free_slots (sh c)) as [|x rest] eqn:E; simplify_eq.
    + exists own. by eapply inv_quiet.
    + eapply inv_pop; eauto.
  - simplify_eq. exists own. apply (inv_owned _ _ _ _ _ s id (FUnwait n k s)); simpl; eauto.
  - simplify_eq. exists own. apply (inv_owned _ _ _ _ _ s (set_completed false) (FTaken n s)); simpl in *; eauto.
    + intros sl _. by rewrite Hfo.
    + split; [done|]. at_slot.
  - simplify_eq. simpl in Hfo. destruct Hfo as [Hx Hsl].
    exists own. apply (inv_owned _ _ _ _ _ s (set_dropped false) (FReset n s)); simpl; eauto.
    + intros sl _. by rewrite Hx.
    + split; [done|]. at_slot.
  - simplify_eq. simpl in Hfo. destruct Hfo as [Hx Hsl].
    exists own. apply (inv_owned _ _ _ _ _ s (set_waker (Some t)) (FArm n s)); simpl; eauto.
    split; [done|]. at_slot. naive_solver.
  - apply bind_Some in Hs as (l & Hq & Hs). destruct (length l <? cap)%nat; simplify_eq.
    + eapply inv_push; eauto.
    + exists own. simpl in Hfo. apply (inv_owned _ _ _ _ _ s id (FPush n s)); simpl; destruct Hfo; eauto.
  - simplify_eq. exists own. apply (inv_owned _ _ _ _ _ s (set_waker None) (FFull n s)); simpl in *; eauto.
  - simplify_eq. simpl in Hfo. eapply inv_give; eauto; simpl; try done. by rewrite Hfo.
  - (* FGaveUp *) pose proof (next_step_same_ops p (sh c)) as So.
    destruct (next_step p (sh c)) as [h2 [p'|]]; simplify_eq; exists own;
      eapply inv_quiet; eauto; simpl in *; eauto.
  - (* FLoad *) apply bind_Some in Hs as (sl & Hsl & Hs). simplify_eq. exists own.
    pose proof (i_slot0 _ _ Hsl) as Hok. simpl in Hfo, Hatt.
    apply (inv_owned _ _ _ _ _ s id (FLoad n s)); simpl; eauto.
    + by destruct (completed sl).
    + by destruct (completed sl).
    + destruct Hfo as [E | [r E]]; rewrite E in Hok; simpl in Hok; destruct_and?;
        destruct (completed sl); simpl; eauto; done.
    + destruct (completed sl) eqn:Ec; simpl; [done|].
      destruct Hfo as [E | [r E]]; rewrite E in *; simpl in Hok; destruct_and?; [|congruence].
      exact Hatt.
  - (* FUpdate *) simplify_eq. exists own. simpl in Hfo, Hatt.
    apply (inv_owned _ _ _ _ _ s (set_waker (Some t)) (FUpdate n s)); simpl; eauto.
    destruct (own s) eqn:E; try (destruct Hatt as [? | ?]; [done|by right]).
    destruct (wpc c); try at_slot. case_match; [done|at_slot].
  - (* FResult *) apply bind_Some in Hs as (sl & Hsl & Hs). simplify_eq. exists own.
    destruct Hfo as [r E]. pose proof (i_slot0 _ _ Hsl) as Hok. rewrite E in Hok. destruct Hok as (_ & _ & -> & _).
    apply (inv_owned _ _ _ _ _ s id (FResult n s)); simpl; eauto.
  - (* FClear *) simplify_eq. exists own.
    apply (inv_owned _ _ _ _ _ s (set_waker None) (FClear n s r)); simpl in *; eauto.
  - (* FFree *) simplify_eq. simpl in Hfo.
    assert (((t, n), r) ∈ performed (sh c)) as Hp.
    { destruct (slots (sh c) !! s) as [sl|] eqn:Hsl.
      - specialize (i_slot0 _ _ Hsl). rewrite Hfo in i_slot0. apply i_slot0.
      - apply lookup_ge_None in Hsl. rewrite i_range0 in Hfo by lia. done. }
    eapply inv_give; eauto; simpl; try done; [by rewrite Hfo|]. intros own' c' ->. done.
  - (* FFinish *) pose proof (next_step_same_ops p (sh c)) as So.
    destruct (next_step p (sh c)) as [h2 [p'|]]; simplify_eq; exists own; [by eapply inv_quiet|].
    apply inv_returns; [by eapply inv_quiet|]. by rewrite (so_performed _ _ So : performed h2 = performed (sh c)).
  - (* DClear *) simplify_eq. exists own. simpl in Hfo.
    apply (inv_owned _ _ _ _ _ s (set_waker None) (DClear n s)); simpl; eauto.
  - (* DLoad *) apply bind_Some in Hs as (sl & Hsl & Hs). pose proof (i_slot0 _ _ Hsl) as Hok. simpl in Hfo.
    destruct (completed sl) eqn:Ec; [|destruct (deciding s (wpc c)) eqn:Ed]; simplify_eq/=; exists own.
    + apply (inv_owned _ _ _ _ _ s id (DLoad n s)); simpl; eauto.
      destruct Hfo as [E | ?]; [|done]. rewrite E in Hok. destruct Hok. congruence.
    + apply (inv_owned _ _ _ _ _ s id (DLoad n s)); simpl; eauto.
      destruct Hfo as [E | [r E]]; [done|]. rewrite E in Hok. destruct Hok. congruence.
  - (* DFree *) simplify_eq. destruct Hfo as [r E]. eapply inv_give; eauto; simpl; try done. by rewrite E.
  - (* DFinish *) pose proof (next_step_same_ops p (sh c)) as So.
    destruct (next_step p (sh c)) as [h2 [p'|]]; simplify_eq; exists own; by eapply inv_quiet.
  - (* DMark *) injection Hs as <- <-. destruct Hfo as [E Hd].
    assert (s < m)%nat as Hsm.
    { destruct (decide (s < m)%nat); [done|]. by rewrite i_range0 in E by lia. }
    exists (<[s := Orphan (t, n)]> own).
    apply (inv_moved _ _ _ _ _ _ _ (set_dropped true) (DMark n s)); simpl; rewrite ?E; auto; try done; [congruence|].
    intros s'. rewrite i_free0. destruct (decide (s' = s)) as [-> |].
    + rewrite fn_lookup_insert, E. naive_solver.
    + by rewrite fn_lookup_insert_ne.
  - (* DCancel *) simplify_eq. exists own. by eapply inv_quiet.
Qed.

Lemma inv_clear m nf own h fs w t :
  inv m nf own (Conf h fs w) ->
  (forall f, fs !! t = Some f -> match f with FUpdate _ _ | FParked _ _ => False | _ => True end) ->
  inv m nf own (Conf (set_awake t false h) fs w).
Proof.
  intros [] Hf. split; try done; [|by destruct i_ring0|]; simpl in *.
  - by rewrite length_insert.
  - intros t' f Hft. specialize (i_att0 t' f Hft). destruct (decide (t' = t)) as [-> |].
    + specialize (Hf f Hft). destruct f; try done; simpl in *. destruct (own s); auto.
    + destruct f; try done; simpl in *; rewrite list_lookup_insert_ne by done; done.
Qed.

(** ** Steps of the worker *)

(** What a fiber's program point says while its operation is under way does not
    depend on the slot's record. *)
Lemma fiber_ok_submitted own c c' t f s :
  fiber_ok own c t f -> slot_of f = Some s -> submitted (own s) <> None ->
  deciding s (wpc c') = false \/ deciding s (wpc c') = deciding s (wpc c) ->
  fiber_ok own c' t f.
Proof.
  destruct f; simpl; intros Hf [= ->] Hs Hd; try done;
    repeat match goal with
    | H : _ /\ _ |- _ => destruct H as [? ?]
    | H : exists _, _ |- _ => destruct H as [? ?]
    end; try (by match goal with E : own s = _ |- _ => rewrite E in Hs end).
  split; [done|]. destruct Hd as [-> | ->]; done.
Qed.

(** A step of the worker on slot [x]. *)
Lemma inv_worker m nf own own' c x g h' w' :
  inv m nf own c ->
  let c' := Conf h' (fibers c) w' in
  (forall s, s <> x -> own' s = own s) -> owner (own' x) = owner (own x) ->
  ((m <= x)%nat -> own' x = Free) ->
  slots h' = alter g x (slots (sh c)) ->
  length (awake h') = length (awake (sh c)) ->
  NoDup (free_slots h') /\ (forall s, s ∈ free_slots h' <-> (s < m)%nat /\ own' s = Free) ->
  ring_ok own' c' ->
  (forall o r, (o, r) ∈ performed (sh c) -> (o, r) ∈ performed h') -> returned h' = returned (sh c) ->
  (forall sl, slots (sh c) !! x = Some sl -> slot_ok (own' x) (performed h') (g sl)) ->
  (forall t f, fibers c !! t = Some f -> slot_of f = Some x -> fiber_ok own' c' t f) ->
  (forall t n s, fibers c !! t = Some (DMark n s) -> s <> x -> deciding s w' = false) ->
  (forall s, own' s = Held None -> match w' with WDropped s' _ _ | WFree s' _ => s' = s | _ => False end) ->
  worker_ok own' c' ->
  (forall t f, fibers c !! t = Some f -> attended own' c' t f) ->
  inv m nf own' c'.
Proof.
  intros [] c' Hown Ho Hm Hg Hla [Hnd Hfr] Hr Hp Hre Hsl Hfo Hd Hh Hw Ha. simpl.
  split; simpl; auto.
  - rewrite Hg, length_alter. done.
  - lia.
  - intros s Hms. destruct (decide (s = x)) as [-> |]; [auto|]. rewrite Hown by done. auto.
  - intros s sl Hss. rewrite Hg in Hss. apply lookup_alter_Some in Hss as [(-> & y & Hy & ->) | [? Hss]]; [auto|].
    rewrite Hown by done. specialize (i_slot0 s sl Hss). destruct (own s); simpl in *; try done. naive_solver.
  - intros t f Hf. destruct (decide (slot_of f = Some x)); [auto|].
    eapply fiber_ok_ext; [by apply i_fiber0| | |done].
    + intros s Hs. assert (s <> x) by congruence. split; [auto|]. simpl. rewrite Hg. by apply list_lookup_alter_ne.
    + intros n' s ->. apply (Hd t n'); [done|]. simpl in *. congruence.
  - intros s t Hot. destruct (decide (s = x)) as [-> |]; [rewrite Ho in Hot; auto|]. rewrite Hown in Hot by done. auto.
  - rewrite Hre. auto.
Qed.

Definition carries (w : worker_pc) (s t : nat) : Prop :=
  match w with WDropped s' w _ => s' = s /\ w = Some t | WWake w _ => w = Some t | _ => False end.
Definition publishing (w : worker_pc) : bool := match w with WPublish _ _ _ _ _ => true | _ => false end.

Lemma attended_worker own c h' w' t f :
  attended own c t f -> fiber_ok own c t f ->
  (forall s sl', slots h' !! s = Some sl' -> exists sl, slots (sh c) !! s = Some sl /\ waker sl' = waker sl) ->
  publishing (wpc c) = false -> publishing w' = false ->
  (forall t, awake (sh c) !! t = Some true -> awake h' !! t = Some true) ->
  (forall s, owner (own s) = Some t -> carries (wpc c) s t -> carries w' s t \/ awake h' !! t = Some true) ->
  attended own (Conf h' (fibers c) w') t f.
Proof.
  intros Ha Hf Hs Hp Hp' Hk Hc.
  assert (forall s, (forall sl, slots (sh c) !! s = Some sl -> waker sl = Some t) ->
                    forall sl, slots h' !! s = Some sl -> waker sl = Some t) as Hw.
  { intros s H sl (sl' & Hsl & ->)%Hs. auto. }
  pose proof (fun s => fiber_owns _ _ _ _ s Hf) as Ho.
  destruct f; simpl in *; try done; specialize (Ho _ eq_refl); simpl in Ho;
    specialize (Hc _ Ho); destruct (own s); try done;
    try (destruct (wpc c); try done; destruct w'; try done; by apply Hw);
    (destruct Ha as [? | [? | Ha]]; [by left|auto|]; destruct (Hc Ha); auto).
Qed.

Lemma ring_move own c c' :
  ring_ok own c -> fibers c' = fibers c ->
  outstanding c' ≡ₚ outstanding c ->
  (forall s o r, (s, o, r) ∈ results c' -> (o, r) ∈ performed (sh c')) ->
  (pending c').*2 ++ (performed (sh c')).*1 ≡ₚ (pending c).*2 ++ (performed (sh c)).*1 ->
  ring_ok own c'.
Proof.
  intros [] Hf Ho Hr Hp. split; rewrite ?Ho, ?Hf; try done.
  - intros. by rewrite Ho.
  - by rewrite Hp.
  - intros t n. rewrite Hp. auto.
Qed.

(** A step of the worker that touches no slot. *)
Lemma inv_worker_quiet m nf own c h' w' :
  inv m nf own c ->
  free_slots h' = free_slots (sh c) -> slots h' = slots (sh c) ->
  length (awake h') = length (awake (sh c)) ->
  (forall t, awake (sh c) !! t = Some true -> awake h' !! t = Some true) ->
  returned h' = returned (sh c) ->
  (forall o r, (o, r) ∈ performed (sh c) -> (o, r) ∈ performed h') ->
  ring_ok own (Conf h' (fibers c) w') ->
  publishing (wpc c) = false -> publishing w' = false ->
  (forall s, own s = Held None -> match w' with WDropped s' _ _ | WFree s' _ => s' = s | _ => False end) ->
  worker_ok own (Conf h' (fibers c) w') ->
  (forall s, deciding s w' = false) ->
  (forall s t, owner (own s) = Some t -> carries (wpc c) s t -> carries w' s t \/ awake h' !! t = Some true) ->
  inv m nf own (Conf h' (fibers c) w').
Proof.
  intros H Hf Hs Hl Hk Hre Hp Hr Hp1 Hp2 Hh Hw Hd Hc. pose proof H as [].
  apply (inv_worker m nf own own c m id); auto.
  - rewrite Hs. symmetry. by apply list_alter_id.
  - by rewrite Hf.
  - intros sl Hsl. by rewrite i_range0.
  - intros t f Hft Hso. apply i_fiber0 in Hft. apply (fiber_owns _ _ _ _ _ Hft) in Hso. by rewrite i_range0 in Hso.
  - intros t f Hft. eapply attended_worker; eauto. rewrite Hs. eauto.
Qed.

Lemma ring_quiet own c h' w' :
  ring_ok own c -> queues h' = queues (sh c) -> kernel h' = kernel (sh c) ->
  cq h' ++ in_hand w' = results c -> performed h' = performed (sh c) ->
  ring_ok own (Conf h' (fibers c) w').
Proof.
  intros [] Hq Hk Hc Hp. unfold outstanding, pending, results in *.
  split; unfold outstanding, pending, results; simpl in *; rewrite ?Hq, ?Hk, ?Hc, ?Hp; done.
Qed.

Lemma next_step_queues p h : queues (next_step p h).1 = queues h.
Proof. apply next_step_same_ops. Qed.

Definition moved_on (w : worker_pc) : bool :=
  match w with WScan _ | WCancels | WReap _ | WNext _ _ | WWake _ _ | WStore _ _ _ _ => true | _ => false end.

(** The same for a step after which nothing is being decided. *)
Lemma inv_worker_on m nf own c h' w' :
  inv m nf own c -> same_ops (sh c) h' ->
  moved_on w' = true -> in_hand w' = in_hand (wpc c) ->
  (forall s, own s <> Held None) -> publishing (wpc c) = false ->
  (forall s t, owner (own s) = Some t -> carries (wpc c) s t -> carries w' s t \/ awake h' !! t = Some true) ->
  inv m nf own (Conf h' (fibers c) w').
Proof.
  intros H [] Hm Hh Hn Hp Hc. apply inv_worker_quiet; auto.
  - by rewrite so_performed0.
  - destruct H as []. apply ring_quiet; auto. by rewrite so_cq0, Hh.
  - by destruct w'.
  - intros s Hs. by destruct (Hn s).
  - by destruct w'.
  - by destruct w'.
Qed.

(** Outside a decision no slot is the worker's. *)
Lemma not_held m nf own c :
  inv m nf own c -> match wpc c with WDropped _ _ _ | WFree _ _ => False | _ => True end ->
  forall s, own s <> Held None.
Proof. intros [] Hm s Hs. apply i_held0 in Hs. by destruct (wpc c). Qed.

Lemma find_slot_spec s l o rest : find_slot s l = Some (o, rest) -> (s, o) :: rest ≡ₚ l.
Proof.
  revert rest. induction l as [|[s' o'] l IH]; intros rest H; simplify_eq/=.
  destruct (Nat.eqb_spec s' s) as [-> |]; [by simplify_eq|].
  apply bind_Some in H as ([o2 r2] & H & E). simplify_eq.
  rewrite <- (IH r2 H). apply perm_swap.
Qed.

(** An operation leaves the kernel with result [r]. *)
Lemma ring_complete own c s o r rest :
  ring_ok own c -> (s, o) :: rest ≡ₚ kernel (sh c) -> forall w', in_hand w' = in_hand (wpc c) ->
  forall h', queues h' = queues (sh c) -> kernel h' = rest -> cq h' = cq (sh c) ++ [(s, o, r)] ->
  performed h' = (o, r) :: performed (sh c) ->
  ring_ok own (Conf h' (fibers c) w').
Proof.
  intros H Hk w' Hw h' Eq Ek Ec Ep. pose proof H as [].
  apply (ring_move _ c); unfold outstanding, pending, results in *; simpl; rewrite ?Eq, ?Ek, ?Ec, ?Ep, ?Hw; auto.
  - rewrite <- Hk, <- (Permutation_middle (concat (queues (sh c))) rest), !fmap_app, <- (app_assoc (cq (sh c)).*1).
    change ([(s, o, r)].*1 ++ (in_hand (wpc c)).*1) with ((s, o) :: (in_hand (wpc c)).*1).
    by rewrite <- (Permutation_middle (cq (sh c)).*1), <- Permutation_middle.
  - intros s' o' r'. rewrite !elem_of_app. specialize (r_results0 s' o' r'). rewrite elem_of_app in r_results0.
    rewrite !elem_of_cons, elem_of_nil. naive_solver.
  - rewrite <- Hk. rewrite !fmap_app. simpl. rewrite <- !Permutation_middle. done.
Qed.

Lemma ring_cancel own c s l w' :
  ring_ok own c -> in_hand w' = in_hand (wpc c) ->
  ring_ok own (Conf (async_cancel s (set_cancels l (sh c))) (fibers c) w').
Proof.
  intros H Hw. unfold async_cancel. simpl.
  destruct (find_slot s (kernel (sh c))) as [[o rest]|] eqn:E.
  - eapply ring_complete; eauto. by apply find_slot_spec.
  - apply ring_quiet; auto. simpl. by rewrite Hw.
Qed.

(** The operation whose completion the worker has in hand. *)
Lemma in_hand_submitted own c s o r b :
  ring_ok own c -> in_hand (wpc c) = (s, o, r) :: b -> submitted (own s) = Some o.
Proof.
  intros [] Hb. apply r_out0. unfold outstanding, results. rewrite Hb, fmap_app. simpl.
  rewrite !elem_of_app, elem_of_cons. auto.
Qed.

Lemma submitted_range m nf own c s o : inv m nf own c -> submitted (own s) = Some o -> (s < m)%nat.
Proof.
  intros [] H. destruct (decide (s < m)%nat); [done|]. by rewrite i_range0 in H by lia.
Qed.

(** A write into the record of a slot whose operation is under way, which keeps the
    flags [completed] and [dropped]. *)
Lemma inv_worker_write m nf own c s o r b g w' :
  inv m nf own c -> in_hand (wpc c) = (s, o, r) :: b -> in_hand w' = (s, o, r) :: b ->
  (forall sl, completed (g sl) = completed sl /\ dropped (g sl) = dropped sl) ->
  match w' with WDropped _ _ _ | WFree _ _ => False | _ => True end ->
  (forall s, own s <> Held None) ->
  let c' := Conf (on_slot s g (sh c)) (fibers c) w' in
  worker_ok own c' -> (forall t f, fibers c !! t = Some f -> attended own c' t f) ->
  inv m nf own c'.
Proof.
  intros H Hb Hb' Hg Hd Hn c' Hw Ha. pose proof H as [].
  pose proof (in_hand_submitted _ _ _ _ _ _ i_ring0 Hb) as Hsub.
  apply (inv_worker m nf own own c s g); auto.
  - apply ring_quiet; auto. simpl. unfold results. by rewrite Hb, Hb'.
  - intros sl Hsl. specialize (i_slot0 s sl Hsl). specialize (Hg sl) as [Hc Hdr].
    destruct (own s); simpl in *; rewrite ?Hc, ?Hdr; done.
  - intros t f Hf Hs. eapply fiber_ok_submitted; eauto; [by rewrite Hsub|]. left. by destruct w'.
  - intros t n s' _ _. by destruct w'.
  - intros s' Hh. by destruct (Hn s').
Qed.

(** What a slot becomes when its completion is published. *)
Definition published (r : Z) (p : phase) : phase :=
  match p with Live t n => Finished t n r | _ => Held None end.

Lemma ring_publish own c s o r wk b :
  ring_ok own c -> wpc c = WPublish s o r wk b ->
  ring_ok (<[s := published r (own s)]> own)
    (Conf (on_slot s (set_completed true) (sh c)) (fibers c) (WDropped s wk b)).
Proof.
  intros H Ew. pose proof (in_hand_submitted _ c s o r b H ltac:(by rewrite Ew)) as Hsub. destruct H.
  set (c' := Conf _ _ _).
  assert (outstanding c ≡ₚ (s, o) :: outstanding c') as Eo.
  { unfold outstanding, results, pending. rewrite Ew. simpl. rewrite !fmap_app. simpl.
    by rewrite <- !Permutation_middle. }
  rewrite Eo in r_nodup0. simpl in r_nodup0. apply NoDup_cons in r_nodup0 as [Hni Hnd].
  split; auto.
  - intros s' o'. destruct (decide (s' = s)) as [-> |].
    + rewrite fn_lookup_insert. split.
      * intros Hin. destruct Hni. apply list_elem_of_fmap. by exists (s, o').
      * intros Hs. exfalso. by destruct (own s).
    + rewrite fn_lookup_insert_ne by done. rewrite <- r_out0, Eo, elem_of_cons. naive_solver.
  - intros s' o' r' Hr. apply (r_results0 s' o' r'). unfold results in *. rewrite Ew. simpl in *.
    rewrite elem_of_app, elem_of_cons in *. naive_solver.
Qed.

(** A waiting fiber stays attended when the completion of slot [s] is published. *)
Lemma attended_publish own c s o r wk b t f :
  attended own c t f -> wpc c = WPublish s o r wk b ->
  attended (<[s := published r (own s)]> own)
    (Conf (on_slot s (set_completed true) (sh c)) (fibers c) (WDropped s wk b)) t f.
Proof.
  intros Ha Ew.
  assert (forall s' sl, alter (set_completed true) s (slots (sh c)) !! s' = Some sl ->
    exists y, slots (sh c) !! s' = Some y /\ waker sl = waker y) as Hwk.
  { intros s' sl [(-> & y & Hy & ->) | [? Hy]]%lookup_alter_Some; eauto. }
  destruct f as [| | | | | | | | | | | | | | |n s'|n s'|n s'| | | | | | | | | |]; try done; simpl in Ha |- *; rewrite Ew in Ha;
    (destruct (decide (s' = s)) as [-> | Hne];
      [rewrite fn_lookup_insert; rewrite Nat.eqb_refl in Ha; destruct (own s); simpl; naive_solver|
       rewrite fn_lookup_insert_ne by done; destruct (own s') eqn:E; try naive_solver;
       rewrite (proj2 (Nat.eqb_neq s s')) in Ha by done; intros sl (y & Hy & ->)%Hwk; auto]).
Qed.

Lemma published_fiber own c c' s r t f :
  fiber_ok own c t f -> slot_of f = Some s -> submitted (own s) <> None -> (forall n, f <> DMark n s) ->
  fiber_ok (<[s := published r (own s)]> own) c' t f.
Proof.
  intros Hf Hs Hsub Hm.
  destruct f; simplify_eq/=; try done;
    repeat match goal with
    | H : _ /\ _ |- _ => destruct H as [? ?]
    | H : exists _, _ |- _ => destruct H as [? ?]
    | H : _ \/ _ |- _ => destruct H as [H | H]
    end;
    try (by match goal with E : own s = _ |- _ => rewrite E in Hsub end);
    match goal with E : own s = _ |- _ => rewrite fn_lookup_insert, E; simpl; eauto end.
  by destruct (Hm n).
Qed.

Lemma publish_inv m nf own c s o r wk b :
  inv m nf own c -> wpc c = WPublish s o r wk b -> existsb (marking s) (fibers c) = false ->
  exists own', inv m nf own' (Conf (on_slot s (set_completed true) (sh c)) (fibers c) (WDropped s wk b)).
Proof.
  intros H Ew Hmk. pose proof H as [].
  pose proof (in_hand_submitted _ c s o r b i_ring0 ltac:(by rewrite Ew)) as Hsub.
  pose proof (submitted_range _ _ _ _ _ _ H Hsub) as Hsm.
  assert ((o, r) ∈ performed (sh c)) as Hperf.
  { destruct i_ring0. apply (r_results0 s). unfold results. rewrite Ew. simpl. rewrite elem_of_app, elem_of_cons. auto. }
  exists (<[s := published r (own s)]> own).
  assert (forall s', s' <> s -> <[s := published r (own s)]> own s' = own s') as Hne by (intros; by rewrite fn_lookup_insert_ne).
  apply (inv_worker m nf own _ c s (set_completed true)); rewrite ?fn_lookup_insert; auto.
  - by destruct (own s).
  - lia.
  - split; [done|]. intros s'. rewrite i_free0. destruct (decide (s' = s)) as [-> |]; [|by rewrite Hne].
    rewrite fn_lookup_insert. clear -Hsub. destruct (own s); naive_solver.
  - by eapply ring_publish.
  - intros sl Hsl. specialize (i_slot0 s sl Hsl). unfold worker_ok in i_worker0. rewrite Ew in i_worker0.
    destruct (own s); simpl in *; simplify_eq; try done. destruct i_slot0. auto.
  - intros t f Hf Hso. eapply (published_fiber own c); [by apply i_fiber0|done|by rewrite Hsub|]. intros n ->.
    assert (existsb (marking s) (fibers c) = true) as E; [|congruence].
    apply existsb_exists. exists (DMark n s). split; [|simpl; by rewrite Nat.eqb_refl].
    apply list_elem_of_In. by eapply list_elem_of_lookup_2.
  - intros t n s' _ Hs'. simpl. by apply Nat.eqb_neq.
  - intros s' Hh. destruct (decide (s' = s)) as [-> | Hn]; [done|].
    rewrite Hne in Hh by done. apply i_held0 in Hh. by rewrite Ew in Hh.
  - unfold worker_ok. simpl. at_slot. rewrite fn_lookup_insert.
    match goal with E : _ !! s = Some ?y |- _ => specialize (i_slot0 s y E) end.
    destruct (own s); simpl in *; try done; try (by rewrite i_slot0).
    destruct i_slot0 as [_ E]. rewrite E. done.
  - intros t f Hf. eapply attended_publish; eauto.
Qed.

Lemma decide_inv m nf own c s wk b sl :
  inv m nf own c -> wpc c = WDropped s wk b -> slots (sh c) !! s = Some sl ->
  inv m nf own (Conf (sh c) (fibers c) (if dropped sl then WFree s b else WWake wk b)).
Proof.
  intros H Ew Hsl. pose proof H as []. pose proof i_worker0 as Hwo. unfold worker_ok in Hwo. rewrite Ew in Hwo.
  specialize (Hwo sl Hsl). rewrite Ew in i_held0.
  apply inv_worker_quiet; rewrite ?Ew; auto; try done.
  - apply ring_quiet; auto. unfold results. rewrite Ew. by destruct (dropped sl).
  - by destruct (dropped sl).
  - intros s' Hs'. specialize (i_held0 s' Hs') as <-. by rewrite (proj1 Hwo Hs').
  - unfold worker_ok. simpl. destruct (dropped sl); [|done]. by apply Hwo.
  - by destruct (dropped sl).
  - intros s' t Ho [-> ->]. left. destruct (dropped sl); [|done]. by rewrite (proj2 Hwo eq_refl) in Ho.
Qed.

Lemma recycle_inv m nf own c s b :
  inv m nf own c -> wpc c = WFree s b ->
  exists own', inv m nf own' (Conf (set_free (s :: free_slots (sh c)) (sh c)) (fibers c) (WNext NPop b)).
Proof.
  intros H Ew. pose proof H as []. pose proof i_worker0 as Hs. unfold worker_ok in Hs. rewrite Ew in Hs, i_held0.
  assert (s < m)%nat as Hsm.
  { destruct (decide (s < m)%nat); [done|]. by rewrite i_range0 in Hs by lia. }
  exists (<[s := Free]> own).
  assert (forall s', s' <> s -> <[s := Free]> own s' = own s') as Hne by (intros; by rewrite fn_lookup_insert_ne).
  apply (inv_worker m nf own _ c s id); rewrite ?fn_lookup_insert; auto.
  - by rewrite Hs.
  - symmetry. by apply list_alter_id.
  - split.
    + apply NoDup_cons. split; [|done]. intros [_ E]%i_free0. congruence.
    + intros s'. simpl. rewrite elem_of_cons. destruct (decide (s' = s)) as [-> |].
      * rewrite fn_lookup_insert. naive_solver.
      * rewrite Hne by done. rewrite <- i_free0. naive_solver.
  - apply (ring_same own _ c); simpl; auto; [|by rewrite Ew|eauto].
    intros s'. destruct (decide (s' = s)) as [-> |]; [by rewrite fn_lookup_insert, Hs|by rewrite Hne].
  - done.
  - intros t f Hf Hso. apply i_fiber0 in Hf. apply (fiber_owns _ _ _ _ _ Hf) in Hso. by rewrite Hs in Hso.
  - intros s' Hh. destruct (decide (s' = s)) as [-> | Hn]; [by rewrite fn_lookup_insert in Hh|].
    rewrite Hne in Hh by done. apply i_held0 in Hh. congruence.
  - done.
  - intros t f Hf. assert (attended own (Conf (sh c) (fibers c) (WNext NPop b)) t f) as Ha.
    { eapply attended_worker; rewrite ?Ew; eauto; done. }
    pose proof (i_fiber0 t f Hf) as Hfo. pose proof (fun s => fiber_owns _ _ _ _ s Hfo) as Ho.
    destruct f; try done; simpl in *; (rewrite Hne; [done|intros ->; specialize (Ho _ eq_refl); by rewrite Hs in Ho]).
Qed.

Lemma worker_step_inv m nf own c h' w' :
  inv m nf own c -> worker_step true (wpc c) (fibers c) (sh c) = Some (h', w') ->
  exists own', inv m nf own' (Conf h' (fibers c) w').
Proof.
  intros H Hs. pose proof H as [].
  destruct (wpc c) as [i| |[|[[s o] r] b]|s o r b|s o r b|s o r wk b|s wk b|s b|p b|wk b] eqn:Ew;
    cbn [worker_step loop_step completion_step] in Hs.
  - (* WScan *) assert (forall s, own s <> Held None) as Hn by (eapply not_held; [done|by rewrite Ew]).
    destruct (queues (sh c) !! i) as [[|[s o] rest]|] eqn:Eq; simplify_eq; exists own.
    + apply inv_worker_on; auto; by rewrite Ew.
    + apply inv_worker_quiet; simpl; rewrite ?Ew; auto; try done.
      apply (ring_move _ c); unfold outstanding, pending, results; simpl; auto; rewrite ?Ew.
      * rewrite <- (concat_insert_tail _ _ _ _ Eq). by rewrite app_assoc, <- Permutation_cons_append.
      * by destruct i_ring0; unfold results in *; rewrite Ew in *.
      * rewrite <- (concat_insert_tail _ _ _ _ Eq). by rewrite app_assoc, <- Permutation_cons_append.
    + apply inv_worker_on; rewrite ?Ew; auto; done.
  - (* WCancels *) assert (forall s, own s <> Held None) as Hn by (eapply not_held; [done|by rewrite Ew]).
    destruct (cancel_queue (sh c)) as [|s rest] eqn:Eq; simplify_eq; exists own.
    + apply inv_worker_quiet; simpl; rewrite ?Ew; auto; try done.
      apply ring_quiet; simpl; auto. unfold results. by rewrite Ew, app_nil_r.
    + apply inv_worker_quiet; rewrite ?Ew; auto; try done; try (unfold async_cancel; simpl; by case_match; [case_match|]).
      * unfold async_cancel; simpl. case_match; [case_match|]; simpl; auto. intros. by right.
      * apply ring_cancel; [done|by rewrite Ew].
  - (* WReap *) assert (forall s, own s <> Held None) as Hn by (eapply not_held; [done|by rewrite Ew]).
    simplify_eq. exists own. apply inv_worker_on; rewrite ?Ew; auto; done.
  - assert (forall s, own s <> Held None) as Hn by (eapply not_held; [done|by rewrite Ew]).
    simplify_eq. exists own. apply inv_worker_on; rewrite ?Ew; auto; done.
  - (* WStore *) assert (forall s, own s <> Held None) as Hn by (eapply not_held; [done|by rewrite Ew]).
    injection Hs as <- <-. exists own. eapply inv_worker_write; rewrite ?Ew; eauto; try done; [at_slot|].
    intros t f Hf. eapply attended_worker; rewrite ?Ew; eauto.
    simpl. intros s' sl' [(-> & y & Hy & ->) | [? Hy]]%lookup_alter_Some; eauto.
  - (* WTake *) assert (forall s, own s <> Held None) as Hn by (eapply not_held; [done|by rewrite Ew]).
    apply bind_Some in Hs as (sl & Hsl & Hs). injection Hs as <- <-. exists own.
    eapply inv_worker_write; rewrite ?Ew; eauto; try done.
    + unfold worker_ok in *. rewrite Ew in i_worker0. simpl. at_slot.
    + intros t f Hf. apply i_att0 in Hf.
      destruct f; simpl in Hf |- *; try done; rewrite Ew in Hf; destruct (own _);
        try (destruct Hf as [? | [? | []]]; auto; done);
        (case_match eqn:En; [apply Nat.eqb_eq in En as ->; by apply Hf|apply Nat.eqb_neq in En];
         rewrite list_lookup_alter_ne by done; done).
  - (* WPublish *) destruct (existsb (marking s) (fibers c)) eqn:Ex; simplify_eq/=. by eapply publish_inv.
  - (* WDropped *) apply bind_Some in Hs as (sl & Hsl & Hs). injection Hs as <- <-. exists own. by apply decide_inv.
  - (* WFree *) injection Hs as <- <-. by eapply recycle_inv.
  - (* WNext *) assert (forall s, own s <> Held None) as Hn by (eapply not_held; [done|by rewrite Ew]).
    pose proof (next_step_same_ops p (sh c)) as So.
    destruct (next_step p (sh c)) as [h2 [p'|]]; simplify_eq; exists own;
      apply inv_worker_on; rewrite ?Ew; auto; done.
  - (* WWake *) assert (forall s, own s <> Held None) as Hn by (eapply not_held; [done|by rewrite Ew]).
    simplify_eq. exists own. apply inv_worker_on; rewrite ?Ew; auto; try done.
    intros s t Ho Hc. right. simpl in Hc. subst wk. simpl.
    apply list_lookup_insert_eq. apply i_owner0 in Ho as (f & Hf & _).
    apply lookup_lt_Some in Hf. lia.
Qed.

(** ** Every step keeps the invariant *)

Lemma poll_inv m nf own c t f f' :
  inv m nf own c -> fibers c !! t = Some f ->
  match f, f' with
  | FNew n, FPop n' => n = n'
  | FParked n s, FLoad n' s' => n = n' /\ s = s'
  | _, _ => False
  end ->
  inv m nf own (Conf (set_awake t false (sh c)) (<[t := f']> (fibers c)) (wpc c)).
Proof.
  intros H Hf Hp. pose proof (lookup_lt_Some _ _ _ Hf) as Hlt. pose proof H as [].
  apply inv_clear.
  - destruct f, f'; try done; [subst n0; by eapply inv_quiet|]. destruct Hp as [<- <-].
    pose proof (i_fiber0 t _ Hf) as Hfo. pose proof (i_att0 t _ Hf) as Hatt. simpl in Hfo, Hatt.
    apply (inv_owned _ _ _ _ _ s id (FParked n s)); simpl; auto.
    destruct (own s); try done; auto.
  - intros f2 Hf2. rewrite list_lookup_insert_eq in Hf2 by done. simplify_eq. by destruct f, f2.
Qed.

Lemma kernel_inv m nf own c i s o r :
  inv m nf own c -> kernel (sh c) !! i = Some (s, o) ->
  inv m nf own (Conf (set_ring (delete i (kernel (sh c))) (cq (sh c) ++ [(s, o, r)])
                        ((o, r) :: performed (sh c)) (sh c)) (fibers c) (wpc c)).
Proof.
  intros H Hi. pose proof H as [].
  assert (ring_ok own (Conf (set_ring (delete i (kernel (sh c))) (cq (sh c) ++ [(s, o, r)])
            ((o, r) :: performed (sh c)) (sh c)) (fibers c) (wpc c))) as Hr.
  { eapply ring_complete; eauto. symmetry. by apply delete_Permutation. }
  split; simpl; auto.
  - intros s' sl Hsl. specialize (i_slot0 s' sl Hsl). destruct (own s'); simpl in *; try done.
    destruct_and?. repeat split; auto. by right.
  - intros t f Hf. eapply fiber_ok_ext; [by apply i_fiber0|done| |intros; by right].
    intros n s' ->. by apply i_fiber0 in Hf as [_ ?].
  - intros o' r' Hret. right. auto.
Qed.

Lemma step_inv m nf own cap c c' :
  inv m nf own c -> step cap true c c' -> exists own', inv m nf own' c'.
Proof.
  intros H [l Hl]. destruct l as [t|t|t|t q| |i r]; simpl in Hl.
  - destruct (fibers c !! t) as [f|] eqn:Hf; [|done]. destruct f; simplify_eq. exists own. by eapply inv_quiet.
  - destruct (fibers c !! t) as [f|] eqn:Hf; [|done].
    destruct f; simplify_eq; exists own; by eapply poll_inv.
  - destruct (fibers c !! t) as [f|] eqn:Hf; [|done]. destruct f; simplify_eq; exists own.
    + apply (inv_quiet _ _ _ _ _ (FNew n)); simpl; auto.
    + pose proof H as []. pose proof (i_fiber0 t _ Hf) as Hfo. simpl in Hfo.
      apply (inv_owned _ _ _ _ _ s id (FParked n s)); simpl; auto.
  - apply bind_Some in Hl as (f & Hf & Hl). apply bind_Some in Hl as ([h' f'] & Hs & Hl). simplify_eq.
    by eapply fiber_step_inv.
  - apply bind_Some in Hl as ([h' w'] & Hs & Hl). simplify_eq. by eapply worker_step_inv.
  - apply bind_Some in Hl as ([s o] & Hi & Hl). simplify_eq. exists own. by apply kernel_inv.
Qed.

Lemma start_inv m k nq nf : inv m nf (fun _ => Free) (start m k nq nf).
Proof.
  split; simpl; try done.
  - apply length_replicate.
  - apply length_replicate.
  - apply length_replicate.
  - rewrite reverse_Permutation. apply NoDup_seq.
  - intros s. rewrite elem_of_reverse, elem_of_seq. naive_solver lia.
  - assert (concat (replicate nq ([] : list (nat * op))) = []) as E by (by induction nq).
    split; unfold outstanding, pending, results; simpl; rewrite ?E; simpl; try done.
    + apply NoDup_nil_2.
    + intros s o. split; [by intros ?%elem_of_nil|done].
    + by intros ? ? ? ?%elem_of_nil.
    + apply NoDup_nil_2.
    + by intros ? ? ?%elem_of_nil.
  - by intros t f [-> ?]%lookup_replicate.
  - by intros t f [-> ?]%lookup_replicate.
Qed.

Lemma reachable_inv m k nq nf cap c :
  rtc (step cap true) (start m k nq nf) c -> exists own, inv m nf own c.
Proof.
  intros H. remember (start m k nq nf) as c0 eqn:E.
  assert (exists own, inv m nf own c0) as H0 by (subst; eexists; apply start_inv). clear E.
  induction H as [|c1 c2 c3 Hs _ IH]; [done|]. apply IH. destruct H0. by eapply step_inv.
Qed.

Lemma run_reachable cap calm ls c c' : run cap calm ls c = Some c' -> rtc (step cap calm) c c'.
Proof.
  revert c. induction ls as [|l ls IH]; intros c H; simplify_eq/=; [done|].
  apply bind_Some in H as (c1 & Hl & H). eapply rtc_l; [by exists l|auto].
Qed.

(** ** Properties *)

(** The worker is putting slot [s] back. *)
Definition recycling (w : worker_pc) (s : nat) : Prop :=
  match w with WDropped s' _ _ | WFree s' _ => s' = s | _ => False end.

(** C26.  In every execution in which the decisions of a [drop] and of the completion of the
    same slot do not overlap, whatever is polled, dropped, cancelled or completed when, no slot is
    lost and none is shared: a slot is on the free list once, and then no fiber has
    it and nothing is under way on it; two fibers never have the same slot; a slot that is not free is
    a fiber's, or its operation is under way, or the worker is putting it back. *)
Theorem io_slots_conserved m k nq nf cap c :
  rtc (step cap true) (start m k nq nf) c ->
  NoDup (free_slots (sh c)) /\
  (forall s, s ∈ free_slots (sh c) ->
    (s < m)%nat /\ (forall t f, fibers c !! t = Some f -> slot_of f <> Some s) /\
    forall o, (s, o) ∉ outstanding c) /\
  (forall t1 t2 f1 f2 s, fibers c !! t1 = Some f1 -> fibers c !! t2 = Some f2 ->
    slot_of f1 = Some s -> slot_of f2 = Some s -> t1 = t2) /\
  (forall s, (s < m)%nat -> s ∉ free_slots (sh c) ->
    (exists t f, fibers c !! t = Some f /\ slot_of f = Some s) \/
    (exists o, (s, o) ∈ outstanding c) \/ recycling (wpc c) s).
Proof.
  intros (own & [])%reachable_inv.
  assert (forall t f s, fibers c !! t = Some f -> slot_of f = Some s -> owner (own s) = Some t) as Ho.
  { intros t f s Hf Hs. eapply fiber_owns; eauto. }
  split; [done|]. split; [|split].
  - intros s [Hs E]%i_free0. split; [done|]. split.
    + intros t f Hf Hso. pose proof (Ho t f s Hf Hso) as Hts. by rewrite E in Hts.
    + intros o Hso. apply (r_out _ _ i_ring0) in Hso. by rewrite E in Hso.
  - intros t1 t2 f1 f2 s H1 H2 Hs1 Hs2. pose proof (Ho _ _ _ H1 Hs1). pose proof (Ho _ _ _ H2 Hs2). congruence.
  - intros s Hs Hn. destruct (own s) as [|[t|]|t n|t n r|o] eqn:E.
    + destruct Hn. by apply i_free0.
    + left. exists t. apply i_owner0. by rewrite E.
    + right. right. apply i_held0 in E. by destruct (wpc c).
    + left. exists t. apply i_owner0. by rewrite E.
    + left. exists t. apply i_owner0. by rewrite E.
    + right. left. exists o. apply (r_out _ _ i_ring0). by rewrite E.
Qed.

(** One operation from its submission to the future's result. *)
Definition one_operation : list label :=
  [LNew 0; LPoll 0] ++ repeat (LFiber 0 0) 7 ++ repeat LWorker 1 ++ [LKernel 0 5] ++ repeat LWorker 9
  ++ [LPoll 0] ++ repeat (LFiber 0 0) 5.

Lemma io_slots_conserved_witness :
  exists c, run 256 true one_operation (start 2 2 1 1) = Some c /\ NoDup (free_slots (sh c)).
Proof.
  eexists. split; [vm_compute; reflexivity|].
  eapply (io_slots_conserved 2 2 1 1 256), run_reachable with (ls := one_operation). vm_compute. reflexivity.
Defined.





(** Nothing is under way, nobody has a slot, and all the queues are empty. *)
Definition at_rest (c : conf) : bool :=
  forallb (fun f => match slot_of f with Some _ => false | None => true end) (fibers c) &&
  bool_decide (outstanding c = []) && bool_decide (cancel_queue (sh c) = []) &&
  match wpc c with WScan 0 => true | _ => false end.

Definition leaking : list label :=
  [LNew 0; LPoll 0] ++ repeat (LFiber 0 0) 7 ++ repeat LWorker 1 ++ [LKernel 0 5] ++ repeat LWorker 3
  ++ [LDrop 0] ++ repeat (LFiber 0 0) 2 ++ repeat LWorker 7 ++ repeat (LFiber 0 0) 2 ++ repeat LWorker 5.
Definition doubling : list label :=
  [LNew 0; LPoll 0] ++ repeat (LFiber 0 0) 7 ++ repeat LWorker 1 ++ [LKernel 0 5] ++ repeat LWorker 7
  ++ [LPoll 0] ++ repeat (LFiber 0 0) 5 ++ [LNew 1; LPoll 1] ++ repeat (LFiber 1 0) 7 ++ [LDrop 1]
  ++ repeat (LFiber 1 0) 4 ++ repeat LWorker 7 ++ [LKernel 0 7] ++ repeat LWorker 10.

(** When the two decisions overlap a slot can be lost or recycled twice: a [drop] that loads
    [completed] before it is published and stores [dropped] after the worker has loaded it leaves the only
    slot in nobody's hands for ever; a worker that has published a completion, and loads [dropped] when
    the slot has been reused and dropped again, frees it while it is busy, and it ends up on
    the free list twice. *)
Theorem io_drop_race_breaks_slots :
  (exists c, rtc (step 256 false) (start 1 2 1 1) c /\ at_rest c = true /\ free_slots (sh c) = []) /\
  (exists c, rtc (step 256 false) (start 1 2 1 2) c /\ at_rest c = true /\ free_slots (sh c) = [0; 0]%nat).
Proof.
  split; eexists; (split; [eapply run_reachable|]).
  - by instantiate (2 := leaking); vm_compute.
  - split; reflexivity.
  - by instantiate (2 := doubling); vm_compute.
  - split; reflexivity.
Qed.

Definition cancelling : list label :=
  [LNew 0; LPoll 0] ++ repeat (LFiber 0 0) 7 ++ repeat LWorker 1 ++ [LKernel 0 5] ++ repeat LWorker 3
  ++ [LDrop 0] ++ repeat (LFiber 0 0) 4 ++ repeat LWorker 8 ++ [LNew 1; LPoll 1] ++ repeat (LFiber 1 0) 7
  ++ repeat LWorker 12 ++ [LPoll 1] ++ repeat (LFiber 1 0) 5.

(** The cancel request of a dropped future can hit another one: it names the slot, and if
    the dropped operation completes before the worker reads the request, the slot has been given to a new
    operation, which fails with [ECANCELED] although nobody dropped it and the kernel
    reported no error. *)
Theorem io_cancel_hits_another :
  exists ls c, run 256 true ls (start 1 2 1 2) = Some c /\
    Forall (fun l => match l with LDrop t => t <> 1%nat | LKernel _ r => 0 <= r | _ => True end) ls /\
    ((1, 0)%nat, - ECANCELED) ∈ returned (sh c).
Proof.
  exists cancelling. eexists. split; [vm_compute; reflexivity|]. split; [|left].
  unfold cancelling. simpl. repeat constructor; lia.
Qed.

Definition cancelling_twice : list label :=
  [LNew 0; LPoll 0] ++ repeat (LFiber 0 0) 7 ++ repeat LWorker 1 ++ [LKernel 0 5] ++ repeat LWorker 3
  ++ [LDrop 0] ++ repeat (LFiber 0 0) 4 ++ repeat LWorker 8 ++ [LNew 1; LPoll 1] ++ repeat (LFiber 1 0) 7
  ++ [LDrop 1] ++ repeat (LFiber 1 0) 4.

(** A slot can be on the stack of cancellations twice: its operation completes before the worker looks there, the slot
    is reused and dropped again.  The stack is intrusive, a [TreiberStack] with one link per slot: pushing a
    slot that is on top of it makes it circular ([push_twice] in Treiber.v), and the loop that empties it does
    not end. *)
Lemma io_slot_cancelled_twice :
  exists c, run 256 true cancelling_twice (start 1 2 1 2) = Some c /\ cancel_queue (sh c) = [0; 0]%nat.
Proof. eexists. split; [vm_compute; reflexivity|reflexivity]. Qed.

Definition forgetting : list label :=
  [LNew 0; LPoll 0] ++ repeat (LFiber 0 0) 7 ++ [LNew 1; LPoll 1] ++ repeat (LFiber 1 0) 5
  ++ [LNew 2; LPoll 2] ++ repeat (LFiber 2 0) 4 ++ repeat LWorker 1 ++ [LKernel 0 5] ++ repeat LWorker 10
  ++ [LPoll 0] ++ repeat (LFiber 0 0) 4 ++ repeat (LFiber 2 0) 2 ++ [LNew 3; LPoll 3] ++ repeat (LFiber 3 0) 5
  ++ repeat (LFiber 0 0) 4 ++ [LPoll 3] ++ repeat (LFiber 3 0) 5 ++ repeat (LFiber 2 0) 6
  ++ repeat LWorker 1 ++ [LKernel 0 6] ++ repeat LWorker 10 ++ [LPoll 2] ++ repeat (LFiber 2 0) 8
  ++ [LPoll 3] ++ repeat (LFiber 3 0) 7 ++ repeat LWorker 1 ++ [LKernel 0 7] ++ repeat LWorker 10
  ++ [LPoll 3] ++ repeat (LFiber 3 0) 8.

(** A fiber that waits for a free slot can be forgotten: the wait entry of a fiber that got a slot on
    its second attempt stays on the stack without a waker, and a later release is spent on it.
    Here four fibers share one slot, nothing is dropped, and at the end fiber 1 still waits, not woken,
    with the slot free and nothing under way. *)
Theorem io_waiter_is_forgotten :
  exists c, run 256 true forgetting (start 1 8 1 4) = Some c /\
    Forall (fun l => match l with LDrop _ => False | _ => True end) forgetting /\
    fibers c = [FIdle 1; FNew 0; FIdle 1; FIdle 1] /\ awake (sh c) = [false; false; false; false] /\
    free_slots (sh c) = [0%nat] /\ at_rest c = true.
Proof.
  eexists. split; [vm_compute; reflexivity|]. split; [|done].
  unfold forgetting. simpl. repeat constructor.
Qed.

End IoSlotsInv.
