(* ===== verification/IoSleep.v ===== *)
(** * IoSleep

    How a worker of src/dtact-util/src/io/native.rs falls asleep and is woken: [run_linux_worker_loop]
    access by access, any number of threads that push requests ([DtactIoFuture::poll])
    or cancellations ([drop]), the flag [is_sleeping] and the eventfd.  Of the queues
    only their lengths matter, of the ring only the read of the eventfd and
    whether some other completion is waiting. *)

From S2P Require Import Prelude.

Module IoSleep.

(** The read of the eventfd: [Local] is in the submission queue and not published yet. *)
Inductive efd_read := Absent | Local | Armed.

Record shared := Shared {
  queues : list nat;          (* their lengths *)
  cancels : nat;
  is_sleeping : bool;
  eventfd : nat;
  read : efd_read;
  cq_efd : bool;              (* its completion has not been reaped *)
  cq_other : bool             (* nor have others *)
}.

Definition set_queue (i n : nat) (h : shared) : shared :=
  Shared (<[i := n]> (queues h)) (cancels h) (is_sleeping h) (eventfd h) (read h) (cq_efd h) (cq_other h).
Definition set_cancels (n : nat) (h : shared) : shared :=
  Shared (queues h) n (is_sleeping h) (eventfd h) (read h) (cq_efd h) (cq_other h).
Definition set_sleeping (b : bool) (h : shared) : shared :=
  Shared (queues h) (cancels h) b (eventfd h) (read h) (cq_efd h) (cq_other h).
Definition set_ring (n : nat) (r : efd_read) (e o : bool) (h : shared) : shared :=
  Shared (queues h) (cancels h) (is_sleeping h) n r e o.

(** [sync()] or an enter publishes what is in the submission queue. *)
Definition publish (h : shared) : shared :=
  match read h with Local => set_ring (eventfd h) Armed (cq_efd h) (cq_other h) h | _ => h end.

(** A thread that submits a request to queue [i], or cancels one. *)
Inductive producer :=
| PIdle
| PLoad           (* pushed; the load of [is_sleeping] after the fence *)
| PWrite.         (* the write to the eventfd *)

(** The locals of the loop: [sub] is [eventfd_submitted], [pushed] is [pushed_sqe]. *)
Inductive worker_pc :=
| WTop (sub : bool)
| WDrain (i : nat) (sub pushed : bool)
| WCancel (sub pushed : bool)
| WPending (i : nat) (sub pushed : bool)          (* the scan for [any_pending] *)
| WSubmit (sub pushed any : bool)
| WFence1 (i : nat) (sub : bool)                 (* folded path: is_sleeping is set, re-check *)
| WBlocked1 (sub : bool)                         (* submit_and_wait(1) *)
| WReap (sub pushed any folded : bool)
| WSleep (sub any : bool)                        (* idle path *)
| WFence2 (i : nat) (sub any : bool)
| WBlocked2 (sub : bool)
| WAwake (sub : bool).

Record conf := Conf { sh : shared; producers : list producer; wpc : worker_pc }.

Definition worker_step (ok : bool) (w : worker_pc) (h : shared) : option (shared * worker_pc) :=
  match w with
  | WTop true => Some (h, WDrain 0 true false)
  | WTop false =>
      (* [ok]: there is room in the submission queue *)
      Some (if ok then (set_ring (eventfd h) Local (cq_efd h) (cq_other h) h, WDrain 0 true false)
            else (h, WDrain 0 false false))
  | WDrain i sub pushed =>
      Some (match queues h !! i with
            | Some (S n) => (set_queue i n h, WDrain i sub true)
            | Some O => (h, WDrain (S i) sub pushed)
            | None => (h, WCancel sub pushed)
            end)
  | WCancel sub pushed =>
      Some (match cancels h with
            | S n => (set_cancels n h, WCancel sub true)
            | O => (h, WPending 0 sub pushed)
            end)
  | WPending i sub pushed =>
      Some (match queues h !! i with
            | Some O => (h, WPending (S i) sub pushed)
            | Some (S _) => (h, WSubmit sub pushed true)
            | None => (h, WSubmit sub pushed false)
            end)
  | WSubmit sub pushed any =>
      Some (if pushed || sub then
              if pushed && negb any then (set_sleeping true (publish h), WFence1 0 sub)
              else (publish h, WReap sub pushed any false)
            else (h, WReap sub pushed any false))
  | WFence1 i sub =>
      Some (match queues h !! i with
            | Some O => (h, WFence1 (S i) sub)
            | Some (S _) => (set_sleeping false h, WReap sub true false true)
            | None => (h, WBlocked1 sub)
            end)
  | WBlocked1 sub =>
      if cq_efd h || cq_other h then Some (set_sleeping false h, WReap sub true false true) else None
  | WReap sub pushed any folded =>
      let has := cq_efd h || cq_other h in
      let sub' := if cq_efd h then false else sub in
      let h' := set_ring (eventfd h) (read h) false false h in
      Some (h', if negb folded && negb pushed && negb has then WSleep sub' any else WTop sub')
  | WSleep sub any => Some (set_sleeping true h, WFence2 0 sub any)
  | WFence2 i sub any =>
      Some (match queues h !! i with
            | Some O => (h, WFence2 (S i) sub any)
            | Some (S _) => (h, WAwake sub)
            | None => (h, if any then WAwake sub else WBlocked2 sub)
            end)
  | WBlocked2 sub => if cq_efd h || cq_other h then Some (h, WAwake sub) else None
  | WAwake sub => Some (set_sleeping false h, WTop sub)
  end.

(** Steps: producer [p] pushes a request to queue [i], or a cancellation; takes its next access; the
    worker does; the kernel completes the read of the eventfd, or something else. *)
Inductive label :=
| LPush (p i : nat)
| LCancel (p : nat)
| LProducer (p : nat)
| LWorker (ok : bool)
| LEventfd
| LOther.

Definition exec (l : label) (c : conf) : option conf :=
  let h := sh c in
  match l with
  | LPush p i =>
      match producers c !! p, queues h !! i with
      | Some PIdle, Some n => Some (Conf (set_queue i (S n) h) (<[p := PLoad]> (producers c)) (wpc c))
      | _, _ => None
      end
  | LCancel p =>
      match producers c !! p with
      | Some PIdle => Some (Conf (set_cancels (S (cancels h)) h) (<[p := PLoad]> (producers c)) (wpc c))
      | _ => None
      end
  | LProducer p =>
      match producers c !! p with
      | Some PLoad =>
          Some (Conf h (<[p := if is_sleeping h then PWrite else PIdle]> (producers c)) (wpc c))
      | Some PWrite =>
          Some (Conf (set_ring (S (eventfd h)) (read h) (cq_efd h) (cq_other h) h) (<[p := PIdle]> (producers c)) (wpc c))
      | _ => None
      end
  | LWorker ok => '(h', w') ← worker_step ok (wpc c) h; Some (Conf h' (producers c) w')
  | LEventfd =>
      match read h, eventfd h with
      | Armed, S _ => Some (Conf (set_ring 0 Absent true (cq_other h) h) (producers c) (wpc c))
      | _, _ => None
      end
  | LOther => Some (Conf (set_ring (eventfd h) (read h) (cq_efd h) true h) (producers c) (wpc c))
  end.

Fixpoint run (ls : list label) (c : conf) : option conf :=
  match ls with
  | [] => Some c
  | l :: ls' => c' ← exec l c; run ls' c'
  end.

Definition step (c c' : conf) : Prop := exists l, exec l c = Some c'.

Lemma sleep_run_reachable ls c c' : run ls c = Some c' -> rtc step c c'.
Proof.
  revert c. induction ls as [|l ls IH]; intros c H; simplify_eq/=; [done|].
  apply bind_Some in H as (c1 & Hl & H). eapply rtc_l; [by exists l|auto].
Qed.

(** [nq] queues and [np] producers. *)
Definition start (nq np : nat) : conf :=
  Conf (Shared (replicate nq 0%nat) 0 false 0 Absent false false) (replicate np PIdle) (WTop false).

Definition sub_of (w : worker_pc) : bool :=
  match w with
  | WTop s | WDrain _ s _ | WCancel s _ | WPending _ s _ | WSubmit s _ _ | WFence1 _ s
  | WBlocked1 s | WReap s _ _ _ | WSleep s _ | WFence2 _ s _ | WBlocked2 s | WAwake s => s
  end.

(** The worker has set [is_sleeping] and found the queues before [i] empty. *)
Definition checked (w : worker_pc) (i : nat) : Prop :=
  match w with
  | WFence1 j _ | WFence2 j _ _ => (i < j)%nat
  | WBlocked1 _ | WBlocked2 _ => True
  | _ => False
  end.

(** Somebody is about to write to the eventfd, or it is readable, or a completion is waiting. *)
Definition alarmed (c : conf) : Prop :=
  PLoad ∈ producers c \/ PWrite ∈ producers c \/ (0 < eventfd (sh c))%nat \/ cq_efd (sh c) = true.

Record inv (c : conf) : Prop := {
  i_sleeping : is_sleeping (sh c) = match wpc c with
    WFence1 _ _ | WBlocked1 _ | WFence2 _ _ _ | WBlocked2 _ | WAwake _ => true | _ => false end;
  i_checked : forall i n, checked (wpc c) i -> queues (sh c) !! i = Some (S n) -> alarmed c;
  i_read : if sub_of (wpc c) then read (sh c) <> Absent \/ cq_efd (sh c) = true
           else read (sh c) = Absent /\ cq_efd (sh c) = false;
  i_armed : match wpc c with WTop _ | WDrain _ _ _ | WCancel _ _ | WPending _ _ _ | WSubmit _ _ _ => True
            | _ => read (sh c) <> Local end;
  i_once : cq_efd (sh c) = true -> read (sh c) = Absent
}.

Lemma alarmed_producer c p q h' w' :
  producers c !! p = Some PIdle -> alarmed c -> eventfd h' = eventfd (sh c) -> cq_efd h' = cq_efd (sh c) ->
  alarmed (Conf h' (<[p := q]> (producers c)) w').
Proof.
  unfold alarmed. simpl. intros Hp [H|[H|[H|H]]] -> ->; auto.
  - left. apply list_elem_of_lookup in H as (j & Hj). apply list_elem_of_lookup. exists j.
    rewrite list_lookup_insert_ne; [done|]. intros ->. congruence.
  - right. left. apply list_elem_of_lookup in H as (j & Hj). apply list_elem_of_lookup. exists j.
    rewrite list_lookup_insert_ne; [done|]. intros ->. congruence.
Qed.

Lemma alarmed_new c p q h' w' :
  (p < length (producers c))%nat -> q = PLoad \/ q = PWrite -> alarmed (Conf h' (<[p := q]> (producers c)) w').
Proof.
  intros Hp Hq. assert (q ∈ <[p := q]> (producers c)) by (by eapply list_elem_of_lookup_2, list_lookup_insert_eq).
  unfold alarmed. simpl. destruct Hq as [-> | ->]; auto.
Qed.

(** An alarm does not depend on what the worker is doing. *)
Lemma alarmed_worker c h' w' :
  alarmed c -> eventfd h' = eventfd (sh c) -> cq_efd h' = cq_efd (sh c) -> alarmed (Conf h' (producers c) w').
Proof. unfold alarmed. simpl. by intros ? -> ->. Qed.

Lemma publish_ring h : eventfd (publish h) = eventfd h /\ cq_efd (publish h) = cq_efd h /\ queues (publish h) = queues h /\
  is_sleeping (publish h) = is_sleeping h /\ read (publish h) = match read h with Local => Armed | r => r end.
Proof. unfold publish. destruct (read h) eqn:E; simpl; auto. Qed.

Definition sleeping (w : worker_pc) : bool :=
  match w with WFence1 _ _ | WBlocked1 _ | WFence2 _ _ _ | WBlocked2 _ | WAwake _ => true | _ => false end.
Definition unpublished (w : worker_pc) : bool :=
  match w with WTop _ | WDrain _ _ _ | WCancel _ _ | WPending _ _ _ | WSubmit _ _ _ => true | _ => false end.

(** A step of the worker that neither checks a queue nor reaps. *)
Lemma sleep_inv_moves h h' ps w w' :
  inv (Conf h ps w) ->
  is_sleeping h' = sleeping w' -> (forall i, ~ checked w' i) -> sub_of w' = sub_of w ->
  (read h' = Absent <-> read h = Absent) -> cq_efd h' = cq_efd h ->
  unpublished w' = true \/ read h' <> Local ->
  inv (Conf h' ps w').
Proof.
  intros [Hs Hc Hr Ha Ho] H1 H2 H3 H4 H5 H6. split; simpl in *.
  - rewrite H1. by destruct w'.
  - intros i n Hi. by apply H2 in Hi.
  - rewrite H3, H5. destruct (sub_of w); [|by rewrite H4]. rewrite H4. done.
  - destruct H6; by destruct w'.
  - rewrite H4, H5. done.
Qed.

(** The re-check passes queue [i] when it is empty. *)
Lemma inv_passes h ps w w' i :
  inv (Conf h ps w) -> queues h !! i = Some 0%nat \/ queues h !! i = None ->
  sleeping w = true -> sleeping w' = true -> unpublished w = false -> unpublished w' = false -> sub_of w' = sub_of w ->
  (forall j, checked w' j -> j < length (queues h) -> checked w j \/ j = i)%nat ->
  inv (Conf h ps w').
Proof.
  intros [Hs Hc Hr Ha Ho] Hq Hw Hw' Hu Hu' Hsub Hch. split; simpl in *.
  - rewrite Hs. destruct w; try done; destruct w'; done.
  - intros j n Hj Hjn. destruct (Hch j Hj) as [? | ->]; [by eapply lookup_lt_Some| |].
    + by apply (Hc j n).
    + destruct Hq; congruence.
  - by rewrite Hsub.
  - destruct w; try done; destruct w'; done.
  - done.
Qed.

Lemma sleep_worker_step_inv c ok h' w' :
  inv c -> worker_step ok (wpc c) (sh c) = Some (h', w') -> inv (Conf h' (producers c) w').
Proof.
  intros Hinv H. destruct c as [h ps w]. pose proof Hinv as [Hs Hc Hr Ha Ho]. simpl in *.
  pose proof (publish_ring h) as (Pe & Pc & Pq & Ps & Pr).
  destruct w as [sub|i sub pushed|sub pushed|i sub pushed|sub pushed any|i sub|sub|sub pushed any folded|sub any|i sub any|sub|sub];
    cbn [worker_step] in H.
  - destruct sub; [simplify_eq; eapply sleep_inv_moves; eauto; done|].
    destruct ok; simplify_eq/=.
    + destruct Hr as [Hr1 Hr2]. split; simpl; auto; try done. congruence.
    + eapply sleep_inv_moves; eauto; done.
  - destruct (queues h !! i) as [[|n]|]; simplify_eq; eapply sleep_inv_moves; eauto; done.
  - destruct (cancels h) as [|n]; simplify_eq; eapply sleep_inv_moves; eauto; done.
  - destruct (queues h !! i) as [[|n]|]; simplify_eq; eapply sleep_inv_moves; eauto; done.
  - destruct (pushed || sub) eqn:E; [destruct (pushed && negb any)|]; simplify_eq.
    + split; simpl; rewrite ?Pc, ?Pr; try done; [lia| | |].
      * destruct (read h), sub; naive_solver.
      * by destruct (read h).
      * intros E1. by rewrite (Ho E1).
    + eapply sleep_inv_moves; eauto; rewrite ?Ps, ?Pr, ?Pc; try done; [by destruct (read h)|right; by destruct (read h)].
    + apply orb_false_iff in E as [-> ->]. destruct Hr as [Hr1 Hr2].
      eapply sleep_inv_moves; eauto; try done. rewrite Hr1. auto.
  - destruct (queues h !! i) as [[|n]|] eqn:E; simplify_eq.
    + eapply (inv_passes h' ps (WFence1 i sub) _ i); eauto; try done. simpl. lia.
    + eapply sleep_inv_moves; eauto; auto; try done.
    + eapply (inv_passes h' ps (WFence1 i sub) _ i); eauto; try done. simpl.
      apply lookup_ge_None in E. lia.
  - destruct (cq_efd h || cq_other h); simplify_eq. eapply sleep_inv_moves; eauto; auto; try done.
  - simplify_eq. set (w2 := if negb folded && negb pushed && negb (cq_efd h || cq_other h) then _ else _).
    assert (sub_of w2 = (if cq_efd h then false else sub) /\ sleeping w2 = false /\ forall i, ~ checked w2 i) as (E1 & E2 & E3)
      by (unfold w2; destruct (negb folded && negb pushed && negb (cq_efd h || cq_other h));
          split_and!; [done|done|by intros i []|done|done|by intros i []]).
    split; simpl.
    + rewrite Hs. by destruct w2.
    + intros i n Hi. by apply E3 in Hi.
    + rewrite E1. destruct (cq_efd h) eqn:Ec; [|destruct sub; naive_solver].
      auto.
    + by destruct w2.
    + done.
  - simplify_eq. split; simpl; auto. lia.
  - destruct (queues h !! i) as [[|n]|] eqn:E; simplify_eq.
    + eapply (inv_passes h' ps (WFence2 i sub any) _ i); eauto; try done. simpl. lia.
    + eapply sleep_inv_moves; eauto; auto; try done.
    + apply lookup_ge_None in E. destruct any.
      * eapply sleep_inv_moves; eauto; auto; try done.
      * eapply (inv_passes h' ps (WFence2 i sub false) _ i); eauto; try done; [right; by apply lookup_ge_None|]. simpl. lia.
  - destruct (cq_efd h || cq_other h); simplify_eq. eapply sleep_inv_moves; eauto; auto; try done.
  - simplify_eq. eapply sleep_inv_moves; eauto; done.
Qed.

Lemma sleep_step_inv c c' : inv c -> step c c' -> inv c'.
Proof.
  intros H [l Hl]. pose proof H as [Hs Hc Hr Ha Ho]. destruct l as [p i|p|p|ok| |]; simpl in Hl.
  - destruct (producers c !! p) as [[]|] eqn:Hp; try done. destruct (queues (sh c) !! i) as [n|] eqn:Hq; simplify_eq.
    split; simpl; auto. intros j n' _ _. apply alarmed_new; [by eapply lookup_lt_Some|auto].
  - destruct (producers c !! p) as [[]|] eqn:Hp; simplify_eq.
    split; simpl; auto. intros j n' _ _. apply alarmed_new; [by eapply lookup_lt_Some|auto].
  - destruct (producers c !! p) as [[]|] eqn:Hp; simplify_eq; split; simpl; auto; intros j n Hj Hn.
    + rewrite Hs. assert (sleeping (wpc c) = true) as E by (by destruct (wpc c)).
      replace (match wpc c with WFence1 _ _ | WBlocked1 _ | WFence2 _ _ _ | WBlocked2 _ | WAwake _ => true | _ => false end)
        with true by (by destruct (wpc c)).
      apply alarmed_new; [by eapply lookup_lt_Some|auto].
    + right. right. left. simpl. lia.
  - apply bind_Some in Hl as ([h' w'] & Hw & E). simplify_eq. by eapply sleep_worker_step_inv.
  - destruct (read (sh c)) eqn:Er; try done. destruct (eventfd (sh c)) eqn:Ee; simplify_eq.
    split; simpl; auto.
    + intros. right. right. right. done.
    + destruct (sub_of (wpc c)); [auto|]. destruct Hr as [? ?]. congruence.
    + by destruct (wpc c).
  - simplify_eq. split; auto.
Qed.

Lemma sleep_start_inv nq np : inv (start nq np).
Proof. by split. Qed.

Lemma sleep_reachable_inv nq np c : rtc step (start nq np) c -> inv c.
Proof.
  intros H. remember (start nq np) as c0 eqn:E.
  assert (inv c0) as H0 by (subst; apply sleep_start_inv). clear E.
  induction H as [|c1 c2 c3 Hs _ IH]; [done|]. eauto using sleep_step_inv.
Qed.

Definition blocked (w : worker_pc) : bool := match w with WBlocked1 _ | WBlocked2 _ => true | _ => false end.


(** An iteration without work, up to the block; then a request arrives. *)
Definition falling_asleep : list label := repeat (LWorker true) 11.


(** It can sleep over a cancellation: the re-check looks at the request queues only.  When
    a future is dropped after the worker has emptied the cancel queue and before it sets
    [is_sleeping], nobody writes to the eventfd, and the cancelled operation stays in the kernel until
    something else wakes the worker. *)
Theorem io_cancel_can_be_missed :
  exists c, rtc step (start 1 1) c /\ blocked (wpc c) = true /\ cancels (sh c) = 1%nat /\
    producers c = [PIdle] /\ eventfd (sh c) = 0%nat /\ cq_efd (sh c) = false /\ cq_other (sh c) = false /\
    forall ok, exec (LWorker ok) c = None.
Proof.
  eexists. split.
  - apply sleep_run_reachable with (ls := repeat (LWorker true) 4 ++ [LCancel 0; LProducer 0] ++ repeat (LWorker true) 7).
    vm_compute. reflexivity.
  - by repeat split.
Qed.

End IoSleep.
