(* ===== verification/MioReactor.v ===== *)
(** * MioReactor

    The worker of src/dtact-util/src/io/native.rs on systems without io_uring: which waker waits for which
    side of which descriptor, and the interest registered with the operating
    system.  One thread runs all of it; the slots' wakers are the only state it shares, and taking
    one is a single access under its lock.  Whether the poller accepts a
    registration is decided by the system. *)

From S2P Require Import Prelude.

Module MioReactor.

(** mio::Interest. *)
Inductive Interest := READABLE | WRITABLE | BOTH.
#[export] Instance interest_eq_dec : EqDecision Interest.
Proof. solve_decision. Defined.

Record FdState := Fd {
  reader_waker : option nat;
  writer_waker : option nat;
  reader_slot : option nat;
  writer_slot : option nat;
  registered_interest : option Interest
}.

Definition new_fd : FdState := Fd None None None None None.

(** The wakers in the slots, the completions the worker published, the free slots,
    what it woke, and the registrations it asked the system for. *)
Record world := World {
  wakers : list (option nat);
  origin_fd : list Z;
  completed : list (nat * Z);
  free_slots : list nat;
  woken : list nat;
  asked : list (Z * Interest)
}.

Definition set_wakers (l : list (option nat)) (w : world) : world :=
  World l (origin_fd w) (completed w) (free_slots w) (woken w) (asked w).
Definition wake (o : option nat) (w : world) : world :=
  match o with
  | Some t => World (wakers w) (origin_fd w) (completed w) (free_slots w) (t :: woken w) (asked w)
  | None => w
  end.
Definition ask (fd : Z) (i : Interest) (w : world) : world :=
  World (wakers w) (origin_fd w) (completed w) (free_slots w) (woken w) ((fd, i) :: asked w).
Definition publish (s : nat) (r : Z) (w : world) : world :=
  World (wakers w) (origin_fd w) ((s, r) :: completed w) (free_slots w) (woken w) (asked w).
Definition give (s : nat) (w : world) : world :=
  World (wakers w) (origin_fd w) (completed w) (s :: free_slots w) (woken w) (asked w).

(** Swap the waker of a slot out under its lock. *)
Definition take_waker (s : nat) (w : world) : option nat * world :=
  (wakers w !! s ≫= id, set_wakers (<[s := None]> (wakers w)) w).

Section reactor.
(** [registers fd interest]: the system accepts this registration; [register fd]: the result of the first one, an
    error's number if it fails. *)
Context (registers : Z -> Interest -> bool) (register : Z -> option Z).

(** [resize_with]. *)
Definition ensure_fd_state (fds : list FdState) (fd : nat) : list FdState :=
  if (length fds <=? fd)%nat then fds ++ replicate (fd + 1 - length fds) new_fd else fds.

Definition get_mio_interest (f : FdState) : Interest :=
  match reader_waker f, writer_waker f with
  | Some _, Some _ => BOTH
  | Some _, None => READABLE
  | None, Some _ => WRITABLE
  | None, None => READABLE
  end.

Definition set_reader (w s : option nat) (f : FdState) : FdState :=
  Fd w (writer_waker f) s (writer_slot f) (registered_interest f).
Definition set_writer (w s : option nat) (f : FdState) : FdState :=
  Fd (reader_waker f) w (reader_slot f) s (registered_interest f).
Definition set_side (is_reader : bool) (w s : option nat) (f : FdState) : FdState :=
  if is_reader then set_reader w s f else set_writer w s f.
Definition set_registered (i : Interest) (f : FdState) : FdState :=
  Fd (reader_waker f) (writer_waker f) (reader_slot f) (writer_slot f) (Some i).

Definition install_interest (f : FdState) (fd : Z) (slot_idx : nat) (is_reader : bool) (w : world)
    : bool * FdState * world :=
  let '(waker, w) := take_waker slot_idx w in
  let f := set_side is_reader waker (match waker with Some _ => Some slot_idx | None => None end) f in
  let interest := get_mio_interest f in
  if bool_decide (registered_interest f = Some interest) then (true, f, w)
  else
    let w := ask fd interest w in
    if registers fd interest then (true, set_registered interest f, w)
    else
      let taken := if is_reader then reader_waker f else writer_waker f in
      (false, set_side is_reader None None f, wake taken w).

(** What [cancel_mio_slot] and [process_mio_event] do at their end. *)
Definition refresh_interest (f : FdState) (fd : Z) (w : world) : FdState * world :=
  let interest := get_mio_interest f in
  if bool_decide (registered_interest f = Some interest) then (f, w)
  else (if registers fd interest then set_registered interest f else f, ask fd interest w).

Definition complete_mio_slot (slot_idx : nat) (res : Z) (w : world) : world :=
  let '(waker, w) := take_waker slot_idx w in
  wake waker (publish slot_idx res w).

Inductive IoRequest :=
| ReadLike (fd : nat) (slot_idx : nat)          (* Read, Accept, RecvFrom *)
| WriteLike (fd : nat) (slot_idx : nat)         (* Write, Connect, SendTo *)
| RegisterFile (fd : nat) (slot_idx : nat)
| UnregisterFile (direct_fd_idx : nat) (slot_idx : nat).

Definition install (fd slot_idx : nat) (is_reader : bool) (fds : list FdState) (w : world) : list FdState * world :=
  let fds := ensure_fd_state fds fd in
  match fds !! fd with
  | Some f =>
      let '(_, f', w') := install_interest f (Z.of_nat fd) slot_idx is_reader w in
      (<[fd := f']> fds, w')
  | None => (fds, w)
  end.

Definition process_mio_request (req : IoRequest) (fds : list FdState) (w : world) : list FdState * world :=
  match req with
  | ReadLike fd s => install fd s true fds w
  | WriteLike fd s => install fd s false fds w
  | RegisterFile fd s =>
      (fds, complete_mio_slot s (match register (Z.of_nat fd) with None => Z.of_nat fd | Some err => - err end) w)
  | UnregisterFile fd s => (alter (fun _ => new_fd) fd fds, complete_mio_slot s 0 w)
  end.

(** The slot is recycled; [wake_next_waiting_fiber] after it is in IoSlots.v. *)
Definition cancel_mio_slot (slot_idx : nat) (fds : list FdState) (w : world) : list FdState * world :=
  let fd := default U32_MAX (origin_fd w !! slot_idx) in
  if fd =? U32_MAX then (fds, give slot_idx w)
  else
    let n := Z.to_nat fd in
    let fds := ensure_fd_state fds n in
    match fds !! n with
    | Some f =>
        let r := bool_decide (reader_slot f = Some slot_idx) in
        let wr := bool_decide (writer_slot f = Some slot_idx) in
        let f := if r then set_reader None None f else f in
        let f := if wr then set_writer None None f else f in
        let '(f', w') := if r || wr then refresh_interest f fd w else (f, w) in
        (<[n := f']> fds, give slot_idx w')
    | None => (fds, give slot_idx w)
    end.

Definition process_mio_event (fd : nat) (readable writable : bool) (fds : list FdState) (w : world)
    : list FdState * world :=
  let fds := ensure_fd_state fds fd in
  match fds !! fd with
  | Some f =>
      let w := if readable then wake (reader_waker f) w else w in
      let f := if readable then set_reader None None f else f in
      let w := if writable then wake (writer_waker f) w else w in
      let f := if writable then set_writer None None f else f in
      let '(f', w') := refresh_interest f (Z.of_nat fd) w in
      (<[fd := f']> fds, w')
  | None => (fds, w)
  end.

End reactor.

(** One turn of the loop is a sequence of these; [ok] is the system's answer to the one registration
    that the call may ask for. *)
Inductive call :=
| Request (ok : bool) (register : option Z) (req : IoRequest)
| Cancel (ok : bool) (slot_idx : nat)
| Event (ok : bool) (fd : nat) (readable writable : bool)
| Arm (slot_idx : nat) (waker : nat).       (* a poll stores a waker in its slot *)

Definition turn (c : call) (s : list FdState * world) : list FdState * world :=
  let '(fds, w) := s in
  match c with
  | Request ok reg req => process_mio_request (fun _ _ => ok) (fun _ => reg) req fds w
  | Cancel ok slot => cancel_mio_slot (fun _ _ => ok) slot fds w
  | Event ok fd r wr => process_mio_event (fun _ _ => ok) fd r wr fds w
  | Arm slot t => (fds, set_wakers (<[slot := Some t]> (wakers w)) w)
  end.

Definition turns (l : list call) (s : list FdState * world) : list FdState * world :=
  fold_left (fun s c => turn c s) l s.

(** ** Properties *)

(** The registration covers every side somebody waits on. *)
Definition covers (i : Interest) (f : FdState) : Prop :=
  (is_Some (reader_waker f) -> i = READABLE \/ i = BOTH) /\
  (is_Some (writer_waker f) -> i = WRITABLE \/ i = BOTH).

(** A side has a waker exactly when it has a slot, and what somebody waits for is registered. *)
Definition fd_ok (f : FdState) : Prop :=
  (is_Some (reader_waker f) <-> is_Some (reader_slot f)) /\
  (is_Some (writer_waker f) <-> is_Some (writer_slot f)) /\
  (is_Some (reader_waker f) \/ is_Some (writer_waker f) ->
   exists i, registered_interest f = Some i /\ covers i f).

Lemma new_fd_ok : fd_ok new_fd.
Proof. unfold fd_ok. simpl. repeat split; intros; try done. destruct H as [[] | []]; done. Qed.

Lemma covers_wanted f : covers (get_mio_interest f) f.
Proof.
  unfold covers, get_mio_interest. destruct (reader_waker f), (writer_waker f); split; intros; auto; by destruct H.
Qed.

(** Someone's side of the descriptor. *)
Definition side (is_reader : bool) (f : FdState) : option nat := if is_reader then reader_waker f else writer_waker f.

Lemma install_interest_ok regs f fd s r w :
  fd_ok f -> fd_ok (install_interest regs f fd s r w).1.2.
Proof.
  intros (H1 & H2 & H3). unfold install_interest. cbn [take_waker].
  set (wk := wakers w !! s ≫= id).
  set (f' := set_side r wk (match wk with Some _ => Some s | None => None end) f).
  assert ((is_Some (reader_waker f') <-> is_Some (reader_slot f')) /\
          (is_Some (writer_waker f') <-> is_Some (writer_slot f'))) as [E1 E2].
  { unfold f'. destruct r, wk; simpl; split; try done; split; intros; eauto. }
  case_bool_decide as Hi; [|destruct (regs fd (get_mio_interest f')) eqn:Er]; cbn [fst snd].
  - split; [done|]. split; [done|]. intros _. eexists. split; [done|]. apply covers_wanted.
  - split; [done|]. split; [done|]. intros _. eexists. split; [done|]. apply (covers_wanted f').
  - unfold fd_ok, covers, f' in *. destruct r; simpl in *; (split; [|split]); try done.
    + intros [Hn | Hw]; [by destruct Hn|]. destruct H3 as (i & Hi' & _ & Hc); [auto|]. exists i. split; [done|].
      split; [intros Hn; by destruct Hn|auto].
    + intros [Hr | Hn]; [|by destruct Hn]. destruct H3 as (i & Hi' & Hc & _); [auto|]. exists i. split; [done|].
      split; [auto|intros Hn; by destruct Hn].
Qed.

(** Taking waiters away keeps what is registered sufficient. *)
Lemma refresh_ok regs f f0 fd w :
  fd_ok f0 -> registered_interest f = registered_interest f0 ->
  (is_Some (reader_waker f) <-> is_Some (reader_slot f)) ->
  (is_Some (writer_waker f) <-> is_Some (writer_slot f)) ->
  (is_Some (reader_waker f) -> is_Some (reader_waker f0)) ->
  (is_Some (writer_waker f) -> is_Some (writer_waker f0)) ->
  fd_ok (refresh_interest regs f fd w).1.
Proof.
  intros (_ & _ & H3) Hreg H1 H2 Hr Hw. unfold refresh_interest.
  case_bool_decide as Hi; [|destruct (regs fd (get_mio_interest f))]; cbn [fst].
  - split; [done|]. split; [done|]. intros _. eexists. split; [done|]. apply covers_wanted.
  - split; [done|]. split; [done|]. intros _. eexists. split; [done|]. apply (covers_wanted f).
  - split; [done|]. split; [done|]. rewrite Hreg. intros Hs. destruct H3 as (i & ? & [? ?]); [tauto|].
    exists i. split; [done|]. split; auto.
Qed.

Definition all_ok (fds : list FdState) : Prop := Forall fd_ok fds.

Lemma ensure_ok fds fd : all_ok fds -> all_ok (ensure_fd_state fds fd).
Proof.
  intros H. unfold ensure_fd_state. case_match; [|done]. apply Forall_app. split; [done|].
  apply Forall_replicate, new_fd_ok.
Qed.

Lemma ensure_length fds fd : (fd < length (ensure_fd_state fds fd))%nat.
Proof.
  unfold ensure_fd_state. destruct (Nat.leb_spec (length fds) fd); [|done].
  rewrite length_app, length_replicate. lia.
Qed.

Lemma turn_ok c s : all_ok s.1 -> all_ok (turn c s).1.
Proof.
  destruct s as [fds w]. simpl. intros H.
  assert (forall regs fd slot r, all_ok (install regs fd slot r fds w).1) as Hi.
  { intros regs fd slot r. unfold install. pose proof (ensure_ok fds fd H) as He.
    destruct (ensure_fd_state fds fd !! fd) as [f|] eqn:E; [|done].
    pose proof (install_interest_ok regs f (Z.of_nat fd) slot r w) as Hf.
    destruct (install_interest regs f (Z.of_nat fd) slot r w) as [[b f'] w']. simpl in *.
    apply Forall_insert; [done|]. apply Hf. by eapply Forall_lookup_1. }
  destruct c as [ok reg [fd slot|fd slot|fd slot|fd slot]|ok slot|ok fd r wr|slot t]; simpl; auto.
  - apply Forall_alter; [done|]. intros. apply new_fd_ok.
  - unfold cancel_mio_slot. set (fd := default U32_MAX _). case_match; [done|].
    pose proof (ensure_ok fds (Z.to_nat fd) H) as He.
    destruct (ensure_fd_state fds (Z.to_nat fd) !! Z.to_nat fd) as [f|] eqn:E; [|done].
    assert (fd_ok f) as Hf by (by eapply Forall_lookup_1). pose proof Hf as (H1 & H2 & _).
    set (f2 := if bool_decide (writer_slot f = Some slot) then _ else _).
    assert (fd_ok (refresh_interest (fun _ _ => ok) f2 fd w).1 /\
            (bool_decide (reader_slot f = Some slot) || bool_decide (writer_slot f = Some slot) = false -> f2 = f)) as [Hf2 Hn].
    { split.
      - apply (refresh_ok _ f2 f); auto; unfold f2; repeat case_bool_decide; simpl; auto; try (intros Hx; by destruct Hx);
          split; intros Hx; by destruct Hx.
      - unfold f2. by repeat case_bool_decide. }
    destruct (bool_decide _ || bool_decide _) eqn:Eb.
    + destruct (refresh_interest (fun _ _ => ok) f2 fd w) as [f3 w3]. simpl in *. by apply Forall_insert.
    + simpl. rewrite Hn by done. by apply Forall_insert.
  - unfold process_mio_event. pose proof (ensure_ok fds fd H) as He.
    destruct (ensure_fd_state fds fd !! fd) as [f|] eqn:E; [|done].
    assert (fd_ok f) as Hf by (by eapply Forall_lookup_1). pose proof Hf as (H1 & H2 & _).
    set (f2 := if wr then _ else _).
    match goal with |- context [refresh_interest ?g f2 ?d ?w2] => 
      pose proof (refresh_ok g f2 f d w2 Hf) as Hr; destruct (refresh_interest g f2 d w2) as [f3 w3] end.
    simpl in *. apply Forall_insert; [done|]. apply Hr; unfold f2; destruct r, wr; simpl; auto;
      try (intros Hx; by destruct Hx); split; intros Hx; by destruct Hx.
Qed.

Lemma turns_ok l s : all_ok s.1 -> all_ok (turns l s).1.
Proof.
  revert s. induction l as [|c l IH]; intros s H; [done|]. simpl. by apply IH, turn_ok.
Qed.

Definition wakes (o : option nat) : list nat := match o with Some t => [t] | None => [] end.

Lemma wake_woken o w : woken (wake o w) = wakes o ++ woken w.
Proof. by destruct o. Qed.

Lemma refresh_sides regs f fd w :
  let '(f', w') := refresh_interest regs f fd w in
  reader_waker f' = reader_waker f /\ writer_waker f' = writer_waker f /\ woken w' = woken w.
Proof. unfold refresh_interest. case_bool_decide; [done|]. by destruct (regs fd (get_mio_interest f)). Qed.

(** What an event does to the descriptor it is for. *)
Lemma event_effect regs fd r wr fds w :
  let '(fds', w') := process_mio_event regs fd r wr fds w in
  exists f f', ensure_fd_state fds fd !! fd = Some f /\ fds' = <[fd := f']> (ensure_fd_state fds fd) /\
    reader_waker f' = (if r then None else reader_waker f) /\
    writer_waker f' = (if wr then None else writer_waker f) /\
    woken w' = (if wr then wakes (writer_waker f) else []) ++ (if r then wakes (reader_waker f) else []) ++ woken w.
Proof.
  unfold process_mio_event.
  destruct (lookup_lt_is_Some_2 _ _ (ensure_length fds fd)) as [f Hf]. rewrite Hf.
  set (f2 := if wr then _ else _).
  match goal with |- context [refresh_interest regs f2 ?d ?w2] =>
    pose proof (refresh_sides regs f2 d w2) as Hr; destruct (refresh_interest regs f2 d w2) as [f3 w3] end.
  destruct Hr as (E1 & E2 & E3). exists f, f3. split; [done|]. split; [done|].
  rewrite E1, E2, E3. unfold f2. destruct r, wr; simpl; rewrite ?wake_woken; simpl; by rewrite ?wake_woken.
Qed.

(** After any sequence of requests, cancellations and events, whatever the system accepts or refuses: a side of
    a descriptor has a waker exactly when it has a slot; what somebody waits for is registered; and the next
    event on a descriptor wakes exactly those who wait on the sides it names, and leaves the other
    side waiting. *)
Theorem mio_waiters_are_registered calls w :
  let '(fds, w1) := turns calls ([], w) in
  (forall fd f, fds !! fd = Some f -> fd_ok f) /\
  forall ok fd f r wr, fds !! fd = Some f ->
    let '(fds', w2) := turn (Event ok fd r wr) (fds, w1) in
    exists f', fds' !! fd = Some f' /\ fd_ok f' /\
      reader_waker f' = (if r then None else reader_waker f) /\
      writer_waker f' = (if wr then None else writer_waker f) /\
      woken w2 = (if wr then wakes (writer_waker f) else []) ++ (if r then wakes (reader_waker f) else []) ++ woken w1.
Proof.
  destruct (turns calls ([], w)) as [fds w1] eqn:E.
  assert (all_ok fds) as Ha.
  { pose proof (turns_ok calls ([], w)) as H. rewrite E in H. apply H. constructor. }
  split; [intros; by eapply Forall_lookup_1|]. intros ok fd f r wr Hf.
  pose proof (turn_ok (Event ok fd r wr) (fds, w1) Ha) as Ha2. simpl turn in *.
  pose proof (event_effect (fun _ _ => ok) fd r wr fds w1) as He.
  destruct (process_mio_event (fun _ _ => ok) fd r wr fds w1) as [fds' w2].
  destruct He as (f0 & f' & Hf0 & -> & E1 & E2 & E3).
  assert (ensure_fd_state fds fd = fds) as Hen.
  { unfold ensure_fd_state. apply lookup_lt_Some in Hf. destruct (Nat.leb_spec (length fds) fd); [lia|done]. }
  rewrite Hen in *. rewrite Hf in Hf0. simplify_eq. exists f'.
  assert (<[fd:=f']> fds !! fd = Some f') as Hl by (apply list_lookup_insert_eq; by eapply lookup_lt_Some).
  split; [done|]. split; [by eapply Forall_lookup_1|]. done.
Qed.

(** Somebody who waits nowhere is not woken by events. *)
Definition waits_nowhere (t : nat) (s : list FdState * world) : Prop :=
  Forall (fun f => reader_waker f <> Some t /\ writer_waker f <> Some t) s.1 /\ t ∉ woken s.2.

Lemma event_forgets t ok fd r wr s : waits_nowhere t s -> waits_nowhere t (turn (Event ok fd r wr) s).
Proof.
  destruct s as [fds w]. intros [Hf Hw]. simpl in *.
  pose proof (event_effect (fun _ _ => ok) fd r wr fds w) as He.
  destruct (process_mio_event (fun _ _ => ok) fd r wr fds w) as [fds' w'].
  destruct He as (f & f' & Hl & -> & E1 & E2 & E3).
  assert (Forall (fun f => reader_waker f <> Some t /\ writer_waker f <> Some t) (ensure_fd_state fds fd)) as Hen.
  { unfold ensure_fd_state. destruct (length fds <=? fd)%nat; [|done]. apply Forall_app. split; [done|].
    apply Forall_replicate. by split. }
  pose proof (Forall_lookup_1 _ _ _ _ Hen Hl) as [Hr Hwr].
  split; simpl.
  - apply Forall_insert; [done|]. rewrite E1, E2. by destruct r, wr.
  - rewrite E3. destruct r, wr, (reader_waker f), (writer_waker f); simpl; set_solver.
Qed.

Lemma install_at regs fd slot r fds f w :
  ensure_fd_state fds fd !! fd = Some f ->
  install regs fd slot r fds w =
  let '(_, f', w') := install_interest regs f (Z.of_nat fd) slot r w in (<[fd := f']> (ensure_fd_state fds fd), w').
Proof. unfold install. by intros ->. Qed.

Lemma ensure_same fds fd : (fd < length fds)%nat -> ensure_fd_state fds fd = fds.
Proof. intros. unfold ensure_fd_state. destruct (Nat.leb_spec (length fds) fd); [lia|done]. Qed.

(** Two tasks that wait on the same side of a descriptor: the second takes the place of the first, which is
    neither woken nor waiting any more; no event on any descriptor wakes it, however many readable ones
    there are. *)
Theorem mio_second_reader_displaces t1 t2 fd events :
  t1 <> t2 ->
  Forall (fun c => match c with Event _ _ _ _ => True | _ => False end) events ->
  let w := World [None; None] [Z.of_nat fd; Z.of_nat fd] [] [] [] [] in
  let s := turns [Arm 0 t1; Request true None (ReadLike fd 0); Arm 1 t2; Request true None (ReadLike fd 1)] ([], w) in
  (exists f, s.1 !! fd = Some f /\ reader_waker f = Some t2) /\ t1 ∉ woken (turns events s).2.
Proof.
  intros Ht Hev w s.
  set (f1 := Fd (Some t1) None (Some 0%nat) None (Some READABLE)).
  set (f2 := Fd (Some t2) None (Some 1%nat) None (Some READABLE)).
  set (blank := replicate (fd + 1) new_fd).
  assert (ensure_fd_state [] fd = blank) as E0 by (unfold ensure_fd_state, blank; simpl; by rewrite Nat.sub_0_r).
  assert (length blank = (fd + 1)%nat) as Hl by apply length_replicate.
  assert (s = (<[fd := f2]> (<[fd := f1]> blank),
    World [None; None] [Z.of_nat fd; Z.of_nat fd] [] [] [] [(Z.of_nat fd, READABLE)])) as Es.
  { unfold s, turns. cbn [fold_left].
    assert (turn (Request true None (ReadLike fd 0)) (turn (Arm 0 t1) ([], w)) =
      (<[fd := f1]> blank, World [None; None] [Z.of_nat fd; Z.of_nat fd] [] [] [] [(Z.of_nat fd, READABLE)])) as ->.
    { cbn [turn process_mio_request].
      rewrite (install_at _ fd 0 true [] new_fd) by (rewrite E0; apply lookup_replicate; split; [done|lia]).
      by rewrite E0. }
    cbn [turn process_mio_request].
    rewrite (install_at _ fd 1 true _ f1)
      by (rewrite ensure_same by (rewrite length_insert; lia); apply list_lookup_insert_eq; lia).
    rewrite ensure_same by (rewrite length_insert; lia). reflexivity. }
  split.
  - exists f2. rewrite Es. split; [|done]. apply list_lookup_insert_eq. rewrite length_insert. lia.
  - assert (waits_nowhere t1 s) as Hw.
    { rewrite Es. split; simpl; [|set_solver]. rewrite list_insert_insert_eq. apply Forall_insert; [|simpl; split; congruence].
      apply Forall_replicate. by split. }
    clearbody s. clear -Hw Hev. revert s Hw. induction Hev as [|c l Hc _ IH]; intros s Hw; [apply Hw|]. simpl.
    apply IH. destruct c; try done. by apply event_forgets.
Qed.

Lemma mio_waiters_are_registered_witness :
  let calls := [Arm 0 7; Request true None (ReadLike 3 0)] in
  let w := World [None] [3] [] [] [] [] in
  woken (turn (Event true 3 true false) (turns calls ([], w))).2 = [7%nat].
Proof.
  intros calls w. pose proof (mio_waiters_are_registered calls w) as H. cbn in H.
  destruct H as [_ H]. specialize (H true 3%nat _ true false eq_refl). cbn in H.
  destruct H as (f' & _ & _ & _ & _ & H). exact H.
Defined.

Lemma mio_second_reader_displaces_witness :
  1%nat <> 2%nat /\
  1%nat ∉ woken (turns [Event true 5 true false; Event true 5 true true]
    (turns [Arm 0 1; Request true None (ReadLike 5 0); Arm 1 2; Request true None (ReadLike 5 1)]
      ([], World [None; None] [5; 5] [] [] [] []))).2.
Proof.
  split; [done|].
  apply (mio_second_reader_displaces 1 2 5 [Event true 5 true false; Event true 5 true true]); [done|].
  repeat constructor.
Defined.

End MioReactor.
