(* ===== verification/SockAddr.v ===== *)
(** * SockAddr

    The address converters of src/dtact-util/src/io/native.rs, byte by byte:
    [socket_addr_to_libc], [sockaddr_storage_to_socketaddr], [unix_path_to_libc] and
    [sockaddr_un_to_addr].  A [sockaddr_storage] is its 128 bytes; the layout
    of the structures that are laid over it is that of libc on Linux.  The theorems hold for either
    byte order of the machine. *)

From S2P Require Import Prelude.

Module SockAddr.

Definition byte (x : Z) : Prop := 0 <= x < 256.

(** ** Words as bytes *)

Fixpoint le_bytes (n : nat) (x : Z) : list Z :=
  match n with O => [] | S n' => x `mod` 256 :: le_bytes n' (x / 256) end.
Fixpoint from_le (l : list Z) : Z :=
  match l with [] => 0 | b :: l' => b + 256 * from_le l' end.

Section byte_order.
(** The machine is big-endian. *)
Context (big : bool).

(** [to_ne_bytes], [from_ne_bytes]: as a word lies in memory; [to_be], [from_be] swap on a little-endian
    machine; [to_be_bytes]: most significant byte first. *)
Definition ne_bytes (n : nat) (x : Z) : list Z := if big then reverse (le_bytes n x) else le_bytes n x.
Definition from_ne (l : list Z) : Z := if big then from_le (reverse l) else from_le l.
Definition swap_bytes (n : nat) (x : Z) : Z := from_le (reverse (le_bytes n x)).
Definition to_be (n : nat) (x : Z) : Z := if big then x else swap_bytes n x.
Definition from_be (n : nat) (x : Z) : Z := to_be n x.
Definition be_bytes (n : nat) (x : Z) : list Z := reverse (le_bytes n x).

(** ** std::net::SocketAddr *)

Inductive SocketAddr :=
| V4 (octets : list Z) (port : Z)
| V6 (octets : list Z) (port flowinfo scope_id : Z).

Definition well_formed (a : SocketAddr) : Prop :=
  match a with
  | V4 o p => length o = 4%nat /\ Forall byte o /\ is_word 16 p
  | V6 o p f s => length o = 16%nat /\ Forall byte o /\ is_word 16 p /\ is_word 32 f /\ is_word 32 s
  end.

Definition AF_UNIX : Z := 1.
Definition AF_INET : Z := 2.
Definition AF_INET6 : Z := 10.

Definition STORAGE : nat := 128.
Definition zeroed : list Z := replicate STORAGE 0.

(** [copy_nonoverlapping] of the bytes of a structure to the start of the storage. *)
Definition copy_over (l storage : list Z) : list Z := l ++ drop (length l) storage.
(** A field at an offset. *)
Definition field (off len : nat) (storage : list Z) : list Z := take len (drop off storage).

Definition sockaddr_in (port s_addr : Z) : list Z :=
  ne_bytes 2 AF_INET ++ ne_bytes 2 port ++ ne_bytes 4 s_addr ++ replicate 8 0.
Definition sockaddr_in6 (port flowinfo : Z) (addr : list Z) (scope : Z) : list Z :=
  ne_bytes 2 AF_INET6 ++ ne_bytes 2 port ++ ne_bytes 4 flowinfo ++ addr ++ ne_bytes 4 scope.

Definition socket_addr_to_libc (addr : SocketAddr) : list Z * Z :=
  match addr with
  | V4 octets port =>
      let sin := sockaddr_in (to_be 2 port) (from_ne octets) in
      (copy_over sin zeroed, Z.of_nat (length sin))
  | V6 octets port flowinfo scope =>
      let sin6 := sockaddr_in6 (to_be 2 port) flowinfo octets scope in
      (copy_over sin6 zeroed, Z.of_nat (length sin6))
  end.

Definition ss_family (storage : list Z) : Z := from_ne (field 0 2 storage).

Definition sockaddr_storage_to_socketaddr (storage : list Z) (_len : Z) : outcome SocketAddr :=
  if ss_family storage =? AF_INET then
    let port := from_be 2 (from_ne (field 2 2 storage)) in
    let ip := be_bytes 4 (from_be 4 (from_ne (field 4 4 storage))) in
    Done (V4 ip port)
  else if ss_family storage =? AF_INET6 then
    let port := from_be 2 (from_ne (field 2 2 storage)) in
    Done (V6 (field 8 16 storage) port (from_ne (field 4 4 storage)) (from_ne (field 24 4 storage)))
  else Panic.

(** ** Paths of Unix sockets *)

Definition SUN_PATH : nat := 108.
Definition FAMILY_LEN : nat := 2.

Inductive path_error := InvalidInput.

Definition unix_path_to_libc (path : list Z) : result (list Z * Z) path_error :=
  if (SUN_PATH <=? length path)%nat then Err InvalidInput
  else Ok (copy_over (ne_bytes FAMILY_LEN AF_UNIX ++ path) zeroed, Z.of_nat (FAMILY_LEN + length path + 1)).

(** The first piece of [split(|&b| b == 0)]. *)
Fixpoint until_nul (l : list Z) : list Z :=
  match l with
  | [] => []
  | b :: l' => if b =? 0 then [] else b :: until_nul l'
  end.

(** [None]: unnamed. *)
Definition sockaddr_un_to_addr (storage : list Z) (len : Z) : option (list Z) :=
  if len <=? Z.of_nat FAMILY_LEN then None
  else
    let path_len := Nat.min (Z.to_nat (len - Z.of_nat FAMILY_LEN)) SUN_PATH in
    match until_nul (field FAMILY_LEN path_len storage) with
    | [] => None
    | bytes => Some bytes
    end.

(** ** Bytes and words *)

Lemma le_bytes_length n x : length (le_bytes n x) = n.
Proof. revert x. induction n; intros; simpl; auto. Qed.

Lemma le_bytes_byte n x : Forall byte (le_bytes n x).
Proof.
  revert x. induction n as [|n IH]; intros x; constructor; [|apply IH].
  apply Z.mod_pos_bound. lia.
Qed.

Lemma from_le_le_bytes n x : is_word (8 * Z.of_nat n) x -> from_le (le_bytes n x) = x.
Proof.
  unfold is_word. revert x. induction n as [|n IH]; intros x Hx.
  - simpl in *. lia.
  - cbn [le_bytes from_le]. rewrite IH; [pose proof (Z.div_mod x 256); lia|].
    replace (8 * Z.of_nat (S n)) with (8 + 8 * Z.of_nat n) in Hx by lia.
    rewrite Z.pow_add_r in Hx by lia. change (2 ^ 8) with 256 in Hx.
    split; [apply Z.div_pos; lia|]. apply Z.div_lt_upper_bound; lia.
Qed.

Lemma le_bytes_from_le l : Forall byte l -> le_bytes (length l) (from_le l) = l.
Proof.
  induction 1 as [|b l Hb _ IH]; [done|]. cbn [length from_le le_bytes]. unfold byte in Hb. f_equal.
  - rewrite (Z.mul_comm 256), Z.mod_add, Z.mod_small; lia.
  - rewrite (Z.mul_comm 256), Z.div_add, Z.div_small by lia. done.
Qed.

Lemma from_le_word l : Forall byte l -> is_word (8 * Z.of_nat (length l)) (from_le l).
Proof.
  unfold is_word. induction 1 as [|b l Hb _ IH]; [simpl; lia|]. cbn [length from_le]. unfold byte in Hb.
  replace (8 * Z.of_nat (S (length l))) with (8 + 8 * Z.of_nat (length l)) by lia.
  rewrite Z.pow_add_r by lia. change (2 ^ 8) with 256. lia.
Qed.

Lemma ne_bytes_length n x : length (ne_bytes n x) = n.
Proof. unfold ne_bytes. destruct big; rewrite ?length_reverse; apply le_bytes_length. Qed.

Lemma from_ne_ne_bytes n x : is_word (8 * Z.of_nat n) x -> from_ne (ne_bytes n x) = x.
Proof. unfold from_ne, ne_bytes. destruct big; rewrite ?reverse_involutive; apply from_le_le_bytes. Qed.

Lemma ne_bytes_from_ne l : Forall byte l -> ne_bytes (length l) (from_ne l) = l.
Proof.
  unfold from_ne, ne_bytes. destruct big; [|apply le_bytes_from_le].
  intros Hl. rewrite <- (length_reverse l), le_bytes_from_le by (by apply Forall_reverse). apply reverse_involutive.
Qed.

Lemma from_ne_word l : Forall byte l -> is_word (8 * Z.of_nat (length l)) (from_ne l).
Proof.
  unfold from_ne. destruct big; [|apply from_le_word].
  intros Hl. rewrite <- (length_reverse l). apply from_le_word. by apply Forall_reverse.
Qed.

Lemma swap_bytes_word n x : is_word (8 * Z.of_nat n) (swap_bytes n x).
Proof.
  unfold swap_bytes.
  rewrite <- (le_bytes_length n x) at 1. rewrite <- length_reverse.
  apply from_le_word, Forall_reverse, le_bytes_byte.
Qed.

Lemma swap_bytes_involutive n x : is_word (8 * Z.of_nat n) x -> swap_bytes n (swap_bytes n x) = x.
Proof.
  intros Hx. unfold swap_bytes at 1.
  assert (le_bytes n (swap_bytes n x) = reverse (le_bytes n x)) as ->.
  { unfold swap_bytes. rewrite <- (le_bytes_length n x) at 1. rewrite <- length_reverse.
    apply le_bytes_from_le, Forall_reverse, le_bytes_byte. }
  rewrite reverse_involutive. by apply from_le_le_bytes.
Qed.

Lemma to_be_word n x : is_word (8 * Z.of_nat n) x -> is_word (8 * Z.of_nat n) (to_be n x).
Proof. unfold to_be. destruct big; [done|]. intros _. apply swap_bytes_word. Qed.

Lemma from_be_to_be n x : is_word (8 * Z.of_nat n) x -> from_be n (to_be n x) = x.
Proof. unfold from_be, to_be. destruct big; [done|]. apply swap_bytes_involutive. Qed.

(** Four bytes read as a word, swapped to host order and written out most significant first
    are the bytes. *)
Lemma be_bytes_from_be l : Forall byte l -> be_bytes (length l) (from_be (length l) (from_ne l)) = l.
Proof.
  intros Hl. unfold be_bytes, from_be, to_be, from_ne.
  destruct big.
  - rewrite <- (length_reverse l), le_bytes_from_le by (by apply Forall_reverse). apply reverse_involutive.
  - unfold swap_bytes. rewrite le_bytes_from_le by done.
    rewrite <- (length_reverse l), le_bytes_from_le by (by apply Forall_reverse). apply reverse_involutive.
Qed.

(** ** Fields *)

Lemma field_skip off off' len l1 l2 :
  length l1 = off' -> (off' <= off)%nat -> field off len (l1 ++ l2) = field (off - off') len l2.
Proof.
  intros <- H. unfold field. rewrite drop_app_ge by done. done.
Qed.

Lemma field_head len l1 l2 : length l1 = len -> field 0 len (l1 ++ l2) = l1.
Proof. intros <-. unfold field. rewrite drop_0. apply take_app_length. Qed.

Lemma copy_over_length l s : (length l <= length s)%nat -> length (copy_over l s) = length s.
Proof. intros. unfold copy_over. rewrite length_app, length_drop. lia. Qed.

Lemma field_length off len s : (off + len <= length s)%nat -> length (field off len s) = len.
Proof. intros. unfold field. rewrite length_take, length_drop. lia. Qed.

Lemma field_byte off len s : Forall byte s -> Forall byte (field off len s).
Proof. intros. unfold field. by apply Forall_take, Forall_drop. Qed.

(** Reading the fields of a structure written as a concatenation. *)
Ltac fields := unfold copy_over, sockaddr_in, sockaddr_in6; rewrite <- ?app_assoc;
  repeat first [rewrite field_head by (by rewrite ?ne_bytes_length)
               |rewrite (field_skip _ 2) by (rewrite ?ne_bytes_length; lia); simpl Nat.sub
               |rewrite (field_skip _ 4) by (rewrite ?ne_bytes_length; lia); simpl Nat.sub
               |rewrite (field_skip _ 16) by (rewrite ?ne_bytes_length; lia); simpl Nat.sub].

Lemma from_ne_const n x : (0 < n)%nat -> 0 <= x < 256 -> from_ne (ne_bytes n x) = x.
Proof.
  intros Hn Hx. apply from_ne_ne_bytes. split; [lia|].
  apply Z.lt_le_trans with (2 ^ 8); [lia|]. apply Z.pow_le_mono_r; lia.
Qed.

Lemma port_roundtrip p : is_word 16 p -> from_be 2 (from_ne (ne_bytes 2 (to_be 2 p))) = p.
Proof. intros Hp. rewrite from_ne_ne_bytes by (by apply to_be_word). by apply from_be_to_be. Qed.

(** C32.  What is handed to the kernel reads back as the address it was made from: every field of
    every IPv4 and IPv6 address survives, on machines of either byte order, and the length
    passed along is that of the structure. *)
Theorem socket_addr_roundtrip addr :
  well_formed addr ->
  let '(storage, len) := socket_addr_to_libc addr in
  length storage = STORAGE /\ len = (match addr with V4 _ _ => 16 | V6 _ _ _ _ => 28 end) /\
  sockaddr_storage_to_socketaddr storage len = Done addr.
Proof.
  destruct addr as [o p|o p f s]; cbn [well_formed socket_addr_to_libc]; intros Hw; destruct_and?.
  - assert (length (sockaddr_in (to_be 2 p) (from_ne o)) = 16%nat) as El
      by (unfold sockaddr_in; by rewrite !length_app, !ne_bytes_length, length_replicate).
    split; [rewrite copy_over_length; rewrite ?El; unfold zeroed; rewrite length_replicate; [done|by vm_compute; lia]|].
    split; [by rewrite El|].
    unfold sockaddr_storage_to_socketaddr, ss_family. fields. rewrite from_ne_const by (unfold AF_INET; lia).
    rewrite Z.eqb_refl, port_roundtrip by done.
    match goal with H : length o = 4%nat |- _ => rewrite <- H end.
    by rewrite ne_bytes_from_ne, be_bytes_from_be by done.
  - assert (length (sockaddr_in6 (to_be 2 p) f o s) = 28%nat) as El
      by (unfold sockaddr_in6; rewrite !length_app, !ne_bytes_length; lia).
    split; [rewrite copy_over_length; rewrite ?El; unfold zeroed; rewrite length_replicate; [done|by vm_compute; lia]|].
    split; [by rewrite El|].
    unfold sockaddr_storage_to_socketaddr, ss_family. fields. rewrite from_ne_const by (unfold AF_INET6; lia).
    change (AF_INET6 =? AF_INET) with false. rewrite Z.eqb_refl, port_roundtrip by done.
    by rewrite !from_ne_ne_bytes by done.
Qed.

Lemma from_ne_field_word off len s :
  Forall byte s -> (off + len <= length s)%nat -> is_word (8 * Z.of_nat len) (from_ne (field off len s)).
Proof.
  intros Hs Hl. rewrite <- (field_length off len s Hl) at 1. apply from_ne_word. by apply field_byte.
Qed.


(** ** Paths *)

Lemma until_nul_no_nul l : 0 ∉ until_nul l.
Proof.
  induction l as [|b l IH]; simpl; [apply not_elem_of_nil|]. case_test; [apply not_elem_of_nil|].
  rewrite elem_of_cons. intros [? | ?]; [congruence|done].
Qed.

Lemma until_nul_stop l l' : until_nul (l ++ 0 :: l') = until_nul l.
Proof. induction l as [|b l IH]; simpl; [done|]. by rewrite IH. Qed.

Lemma until_nul_id l : 0 ∉ l -> until_nul l = l.
Proof.
  induction l as [|b l IH]; simpl; [done|]. rewrite not_elem_of_cons. intros [Hb Hl].
  case_test; [congruence|]. by rewrite IH.
Qed.

(** A path is refused exactly when it leaves no room for its terminator.  One that is accepted
    reads back up to its first NUL byte, so as itself if it has none and as unnamed if it starts with one. *)
Theorem unix_path_roundtrip path :
  match unix_path_to_libc path with
  | Err InvalidInput => (SUN_PATH <= length path)%nat
  | Ok (storage, len) =>
      (length path < SUN_PATH)%nat /\ length storage = STORAGE /\ len <= 110 /\
      sockaddr_un_to_addr storage len = (match until_nul path with [] => None | p => Some p end) /\
      (0 ∉ path -> path <> [] -> sockaddr_un_to_addr storage len = Some path)
  end.
Proof.
  unfold unix_path_to_libc. destruct (Nat.leb_spec SUN_PATH (length path)) as [Hl | Hl]; [done|].
  unfold SUN_PATH, FAMILY_LEN in *.
  assert (length (ne_bytes 2 AF_UNIX ++ path) = (2 + length path)%nat) as El
    by (by rewrite length_app, ne_bytes_length).
  assert (sockaddr_un_to_addr (copy_over (ne_bytes 2 AF_UNIX ++ path) zeroed) (Z.of_nat (2 + length path + 1))
    = match until_nul path with [] => None | p => Some p end) as Hun.
  { unfold sockaddr_un_to_addr, FAMILY_LEN. case_test; [lia|].
    replace (Nat.min (Z.to_nat (Z.of_nat (2 + length path + 1) - Z.of_nat 2)) SUN_PATH) with (length path + 1)%nat
      by (unfold SUN_PATH; lia).
    unfold copy_over. rewrite El, <- app_assoc, (field_skip _ 2) by (rewrite ?ne_bytes_length; lia).
    simpl Nat.sub. unfold field. rewrite drop_0, take_app_ge by lia.
    replace (length path + 1 - length path)%nat with 1%nat by lia.
    replace (take 1 (drop (2 + length path) zeroed)) with [0]; [by rewrite until_nul_stop|].
    unfold zeroed, STORAGE. rewrite drop_replicate, take_replicate.
    by replace (1 `min` (128 - (2 + length path)))%nat with 1%nat by lia. }
  split; [done|]. split; [|split; [lia|split; [done|]]].
  - rewrite copy_over_length; unfold zeroed, STORAGE; rewrite length_replicate; [done|lia].
  - intros Hn Hp. rewrite Hun, until_nul_id by done. by destruct path.
Qed.

(** Parsing the peer of a datagram looks only at the bytes the kernel says it filled in, whatever length
    it says, and what it returns has no NUL and fits in [sun_path]. *)
Theorem sockaddr_un_stays_within s1 s2 len :
  take (Z.to_nat len) s1 = take (Z.to_nat len) s2 ->
  sockaddr_un_to_addr s1 len = sockaddr_un_to_addr s2 len /\
  forall p, sockaddr_un_to_addr s1 len = Some p -> 0 ∉ p /\ (0 < length p <= SUN_PATH)%nat.
Proof.
  intros Hs. unfold sockaddr_un_to_addr. case_test; [done|].
  set (n := Nat.min _ SUN_PATH). assert (n <= Z.to_nat (len - 2) /\ n <= SUN_PATH)%nat as [Hn Hn'] by (unfold n, FAMILY_LEN; lia).
  assert (field FAMILY_LEN n s1 = field FAMILY_LEN n s2) as ->.
  { unfold field, FAMILY_LEN in *. apply (f_equal (fun l => take n (drop 2 l))) in Hs.
    rewrite !skipn_firstn_comm, !take_take in Hs.
    replace (n `min` (Z.to_nat len - 2))%nat with n in Hs by lia. done. }
  split; [done|]. intros p Hp.
  assert (p = until_nul (field FAMILY_LEN n s2) /\ p <> []) as [-> Hne]
    by (destruct (until_nul _); naive_solver).
  split; [apply until_nul_no_nul|]. split; [destruct (until_nul _); [done|simpl; lia]|].
  transitivity (length (field FAMILY_LEN n s2)).
  - clear. induction (field FAMILY_LEN n s2) as [|b l IH]; simpl; [lia|]. case_test; simpl; lia.
  - unfold field. rewrite length_take. lia.
Qed.

End byte_order.

(** ** Witnesses *)

Definition localhost : SocketAddr := V4 [127; 0; 0; 1] 8080.

Lemma socket_addr_roundtrip_witness :
  well_formed localhost /\
  let '(storage, len) := socket_addr_to_libc false localhost in
  length storage = STORAGE /\ len = 16 /\ sockaddr_storage_to_socketaddr false storage len = Done localhost.
Proof.
  assert (well_formed localhost) as H.
  { split; [done|]. split; [|by cbv]. repeat constructor; by cbv. }
  split; [done|]. apply (socket_addr_roundtrip false localhost H).
Defined.

Example localhost_bytes :
  take 16 (socket_addr_to_libc false localhost).1 = [2; 0; 31; 144; 127; 0; 0; 1; 0; 0; 0; 0; 0; 0; 0; 0].
Proof. reflexivity. Qed.


Lemma sockaddr_un_stays_within_witness :
  sockaddr_un_to_addr ([1; 0; 47; 97; 0] ++ replicate 123 7) 5 = sockaddr_un_to_addr ([1; 0; 47; 97; 0] ++ replicate 123 9) 5 /\
  forall p, sockaddr_un_to_addr ([1; 0; 47; 97; 0] ++ replicate 123 7) 5 = Some p ->
    0 ∉ p /\ (0 < length p <= SUN_PATH)%nat.
Proof. apply (sockaddr_un_stays_within ([1; 0; 47; 97; 0] ++ replicate 123 7)). reflexivity. Defined.

End SockAddr.
