(* ===== verification/FsRing.v ===== *)
(** * FsRing

    The io_uring file backend, src/dtact-util/src/fs/uring_linux.rs: the pool of operation slots
    with its heap fallback, the submit queue and the worker that hands batches to the
    kernel, the futures on them, and what [DtactFile] makes of the results.  One call is
    one step here: what a registration and a wake-up can do to each other on one waker slot is the
    subject of WakerSlot.v and Handoff.v. *)

From S2P Require Import Prelude.

Module FsRing.

(** [result]: [None] is [PENDING]. *)
Record OpState := Op { result : option Z; waker : option nat }.
Definition fresh : OpState := Op None None.

Inductive Slot := Pooled (idx : nat) | Heap (k : nat).
#[export] Instance slot_eq_dec : EqDecision Slot.
Proof. solve_decision. Defined.

(** The worker: parked or about to look; in [submit_and_wait(n)]; going through the completions. *)
Inductive worker_pc := WIdle | WWaiting (n : nat) | WReaping.

(** Future number [h] submitted entry [h]; [ops] has its slot until it is dropped.  A heap slot that
    has been freed is [None].  Histories: slots left to leak, entries the submission queue
    had no room for, results of the kernel, what the futures returned, and whether a
    completion was written into freed memory. *)
Record conf := Conf {
  slots : list OpState;
  heap : list (option OpState);
  free : list nat;
  pending : list (Slot * nat);
  in_ring : list (Slot * nat);
  cq : list (Slot * nat * Z);
  worker : worker_pc;
  ops : list (option Slot);
  leaked : list nat;
  lost : list (Slot * nat);
  performed : list (nat * Z);
  returned : list (nat * Z);
  woken : list nat;
  wild : bool
}.

(** [IoUring::new(256)]. *)
Definition RING : nat := 256.

Definition state_of (s : Slot) (c : conf) : option OpState :=
  match s with Pooled i => slots c !! i | Heap k => heap c !! k ≫= id end.

Definition set_state (s : Slot) (st : OpState) (c : conf) : conf :=
  let sl := match s with Pooled i => <[i := st]> (slots c) | Heap _ => slots c end in
  let hp := match s with Pooled _ => heap c | Heap k => <[k := Some st]> (heap c) end in
  Conf sl hp (free c) (pending c) (in_ring c) (cq c) (worker c) (ops c) (leaked c) (lost c)
    (performed c) (returned c) (woken c) (wild c).

Definition acquire_slot (c : conf) : Slot * conf :=
  match free c with
  | i :: rest =>
      let st := match slots c !! i with Some st => Op None (waker st) | None => fresh end in
      (Pooled i, Conf (<[i := st]> (slots c)) (heap c) rest (pending c) (in_ring c) (cq c) (worker c) (ops c)
         (leaked c) (lost c) (performed c) (returned c) (woken c) (wild c))
  | [] =>
      (Heap (length (heap c)), Conf (slots c) (heap c ++ [Some fresh]) [] (pending c) (in_ring c) (cq c) (worker c)
         (ops c) (leaked c) (lost c) (performed c) (returned c) (woken c) (wild c))
  end.

(** [submit]: the new future's number is the number of those before it. *)
Definition submit (c : conf) : conf :=
  let '(s, c) := acquire_slot c in
  Conf (slots c) (heap c) (free c) ((s, length (ops c)) :: pending c) (in_ring c) (cq c) (worker c)
    (ops c ++ [Some s]) (leaked c) (lost c) (performed c) (returned c) (woken c) (wild c).

(** [decode]. *)
Definition decode (res : Z) : Prelude.result Z Z := if res <? 0 then Err (- res) else Ok res.

(** [IoOp::poll] of future [h] with waker [w]. *)
Definition poll (h w : nat) (c : conf) : conf :=
  match ops c !! h with
  | Some (Some s) =>
      match state_of s c with
      | Some st =>
          match result st with
          | Some r =>
              Conf (slots c) (heap c) (free c) (pending c) (in_ring c) (cq c) (worker c) (ops c) (leaked c)
                (lost c) (performed c) ((h, r) :: returned c) (woken c) (wild c)
          | None => set_state s (Op None (Some w)) c
          end
      | None => c
      end
  | _ => c
  end.

(** [Drop for IoOp]; dropping a heap slot frees it. *)
Definition drop_op (h : nat) (c : conf) : conf :=
  match ops c !! h with
  | Some (Some (Pooled i)) =>
      let done := match slots c !! i with Some st => bool_decide (is_Some (result st)) | None => false end in
      Conf (slots c) (heap c) (if done then i :: free c else free c) (pending c) (in_ring c) (cq c) (worker c)
        (<[h := None]> (ops c)) (if done then leaked c else i :: leaked c) (lost c) (performed c)
        (returned c) (woken c) (wild c)
  | Some (Some (Heap k)) =>
      Conf (slots c) (<[k := None]> (heap c)) (free c) (pending c) (in_ring c) (cq c) (worker c)
        (<[h := None]> (ops c)) (leaked c) (lost c) (performed c) (returned c) (woken c) (wild c)
  | _ => c
  end.

(** [worker_loop] up to [submit_and_wait]: a [sq.push] that finds the queue full is ignored. *)
Definition drain (c : conf) : conf :=
  match worker c, pending c with
  | WIdle, [] => c
  | WIdle, batch =>
      Conf (slots c) (heap c) (free c) [] (in_ring c ++ take RING batch) (cq c) (WWaiting (length batch)) (ops c)
        (leaked c) (lost c ++ drop RING batch) (performed c) (returned c) (woken c) (wild c)
  | _, _ => c
  end.

(** [submit_and_wait(n)] returns when there are [n] completions. *)
Definition wait_returns (c : conf) : conf :=
  match worker c with
  | WWaiting n =>
      if (n <=? length (cq c))%nat then
        Conf (slots c) (heap c) (free c) (pending c) (in_ring c) (cq c) WReaping (ops c) (leaked c) (lost c)
          (performed c) (returned c) (woken c) (wild c)
      else c
  | _ => c
  end.

(** One completion: store the result, wake; after the last one back to the top of the loop. *)
Definition reap (c : conf) : conf :=
  match worker c, cq c with
  | WReaping, (s, h, r) :: rest =>
      let c' := Conf (slots c) (heap c) (free c) (pending c) (in_ring c) rest WReaping (ops c) (leaked c) (lost c)
        (performed c) (returned c) (match state_of s c ≫= waker with Some w => w :: woken c | None => woken c end)
        (match state_of s c with Some _ => wild c | None => true end) in
      match state_of s c with Some _ => set_state s (Op (Some r) None) c' | None => c' end
  | WReaping, [] =>
      Conf (slots c) (heap c) (free c) (pending c) (in_ring c) [] WIdle (ops c) (leaked c) (lost c)
        (performed c) (returned c) (woken c) (wild c)
  | _, _ => c
  end.

(** The kernel completes the [i]-th operation it has with result [r]. *)
Definition complete (i : nat) (r : Z) (c : conf) : conf :=
  match in_ring c !! i with
  | Some (s, h) =>
      Conf (slots c) (heap c) (free c) (pending c) (delete i (in_ring c)) (cq c ++ [(s, h, r)]) (worker c) (ops c)
        (leaked c) (lost c) ((h, r) :: performed c) (returned c) (woken c) (wild c)
  | None => c
  end.

Inductive event := Submit | Poll (h w : nat) | DropOp (h : nat) | Drain | WaitReturns | Reap | Complete (i : nat) (r : Z).

Definition exec (e : event) (c : conf) : conf :=
  match e with
  | Submit => submit c
  | Poll h w => poll h w c
  | DropOp h => drop_op h c
  | Drain => drain c
  | WaitReturns => wait_returns c
  | Reap => reap c
  | Complete i r => complete i r c
  end.

Definition run (es : list event) (c : conf) : conf := fold_left (fun c e => exec e c) es c.

(** [init_fs] with [depth] slots. *)
Definition start (depth : nat) : conf :=
  Conf (replicate depth fresh) [] (reverse (seq 0 depth)) [] [] [] WIdle [] [] [] [] [] [] false.

(** ** Invariant *)

Definition outstanding (c : conf) : list (Slot * nat) := pending c ++ in_ring c ++ (cq c).*1.

Definition pooled (o : option Slot) : list nat := match o with Some (Pooled i) => [i] | _ => [] end.

(** The pooled slots of the futures that exist. *)
Definition held (c : conf) : list nat := ops c ≫= pooled.

(** [x]: a future whose slot and entry are being brought in line. *)
Record inv_but (x : option nat) (depth : nat) (c : conf) : Prop := {
  i_len : length (slots c) = depth;
  i_places : free c ++ held c ++ leaked c ≡ₚ seq 0 depth;
  i_nodup : NoDup ((outstanding c ++ lost c).*2);
  i_known : forall s h, (s, h) ∈ outstanding c ++ lost c ->
    ops c !! h = Some (Some s) \/ (ops c !! h = Some None /\ match s with Pooled i => i ∈ leaked c | Heap k => heap c !! k = Some None end);
  i_heap : forall h k, ops c !! h = Some (Some (Heap k)) -> exists st, heap c !! k = Some (Some st);
  i_heap_own : forall h1 h2 k, ops c !! h1 = Some (Some (Heap k)) -> ops c !! h2 = Some (Some (Heap k)) -> h1 = h2;
  i_op : forall h s st, x <> Some h -> ops c !! h = Some (Some s) -> state_of s c = Some st ->
    match result st with
    | None => (s, h) ∈ outstanding c ++ lost c
    | Some r => (h, r) ∈ performed c /\ (s, h) ∉ outstanding c ++ lost c
    end;
  i_cq : forall s h r, (s, h, r) ∈ cq c -> (h, r) ∈ performed c;
  i_ret : forall h r, (h, r) ∈ returned c -> (h, r) ∈ performed c
}.

Definition inv : nat -> conf -> Prop := inv_but None.

Lemma elem_of_held l i : i ∈ l ≫= pooled <-> exists h, l !! h = Some (Some (Pooled i)).
Proof.
  rewrite list_elem_of_bind. split.
  - intros (o & Hi & (h & Ho)%list_elem_of_lookup). exists h. destruct o as [[j|]|]; simpl in Hi; set_solver.
  - intros (h & Hh). exists (Some (Pooled i)). split; [left|by eapply list_elem_of_lookup_2].
Qed.

Lemma held_inj l i h1 h2 :
  NoDup (l ≫= pooled) -> l !! h1 = Some (Some (Pooled i)) -> l !! h2 = Some (Some (Pooled i)) -> h1 = h2.
Proof.
  revert h1 h2. induction l as [|o l IH]; intros h1 h2 Hn H1 H2; [done|]. simpl in Hn.
  apply NoDup_app in Hn as (_ & Hd & Hn).
  destruct h1 as [|h1], h2 as [|h2]; simplify_eq/=; auto.
  - exfalso. apply (Hd i); [left|]. apply elem_of_held. eauto.
  - exfalso. apply (Hd i); [left|]. apply elem_of_held. eauto.
Qed.

Lemma places_nodup x depth c : inv_but x depth c ->
  NoDup (held c) /\ (forall i, i ∈ free c -> i ∉ held c /\ i ∉ leaked c) /\ (forall i, i ∈ held c -> i ∉ leaked c).
Proof.
  intros []. assert (NoDup (free c ++ held c ++ leaked c)) as Hn by (rewrite i_places0; apply NoDup_seq).
  apply NoDup_app in Hn as (_ & Hd & (? & Hd2 & _)%NoDup_app). split; [done|]. split; [|done].
  intros i Hi. specialize (Hd i Hi). rewrite not_elem_of_app in Hd. done.
Qed.

(** A slot is one future's. *)
Lemma slot_unique x depth c h1 h2 s :
  inv_but x depth c -> ops c !! h1 = Some (Some s) -> ops c !! h2 = Some (Some s) -> h1 = h2.
Proof.
  intros H H1 H2. destruct s as [i|k]; [|by eapply i_heap_own].
  destruct (places_nodup _ _ _ H) as (Hn & _). by eapply held_inj.
Qed.

(** The slot of an entry is not another future's. *)
Lemma entry_slot x depth c s h h2 :
  inv_but x depth c -> (s, h) ∈ outstanding c ++ lost c -> ops c !! h2 = Some (Some s) -> h2 = h.
Proof.
  intros H Hin H2. destruct (i_known _ _ _ H s h Hin) as [H1 | [H1 Hs]]; [by eapply slot_unique|].
  exfalso. destruct s as [i|k].
  - destruct (places_nodup _ _ _ H) as (_ & _ & Hd). apply (Hd i); [apply elem_of_held; eauto|done].
  - destruct (i_heap _ _ _ H h2 k H2) as [st Hst]. congruence.
Qed.

(** Entries that only move from one list to another. *)
Lemma fs_inv_moves x depth c c' :
  inv_but x depth c -> slots c' = slots c -> heap c' = heap c -> free c' = free c -> ops c' = ops c -> leaked c' = leaked c ->
  outstanding c' ++ lost c' ≡ₚ outstanding c ++ lost c ->
  (forall h r, (h, r) ∈ performed c -> (h, r) ∈ performed c') ->
  (forall s h r, (s, h, r) ∈ cq c' -> (h, r) ∈ performed c') ->
  returned c' = returned c -> inv_but x depth c'.
Proof.
  intros [] Es Eh Ef Eo El Ep Hp Hc Er.
  split; unfold held, state_of in *; rewrite ?Es, ?Eh, ?Ef, ?Eo, ?El, ?Er; auto.
  - by rewrite Ep.
  - intros s h. rewrite Ep. auto.
  - intros h s st Hx Ho Hs. specialize (i_op0 h s st Hx Ho Hs). destruct (result st) as [r|]; rewrite Ep; [|done].
    destruct i_op0. auto.
Qed.

Lemma drain_inv depth c : inv depth c -> inv depth (drain c).
Proof.
  intros H. unfold drain. destruct (worker c) eqn:Ew; try done. destruct (pending c) as [|e b] eqn:Ep; [done|].
  apply (fs_inv_moves None depth c); auto.
  - unfold outstanding. cbn [FsRing.pending FsRing.in_ring FsRing.cq FsRing.lost]. rewrite Ep.
    rewrite <- (take_drop RING (e :: b)) at 3. simpl. solve_perm.
  - by destruct H.
Qed.

Lemma complete_inv depth i r c : inv depth c -> inv depth (complete i r c).
Proof.
  intros H. unfold complete. destruct (in_ring c !! i) as [[s h]|] eqn:E; [|done].
  apply (fs_inv_moves None depth c); auto.
  - unfold outstanding. cbn [FsRing.pending FsRing.in_ring FsRing.cq FsRing.lost]. rewrite fmap_app.
    rewrite (delete_Permutation _ _ _ E) at 2. change ([(s, h, r)].*1) with [(s, h)]. solve_perm.
  - intros. by right.
  - intros s' h' r'. simpl. rewrite elem_of_app. intros [Hc | Hc].
    + right. by eapply i_cq.
    + apply list_elem_of_singleton in Hc. simplify_eq. left.
Qed.

Lemma wait_inv depth c : inv depth c -> inv depth (wait_returns c).
Proof.
  intros H. unfold wait_returns. destruct (worker c) as [|n|]; try done. destruct (n <=? _)%nat; [|done].
  apply (fs_inv_moves None depth c); auto. by destruct H.
Qed.

(** A future that exists has a slot. *)
Lemma live_state x depth c h s : inv_but x depth c -> ops c !! h = Some (Some s) -> is_Some (state_of s c).
Proof.
  intros [] Ho. destruct s as [i|k]; simpl.
  - assert (i ∈ seq 0 depth) as Hi.
    { rewrite <- i_places0, !elem_of_app. right. left. apply elem_of_held. eauto. }
    apply elem_of_seq in Hi. apply lookup_lt_is_Some. lia.
  - destruct (i_heap0 h k Ho) as [st E]. rewrite E. by exists st.
Qed.

(** The record of a slot changes, nothing else that matters. *)
Lemma state_of_set s s' st c :
  is_Some (state_of s c) -> state_of s' (set_state s st c) = (if decide (s' = s) then Some st else state_of s' c).
Proof.
  intros [x Hx]. destruct s as [i|k], s' as [i'|k']; simpl in *; try done.
  - destruct (decide (Pooled i' = Pooled i)) as [E|E]; simplify_eq.
    + apply list_lookup_insert_eq. by eapply lookup_lt_Some.
    + apply list_lookup_insert_ne. congruence.
  - destruct (decide (Heap k' = Heap k)) as [E|E]; simplify_eq.
    + apply bind_Some in Hx as (y & Hy & _). rewrite list_lookup_insert_eq; [done|]. by eapply lookup_lt_Some.
    + rewrite list_lookup_insert_ne; [done|congruence].
Qed.

Lemma set_state_inv x depth s st c h :
  inv_but x depth c -> x = None \/ x = Some h -> ops c !! h = Some (Some s) ->
  match result st with
  | None => (s, h) ∈ outstanding c ++ lost c
  | Some r => (h, r) ∈ performed c /\ (s, h) ∉ outstanding c ++ lost c
  end ->
  inv depth (set_state s st c).
Proof.
  intros H Hxh Hop Hst. pose proof H as [].
  assert (is_Some (state_of s c) \/ state_of s c = None) as [Hs | Hs] by (destruct (state_of s c); eauto).
  - split; auto; simpl.
    + destruct s; rewrite ?length_insert; done.
    + intros s' h' Hin. destruct (i_known0 s' h' Hin) as [? | [Ho Hl]]; [by left|]. right. split; [done|].
      destruct s' as [|k']; [done|]. destruct s as [|k]; [done|].
      rewrite list_lookup_insert_ne; [done|]. intros ->.
      destruct (i_heap0 h k' Hop). congruence.
    + intros h' k' Ho. destruct (i_heap0 h' k' Ho) as [st' Hst']. destruct s as [|k]; [eauto|].
      destruct (decide (k = k')) as [-> |]; [|rewrite list_lookup_insert_ne by done; eauto].
      exists st. apply list_lookup_insert_eq. by eapply lookup_lt_Some.
    + intros h' s' st' _ Ho Hs'. rewrite state_of_set in Hs' by done.
      destruct (decide (s' = s)) as [-> | Hn].
      * assert (h' = h) as -> by (by eapply slot_unique). by injection Hs' as <-.
      * apply i_op0; auto. intros ->. destruct Hxh; [done|]. simplify_eq.
  - exfalso. destruct (live_state x depth c h s H Hop). congruence.
Qed.

Lemma set_leaked_inv x depth i st c :
  inv_but x depth c -> i ∈ leaked c -> inv_but x depth (set_state (Pooled i) st c).
Proof.
  intros H Hi. destruct (places_nodup _ _ _ H) as (_ & _ & Hd). destruct H. split; auto; simpl.
  - by rewrite length_insert.
  - intros h s st' Hx Ho Hs. apply (i_op0 h s st' Hx Ho). destruct s as [j|k]; [|done]. simpl in *.
    rewrite list_lookup_insert_ne in Hs; [done|]. intros ->. apply (Hd j); [|done]. apply elem_of_held. eauto.
Qed.

Lemma inv_but_dropped depth c h : inv_but (Some h) depth c -> ops c !! h = Some None -> inv depth c.
Proof.
  intros [] Ho. split; auto. intros h' s st _ Ho' Hs. apply i_op0; auto. intros [= ->]. congruence.
Qed.

Lemma fs_poll_inv depth h w c : inv depth c -> inv depth (poll h w c).
Proof.
  intros H. unfold poll. destruct (ops c !! h) as [[s|]|] eqn:Ho; try done.
  destruct (state_of s c) as [st|] eqn:Es; [|done].
  pose proof (i_op _ _ _ H h s st ltac:(done) Ho Es) as Hop. destruct (result st) as [r|] eqn:Er.
  - destruct H. split; auto. simpl. intros h' r' [[= -> ->] | ?]%elem_of_cons; [apply Hop|auto].
  - eapply set_state_inv; eauto.
Qed.

(** An entry is taken out, to be brought in line with its slot. *)
Lemma fs_inv_take depth s h c c' :
  inv depth c -> outstanding c ++ lost c ≡ₚ (s, h) :: (outstanding c' ++ lost c') ->
  slots c' = slots c -> heap c' = heap c -> free c' = free c -> ops c' = ops c -> leaked c' = leaked c ->
  (forall h r, (h, r) ∈ performed c -> (h, r) ∈ performed c') ->
  (forall s h r, (s, h, r) ∈ cq c' -> (h, r) ∈ performed c') ->
  returned c' = returned c -> inv_but (Some h) depth c' /\ (s, h) ∉ outstanding c' ++ lost c'.
Proof.
  intros [] Eo Es Eh Ef Ep El Hp Hc Er. split.
  - split; unfold held, state_of in *; rewrite ?Es, ?Eh, ?Ef, ?Ep, ?El, ?Er; auto.
    + rewrite Eo in i_nodup0. simpl in i_nodup0. by apply NoDup_cons in i_nodup0 as [_ ?].
    + intros s' h' Hin. apply i_known0. rewrite Eo. by right.
    + intros h' s' st Hx Ho Hs. specialize (i_op0 h' s' st ltac:(done) Ho Hs).
      destruct (result st); rewrite Eo in i_op0.
      * destruct i_op0 as [? Hn]. split; [auto|]. intros ?. apply Hn. by right.
      * apply elem_of_cons in i_op0 as [? | ?]; [|done]. simplify_eq.
  - rewrite Eo in i_nodup0. simpl in i_nodup0. apply NoDup_cons in i_nodup0 as [Hn _].
    intros Hin. apply Hn. apply list_elem_of_fmap. by exists (s, h).
Qed.

Lemma reap_inv depth c : inv depth c -> inv depth (reap c).
Proof.
  intros H. unfold reap. destruct (worker c) eqn:Ew; try done.
  destruct (cq c) as [|[[s h] r] rest] eqn:Eq; [apply (fs_inv_moves None depth c); auto; simpl; [unfold outstanding; by rewrite Eq|by intros ? ? ? ?%elem_of_nil]|].
  set (c1 := Conf _ _ _ _ _ _ _ _ _ _ _ _ _ _).
  assert (outstanding c ++ lost c ≡ₚ (s, h) :: (outstanding c1 ++ lost c1)) as Eo.
  { unfold outstanding, c1. cbn [FsRing.pending FsRing.in_ring FsRing.cq FsRing.lost]. rewrite Eq.
    change (((s, h, r) :: rest).*1) with ((s, h) :: rest.*1). solve_perm. }
  destruct (fs_inv_take depth s h c c1 H Eo) as [H1 Hno]; try done.
  { intros s' h' r' Hc. apply (i_cq _ _ _ H s' h' r'). rewrite Eq. by right. }
  assert ((h, r) ∈ performed c) as Hp by (eapply i_cq; [done|]; rewrite Eq; left).
  assert ((s, h) ∈ outstanding c ++ lost c) as Hin by (rewrite Eo; left).
  destruct (i_known _ _ _ H s h Hin) as [Ho | [Ho Hs]].
  - destruct (state_of s c) as [st|] eqn:Es.
    + apply (set_state_inv (Some h) depth s _ c1 h); simpl; auto.
    + destruct (live_state None depth c h s H Ho). congruence.
  - apply inv_but_dropped with h; [|by destruct (state_of s c)].
    destruct s as [i|k].
    + destruct (state_of (Pooled i) c); [by apply set_leaked_inv|done].
    + simpl. by rewrite Hs.
Qed.

(** Fields that a future's own number decides. *)
Lemma entries_bound x depth c s h : inv_but x depth c -> (s, h) ∈ outstanding c ++ lost c -> (h < length (ops c))%nat.
Proof.
  intros [] Hin. destruct (i_known0 s h Hin) as [Ho | [Ho _]]; by eapply lookup_lt_Some.
Qed.

Lemma bind_snoc (l : list (option Slot)) o : (l ++ [o]) ≫= pooled = (l ≫= pooled) ++ pooled o.
Proof. rewrite bind_app. simpl. by rewrite app_nil_r. Qed.

Lemma lookup_snoc_cases {A} (l : list A) x i y : (l ++ [x]) !! i = Some y -> l !! i = Some y \/ (i = length l /\ x = y).
Proof.
  intros [? | [? Hi]]%lookup_app_Some; [auto|]. apply list_lookup_singleton_Some in Hi. right. split; [lia|tauto].
Qed.

Lemma submit_inv depth c : inv depth c -> inv depth (submit c).
Proof.
  intros H. pose proof (entries_bound None depth c) as Hb. pose proof (places_nodup _ _ _ H) as (_ & Hfree & _).
  pose proof H as []. unfold submit, acquire_slot.
  assert (forall s, NoDup (((s, length (ops c)) :: outstanding c ++ lost c).*2)) as Hn.
  { intros s. simpl. apply NoDup_cons. split; [|done]. intros ([s' h'] & E & Hin)%list_elem_of_fmap. simpl in E.
    specialize (Hb s' h' H Hin). lia. }
  destruct (free c) as [|i rest] eqn:Ef.
  - split; simpl; auto.
    + unfold held. simpl. rewrite bind_snoc, app_nil_r. done.
    + apply (Hn (Heap 0)).
    + intros s h [[= -> ->] | Hin]%elem_of_cons.
      * left. rewrite lookup_app_r, Nat.sub_diag by done. done.
      * pose proof (Hb s h H Hin). rewrite lookup_app_l by done.
        destruct (i_known0 s h Hin) as [? | [? Hs]]; [auto|]. right. split; [done|].
        destruct s; [done|]. by apply lookup_app_l_Some.
    + intros h k [Ho | [-> [= <-]]]%lookup_snoc_cases.
      * destruct (i_heap0 h k Ho) as [st Hst]. exists st. by apply lookup_app_l_Some.
      * exists fresh. by rewrite lookup_app_r, Nat.sub_diag by done.
    + intros h1 h2 k [H1 | [-> E1]]%lookup_snoc_cases [H2 | [-> E2]]%lookup_snoc_cases; eauto.
      * injection E2 as <-. destruct (i_heap0 h1 _ H1) as [? Hl]. apply lookup_lt_Some in Hl. lia.
      * injection E1 as <-. destruct (i_heap0 h2 _ H2) as [? Hl]. apply lookup_lt_Some in Hl. lia.
    + intros h s st _ [Ho | [-> [= <-]]]%lookup_snoc_cases Hs.
      * assert (state_of s c = Some st) as Hs'.
        { destruct s as [|k]; [done|]. simpl in *. destruct (i_heap0 h k Ho) as [st' Hst].
          rewrite lookup_app_l in Hs by (by eapply lookup_lt_Some). done. }
        specialize (i_op0 h s st ltac:(done) Ho Hs'). destruct (result st).
        -- destruct i_op0 as [? Hni]. split; [done|]. intros [[= -> ->] | ?]%elem_of_cons; [|done].
           apply lookup_lt_Some in Ho. lia.
        -- by right.
      * simpl in Hs. rewrite lookup_app_r, Nat.sub_diag in Hs by done. simplify_eq/=. left.
  - set (st0 := match slots c !! i with Some st => Op None (waker st) | None => fresh end).
    assert (result st0 = None) as Hr0 by (unfold st0; by destruct (slots c !! i)).
    assert (i < length (slots c))%nat as Hi.
    { rewrite i_len0. assert (i ∈ seq 0 depth) as Hi by (rewrite <- i_places0; left). apply elem_of_seq in Hi. lia. }
    destruct (Hfree i ltac:(left)) as [Hnh Hnl].
    split; simpl; auto.
    + by rewrite length_insert.
    + unfold held in *. simpl. rewrite bind_snoc. rewrite <- i_places0. simpl. solve_perm.
    + apply (Hn (Heap 0)).
    + intros s h [[= -> ->] | Hin]%elem_of_cons.
      * left. by rewrite lookup_app_r, Nat.sub_diag by done.
      * pose proof (Hb s h H Hin). rewrite lookup_app_l by done. auto.
    + intros h k [Ho | [-> [=]]]%lookup_snoc_cases. eauto.
    + intros h1 h2 k [H1 | [-> [=]]]%lookup_snoc_cases [H2 | [-> [=]]]%lookup_snoc_cases; eauto.
    + intros h s st _ [Ho | [-> [= <-]]]%lookup_snoc_cases Hs.
      * assert (state_of s c = Some st) as Hs'.
        { destruct s as [j|k]; [|done]. simpl in *. rewrite list_lookup_insert_ne in Hs; [done|].
          intros ->. apply Hnh. apply elem_of_held. eauto. }
        specialize (i_op0 h s st ltac:(done) Ho Hs'). destruct (result st).
        -- destruct i_op0 as [? Hni]. split; [done|]. intros [[= -> ->] | ?]%elem_of_cons; [|done].
           apply lookup_lt_Some in Ho. lia.
        -- by right.
      * simpl in Hs. rewrite list_lookup_insert_eq in Hs by done. simplify_eq. rewrite Hr0. left.
Qed.

Lemma held_drop l h i : l !! h = Some (Some (Pooled i)) -> i :: (<[h := None]> l ≫= pooled) ≡ₚ l ≫= pooled.
Proof. intros Ho. by apply (bind_insert_perm pooled l h (Some (Pooled i)) None [i] []). Qed.

Lemma held_drop_heap l h k : l !! h = Some (Some (Heap k)) -> <[h := None]> l ≫= pooled ≡ₚ l ≫= pooled.
Proof. intros Ho. by apply (bind_insert_perm pooled l h (Some (Heap k)) None [] []). Qed.

Lemma still_there {A} (l : list (option A)) h h' s : <[h := None]> l !! h' = Some (Some s) -> h' <> h /\ l !! h' = Some (Some s).
Proof. intros [(_ & ? & _) | [? ?]]%list_lookup_insert_Some; [done|auto]. Qed.

Lemma drop_inv depth h c : inv depth c -> inv depth (drop_op h c).
Proof.
  intros H. unfold drop_op. destruct (ops c !! h) as [[[i|k]|]|] eqn:Ho; try done; pose proof H as [].
  - destruct (live_state None depth c h (Pooled i) H Ho) as [st Hst]. simpl in Hst. rewrite Hst.
    pose proof (i_op0 h (Pooled i) st ltac:(done) Ho Hst) as Hop.
    pose proof (lookup_lt_Some _ _ _ Ho) as Hlt.
    split; simpl; auto.
    + rewrite <- i_places0. unfold held. simpl. rewrite <- (held_drop _ _ _ Ho).
      case_bool_decide; solve_perm.
    + intros s h' Hin. destruct (decide (h' = h)) as [-> |].
      * right. rewrite list_lookup_insert_eq by done. split; [done|].
        destruct (i_known0 s h Hin) as [E | [E _]]; rewrite Ho in E; simplify_eq.
        destruct (result st); [by destruct Hop|]. rewrite bool_decide_false by (intros []; done). left.
      * rewrite list_lookup_insert_ne by done. destruct (i_known0 s h' Hin) as [? | [? Hs]]; [auto|].
        right. split; [done|]. destruct s; [|done]. case_bool_decide; [done|by right].
    + intros h' k [_ ?]%still_there. eauto.
    + intros h1 h2 k [_ ?]%still_there [_ ?]%still_there. eauto.
    + intros h' s st' _ [_ ?]%still_there Hs. by apply i_op0.
  - pose proof (lookup_lt_Some _ _ _ Ho) as Hlt. destruct (i_heap0 h k Ho) as [st Hst].
    pose proof (lookup_lt_Some _ _ _ Hst) as Hltk.
    split; simpl; auto.
    + unfold held. simpl. rewrite <- i_places0. unfold held. by rewrite (held_drop_heap _ _ _ Ho).
    + intros s h' Hin. destruct (decide (h' = h)) as [-> |].
      * right. rewrite list_lookup_insert_eq by done. split; [done|].
        destruct (i_known0 s h Hin) as [E | [E _]]; rewrite Ho in E; simplify_eq.
        by apply list_lookup_insert_eq.
      * rewrite list_lookup_insert_ne by done. destruct (i_known0 s h' Hin) as [? | [? Hs]]; [auto|].
        right. split; [done|]. destruct s as [|k']; [done|].
        destruct (decide (k = k')) as [-> |]; [by apply list_lookup_insert_eq|by rewrite list_lookup_insert_ne].
    + intros h' k' [Hne Ho']%still_there. destruct (i_heap0 h' k' Ho') as [st' Hst']. exists st'.
      rewrite list_lookup_insert_ne; [done|]. intros ->. apply Hne. by eapply i_heap_own0.
    + intros h1 h2 k' [_ ?]%still_there [_ ?]%still_there. eauto.
    + intros h' s st' _ [Hne Ho']%still_there Hs. apply i_op0; auto.
      destruct s as [|k']; [done|]. simpl in *. rewrite list_lookup_insert_ne in Hs; [done|].
      intros ->. apply Hne. by eapply i_heap_own0.
Qed.

Lemma fs_start_inv depth : inv depth (start depth).
Proof.
  split; unfold outstanding, held; simpl; try (by intros ? ? ?%elem_of_nil); try done.
  - apply length_replicate.
  - rewrite app_nil_r. apply reverse_Permutation.
  - apply NoDup_nil_2.
  - by intros s h r ?%elem_of_nil.
Qed.

Lemma run_inv depth es c : inv depth c -> inv depth (run es c).
Proof.
  revert c. induction es as [|e es IH]; intros c H; [done|]. apply IH.
  destruct e; simpl; auto using submit_inv, fs_poll_inv, drop_inv, drain_inv, wait_inv, reap_inv, complete_inv.
Qed.

(** ** Properties *)



(** What is in the ring at each point of the worker's loop. *)
Definition ring_ok (c : conf) : Prop :=
  match worker c with
  | WIdle => in_ring c = [] /\ cq c = []
  | WWaiting n => (length (in_ring c) + length (cq c) = Nat.min n RING)%nat
  | WReaping => in_ring c = []
  end.

Lemma ring_step e c : ring_ok c -> ring_ok (exec e c).
Proof.
  intros H. destruct e; simpl.
  - unfold submit, acquire_slot. destruct (free c); exact H.
  - unfold poll. destruct (ops c !! h) as [[s|]|]; try done. destruct (state_of s c) as [st|]; [|done].
    destruct (result st); [exact H|]. destruct s; exact H.
  - unfold drop_op. destruct (ops c !! h) as [[[i|k]|]|]; exact H.
  - unfold drain. destruct (worker c) eqn:Ew; try done. destruct (pending c) as [|e b] eqn:Ep; [done|].
    unfold ring_ok in *. rewrite Ew in H. destruct H as [Hr Hc].
    cbn [worker in_ring cq]. rewrite Hr, Hc. rewrite length_app, length_take. simpl length. lia.
  - unfold wait_returns. destruct (worker c) as [|n|] eqn:Ew; try done.
    destruct (Nat.leb_spec n (length (cq c))) as [Hn|]; [|done].
    unfold ring_ok in *. rewrite Ew in H. simpl. apply nil_length_inv. lia.
  - unfold reap. destruct (worker c) eqn:Ew; try done. unfold ring_ok in *. rewrite Ew in H.
    destruct (cq c) as [|[[s h] r] rest]; [done|]. destruct (state_of s c); [destruct s|]; done.
  - unfold complete. destruct (in_ring c !! i) as [[s h]|] eqn:E; [|done]. unfold ring_ok in *. simpl.
    pose proof (length_delete (in_ring c) i (mk_is_Some _ _ E)). apply lookup_lt_Some in E.
    destruct (worker c).
    + destruct H as [H _]. rewrite H in E. simpl in E. lia.
    + rewrite length_app. simpl. lia.
    + rewrite H in E. simpl in E. lia.
Qed.

Lemma ring_run es c : ring_ok c -> ring_ok (run es c).
Proof. revert c. induction es; intros c H; [done|]. simpl. by apply IHes, ring_step. Qed.

Lemma run_app es1 es2 c : run (es1 ++ es2) c = run es2 (run es1 c).
Proof. apply fold_left_app. Qed.

(** A worker that waits for more than the ring holds waits for ever. *)
Lemma overflow_stuck n es c :
  worker c = WWaiting n -> ring_ok c -> (RING < n)%nat -> worker (run es c) = WWaiting n.
Proof.
  revert c. induction es as [|e es IH]; intros c Hw Hr Hn; [done|]. simpl. apply IH; [|by apply ring_step|done].
  unfold ring_ok in Hr. rewrite Hw in Hr. destruct e; simpl.
  - unfold submit, acquire_slot. by destruct (free c).
  - unfold poll. destruct (ops c !! h) as [[s|]|]; try done. destruct (state_of s c) as [st|]; [|done].
    destruct (result st); [done|]. by destruct s.
  - unfold drop_op. by destruct (ops c !! h) as [[[i|k]|]|].
  - unfold drain. by rewrite Hw.
  - unfold wait_returns. rewrite Hw. destruct (Nat.leb_spec n (length (cq c))); [lia|done].
  - unfold reap. by rewrite Hw.
  - unfold complete. by destruct (in_ring c !! i) as [[s h]|].
Qed.

Lemma complete_all k c :
  length (in_ring c) = k ->
  let c' := run (replicate k (Complete 0 0)) c in
  in_ring c' = [] /\ length (cq c') = (k + length (cq c))%nat /\ worker c' = worker c.
Proof.
  revert c. induction k as [|k IH]; intros c Hk.
  - simpl. apply nil_length_inv in Hk. done.
  - change (run (replicate (S k) (Complete 0 0)) c) with (run (replicate k (Complete 0 0)) (complete 0 0 c)).
    destruct (in_ring c) as [|[s h] l] eqn:E; [done|].
    assert (in_ring (complete 0 0 c) = l /\ length (cq (complete 0 0 c)) = S (length (cq c)) /\
            worker (complete 0 0 c) = worker c) as (E1 & E2 & E3).
    { unfold complete. rewrite E. simpl. rewrite length_app. simpl. split; [done|]. split; [lia|done]. }
    destruct (IH (complete 0 0 c)) as (H1 & H2 & H3); [rewrite E1; simpl in Hk; lia|].
    split; [done|]. rewrite H2, H3, E2, E3. split; [lia|done].
Qed.

Lemma reap_all k c :
  worker c = WReaping -> length (cq c) = k -> worker (run (replicate (S k) Reap) c) = WIdle.
Proof.
  revert c. induction k as [|k IH]; intros c Hw Hk.
  - simpl. unfold reap. rewrite Hw. apply nil_length_inv in Hk. by rewrite Hk.
  - rewrite replicate_S. simpl run. change (fold_left (fun c e => exec e c) (replicate (S k) Reap) (reap c)) with
      (run (replicate (S k) Reap) (reap c)).
    apply IH; unfold reap; rewrite Hw; destruct (cq c) as [|[[s h] r] rest]; try done;
      simpl in Hk; destruct (state_of s c); [destruct s| |destruct s|]; simpl; try done; lia.
Qed.

(** The kernel completes all it has, [submit_and_wait] returns, the completions are reaped. *)
Definition finish (c : conf) : list event :=
  replicate (length (in_ring c)) (Complete 0 0) ++ [WaitReturns] ++
  replicate (S (length (in_ring c) + length (cq c))) Reap.

(** The worker gets through a batch that fits in the ring: once the kernel has completed what it was given, the worker
    stores every result and is back at the top of its loop.  With a batch of more than 256 entries it ignores that
    the rest did not fit, waits for as many completions as the batch has entries, and never
    returns, whatever happens; every later operation waits with it. *)
Theorem fs_worker_returns depth es :
  let c := run es (start depth) in
  match worker c with
  | WWaiting n =>
      if (n <=? RING)%nat then worker (run (finish c) c) = WIdle
      else forall es', worker (run es' c) = WWaiting n
  | WReaping => worker (run (finish c) c) = WIdle
  | WIdle => (RING < length (pending c))%nat -> forall es', worker (run (Drain :: es') c) = WWaiting (length (pending c))
  end.
Proof.
  intros c. assert (ring_ok c) as Hr by (by apply ring_run).
  pose proof (complete_all _ c eq_refl) as Hc. unfold finish.
  destruct (worker c) as [|n|] eqn:Ew.
  - intros Hp es'. change (run (Drain :: es') c) with (run es' (drain c)).
    apply overflow_stuck; [|by apply (ring_step Drain)|done].
    unfold drain. rewrite Ew. destruct (pending c); [simpl in Hp; lia|done].
  - unfold ring_ok in Hr. rewrite Ew in Hr. destruct (Nat.leb_spec n RING) as [Hn|Hn].
    + rewrite !run_app. set (c1 := run _ c) in *. destruct Hc as (H1 & H2 & H3).
      apply reap_all; cbn [run fold_left exec]; unfold wait_returns; rewrite H3;
        destruct (Nat.leb_spec n (length (cq c1))); simpl; try done; lia.
    + intros es'. apply overflow_stuck; [done|by unfold ring_ok; rewrite Ew|done].
  - rewrite !run_app. set (c1 := run _ c) in *. destruct Hc as (H1 & H2 & H3).
    apply reap_all; cbn [run fold_left exec]; unfold wait_returns; rewrite H3; try done; lia.
Qed.

Lemma submits k c :
  worker (run (replicate k Submit) c) = worker c /\
  length (pending (run (replicate k Submit) c)) = (k + length (pending c))%nat.
Proof.
  revert c. induction k as [|k IH]; intros c; [done|].
  change (run (replicate (S k) Submit) c) with (run (replicate k Submit) (submit c)).
  destruct (IH (submit c)) as [-> ->]. unfold submit, acquire_slot. destruct (free c); simpl; split; lia || done.
Qed.

Lemma fs_worker_returns_witness :
  let c := run (replicate 257 Submit) (start 1) in
  worker (run [Drain; Complete 0 0; WaitReturns; Reap] c) = WWaiting 257.
Proof.
  intros c. destruct (submits 257 (start 1)) as [Hw Hp]. fold c in Hw, Hp.
  pose proof (fs_worker_returns 1 (replicate 257 Submit)) as H. cbv zeta in H. fold c in H.
  rewrite Hw, Hp in H. apply H. unfold RING. simpl. lia.
Defined.

(** An operation on a heap slot, which is what is used when the pool is exhausted, that is dropped in
    flight: its completion is written into freed memory. *)
Theorem fs_dropped_heap_op_writes_freed_memory :
  let c := run [Submit; Submit; Drain; DropOp 1; Complete 0 0; Complete 0 0; WaitReturns; Reap; Reap] (start 1) in
  ops c = [Some (Pooled 0); None] /\ wild c = true.
Proof. split; reflexivity. Qed.

End FsRing.
