(* ===== verification/FsPort.v ===== *)
(** * FsPort

    The completion port under the file backend of Windows, src/dtact-util/src/fs/iocp_windows.rs.  Its pool of operation slots with
    the heap fallback, its futures and its worker's treatment of one completion are those of uring_linux.rs, and the
    definitions of FsRing.v serve for both; an operation is handed to the system at once, though, and the worker
    never does anything but take packets.  What [DtactFile] makes of the results is in Files.v.

    The state is that of the ring: [in_ring] are the operations Windows has, [cq] the packets of the port. *)

From S2P Require Import Prelude FsRing.
Import FsRing.
Open Scope Z_scope.

Module FsPort.

Definition encode_ok (n : Z) : Z := n.
Definition encode_err (win32_code : Z) : Z := - win32_code.

Definition ERROR_IO_PENDING : Z := 997.
Definition ERROR_HANDLE_EOF : Z := 38.

(** What [ReadFile] or [WriteFile] answers: it has started, or the last error. *)
Inductive started := Succeeded | LastError (err : Z).

(** The result that is stored at once, if any. *)
Definition at_once (reading : bool) (a : started) : option Z :=
  match a with
  | Succeeded => None
  | LastError err =>
      if err =? ERROR_IO_PENDING then None
      else Some (if reading && (err =? ERROR_HANDLE_EOF) then encode_ok 0 else encode_err err)
  end.

(** The new operation [IoOp], number [length (ops c)], in slot [s]; [k]: it is under way. *)
Definition new_op (s : Slot) (k : list (Slot * nat)) (c : conf) : conf :=
  Conf (slots c) (heap c) (free c) (pending c) (k ++ in_ring c) (cq c) (worker c) (ops c ++ [Some s]) (leaked c) (lost c)
    (performed c) (returned c) (woken c) (wild c).
Definition record (h : nat) (r : Z) (c : conf) : conf :=
  Conf (slots c) (heap c) (free c) (pending c) (in_ring c) (cq c) (worker c) (ops c) (leaked c) (lost c)
    ((h, r) :: performed c) (returned c) (woken c) (wild c).
(** [op.state().result.store] *)
Definition store_result (s : Slot) (r : Z) (c : conf) : conf := set_state s (Op (Some r) (state_of s c ≫= waker)) c.

(** [issue_read] and [issue_write] *)
Definition issue (reading : bool) (a : started) (c : conf) : conf :=
  let '(s, c1) := acquire_slot c in
  let h := length (ops c1) in
  match at_once reading a with
  | None => new_op s [(s, h)] c1
  | Some r => store_result s r (record h r (new_op s [] c1))
  end.

(** One packet of [worker_loop]: the number of bytes is the result, whatever the status. *)
Definition packet (c : conf) : conf := match cq c with [] => c | _ => reap c end.

(** Windows finishes the [i]-th operation it has, with [bytes] transferred. *)
Definition finish (i : nat) (bytes : Z) (c : conf) : conf := complete i (encode_ok bytes) c.

Inductive event := Issue (reading : bool) (a : started) | Poll (h w : nat) | DropOp (h : nat) | Finish (i : nat) (bytes : Z) | Packet.

Definition exec (e : event) (c : conf) : conf :=
  match e with
  | Issue reading a => issue reading a c
  | Poll h w => poll h w c
  | DropOp h => drop_op h c
  | Finish i bytes => finish i bytes c
  | Packet => packet c
  end.
Definition run (es : list event) (c : conf) : conf := fold_left (fun c e => exec e c) es c.

(** [init_fs] with [ring_depth]; the worker waits for packets from then on. *)
Definition start (ring_depth : nat) : conf :=
  let c := FsRing.start (Nat.max ring_depth 1) in
  Conf (slots c) (heap c) (free c) (pending c) (in_ring c) (cq c) WReaping (ops c) (leaked c) (lost c)
    (performed c) (returned c) (woken c) (wild c).

(** ** Invariant *)

(** An operation that is issued is one that is submitted, and taken from the queue at once. *)
Lemma issue_inv depth reading a c : inv depth c -> inv depth (issue reading a c).
Proof.
  intros H. pose proof (submit_inv depth c H) as Hs. unfold issue. unfold submit in Hs.
  destruct (acquire_slot c) as [s c1] eqn:Ea. set (c2 := Conf _ _ _ _ _ _ _ _ _ _ _ _ _ _) in Hs.
  destruct (at_once reading a) as [r|].
  - set (c3 := record (length (ops c1)) r (new_op s [] c1)).
    destruct (fs_inv_take depth s (length (ops c1)) c2 c3 Hs) as [H3 Hn]; try done.
    { intros h' r' ?. by right. }
    { intros s' h' r' Hc. right. by apply (i_cq _ _ _ Hs s'). }
    apply (set_state_inv (Some (length (ops c1))) depth s _ c3 (length (ops c1))); auto.
    + simpl. by rewrite lookup_app_r, Nat.sub_diag.
    + simpl. split; [left|done].
  - apply (fs_inv_moves None depth c2); auto; try done.
    + unfold outstanding, c2. cbn [FsRing.pending FsRing.in_ring FsRing.cq FsRing.lost new_op]. solve_perm.
    + intros s' h' r' Hc. by apply (i_cq _ _ _ Hs s').
Qed.

Lemma packet_inv depth c : inv depth c -> inv depth (packet c).
Proof. intros H. unfold packet. destruct (cq c); [done|]. by apply reap_inv. Qed.

Lemma port_run_inv depth es c : inv depth c -> inv depth (run es c).
Proof.
  revert c. induction es as [|e es IH]; intros c H; [done|]. apply IH.
  destruct e; simpl; auto using issue_inv, fs_poll_inv, drop_inv, complete_inv, packet_inv.
Qed.

Lemma port_start_inv depth : inv (Nat.max depth 1) (start depth).
Proof.
  pose proof (fs_start_inv (Nat.max depth 1)) as H. apply (fs_inv_moves None _ (FsRing.start (Nat.max depth 1))); auto.
  by destruct H.
Qed.

(** ** Properties *)

(** Whatever is issued, polled, dropped and finished in whatever order, every pooled slot is in one place: free, in the hands of
    one future, or left to leak because its future was dropped in flight.  A future returns what Windows made of its
    own call; as long as it has no result its operation is under way. *)
Lemma port_slots_and_results depth es :
  let c := run es (start depth) in
  free c ++ held c ++ leaked c ≡ₚ seq 0 (Nat.max depth 1) /\
  (forall h r, (h, r) ∈ returned c -> (h, r) ∈ performed c) /\
  (forall h s st, ops c !! h = Some (Some s) -> state_of s c = Some st -> result st = None -> (s, h) ∈ outstanding c ++ lost c).
Proof.
  intros c. assert (inv (Nat.max depth 1) c) as [] by (apply port_run_inv, port_start_inv).
  split; [done|]. split; [done|]. intros h s st Ho Hs Hr. specialize (i_op0 h s st ltac:(done) Ho Hs). by rewrite Hr in i_op0.
Qed.

(** Nothing is lost: there is no queue that could be full. *)
Lemma port_loses_nothing es c : lost (run es c) = lost c.
Proof.
  revert c. induction es as [|e es IH]; intros c; [done|]. simpl. rewrite IH.
  destruct e; simpl; unfold issue, acquire_slot, poll, drop_op, finish, complete, packet, reap, store_result, set_state;
    repeat (case_match; simpl; try done); simplify_eq; done.
Qed.

(** Refused at once, the error is reported; the same error after the call has been accepted is a success of no bytes. *)
Lemma port_late_error_is_success :
  returned (run [Issue false (LastError 112); Poll 0 7] (start 4)) = [(0%nat, -112)] /\
  returned (run [Issue false (LastError 997); Finish 0 0; Packet; Poll 0 7] (start 4)) = [(0%nat, 0)].
Proof. split; reflexivity. Qed.

(** A future on a heap slot that is dropped in flight: Windows writes its completion into freed memory. *)
Lemma port_dropped_heap_op_writes_freed_memory :
  wild (run [Issue true Succeeded; Issue true Succeeded; DropOp 1; Finish 0 5; Finish 0 5; Packet; Packet] (start 1)) = true.
Proof. reflexivity. Qed.

End FsPort.
