(* ===== verification/Files.v ===== *)
(** * Files

    The file handles of fs/uring_linux.rs and fs/iocp_windows.rs: a descriptor and a cursor, over positional reads and writes.
    On Linux these are [pread] and [pwrite], and an operation of the ring (FsRing.v) when they would block; on Windows
    overlapped calls (FsPort.v).  The class [Positional] is what the cursor needs of either, [PositionalLaws] what
    a file that is a sequence of bytes promises.

    The kernel's calls and the operations of ring and port, awaited, are parameters.  A buffer that is read into is what has been
    read; the code hands the buffer back with the number of these bytes. *)

From S2P Require Import Prelude.
Open Scope Z_scope.

Module Files.

(** [DtactFile]; [cursor] is an [AtomicI64]. *)
Record file := File { fd : Z; cursor : Z }.

(** An [io::Error]: an error number, or one the code makes itself. *)
Inductive error := Os (code : Z) | InvalidInput.

(** ** The cursor *)

Class Positional (S : Type) := {
  pos_read : Z -> Z -> Z -> S -> outcome (result (list Z) Z * S);
  pos_write : Z -> list Z -> Z -> S -> outcome (result Z Z * S)
}.

(** [cursor.fetch_add(n)] *)
Definition advance (n : Z) (f : file) : file := File (fd f) (cast_signed (wrap 64 (cursor f + n))).

Section cursor.
Context {S : Type} `{!Positional S}.

(** [DtactFile::read] up to the load of the cursor, and from the result on. *)
Definition read_start (f : file) (len : Z) (s : S) : outcome (result (list Z) Z * S) :=
  pos_read (fd f) len (wrap 64 (cursor f)) s.
Definition read_end {A} (count : A -> Z) (r : result A Z) (f : file) : file :=
  match r with Ok a => advance (count a) f | Err _ => f end.

Definition read (f : file) (len : Z) (s : S) : outcome (result (list Z) Z * file * S) :=
  '(r, s1) ← read_start f len s; Done (r, read_end (fun l => Z.of_nat (length l)) r f, s1).
Definition write (f : file) (buf : list Z) (s : S) : outcome (result Z Z * file * S) :=
  '(r, s1) ← pos_write (fd f) buf (wrap 64 (cursor f)) s; Done (r, read_end id r f, s1).
Definition read_at (f : file) (len offset : Z) (s : S) : outcome (result (list Z) Z * S) := pos_read (fd f) len offset s.
Definition write_at (f : file) (buf : list Z) (offset : Z) (s : S) : outcome (result Z Z * S) := pos_write (fd f) buf offset s.

Inductive call := Read (len : Z) | Write (buf : list Z) | ReadAt (len offset : Z) | WriteAt (buf : list Z) (offset : Z).
Inductive answer := Bytes (r : result (list Z) Z) | Count (r : result Z Z).

Definition exec (c : call) (f : file) (s : S) : outcome (answer * file * S) :=
  match c with
  | Read len => '(r, f1, s1) ← read f len s; Done (Bytes r, f1, s1)
  | Write buf => '(r, f1, s1) ← write f buf s; Done (Count r, f1, s1)
  | ReadAt len off => '(r, s1) ← read_at f len off s; Done (Bytes r, f, s1)
  | WriteAt buf off => '(r, s1) ← write_at f buf off s; Done (Count r, f, s1)
  end.

Fixpoint run (cs : list call) (f : file) (s : S) : outcome (list answer * file * S) :=
  match cs with
  | [] => Done ([], f, s)
  | c :: cs' => '(a, f1, s1) ← exec c f s; '(l, f2, s2) ← run cs' f1 s1; Done (a :: l, f2, s2)
  end.
End cursor.

(** ** Linux *)

Record Kernel (S : Type) := {
  k_pread : Z -> Z -> Z -> S -> result (list Z) Z * S;           (* descriptor, length, offset *)
  k_pwrite : Z -> list Z -> Z -> S -> result Z Z * S;
  k_open : list Z -> S -> result Z Z * S;                        (* [std::fs::OpenOptions::open] *)
  k_close : Z -> S -> S
}.
Arguments k_pread {S}. Arguments k_pwrite {S}. Arguments k_open {S}. Arguments k_close {S}.

(** [submit(entry).await] *)
Record Ring (S : Type) := {
  r_read : Z -> Z -> Z -> S -> result (list Z) Z * S;
  r_write : Z -> list Z -> Z -> S -> result Z Z * S;
  r_openat : list Z -> Z -> Z -> S -> result Z Z * S;            (* path, flags, mode *)
  r_fsync : Z -> S -> result Z Z * S;
  r_close : Z -> S -> result Z Z * S
}.
Arguments r_read {S}. Arguments r_write {S}. Arguments r_openat {S}. Arguments r_fsync {S}. Arguments r_close {S}.

Definition EINTR : Z := 4.
Definition EAGAIN : Z := 11.
Definition O_RDONLY : Z := 0.
Definition O_RDWR_CREAT_TRUNC : Z := 0x242.

Section linux.
Context {S : Type} (K : Kernel S) (R : Ring S).

(** [try_pread] and [try_pwrite]: a call that is interrupted is repeated. *)
Fixpoint direct {A} (fuel : nat) (call : S -> result A Z * S) (s : S) : outcome (option (result A Z) * S) :=
  match fuel with
  | O => OutOfFuel
  | Datatypes.S fuel' =>
      let '(r, s1) := call s in
      match r with
      | Ok a => Done (Some (Ok a), s1)
      | Err e => if e =? EINTR then direct fuel' call s1 else if e =? EAGAIN then Done (None, s1) else Done (Some (Err e), s1)
      end
  end.
Definition try_pread (fuel : nat) (fd len offset : Z) : S -> outcome (option (result (list Z) Z) * S) :=
  direct fuel (k_pread K fd len (cast_signed offset)).
Definition try_pwrite (fuel : nat) (fd : Z) (buf : list Z) (offset : Z) : S -> outcome (option (result Z Z) * S) :=
  direct fuel (k_pwrite K fd buf (cast_signed offset)).

(** The length of an entry is a [u32]. *)
Definition uring_read (fuel : nat) (fd len offset : Z) (s : S) : outcome (result (list Z) Z * S) :=
  '(o, s1) ← try_pread fuel fd len offset s;
  Done (match o with Some r => (r, s1) | None => r_read R fd (wrap 32 len) offset s1 end).
Definition uring_write (fuel : nat) (fd : Z) (buf : list Z) (offset : Z) (s : S) : outcome (result Z Z * S) :=
  '(o, s1) ← try_pwrite fuel fd buf offset s;
  Done (match o with
        | Some r => (r, s1)
        | None => r_write R fd (take (Z.to_nat (wrap 32 (Z.of_nat (length buf)))) buf) offset s1
        end).

(** [signals] bounds the interruptions to come. *)
Definition uring_positional (signals : S -> nat) : Positional S := {|
  pos_read := fun fd len offset s => uring_read (Datatypes.S (signals s)) fd len offset s;
  pos_write := fun fd buf offset s => uring_write (Datatypes.S (signals s)) fd buf offset s
|}.

(** [path_cstring] *)
Definition path_cstring (path : list Z) : result (list Z) error :=
  if existsb (Z.eqb 0) path then Err InvalidInput else Ok (path ++ [0]).

Definition uring_open_impl (path : list Z) (flags mode : Z) (s : S) : result file error * S :=
  match path_cstring path with
  | Err e => (Err e, s)
  | Ok cpath =>
      let '(r, s1) := r_openat R cpath flags mode s in
      (match r with Ok fd => Ok (File fd 0) | Err e => Err (Os e) end, s1)
  end.
Definition uring_open (path : list Z) := uring_open_impl path O_RDONLY 0.
Definition uring_create (path : list Z) := uring_open_impl path O_RDWR_CREAT_TRUNC 0x1A4.
Definition uring_open_with (path : list Z) (s : S) : result file error * S :=
  let '(r, s1) := k_open K path s in (match r with Ok fd => Ok (File fd 0) | Err e => Err (Os e) end, s1).

Definition uring_sync_all (f : file) (s : S) : result unit Z * S :=
  let '(r, s1) := r_fsync R (fd f) s in (match r with Ok _ => Ok tt | Err e => Err e end, s1).

(** [Drop for DtactFile] *)
Definition uring_drop (f : file) (s : S) : S := k_close K (fd f) s.
(** [close]: the file is forgotten after the ring's Close, and dropped if that fails. *)
Definition uring_close (f : file) (s : S) : result unit Z * S :=
  let '(r, s1) := r_close R (fd f) s in
  match r with Ok _ => (Ok tt, s1) | Err e => (Err e, uring_drop f s1) end.
End linux.

(** ** Windows *)

(** A call of [ReadFile] or [WriteFile]: refused at once, or completed by a packet with a status. *)
Inductive overlapped (A : Type) := Refused (err : Z) | Finished (status : Z) (a : A).
Arguments Refused {A}. Arguments Finished {A}.

Record Port (S : Type) := {
  p_read : Z -> Z -> Z * Z -> S -> overlapped (list Z) * S;      (* handle, length, [Offset] and [OffsetHigh] *)
  p_write : Z -> list Z -> Z * Z -> S -> overlapped Z * S;
  p_create : list Z -> Z -> Z -> S -> result Z Z * S;            (* [CreateFileW]: disposition and access *)
  p_open : list Z -> S -> result Z Z * S;                        (* [std::fs::OpenOptions::open] *)
  p_associate : Z -> S -> result unit Z * S;                     (* [CreateIoCompletionPort] *)
  p_flush : Z -> S -> result unit Z * S;
  p_size : Z -> S -> result Z Z * S;
  p_close : Z -> S -> S
}.
Arguments p_read {S}. Arguments p_write {S}. Arguments p_create {S}. Arguments p_open {S}. Arguments p_associate {S}.
Arguments p_flush {S}. Arguments p_size {S}. Arguments p_close {S}.

Definition ERROR_HANDLE_EOF : Z := 38.
Definition CREATE_ALWAYS : Z := 2.
Definition OPEN_EXISTING : Z := 3.
Definition GENERIC_READ : Z := 2 ^ 31.
Definition GENERIC_WRITE : Z := 2 ^ 30.

Section windows.
Context {S : Type} (P : Port S).

Definition offsets (offset : Z) : Z * Z := (wrap 32 offset, wrap 32 (Z.shiftr offset 32)).

(** [issue_read(..).await]: the worker stores the number of bytes of the packet and does not look at its status. *)
Definition issue_read (fd len offset : Z) (s : S) : result (list Z) Z * S :=
  let '(r, s1) := p_read P fd (wrap 32 len) (offsets offset) s in
  (match r with
   | Refused err => if err =? ERROR_HANDLE_EOF then Ok [] else Err err
   | Finished _ l => Ok l
   end, s1).
Definition issue_write (fd : Z) (buf : list Z) (offset : Z) (s : S) : result Z Z * S :=
  let '(r, s1) := p_write P fd (take (Z.to_nat (wrap 32 (Z.of_nat (length buf)))) buf) (offsets offset) s in
  (match r with Refused err => Err err | Finished _ n => Ok n end, s1).

Definition iocp_positional : Positional S := {|
  pos_read := fun fd len offset s => Done (issue_read fd len offset s);
  pos_write := fun fd buf offset s => Done (issue_write fd buf offset s)
|}.

(** The association of a fresh handle; one that fails closes it. *)
Definition associate (h : Z) (s : S) : result file Z * S :=
  let '(r, s1) := p_associate P h s in
  match r with Ok _ => (Ok (File h 0), s1) | Err e => (Err e, p_close P h s1) end.
Definition iocp_open_impl (path : list Z) (disposition access : Z) (s : S) : result file Z * S :=
  let '(r, s1) := p_create P path disposition access s in
  match r with Ok h => associate h s1 | Err e => (Err e, s1) end.
Definition iocp_open (path : list Z) := iocp_open_impl path OPEN_EXISTING GENERIC_READ.
Definition iocp_create (path : list Z) := iocp_open_impl path CREATE_ALWAYS (Z.lor GENERIC_READ GENERIC_WRITE).
Definition iocp_open_with (path : list Z) (s : S) : result file Z * S :=
  let '(r, s1) := p_open P path s in
  match r with Ok h => associate h s1 | Err e => (Err e, s1) end.

Definition iocp_sync_all (f : file) (s : S) : result unit Z * S := p_flush P (fd f) s.
Definition iocp_len (f : file) (s : S) : result Z Z * S :=
  let '(r, s1) := p_size P (fd f) s in (match r with Ok n => Ok (wrap 64 n) | Err e => Err e end, s1).
Definition iocp_is_empty (f : file) (s : S) : result bool Z * S :=
  let '(r, s1) := iocp_len f s in (match r with Ok n => Ok (n =? 0) | Err e => Err e end, s1).
Definition iocp_drop (f : file) (s : S) : S := p_close P (fd f) s.
Definition iocp_close (f : file) (s : S) : result unit Z * S := (Ok tt, iocp_drop f s).
End windows.

(** ** A file is a sequence of bytes with a position *)

Record afile := AFile { data : list Z; pos : nat }.

(** What a read of [len] bytes at [off] may return: at least one byte unless the file ends there. *)
Definition reads (len : Z) (off : nat) (d l : list Z) : Prop :=
  Z.of_nat (length l) <= len /\ l = take (length l) (drop off d) /\ (l = [] -> len = 0 \/ (length d <= off)%nat).
(** Bytes written at [off]; a gap before them is zeros. *)
Definition patch (off : nat) (w d : list Z) : list Z :=
  match w with [] => d | _ => take off d ++ replicate (off - length d) 0 ++ w ++ drop (off + length w) d end.

Inductive allowed : afile -> call -> answer -> afile -> Prop :=
| A_read d p len l : reads len p d l -> allowed (AFile d p) (Read len) (Bytes (Ok l)) (AFile d (p + length l))
| A_write d p buf n : (n <= length buf)%nat ->
    allowed (AFile d p) (Write buf) (Count (Ok (Z.of_nat n))) (AFile (patch p (take n buf) d) (p + n))
| A_read_at d p len off l : reads len (Z.to_nat off) d l -> allowed (AFile d p) (ReadAt len off) (Bytes (Ok l)) (AFile d p)
| A_write_at d p buf off n : (n <= length buf)%nat ->
    allowed (AFile d p) (WriteAt buf off) (Count (Ok (Z.of_nat n))) (AFile (patch (Z.to_nat off) (take n buf) d) p)
| A_read_err a c e : match c with Read _ | ReadAt _ _ => True | _ => False end -> allowed a c (Bytes (Err e)) a
| A_write_err a c e : match c with Write _ | WriteAt _ _ => True | _ => False end -> allowed a c (Count (Err e)) a.

Inductive history : afile -> list call -> list answer -> afile -> Prop :=
| H_nil a : history a [] [] a
| H_cons a1 c x a2 cs xs a3 : allowed a1 c x a2 -> history a2 cs xs a3 -> history a1 (c :: cs) (x :: xs) a3.

(** A call within the sizes the systems know. *)
Definition valid (c : call) : Prop :=
  match c with
  | Read len => 0 <= len < 2 ^ 32
  | Write buf => Z.of_nat (length buf) < 2 ^ 32
  | ReadAt len off => 0 <= len < 2 ^ 32 /\ 0 <= off < 2 ^ 63
  | WriteAt buf off => Z.of_nat (length buf) < 2 ^ 32 /\ 0 <= off < 2 ^ 63
  end.

(** What positional calls on handle [h] promise; [content] is the file behind it. *)
Class PositionalLaws (S : Type) `{!Positional S} (content : S -> list Z) (h : Z) : Prop := {
  pl_size s : Z.of_nat (length (content s)) < 2 ^ 63;
  pl_read len off s : 0 <= len < 2 ^ 32 -> 0 <= off < 2 ^ 63 ->
    exists r s', pos_read h len off s = Done (r, s') /\ content s' = content s /\
      (forall l, r = Ok l -> reads len (Z.to_nat off) (content s) l);
  pl_write buf off s : Z.of_nat (length buf) < 2 ^ 32 -> 0 <= off < 2 ^ 63 ->
    exists r s', pos_write h buf off s = Done (r, s') /\
      match r with
      | Ok n => 0 <= n <= Z.of_nat (length buf) /\ content s' = patch (Z.to_nat off) (take (Z.to_nat n) buf) (content s)
      | Err _ => content s' = content s
      end
}.

Lemma signed_small x : 0 <= x < 2 ^ 63 -> cast_signed (wrap 64 x) = x.
Proof. intros. rewrite wrap_small by lia. unfold cast_signed. by rewrite (proj2 (Z.ltb_lt x _)) by lia. Qed.

Lemma reads_end len off d l : reads len off d l -> (off + length l <= length d)%nat \/ l = [].
Proof.
  intros (_ & E & _). destruct l as [|b l]; [by right|]. left. assert (length (b :: l) <= length (drop off d))%nat as H.
  { rewrite E at 1. rewrite length_take. lia. }
  rewrite length_drop in H. simpl in *. lia.
Qed.

Lemma patch_end off w d : (off + length w <= length (patch off w d))%nat \/ w = [].
Proof.
  destruct w as [|b w]; [by right|]. left. unfold patch. rewrite !length_app, length_take, length_replicate, length_drop. lia.
Qed.

Section refinement.
Context {S : Type} `{HL : PositionalLaws S content h}.

Definition view (f : file) (s : S) : afile := AFile (content s) (Z.to_nat (cursor f)).
Definition in_range (f : file) : Prop := fd f = h /\ 0 <= cursor f < 2 ^ 63.

Lemma advance_by n f m : in_range f -> 0 <= n -> (Z.to_nat (cursor f) + Z.to_nat n <= m)%nat \/ n = 0 -> Z.of_nat m < 2 ^ 63 ->
  in_range (advance n f) /\ Z.to_nat (cursor (advance n f)) = (Z.to_nat (cursor f) + Z.to_nat n)%nat.
Proof.
  intros [Hh Hc] Hn Hm Hs. unfold advance, in_range. simpl. rewrite signed_small; [|destruct Hm; lia].
  split; [split; [done|destruct Hm; lia]|]. lia.
Qed.

Lemma exec_allowed c f s : valid c -> in_range f ->
  exists x f' s', exec c f s = Done (x, f', s') /\ in_range f' /\ allowed (view f s) c x (view f' s').
Proof.
  intros Hv Hf. pose proof Hf as [Hh Hc]. destruct c as [len|buf|len off|buf off]; simpl in Hv.
  - destruct (pl_read len (cursor f) s Hv Hc) as (r & s' & E & Hs & Hr). simpl. unfold read, read_start.
    rewrite Hh, wrap_small, E by lia. simpl. do 3 eexists. split; [done|]. unfold view. rewrite Hs. destruct r as [l|e]; cbn [read_end].
    + specialize (Hr l eq_refl). pose proof (reads_end _ _ _ _ Hr) as He.
      destruct (advance_by (Z.of_nat (length l)) f (length (content s)) Hf) as [H1 ->]; [lia| |apply pl_size|].
      { destruct He as [? | ->]; [left; lia|by right]. }
      split; [done|]. rewrite Nat2Z.id. by constructor.
    + split; [done|]. by constructor.
  - destruct (pl_write buf (cursor f) s Hv Hc) as (r & s' & E & Hr). simpl. unfold write.
    rewrite Hh, wrap_small, E by lia. simpl. do 3 eexists. split; [done|]. unfold view. destruct r as [n|e]; cbn [read_end].
    + destruct Hr as [Hn Hs]. set (w := take (Z.to_nat n) buf) in *.
      assert (length w = Z.to_nat n) as Hw by (unfold w; rewrite length_take; lia).
      pose proof (patch_end (Z.to_nat (cursor f)) w (content s)) as He. rewrite <- Hs, Hw in He.
      destruct (advance_by n f (length (content s')) Hf) as [H1 H2]; [lia| |apply pl_size|].
      { destruct He as [? | E0]; [by left|]. right. rewrite E0 in Hw. simpl in Hw. lia. }
      split; [done|]. unfold id. rewrite H2, Hs. rewrite <- (Z2Nat.id n) at 1 by lia. constructor. lia.
    + rewrite Hr. split; [done|]. by constructor.
  - destruct Hv as [Hl Ho]. destruct (pl_read len off s Hl Ho) as (r & s' & E & Hs & Hr). simpl. unfold read_at.
    rewrite Hh, E. simpl. do 3 eexists. split; [done|]. split; [done|]. unfold view. rewrite Hs.
    destruct r as [l|e]; constructor; auto.
  - destruct Hv as [Hl Ho]. destruct (pl_write buf off s Hl Ho) as (r & s' & E & Hr). simpl. unfold write_at.
    rewrite Hh, E. simpl. do 3 eexists. split; [done|]. split; [done|]. unfold view.
    destruct r as [n|e]; [destruct Hr as [Hn ->]|rewrite Hr; by constructor].
    rewrite <- (Z2Nat.id n) at 1 by lia. constructor. lia.
Qed.
End refinement.

(** ** The two systems keep the promise *)

(** Documented behaviour of the calls on [h], for offsets a file can have; a call that is interrupted uses up a signal. *)
Definition read_law {S} (content : S -> list Z) (len off : Z) (s s' : S) (r : result (list Z) Z) : Prop :=
  content s' = content s /\ forall l, r = Ok l -> reads len (Z.to_nat off) (content s) l.
Definition write_law {S} (content : S -> list Z) (buf : list Z) (off : Z) (s s' : S) (r : result Z Z) : Prop :=
  match r with
  | Ok n => 0 <= n <= Z.of_nat (length buf) /\ content s' = patch (Z.to_nat off) (take (Z.to_nat n) buf) (content s)
  | Err _ => content s' = content s
  end.
Definition interrupted {S A} (signals : S -> nat) (s s' : S) (r : result A Z) : Prop :=
  r = Err EINTR -> (signals s' < signals s)%nat.

Class LinuxLaws {S} (K : Kernel S) (R : Ring S) (signals : S -> nat) (content : S -> list Z) (h : Z) : Prop := {
  ll_size s : Z.of_nat (length (content s)) < 2 ^ 63;
  ll_pread len off s : 0 <= len -> 0 <= off < 2 ^ 63 -> let '(r, s') := k_pread K h len off s in
    read_law content len off s s' r /\ interrupted signals s s' r;
  ll_pwrite buf off s : 0 <= off < 2 ^ 63 -> let '(r, s') := k_pwrite K h buf off s in
    write_law content buf off s s' r /\ interrupted signals s s' r;
  ll_read len off s : 0 <= len -> 0 <= off < 2 ^ 63 -> let '(r, s') := r_read R h len off s in read_law content len off s s' r;
  ll_write buf off s : 0 <= off < 2 ^ 63 -> let '(r, s') := r_write R h buf off s in write_law content buf off s s' r
}.

(** The offset is put together again from its halves; what has been accepted does not fail later. *)
Definition joined (o : Z * Z) : Z := o.1 + 2 ^ 32 * o.2.
Class WindowsLaws {S} (P : Port S) (content : S -> list Z) (h : Z) : Prop := {
  wl_size s : Z.of_nat (length (content s)) < 2 ^ 63;
  wl_read len o s : 0 <= len -> 0 <= joined o < 2 ^ 63 -> let '(r, s') := p_read P h len o s in
    match r with
    | Refused e => content s' = content s /\ (e = ERROR_HANDLE_EOF -> (length (content s) <= Z.to_nat (joined o))%nat)
    | Finished st l => st = 0 /\ read_law content len (joined o) s s' (Ok l)
    end;
  wl_write buf o s : 0 <= joined o < 2 ^ 63 -> let '(r, s') := p_write P h buf o s in
    match r with Refused e => content s' = content s | Finished st n => st = 0 /\ write_law content buf (joined o) s s' (Ok n) end
}.

Lemma offsets_joined off : 0 <= off < 2 ^ 63 -> joined (offsets off) = off.
Proof.
  intros H. unfold joined, offsets. simpl. rewrite Z.shiftr_div_pow2 by lia. unfold wrap.
  rewrite (Z.mod_small (off / 2 ^ 32)) by (split; [apply Z.div_pos; lia|apply Z.div_lt_upper_bound; lia]).
  pose proof (Z.div_mod off (2 ^ 32) ltac:(lia)). lia.
Qed.

Lemma cut_small {A} (buf : list A) : Z.of_nat (length buf) < 2 ^ 32 -> take (Z.to_nat (wrap 32 (Z.of_nat (length buf)))) buf = buf.
Proof. intros. rewrite wrap_small by lia. rewrite Nat2Z.id. apply firstn_all. Qed.

Section linux_laws.
Context {S : Type} {K : Kernel S} {R : Ring S} {signals : S -> nat} {content : S -> list Z} {h : Z} `{!LinuxLaws K R signals content h}.

(** The direct attempt returns. *)
Lemma direct_returns {A} (call : S -> result A Z * S) (good : S -> A -> Prop) c0 fuel s :
  (forall s, content s = c0 -> let '(r, s') := call s in
     match r with Ok a => good s' a | Err e => content s' = c0 /\ (e = EINTR -> (signals s' < signals s)%nat) end) ->
  content s = c0 -> (signals s < fuel)%nat ->
  exists o s', direct fuel call s = Done (o, s') /\ match o with Some (Ok a) => good s' a | _ => content s' = c0 end.
Proof.
  intros Hc. revert s. induction fuel as [|fuel IH]; intros s Hs Hf; [lia|]. simpl.
  pose proof (Hc s Hs) as H. destruct (call s) as [[a|e] s1]; [by do 2 eexists|]. destruct H as [H1 H2].
  destruct (Z.eqb_spec e EINTR) as [->|]; [apply IH; [done|specialize (H2 eq_refl); lia]|].
  destruct (e =? EAGAIN); do 2 eexists; done.
Qed.

Lemma uring_laws : @PositionalLaws S (uring_positional K R signals) content h.
Proof.
  split.
  - apply (ll_size (K := K) (R := R) (signals := signals)).
  - intros len off s Hl Ho. simpl. unfold uring_read, try_pread.
    destruct (direct_returns (k_pread K h len (cast_signed off)) (fun s' l => read_law content len off s s' (Ok l))
      (content s) (Datatypes.S (signals s)) s) as (o & s1 & E & H); [|done|lia|].
    { intros s0 E0. unfold cast_signed. rewrite (proj2 (Z.ltb_lt off _)) by lia.
      pose proof (ll_pread (R := R) len off s0 ltac:(lia) Ho) as H. destruct (k_pread K h len off s0) as [[l|e] s1].
      - destruct H as [[H1 H2] _]. split; [congruence|]. intros l' El. rewrite <- E0. by apply H2.
      - destruct H as [[H1 _] H2]. split; [congruence|]. intros ->. by apply H2. }
    rewrite E. simpl. destruct o as [[l|e]|].
    + destruct H as [H1 H2]. by exists (Ok l), s1.
    + by exists (Err e), s1.
    + rewrite wrap_small by lia. pose proof (ll_read (K := K) len off s1 ltac:(lia) Ho) as Hr.
      destruct (r_read R h len off s1) as [r s2]. destruct Hr as [H1 H2]. exists r, s2. split; [done|]. split; [congruence|].
      rewrite <- H. exact H2.
  - intros buf off s Hl Ho. simpl. unfold uring_write, try_pwrite.
    destruct (direct_returns (k_pwrite K h buf (cast_signed off)) (fun s' n => write_law content buf off s s' (Ok n))
      (content s) (Datatypes.S (signals s)) s) as (o & s1 & E & H); [|done|lia|].
    { intros s0 E0. unfold cast_signed. rewrite (proj2 (Z.ltb_lt off _)) by lia.
      pose proof (ll_pwrite (R := R) buf off s0 Ho) as H. destruct (k_pwrite K h buf off s0) as [[n|e] s1].
      - destruct H as [[H1 H2] _]. split; [done|]. by rewrite <- E0.
      - destruct H as [H1 H2]. split; [simpl in H1; congruence|]. intros ->. by apply H2. }
    rewrite E. simpl. destruct o as [[n|e]|].
    + by exists (Ok n), s1.
    + by exists (Err e), s1.
    + rewrite cut_small by done. pose proof (ll_write (K := K) buf off s1 Ho) as Hr.
      destruct (r_write R h buf off s1) as [r s2]. exists r, s2. split; [done|]. unfold write_law in Hr. by rewrite H in Hr.
Qed.
End linux_laws.

Section windows_laws.
Context {S : Type} {P : Port S} {content : S -> list Z} {h : Z} `{!WindowsLaws P content h}.

Lemma iocp_laws : @PositionalLaws S (iocp_positional P) content h.
Proof.
  split.
  - apply (wl_size (P := P)).
  - intros len off s Hl Ho. simpl. unfold issue_read. rewrite wrap_small by lia.
    pose proof (wl_read len (offsets off) s ltac:(lia)) as H. rewrite offsets_joined in H by done. specialize (H Ho).
    destruct (p_read P h len (offsets off) s) as [[e|st l] s1]; do 2 eexists; (split; [done|]).
    + destruct H as [H1 H2]. split; [done|]. intros l. destruct (Z.eqb_spec e ERROR_HANDLE_EOF) as [->|]; [|done].
      intros [= <-]. split; [simpl; lia|]. split; [done|]. intros _. right. by apply H2.
    + destruct H as [_ [H1 H2]]. split; [done|]. exact H2.
  - intros buf off s Hl Ho. simpl. unfold issue_write. rewrite cut_small by done.
    pose proof (wl_write buf (offsets off) s) as H. rewrite offsets_joined in H by done. specialize (H Ho).
    destruct (p_write P h buf (offsets off) s) as [[e|st n] s1]; do 2 eexists; (split; [done|]); [done|]. by destruct H as [_ ?].
Qed.
End windows_laws.

(** ** Properties *)

Lemma run_history {S} `{HL : PositionalLaws S content h} cs f s : Forall valid cs -> in_range (h := h) f ->
  exists xs f' s', run cs f s = Done (xs, f', s') /\ in_range (h := h) f' /\
    history (view (content := content) f s) cs xs (view (content := content) f' s').
Proof.
  intros Hv. revert f s. induction Hv as [|c cs Hc Hv IH]; intros f s Hf.
  - exists [], f, s. split; [done|]. split; [done|]. constructor.
  - destruct (exec_allowed c f s Hc Hf) as (x & f1 & s1 & E1 & Hf1 & H1).
    destruct (IH f1 s1 Hf1) as (xs & f2 & s2 & E2 & Hf2 & H2).
    exists (x :: xs), f2, s2. simpl. rewrite E1. simpl. rewrite E2. split; [done|]. split; [done|]. by econstructor.
Qed.


(** The same on Windows, as long as no call fails after it has been accepted. *)
Lemma windows_file_is_sequential {S} (P : Port S) content (cs : list call) (f : file) (s : S) :
  WindowsLaws P content (fd f) -> Forall valid cs -> 0 <= cursor f < 2 ^ 63 ->
  exists xs f' s', @run S (iocp_positional P) cs f s = Done (xs, f', s') /\ fd f' = fd f /\
    history (AFile (content s) (Z.to_nat (cursor f))) cs xs (AFile (content s') (Z.to_nat (cursor f'))).
Proof.
  intros HL Hv Hc.
  destruct (@run_history S (iocp_positional P) content (fd f) iocp_laws cs f s Hv (conj eq_refl Hc))
    as (xs & f' & s' & E & [Hh _] & H).
  by exists xs, f', s'.
Qed.

(** A call that fails later, with any status, is reported as a success. *)
Lemma iocp_late_errors_are_lost {S} (P : Port S) (f : file) buf (s s1 : S) st :
  p_write P (fd f) (take (Z.to_nat (wrap 32 (Z.of_nat (length buf)))) buf) (offsets (wrap 64 (cursor f))) s = (Finished st 0, s1) ->
  exists f', @write S (iocp_positional P) f buf s = Done (Ok 0, f', s1).
Proof. intros E. unfold write. simpl. unfold issue_write. rewrite E. simpl. by eexists. Qed.

(** *** A file in memory *)

(** At most eight bytes, and the signals to come. *)
Definition mem : Type := list Z * nat.
Definition mem_content (s : mem) : list Z := take 8 s.1.
Definition mem_read (len off : Z) (s : mem) : result (list Z) Z * mem :=
  (Ok (take (Z.to_nat len) (drop (Z.to_nat off) (mem_content s))), s).
Definition mem_write (buf : list Z) (off : Z) (s : mem) : result Z Z * mem :=
  let d := patch (Z.to_nat off) buf (mem_content s) in
  if (length d <=? 8)%nat then (Ok (Z.of_nat (length buf)), (d, s.2)) else (Err 28, s).
Definition interruptible {A} (call : mem -> result A Z * mem) (s : mem) : result A Z * mem :=
  match s.2 with O => call s | Datatypes.S n => (Err EINTR, (s.1, n)) end.
(** Reads beyond the fourth byte would block. *)
Definition mem_kernel : Kernel mem := {|
  k_pread := fun _ len off => interruptible (fun s => if off <? 4 then mem_read len off s else (Err EAGAIN, s));
  k_pwrite := fun _ buf off => interruptible (mem_write buf off);
  k_open := fun _ s => (Ok 3, s);
  k_close := fun _ s => s
|}.
Definition mem_ring : Ring mem := {|
  r_read := fun _ => mem_read; r_write := fun _ => mem_write; r_openat := fun _ _ _ s => (Ok 3, s);
  r_fsync := fun _ s => (Ok 0, s); r_close := fun _ s => (Ok 0, s)
|}.

Lemma mem_read_law len off s : 0 <= len -> let '(r, s') := mem_read len off s in read_law mem_content len off s s' r.
Proof.
  intros Hl. split; [done|]. intros l [= <-]. split; [rewrite length_take; lia|]. split.
  - rewrite length_take. destruct (Nat.le_gt_cases (Z.to_nat len) (length (drop (Z.to_nat off) (mem_content s)))) as [H|H].
    + by rewrite Nat.min_l.
    + rewrite Nat.min_r by lia. rewrite firstn_all. apply take_ge. lia.
  - intros E. apply (f_equal length) in E. rewrite length_take, length_drop in E. simpl in E. lia.
Qed.

Lemma mem_write_law buf off s : let '(r, s') := mem_write buf off s in write_law mem_content buf off s s' r.
Proof.
  unfold mem_write. destruct (Nat.leb_spec (length (patch (Z.to_nat off) buf (mem_content s))) 8); [|done].
  split; [lia|]. rewrite Nat2Z.id, firstn_all. unfold mem_content at 1. simpl fst. by apply take_ge.
Qed.

Lemma mem_laws h : LinuxLaws mem_kernel mem_ring snd mem_content h.
Proof.
  split.
  - intros s. unfold mem_content. rewrite length_take. lia.
  - intros len off [d n] Hl Ho. simpl. unfold interruptible. simpl. destruct n as [|n].
    + destruct (off <? 4); [|by split; [split|intros [= ?]]]. split; [by apply mem_read_law|done].
    + split; [by split|intros _; simpl; lia].
  - intros buf off [d n] Ho. simpl. unfold interruptible. simpl. destruct n as [|n].
    + pose proof (mem_write_law buf off (d, 0%nat)) as H. unfold mem_write in *. simpl in *.
      destruct (_ <=? 8)%nat; split; try done; by intros [= ?].
    + split; [done|intros _; simpl; lia].
  - intros len off s Hl _. by apply mem_read_law.
  - intros buf off s _. apply mem_write_law.
Qed.

(** The same file on a port, which refuses reads at the end; its handles are those of an empty system. *)
Definition mem_port : Port mem := {|
  p_read := fun _ len o s =>
    if (length (mem_content s) <=? Z.to_nat (joined o))%nat then (Refused ERROR_HANDLE_EOF, s)
    else (Finished 0 (take (Z.to_nat len) (drop (Z.to_nat (joined o)) (mem_content s))), s);
  p_write := fun _ buf o s =>
    match mem_write buf (joined o) s with (Ok n, s') => (Finished 0 n, s') | (Err e, s') => (Refused e, s') end;
  p_create := fun _ _ _ s => (Err 2, s);
  p_open := fun _ s => (Err 2, s);
  p_associate := fun _ s => (Ok tt, s);
  p_flush := fun _ s => (Ok tt, s);
  p_size := fun _ s => (Ok (Z.of_nat (length (mem_content s))), s);
  p_close := fun _ s => s
|}.

Lemma mem_port_laws h : WindowsLaws mem_port mem_content h.
Proof.
  split.
  - intros s. unfold mem_content. rewrite length_take. lia.
  - intros len o s Hl Ho. simpl. destruct (Nat.leb_spec (length (mem_content s)) (Z.to_nat (joined o))); [done|].
    split; [done|]. apply (mem_read_law len (joined o) s Hl).
  - intros buf o s Ho. simpl. pose proof (mem_write_law buf (joined o) s) as H. destruct (mem_write buf (joined o) s) as [[n|e] s']; [|done].
    by split.
Qed.

(** A write and three reads, interrupted twice. *)
Definition some_calls : list call := [Write [1; 2; 3]; WriteAt [7; 8] 4; ReadAt 8 0; Read 8; Read 8].

(** Two reads of one handle that overlap load the cursor before either has advanced it: both return the same bytes, the
    cursor moves over both, and the bytes in between are read by nobody. *)
Lemma overlapping_reads_skip_bytes :
  let P := uring_positional mem_kernel mem_ring snd in
  let s := ([1; 2; 3; 4], 0%nat) in let f := File 3 0 in
  (r1 ← @read_start mem P f 2 s; r2 ← @read_start mem P f 2 r1.2;
   let f' := read_end (fun l => Z.of_nat (length l)) r2.1 (read_end (fun l => Z.of_nat (length l)) r1.1 f) in
   r3 ← @read mem P f' 2 r2.2; Done (r1.1, r2.1, f', r3.1.1)) = Done (Ok [1; 2], Ok [1; 2], File 3 4, Ok []).
Proof. vm_compute. reflexivity. Qed.

(** ** Handles *)

Section handles.
Context {S : Type} (P : Port S) (opened : S -> gset Z).

(** Opening makes a new handle or none; closing gives it back. *)
Class HandleLaws : Prop := {
  hl_create path d a s : let '(r, s') := p_create P path d a s in
    match r with Ok h => h ∉ opened s /\ opened s' = {[ h ]} ∪ opened s | Err _ => opened s' = opened s end;
  hl_open path s : let '(r, s') := p_open P path s in
    match r with Ok h => h ∉ opened s /\ opened s' = {[ h ]} ∪ opened s | Err _ => opened s' = opened s end;
  hl_associate h s : opened (p_associate P h s).2 = opened s;
  hl_close h s : opened (p_close P h s) = opened s ∖ {[ h ]}
}.

Lemma associate_owned `{!HandleLaws} h s so : h ∉ so -> opened s = {[ h ]} ∪ so ->
  let '(r, s') := associate P h s in
  match r with Ok f => fd f = h /\ cursor f = 0 /\ opened s' = {[ h ]} ∪ so | Err _ => opened s' = so end.
Proof.
  intros Hn Hs. unfold associate. pose proof (hl_associate h s) as Ha. destruct (p_associate P h s) as [[|e] s1]; simpl in Ha.
  - split; [done|]. split; [done|]. congruence.
  - rewrite hl_close, Ha, Hs. set_solver.
Qed.

(** An open that fails leaves no handle behind, one that succeeds leaves the file's, and closing the file leaves none. *)
Lemma windows_files_are_owned `{!HandleLaws} path d a s :
  let '(r, s') := iocp_open_impl P path d a s in
  match r with
  | Ok f => cursor f = 0 /\ fd f ∉ opened s /\ opened s' = {[ fd f ]} ∪ opened s /\ opened (iocp_close P f s').2 = opened s
  | Err _ => opened s' = opened s
  end.
Proof.
  unfold iocp_open_impl. pose proof (hl_create path d a s) as Hc. destruct (p_create P path d a s) as [[h|e] s1]; [|done].
  destruct Hc as [Hn Hs]. pose proof (associate_owned h s1 (opened s) Hn Hs) as Ha.
  destruct (associate P h s1) as [[f|e] s2]; [|done]. destruct Ha as (Hf & Hc & Ho). rewrite Hf.
  split; [done|]. split; [done|]. split; [done|]. simpl. unfold iocp_drop. rewrite Hf, hl_close, Ho. set_solver.
Qed.
End handles.

(** The laws hold of a system that is a set of handles. *)
Definition demo_port : Port (gset Z) := {|
  p_read := fun _ _ _ s => (Refused 6, s);
  p_write := fun _ _ _ s => (Refused 6, s);
  p_create := fun _ _ _ s => (Ok (fresh s), {[ fresh s ]} ∪ s);
  p_open := fun _ s => (Ok (fresh s), {[ fresh s ]} ∪ s);
  p_associate := fun h s => (if h =? 7 then Err 5 else Ok tt, s);
  p_flush := fun _ s => (Ok tt, s);
  p_size := fun _ s => (Ok 0, s);
  p_close := fun h s => s ∖ {[ h ]}
|}.
Lemma demo_handle_laws : HandleLaws demo_port id.
Proof. split; simpl; try done; intros; (split; [apply is_fresh|done]). Qed.

End Files.
