(* ===== verification/BlockingPool.v ===== *)
(** * BlockingPool

    The thread pools behind the blocking operations: [init], [spawn_blocking] and [BlockingOp] of
    src/dtact-util/src/process/native.rs and of src/dtact-util/src/fs/native.rs (the same code twice), and on top of
    them the pipes of a child process and the file handle.

    A job is what the closure does in its blocking call, a partial function on the world: it has no answer while the call would
    block.  Threads take, run and finish jobs in any order; a [OnceSlot] is set and polled in one step
    (its accesses are in WakerSlot.v). *)

From S2P Require Import Prelude.

Module BlockingPool.
Section pool.
Context {J R W : Type} (act : J -> W -> option (R * W)).

(** A worker thread: in [recv] or waiting for the lock around it, in the job's call, or about to set the slot. *)
Inductive worker :=
| Receiving
| Running (i : nat) (job : J)
| Finishing (i : nat) (r : R).

(** A [BlockingOp] with its slot: the value set and not yet taken, whether a waker is registered and whether it was woken;
    [taken] is what the future has returned, [dropped] tells that it was dropped. *)
Record BlockingOp := mkOp {
  job_of : J; value : option R; registered : bool; woken : bool; taken : option R; dropped : bool
}.

Record entry := Entry { e_op : nat; e_job : J; e_result : R }.

(** [workers] is [None] before the pool is started; [log] are the calls made, in their order. *)
Record conf := mkConf {
  workers : option (list worker); queue : list (nat * J); ops : list BlockingOp; world : W; log : list entry
}.

Definition with_workers (ws : list worker) (c : conf) : conf := mkConf (Some ws) (queue c) (ops c) (world c) (log c).
Definition with_op (i : nat) (o : BlockingOp) (c : conf) : conf :=
  mkConf (workers c) (queue c) (<[i := o]> (ops c)) (world c) (log c).

Definition fresh (w : W) : conf := mkConf None [] [] w [].

(** ** The pool *)

Definition init (n : nat) (c : conf) : conf :=
  match workers c with Some _ => c | None => with_workers (replicate (Nat.max n 1) Receiving) c end.

(** The operation and its number. *)
Definition spawn_blocking (job : J) (c : conf) : nat * conf :=
  let c := init 4 c in
  let i := length (ops c) in
  (i, mkConf (workers c) (queue c ++ [(i, job)]) (ops c ++ [mkOp job None false false None false]) (world c) (log c)).

(** [OnceSlot::set] *)
Definition set_value (r : R) (o : BlockingOp) : BlockingOp :=
  mkOp (job_of o) (Some r) false (woken o || registered o) (taken o) (dropped o).

(** [BlockingOp::poll] *)
Definition poll_op (o : BlockingOp) : Poll R * BlockingOp :=
  match value o with
  | Some r => (Ready r, mkOp (job_of o) None (registered o) (woken o) (Some r) (dropped o))
  | None => (Pending, mkOp (job_of o) None true false (taken o) (dropped o))
  end.

Definition drop_op (o : BlockingOp) : BlockingOp := mkOp (job_of o) (value o) (registered o) (woken o) (taken o) true.

(** The loop of a worker, a step at a time. *)
Definition worker_step (k : nat) (c : conf) : option conf :=
  ws ← workers c;
  wk ← ws !! k;
  match wk with
  | Receiving =>
      match queue c with
      | [] => None
      | (i, job) :: q => Some (mkConf (Some (<[k := Running i job]> ws)) q (ops c) (world c) (log c))
      end
  | Running i job =>
      '(r, w) ← act job (world c);
      Some (mkConf (Some (<[k := Finishing i r]> ws)) (queue c) (ops c) w (log c ++ [Entry i job r]))
  | Finishing i r => o ← ops c !! i; Some (with_op i (set_value r o) (with_workers (<[k := Receiving]> ws) c))
  end.

Inductive label := LInit (n : nat) | LSpawn (job : J) | LWorker (k : nat) | LPoll (i : nat) | LDrop (i : nat).

(** An operation that has returned its value or was dropped is not polled again. *)
Definition step (l : label) (c : conf) : option conf :=
  match l with
  | LInit n => Some (init n c)
  | LSpawn job => Some (spawn_blocking job c).2
  | LWorker k => worker_step k c
  | LPoll i =>
      o ← ops c !! i;
      if dropped o || (if taken o then true else false) then None else Some (with_op i (poll_op o).2 c)
  | LDrop i => o ← ops c !! i; Some (with_op i (drop_op o) c)
  end.

Fixpoint run (ls : list label) (c : conf) : option conf :=
  match ls with [] => Some c | l :: ls' => c' ← step l c; run ls' c' end.

(** ** What the pool keeps *)

Definition threads (c : conf) : list worker := default [] (workers c).
Definition run_id (wk : worker) : list nat := match wk with Running i _ => [i] | _ => [] end.

(** The calls of a log one after another. *)
Inductive replays : W -> list entry -> W -> Prop :=
| replays_nil w : replays w [] w
| replays_snoc w l w1 i job r w2 : replays w l w1 -> act job w1 = Some (r, w2) -> replays w (l ++ [Entry i job r]) w2.

Definition job_at (c : conf) (i : nat) (job : J) : Prop := exists o, ops c !! i = Some o /\ job_of o = job.

Record inv (w0 : W) (c : conf) : Prop := {
  iv_replay : replays w0 (log c) (world c);
  iv_ids : (e_op <$> log c) ++ (threads c ≫= run_id) ++ (queue c).*1 ≡ₚ seq 0 (length (ops c));
  iv_fifo : (queue c).*1 = seq (length (ops c) - length (queue c)) (length (queue c));
  iv_started : match workers c with None => queue c = [] | Some ws => ws <> [] end;
  iv_jobs : forall i job, (i, job) ∈ queue c \/ Running i job ∈ threads c \/ (exists r, Entry i job r ∈ log c) -> job_at c i job;
  iv_finishing : forall k i r, threads c !! k = Some (Finishing i r) ->
    (exists o, ops c !! i = Some o /\ value o = None /\ taken o = None /\ Entry i (job_of o) r ∈ log c) /\
    forall k' r', threads c !! k' = Some (Finishing i r') -> k' = k;
  iv_values : forall i o r, ops c !! i = Some o -> value o = Some r \/ taken o = Some r -> Entry i (job_of o) r ∈ log c;
  iv_answered : forall i job r, Entry i job r ∈ log c ->
    Finishing i r ∈ threads c \/ exists o, ops c !! i = Some o /\ (value o = Some r \/ taken o = Some r);
  iv_registered : forall i o, ops c !! i = Some o -> registered o = true -> value o = None /\ taken o = None;
  iv_bound : forall p e, log c !! p = Some e -> (e_op e < p + length (threads c))%nat
}.

Lemma bp_fresh w : inv w (fresh w).
Proof. split; simpl; try done; try set_solver. constructor. Qed.

Lemma bp_nodup w c : inv w c -> NoDup ((e_op <$> log c) ++ (threads c ≫= run_id) ++ (queue c).*1).
Proof. intros H. rewrite (iv_ids _ _ H). apply NoDup_seq. Qed.

Lemma bp_logged e c : e ∈ log c -> e_op e ∈ e_op <$> log c.
Proof. intros. apply list_elem_of_fmap. eauto. Qed.

(** A job that has not been run has no result. *)
Lemma bp_not_run w c i : inv w c -> i ∈ (threads c ≫= run_id) ++ (queue c).*1 -> i ∉ e_op <$> log c.
Proof. intros H Hi Hl. pose proof (bp_nodup w c H) as Hd. apply NoDup_app in Hd as (_ & Hd & _). by apply (Hd i). Qed.

Lemma bp_init w n c : inv w c -> inv w (init n c).
Proof.
  intros H. unfold init. destruct (workers c) as [ws|] eqn:Ew; [done|].
  assert (threads c = []) as Et by (unfold threads; by rewrite Ew).
  assert (forall wk, wk ∈ replicate (Nat.max n 1) Receiving -> wk = Receiving) as Hr.
  { intros wk Hw. by apply elem_of_replicate in Hw as [-> _]. }
  destruct H as [H1 H2 H3 H4 H5 H6 H7 H8 H9 H10]. rewrite Et in *.
  split; unfold threads; cbn [with_workers workers queue ops world log default from_option id]; try done.
  - assert (replicate (Nat.max n 1) Receiving ≫= run_id = []) as ->; [|done].
    generalize (Nat.max n 1). intros m. induction m as [|m IH]; [done|exact IH].
  - destruct (Nat.max n 1) eqn:E; [lia|done].
  - intros i job [Hq|[Hq|Hq]]; [apply H5; by left| |apply H5; by right; right]. by apply Hr in Hq.
  - intros k i r Hk. apply list_elem_of_lookup_2, Hr in Hk. done.
  - intros i job r He. destruct (H8 _ _ _ He) as [Hf|Hf]; [set_solver|by right].
  - intros p e He. apply H10 in He. simpl in He. lia.
Qed.

Lemma bp_spawn w job c : inv w c -> inv w (spawn_blocking job c).2.
Proof.
  intros H0. assert (inv w (init 4 c)) as H by by apply bp_init.
  assert (workers (init 4 c) <> None) as Hw by (unfold init; destruct (workers c) eqn:E; by rewrite ?E).
  unfold spawn_blocking. set (d := init 4 c) in *. clearbody d. clear H0 c.
  destruct H as [H1 H2 H3 H4 H5 H6 H7 H8 H9 H10].
  assert (forall i o, (ops d ++ [mkOp job None false false None false]) !! i = Some o ->
            ops d !! i = Some o \/ (i = length (ops d) /\ o = mkOp job None false false None false)) as Hl.
  { intros i o Hi. apply lookup_app_Some in Hi as [Hi|[Hi Ho]]; [by left|right].
    destruct (i - length (ops d))%nat eqn:E; [|done]. injection Ho as <-. split; [lia|done]. }
  assert (forall i o, ops d !! i = Some o -> (ops d ++ [mkOp job None false false None false]) !! i = Some o) as Hm.
  { intros. by apply lookup_app_l_Some. }
  assert (length (queue d) <= length (ops d))%nat as Hlen.
  { apply Permutation_length in H2. rewrite !length_app, length_seq, !length_fmap in H2. lia. }
  split; unfold threads in *; cbn [snd workers queue ops world log]; try done.
  - rewrite fmap_app, length_app, Nat.add_1_r, seq_S, !app_assoc. simpl.
    apply Permutation_app_tail. by rewrite <- !app_assoc.
  - rewrite fmap_app, !length_app, H3. simpl.
    replace (length (ops d) + 1 - (length (queue d) + 1))%nat with (length (ops d) - length (queue d))%nat by lia.
    rewrite Nat.add_1_r, seq_S. by replace (length (ops d) - length (queue d) + length (queue d))%nat with (length (ops d)) by lia.
  - destruct (workers d); [done|by destruct Hw].
  - intros i j [[Hq|Hq]%elem_of_app|Hq].
    + destruct (H5 i j) as (o & Ho & E); [by left|]. exists o. auto.
    + apply list_elem_of_singleton in Hq as [= -> ->]. eexists. split; [by apply list_lookup_middle|done].
    + destruct (H5 i j) as (o & Ho & E); [by right|]. exists o. auto.
  - intros k i r Hk. destruct (H6 k i r Hk) as [(o & Ho & Hrest) Hu]. split; [|done]. exists o. auto.
  - intros i o r Ho Hv. destruct (Hl _ _ Ho) as [Ho'|[-> ->]]; [by apply (H7 i o r)|by destruct Hv].
  - intros i j r He. destruct (H8 i j r He) as [Hf|(o & Ho & Hv)]; [by left|right]. exists o. auto.
  - intros i o Ho Hr. destruct (Hl _ _ Ho) as [Ho'|[-> ->]]; [by apply (H9 i o)|done].
Qed.

(** A poll or a drop: the operation keeps its job and does not change what it is answered. *)
Lemma bp_op w c i o o' : inv w c -> ops c !! i = Some o -> job_of o' = job_of o ->
  (forall r, value o = Some r \/ taken o = Some r <-> value o' = Some r \/ taken o' = Some r) ->
  (registered o' = true -> value o' = None /\ taken o' = None) -> inv w (with_op i o' c).
Proof.
  intros [H1 H2 H3 H4 H5 H6 H7 H8 H9 H10] Ho Ej Hv Hr.
  assert (forall k x, <[i := o']> (ops c) !! k = Some x -> (k = i /\ x = o') \/ (k <> i /\ ops c !! k = Some x)) as Hl.
  { intros k x Hk. apply list_lookup_insert_Some in Hk as [(-> & -> & _)|[? ?]]; [by left|right; split; congruence]. }
  assert (forall k x, ops c !! k = Some x -> exists x', <[i := o']> (ops c) !! k = Some x' /\ job_of x' = job_of x /\
            forall r, value x = Some r \/ taken x = Some r <-> value x' = Some r \/ taken x' = Some r) as Hm.
  { intros k x Hk. destruct (decide (k = i)) as [->|].
    - rewrite list_lookup_insert_eq by (by eapply lookup_lt_Some). assert (x = o) as -> by congruence. by exists o'.
    - rewrite list_lookup_insert_ne by done. by exists x. }
  split; unfold threads in *; cbn [with_op workers queue ops world log]; rewrite ?length_insert; try done.
  - intros k job Hk. destruct (H5 k job Hk) as (x & Hx & E). destruct (Hm _ _ Hx) as (x' & Hx' & E' & _).
    exists x'. by rewrite E'.
  - intros k j r Hk. destruct (H6 k j r Hk) as [(x & Hx & V & T & L) Hu]. split; [|done].
    destruct (Hm _ _ Hx) as (x' & Hx' & E' & Hv'). exists x'. rewrite E'. split_and!; try done.
    + destruct (value x') as [r'|] eqn:E; [|done]. destruct (proj2 (Hv' r') (or_introl eq_refl)); congruence.
    + destruct (taken x') as [r'|] eqn:E; [|done]. destruct (proj2 (Hv' r') (or_intror eq_refl)); congruence.
  - intros k x r Hk Hx. destruct (Hl _ _ Hk) as [[-> ->]|[_ Hk']]; [|by apply (H7 k x r)].
    rewrite Ej. apply H7; [done|]. by apply Hv.
  - intros k j r He. destruct (H8 k j r He) as [Hf|(x & Hx & Hv')]; [by left|right].
    destruct (Hm _ _ Hx) as (x' & Hx' & _ & Hv''). exists x'. split; [done|]. by apply Hv''.
  - intros k x Hk Hx. destruct (Hl _ _ Hk) as [[-> ->]|[_ Hk']]; [auto|by apply (H9 k x)].
Qed.

Lemma bp_in_insert {A} (l : list A) k x y : x ∈ <[k := y]> l -> x = y \/ x ∈ l.
Proof.
  intros [n Hn]%list_elem_of_lookup. apply list_lookup_insert_Some in Hn as [(_ & -> & _)|[_ Hn]]; [by left|].
  right. by eapply list_elem_of_lookup_2.
Qed.

Lemma bp_in_insert_2 {A} (l : list A) k x y z : l !! k = Some z -> x ∈ l -> x <> z -> x ∈ <[k := y]> l.
Proof.
  intros Hz [n Hn]%list_elem_of_lookup Hne. apply list_elem_of_lookup. exists n.
  rewrite list_lookup_insert_ne; [done|]. intros ->. congruence.
Qed.

Lemma bp_queue_len w c : inv w c -> (length (queue c) <= length (ops c))%nat.
Proof. intros H. pose proof (Permutation_length (iv_ids _ _ H)) as E. rewrite !length_app, length_seq, !length_fmap in E. lia. Qed.

Lemma bp_take w c ws k i job q : inv w c -> workers c = Some ws -> ws !! k = Some Receiving -> queue c = (i, job) :: q ->
  inv w (mkConf (Some (<[k := Running i job]> ws)) q (ops c) (world c) (log c)).
Proof.
  intros H Ew Hk Eq. pose proof (bp_queue_len _ _ H) as Hlen. assert (threads c = ws) as Et by (unfold threads; by rewrite Ew).
  destruct H as [H1 H2 H3 H4 H5 H6 H7 H8 H9 H10]. rewrite Et, Eq in *.
  split; unfold threads; cbn [workers queue ops world log default from_option id]; rewrite ?length_insert; try done.
  - rewrite <- H2. apply Permutation_app_head. rewrite fmap_cons.
    change ((i, job).1 :: q.*1) with ([i] ++ q.*1). rewrite (Permutation_app_swap_app _ [i]), app_assoc.
    apply Permutation_app_tail. rewrite <- (app_nil_l (_ ≫= run_id)). by apply (bind_insert_perm run_id _ _ Receiving).
  - rewrite fmap_cons in H3. cbn [length seq] in H3, Hlen. injection H3 as _ ->.
    by replace (S (length (ops c) - S (length q))) with (length (ops c) - length q)%nat by lia.
  - rewrite Ew in H4. intros E. apply (f_equal length) in E. rewrite length_insert in E. by destruct ws.
  - intros k' j [Hq|[Hr|Hl]]; apply H5; [left; by right| |by right; right].
    apply bp_in_insert in Hr as [[= -> ->]|Hr]; [left; by left|right; by left].
  - intros k' n r Hn. apply list_lookup_insert_Some in Hn as [(_ & ? & _)|[Hne Hn]]; [done|].
    destruct (H6 _ _ _ Hn) as [Ho Hu]. split; [done|]. intros k2 r' Hk2.
    apply list_lookup_insert_Some in Hk2 as [(_ & ? & _)|[_ Hk2]]; [done|]. by apply (Hu k2 r').
  - intros n j r He. destruct (H8 _ _ _ He) as [Hf|Ho]; [left|by right]. by apply (bp_in_insert_2 _ _ _ _ Receiving).
Qed.

Lemma bp_running_len ws : (length (ws ≫= run_id) <= length ws)%nat.
Proof.
  induction ws as [|wk ws IH]; [done|]. change (length (run_id wk ++ (ws ≫= run_id)) <= S (length ws))%nat.
  rewrite length_app. destruct wk; simpl; lia.
Qed.

Lemma bp_run_id i job ws : Running i job ∈ ws -> i ∈ ws ≫= run_id.
Proof. intros H. apply list_elem_of_bind. exists (Running i job). split; [by left|done]. Qed.

(** A job that runs was among the first that are not in the queue. *)
Lemma bp_started_bound w c i job : inv w c -> Running i job ∈ threads c -> (i < length (log c) + length (threads c))%nat.
Proof.
  intros H Hr. pose proof (iv_ids _ _ H) as Hp. pose proof (iv_fifo _ _ H) as Hf. pose proof (bp_nodup _ _ H) as Hd.
  apply bp_run_id in Hr.
  assert (i ∈ seq 0 (length (ops c))) as Hi by (rewrite <- Hp; set_solver). apply elem_of_seq in Hi.
  assert (i ∉ (queue c).*1) as Hq.
  { apply NoDup_app in Hd as (_ & _ & Hd). apply NoDup_app in Hd as (_ & Hd & _). by apply Hd. }
  rewrite Hf, elem_of_seq in Hq. pose proof (Permutation_length Hp) as Hl.
  rewrite !length_app, length_seq, !length_fmap in Hl. pose proof (bp_running_len (threads c)). lia.
Qed.

Lemma bp_exec w c ws k i job r w' : inv w c -> workers c = Some ws -> ws !! k = Some (Running i job) ->
  act job (world c) = Some (r, w') ->
  inv w (mkConf (Some (<[k := Finishing i r]> ws)) (queue c) (ops c) w' (log c ++ [Entry i job r])).
Proof.
  intros H Ew Hk Ha. assert (threads c = ws) as Et by (unfold threads; by rewrite Ew).
  assert (Running i job ∈ ws) as Hin by (by eapply list_elem_of_lookup_2).
  assert (i ∉ e_op <$> log c) as Hnew.
  { apply (bp_not_run w); [done|]. apply elem_of_app. left. rewrite Et. by eapply bp_run_id. }
  assert (i < length (log c) + length ws)%nat as Hb by (rewrite <- Et; apply (bp_started_bound w c i job H); by rewrite Et).
  destruct H as [H1 H2 H3 H4 H5 H6 H7 H8 H9 H10]. rewrite Et in *.
  assert (forall k' r', ws !! k' = Some (Finishing i r') -> False) as Hno.
  { intros k' r' Hk'. destruct (H6 _ _ _ Hk') as [(o & _ & _ & _ & Hl) _]. by apply Hnew, (bp_logged _ _ Hl). }
  split; unfold threads; cbn [workers queue ops world log default from_option id]; rewrite ?length_insert; try done.
  - by apply (replays_snoc _ _ (world c)).
  - rewrite fmap_app, <- H2, <- app_assoc. apply Permutation_app_head. rewrite app_assoc. apply Permutation_app_tail.
    rewrite <- (app_nil_l (ws ≫= run_id)). by apply (bind_insert_perm run_id _ _ (Running i job)).
  - rewrite Ew in H4. intros E. apply (f_equal length) in E. rewrite length_insert in E. by destruct ws.
  - intros n j [Hq|[Hr|[r' Hl]]].
    + apply H5. by left.
    + apply bp_in_insert in Hr as [?|Hr]; [done|]. apply H5. right. by left.
    + apply elem_of_app in Hl as [Hl|Hl]; [apply H5; right; right; eauto|].
      apply list_elem_of_singleton in Hl as [= -> -> ->]. apply H5. right. by left.
  - intros k' n r' Hn. apply list_lookup_insert_Some in Hn as [(<- & [= <- <-] & _)|[Hne Hn]].
    + destruct (H5 i job) as (o & Ho & Ej); [right; by left|]. split.
      * exists o. split_and!; [done| | |rewrite Ej; apply elem_of_app; right; by left].
        -- destruct (value o) as [x|] eqn:Ex; [|done]. destruct Hnew. apply (bp_logged (Entry i (job_of o) x)). apply H7; auto.
        -- destruct (taken o) as [x|] eqn:Ex; [|done]. destruct Hnew. apply (bp_logged (Entry i (job_of o) x)). apply H7; auto.
      * intros k2 r2 Hk2. apply list_lookup_insert_Some in Hk2 as [(-> & _)|[_ Hk2]]; [done|]. by destruct (Hno _ _ Hk2).
    + destruct (H6 _ _ _ Hn) as [(o & Ho & V & T & L) Hu]. split; [exists o; split_and!; try done; set_solver|].
      intros k2 r2 Hk2. apply list_lookup_insert_Some in Hk2 as [(<- & [= <- <-] & _)|[_ Hk2]]; [by destruct (Hno _ _ Hn)|].
      by apply (Hu k2 r2).
  - intros n o r' Ho Hv. apply elem_of_app. left. by apply H7.
  - intros n j r' Hl. apply elem_of_app in Hl as [Hl|Hl].
    + destruct (H8 _ _ _ Hl) as [Hf|Ho]; [left|by right]. by apply (bp_in_insert_2 _ _ _ _ (Running i job)).
    + apply list_elem_of_singleton in Hl as [= -> -> ->]. left. apply list_elem_of_lookup. exists k.
      apply list_lookup_insert_eq. by eapply lookup_lt_Some.
  - intros p e He. apply lookup_app_Some in He as [He|[Hp He]]; [by apply H10|].
    destruct (p - length (log c))%nat eqn:E; [|done]. injection He as <-. simpl. lia.
Qed.

Lemma bp_finish w c ws k i r o : inv w c -> workers c = Some ws -> ws !! k = Some (Finishing i r) -> ops c !! i = Some o ->
  inv w (with_op i (set_value r o) (with_workers (<[k := Receiving]> ws) c)).
Proof.
  intros H Ew Hk Ho. assert (threads c = ws) as Et by (unfold threads; by rewrite Ew).
  destruct H as [H1 H2 H3 H4 H5 H6 H7 H8 H9 H10]. rewrite Et in *.
  destruct (H6 _ _ _ Hk) as [(o1 & Ho1 & V & T & L) Hu]. assert (o1 = o) as -> by congruence. clear Ho1.
  assert (forall n x, n <> i -> <[i := set_value r o]> (ops c) !! n = Some x <-> ops c !! n = Some x) as Hne.
  { intros n x Hn. by rewrite list_lookup_insert_ne. }
  assert (<[i := set_value r o]> (ops c) !! i = Some (set_value r o)) as Heq.
  { apply list_lookup_insert_eq. by eapply lookup_lt_Some. }
  split; unfold threads; cbn [with_op with_workers workers queue ops world log default from_option id]; rewrite ?length_insert; try done.
  - rewrite <- H2. apply Permutation_app_head, Permutation_app_tail.
    rewrite <- (app_nil_l (<[_:=_]> _ ≫= run_id)), <- (app_nil_l (ws ≫= run_id)).
    by apply (bind_insert_perm run_id _ _ (Finishing i r)).
  - rewrite Ew in H4. intros E. apply (f_equal length) in E. rewrite length_insert in E. by destruct ws.
  - intros n j Hj. assert (job_at c n j) as (x & Hx & E).
    { apply H5. destruct Hj as [Hq|[Hr|Hl]]; [by left| |by right; right].
      apply bp_in_insert in Hr as [?|Hr]; [done|right; by left]. }
    destruct (decide (n = i)) as [->|Hn]; [|exists x; split; [by apply Hne|done]].
    exists (set_value r o). split; [done|]. simpl. congruence.
  - intros k' n r' Hn. apply list_lookup_insert_Some in Hn as [(_ & ? & _)|[Hkk Hn]]; [done|].
    destruct (H6 _ _ _ Hn) as [(x & Hx & Vx & Tx & Lx) Hux]. split.
    + exists x. split_and!; try done. apply Hne; [|done]. intros ->. by apply Hkk, Hux with r.
    + intros k2 r2 Hk2. apply list_lookup_insert_Some in Hk2 as [(_ & ? & _)|[_ Hk2]]; [done|]. by apply (Hux k2 r2).
  - intros n x r' Hx Hv. destruct (decide (n = i)) as [->|Hn]; [|apply H7; [by apply Hne|done]].
    rewrite Heq in Hx. injection Hx as <-. simpl in *. destruct Hv as [[= <-]|Hv]; [done|]. congruence.
  - intros n j r' Hl. destruct (decide (n = i)) as [->|Hn].
    + right. exists (set_value r o). split; [done|]. left. simpl. f_equal.
      destruct (H8 _ _ _ Hl) as [Hf|(x & Hx & Hv)].
      * apply list_elem_of_lookup in Hf as [k2 Hk2]. assert (k2 = k) as -> by (by eapply Hu). congruence.
      * assert (x = o) as -> by congruence. destruct Hv; congruence.
    + destruct (H8 _ _ _ Hl) as [Hf|(x & Hx & Hv)]; [left|right].
      * apply (bp_in_insert_2 _ _ _ _ (Finishing i r)); [done|done|]. congruence.
      * exists x. split; [by apply Hne|done].
  - intros n x Hx Hr. destruct (decide (n = i)) as [->|Hn]; [|apply (H9 n x); [by apply Hne|done]].
    rewrite Heq in Hx. by injection Hx as <-.
Qed.

Lemma bp_worker w c k c' : inv w c -> worker_step k c = Some c' -> inv w c'.
Proof.
  intros H E. unfold worker_step in E. destruct (workers c) as [ws|] eqn:Ew; [|done]. cbn [mbind option_bind] in E.
  destruct (ws !! k) as [[|i job|i r]|] eqn:Ek; [..|done]; cbn [mbind option_bind] in E.
  - destruct (queue c) as [|[i job] q] eqn:Eq; [done|]. injection E as <-. by apply (bp_take w c).
  - destruct (act job (world c)) as [[r w']|] eqn:Ea; [|done]. injection E as <-. by apply (bp_exec w c _ _ _ job).
  - destruct (ops c !! i) as [o|] eqn:Eo; [|done]. injection E as <-. by apply bp_finish.
Qed.

Lemma bp_step w l c c' : inv w c -> step l c = Some c' -> inv w c'.
Proof.
  intros H E. destruct l as [n|job|k|i|i]; simpl in E.
  - injection E as <-. by apply bp_init.
  - injection E as <-. by apply bp_spawn.
  - by apply (bp_worker w c k).
  - destruct (ops c !! i) as [o|] eqn:Eo; [|done]. cbn [mbind option_bind] in E. destruct (dropped o); [done|].
    destruct (taken o) as [t|] eqn:Et; [done|]. injection E as <-. unfold poll_op.
    destruct (value o) as [v|] eqn:Ev; apply (bp_op w c i o); try done.
    + intros r. rewrite Ev, Et. simpl. naive_solver.
    + intros Hr. by destruct (iv_registered _ _ H _ _ Eo Hr) as [? _]; congruence.
    + intros r. by rewrite Ev.
  - destruct (ops c !! i) as [o|] eqn:Eo; [|done]. injection E as <-. apply (bp_op w c i o); try done.
    intros Hr. by apply (iv_registered _ _ H _ _ Eo).
Qed.

Lemma bp_run w ls c c' : inv w c -> run ls c = Some c' -> inv w c'.
Proof.
  revert c. induction ls as [|l ls IH]; intros c H E; simpl in E; [by injection E as <-|].
  destruct (step l c) as [d|] eqn:Ed; [|done]. apply (IH d); [|done]. by apply (bp_step w l c).
Qed.

Lemma bp_log_grows ls c c' : run ls c = Some c' -> log c `prefix_of` log c'.
Proof.
  revert c. induction ls as [|l ls IH]; intros c E; simpl in E; [by injection E as <-|].
  destruct (step l c) as [d|] eqn:Ed; [|done]. transitivity (log d); [|by apply IH]. clear IH E.
  destruct l as [n|job|k|i|i]; simpl in Ed.
  - injection Ed as <-. unfold init. by destruct (workers c).
  - injection Ed as <-. unfold spawn_blocking, init. by destruct (workers c).
  - unfold worker_step in Ed. destruct (workers c) as [ws|]; [|done]. cbn [mbind option_bind] in Ed.
    destruct (ws !! k) as [[|i job|i r]|]; [..|done]; cbn [mbind option_bind] in Ed.
    + destruct (queue c) as [|[i job] q]; [done|]. by injection Ed as <-.
    + destruct (act job (world c)) as [[r w']|]; [|done]. injection Ed as <-. by apply prefix_app_r.
    + destruct (ops c !! i) as [o|]; [|done]. by injection Ed as <-.
  - destruct (ops c !! i) as [o|]; [|done]. cbn [mbind option_bind] in Ed. destruct (_ || _); [done|]. by injection Ed as <-.
  - destruct (ops c !! i) as [o|]; [|done]. by injection Ed as <-.
Qed.

(** C37.  The pool runs every job at most once, and what the tasks see is what a direct execution of the blocking calls in one order,
    the log's, would have given: the world is that of the calls of the log, an operation returns the result of its own
    job's call, a call is in the log before its result can be seen, and the log only grows, so
    calls keep the order in which one was answered and the next requested.  A call overtakes fewer calls that were requested before
    it than there are threads; with a single thread the log is the order of the requests. *)
Theorem blocking_pool_linearizes (w : W) (ls : list label) (c : conf) : run ls (fresh w) = Some c ->
  replays w (log c) (world c) /\ NoDup (e_op <$> log c) /\
  (forall i o r, ops c !! i = Some o -> value o = Some r \/ taken o = Some r -> Entry i (job_of o) r ∈ log c) /\
  (forall p e, log c !! p = Some e ->
     (e_op e < p + length (threads c))%nat /\ exists o, ops c !! e_op e = Some o /\ job_of o = e_job e) /\
  (forall ls' c', run ls' c = Some c' -> log c `prefix_of` log c').
Proof.
  intros E. pose proof (bp_run _ _ _ _ (bp_fresh w) E) as H. split_and!.
  - apply H.
  - apply bp_nodup in H. by apply NoDup_app in H as (? & _).
  - apply H.
  - intros p e He. split; [by apply (iv_bound _ _ H)|]. apply (iv_jobs _ _ H). right. right. exists (e_result e).
    apply list_elem_of_lookup_2 in He. by destruct e.
  - intros ls' c'. apply bp_log_grows.
Qed.

(** ** Progress *)

Definition weight (wk : worker) : nat := match wk with Receiving => 0 | Running _ _ => 2 | Finishing _ _ => 1 end.

(** The steps left to the threads. *)
Definition work (c : conf) : nat := (3 * length (queue c) + sum_list_with weight (threads c))%nat.

Lemma bp_work k c c' : worker_step k c = Some c' -> work c = S (work c').
Proof.
  intros E. unfold worker_step in E. unfold work, threads. destruct (workers c) as [ws|] eqn:Ew; [|done].
  cbn [mbind option_bind] in E. destruct (ws !! k) as [[|i job|i r]|] eqn:Ek; [..|done]; cbn [mbind option_bind] in E.
  - destruct (queue c) as [|[i job] q] eqn:Eq; [done|]. injection E as <-. cbn [workers queue default from_option id length].
    pose proof (sum_insert weight ws k _ (Running i job) Ek) as S1. cbn [weight] in S1. lia.
  - destruct (act job (world c)) as [[r w']|] eqn:Ea; [|done]. injection E as <-. cbn [workers queue default from_option id].
    pose proof (sum_insert weight ws k _ (Finishing i r) Ek) as S1. cbn [weight] in S1. lia.
  - destruct (ops c !! i) as [o|] eqn:Eo; [|done]. injection E as <-.
    cbn [with_op with_workers workers queue default from_option id].
    pose proof (sum_insert weight ws k _ Receiving Ek) as S1. cbn [weight] in S1. lia.
Qed.

Lemma bp_work_run ks c c' : run (LWorker <$> ks) c = Some c' -> (length ks + work c' = work c)%nat.
Proof.
  revert c. induction ks as [|k ks IH]; intros c E; simpl in E; [by injection E as <-|].
  destruct (worker_step k c) as [d|] eqn:Ed; [|done]. apply IH in E. apply bp_work in Ed. simpl. lia.
Qed.

(** A job whose call would block. *)
Definition blocked (c : conf) (wk : worker) : Prop := exists i job, wk = Running i job /\ act job (world c) = None.

Lemma bp_stuck w c k wk : inv w c -> threads c !! k = Some wk -> worker_step k c = None ->
  blocked c wk \/ (wk = Receiving /\ queue c = []).
Proof.
  intros H Hk E. unfold worker_step in E. unfold threads in *. destruct (workers c) as [ws|] eqn:Ew; [|done].
  cbn [mbind option_bind default from_option id] in *. rewrite Hk in E. destruct wk as [|i job|i r]; cbn [mbind option_bind] in E.
  - right. by destruct (queue c) as [|[i job] q].
  - left. exists i, job. split; [done|]. by destruct (act job (world c)) as [[]|].
  - destruct (iv_finishing _ _ H k i r) as [(o & Ho & _) _]; [unfold threads; by rewrite Ew|]. by rewrite Ho in E.
Qed.

(** Every operation is answered as far as the calls allow: the threads come to rest after exactly [work c] steps, and then
    an operation has its value, with no waker left registered, or has returned it, unless its call blocks or it is in the queue
    behind calls that block in every thread. *)
Theorem blocking_pool_answers (w : W) (ls : list label) (c c' : conf) (ks : list nat) :
  run ls (fresh w) = Some c -> run (LWorker <$> ks) c = Some c' ->
  (length ks + work c' = work c)%nat /\
  ((forall k, worker_step k c' = None) -> forall i o, ops c' !! i = Some o ->
     (value o <> None /\ registered o = false) \/ taken o <> None \/
     (Running i (job_of o) ∈ threads c' /\ act (job_of o) (world c') = None) \/
     (i ∈ (queue c').*1 /\ Forall (blocked c') (threads c'))).
Proof.
  intros E1 E2. split; [by apply bp_work_run|]. intros Hs i o Ho.
  assert (inv w c') as H by (apply (bp_run w (LWorker <$> ks) c); [|done]; apply (bp_run w ls (fresh w)); [apply bp_fresh|done]).
  assert (i ∈ seq 0 (length (ops c'))) as Hi by (apply elem_of_seq; apply lookup_lt_Some in Ho; lia).
  rewrite <- (iv_ids _ _ H) in Hi. apply elem_of_app in Hi as [Hi|[Hi|Hi]%elem_of_app].
  - apply list_elem_of_fmap in Hi as ([i' job r] & -> & Hl). simpl in Ho.
    destruct (iv_answered _ _ H _ _ _ Hl) as [Hf|(x & Hx & Hv)].
    + apply list_elem_of_lookup in Hf as [k Hk].
      destruct (bp_stuck _ _ _ _ H Hk (Hs k)) as [(? & ? & ? & _)|[? _]]; done.
    + assert (x = o) as -> by congruence. destruct Hv as [Hv|Hv]; [left|right; left; by rewrite Hv].
      split; [by rewrite Hv|]. destruct (registered o) eqn:Er; [|done].
      destruct (iv_registered _ _ H _ _ Ho Er). congruence.
  - right. right. left. apply list_elem_of_bind in Hi as ([|i' job|] & Hi & Hr); simpl in Hi; try by apply not_elem_of_nil in Hi.
    apply list_elem_of_singleton in Hi as <-.
    destruct (iv_jobs _ _ H i job) as (x & Hx & <-); [right; by left|]. assert (x = o) as -> by congruence. split; [done|].
    apply list_elem_of_lookup in Hr as [k Hk].
    destruct (bp_stuck _ _ _ _ H Hk (Hs k)) as [(? & ? & [= <- <-] & ?)|[? _]]; done.
  - right. right. right. split; [done|]. apply Forall_lookup. intros k wk Hk.
    destruct (bp_stuck _ _ _ _ H Hk (Hs k)) as [?|[_ Hq]]; [done|]. rewrite Hq in Hi. by apply not_elem_of_nil in Hi.
Qed.

End pool.

Arguments worker J R : clear implicits.
Arguments BlockingOp J R : clear implicits.
Arguments entry J R : clear implicits.
Arguments conf J R W : clear implicits.
Arguments label J : clear implicits.

Section job.
Context {J R W : Type} (act : J -> W -> option (R * W)).

(** The job of an operation never changes. *)
Lemma bp_job_kept ls (c c' : conf J R W) i job : job_at c i job -> run act ls c = Some c' -> job_at c' i job.
Proof.
  revert c. induction ls as [|l ls IH]; intros c H E; simpl in E; [by injection E as <-|].
  destruct (step act l c) as [d|] eqn:Ed; [|done]. apply (IH d); [|done]. clear IH E. destruct H as (o & Ho & Hj).
  assert (forall k x x', ops c !! k = Some x -> job_of x' = job_of x -> job_at (with_op k x' c) i job) as Hop.
  { intros k x x' Hk E. destruct (decide (k = i)) as [->|Hne].
    - exists x'. simpl. rewrite list_lookup_insert_eq by (by eapply lookup_lt_Some). split; [done|]. congruence.
    - exists o. simpl. by rewrite list_lookup_insert_ne. }
  destruct l as [n|j|k|k|k]; simpl in Ed.
  - injection Ed as <-. unfold init. destruct (workers c); by exists o.
  - injection Ed as <-. exists o. split; [|done].
    unfold spawn_blocking, init. destruct (workers c); simpl; by apply lookup_app_l_Some.
  - unfold worker_step in Ed. destruct (workers c) as [ws|]; [|done]. cbn [mbind option_bind] in Ed.
    destruct (ws !! k) as [[|n j|n r]|]; [..|done]; cbn [mbind option_bind] in Ed.
    + destruct (queue c) as [|[n j] q]; [done|]. injection Ed as <-. by exists o.
    + destruct (act j (world c)) as [[r w']|]; [|done]. injection Ed as <-. by exists o.
    + destruct (ops c !! n) as [x|] eqn:Ex; [|done]. injection Ed as <-. by apply (Hop n x).
  - destruct (ops c !! k) as [x|] eqn:Ex; [|done]. cbn [mbind option_bind] in Ed. destruct (_ || _); [done|]. injection Ed as <-.
    apply (Hop k x); [done|]. unfold poll_op. by destruct (value x).
  - destruct (ops c !! k) as [x|] eqn:Ex; [|done]. injection Ed as <-. by apply (Hop k x).
Qed.

Lemma bp_replayed w l w' e : replays act w l w' -> e ∈ l -> exists w1 w2, act (e_job e) w1 = Some (e_result e, w2).
Proof.
  induction 1 as [|w l w1 i job r w2 _ IH Ha]; intros He; [by apply not_elem_of_nil in He|].
  apply elem_of_app in He as [He|He]; [by apply IH|]. apply list_elem_of_singleton in He as ->. by exists w1, w2.
Qed.
End job.

(** ** Child processes (src/dtact-util/src/process/native.rs)

    The blocking calls of the standard library are parameters; [None] while they block. *)

Section process.
Context {H C W E X : Type}.                                      (* pipe ends, children, the world, errors, exit statuses *)
Context (sys_write : H -> list Byte.byte -> W -> option (result Z E * W)).
Context (sys_read : H -> list Byte.byte -> W -> option (result Z E * list Byte.byte * W)).
Context (sys_wait : C -> W -> option (result X E * W)).
Context (sys_wait_with_output : C -> W -> option (result (X * list Byte.byte * list Byte.byte) E * W)).

(** The closures, and what they return: a pipe end comes back with the result. *)
Inductive call :=
| CWrite (handle : H) (buf : list Byte.byte)
| CRead (handle : H) (buf : list Byte.byte)
| CWait (inner : C)
| CWaitWithOutput (inner : C).

Inductive answer :=
| AMoved (r : result (Z * list Byte.byte) E) (handle : H)
| AStatus (r : result X E)
| AOutput (r : result (X * list Byte.byte * list Byte.byte) E).

Definition with_buf (r : result Z E) (buf : list Byte.byte) : result (Z * list Byte.byte) E :=
  match r with Ok n => Ok (n, buf) | Err e => Err e end.

Definition closure (f : call) (w : W) : option (answer * W) :=
  match f with
  | CWrite h buf => '(r, w') ← sys_write h buf w; Some (AMoved (with_buf r buf) h, w')
  | CRead h buf => '(r, buf', w') ← sys_read h buf w; Some (AMoved (with_buf r buf') h, w')
  | CWait ch => '(r, w') ← sys_wait ch w; Some (AStatus r, w')
  | CWaitWithOutput ch => '(r, w') ← sys_wait_with_output ch w; Some (AOutput r, w')
  end.

(** [DtactChildStdin], [DtactChildStdout] and [DtactChildStderr]: an end that a call in flight has taken is [None]. *)
Definition pipe : Type := option H.

(** [take_stdin] and the like. *)
Definition take_pipe (inner : pipe) : option pipe * pipe := (Some <$> inner, None).

(** [write] and [read] up to the [await]: the operation, the pipe and the pool. *)
Definition begin_call (mk : H -> call) (p : pipe) (c : conf call answer W) : outcome (nat * pipe * conf call answer W) :=
  match p with
  | None => Panic
  | Some h => let '(i, c') := spawn_blocking (mk h) c in Done (i, None, c')
  end.
Definition write (buf : list Byte.byte) := begin_call (fun h => CWrite h buf).
Definition read (buf : list Byte.byte) := begin_call (fun h => CRead h buf).

(** A poll at the [await]. *)
Definition poll_call (i : nat) (p : pipe) (c : conf call answer W)
  : option (Poll (result (Z * list Byte.byte) E) * pipe * conf call answer W) :=
  o ← ops c !! i;
  match poll_op o with
  | (Ready (AMoved r h), o') => Some (Ready r, Some h, with_op i o' c)
  | (Ready _, _) => None
  | (Pending, o') => Some (Pending, p, with_op i o' c)
  end.

(** [wait] and [wait_with_output]. *)
Definition wait (inner : C) (c : conf call answer W) := spawn_blocking (CWait inner) c.
Definition wait_with_output (inner : C) (c : conf call answer W) := spawn_blocking (CWaitWithOutput inner) c.

(** A pipe end makes the round trip through the pool: a call on an end takes it, and whatever else goes on
    in the pool until the future is polled, when the poll is ready the end is back and the result is that of one blocking call with this
    end and this buffer.  Until then, and for ever when the future is dropped before it is ready, the end is
    missing, and the next call on it panics. *)
Theorem pipe_end_comes_back (w : W) (ls0 ls : list (label call)) (h : H) (mk : H -> call) (c0 c1 c : conf call answer W)
    (i : nat) (p1 : pipe) :
  (exists buf, mk = (fun h => CWrite h buf) \/ mk = (fun h => CRead h buf)) ->
  run closure ls0 (fresh w) = Some c0 -> begin_call mk (Some h) c0 = Done (i, p1, c1) -> run closure ls c1 = Some c ->
  p1 = None /\
  (forall r p2 c2, poll_call i p1 c = Some (Ready r, p2, c2) ->
     p2 = Some h /\ Entry i (mk h) (AMoved r h) ∈ log c /\
     exists w1 w2, closure (mk h) w1 = Some (AMoved r h, w2)) /\
  (forall p2 c2, poll_call i p1 c = Some (Pending, p2, c2) -> p2 = None) /\
  (forall mk' c', begin_call mk' p1 c' = Panic).
Proof.
  intros (buf & Hmk) E0 E1 E2. unfold begin_call, spawn_blocking in E1. injection E1 as <- <- Ec1.
  set (i := length (ops (init 4 c0))) in *.
  assert (inv closure w c1) as Hinv.
  { rewrite <- Ec1. exact (bp_spawn closure w (mk h) c0 (bp_run closure w ls0 _ _ (bp_fresh closure w) E0)). }
  assert (job_at c i (mk h)) as (o & Ho & Ej).
  { apply (bp_job_kept closure ls c1); [|done]. rewrite <- Ec1. eexists. split; [apply list_lookup_middle|]; done. }
  pose proof (bp_run closure w ls _ _ Hinv E2) as Hc. split_and!; [done| | |done].
  - intros r p2 c2 Ep. unfold poll_call in Ep. rewrite Ho in Ep. cbn [mbind option_bind] in Ep. unfold poll_op in Ep.
    destruct (value o) as [[r' h'| |]|] eqn:Ev; try done. injection Ep as -> <- _.
    pose proof (iv_values _ _ _ Hc i o _ Ho (or_introl Ev)) as Hl. rewrite Ej in Hl.
    destruct (bp_replayed closure _ _ _ _ (iv_replay _ _ _ Hc) Hl) as (w1 & w2 & Ha). simpl in Ha.
    assert (h' = h) as ->; [|by eauto].
    destruct Hmk as [-> | ->]; simpl in Ha.
    + destruct (sys_write h buf w1) as [[]|]; simpl in Ha; congruence.
    + destruct (sys_read h buf w1) as [[[]]|]; simpl in Ha; congruence.
  - intros p2 c2 Ep. unfold poll_call in Ep. rewrite Ho in Ep. cbn [mbind option_bind] in Ep. unfold poll_op in Ep.
    destruct (value o) as [[r' h'| |]|] eqn:Ev; try done. by injection Ep as <- _.
Qed.
End process.

Arguments call H C : clear implicits.
Arguments answer H E X : clear implicits.

(** *** Children that wait for a byte of input *)

(** The world: the children that got their input and so have exited. *)
Definition demo_write (h : nat) (buf : list Byte.byte) (w : list nat) : option (result Z unit * list nat) :=
  Some (Ok (Z.of_nat (length buf)), h :: w).
Definition demo_read (h : nat) (buf : list Byte.byte) (w : list nat) : option (result Z unit * list Byte.byte * list nat) :=
  if bool_decide (h ∈ w) then Some (Ok 0, buf, w) else None.
Definition demo_wait (ch : nat) (w : list nat) : option (result Z unit * list nat) :=
  if bool_decide (ch ∈ w) then Some (Ok 0, w) else None.
Definition demo_output (ch : nat) (w : list nat) : option (result (Z * list Byte.byte * list Byte.byte) unit * list nat) :=
  if bool_decide (ch ∈ w) then Some (Ok (0, [], []), w) else None.
Definition demo : call nat nat -> list nat -> option (answer nat unit Z * list nat) :=
  closure demo_write demo_read demo_wait demo_output.

(** The threads of the default pool wait for four children each of which needs the input that is in the queue behind them. *)
Definition four_waits : list (label (call nat nat)) :=
  [LSpawn (CWait 0); LSpawn (CWait 1); LSpawn (CWait 2); LSpawn (CWait 3); LWorker 0; LWorker 1; LWorker 2; LWorker 3;
   LSpawn (CWrite 0 [Byte.x0a])]%nat.

(** Waiting for as many children as the pool has threads starves every other call: the write that would let a child exit is never made,
    though it would not block, and none of the five operations is ever answered. *)
Theorem waits_starve_writes : exists c, run demo four_waits (fresh []) = Some c /\
  (queue c).*2 = [CWrite 0%nat [Byte.x0a]] /\ demo (CWrite 0%nat [Byte.x0a]) (world c) <> None /\
  forall ks c', run demo (LWorker <$> ks) c = Some c' -> c' = c.
Proof.
  destruct (run demo four_waits (fresh [])) as [c|] eqn:E; [|by vm_compute in E].
  exists c. vm_compute in E. injection E as <-. split_and!; [done|done|done|].
  intros [|k ks] c' E; simpl in E; [by injection E as <-|].
  do 4 (destruct k as [|k]; [done|]). done.
Qed.

(** A pool of one thread: two writes are made in their order. *)
Definition two_writes : list (label (call nat nat)) :=
  [LInit 1; LSpawn (CWrite 0 [Byte.x61]); LSpawn (CWrite 1 [Byte.x62]); LWorker 0; LWorker 0; LWorker 0; LPoll 0;
   LWorker 0; LWorker 0; LWorker 0; LPoll 1]%nat.

Lemma blocking_pool_linearizes_witness : exists c, run demo two_writes (fresh []) = Some c /\
  e_op <$> log c = [0%nat; 1%nat] /\ replays demo [] (log c) (world c).
Proof.
  destruct (run demo two_writes (fresh [])) as [c|] eqn:E; [|by vm_compute in E].
  pose proof (blocking_pool_linearizes demo [] two_writes c E) as (Hr & _). vm_compute in E.
  exists c. split; [done|]. split; [by injection E as <-|done].
Defined.

Lemma blocking_pool_answers_witness : exists c c',
  run demo (take 3 two_writes) (fresh []) = Some c /\
  run demo (LWorker <$> replicate 6 0%nat) c = Some c' /\ work c = 6%nat /\ work c' = 0%nat.
Proof.
  destruct (run demo (take 3 two_writes) (fresh [])) as [c|] eqn:E; [|by vm_compute in E].
  destruct (run demo (LWorker <$> replicate 6 0%nat) c) as [c'|] eqn:E';
    [|vm_compute in E; injection E as <-; by vm_compute in E'].
  pose proof (blocking_pool_answers demo [] _ c c' _ E E') as [Hw _]. exists c, c'. split_and!; [done|done| |].
  - vm_compute in E. by injection E as <-.
  - assert (work c = 6%nat) as Hc by (vm_compute in E; by injection E as <-). rewrite Hc in Hw. simpl in Hw. lia.
Defined.

(** The write returns the end. *)
Lemma pipe_end_comes_back_witness : exists c1 c r p2 c2,
  write (C := nat) (X := Z) (E := unit) [Byte.x61] (Some 5%nat) (fresh []) = Done (0%nat, None, c1) /\
  run demo [LPoll 0; LWorker 2; LWorker 2; LWorker 2] c1 = Some c /\
  poll_call 0 None c = Some (Ready r, p2, c2) /\ p2 = Some 5%nat.
Proof.
  destruct (write (C := nat) (X := Z) (E := unit) [Byte.x61] (Some 5%nat) (fresh (W := list nat) [])) as [[[i p1] c1]| |] eqn:E1;
    [|done..].
  destruct (run demo [LPoll 0; LWorker 2; LWorker 2; LWorker 2] c1) as [c|] eqn:E2;
    [|vm_compute in E1; injection E1 as <- <- <-; by vm_compute in E2].
  pose proof (pipe_end_comes_back demo_write demo_read demo_wait demo_output [] []
    [LPoll 0; LWorker 2; LWorker 2; LWorker 2] 5%nat (fun h => CWrite h [Byte.x61]) (fresh []) c1 c i p1
    (ex_intro _ [Byte.x61] (or_introl eq_refl)) eq_refl E1 E2) as (-> & Hr & _).
  assert (i = 0%nat) as -> by (vm_compute in E1; by injection E1).
  destruct (poll_call 0 None c) as [[[[r|] p2] c2]|] eqn:Ep.
  - exists c1, c, r, p2, c2. split_and!; [done|done|done|]. by destruct (Hr r p2 c2 eq_refl).
  - vm_compute in E1. injection E1 as <-. vm_compute in E2. injection E2 as <-. by vm_compute in Ep.
  - vm_compute in E1. injection E1 as <-. vm_compute in E2. injection E2 as <-. by vm_compute in Ep.
Defined.

(** ** Files (src/dtact-util/src/fs/native.rs)

    [DtactFile] holds its file under a mutex, which a call holds from its beginning to its end; the calls of the standard library on the
    file and the system are parameters. *)

Section file.
Context {F W A : Type}.                                          (* files, the system, what the calls answer *)
Context (file_read file_write : F -> list Byte.byte -> W -> A * F * W).
Context (file_read_at : F -> list Byte.byte -> Z -> W -> A * W).
Context (file_write_at : F -> list Byte.byte -> Z -> W -> A * W).
Context (file_sync_all file_metadata : F -> W -> A * W).
Context (fs : Type) (std_fs : fs -> W -> A * W).                 (* the functions on paths *)

Inductive file_call :=
| FRead (buf : list Byte.byte) | FWrite (buf : list Byte.byte)
| FReadAt (buf : list Byte.byte) (offset : Z) | FWriteAt (buf : list Byte.byte) (offset : Z)
| FSyncAll | FMetadata | FClose.

(** A call on the handle [h], or a function on paths. *)
Inductive fs_job := OnFile (h : nat) (f : file_call) | OnPath (f : fs).
Inductive fs_answer := Answer (a : A) | AlreadyClosed | Closed.

(** [inner] of every handle, and the system. *)
Record disk := Disk { files : gmap nat (option F); system : W }.
Definition set_file (h : nat) (f : option F) (w : W) (d : disk) : disk := Disk (<[h := f]> (files d)) w.

Definition on_file (f : file_call) (file : F) (w : W) : fs_answer * option F * W :=
  match f with
  | FRead buf => let '(a, f', w') := file_read file buf w in (Answer a, Some f', w')
  | FWrite buf => let '(a, f', w') := file_write file buf w in (Answer a, Some f', w')
  | FReadAt buf off => let '(a, w') := file_read_at file buf off w in (Answer a, Some file, w')
  | FWriteAt buf off => let '(a, w') := file_write_at file buf off w in (Answer a, Some file, w')
  | FSyncAll => let '(a, w') := file_sync_all file w in (Answer a, Some file, w')
  | FMetadata => let '(a, w') := file_metadata file w in (Answer a, Some file, w')
  | FClose => (Closed, None, w)
  end.

Definition fs_closure (j : fs_job) (d : disk) : option (fs_answer * disk) :=
  match j with
  | OnPath f => let '(a, w') := std_fs f (system d) in Some (Answer a, Disk (files d) w')
  | OnFile h f =>
      inner ← files d !! h;
      match inner with
      | Some file => let '(a, file', w') := on_file f file (system d) in Some (a, set_file h file' w' d)
      | None => Some (match f with FClose => Closed | _ => AlreadyClosed end, d)
      end
  end.

(** As long as nobody closes a file, no call on it is told that it is closed, whatever else the pool does. *)
Lemma open_file_answers (w w' : disk) (l : list (entry fs_job fs_answer)) (h : nat) (f : F) :
  replays fs_closure w l w' -> files w !! h = Some (Some f) -> (forall e, e ∈ l -> e_job e <> OnFile h FClose) ->
  (exists f', files w' !! h = Some (Some f')) /\
  forall e g, e ∈ l -> e_job e = OnFile h g -> exists a, e_result e = Answer a.
Proof.
  intros Hr Hf. induction Hr as [w|w l w1 i job r w2 Hr IH Ha]; intros Hno.
  - split; [by exists f|]. intros e g He. by apply not_elem_of_nil in He.
  - destruct (IH Hf) as [[f1 Hf1] Hl]; [intros e He; apply Hno, elem_of_app; by left|].
    assert (job <> OnFile h FClose) as Hj.
    { apply (Hno (Entry i job r)), elem_of_app. right. by left. }
    assert ((exists f', files w2 !! h = Some (Some f')) /\ forall g, job = OnFile h g -> exists a, r = Answer a) as [H1 H2].
    { destruct job as [k g|p]; simpl in Ha.
      - destruct (files w1 !! k) as [inner|] eqn:Ek; [|done]. cbn [mbind option_bind] in Ha.
        destruct (decide (k = h)) as [->|Hne].
        + assert (inner = Some f1) as -> by congruence.
          destruct g; simpl in Ha; repeat (destruct (file_read _ _ _) as [[? ?] ?] || destruct (file_write _ _ _) as [[? ?] ?] ||
            destruct (file_read_at _ _ _ _) || destruct (file_write_at _ _ _ _) || destruct (file_sync_all _ _) ||
            destruct (file_metadata _ _)); try done;
            injection Ha as <- <-; (split; [eexists; apply lookup_insert_eq|by eexists]).
        + split; [|congruence]. destruct inner as [file|]; [|injection Ha as <- <-; by exists f1].
          destruct (on_file g file (system w1)) as [[a file'] w'']. injection Ha as <- <-. exists f1. simpl.
          by rewrite lookup_insert_ne.
      - destruct (std_fs p (system w1)). injection Ha as <- <-. split; [by exists f1|done]. }
    split; [done|]. intros e g He Hg. apply elem_of_app in He as [He|He]; [by apply (Hl e g)|].
    apply list_elem_of_singleton in He as ->. by apply (H2 g).
Qed.
End file.

End BlockingPool.
