(* ===== verification/Sockets.v ===== *)
(** * Sockets

    The socket types of src/dtact-util/src/io/native.rs: [DtactTcpStream], [DtactTcpListener], [DtactUdpSocket],
    [DtactUnixStream], [DtactUnixListener], [DtactUnixDatagram] and the two ends of a FIFO.  Every operation is one system call
    on a non-blocking descriptor, followed by an operation of the driver when the call would have blocked.

    The kernel's calls and the driver's operations (IoRequests.v, IoSlots.v, MioReactor.v) are parameters.  A call returns its result or
    the error number; what it leaves in the caller's buffer is part of the result.  Addresses are laid out as in
    SockAddr.v. *)

From S2P Require Import Prelude SockAddr BufIO.
Import SockAddr (SocketAddr).

Module Sockets.

(** Error numbers and events of Linux. *)
Definition EAGAIN : Z := 11.
Definition EINPROGRESS : Z := 115.
Definition ECONNREFUSED : Z := 111.
Definition EALREADY : Z := 114.
Definition POLLOUT : Z := 0x4.
Definition POLLERR : Z := 0x8.
Definition POLLHUP : Z := 0x10.

Definition AF_UNIX : Z := SockAddr.AF_UNIX.
Definition SOCK_FLAGS : Z := 0x80801.                            (* SOCK_STREAM | SOCK_CLOEXEC | SOCK_NONBLOCK *)

(** An [io::Error]: an error number, or one the code makes itself. *)
Inductive error := Os (errno : Z) | ConnectionRefused | InvalidInput.
Definition would_block (e : Z) : bool := e =? EAGAIN.

(** ** The kernel and the driver *)

Record Kernel (S : Type) := {
  k_socket : Z -> Z -> S -> result Z Z * S;                      (* domain, type *)
  k_connect : Z -> list Z * Z -> S -> result Z Z * S;
  k_poll : Z -> S -> result Z Z * S;                             (* the events, none if it answers 0 *)
  k_so_error : Z -> S -> result Z Z * S;
  k_accept : Z -> S -> result (Z * list Z * Z) Z * S;            (* descriptor, address and its length *)
  k_accept4 : Z -> S -> result Z Z * S;
  k_read : Z -> Z -> S -> result (list Z) Z * S;
  k_write : Z -> list Z -> S -> result Z Z * S;
  k_recv : Z -> Z -> S -> result (list Z) Z * S;
  k_send : Z -> list Z -> S -> result Z Z * S;
  k_recvmsg : Z -> Z -> S -> result (list Z * list Z * Z) Z * S; (* the bytes, the sender's address and its length *)
  k_sendmsg : Z -> list Z * Z -> list Z -> S -> result Z Z * S;
  k_set_nonblocking : Z -> S -> result unit Z * S;
  k_set_nodelay : Z -> S -> result unit Z * S;
  k_getpeername : Z -> S -> result (list Z * Z) Z * S;
  k_close : Z -> S -> S
}.
Arguments k_socket {S}. Arguments k_connect {S}. Arguments k_poll {S}. Arguments k_so_error {S}. Arguments k_accept {S}.
Arguments k_accept4 {S}. Arguments k_read {S}. Arguments k_write {S}. Arguments k_recv {S}. Arguments k_send {S}.
Arguments k_recvmsg {S}. Arguments k_sendmsg {S}. Arguments k_set_nonblocking {S}. Arguments k_set_nodelay {S}.
Arguments k_getpeername {S}. Arguments k_close {S}.

(** A [DtactIoFuture] that is awaited, for each [OpCode]. *)
Record Driver (S : Type) := {
  d_read : Z -> Z -> S -> result (list Z) Z * S;
  d_write : Z -> list Z -> S -> result Z Z * S;
  d_accept : Z -> S -> result Z Z * S;
  d_connect : Z -> list Z * Z -> S -> result Z Z * S;
  d_send_to : Z -> list Z * Z -> list Z -> S -> result Z Z * S;
  d_recv_from : Z -> Z -> S -> result (list Z * list Z * Z) Z * S
}.
Arguments d_read {S}. Arguments d_write {S}. Arguments d_accept {S}. Arguments d_connect {S}.
Arguments d_send_to {S}. Arguments d_recv_from {S}.

Section code.
Context {S : Type} (K : Kernel S) (D : Driver S) (big : bool).
(** [GLOBAL_CONFIG] and [WORKERS], which [init_runtime] has set or not: the configured and the actual number of workers. *)
Context (config_workers workers_len : option Z).

Definition errno_of {A} (r : result A Z) : result A error := match r with Ok a => Ok a | Err e => Err (Os e) end.

(** ** The common shape *)

(** One direct attempt before going async. *)
Definition direct_first {A} (direct driver : S -> result A Z * S) (s : S) : result A Z * S :=
  let '(r, s1) := direct s in
  match r with
  | Ok a => (Ok a, s1)
  | Err e => if would_block e then driver s1 else (Err e, s1)
  end.

(** [.map(|n| n.min(buf.len()))] *)
Definition cut (len : Z) (x : result (list Z) Z * S) : result (list Z) Z * S :=
  let '(r, s) := x in (match r with Ok l => Ok (take (Z.to_nat len) l) | Err e => Err e end, s).

(** The worker of a descriptor; without workers in the configuration the remainder panics. *)
Definition worker_at (idx : Z) : outcome Z :=
  match workers_len with Some n => if idx <? n then Done idx else Panic | None => Panic end.
Definition worker_idx (fd : Z) : outcome Z :=
  let num_workers := default 1 config_workers in
  if num_workers =? 0 then Panic else worker_at (fd `mod` num_workers).

(** [WORKER_ROUND_ROBIN] *)
Definition round_robin (counter : Z) : outcome Z :=
  let num_workers := default 1 config_workers in
  if num_workers =? 0 then Panic else worker_at (counter `mod` num_workers).

(** A socket of any of the types: its descriptor and its worker. *)
Record socket := Socket { fd_of : Z; worker_of : Z }.

(** Dropping one closes the descriptor. *)
Definition drop_socket (sk : socket) (s : S) : S := k_close K (fd_of sk) s.

(** *** [DtactTcpStream] *)

(** [from_std] owns the descriptor: an error closes it. *)
Definition tcp_from_std (fd : Z) (s : S) : outcome (result socket error * S) :=
  let '(r1, s1) := k_set_nonblocking K fd s in
  match r1 with
  | Err e => Done (Err (Os e), k_close K fd s1)
  | Ok _ =>
      let '(r2, s2) := k_set_nodelay K fd s1 in
      match r2 with
      | Err e => Done (Err (Os e), k_close K fd s2)
      | Ok _ => idx ← worker_idx fd; Done (Ok (Socket fd idx), s2)
      end
  end.

Definition tcp_read (sk : socket) (len : Z) (s : S) : result (list Z) Z * S :=
  if len =? 0 then (Ok [], s) else direct_first (k_read K (fd_of sk) len) (fun s => cut len (d_read D (fd_of sk) len s)) s.

Definition tcp_write (sk : socket) (buf : list Z) (s : S) : result Z Z * S :=
  match buf with [] => (Ok 0, s) | _ => direct_first (k_write K (fd_of sk) buf) (d_write D (fd_of sk) buf) s end.

(** What [connect] does with its socket in the end. *)
Definition refused (fd : Z) (e : error) (s : S) : result socket error * S := (Err e, k_close K fd s).

(** From the direct attempt on. *)
Definition connect_socket (fd idx : Z) (addr : list Z * Z) (s : S) : result socket error * S :=
  let sk := Socket fd idx in
  let '(r, s1) := k_connect K fd addr s in
  match r with
  | Ok _ => (Ok sk, s1)
  | Err e =>
      if e =? EINPROGRESS then
        let '(p, s2) := k_poll K fd s1 in
        let revents := match p with Ok ev => ev | Err _ => 0 end in
        if negb (Z.land revents POLLOUT =? 0) then
          let '(r2, s3) := k_so_error K fd s2 in
          match r2 with
          | Ok err_code =>
              if err_code =? 0 then (Ok sk, s3) else refused fd (Os err_code) s3
          | Err _ => refused fd (Os ECONNREFUSED) s3
          end
        else if negb (Z.land revents (Z.lor POLLERR POLLHUP) =? 0) then refused fd ConnectionRefused s2
        else
          let '(r3, s3) := d_connect D fd addr s2 in
          match r3 with Ok _ => (Ok sk, s3) | Err e' => refused fd (Os e') s3 end
      else refused fd (Os e) s1
  end.

Definition domain_of (addr : SocketAddr) : Z :=
  match addr with SockAddr.V4 _ _ => SockAddr.AF_INET | SockAddr.V6 _ _ _ _ => SockAddr.AF_INET6 end.

Definition tcp_connect (addr : SocketAddr) (s : S) : outcome (result socket error * S) :=
  let '(r, s1) := k_socket K (domain_of addr) SOCK_FLAGS s in
  match r with
  | Err e => Done (Err (Os e), s1)
  | Ok fd =>
      let '(r2, s2) := k_set_nodelay K fd s1 in
      match r2 with
      | Err e => Done (refused fd (Os e) s2)
      | Ok _ => idx ← worker_idx fd; Done (connect_socket fd idx (SockAddr.socket_addr_to_libc big addr) s2)
      end
  end.

(** *** [DtactTcpListener] *)

Definition listener_from_std (fd : Z) (s : S) : outcome (result socket error * S) :=
  let '(r, s1) := k_set_nonblocking K fd s in
  match r with
  | Err e => Done (Err (Os e), k_close K fd s1)
  | Ok _ => idx ← worker_idx fd; Done (Ok (Socket fd idx), s1)
  end.

(** The result of [fcntl] is not looked at. *)
Definition set_flags (fd : Z) (s : S) : S := (k_set_nonblocking K fd s).2.

(** [DtactTcpStream::from_std(stream)?] with the peer's address. *)
Definition with_peer {A} (mk : Z -> S -> outcome (result socket error * S)) (fd : Z) (peer : A) (s : S)
  : outcome (result (socket * A) error * S) :=
  '(r, s') ← mk fd s;
  Done (match r with Ok sk => Ok (sk, peer) | Err e => Err e end, s').

Definition peer_addr (fd : Z) (s : S) : outcome (result SocketAddr error * S) :=
  let '(r, s1) := k_getpeername K fd s in
  match r with
  | Ok (addr, len) => a ← SockAddr.sockaddr_storage_to_socketaddr big addr len; Done (Ok a, s1)
  | Err e => Done (Err (Os e), s1)
  end.

Definition tcp_accept (l : socket) (s : S) : outcome (result (socket * SocketAddr) error * S) :=
  let '(r, s1) := k_accept K (fd_of l) s in
  match r with
  | Ok (fd, addr, len) =>
      a ← SockAddr.sockaddr_storage_to_socketaddr big addr len;
      with_peer tcp_from_std fd a (set_flags fd s1)
  | Err e =>
      if would_block e then
        let '(r2, s2) := d_accept D (fd_of l) s1 in
        match r2 with
        | Err e' => Done (Err (Os e'), s2)
        | Ok fd =>
            '(p, s3) ← peer_addr fd (set_flags fd s2);
            match p with
            | Err e' => Done (Err e', k_close K fd s3)
            | Ok a => with_peer tcp_from_std fd a s3
            end
        end
      else Done (Err (Os e), s1)
  end.

(** *** [DtactUdpSocket] *)

Definition udp_from_std := listener_from_std.

Definition udp_send_to (sk : socket) (buf : list Z) (target : SocketAddr) (s : S) : result Z Z * S :=
  let name := SockAddr.socket_addr_to_libc big target in
  direct_first (k_sendmsg K (fd_of sk) name buf) (d_send_to D (fd_of sk) name buf) s.

Definition udp_recv_from (sk : socket) (len : Z) (s : S) : outcome (result (list Z * SocketAddr) Z * S) :=
  let '(r, s1) := direct_first (k_recvmsg K (fd_of sk) len) (d_recv_from D (fd_of sk) len) s in
  match r with
  | Ok (l, storage, namelen) =>
      from ← SockAddr.sockaddr_storage_to_socketaddr big storage namelen; Done (Ok (l, from), s1)
  | Err e => Done (Err e, s1)
  end.

(** [send] and [recv], the same in [DtactUnixDatagram]. *)
Definition send (sk : socket) (buf : list Z) (s : S) : result Z Z * S :=
  match buf with [] => (Ok 0, s) | _ => direct_first (k_send K (fd_of sk) buf) (d_write D (fd_of sk) buf) s end.
Definition recv (sk : socket) (len : Z) (s : S) : result (list Z) Z * S :=
  if len =? 0 then (Ok [], s) else direct_first (k_recv K (fd_of sk) len) (d_read D (fd_of sk) len) s.

(** *** [DtactUnixStream], [DtactUnixListener] *)

(** [read_backpressured] and [write_backpressured]. *)
Record flags := Flags { rd_pressed : bool; wr_pressed : bool }.
Definition set_rd (b : bool) (f : flags) : flags := Flags b (wr_pressed f).
Definition set_wr (b : bool) (f : flags) : flags := Flags (rd_pressed f) b.

(** An operation up to its await: it has returned, or it waits for the driver.  A future dropped there
    leaves the flags as they are. *)
Inductive progress (A : Type) := Returned (r : result A Z) | Awaiting.
#[global] Arguments Returned {A} r.
#[global] Arguments Awaiting {A}.

(** The direct attempt, unless the flag says that the last one failed. *)
Definition attempt {A} (direct : S -> result A Z * S) (pressed : bool) (press : flags -> flags) (f : flags) (s : S)
  : progress A * flags * S :=
  if pressed then (Awaiting, f, s)
  else
    let '(r, s1) := direct s in
    match r with
    | Ok a => (Returned (Ok a), f, s1)
    | Err e => if would_block e then (Awaiting, press f, s1) else (Returned (Err e), f, s1)
    end.

Definition finish {A} (driver : S -> result A Z * S) (release : flags -> flags) (x : progress A * flags * S)
  : result A Z * flags * S :=
  match x with
  | (Returned r, f, s) => (r, f, s)
  | (Awaiting, f, s) => let '(r, s1) := driver s in (r, release f, s1)
  end.

Definition unix_read_start (sk : socket) (len : Z) (f : flags) (s : S) : progress (list Z) * flags * S :=
  if len =? 0 then (Returned (Ok []), f, s) else attempt (k_read K (fd_of sk) len) (rd_pressed f) (set_rd true) f s.
Definition unix_read (sk : socket) (len : Z) (f : flags) (s : S) : result (list Z) Z * flags * S :=
  finish (fun s => cut len (d_read D (fd_of sk) len s)) (set_rd false) (unix_read_start sk len f s).

(** [write] clears its flag before the await. *)
Definition unix_write_start (sk : socket) (buf : list Z) (f : flags) (s : S) : progress Z * flags * S :=
  match buf with
  | [] => (Returned (Ok 0), f, s)
  | _ =>
      match attempt (k_write K (fd_of sk) buf) (wr_pressed f) (set_wr true) f s with
      | (Awaiting, f1, s1) => (Awaiting, set_wr false f1, s1)
      | x => x
      end
  end.
Definition unix_write (sk : socket) (buf : list Z) (f : flags) (s : S) : result Z Z * flags * S :=
  finish (d_write D (fd_of sk) buf) id (unix_write_start sk buf f s).

(** [counter] is the value [fetch_add] has returned. *)
Definition unix_from_std (counter fd : Z) (s : S) : outcome (result socket error * S) :=
  let '(r, s1) := k_set_nonblocking K fd s in
  match r with
  | Err e => Done (Err (Os e), k_close K fd s1)
  | Ok _ => idx ← round_robin counter; Done (Ok (Socket fd idx), s1)
  end.

Definition unix_connect (path : list Z) (s : S) : outcome (result socket error * S) :=
  match SockAddr.unix_path_to_libc big path with
  | Err _ => Done (Err InvalidInput, s)
  | Ok addr =>
      let '(r, s1) := k_socket K AF_UNIX SOCK_FLAGS s in
      match r with
      | Err e => Done (Err (Os e), s1)
      | Ok fd => idx ← worker_idx fd; Done (connect_socket fd idx addr s1)
      end
  end.

(** [peer_addr] of the standard library, which parses the address itself. *)
Definition unix_adopt (counter fd : Z) (s : S) : outcome (result (socket * (list Z * Z)) error * S) :=
  let '(p, s1) := k_getpeername K fd s in
  match p with
  | Err e => Done (Err (Os e), k_close K fd s1)
  | Ok peer => with_peer (unix_from_std counter) fd peer s1
  end.

Definition unix_accept (l : socket) (counter : Z) (s : S) : outcome (result (socket * (list Z * Z)) error * S) :=
  let '(r, s1) := direct_first (k_accept4 K (fd_of l)) (d_accept D (fd_of l)) s in
  match r with Err e => Done (Err (Os e), s1) | Ok fd => unix_adopt counter fd s1 end.

(** *** [DtactUnixDatagram] *)

Definition dgram_send_to_start (sk : socket) (buf path : list Z) (f : flags) (s : S)
  : result (progress Z * list Z * Z) error * flags * S :=
  match SockAddr.unix_path_to_libc big path with
  | Err _ => (Err InvalidInput, f, s)
  | Ok (name, namelen) =>
      let '(p, f1, s1) := attempt (k_sendmsg K (fd_of sk) (name, namelen) buf) (wr_pressed f) (set_wr true) f s in
      (Ok (p, name, namelen), f1, s1)
  end.
Definition dgram_send_to (sk : socket) (buf path : list Z) (f : flags) (s : S) : result Z error * flags * S :=
  match dgram_send_to_start sk buf path f s with
  | (Err e, f1, s1) => (Err e, f1, s1)
  | (Ok (p, name, namelen), f1, s1) =>
      let '(r, f2, s2) := finish (d_send_to D (fd_of sk) (name, namelen) buf) (set_wr false) (p, f1, s1) in
      (errno_of r, f2, s2)
  end.

(** [fut.await?] returns an error with the flag still set. *)
Definition dgram_recv_from (sk : socket) (len : Z) (f : flags) (s : S) : result (list Z * option (list Z)) Z * flags * S :=
  match attempt (k_recvmsg K (fd_of sk) len) (rd_pressed f) (set_rd true) f s with
  | (Returned (Ok (l, storage, namelen)), f1, s1) => (Ok (l, SockAddr.sockaddr_un_to_addr storage namelen), f1, s1)
  | (Returned (Err e), f1, s1) => (Err e, f1, s1)
  | (Awaiting, f1, s1) =>
      match d_recv_from D (fd_of sk) len s1 with
      | (Ok (l, storage, namelen), s2) => (Ok (l, SockAddr.sockaddr_un_to_addr storage namelen), set_rd false f1, s2)
      | (Err e, s2) => (Err e, f1, s2)
      end
  end.

(** *** [DtactFifoReader], [DtactFifoWriter]: each has one of the flags *)

Definition fifo_read := unix_read.

Definition fifo_write (sk : socket) (buf : list Z) (f : flags) (s : S) : result Z Z * flags * S :=
  match buf with
  | [] => (Ok 0, f, s)
  | _ =>
      let capped s := let '(r, s') := d_write D (fd_of sk) buf s in
        (match r with Ok n => Ok (Z.min n (Z.of_nat (length buf))) | Err e => Err e end, s') in
      finish capped (set_wr false) (attempt (k_write K (fd_of sk) buf) (wr_pressed f) (set_wr true) f s)
  end.

(** The descriptor of a file the standard library has opened with [O_NONBLOCK]. *)
Definition open_fifo (opened : result Z Z) : outcome (result socket error) :=
  match opened with
  | Err e => Done (Err (Os e))
  | Ok fd => idx ← worker_idx fd; Done (Ok (Socket fd idx))
  end.

(** ** What the kernel and the driver promise

    [later] is what happens outside the task between two of its steps.  A call that would block changes nothing; the driver
    answers with the result of the same call, made at a time when it does not block.  [held] are the descriptors the task has
    obtained and not closed, [incoming] the bytes that a stream will still deliver and [outgoing] those it was given. *)

Definition one_call {A} (later : S -> S -> Prop) (call : S -> result A Z * S) (s : S) (r : result A Z) (s' : S) : Prop :=
  exists s1, later s s1 /\ call s1 = (r, s') /\ r <> Err EAGAIN.

Definition paired {A} (later : S -> S -> Prop) (direct driver : S -> result A Z * S) : Prop :=
  (forall s s', direct s = (Err EAGAIN, s') -> s' = s) /\
  (forall s r s', driver s = (r, s') -> one_call later direct s r s').

Record call_laws (later : S -> S -> Prop) : Prop := {
  later_refl : forall s, later s s;
  p_read : forall fd n, paired later (k_read K fd n) (d_read D fd n);
  p_recv : forall fd n, paired later (k_recv K fd n) (d_read D fd n);
  p_write : forall fd buf, paired later (k_write K fd buf) (d_write D fd buf);
  p_send : forall fd buf, paired later (k_send K fd buf) (d_write D fd buf);
  p_sendmsg : forall fd name buf, paired later (k_sendmsg K fd name buf) (d_send_to D fd name buf);
  p_recvmsg : forall fd n, paired later (k_recvmsg K fd n) (d_recv_from D fd n);
  read_fits : forall fd n s l s', k_read K fd n s = (Ok l, s') -> Z.of_nat (length l) <= Z.max 0 n;
  write_fits : forall fd buf s n s', k_write K fd buf s = (Ok n, s') -> 0 <= n <= Z.of_nat (length buf)
}.

Definition refines {A} (later : S -> S -> Prop) (impl call : S -> result A Z * S) : Prop :=
  forall s r s', impl s = (r, s') -> one_call later call s r s'.

(** An operation without the flags it leaves. *)
Definition plain {A B C} (x : A * B * C) : A * C := let '(a, _, c) := x in (a, c).

Section laws.
Context (later : S -> S -> Prop) (L : call_laws later).

Lemma sk_would_block e : would_block e = true <-> e = EAGAIN.
Proof. apply Z.eqb_eq. Qed.

Lemma sk_paired_direct {A} (direct driver : S -> result A Z * S) s r s' : paired later direct driver ->
  direct s = (r, s') -> r <> Err EAGAIN -> one_call later direct s r s'.
Proof. intros _ E Hr. exists s. split_and!; [apply (later_refl _ L)|done|done]. Qed.

Lemma sk_direct_first {A} (direct driver : S -> result A Z * S) : paired later direct driver ->
  refines later (direct_first direct driver) direct.
Proof.
  intros Hp s r s' E. unfold direct_first in E. destruct (direct s) as [[a|e] s1] eqn:Ed.
  - injection E as <- <-. by apply (sk_paired_direct _ driver).
  - destruct (would_block e) eqn:Ew.
    + apply sk_would_block in Ew as ->. rewrite (proj1 Hp _ _ Ed) in E. by apply Hp.
    + injection E as <- <-. apply (sk_paired_direct _ driver); [done..|]. intros [= ->]. by rewrite (proj2 (sk_would_block _)) in Ew.
Qed.

Lemma sk_attempt {A} (direct driver : S -> result A Z * S) pressed press release f : paired later direct driver ->
  refines later (fun s => plain (finish driver release (attempt direct pressed press f s))) direct.
Proof.
  intros Hp s r s' E. unfold attempt in E. destruct pressed; simpl in E.
  - destruct (driver s) as [r1 s1] eqn:Ed. injection E as <- <-. by apply Hp.
  - apply (sk_direct_first direct driver Hp). unfold direct_first. destruct (direct s) as [[a|e] s1] eqn:Ed; [done|].
    destruct (would_block e); simpl in E; [|done]. destruct (driver s1) as [r1 s2]. done.
Qed.

(** Bounds that the kernel keeps anyway. *)
Lemma sk_cut fd n : paired later (k_read K fd n) (fun s => cut n (d_read D fd n s)).
Proof.
  pose proof (p_read _ L fd n) as [H1 H2]. split; [done|]. intros s r s' E. unfold cut in E.
  destruct (d_read D fd n s) as [[l|e] s1] eqn:Ed; [|injection E as <- <-; by apply H2].
  destruct (H2 _ _ _ Ed) as (s0 & Hl & Ec & _). pose proof (read_fits _ L _ _ _ _ _ Ec).
  rewrite take_ge in E by lia. injection E as <- <-. by exists s0.
Qed.

Lemma sk_capped fd buf : paired later (k_write K fd buf) (fun s => let '(r, s') := d_write D fd buf s in
  (match r with Ok n => Ok (Z.min n (Z.of_nat (length buf))) | Err e => Err e end, s')).
Proof.
  pose proof (p_write _ L fd buf) as [H1 H2]. split; [done|]. intros s r s' E.
  destruct (d_write D fd buf s) as [[n|e] s1] eqn:Ed; [|injection E as <- <-; by apply H2].
  destruct (H2 _ _ _ Ed) as (s0 & Hl & Ec & _). pose proof (write_fits _ L _ _ _ _ _ Ec).
  rewrite Z.min_l in E by lia. injection E as <- <-. by exists s0.
Qed.

Lemma sk_tcp_read sk len : len <> 0 -> refines later (tcp_read sk len) (k_read K (fd_of sk) len).
Proof. intros Hl. unfold tcp_read. rewrite (proj2 (Z.eqb_neq len 0) Hl). apply sk_direct_first, sk_cut. Qed.

Lemma sk_tcp_write sk buf : buf <> [] -> refines later (tcp_write sk buf) (k_write K (fd_of sk) buf).
Proof. intros Hb. destruct buf; [done|]. apply sk_direct_first, (p_write _ L). Qed.


End laws.
(** ** Descriptors *)

Definition obtains {A} (held : S -> gset Z) (fd_in : A -> Z) (call : S -> result A Z * S) : Prop :=
  forall s r s', call s = (r, s') ->
    match r with Ok a => fd_in a ∉ held s /\ held s' = {[fd_in a]} ∪ held s | Err _ => held s' = held s end.
Definition keeps {A} (held : S -> gset Z) (call : S -> A * S) : Prop := forall s r s', call s = (r, s') -> held s' = held s.

Record fd_laws (held : S -> gset Z) : Prop := {
  h_socket : forall d t, obtains held id (k_socket K d t);
  h_accept : forall fd, obtains held (fun x => x.1.1) (k_accept K fd);
  h_accept4 : forall fd, obtains held id (k_accept4 K fd);
  h_d_accept : forall fd, obtains held id (d_accept D fd);
  h_close : forall fd s, held (k_close K fd s) = held s ∖ {[fd]};
  h_connect : forall fd a, keeps held (k_connect K fd a);
  h_d_connect : forall fd a, keeps held (d_connect D fd a);
  h_poll : forall fd, keeps held (k_poll K fd);
  h_so_error : forall fd, keeps held (k_so_error K fd);
  h_nonblocking : forall fd, keeps held (k_set_nonblocking K fd);
  h_nodelay : forall fd, keeps held (k_set_nodelay K fd);
  h_peername : forall fd, keeps held (k_getpeername K fd)
}.

Section descriptors.
Context (held : S -> gset Z) (H : fd_laws held).

(** A call that was given the descriptor [fd] returns it in a socket or has closed it. *)
Definition hands_over (fd : Z) (s : S) (x : result socket error * S) : Prop :=
  match x.1 with Ok sk => fd_of sk = fd /\ held x.2 = held s | Err _ => held x.2 = held s ∖ {[fd]} end.

Lemma sk_closes fd s0 s1 (e : error) : held s1 = held s0 -> hands_over fd s0 (refused fd e s1).
Proof. intros E. unfold hands_over, refused. simpl. by rewrite (h_close _ H), E. Qed.

Lemma sk_tcp_from_std fd s x : tcp_from_std fd s = Done x -> hands_over fd s x.
Proof.
  unfold tcp_from_std. destruct (k_set_nonblocking K fd s) as [[?|e] s1] eqn:E1; pose proof (h_nonblocking _ H _ _ _ _ E1) as H1.
  - destruct (k_set_nodelay K fd s1) as [[?|e] s2] eqn:E2; pose proof (h_nodelay _ H _ _ _ _ E2) as H2.
    + destruct (worker_idx fd) as [idx| |]; [|done..]. intros [= <-]. split; [done|]. simpl. congruence.
    + intros [= <-]. apply (sk_closes fd s s2). congruence.
  - intros [= <-]. by apply (sk_closes fd s s1).
Qed.

Lemma sk_plain_from_std (idx : outcome Z) fd s x :
  (let '(r, s1) := k_set_nonblocking K fd s in
   match r with
   | Err e => Done (Err (Os e), k_close K fd s1)
   | Ok _ => i ← idx; Done (Ok (Socket fd i), s1)
   end) = Done x -> hands_over fd s x.
Proof.
  destruct (k_set_nonblocking K fd s) as [[?|e] s1] eqn:E1; pose proof (h_nonblocking _ H _ _ _ _ E1) as H1.
  - destruct idx as [i| |]; [|done..]. by intros [= <-].
  - intros [= <-]. by apply (sk_closes fd s s1).
Qed.

Lemma sk_connect_socket fd idx a s : hands_over fd s (connect_socket fd idx a s).
Proof.
  unfold connect_socket. destruct (k_connect K fd a s) as [[?|e] s1] eqn:E1; pose proof (h_connect _ H _ _ _ _ _ E1) as H1; [done|].
  destruct (e =? EINPROGRESS); [|by apply sk_closes].
  destruct (k_poll K fd s1) as [ev s2] eqn:E2. pose proof (h_poll _ H _ _ _ _ E2) as H2.
  destruct (negb _).
  - destruct (k_so_error K fd s2) as [[c|?] s3] eqn:E3; pose proof (h_so_error _ H _ _ _ _ E3) as H3; [|apply sk_closes; congruence].
    destruct (c =? 0); [|apply sk_closes; congruence]. split; [done|]. simpl. congruence.
  - destruct (negb _); [apply sk_closes; congruence|].
    destruct (d_connect D fd a s2) as [[?|?] s3] eqn:E3; pose proof (h_d_connect _ H _ _ _ _ _ E3) as H3; [|apply sk_closes; congruence].
    split; [done|]. simpl. congruence.
Qed.

(** Nothing is left behind: [x] owns one new descriptor or none. *)
Definition owns (s : S) (r : result socket error) (s' : S) : Prop :=
  match r with Ok sk => fd_of sk ∉ held s /\ held s' = {[fd_of sk]} ∪ held s | Err _ => held s' = held s end.

Lemma sk_new fd s s1 x : fd ∉ held s -> held s1 = {[fd]} ∪ held s -> hands_over fd s1 x -> owns s x.1 x.2.
Proof.
  intros Hn E Hx. unfold hands_over, owns in *. destruct x as [[sk|e] s']; simpl in *.
  - destruct Hx as [-> ->]. done.
  - rewrite Hx, E. set_solver.
Qed.

Lemma sk_with_peer {A} mk fd (peer : A) s s1 x : fd ∉ held s -> held s1 = {[fd]} ∪ held s ->
  (forall s y, mk fd s = Done y -> hands_over fd s y) -> with_peer mk fd peer s1 = Done x ->
  owns s (match x.1 with Ok (sk, _) => Ok sk | Err e => Err e end) x.2.
Proof.
  intros Hn E Hmk Ex. unfold with_peer in Ex. destruct (mk fd s1) as [[r s']| |] eqn:Em; [|done..].
  injection Ex as <-. apply Hmk, (sk_new fd s s1 (r, s') Hn E) in Em. by destruct r.
Qed.

(** C31.  No descriptor is lost: connecting and accepting, for TCP and for Unix sockets and on every path through
    them, either return a socket that owns the one descriptor they have obtained, or an error, and then
    the task holds exactly the descriptors it held before; [from_std] keeps its descriptor in the socket or closes it. *)
Theorem descriptors_are_owned :
  (forall addr s r s', tcp_connect addr s = Done (r, s') -> owns s r s') /\
  (forall path s r s', unix_connect path s = Done (r, s') -> owns s r s') /\
  (forall l s x, tcp_accept l s = Done x -> owns s (match x.1 with Ok (sk, _) => Ok sk | Err e => Err e end) x.2) /\
  (forall l counter s x, unix_accept l counter s = Done x ->
     owns s (match x.1 with Ok (sk, _) => Ok sk | Err e => Err e end) x.2) /\
  (forall fd s x, tcp_from_std fd s = Done x -> hands_over fd s x) /\
  (forall fd s x, listener_from_std fd s = Done x -> hands_over fd s x) /\
  (forall counter fd s x, unix_from_std counter fd s = Done x -> hands_over fd s x).
Proof.
  split_and!; [| | | |apply sk_tcp_from_std|intros fd s x; apply sk_plain_from_std|intros c fd s x; apply sk_plain_from_std].
  - intros addr s r s' E. unfold tcp_connect in E. destruct (k_socket K _ _ s) as [[fd|e] s1] eqn:E1;
      apply (h_socket _ H) in E1; [|by injection E as <- <-].
    destruct E1 as [Hn E1]; unfold id in Hn, E1. destruct (k_set_nodelay K fd s1) as [[?|e] s2] eqn:E2; pose proof (h_nodelay _ H _ _ _ _ E2) as H2.
    + destruct (worker_idx fd) as [idx| |]; [|done..]. injection E as E.
      change (owns s (r, s').1 (r, s').2). rewrite <- E. apply (sk_new fd s s2); [done|congruence|apply sk_connect_socket].
    + injection E as <- <-. apply (sk_new fd s s1 (refused fd (Os e) s2)); [done..|by apply sk_closes].
  - intros path s r s' E. unfold unix_connect in E. destruct (SockAddr.unix_path_to_libc big path) as [a|e]; [|by injection E as <- <-].
    destruct (k_socket K _ _ s) as [[fd|e] s1] eqn:E1; apply (h_socket _ H) in E1; [|by injection E as <- <-].
    destruct E1 as [Hn E1]; unfold id in Hn, E1. destruct (worker_idx fd) as [idx| |]; [|done..]. injection E as E.
    change (owns s (r, s').1 (r, s').2). rewrite <- E. apply (sk_new fd s s1); [done|congruence|apply sk_connect_socket].
  - intros l s x E. unfold tcp_accept in E. destruct (k_accept K (fd_of l) s) as [[[[fd a] n]|e] s1] eqn:E1; apply (h_accept _ H) in E1.
    + destruct E1 as [Hn E1]; cbn [fst] in Hn, E1. destruct (SockAddr.sockaddr_storage_to_socketaddr big a n) as [peer| |]; [|done..].
      apply (sk_with_peer tcp_from_std fd peer s (set_flags fd s1)); [done| |apply sk_tcp_from_std|done].
      unfold set_flags. destruct (k_set_nonblocking K fd s1) eqn:E2. apply (h_nonblocking _ H) in E2. simpl. congruence.
    + destruct (would_block e); [|by injection E as <-].
      destruct (d_accept D (fd_of l) s1) as [[fd|e'] s2] eqn:E2; apply (h_d_accept _ H) in E2; [|injection E as <-; simpl; congruence].
      destruct E2 as [Hn E2]; unfold id in Hn, E2. assert (held (set_flags fd s2) = held s2) as Hf.
      { unfold set_flags. destruct (k_set_nonblocking K fd s2) eqn:E3. by apply (h_nonblocking _ H) in E3. }
      unfold peer_addr in E. destruct (k_getpeername K fd (set_flags fd s2)) as [[[a n]|e'] s3] eqn:E3;
        pose proof (h_peername _ H _ _ _ _ E3) as H3.
      * destruct (SockAddr.sockaddr_storage_to_socketaddr big a n) as [peer| |]; [|done..].
        apply (sk_with_peer tcp_from_std fd peer s s3); [congruence|simpl in *; congruence|apply sk_tcp_from_std|done].
      * injection E as <-. simpl. rewrite (h_close _ H), H3, Hf, E2, E1. unfold id in *. rewrite E1 in Hn. set_solver.
  - intros l c s x E. unfold unix_accept in E.
    assert (exists fd s1, unix_adopt c fd s1 = Done x /\ fd ∉ held s /\ held s1 = {[fd]} ∪ held s \/
              x = (Err (Os fd), s1) /\ held s1 = held s) as (fd & s1 & [(E1 & Hn & Eh)|[-> Eh]]).
    { unfold direct_first in E. destruct (k_accept4 K (fd_of l) s) as [[fd|e] s1] eqn:E1; apply (h_accept4 _ H) in E1.
      - exists fd, s1. left. destruct E1. by split_and!.
      - destruct (would_block e); [|exists e, s1; right; by injection E as <-].
        destruct (d_accept D (fd_of l) s1) as [[fd|e'] s2] eqn:E2; apply (h_d_accept _ H) in E2.
        + exists fd, s2. left. destruct E2. split_and!; [done|unfold id in *; congruence|unfold id in *; congruence].
        + exists e', s2. right. split; [by injection E as <-|congruence]. }
    2: done.
    unfold unix_adopt in E1. destruct (k_getpeername K fd s1) as [[p|e] s2] eqn:E2; pose proof (h_peername _ H _ _ _ _ E2) as H2.
    + apply (sk_with_peer (unix_from_std c) fd p s s2); [done|congruence|intros s0 y; apply sk_plain_from_std|done].
    + injection E1 as <-. simpl. rewrite (h_close _ H), H2, Eh. set_solver.
Qed.
End descriptors.

(** ** Connecting *)

(** What connect(2) says of a second call on a non-blocking socket, and that the driver makes that call. *)
Record connect_laws (later : S -> S -> Prop) (in_progress : Z -> S -> Prop) : Prop := {
  c_already : forall fd a s, in_progress fd s -> k_connect K fd a s = (Err EALREADY, s);
  c_driver : forall fd a s r s', d_connect D fd a s = (r, s') ->
    exists s1 r1 s2, later s s1 /\ k_connect K fd a s1 = (r1, s2) /\ (r1 = Err EALREADY -> r = r1)
}.

(** A connection that is not made at once fails: when the direct [connect] answers that it is in progress, the
    one poll sees nothing, and the peer has not answered before the driver issues its [connect] for the same socket, the
    result is the error EALREADY of this second call, for TCP and for Unix sockets; the connection that was under
    way is closed. *)
Theorem connect_in_progress_fails (later : S -> S -> Prop) (in_progress : Z -> S -> Prop) (fd idx : Z) (a : list Z * Z)
    (s s1 s2 : S) (ev : result Z Z) :
  connect_laws later in_progress ->
  k_connect K fd a s = (Err EINPROGRESS, s1) -> k_poll K fd s1 = (ev, s2) -> (ev = Ok 0 \/ exists e, ev = Err e) ->
  (forall s3, later s2 s3 -> in_progress fd s3) ->
  exists s3, connect_socket fd idx a s = (Err (Os EALREADY), k_close K fd s3).
Proof.
  intros L E1 E2 Hev Hp. unfold connect_socket. rewrite E1. cbv beta iota zeta. rewrite Z.eqb_refl, E2.
  assert (match ev with Ok e => e | Err _ => 0 end = 0) as -> by (by destruct Hev as [-> | [e ->]]).
  rewrite !Z.land_0_l. cbn [Z.eqb negb]. destruct (d_connect D fd a s2) as [r3 s3] eqn:E3.
  destruct (c_driver _ _ L _ _ _ _ _ E3) as (s4 & r4 & s5 & Hl & E4 & Hr).
  rewrite (c_already _ _ L _ _ _ (Hp _ Hl)) in E4. injection E4 as <- <-. rewrite Hr by done. by exists s3.
Qed.

(** ** The back-pressure flags *)

(** The flag of the write direction of a Unix stream is never set when another operation can see it: [write] clears it
    before it waits, not after, and so every write makes the direct attempt that the flag is there to save.  That of the
    read direction is set while a read waits, and stays set when the read is dropped. *)
Lemma unix_write_flag_is_never_set (sk : socket) (buf : list Z) (len : Z) (f : flags) (s : S) : wr_pressed f = false ->
  wr_pressed (unix_write_start sk buf f s).1.2 = false /\ wr_pressed (unix_write sk buf f s).1.2 = false /\
  (forall s1 f1, unix_read_start sk len f s = (Awaiting, f1, s1) -> rd_pressed f1 = true).
Proof.
  intros Hf. assert (wr_pressed (unix_write_start sk buf f s).1.2 = false) as Hw.
  { unfold unix_write_start, attempt. destruct buf as [|b buf]; [done|]. rewrite Hf.
    destruct (k_write K (fd_of sk) (b :: buf) s) as [[n|e] s1]; [done|]. by destruct (would_block e). }
  split; [done|]. split.
  - unfold unix_write. destruct (unix_write_start sk buf f s) as [[[r|] f1] s1]; [done|]. simpl in *.
    by destruct (d_write D (fd_of sk) buf s1).
  - intros s1 f1 E. unfold unix_read_start, attempt in E. destruct (len =? 0); [done|].
    destruct (rd_pressed f) eqn:Er; [by injection E as <- _|].
    destruct (k_read K (fd_of sk) len s) as [[l|e] s2]; [done|]. destruct (would_block e); [|done]. by injection E as <- _.
Qed.

(** ** A socket is a stream *)

(** The contract of BufIO.v for the two directions, from that of the kernel: a read takes the next bytes of what the peer sends, none
    only at the end; a write gives a prefix. *)
Record stream_laws (later : S -> S -> Prop) (fd : Z) (incoming outgoing : S -> list Z) : Prop := {
  s_calls : call_laws later;
  s_later : forall s s', later s s' -> incoming s' = incoming s /\ outgoing s' = outgoing s;
  s_read : forall n s r s', k_read K fd n s = (r, s') ->
    match r with
    | Ok l => incoming s = l ++ incoming s' /\ (l = [] -> 0 < n -> incoming s = [])
    | Err _ => incoming s' = incoming s
    end;
  s_write : forall buf s r s', k_write K fd buf s = (r, s') ->
    match r with Ok n => outgoing s' = outgoing s ++ take (Z.to_nat n) buf | Err _ => outgoing s' = outgoing s end
}.

Section stream.
Context (later : S -> S -> Prop) (sk : socket) (incoming outgoing : S -> list Z).
Context (L : stream_laws later (fd_of sk) incoming outgoing).

#[local] Instance tcp_AsyncRead : AsyncRead S Z := tcp_read sk.
#[local] Instance tcp_AsyncWrite : AsyncWrite S Z := tcp_write sk.

#[local] Instance tcp_ReadLaws : ReadLaws S Z.
Proof.
  pose proof (s_calls _ _ _ _ L) as C.
  pose proof (sk_tcp_read later C sk) as Hr.
  refine {| source := incoming |}.
  - intros n s l s' E Hn. destruct (decide (n = 0)) as [->|Hne].
    + cbv in E. injection E as <- <-. split; [done|]. split; [done|]. intros _ ?. lia.
    + destruct (Hr _ Hne _ _ _ E) as (s1 & Hl & Ec & _). destruct (s_later _ _ _ _ L _ _ Hl) as [Hi _].
      destruct (s_read _ _ _ _ L _ _ _ _ Ec) as [H1 H2]. rewrite <- Hi.
      pose proof (read_fits _ C _ _ _ _ _ Ec). split; [lia|]. by split.
  - intros n s e s' E. destruct (decide (n = 0)) as [->|Hne]; [by cbv in E|].
    destruct (Hr _ Hne _ _ _ E) as (s1 & Hl & Ec & _). destruct (s_later _ _ _ _ L _ _ Hl) as [Hi _].
    rewrite <- Hi. apply (s_read _ _ _ _ L _ _ _ _ Ec).
Defined.

#[local] Instance tcp_WriteLaws : WriteLaws S Z.
Proof.
  pose proof (s_calls _ _ _ _ L) as C.
  pose proof (sk_tcp_write later C sk) as Hw.
  refine {| sink := outgoing |}.
  - intros buf s n s' E. destruct buf as [|b buf].
    + cbv in E. injection E as <- <-. split; [done|]. by rewrite app_nil_r.
    + assert (b :: buf <> []) as Hb by done. destruct (Hw _ Hb _ _ _ E) as (s1 & Hl & Ec & _). destruct (s_later _ _ _ _ L _ _ Hl) as [_ Ho].
      rewrite <- Ho. split; [by apply (write_fits _ C _ _ _ _ _ Ec)|]. apply (s_write _ _ _ _ L _ _ _ _ Ec).
  - intros buf s e s' E. destruct buf as [|b buf]; [by cbv in E|].
    assert (b :: buf <> []) as Hb by done. destruct (Hw _ Hb _ _ _ E) as (s1 & Hl & Ec & _). destruct (s_later _ _ _ _ L _ _ Hl) as [_ Ho].
    rewrite <- Ho. apply (s_write _ _ _ _ L _ _ _ _ Ec).
Defined.

End stream.
End code.

(** [copy] of the combinators between two connected sockets, whose states are independent. *)
Section copy.
Context {S1 S2 : Type} (K1 : Kernel S1) (D1 : Driver S1) (K2 : Kernel S2) (D2 : Driver S2).
Context (later1 : S1 -> S1 -> Prop) (later2 : S2 -> S2 -> Prop) (sk1 sk2 : socket).
Context (incoming1 outgoing1 : S1 -> list Z) (incoming2 outgoing2 : S2 -> list Z).
Context (L1 : stream_laws K1 D1 later1 (fd_of sk1) incoming1 outgoing1).
Context (L2 : stream_laws K2 D2 later2 (fd_of sk2) incoming2 outgoing2).

Definition copy_sockets (fuel : nat) (s1 : S1) (s2 : S2) : outcome (result Z (io_error Z) * S1 * S2) :=
  @BufIO.copy S1 S2 Z (tcp_AsyncRead K1 D1 sk1) (tcp_AsyncWrite K2 D2 sk2) fuel s1 s2.

(** Copying from one TCP connection to another returns, after at most one turn per byte and one more, and if no
    call fails it has passed on everything the first peer sends until it closes, each byte once and in order, and reports
    the number; if a call fails a prefix was passed on.  That the sockets are non-blocking and that the driver
    completes what the direct calls could not does not show. *)
Theorem copy_between_sockets (s1 : S1) (s2 : S2) : Z.of_nat (length (incoming1 s1)) < 2 ^ 64 ->
  exists res s1' s2', copy_sockets (S (length (incoming1 s1))) s1 s2 = Done (res, s1', s2') /\
    match res with
    | Ok n => n = Z.of_nat (length (incoming1 s1)) /\ outgoing2 s2' = outgoing2 s2 ++ incoming1 s1
    | Err _ => exists k, outgoing2 s2' = outgoing2 s2 ++ take k (incoming1 s1)
    end.
Proof.
  intros Hlen.
  destruct (@BufIO.bio_copy_loop S1 S2 Z _ _ (tcp_ReadLaws K1 D1 later1 sk1 _ _ L1) (tcp_WriteLaws K2 D2 later2 sk2 _ _ L2)
    (S (length (incoming1 s1))) 0 s1 s2) as (res & s1' & s2' & E & H).
  { change (length (incoming1 s1) < S (length (incoming1 s1)))%nat. lia. }
  { lia. }
  exists res, s1', s2'. split; [exact E|]. destruct res as [n|e]; [|exact H]. destruct H as (H1 & H2 & H3). split; [|exact H1].
  change (wrap 64 n = wrap 64 (0 + Z.of_nat (length (incoming1 s1)))) in H3. rewrite Z.add_0_l in H3.
  rewrite (wrap_small 64 (Z.of_nat _)) in H3 by lia. unfold wrap in H3. rewrite <- H3. symmetry. apply Z.mod_small, H2.
Qed.
End copy.

(** ** A small kernel

    One byte stream in each direction, of whose input some bytes are here and some arrive later; a peer that never answers a
    connection. *)

Record host := Host { here : list Z; coming : list Z; sent : list Z; fds : gset Z; connecting : bool }.

Definition arrive (k : nat) (h : host) : host :=
  Host (here h ++ take k (coming h)) (drop k (coming h)) (sent h) (fds h) (connecting h).
Definition later_host (h h' : host) : Prop := exists k, h' = arrive k h.
Definition with_fds (x : gset Z) (h : host) : host := Host (here h) (coming h) (sent h) x (connecting h).

Definition host_read (n : Z) (h : host) : result (list Z) Z * host :=
  match here h, coming h with
  | [], _ :: _ => (Err EAGAIN, h)
  | l, _ => (Ok (take (Z.to_nat n) l), Host (drop (Z.to_nat n) l) (coming h) (sent h) (fds h) (connecting h))
  end.
Definition host_write (buf : list Z) (h : host) : result Z Z * host :=
  (Ok (Z.of_nat (length buf)), Host (here h) (coming h) (sent h ++ buf) (fds h) (connecting h)).
Definition host_msg (x : result (list Z) Z * host) : result (list Z * list Z * Z) Z * host :=
  (match x.1 with Ok l => Ok (l, SockAddr.zeroed, 0) | Err e => Err e end, x.2).
Definition host_connect (h : host) : result Z Z * host :=
  if connecting h then (Err EALREADY, h) else (Err EINPROGRESS, Host (here h) (coming h) (sent h) (fds h) true).
Definition new_fd (h : host) : result Z Z * host :=
  let fd := fresh (fds h) in (Ok fd, with_fds ({[fd]} ∪ fds h) h).
Definition all (h : host) : host := arrive (length (coming h)) h.

Definition host_kernel : Kernel host := {|
  k_socket _ _ := new_fd;
  k_connect _ _ := host_connect;
  k_poll _ h := (Ok 0, h);
  k_so_error _ h := (Ok 0, h);
  k_accept _ h := (Err ECONNREFUSED, h);
  k_accept4 _ h := (Err ECONNREFUSED, h);
  k_read _ := host_read;
  k_write _ := host_write;
  k_recv _ := host_read;
  k_send _ := host_write;
  k_recvmsg _ n h := host_msg (host_read n h);
  k_sendmsg _ _ := host_write;
  k_set_nonblocking _ h := (Ok tt, h);
  k_set_nodelay _ h := (Ok tt, h);
  k_getpeername _ h := (Err ECONNREFUSED, h);
  k_close fd h := with_fds (fds h ∖ {[fd]}) h
|}.

Definition host_driver : Driver host := {|
  d_read _ n h := host_read n (all h);
  d_write _ := host_write;
  d_accept _ h := (Err ECONNREFUSED, h);
  d_connect _ _ := host_connect;
  d_send_to _ _ := host_write;
  d_recv_from _ n h := host_msg (host_read n (all h))
|}.

Lemma sk_later_refl h : later_host h h.
Proof. exists 0%nat. unfold arrive. rewrite take_0, drop_0, app_nil_r. by destruct h. Qed.

Lemma sk_later_all h : later_host h (all h).
Proof. by eexists. Qed.

Lemma sk_host_blocks n h h' : host_read n h = (Err EAGAIN, h') -> h' = h.
Proof. unfold host_read. destruct (here h); [destruct (coming h)|]; by intros [=]. Qed.

Lemma sk_host_all n h r h' : host_read n (all h) = (r, h') -> r <> Err EAGAIN.
Proof.
  unfold host_read, all, arrive. simpl. rewrite drop_all. destruct (here h ++ _); by intros [= <- _].
Qed.

Lemma sk_host_read n : paired later_host (host_read n) (fun h => host_read n (all h)).
Proof.
  split; [intros; by eapply sk_host_blocks|]. intros h r h' E. exists (all h).
  split_and!; [apply sk_later_all|done|by eapply sk_host_all].
Qed.

Lemma sk_host_msg n : paired later_host (fun h => host_msg (host_read n h)) (fun h => host_msg (host_read n (all h))).
Proof.
  split.
  - intros h h' E. unfold host_msg in E. destruct (host_read n h) as [[l|e] h1] eqn:Eh; [done|]. simpl in E. injection E as -> <-.
    by apply sk_host_blocks in Eh.
  - intros h r h' E. exists (all h). split_and!; [apply sk_later_all|done|]. intros ->. unfold host_msg in E.
    destruct (host_read n (all h)) as [[l|e] h1] eqn:Eh; [done|]. simpl in E. injection E as -> <-.
    by apply sk_host_all in Eh.
Qed.

Lemma sk_host_write buf : paired later_host (host_write buf) (host_write buf).
Proof.
  split; [done|]. intros h r h' E. exists h. split_and!; [apply sk_later_refl|done|]. by injection E as <- _.
Qed.

Lemma sk_host_calls : call_laws host_kernel host_driver later_host.
Proof.
  split; simpl; intros; try apply sk_host_read; try apply sk_host_write; try apply sk_host_msg.
  - apply sk_later_refl.
  - unfold host_read in *. assert (l = take (Z.to_nat n) (here s)) as ->; [|rewrite length_take; lia].
    destruct (here s); [destruct (coming s); [|done]|]; simplify_eq; by rewrite ?take_nil.
  - injection H as <- <-. lia.
Qed.

Lemma sk_host_stream fd : stream_laws host_kernel host_driver later_host fd (fun h => here h ++ coming h) sent.
Proof.
  split; simpl.
  - apply sk_host_calls.
  - intros h h' [k ->]. simpl. by rewrite <- app_assoc, take_drop.
  - intros n h r h' E. unfold host_read in E. destruct (here h) as [|x l] eqn:Eh.
    + destruct (coming h) eqn:Ec; injection E as <- <-; rewrite ?take_nil, ?drop_nil; simpl; by rewrite ?Eh, ?Ec.
    + injection E as <- <-. simpl. rewrite app_assoc, take_drop. split; [done|]. intros El Hn.
      destruct (Z.to_nat n) eqn:E; [lia|done].
  - intros buf h r h' E. injection E as <- <-. simpl. by rewrite Nat2Z.id, firstn_all.
Qed.

Lemma sk_host_fds : fd_laws host_kernel host_driver fds.
Proof.
  split; unfold obtains, keeps; simpl; try by intros; simplify_eq.
  - intros _ _ h r h' E. unfold new_fd in E. injection E as <- <-. split; [apply is_fresh|done].
  - intros _ _ h r h' E. unfold host_connect in E. destruct (connecting h); by injection E as _ <-.
  - intros _ _ h r h' E. unfold host_connect in E. destruct (connecting h); by injection E as _ <-.
Qed.

Lemma sk_host_connects : connect_laws host_kernel host_driver later_host (fun _ h => connecting h = true).
Proof.
  split; simpl.
  - intros _ _ h E. unfold host_connect. by rewrite E.
  - intros _ _ h r h' E. exists h, r, h'. split_and!; [apply sk_later_refl|done|done].
Qed.

Definition quiet : host := Host [] [72; 105] [] ∅ false.


Lemma descriptors_are_owned_witness : exists sk h, fd_of sk = 7 /\
  tcp_from_std host_kernel (Some 2) (Some 2) 7 (with_fds {[7]} quiet) = Done (Ok sk, h) /\ fds h = {[7]}.
Proof.
  destruct (descriptors_are_owned host_kernel host_driver false (Some 2) (Some 2) fds sk_host_fds) as (_ & _ & _ & _ & H & _).
  exists (Socket 7 1), (with_fds {[7]} quiet).
  destruct (H 7 (with_fds {[7]} quiet) (Ok (Socket 7 1), with_fds {[7]} quiet)) as [H1 H2]; [reflexivity|].
  split_and!; [exact H1|reflexivity|exact H2].
Defined.

Lemma connect_in_progress_fails_witness : exists s3,
  host_connect quiet = (Err EINPROGRESS, Host [] [72; 105] [] ∅ true) /\
  connect_socket host_kernel host_driver 3 0 ([], 0) quiet = (Err (Os EALREADY), k_close host_kernel 3 s3).
Proof.
  destruct (connect_in_progress_fails host_kernel host_driver later_host (fun _ h => connecting h = true) 3 0 ([], 0) quiet
    (Host [] [72; 105] [] ∅ true) (Host [] [72; 105] [] ∅ true) (Ok 0) sk_host_connects) as [s3 E].
  - reflexivity.
  - reflexivity.
  - by left.
  - intros s3 [k ->]. reflexivity.
  - exists s3. split; [reflexivity|exact E].
Defined.

Lemma copy_between_sockets_witness : exists s1' s2',
  copy_sockets host_kernel host_driver host_kernel host_driver (Socket 3 0) (Socket 4 0) 3 quiet (Host [] [] [1] ∅ false)
    = Done (Ok 2, s1', s2') /\ sent s2' = [1; 72; 105].
Proof.
  destruct (copy_between_sockets host_kernel host_driver host_kernel host_driver later_host later_host (Socket 3 0) (Socket 4 0)
    _ _ _ _ (sk_host_stream 3) (sk_host_stream 4) quiet (Host [] [] [1] ∅ false)) as (res & s1' & s2' & E & H); [reflexivity|].
  exists s1', s2'. assert (res = Ok 2) as -> by (vm_compute in E; by injection E as <- _ _).
  split; [exact E|apply H].
Defined.

End Sockets.
