(* ===== verification/WinDriver.v ===== *)
(** * WinDriver

    The socket driver on Windows, src/dtact-util/src/io/windows.rs: the futures and their operation slots, the requests, the
    worker that hands each to Winsock with an [IoOverlapped] of its own on the heap, and the completion port that gives
    the overlapped structures back.  One call is one step; the accesses of the slot protocol, which is that of io/native.rs, are
    in IoSlots.v.

    Winsock is a set of operations under way, known by the address of their structure, and a queue of completion
    packets; it answers a call at once with success, which still posts a packet, with [WSA_IO_PENDING], or with an
    error, which does not.  [Box::from_raw] of an address that is not allocated is undefined behaviour: [None]. *)

From S2P Require Import Prelude Treiber.
Open Scope Z_scope.

Module WinDriver.

(** ** State *)

Record WakerSlot := Slot {
  waker : option nat;
  result : Z;
  completed : bool;
  dropped : bool;
  origin_socket : Z
}.
Definition unused : WakerSlot := Slot None 0 false false (2 ^ 64 - 1).

Inductive OpCode := OpRead | OpWrite | OpAccept | OpConnect | OpSendTo | OpRecvFrom.

(** The requests, without the buffers and addresses that the worker only passes on. *)
Inductive IoRequest :=
| Read (socket : Z) (slot_idx : nat)
| Write (socket : Z) (slot_idx : nat)
| Accept (listen_socket accept_socket : Z) (slot_idx : nat)
| Connect (socket : Z) (slot_idx : nat)
| SendTo (socket : Z) (slot_idx : nat)
| RecvFrom (socket : Z) (slot_idx : nat)
| Cancel (slot_idx : nat).

(** [op] is the number of the operation; the program does not see it. *)
Record IoOverlapped := Overlapped {
  slot_idx : nat;
  issuing_socket : Z;
  accept_socket : Z;
  op : nat
}.

(** A [DtactIoFuture]: [f_slot] is its [slot_idx], with the number of the operation it submitted. *)
Record future := Future { f_op : OpCode; f_socket : Z; f_accept : Z; f_slot : option (nat * nat) }.

(** What [WSAGetOverlappedResult] says of an operation. *)
Inductive ov_result := Transferred (bytes : Z) | Failed (err : Z).

(** [WorkerState] with its port, the heap of overlapped structures, the futures ([None]: dropped), the number of operations
    submitted, who was woken, and two histories: how each operation ended (with its accept socket) and what the futures
    returned. *)
Record conf := Conf {
  slots : list WakerSlot;
  free_slots : list nat;
  wait_slots : list (option nat);
  free_wait_slots : list nat;
  waiting_queue : list nat;
  queues : list (list (IoRequest * nat));
  cancel_queue : Treiber.t;
  boxes : gmap nat IoOverlapped;
  kernel : list nat;
  port : list (nat * ov_result);
  futures : list (option future);
  issued : nat;
  woken : list nat;
  performed : list (nat * (Z * ov_result));
  returned : list (nat * Prelude.result Z Z)
}.

Definition QUEUE : nat := 256.
Definition WSA_IO_PENDING : Z := 997.

Definition set_slot (s : nat) (f : WakerSlot -> WakerSlot) (c : conf) : conf :=
  Conf (alter f s (slots c)) (free_slots c) (wait_slots c) (free_wait_slots c) (waiting_queue c) (queues c) (cancel_queue c)
    (boxes c) (kernel c) (port c) (futures c) (issued c) (woken c) (performed c) (returned c).
Definition set_free (l : list nat) (c : conf) : conf :=
  Conf (slots c) l (wait_slots c) (free_wait_slots c) (waiting_queue c) (queues c) (cancel_queue c)
    (boxes c) (kernel c) (port c) (futures c) (issued c) (woken c) (performed c) (returned c).
Definition set_waits (ws : list (option nat)) (fw wq : list nat) (c : conf) : conf :=
  Conf (slots c) (free_slots c) ws fw wq (queues c) (cancel_queue c)
    (boxes c) (kernel c) (port c) (futures c) (issued c) (woken c) (performed c) (returned c).
Definition set_queues (qs : list (list (IoRequest * nat))) (c : conf) : conf :=
  Conf (slots c) (free_slots c) (wait_slots c) (free_wait_slots c) (waiting_queue c) qs (cancel_queue c)
    (boxes c) (kernel c) (port c) (futures c) (issued c) (woken c) (performed c) (returned c).
Definition set_cancels (l : Treiber.t) (c : conf) : conf :=
  Conf (slots c) (free_slots c) (wait_slots c) (free_wait_slots c) (waiting_queue c) (queues c) l
    (boxes c) (kernel c) (port c) (futures c) (issued c) (woken c) (performed c) (returned c).
Definition set_boxes (b : gmap nat IoOverlapped) (k : list nat) (p : list (nat * ov_result)) (c : conf) : conf :=
  Conf (slots c) (free_slots c) (wait_slots c) (free_wait_slots c) (waiting_queue c) (queues c) (cancel_queue c)
    b k p (futures c) (issued c) (woken c) (performed c) (returned c).
Definition set_future (h : nat) (f : option future) (c : conf) : conf :=
  Conf (slots c) (free_slots c) (wait_slots c) (free_wait_slots c) (waiting_queue c) (queues c) (cancel_queue c)
    (boxes c) (kernel c) (port c) (<[h := f]> (futures c)) (issued c) (woken c) (performed c) (returned c).
Definition set_history (p : list (nat * (Z * ov_result))) (r : list (nat * Prelude.result Z Z)) (c : conf) : conf :=
  Conf (slots c) (free_slots c) (wait_slots c) (free_wait_slots c) (waiting_queue c) (queues c) (cancel_queue c)
    (boxes c) (kernel c) (port c) (futures c) (issued c) (woken c) p r.
Definition issue (c : conf) : conf :=
  Conf (slots c) (free_slots c) (wait_slots c) (free_wait_slots c) (waiting_queue c) (queues c) (cancel_queue c)
    (boxes c) (kernel c) (port c) (futures c) (S (issued c)) (woken c) (performed c) (returned c).
Definition wake (w : option nat) (c : conf) : conf :=
  match w with
  | Some t =>
      Conf (slots c) (free_slots c) (wait_slots c) (free_wait_slots c) (waiting_queue c) (queues c) (cancel_queue c)
        (boxes c) (kernel c) (port c) (futures c) (issued c) (t :: woken c) (performed c) (returned c)
  | None => c
  end.

Definition with_waker (w : option nat) (sl : WakerSlot) : WakerSlot :=
  Slot w (result sl) (completed sl) (dropped sl) (origin_socket sl).
Definition with_dropped (sl : WakerSlot) : WakerSlot := Slot (waker sl) (result sl) (completed sl) true (origin_socket sl).
Definition with_origin (x : Z) (sl : WakerSlot) : WakerSlot := Slot (waker sl) (result sl) (completed sl) (dropped sl) x.
Definition with_slot (s : option (nat * nat)) (f : future) : future := Future (f_op f) (f_socket f) (f_accept f) s.

Definition wake_next_waiting_fiber (c : conf) : conf :=
  match waiting_queue c with
  | [] => c
  | k :: rest => wake (wait_slots c !! k ≫= id) (set_waits (<[k := None]> (wait_slots c)) (k :: free_wait_slots c) rest c)
  end.

(** ** Futures *)

(** [create_io_request]: an accept makes the socket it will accept into, [s], unless it has one. *)
Definition create_io_request (f : future) (s : Z) (i : nat) : IoRequest * future :=
  match f_op f with
  | OpRead => (Read (f_socket f) i, f)
  | OpWrite => (Write (f_socket f) i, f)
  | OpAccept =>
      let a := if f_accept f =? 0 then s else f_accept f in
      (Accept (f_socket f) a i, Future (f_op f) (f_socket f) a (f_slot f))
  | OpConnect => (Connect (f_socket f) i, f)
  | OpSendTo => (SendTo (f_socket f) i, f)
  | OpRecvFrom => (RecvFrom (f_socket f) i, f)
  end.

(** [acquire_op_slot]; the second look at the free slots finds nothing when nobody runs in between. *)
Definition acquire_op_slot (w : nat) (c : conf) : option nat * conf :=
  match free_slots c with
  | i :: rest => (Some i, set_free rest c)
  | [] =>
      match free_wait_slots c with
      | [] => (None, c)
      | k :: rest => (None, set_waits (<[k := Some w]> (wait_slots c)) rest (k :: waiting_queue c) c)
      end
  end.

(** [state.queues[get_local_thread_id() % state.queues.len()]] *)
Definition queue_of (t : nat) (c : conf) : nat := (t mod length (queues c))%nat.

(** [submit] of future [h] on thread [t]. *)
Definition submit (h w t : nat) (s : Z) (f : future) (c : conf) : option nat * conf :=
  match acquire_op_slot w c with
  | (None, c1) => (None, wake (Some w) c1)
  | (Some i, c1) =>
      let c2 := set_slot i (fun sl => Slot (Some w) (result sl) false false (origin_socket sl)) c1 in
      let '(req, f1) := create_io_request f s i in
      let queue := default [] (queues c2 !! queue_of t c2) in
      if (length queue <? QUEUE)%nat
      then (Some i, issue (set_future h (Some (with_slot (Some (i, issued c2)) f1))
             (set_queues (<[queue_of t c2 := queue ++ [(req, issued c2)]]> (queues c2)) c2)))
      else (None, wake (Some w) (wake_next_waiting_fiber (set_free (i :: free_slots c2)
             (set_slot i (with_waker None) (set_future h (Some f1) c2)))))
  end.

Definition decode (res : Z) : Prelude.result Z Z := if res <? 0 then Err (- res) else Ok res.

(** [DtactIoFuture::poll]; a future polled after it has returned submits its operation again. *)
Definition poll_slot (h w i n : nat) (f : future) (c : conf) : conf :=
  match slots c !! i with
  | Some sl =>
      if completed sl then
        set_history (performed c) ((n, decode (result sl)) :: returned c)
          (wake_next_waiting_fiber (set_future h (Some (with_slot None f)) (set_free (i :: free_slots c)
             (set_slot i (with_waker None) c))))
      else set_slot i (with_waker (Some w)) c
  | None => c
  end.
Definition poll (h w t : nat) (s : Z) (c : conf) : conf :=
  match futures c !! h with
  | Some (Some f) =>
      match f_slot f with
      | Some (i, n) => poll_slot h w i n f c
      | None =>
          match submit h w t s f c with
          | (Some i, c1) =>
              match futures c1 !! h with Some (Some f1) => poll_slot h w i (issued c) f1 c1 | _ => c1 end
          | (None, c1) => c1
          end
      end
  | _ => c
  end.

(** [Drop for DtactIoFuture] *)
Definition drop_future (h t : nat) (c : conf) : option conf :=
  match futures c !! h with
  | Some (Some f) =>
      match f_slot f with
      | Some (i, n) =>
          sl ← slots c !! i;
          let c1 := set_slot i (with_waker None) (set_future h None c) in
          if completed sl then Some (wake_next_waiting_fiber (set_free (i :: free_slots c1) c1))
          else
            let c2 := set_slot i with_dropped c1 in
            let queue := default [] (queues c2 !! queue_of t c2) in
            let c3 := if (length queue <? QUEUE)%nat
                      then set_queues (<[queue_of t c2 := queue ++ [(Cancel i, n)]]> (queues c2)) c2 else c2 in
            match Treiber.push (Z.of_nat i) (cancel_queue c3) with
            | Done l => Some (set_cancels l c3)
            | _ => None
            end
      | None => Some (set_future h None c)
      end
  | _ => Some c
  end.

(** ** The worker *)

Definition finish_slot (i : nat) (res : Z) (c : conf) : conf :=
  match slots c !! i with
  | Some sl =>
      let c1 := set_slot i (fun sl => Slot None res true (dropped sl) (origin_socket sl)) c in
      if dropped sl then wake_next_waiting_fiber (set_free (i :: free_slots c1) c1) else wake (waker sl) c1
  | None => c
  end.

(** What a future is told of an operation. *)
Definition to_i32 (x : Z) : Z := if wrap 32 x <? 2 ^ 31 then wrap 32 x else wrap 32 x - 2 ^ 32.
Definition report (accept : Z) (r : ov_result) : Z :=
  match r with
  | Failed err => - err
  | Transferred bytes => to_i32 (if negb (accept =? 0) then accept else bytes)
  end.

Definition complete_with_error (i n : nat) (err : Z) (c : conf) : conf :=
  finish_slot i (- err) (set_history ((n, (0, Failed err)) :: performed c) (returned c) c).

(** What a call of Winsock answers: 0, or [SOCKET_ERROR] with the last error; and whether an extension function can be had. *)
Inductive answer := Returned0 | LastError (err : Z).

(** An address for a new structure. *)
Definition new_address (b : gmap nat IoOverlapped) : nat := S (foldr Nat.max 0%nat (map_to_list b).*1).

(** [handle_immediate_or_pending] *)
Definition handle_immediate_or_pending (i h p : nat) (a : answer) (c : conf) : option conf :=
  match a with
  | Returned0 => Some (set_boxes (boxes c) (p :: kernel c) (port c) c)
  | LastError err =>
      if err =? WSA_IO_PENDING then Some (set_boxes (boxes c) (p :: kernel c) (port c) c)
      else
        _ ← boxes c !! p;                                            (* drop(Box::from_raw(ov_ptr)) *)
        Some (complete_with_error i h err (set_boxes (delete p (boxes c)) (kernel c) (port c) c))
  end.

(** [submit_read], [submit_write], [submit_send_to] and [submit_recv_from]: the same with another call. *)
Definition submit_plain (socket : Z) (i h : nat) (accept : Z) (a : answer) (c : conf) : option conf :=
  let c1 := set_slot i (with_origin socket) c in
  let p := new_address (boxes c1) in
  handle_immediate_or_pending i h p a (set_boxes (<[p := Overlapped i socket accept h]> (boxes c1)) (kernel c1) (port c1) c1).
Definition submit_read := submit_plain.
Definition submit_write := submit_plain.
Definition submit_send_to := submit_plain.
Definition submit_recv_from := submit_plain.

(** [submit_accept] and [submit_connect] first ask for the function. *)
Definition submit_extension (socket : Z) (i h : nat) (accept : Z) (ext : option Z) (a : answer) (c : conf) : option conf :=
  match ext with
  | Some err => Some (complete_with_error i h err (set_slot i (with_origin socket) c))
  | None => submit_plain socket i h accept a c
  end.
Definition submit_accept (listen accept : Z) (i h : nat) (ext : option Z) (a : answer) (c : conf) : option conf :=
  submit_extension listen i h accept ext a c.
Definition submit_connect (socket : Z) (i h : nat) (ext : option Z) (a : answer) (c : conf) : option conf :=
  submit_extension socket i h 0 ext a c.

Definition submit_windows_request (req : IoRequest) (h : nat) (ext : option Z) (a : answer) (c : conf) : option conf :=
  match req with
  | Cancel _ => Some c
  | Read x i => submit_read x i h 0 a c
  | Write x i => submit_write x i h 0 a c
  | Accept l x i => submit_accept l x i h ext a c
  | Connect x i => submit_connect x i h ext a c
  | SendTo x i => submit_send_to x i h 0 a c
  | RecvFrom x i => submit_recv_from x i h 0 a c
  end.

(** [process_windows_completion] *)
Definition process_windows_completion (p : nat) (r : ov_result) (c : conf) : option conf :=
  ov ← boxes c !! p;                                                 (* Box::from_raw(ov_ptr) *)
  Some (finish_slot (slot_idx ov) (report (accept_socket ov) r) (set_boxes (delete p (boxes c)) (kernel c) (port c) c)).

(** ** Steps: a future is made, polled, dropped; the worker takes the next request of queue [q], the next cancellation, the next
    packet; Winsock completes an operation. *)
Inductive event :=
| New (o : OpCode) (socket : Z)
| PollF (h w t : nat) (s : Z)
| DropF (h t : nat)
| Take (q : nat) (ext : option Z) (a : answer)
| CancelNext
| Complete (k : nat) (r : ov_result)
| Reap.

(** [cancel_windows_slot] does nothing. *)
Definition cancel_next (c : conf) : option (option Z * conf) :=
  match Treiber.pop (cancel_queue c) with
  | Done (o, l) => Some (o, set_cancels l c)
  | _ => None
  end.
Definition take (q : nat) (ext : option Z) (a : answer) (c : conf) : option conf :=
  match queues c !! q with
  | Some ((req, h) :: rest) => submit_windows_request req h ext a (set_queues (<[q := rest]> (queues c)) c)
  | _ => Some c
  end.
Definition reap (c : conf) : option conf :=
  match port c with
  | (p, r) :: rest => process_windows_completion p r (set_boxes (boxes c) (kernel c) rest c)
  | [] => Some c
  end.
Definition complete (k : nat) (r : ov_result) (c : conf) : option conf :=
  match kernel c !! k with
  | Some p =>
      ov ← boxes c !! p;                                             (* Winsock writes into the structure *)
      Some (set_history ((op ov, (accept_socket ov, r)) :: performed c) (returned c)
        (set_boxes (boxes c) (delete k (kernel c)) (port c ++ [(p, r)]) c))
  | None => Some c
  end.

Definition exec (e : event) (c : conf) : option conf :=
  match e with
  | New o socket => Some (Conf (slots c) (free_slots c) (wait_slots c) (free_wait_slots c) (waiting_queue c) (queues c)
      (cancel_queue c) (boxes c) (kernel c) (port c) (futures c ++ [Some (Future o socket 0 None)]) (issued c) (woken c) (performed c) (returned c))
  | PollF h w t s => Some (poll h w t s c)
  | DropF h t => drop_future h t c
  | Take q ext a => take q ext a c
  | CancelNext => snd <$> cancel_next c
  | Complete k r => complete k r c
  | Reap => reap c
  end.
Fixpoint run (es : list event) (c : conf) : option conf :=
  match es with [] => Some c | e :: es' => c' ← exec e c; run es' c' end.

(** [init_runtime]: [depth] slots, [waits] wait slots, [nq] queues. *)
Definition start (depth waits nq : nat) : conf :=
  Conf (replicate depth unused) (reverse (seq 0 depth)) (replicate waits None) (reverse (seq 0 waits)) []
    (replicate nq []) (Treiber.new (Z.of_nat depth)) ∅ [] [] [] 0 [] [] [].

(** ** The loop of the worker

    One turn drains the queues in order, then the cancellations (at most [fuel] of them), and takes at most 64 packets;
    [winsock] answers the calls. *)
Section loop.
Context (winsock : conf -> option Z * answer).

Fixpoint drain_queue (n q : nat) (c : conf) : option conf :=
  match n with
  | O => Some c
  | S n' => let '(ext, a) := winsock c in c' ← take q ext a c; drain_queue n' q c'
  end.
Fixpoint drain_queues (qs : list nat) (c : conf) : option conf :=
  match qs with
  | [] => Some c
  | q :: qs' => c' ← drain_queue (length (default [] (queues c !! q))) q c; drain_queues qs' c'
  end.
Fixpoint drain_cancels (fuel : nat) (c : conf) : option conf :=
  match fuel with
  | O => None
  | S fuel' =>
      match cancel_next c with
      | Some (Some _, c') => drain_cancels fuel' c'
      | Some (None, c') => Some c'
      | None => None
      end
  end.
Fixpoint reaps (n : nat) (c : conf) : option conf :=
  match n with O => Some c | S n' => c' ← reap c; reaps n' c' end.

Definition loop_turn (fuel : nat) (c : conf) : option conf :=
  c1 ← drain_queues (seq 0 (length (queues c))) c;
  c2 ← drain_cancels fuel c1;
  reaps (Nat.min 64 (length (port c2))) c2.
End loop.

(** ** Invariant *)

Definition req_slot (r : IoRequest) : option nat :=
  match r with
  | Read _ i | Write _ i | Accept _ _ i | Connect _ i | SendTo _ i | RecvFrom _ i => Some i
  | Cancel _ => None
  end.

(** The operations, with their slots, that wait in a queue; those Winsock has or has done. *)
Definition entry (x : IoRequest * nat) : list (nat * nat) :=
  match req_slot x.1 with Some i => [(i, x.2)] | None => [] end.
Definition entries (q : list (IoRequest * nat)) : list (nat * nat) := q ≫= entry.
Definition asked (c : conf) : list (nat * nat) := queues c ≫= entries.
Definition box_entry (x : nat * IoOverlapped) : nat * nat := (slot_idx x.2, op x.2).
Definition boxed (c : conf) : list (nat * nat) := box_entry <$> map_to_list (boxes c).
Definition under_way (c : conf) : list (nat * nat) := asked c ++ boxed c.

Definition holds (h i n : nat) (c : conf) : Prop := exists f, futures c !! h = Some (Some f) /\ f_slot f = Some (i, n).

(** [dn]: the operations that have ended and are still held by their futures; [x]: what is in the worker's hands. *)
Record inv (x dn : list (nat * nat)) (depth : nat) (c : conf) : Prop := {
  i_len : length (slots c) = depth;
  i_places : free_slots c ++ dn.*1 ++ (x ++ under_way c).*1 ≡ₚ seq 0 depth;
  i_once : NoDup (dn.*2 ++ (x ++ under_way c).*2 ++ (returned c).*1);
  i_issued : forall n, n ∈ dn.*2 ++ (x ++ under_way c).*2 ++ (returned c).*1 -> (n < issued c)%nat;
  i_boxes : kernel c ++ (port c).*1 ≡ₚ (map_to_list (boxes c)).*1;
  i_port : forall p r ov, (p, r) ∈ port c -> boxes c !! p = Some ov -> (op ov, (accept_socket ov, r)) ∈ performed c;
  i_held : forall h i n, holds h i n c -> (i, n) ∈ dn \/ ((i, n) ∈ x ++ under_way c /\ exists sl, slots c !! i = Some sl /\ dropped sl = false);
  i_own : forall h1 h2 i1 i2 n, holds h1 i1 n c -> holds h2 i2 n c -> h1 = h2;
  i_done : forall i n, (i, n) ∈ dn -> (exists h, holds h i n c) /\
    exists sl a r, slots c !! i = Some sl /\ completed sl = true /\ result sl = report a r /\ (n, (a, r)) ∈ performed c;
  i_way : forall i n, (i, n) ∈ x ++ under_way c -> exists sl, slots c !! i = Some sl /\ completed sl = false /\
    (dropped sl = false -> is_Some (waker sl) /\ exists h, holds h i n c);
  i_ret : forall n v, (n, v) ∈ returned c -> exists a r, (n, (a, r)) ∈ performed c /\ v = decode (report a r);
  i_cancels : Treiber.stack_ok depth (cancel_queue c);
  i_queues : (0 < length (queues c))%nat
}.

(** The invariant reads only these fields. *)
Lemma inv_ext x dn depth c c' :
  inv x dn depth c -> slots c' = slots c -> free_slots c' = free_slots c -> queues c' = queues c ->
  cancel_queue c' = cancel_queue c -> boxes c' = boxes c -> kernel c' = kernel c -> port c' = port c ->
  futures c' = futures c -> issued c' = issued c -> performed c' = performed c -> returned c' = returned c ->
  inv x dn depth c'.
Proof.
  intros H. destruct c, c'. simpl. intros. subst. destruct H. by split.
Qed.

Lemma wake_inv x dn depth w c : inv x dn depth c -> inv x dn depth (wake w c).
Proof. intros H. destruct w; [|done]. by apply (inv_ext _ _ _ c). Qed.

Lemma wake_next_inv x dn depth c : inv x dn depth c -> inv x dn depth (wake_next_waiting_fiber c).
Proof.
  intros H. unfold wake_next_waiting_fiber. destruct (waiting_queue c); [done|]. apply wake_inv.
  by apply (inv_ext _ _ _ c).
Qed.

(** A slot in a list of the partition is in range, and in that list only. *)
Lemma slots_nodup x dn depth c : inv x dn depth c -> NoDup (free_slots c ++ dn.*1 ++ (x ++ under_way c).*1).
Proof. intros []. rewrite i_places0. apply NoDup_seq. Qed.

Lemma elem_fst {A B} (a : A) (b : B) l : (a, b) ∈ l -> a ∈ l.*1.
Proof. intros H. apply list_elem_of_fmap. by exists (a, b). Qed.
Lemma elem_snd {A B} (a : A) (b : B) l : (a, b) ∈ l -> b ∈ l.*2.
Proof. intros H. apply list_elem_of_fmap. by exists (a, b). Qed.
Lemma nodup_fst_inj {A B} (a : A) (b1 b2 : B) l : NoDup l.*1 -> (a, b1) ∈ l -> (a, b2) ∈ l -> b1 = b2.
Proof.
  induction l as [|[a' b'] l IH]; intros Hn H1 H2; [by apply elem_of_nil in H1|].
  simpl in Hn. apply NoDup_cons in Hn as [Ha Hn].
  apply elem_of_cons in H1 as [E1 | H1], H2 as [E2 | H2]; simplify_eq; auto; exfalso; eauto using elem_fst.
Qed.

Lemma inv_perm x dn dn' depth c : dn ≡ₚ dn' -> inv x dn depth c -> inv x dn' depth c.
Proof.
  intros E []. split; auto; try (intros *; rewrite <- E; eauto); by rewrite <- E.
Qed.

(** What a slot's place says of it. *)
Lemma free_not x dn depth c i : inv x dn depth c -> i ∈ free_slots c -> i ∉ dn.*1 /\ i ∉ (x ++ under_way c).*1.
Proof. intros H Hi. apply slots_nodup in H. apply NoDup_app in H as (_ & H & _). specialize (H i Hi). by apply not_elem_of_app in H. Qed.

Lemma done_not x dn depth c i : inv x dn depth c -> i ∈ dn.*1 -> i ∉ (x ++ under_way c).*1.
Proof.
  intros H Hi. apply slots_nodup in H. apply NoDup_app in H as (_ & _ & H). apply NoDup_app in H as (_ & H & _). eauto.
Qed.

Lemma way_unique x dn depth c i n m : inv x dn depth c -> (i, n) ∈ x ++ under_way c -> (i, m) ∈ x ++ under_way c -> n = m.
Proof.
  intros H. apply slots_nodup in H. apply NoDup_app in H as (_ & _ & H). apply NoDup_app in H as (_ & _ & H).
  by apply nodup_fst_inj.
Qed.

(** A change of slot [i]. *)
Lemma alter_inv x dn depth i f c :
  inv x dn depth c ->
  (forall sl, slots c !! i = Some sl ->
    (i ∈ dn.*1 -> completed (f sl) = completed sl /\ result (f sl) = result sl) /\
    (i ∈ (x ++ under_way c).*1 -> completed (f sl) = completed sl /\ dropped (f sl) = dropped sl /\
       (dropped sl = false -> is_Some (waker (f sl))))) ->
  inv x dn depth (set_slot i f c).
Proof.
  intros [] Hf. split; auto; simpl.
  - by rewrite length_alter.
  - intros h j n Hh. destruct (i_held0 h j n Hh) as [? | [Hin (sl & Hs & Hd)]]; [by left|]. right. split; [done|].
    destruct (decide (i = j)) as [-> |]; [|exists sl; by rewrite list_lookup_alter_ne].
    exists (f sl). rewrite list_lookup_alter_eq, Hs. split; [done|]. destruct (Hf sl Hs) as [_ H].
    destruct (H (elem_fst _ _ _ Hin)) as (_ & -> & _). done.
  - intros j n Hin. destruct (i_done0 j n Hin) as [Hh (sl & a & r & Hs & Hc & Hr & Hp)]. split; [done|].
    destruct (decide (i = j)) as [-> |]; [|exists sl, a, r; by rewrite list_lookup_alter_ne].
    exists (f sl), a, r. rewrite list_lookup_alter_eq, Hs. destruct (Hf sl Hs) as [H _].
    destruct (H (elem_fst _ _ _ Hin)) as [-> ->]. done.
  - intros j n Hin. destruct (i_way0 j n Hin) as (sl & Hs & Hc & Hw).
    destruct (decide (i = j)) as [-> |]; [|exists sl; by rewrite list_lookup_alter_ne].
    exists (f sl). rewrite list_lookup_alter_eq, Hs. destruct (Hf sl Hs) as [_ H].
    destruct (H (elem_fst _ _ _ Hin)) as (-> & -> & ?). split; [done|]. split; [done|]. intros Hd. destruct (Hw Hd). auto.
Qed.

(** A free slot can be changed in any way; a slot's socket is nobody's concern. *)
Lemma alter_free_inv x dn depth i f c : inv x dn depth c -> i ∈ free_slots c -> inv x dn depth (set_slot i f c).
Proof. intros H Hi. apply alter_inv; [done|]. intros sl _. by destruct (free_not _ _ _ _ _ H Hi). Qed.

Lemma origin_inv x dn depth i s c : inv x dn depth c -> inv x dn depth (set_slot i (with_origin s) c).
Proof.
  intros H. apply alter_inv; [done|]. intros sl Hs. split; [done|]. intros ([j n] & -> & Hin)%list_elem_of_fmap. simpl in *.
  destruct (i_way _ _ _ _ H j n Hin) as (sl' & Hs' & _ & Hw). simplify_eq. split; [done|]. split; [done|]. intros Hd. by apply Hw.
Qed.

(** Operations that only move between the worker's hands, the queues and the boxes. *)
Lemma moves_inv x x' dn depth c c' :
  inv x dn depth c -> x' ++ under_way c' ≡ₚ x ++ under_way c ->
  kernel c' ++ (port c').*1 ≡ₚ (map_to_list (boxes c')).*1 ->
  (forall p r ov, (p, r) ∈ port c' -> boxes c' !! p = Some ov -> (op ov, (accept_socket ov, r)) ∈ performed c') ->
  (forall e, e ∈ performed c -> e ∈ performed c') ->
  length (queues c') = length (queues c) ->
  slots c' = slots c -> free_slots c' = free_slots c -> cancel_queue c' = cancel_queue c -> futures c' = futures c ->
  issued c' = issued c -> returned c' = returned c -> inv x' dn depth c'.
Proof.
  intros [] E Hb Hp Hm Hq E1 E2 E3 E4 E5 E6. split; unfold holds in *; rewrite ?E, ?E1, ?E2, ?E3, ?E4, ?E5, ?E6; auto.
  - intros n. rewrite E. auto.
  - intros h i n Hh. rewrite E. by apply (i_held0 h).
  - intros i n Hin. destruct (i_done0 i n Hin) as [? (sl & a & r & Hs & Hc & Hr & Hpf)]. split; [done|].
    exists sl, a, r. auto.
  - intros i n. rewrite E. auto.
  - intros n v Hin. destruct (i_ret0 n v Hin) as (a & r & ? & ?). exists a, r. auto.
  - by rewrite Hq.
Qed.

(** Futures that change without a change of what they hold. *)
Lemma futures_inv x dn depth fs c :
  inv x dn depth c ->
  let c' := Conf (slots c) (free_slots c) (wait_slots c) (free_wait_slots c) (waiting_queue c) (queues c) (cancel_queue c)
    (boxes c) (kernel c) (port c) fs (issued c) (woken c) (performed c) (returned c) in
  (forall h i n, holds h i n c' <-> holds h i n c) -> inv x dn depth c'.
Proof.
  intros [] c' Hh. split; auto.
  - intros h i n. rewrite Hh. apply i_held0.
  - intros h1 h2 i1 i2 n. rewrite !Hh. apply i_own0.
  - intros i n Hin. destruct (i_done0 i n Hin) as [[h Hho] ?]. split; [|done]. exists h. by apply Hh.
  - intros i n Hin. destruct (i_way0 i n Hin) as (sl & ? & ? & Hw). exists sl. split; [done|]. split; [done|].
    intros Hd. destruct (Hw Hd) as [? [h Hho]]. split; [done|]. exists h. by apply Hh.
Qed.

(** ** Futures *)

Lemma set_future_holds h h' i n g c f :
  futures c !! h = Some (Some f) ->
  holds h' i n (set_future h g c) <-> (if decide (h' = h) then exists f', g = Some f' /\ f_slot f' = Some (i, n) else holds h' i n c).
Proof.
  intros Hf. unfold holds. simpl. case_decide as E; [subst h'|].
  - rewrite list_lookup_insert_eq by (by eapply lookup_lt_Some). naive_solver.
  - by rewrite list_lookup_insert_ne.
Qed.

(** A future without a slot that stays without one. *)
Lemma idle_inv x dn depth h f g c :
  inv x dn depth c -> futures c !! h = Some (Some f) -> f_slot f = None -> g ≫= f_slot = None -> inv x dn depth (set_future h g c).
Proof.
  intros H Hf Hn Hg. apply (futures_inv _ _ _ (<[h := g]> (futures c)) c H). intros h' i n.
  rewrite (set_future_holds h h' i n g c f Hf). case_decide as E; [subst h'|done]. unfold holds. rewrite Hf. split.
  - intros (f' & -> & Hf'). simpl in Hg. congruence.
  - intros (f' & [= <-] & Hf'). congruence.
Qed.

(** A free slot becomes that of a new operation, which is in hand. *)
Lemma acquire_inv dn depth h f g i rest w o c :
  inv [] dn depth c -> futures c !! h = Some (Some f) -> f_slot f = None -> free_slots c = i :: rest ->
  inv [(i, issued c)] dn depth
    (issue (set_future h (Some (with_slot (Some (i, issued c)) g)) (set_slot i (fun sl => Slot (Some w) (o sl) false false (origin_socket sl)) (set_free rest c)))).
Proof.
  intros H Hf Hn Hfree. set (c' := issue _).
  assert (i < length (slots c))%nat as Hi.
  { rewrite (i_len _ _ _ _ H). assert (i ∈ seq 0 depth) as Hi; [|apply elem_of_seq in Hi; lia].
    rewrite <- (i_places _ _ _ _ H), Hfree. left. }
  assert (forall h' j n, holds h' j n c' <-> (if decide (h' = h) then j = i /\ n = issued c else holds h' j n c)) as Hh.
  { intros h' j n. change (holds h' j n c') with (holds h' j n (set_future h (Some (with_slot (Some (i, issued c)) g)) c)).
    rewrite (set_future_holds h h' j n _ c f Hf). case_decide; [|done]. simpl. split; [by intros (? & [= <-] & [= <- <-])|].
    intros [-> ->]. eexists. done. }
  destruct (free_not _ _ _ _ i H ltac:(rewrite Hfree; left)) as [Hd Hw].
  assert (forall j n, (j, n) ∈ dn ++ under_way c -> j <> i /\ (n < issued c)%nat) as Hold.
  { intros j n Hin. split.
    - intros ->. apply elem_of_app in Hin as [Hin | Hin]; apply elem_fst in Hin; done.
    - apply (i_issued _ _ _ _ H). rewrite !elem_of_app. apply elem_of_app in Hin as [Hin | Hin]; apply elem_snd in Hin; simpl; auto. }
  destruct H. split; auto.
  - simpl. by rewrite length_alter.
  - rewrite Hfree in i_places0. rewrite <- i_places0.
    change (rest ++ dn.*1 ++ i :: (under_way c).*1 ≡ₚ i :: rest ++ dn.*1 ++ (under_way c).*1). by rewrite <- !Permutation_middle.
  - change (NoDup (dn.*2 ++ issued c :: (under_way c).*2 ++ (returned c).*1)). rewrite <- Permutation_middle.
    apply NoDup_cons. split; [|done]. intros Hin. apply i_issued0 in Hin. lia.
  - intros n. change (n ∈ dn.*2 ++ issued c :: (under_way c).*2 ++ (returned c).*1 -> (n < S (issued c))%nat).
    rewrite <- Permutation_middle. intros [-> | Hin]%elem_of_cons; [lia|]. apply i_issued0 in Hin. lia.
  - intros h' j n. rewrite Hh. case_decide as E.
    + intros [-> ->]. right. split; [left|]. simpl. rewrite list_lookup_alter_eq.
      destruct (lookup_lt_is_Some_2 _ _ Hi) as [sl ->]. eexists. done.
    + intros Hin. destruct (i_held0 h' j n Hin) as [? | [Hin' (sl & Hs & Hdr)]]; [by left|]. right.
      split; [by right|]. exists sl. simpl. rewrite list_lookup_alter_ne; [done|]. intros <-. by apply Hw, (elem_fst _ n).
  - intros h1 h2 i1 i2 n. rewrite !Hh. do 2 case_decide; try congruence; [| |by apply i_own0].
    + intros [-> ->] H2. destruct (i_held0 h2 i2 (issued c) H2) as [H3 | [H3 _]]; destruct (Hold i2 (issued c)); (lia || (apply elem_of_app; auto)).
    + intros H2 [-> ->]. destruct (i_held0 h1 i1 (issued c) H2) as [H3 | [H3 _]]; destruct (Hold i1 (issued c)); (lia || (apply elem_of_app; auto)).
  - intros j n Hin. destruct (Hold j n ltac:(apply elem_of_app; auto)) as [Hne _].
    destruct (i_done0 j n Hin) as [[h' Hh'] (sl & a & r & ? & ?)]. split.
    + exists h'. apply Hh. case_decide; [|done]. subst h'. destruct Hh' as (f' & Hf' & ?). congruence.
    + exists sl, a, r. simpl. by rewrite list_lookup_alter_ne.
  - intros j n [[= -> ->] | Hin]%elem_of_cons.
    + simpl. rewrite list_lookup_alter_eq. destruct (lookup_lt_is_Some_2 _ _ Hi) as [sl ->]. eexists. split; [done|].
      split; [done|]. intros _. split; [by eexists|]. exists h. apply Hh. by rewrite decide_True.
    + destruct (Hold j n ltac:(apply elem_of_app; auto)) as [Hne _]. destruct (i_way0 j n Hin) as (sl & ? & ? & Hww).
      exists sl. simpl. rewrite list_lookup_alter_ne by done. split; [done|]. split; [done|]. intros Hdr.
      destruct (Hww Hdr) as [? [h' Hh']]. split; [done|]. exists h'. apply Hh. case_decide; [|done]. subst h'.
      destruct Hh' as (f' & Hf' & ?). congruence.
Qed.

Lemma asked_insert c q l l' e1 e2 :
  queues c !! q = Some l -> e1 ++ entries l' ≡ₚ e2 ++ entries l -> e1 ++ asked (set_queues (<[q := l']> (queues c)) c) ≡ₚ e2 ++ asked c.
Proof. apply bind_insert_perm. Qed.

Lemma entries_snoc l x : entries (l ++ [x]) = entries l ++ entry x.
Proof. unfold entries. rewrite bind_app. simpl. by rewrite app_nil_r. Qed.

(** A request goes into a queue, and comes out of it. *)
Lemma push_request_inv dn depth q l r c :
  inv (entry r) dn depth c -> queues c !! q = Some l -> inv [] dn depth (set_queues (<[q := l ++ [r]]> (queues c)) c).
Proof.
  intros H Hq. apply (moves_inv (entry r) [] dn depth c); auto; try by destruct H.
  - unfold under_way. rewrite !app_assoc. apply Permutation_app_tail, (asked_insert c q l); [done|].
    rewrite entries_snoc. simpl. apply Permutation_app_comm.
  - simpl. apply length_insert.
Qed.

Lemma pop_request_inv dn depth q l r c :
  inv [] dn depth c -> queues c !! q = Some (r :: l) -> inv (entry r) dn depth (set_queues (<[q := l]> (queues c)) c).
Proof.
  intros H Hq. apply (moves_inv [] (entry r) dn depth c); auto; try by destruct H.
  - unfold under_way. rewrite !app_assoc. by apply Permutation_app_tail, (asked_insert c q (r :: l)).
  - simpl. apply length_insert.
Qed.

Lemma queue_there x dn depth t c : inv x dn depth c -> exists l, queues c !! queue_of t c = Some l.
Proof. intros []. apply lookup_lt_is_Some_2. unfold queue_of. apply Nat.mod_upper_bound. lia. Qed.

(** A future lets go of a slot whose operation has ended. *)
Lemma release_inv x dn depth h i n g rets c :
  inv x ((i, n) :: dn) depth c -> holds h i n c -> g ≫= f_slot = None ->
  rets = returned c \/ (exists sl, slots c !! i = Some sl /\ rets = (n, decode (result sl)) :: returned c) ->
  inv x dn depth (set_history (performed c) rets (set_future h g (set_free (i :: free_slots c) (set_slot i (with_waker None) c)))).
Proof.
  intros H (f & Hf & Hfs) Hg Hr.
  assert (forall h' j m, holds h' j m (set_future h g c) <-> h' <> h /\ holds h' j m c) as Hh.
  { intros h' j m. rewrite (set_future_holds h h' j m g c f Hf). case_decide; [|naive_solver]. split; [|naive_solver].
    intros (f' & -> & Hf'). simpl in Hg. congruence. }
  assert (i ∉ dn.*1 /\ n ∉ dn.*2) as [Hi1 Hi2].
  { split.
    - pose proof (slots_nodup _ _ _ _ H) as Hn. apply NoDup_app in Hn as (_ & _ & Hn). by apply NoDup_cons in Hn as [[? _]%not_elem_of_app _].
    - pose proof (i_once _ _ _ _ H) as Hn. by apply NoDup_cons in Hn as [[? _]%not_elem_of_app _]. }
  assert (inv x ((i, n) :: dn) depth (set_slot i (with_waker None) c)) as [].
  { apply alter_inv; [done|]. intros sl Hs. split; [done|]. intros Hin. exfalso. revert Hin. apply (done_not _ _ _ _ i H). left. }
  split; auto.
  - rewrite <- i_places0. simpl. by rewrite <- Permutation_middle.
  - destruct Hr as [-> | (sl & _ & ->)]; [by apply NoDup_cons in i_once0 as [_ ?]|].
    change (NoDup (dn.*2 ++ (x ++ under_way c).*2 ++ n :: (returned c).*1)). rewrite app_assoc, <- Permutation_middle, <- app_assoc. done.
  - intros m Hm. apply i_issued0. destruct Hr as [-> | (sl & _ & ->)]; [by right|].
    change (m ∈ dn.*2 ++ (x ++ under_way c).*2 ++ n :: (returned c).*1) in Hm.
    rewrite app_assoc, <- Permutation_middle, <- app_assoc in Hm. done.
  - intros h' j m [Hne Hh']%Hh. destruct (i_held0 h' j m Hh') as [[[= -> ->] | ?]%elem_of_cons | ?]; [|by left|by right].
    exfalso. apply Hne. apply (i_own _ _ _ _ H _ _ i i n); [done|by exists f].
  - intros h1 h2 i1 i2 m [_ H1]%Hh [_ H2]%Hh. by eapply i_own0.
  - intros j m Hin. destruct (i_done0 j m ltac:(by right)) as [[h' Hh'] ?]. split; [|done]. exists h'. apply Hh. split; [|done].
    intros ->. destruct Hh' as (f' & Hf' & Hs'). simpl in Hf'. assert (m = n) as -> by congruence. by apply Hi2, (elem_snd j).
  - intros j m Hin. destruct (i_way0 j m Hin) as (sl & ? & ? & Hw). exists sl. split; [done|]. split; [done|].
    intros Hd. destruct (Hw Hd) as [? [h' Hh']]. split; [done|]. exists h'. apply Hh. split; [|done].
    intros ->. destruct Hh' as (f' & Hf' & Hs'). simpl in Hf'. assert (j = i) as -> by congruence.
    apply (done_not _ _ _ _ i H); [left|]. by apply (elem_fst _ m).
  - destruct Hr as [-> | (sl & Hs & ->)]; [done|]. intros m v [[= -> ->] | Hin]%elem_of_cons; [|by apply i_ret0].
    destruct (i_done _ _ _ _ H i n ltac:(left)) as [_ (sl' & a & r & Hs' & _ & Hres & Hp)]. simplify_eq.
    exists a, r. split; [done|]. by rewrite Hres.
Qed.

(** A future is dropped before its operation has ended. *)
Lemma orphan_inv x dn depth h i n c :
  inv x dn depth c -> holds h i n c -> (i, n) ∈ x ++ under_way c ->
  inv x dn depth (set_slot i with_dropped (set_slot i (with_waker None) (set_future h None c))).
Proof.
  intros H (f & Hf & Hfs) Hway.
  assert (forall h' j m, holds h' j m (set_future h None c) <-> h' <> h /\ holds h' j m c) as Hh.
  { intros h' j m. rewrite (set_future_holds h h' j m None c f Hf). case_decide; naive_solver. }
  assert (i ∉ dn.*1) as Hi. { intros Hd. apply (done_not _ _ _ _ i H Hd). by apply (elem_fst _ n). }
  pose proof H as []. split; auto.
  - simpl. by rewrite !length_alter.
  - intros h' j m [Hne Hh']%Hh. destruct (i_held0 h' j m Hh') as [? | [Hin (sl & Hs & Hd)]]; [by left|]. right. split; [done|].
    exists sl. simpl. rewrite !list_lookup_alter_ne; [done| |]; intros <-; apply Hne;
      assert (m = n) as -> by (by eapply way_unique); apply (i_own0 _ _ i i n); [done|by exists f|done|by exists f].
  - intros h1 h2 i1 i2 m [_ H1]%Hh [_ H2]%Hh. by eapply i_own0.
  - intros j m Hin. destruct (i_done0 j m Hin) as [[h' Hh'] (sl & a & r & ? & ?)].
    assert (i <> j) as Hne by (intros ->; by apply Hi, (elem_fst _ m)). split.
    + exists h'. apply Hh. split; [|done]. intros ->. destruct Hh' as (f' & Hf' & Hs'). congruence.
    + exists sl, a, r. simpl. by rewrite !list_lookup_alter_ne.
  - intros j m Hin. destruct (i_way0 j m Hin) as (sl & Hs & Hc & Hw). simpl. destruct (decide (i = j)) as [-> |].
    + rewrite !list_lookup_alter_eq, Hs. by eexists.
    + exists sl. rewrite !list_lookup_alter_ne by done. split; [done|]. split; [done|]. intros Hd.
      destruct (Hw Hd) as [? [h' Hh']]. split; [done|]. exists h'. apply Hh. split; [|done]. intros ->.
      destruct Hh' as (f' & Hf' & Hs'). congruence.
Qed.

(** ** The worker's steps *)

Lemma max_ge l x : x ∈ l -> (x <= foldr Nat.max 0 l)%nat.
Proof. induction l as [|y l IH]; [by intros ?%elem_of_nil|]. intros [-> | Hx]%elem_of_cons; simpl; [lia|]. specialize (IH Hx). lia. Qed.

Lemma new_address_fresh b : b !! new_address b = None.
Proof.
  destruct (b !! new_address b) as [ov|] eqn:E; [|done]. apply elem_of_map_to_list in E. apply elem_fst, max_ge in E.
  unfold new_address in E. lia.
Qed.

(** Winsock takes an operation: its structure is under way. *)
Lemma box_insert_inv dn depth p ov c :
  inv [(slot_idx ov, op ov)] dn depth c -> boxes c !! p = None ->
  inv [] dn depth (set_boxes (<[p := ov]> (boxes c)) (p :: kernel c) (port c) c).
Proof.
  intros H Hp. apply (moves_inv [(slot_idx ov, op ov)] [] dn depth c); auto.
  - unfold under_way, boxed. simpl. rewrite map_to_list_insert by done. simpl. unfold asked. simpl. by rewrite <- Permutation_middle.
  - simpl. rewrite map_to_list_insert by done. simpl. by rewrite (i_boxes _ _ _ _ H).
  - simpl. intros p' r ov' Hin Hb. apply lookup_insert_Some in Hb as [[<- <-] | [_ Hb]]; [|by eapply i_port].
    exfalso. assert (p ∈ (map_to_list (boxes c)).*1) as Hk.
    { rewrite <- (i_boxes _ _ _ _ H). apply elem_of_app. right. by apply (elem_fst _ r). }
    apply list_elem_of_fmap in Hk as ([p' ov'] & -> & Hk). apply elem_of_map_to_list in Hk. simpl in *. congruence.
Qed.

Lemma known_box x dn depth c p : inv x dn depth c -> p ∈ kernel c ++ (port c).*1 -> exists ov, boxes c !! p = Some ov.
Proof.
  intros H Hp. rewrite (i_boxes _ _ _ _ H) in Hp. apply list_elem_of_fmap in Hp as ([p' ov] & -> & Hk).
  exists ov. by apply elem_of_map_to_list in Hk.
Qed.

(** The worker takes a structure back. *)
Lemma box_delete_inv dn depth p r rest ov c :
  inv [] dn depth c -> port c = (p, r) :: rest -> boxes c !! p = Some ov ->
  inv [(slot_idx ov, op ov)] dn depth (set_boxes (delete p (boxes c)) (kernel c) rest c).
Proof.
  intros H Hp Hb. apply (moves_inv [] [(slot_idx ov, op ov)] dn depth c); auto.
  - unfold under_way, boxed. simpl. rewrite <- (map_to_list_delete (boxes c) p ov Hb). simpl.
    unfold asked. simpl. by rewrite <- Permutation_middle.
  - simpl. apply (Permutation_cons_inv (a := p)). pose proof (i_boxes _ _ _ _ H) as E. rewrite Hp in E.
    rewrite <- (map_to_list_delete (boxes c) p ov Hb) in E. simpl in E. rewrite <- E. by rewrite <- Permutation_middle.
  - simpl. intros p' r' ov' Hin Hb'. apply lookup_delete_Some in Hb' as [_ Hb']. apply (i_port _ _ _ _ H p' r' ov'); [|done].
    rewrite Hp. by right.
Qed.

(** Winsock ends an operation and posts a packet. *)
Lemma win_complete_inv dn depth k r c : inv [] dn depth c -> exists c', complete k r c = Some c' /\ inv [] dn depth c'.
Proof.
  intros H. unfold complete. destruct (kernel c !! k) as [p|] eqn:Ek; [|by exists c].
  destruct (known_box [] dn depth c p H) as [ov Hb]; [apply elem_of_app; left; by eapply list_elem_of_lookup_2|].
  rewrite Hb. simpl. eexists. split; [done|]. apply (moves_inv [] [] dn depth c); auto.
  - simpl. rewrite <- (i_boxes _ _ _ _ H), fmap_app. pose proof (delete_Permutation _ _ _ Ek) as E.
    rewrite E at 2. rewrite app_assoc. simpl. by rewrite (Permutation_app_comm _ [p]).
  - simpl. intros p' r' ov' [Hin | [= -> ->]%list_elem_of_singleton]%elem_of_app Hb'; [right; by eapply i_port|].
    simplify_eq. left.
  - intros e He. by right.
Qed.

(** The end of an operation that is in the worker's hands. *)
Lemma finish_inv dn depth i n a r c :
  inv [(i, n)] dn depth c -> (n, (a, r)) ∈ performed c -> exists dn', inv [] dn' depth (finish_slot i (report a r) c).
Proof.
  intros H Hp. destruct (i_way _ _ _ _ H i n ltac:(left)) as (sl & Hs & Hc & Hw). unfold finish_slot. rewrite Hs.
  set (f := fun sl => Slot None (report a r) true (dropped sl) (origin_socket sl)).
  assert (i ∉ dn.*1 /\ i ∉ (under_way c).*1) as [Hi1 Hi2].
  { pose proof (slots_nodup _ _ _ _ H) as Hn. apply NoDup_app in Hn as (_ & _ & (_ & Hd & Hn)%NoDup_app).
    apply NoDup_cons in Hn as [? _]. split; [|done]. intros Hin. apply (Hd i Hin). left. }
  assert (forall h j m, holds h j m c -> j = i -> m = n) as Hhold.
  { intros h j m Hh ->. destruct (i_held _ _ _ _ H h i m Hh) as [Hd | [Hd _]]; [by apply elem_fst in Hd|].
    apply (way_unique _ _ _ _ i m n H Hd). left. }
  assert (forall j m, (j, m) ∈ dn \/ (j, m) ∈ under_way c -> i <> j) as Hne.
  { intros j m [Hin | Hin] ->; by apply elem_fst in Hin. }
  destruct (dropped sl) eqn:Ed; [exists dn; apply wake_next_inv|exists ((i, n) :: dn); apply wake_inv].
  - assert (forall h m, ~ holds h i m c) as Hno.
    { intros h m Hh. destruct (i_held _ _ _ _ H h i m Hh) as [Hd | [_ (sl' & ? & ?)]]; [by apply elem_fst in Hd|]. simplify_eq. congruence. }
    destruct H. split; auto; simpl.
    + by rewrite length_alter.
    + rewrite <- i_places0. simpl. by rewrite !app_assoc, <- !Permutation_middle.
    + change (NoDup (dn.*2 ++ n :: (under_way c).*2 ++ (returned c).*1)) in i_once0. rewrite <- Permutation_middle in i_once0.
      by apply NoDup_cons in i_once0 as [_ ?].
    + intros m Hm. apply i_issued0. change (m ∈ dn.*2 ++ n :: (under_way c).*2 ++ (returned c).*1). rewrite <- Permutation_middle. by right.
    + intros h j m Hh. destruct (i_held0 h j m Hh) as [? | [[[= -> ->] | Hin]%elem_of_cons (sl' & ? & ?)]]; [by left|by apply Hno in Hh|].
      right. split; [done|]. exists sl'. rewrite list_lookup_alter_ne; [done|]. apply (Hne j m). by right.
    + intros j m Hin. destruct (i_done0 j m Hin) as [? (sl' & a' & r' & ? & ?)]. split; [done|]. exists sl', a', r'.
      rewrite list_lookup_alter_ne; [done|]. apply (Hne j m). by left.
    + intros j m Hin. destruct (i_way0 j m ltac:(by right)) as (sl' & ? & ?). exists sl'.
      rewrite list_lookup_alter_ne; [done|]. apply (Hne j m). by right.
  - destruct (Hw eq_refl) as [_ Hex]. destruct H. split; auto; simpl.
    + by rewrite length_alter.
    + rewrite <- i_places0. simpl. apply Permutation_app_head. by rewrite <- Permutation_middle.
    + change (NoDup (dn.*2 ++ n :: (under_way c).*2 ++ (returned c).*1)) in i_once0. rewrite <- Permutation_middle in i_once0. done.
    + intros m Hm. apply i_issued0. change (m ∈ dn.*2 ++ n :: (under_way c).*2 ++ (returned c).*1). by rewrite <- Permutation_middle.
    + intros h j m Hh. destruct (i_held0 h j m Hh) as [? | [[[= -> ->] | Hin]%elem_of_cons (sl' & ? & ?)]]; [left; by right|left; left|].
      right. split; [done|]. exists sl'. rewrite list_lookup_alter_ne; [done|]. apply (Hne j m). by right.
    + intros j m [[= -> ->] | Hin]%elem_of_cons.
      * split; [done|]. rewrite list_lookup_alter_eq, Hs. by exists (f sl), a, r.
      * destruct (i_done0 j m Hin) as [? (sl' & a' & r' & ? & ?)]. split; [done|]. exists sl', a', r'.
        rewrite list_lookup_alter_ne; [done|]. apply (Hne j m). by left.
    + intros j m Hin. destruct (i_way0 j m ltac:(by right)) as (sl' & ? & ?). exists sl'.
      rewrite list_lookup_alter_ne; [done|]. apply (Hne j m). by right.
Qed.

Lemma cancels_inv x dn depth l c : inv x dn depth c -> Treiber.stack_ok depth l -> inv x dn depth (set_cancels l c).
Proof. intros [] Hl. by split. Qed.

Lemma cancel_next_inv x dn depth c : inv x dn depth c -> exists o c', cancel_next c = Some (o, c') /\ inv x dn depth c'.
Proof.
  intros H. unfold cancel_next. destruct (Treiber.stack_pop depth _ (i_cancels _ _ _ _ H)) as (o & t' & -> & Ht & _).
  eexists _, _. split; [done|]. by apply cancels_inv.
Qed.

(** ** The calls *)

Lemma history_inv x dn depth e c : inv x dn depth c -> inv x dn depth (set_history (e :: performed c) (returned c) c).
Proof.
  intros H. apply (moves_inv x x dn depth c); auto; try by destruct H.
  - intros p r ov Hp Hb. right. by apply (i_port _ _ _ _ H p r ov).
  - intros e' He. by right.
Qed.

Lemma with_error_inv dn depth i n err c :
  inv [(i, n)] dn depth c -> exists dn', inv [] dn' depth (complete_with_error i n err c).
Proof. intros H. apply (finish_inv dn depth i n 0 (Failed err)); [by apply history_inv|left]. Qed.

Lemma submit_plain_inv dn depth s i n acc a c :
  inv [(i, n)] dn depth c -> exists dn' c', submit_plain s i n acc a c = Some c' /\ inv [] dn' depth c'.
Proof.
  intros H%(origin_inv _ _ _ i s). unfold submit_plain. set (c1 := set_slot i _ c) in *.
  pose proof (new_address_fresh (boxes c1)) as Hf. set (p := new_address (boxes c1)) in *. clearbody c1.
  assert (forall c', c' = set_boxes (<[p := Overlapped i s acc n]> (boxes c1)) (p :: kernel c1) (port c1) c1 ->
    exists dn' c'', Some c' = Some c'' /\ inv [] dn' depth c'') as Hok.
  { intros c' ->. exists dn. eexists. split; [done|]. by apply (box_insert_inv dn depth p (Overlapped i s acc n)). }
  unfold handle_immediate_or_pending. destruct a as [|err]; [by apply Hok|].
  destruct (err =? WSA_IO_PENDING); [by apply Hok|]. simpl. rewrite lookup_insert_eq. simpl.
  rewrite delete_insert_id by done. destruct (with_error_inv dn depth i n err c1 H) as [dn' H'].
  exists dn'. eexists. split; [done|]. by destruct c1.
Qed.

Lemma submit_extension_inv dn depth s i n acc ext a c :
  inv [(i, n)] dn depth c -> exists dn' c', submit_extension s i n acc ext a c = Some c' /\ inv [] dn' depth c'.
Proof.
  intros H. destruct ext as [err|]; [|by apply (submit_plain_inv dn)]. simpl.
  destruct (with_error_inv dn depth i n err _ (origin_inv _ _ _ i s _ H)) as [dn' H']. eauto.
Qed.

Lemma take_inv dn depth q ext a c : inv [] dn depth c -> exists dn' c', take q ext a c = Some c' /\ inv [] dn' depth c'.
Proof.
  intros H. unfold take. destruct (queues c !! q) as [[|[req n] rest]|] eqn:Eq; [by exists dn, c| |by exists dn, c].
  pose proof (pop_request_inv dn depth q rest (req, n) c H Eq) as Hp. unfold entry in Hp.
  destruct req; cbn [req_slot fst snd] in Hp; simpl; eauto using submit_plain_inv, submit_extension_inv.
Qed.

Lemma win_reap_inv dn depth c : inv [] dn depth c -> exists dn' c', reap c = Some c' /\ inv [] dn' depth c'.
Proof.
  intros H. unfold reap. destruct (port c) as [|[p r] rest] eqn:Ep; [by exists dn, c|].
  destruct (known_box [] dn depth c p H) as [ov Hb]; [rewrite Ep; apply elem_of_app; right; left|].
  unfold process_windows_completion. cbn [boxes set_boxes]. rewrite Hb. simpl.
  destruct (finish_inv dn depth (slot_idx ov) (op ov) (accept_socket ov) r _ (box_delete_inv dn depth p r rest ov c H Ep Hb))
    as [dn' H']; [|by eauto]. simpl. apply (i_port _ _ _ _ H p); [rewrite Ep; left|done].
Qed.

(** ** The futures' steps *)

Lemma wake_next_history p r c : set_history p r (wake_next_waiting_fiber c) = wake_next_waiting_fiber (set_history p r c).
Proof. unfold wake_next_waiting_fiber. simpl. destruct (waiting_queue c) as [|k rest]; [done|]. by destruct (wait_slots c !! k ≫= id). Qed.

Lemma create_request f s i req f1 : create_io_request f s i = (req, f1) -> req_slot req = Some i /\ f_slot f1 = f_slot f.
Proof. unfold create_io_request. destruct (f_op f); intros [= <- <-]; done. Qed.

Lemma win_submit_inv dn depth h w t s f o c c1 :
  inv [] dn depth c -> futures c !! h = Some (Some f) -> f_slot f = None -> submit h w t s f c = (o, c1) ->
  inv [] dn depth c1 /\
  match o with Some i => exists f1, futures c1 !! h = Some (Some f1) /\ f_slot f1 = Some (i, issued c) | None => True end.
Proof.
  intros H Hf Hn. unfold submit, acquire_op_slot. destruct (free_slots c) as [|i rest] eqn:Hfree.
  - destruct (free_wait_slots c); intros [= <- <-]; (split; [|done]); by apply (inv_ext _ _ _ c).
  - destruct (create_io_request f s i) as [req f1] eqn:Er. destruct (create_request _ _ _ _ _ Er) as [Hreq Hf1].
    destruct (_ <? QUEUE)%nat; intros [= <- <-].
    + pose proof (acquire_inv dn depth h f f1 i rest w result c H Hf Hn Hfree) as Ha.
      assert (entry (req, issued c) = [(i, issued c)]) as Ee by (unfold entry; simpl; by rewrite Hreq). rewrite <- Ee in Ha.
      destruct (queue_there _ _ _ t c H) as [l Hl]. split.
      * pose proof (push_request_inv dn depth (queue_of t c) l (req, issued c) _ Ha Hl) as Hp.
        change (queue_of t (set_slot i _ _)) with (queue_of t c). simpl. rewrite Hl. exact Hp.
      * simpl. rewrite list_lookup_insert_eq by (by eapply lookup_lt_Some). by eexists.
    + split; [|done]. apply (wake_inv _ _ _ (Some w)), wake_next_inv.
      assert (i ∈ free_slots c) as Hi by (rewrite Hfree; left).
      pose proof (idle_inv _ _ _ h f (Some f1) c H Hf Hn ltac:(simpl; congruence)) as H1.
      apply (alter_free_inv _ _ _ i (fun sl => Slot (Some w) (result sl) false false (origin_socket sl))) in H1; [|done].
      apply (alter_free_inv _ _ _ i (with_waker None)) in H1; [|done].
      by apply (inv_ext _ _ _ _ _ H1).
Qed.

Lemma poll_slot_inv dn depth h w i n f c :
  inv [] dn depth c -> futures c !! h = Some (Some f) -> f_slot f = Some (i, n) ->
  exists dn', inv [] dn' depth (poll_slot h w i n f c).
Proof.
  intros H Hf Hs. assert (holds h i n c) as Hh by (by exists f).
  unfold poll_slot. destruct (slots c !! i) as [sl|] eqn:Esl; [|by exists dn]. destruct (completed sl) eqn:Ec.
  - destruct (i_held _ _ _ _ H h i n Hh) as [Hin | [Hin _]].
    + apply elem_of_Permutation in Hin as [dn' E]. exists dn'. rewrite wake_next_history. apply wake_next_inv.
      eapply release_inv; [by eapply inv_perm|done|done|]. right. by exists sl.
    + exfalso. destruct (i_way _ _ _ _ H i n Hin) as (sl' & ? & ? & _). congruence.
  - exists dn. apply alter_inv; [done|]. intros sl' _. split; [done|]. intros _. simpl. by eauto.
Qed.

Lemma win_poll_inv dn depth h w t s c : inv [] dn depth c -> exists dn', inv [] dn' depth (poll h w t s c).
Proof.
  intros H. unfold poll. destruct (futures c !! h) as [[f|]|] eqn:Hf; [|by exists dn..].
  destruct (f_slot f) as [[i n]|] eqn:Hs; [by apply (poll_slot_inv dn)|].
  destruct (submit h w t s f c) as [o c1] eqn:Es. destruct (win_submit_inv dn depth h w t s f o c c1 H Hf Hs Es) as [H1 Ho].
  destruct o as [i|]; [|by exists dn]. destruct Ho as (f1 & Hf1 & Hs1). rewrite Hf1. by apply (poll_slot_inv dn).
Qed.

Lemma win_drop_inv dn depth h t c : inv [] dn depth c -> exists dn' c', drop_future h t c = Some c' /\ inv [] dn' depth c'.
Proof.
  intros H. unfold drop_future. destruct (futures c !! h) as [[f|]|] eqn:Hf; [|by exists dn, c..].
  destruct (f_slot f) as [[i n]|] eqn:Hs.
  2:{ exists dn. eexists. split; [done|]. by apply (idle_inv _ _ _ h f None). }
  assert (holds h i n c) as Hh by (by exists f).
  destruct (i_held _ _ _ _ H h i n Hh) as [Hin | [Hin _]].
  - destruct (i_done _ _ _ _ H i n Hin) as [_ (sl & a & r & -> & Hc & _)]. simpl. rewrite Hc.
    apply elem_of_Permutation in Hin as [dn' E]. exists dn'. eexists. split; [done|]. apply wake_next_inv.
    exact (release_inv [] dn' depth h i n None (returned c) c (inv_perm _ _ _ _ _ E H) Hh eq_refl (or_introl eq_refl)).
  - destruct (i_way _ _ _ _ H i n Hin) as (sl & Hsl & Hc & _). rewrite Hsl. simpl. rewrite Hc. exists dn.
    pose proof (orphan_inv _ _ _ h i n c H Hh Hin) as Ho. set (c2 := set_slot i with_dropped _) in *.
    change (set_slot i with_dropped (set_slot i (with_waker None) (set_future h None c))) with c2.
    match goal with |- context [Treiber.push _ (cancel_queue ?x)] => set (c3 := x) end. assert (inv [] dn depth c3) as H3.
    { unfold c3. destruct (_ <? QUEUE)%nat; [|done]. destruct (queue_there _ _ _ t c2 Ho) as [l Hl].
      pose proof (push_request_inv dn depth _ l (Cancel i, n) c2 Ho Hl) as Hp.
      assert (l = default [] (queues c2 !! queue_of t c2)) as El by (by rewrite Hl). rewrite El in Hp. exact Hp. }
    destruct (Treiber.stack_push depth i _ (i_cancels _ _ _ _ H3)) as (t' & -> & Ht & _).
    { rewrite <- (i_len _ _ _ _ H). by eapply lookup_lt_Some. }
    eexists. split; [done|]. by apply cancels_inv.
Qed.

Lemma new_inv dn depth o s c : inv [] dn depth c -> exists c', exec (New o s) c = Some c' /\ inv [] dn depth c'.
Proof.
  intros H. eexists. split; [done|]. apply futures_inv; [done|]. intros h i n. unfold holds. simpl. split.
  - intros (f & Hf & Hs). exists f. split; [|done]. apply lookup_app_Some in Hf as [? | [_ Hf]]; [done|].
    destruct (h - length (futures c))%nat; [|done]. simpl in Hf. by simplify_eq.
  - intros (f & Hf & Hs). exists f. split; [|done]. by apply lookup_app_l_Some.
Qed.

Lemma exec_inv dn depth e c : inv [] dn depth c -> exists dn' c', exec e c = Some c' /\ inv [] dn' depth c'.
Proof.
  intros H. destruct e; simpl.
  - destruct (new_inv dn depth o socket c H) as (c' & E & H'). eauto.
  - destruct (win_poll_inv dn depth h w t s c H) as [dn' H']. eauto.
  - by apply (win_drop_inv dn).
  - by apply (take_inv dn).
  - destruct (cancel_next_inv _ _ _ _ H) as (o & c' & -> & H'). simpl. eauto.
  - destruct (win_complete_inv dn depth k r c H) as (c' & E & H'). eauto.
  - by apply (win_reap_inv dn).
Qed.

Lemma win_run_inv es dn depth c : inv [] dn depth c -> exists dn' c', run es c = Some c' /\ inv [] dn' depth c'.
Proof.
  revert dn c. induction es as [|e es IH]; intros dn c H; [by exists dn, c|].
  destruct (exec_inv dn depth e c H) as (dn' & c' & E & H'). simpl. rewrite E. simpl. by apply (IH dn').
Qed.

Lemma win_start_inv depth waits nq : Z.of_nat depth <= U32_MAX -> (0 < nq)%nat -> inv [] [] depth (start depth waits nq).
Proof.
  intros Hd Hq. assert (asked (start depth waits nq) = []) as Ea.
  { change (replicate nq [] ≫= entries = []). clear. induction nq as [|nq IH]; [done|]. exact IH. }
  assert (under_way (start depth waits nq) = []) as Eu by (unfold under_way; by rewrite Ea).
  split; rewrite ?Eu; simpl; try (by intros ? ? ?%elem_of_nil); try done.
  - apply length_replicate.
  - rewrite app_nil_r. apply reverse_Permutation.
  - apply NoDup_nil_2.
  - by intros n ?%elem_of_nil.
  - by intros h i n (f & ? & _).
  - by intros h1 h2 i1 i2 n (f & ? & _).
  - split; [| done | by left |]; simpl; rewrite Nat2Z.id.
    + destruct (0 <? Z.of_nat depth); by rewrite ?length_insert, length_replicate.
    + assert (Forall (Treiber.in_stack depth) (replicate depth 0)) as Hr.
      { destruct depth; [constructor|]. apply Forall_replicate. right. lia. }
      destruct (0 <? Z.of_nat depth); [|done]. apply Forall_insert; [done|]. by left.
  - by rewrite length_replicate.
Qed.

(** ** Properties *)


(** Two operations: one that Winsock takes, one it refuses. *)
Definition two_operations : list event :=
  [New OpRead 5; PollF 0 7 0 9; New OpConnect 6; PollF 1 8 0 9; Take 0 None (LastError 997); Take 0 None (LastError 10061);
   Complete 0 (Transferred 42); Reap; PollF 0 7 0 9; PollF 1 8 0 9].

(** What comes back: the bytes, up to 2^31 of them; the accept's socket; the error. *)
Lemma win_reports bytes socket err :
  0 <= bytes < 2 ^ 31 -> 0 < socket < 2 ^ 31 -> 0 < err ->
  decode (report 0 (Transferred bytes)) = Ok bytes /\ decode (report socket (Transferred bytes)) = Ok socket /\
  forall a, decode (report a (Failed err)) = Err err.
Proof.
  intros Hb Hs He. assert (forall x, 0 <= x < 2 ^ 31 -> decode (to_i32 x) = Ok x) as Hx.
  { intros x Hx. unfold decode, to_i32. rewrite wrap_small by lia. rewrite (proj2 (Z.ltb_lt x _)) by lia.
    by rewrite (proj2 (Z.ltb_ge x 0)) by lia. }
  split; [by apply Hx|]. split.
  - simpl. rewrite (proj2 (Z.eqb_neq socket 0)) by lia. apply Hx. lia.
  - intros a. unfold decode. simpl. rewrite (proj2 (Z.ltb_lt (- err) 0)) by lia. f_equal. lia.
Qed.

(** The loop of the worker does these steps and no others. *)
Lemma win_run_app es es' c : run (es ++ es') c = (c' ← run es c; run es' c').
Proof. revert c. induction es as [|e es IH]; intros c; [done|]. simpl. destruct (exec e c); [apply IH|done]. Qed.

Definition runs_to (c c' : conf) : Prop := exists es, run es c = Some c'.
Lemma runs_refl c : runs_to c c.
Proof. by exists []. Qed.
Lemma runs_trans c1 c2 c3 : runs_to c1 c2 -> runs_to c2 c3 -> runs_to c1 c3.
Proof. intros [es H] [es' H']. exists (es ++ es'). rewrite win_run_app, H. done. Qed.
Lemma runs_one e c c' : exec e c = Some c' -> runs_to c c'.
Proof. intros H. exists [e]. simpl. by rewrite H. Qed.

Lemma loop_turn_runs winsock fuel c c' : loop_turn winsock fuel c = Some c' -> runs_to c c'.
Proof.
  assert (forall n q c c', drain_queue winsock n q c = Some c' -> runs_to c c') as Hq.
  { induction n as [|n IH]; intros q d d'; simpl; [intros [= <-]; apply runs_refl|].
    destruct (winsock d) as [ext a]. intros (d1 & E & H)%bind_Some.
    eapply runs_trans; [by apply (runs_one (Take q ext a))|by eapply IH]. }
  assert (forall qs c c', drain_queues winsock qs c = Some c' -> runs_to c c') as Hqs.
  { induction qs as [|q qs IH]; intros d d'; simpl; [intros [= <-]; apply runs_refl|].
    intros (d1 & E & H)%bind_Some. eapply runs_trans; eauto. }
  assert (forall n c c', drain_cancels n c = Some c' -> runs_to c c') as Hc.
  { induction n as [|n IH]; intros d d'; simpl; [done|]. destruct (cancel_next d) as [[o d1]|] eqn:E; [|by intros].
    assert (runs_to d d1) as H1 by (apply (runs_one CancelNext); simpl; by rewrite E).
    destruct o; intros H; [by eapply runs_trans, IH|by simplify_eq]. }
  assert (forall n c c', reaps n c = Some c' -> runs_to c c') as Hr.
  { induction n as [|n IH]; intros d d'; simpl; [intros [= <-]; apply runs_refl|].
    intros (d1 & E & H)%bind_Some. eapply runs_trans; [by apply (runs_one Reap)|by apply IH]. }
  intros (c1 & E1 & (c2 & E2 & E3)%bind_Some)%bind_Some.
  eapply runs_trans; [by eapply Hqs|]. eapply runs_trans; [by eapply Hc|by eapply Hr].
Qed.

(** A stack of cancellations whose top points to itself never becomes empty again. *)
Lemma pops_for_ever depth i c k : Treiber.stack_ok depth (cancel_queue c) -> (i < depth)%nat -> Treiber.self_loop i (cancel_queue c) ->
  exists c', run (replicate k CancelNext) c = Some c' /\ fst <$> cancel_next c' = Some (Some (Z.of_nat i)).
Proof.
  intros Hs Hi. revert c Hs. induction k as [|k IH]; intros c Hs Hl;
    destruct (Treiber.self_loop_pop depth i _ Hs Hi Hl) as (t' & E & Ht & Hl').
  - exists c. split; [done|]. unfold cancel_next. by rewrite E.
  - simpl. unfold cancel_next at 1. rewrite E. by apply IH.
Qed.

(** An operation is dropped while the worker handles completions, its slot is freed by its completion, the
    slot's next operation is dropped too: the slot is in the stack of cancellations twice, which makes it circular, and the worker
    takes cancellations for ever. *)
Theorem win_cancellations_never_end :
  exists c, run [New OpRead 5; PollF 0 7 0 9; Take 0 None Returned0; DropF 0 0; Complete 0 (Transferred 1); Reap;
                 New OpRead 5; PollF 1 7 0 9; DropF 1 0] (start 1 1 1) = Some c /\
    forall k, exists c', run (replicate k CancelNext) c = Some c' /\ fst <$> cancel_next c' = Some (Some 0).
Proof.
  eexists. split; [vm_compute; reflexivity|]. intros k. apply (pops_for_ever 1 0); [|lia|by split].
  split; [done|done|by right|]. apply Forall_singleton. by right.
Qed.

End WinDriver.
