(* ===== verification/WinSockets.v ===== *)
(** * WinSockets

    The socket types of Windows, src/dtact-util/src/io/windows.rs: [DtactTcpStream], [DtactTcpListener] and [DtactUdpSocket] over the
    driver of WinDriver.v, with the sockets they own, and the two converters of addresses.  Winsock's calls and the
    driver's operations, awaited, are parameters.  A pointer is 64 bits wide and a Windows machine little-endian. *)

From S2P Require Import Prelude SockAddr.
Import SockAddr (SocketAddr).
Open Scope Z_scope.

Module WinSockets.

(** ** Addresses *)

Definition AF_INET : Z := SockAddr.AF_INET.
Definition AF_INET6 : Z := 23.
Definition ne_bytes := SockAddr.ne_bytes false.
Definition from_ne := SockAddr.from_ne false.
Definition to_be := SockAddr.to_be false.
Definition from_be := SockAddr.from_be false.

Definition sockaddr_in6 (port flowinfo : Z) (addr : list Z) (scope : Z) : list Z :=
  ne_bytes 2 AF_INET6 ++ ne_bytes 2 port ++ ne_bytes 4 flowinfo ++ addr ++ ne_bytes 4 scope.

Definition socket_addr_to_win (addr : SocketAddr) : list Z * Z :=
  match addr with
  | SockAddr.V4 octets port =>
      let sin := SockAddr.sockaddr_in false (to_be 2 port) (from_ne octets) in
      (SockAddr.copy_over sin SockAddr.zeroed, Z.of_nat (length sin))
  | SockAddr.V6 octets port flowinfo scope =>
      let sin6 := sockaddr_in6 (to_be 2 port) flowinfo octets scope in
      (SockAddr.copy_over sin6 SockAddr.zeroed, Z.of_nat (length sin6))
  end.

(** Every family but IPv4 is taken for IPv6. *)
Definition win_to_socket_addr (storage : list Z) : SocketAddr :=
  if SockAddr.ss_family false storage =? AF_INET then
    SockAddr.V4 (ne_bytes 4 (from_ne (SockAddr.field 4 4 storage))) (from_be 2 (from_ne (SockAddr.field 2 2 storage)))
  else
    SockAddr.V6 (SockAddr.field 8 16 storage) (from_be 2 (from_ne (SockAddr.field 2 2 storage)))
      (from_ne (SockAddr.field 4 4 storage)) (from_ne (SockAddr.field 24 4 storage)).

(** ** Calls *)

Record Calls (S : Type) := {
  w_socket : Z -> S -> Z * S;                                    (* [WSASocketW]: the family *)
  w_last_error : S -> Z;
  w_bind : Z -> list Z * Z -> S -> result unit Z * S;
  w_udp_bind : SocketAddr -> S -> result Z Z * S;                (* [std::net::UdpSocket::bind] *)
  w_udp_connect : Z -> SocketAddr -> S -> result unit Z * S;
  w_set_nonblocking : Z -> S -> result unit Z * S;
  w_set_nodelay : Z -> S -> result unit Z * S;
  w_update_context : Z -> S -> S;                                (* [setsockopt], its answer not looked at *)
  w_peer_addr : Z -> S -> result SocketAddr Z * S;
  w_associate : Z -> S -> result unit Z * S;                     (* [CreateIoCompletionPort] *)
  w_close : Z -> S -> S
}.
Arguments w_socket {S}. Arguments w_last_error {S}. Arguments w_bind {S}. Arguments w_udp_bind {S}. Arguments w_udp_connect {S}.
Arguments w_set_nonblocking {S}. Arguments w_set_nodelay {S}. Arguments w_update_context {S}. Arguments w_peer_addr {S}.
Arguments w_associate {S}. Arguments w_close {S}.

(** A [DtactIoFuture] that is awaited; its socket is a [u32]. *)
Record Driver (S : Type) := {
  d_read : Z -> Z -> S -> result (list Z) Z * S;
  d_write : Z -> list Z -> S -> result Z Z * S;
  d_accept : Z -> Z -> S -> result unit Z * S;                   (* listener, the socket to accept into *)
  d_connect : Z -> list Z * Z -> S -> result unit Z * S;
  d_send_to : Z -> list Z -> list Z * Z -> S -> result Z Z * S;
  d_recv_from : Z -> Z -> S -> result (list Z * list Z) Z * S    (* the bytes and the storage of the address *)
}.
Arguments d_read {S}. Arguments d_write {S}. Arguments d_accept {S}. Arguments d_connect {S}. Arguments d_send_to {S}.
Arguments d_recv_from {S}.

Definition INVALID_SOCKET : Z := 2 ^ 64 - 1.

Section code.
Context {S : Type} (K : Calls S) (D : Driver S).
(** [GLOBAL_CONFIG]'s number of workers and the length of [WORKERS], once they are set. *)
Context (config_workers workers_len : option Z).

Record socket := Socket { raw : Z; worker_idx : Z }.
Definition fd (sk : socket) : Z := wrap 32 (raw sk).

Definition pick_worker (s : Z) : outcome Z :=
  let num_workers := default 1 config_workers in
  if num_workers =? 0 then Panic else Done (s `mod` num_workers).
(** [WORKERS.get().unwrap()[worker_idx]] *)
Definition worker_of (s : Z) : outcome Z :=
  i ← pick_worker s; match workers_len with Some n => if i <? n then Done i else Panic | None => Panic end.

(** The association with the worker's port; the socket is dropped on an error. *)
Definition associate (s : Z) (st : S) : outcome (result socket Z * S) :=
  i ← worker_of s;
  let '(r, st1) := w_associate K s st in
  Done (match r with Ok _ => (Ok (Socket s i), st1) | Err e => (Err e, w_close K s st1) end).

(** [f(..)?] on a socket that is dropped if it fails. *)
Definition or_close {A B} (s : Z) (x : result A Z * S) (k : A -> S -> outcome (result B Z * S)) : outcome (result B Z * S) :=
  match x with (Ok a, st) => k a st | (Err e, st) => Done (Err e, w_close K s st) end.

(** *** [DtactTcpStream] *)

Definition tcp_from_std (s : Z) (st : S) : outcome (result socket Z * S) :=
  or_close s (w_set_nonblocking K s st) (fun _ st1 => or_close s (w_set_nodelay K s st1) (fun _ st2 => associate s st2)).

Definition read (sk : socket) (len : Z) (st : S) : result (list Z) Z * S :=
  if len =? 0 then (Ok [], st) else d_read D (fd sk) len st.
Definition write (sk : socket) (buf : list Z) (st : S) : result Z Z * S :=
  match buf with [] => (Ok 0, st) | _ => d_write D (fd sk) buf st end.

Definition family (addr : SocketAddr) : Z := match addr with SockAddr.V4 _ _ => AF_INET | SockAddr.V6 _ _ _ _ => AF_INET6 end.
(** 0.0.0.0:0 or [::]:0 *)
Definition any_addr (addr : SocketAddr) : SocketAddr :=
  match addr with
  | SockAddr.V4 _ _ => SockAddr.V4 (replicate 4 0) 0
  | SockAddr.V6 _ _ _ _ => SockAddr.V6 (replicate 16 0) 0 0 0
  end.

Definition connect (addr : SocketAddr) (st : S) : outcome (result socket Z * S) :=
  let '(s, st1) := w_socket K (family addr) st in
  if s =? INVALID_SOCKET then Done (Err (w_last_error K st1), st1)
  else
    or_close s (w_bind K s (socket_addr_to_win (any_addr addr)) st1) (fun _ st2 =>
    or_close s (w_set_nonblocking K s st2) (fun _ st3 =>
    or_close s (w_set_nodelay K s st3) (fun _ st4 =>
      i ← worker_of s;
      or_close s (w_associate K s st4) (fun _ st5 =>
      or_close s (d_connect D (wrap 32 s) (socket_addr_to_win addr) st5) (fun _ st6 =>
        Done (Ok (Socket s i), w_update_context K s st6)))))).

(** *** [DtactTcpListener] *)

Definition listener_from_std (s : Z) (st : S) : outcome (result socket Z * S) :=
  or_close s (w_set_nonblocking K s st) (fun _ st1 => associate s st1).

(** The operation makes the socket it accepts into, always for IPv4. *)
Definition accept (l : socket) (st : S) : outcome (result (socket * SocketAddr) Z * S) :=
  let '(s, st1) := w_socket K AF_INET st in
  match d_accept D (fd l) s st1 with
  | (Err e, st2) => Done (Err e, st2)
  | (Ok _, st2) =>
      let st3 := w_update_context K s st2 in
      or_close s (w_set_nonblocking K s st3) (fun _ st4 =>
      or_close s (w_peer_addr K s st4) (fun peer st5 =>
        '(r, st6) ← tcp_from_std s st5;
        Done (match r with Ok sk => Ok (sk, peer) | Err e => Err e end, st6)))
  end.

(** *** [DtactUdpSocket] *)

Definition udp_from_std := listener_from_std.
Definition udp_bind (addr : SocketAddr) (st : S) : outcome (result socket Z * S) :=
  match w_udp_bind K addr st with (Ok s, st1) => udp_from_std s st1 | (Err e, st1) => Done (Err e, st1) end.
Definition send_to (sk : socket) (buf : list Z) (target : SocketAddr) (st : S) : result Z Z * S :=
  d_send_to D (fd sk) buf (socket_addr_to_win target) st.
Definition recv_from (sk : socket) (len : Z) (st : S) : result (list Z * SocketAddr) Z * S :=
  let '(r, st1) := d_recv_from D (fd sk) len st in
  (match r with Ok (l, storage) => Ok (l, win_to_socket_addr storage) | Err e => Err e end, st1).
Definition udp_connect (sk : socket) (addr : SocketAddr) (st : S) : result unit Z * S := w_udp_connect K (raw sk) addr st.
Definition send (sk : socket) (buf : list Z) (st : S) : result Z Z * S := d_write D (fd sk) buf st.
Definition recv (sk : socket) (len : Z) (st : S) : result (list Z) Z * S := d_read D (fd sk) len st.

(** Dropping a socket of any type closes it. *)
Definition drop_socket (sk : socket) (st : S) : S := w_close K (raw sk) st.

(** ** Ownership *)

Context (opened : S -> gset Z).

Definition keeps {A} (f : S -> result A Z * S) : Prop := forall st, opened (f st).2 = opened st.
Class CallLaws : Prop := {
  wl_socket f st : let '(s, st1) := w_socket K f st in
    if s =? INVALID_SOCKET then opened st1 = opened st else s ∉ opened st /\ opened st1 = {[ s ]} ∪ opened st;
  wl_udp_bind a st : let '(r, st1) := w_udp_bind K a st in
    match r with Ok s => s ∉ opened st /\ opened st1 = {[ s ]} ∪ opened st | Err _ => opened st1 = opened st end;
  wl_bind s a : keeps (w_bind K s a);
  wl_nonblocking s : keeps (w_set_nonblocking K s);
  wl_nodelay s : keeps (w_set_nodelay K s);
  wl_peer s : keeps (w_peer_addr K s);
  wl_associate s : keeps (w_associate K s);
  wl_accept l s : keeps (d_accept D l s);
  wl_connect s a : keeps (d_connect D s a);
  wl_update s st : opened (w_update_context K s st) = opened st;
  wl_close s st : opened (w_close K s st) = opened st ∖ {[ s ]}
}.
Context `{!CallLaws}.

(** A call that is given socket [s], beside those of [so]: it keeps it if it succeeds, and closes it if not. *)
Definition takes {A} (s : Z) (so : gset Z) (x : outcome (result A Z * S)) : Prop :=
  match x with
  | Done (Ok _, st) => opened st = {[ s ]} ∪ so
  | Done (Err _, st) => opened st = so
  | _ => True
  end.

Lemma or_close_takes {A B} s so (x : result A Z * S) (k : A -> S -> outcome (result B Z * S)) :
  s ∉ so -> opened x.2 = {[ s ]} ∪ so -> (forall a st, opened st = {[ s ]} ∪ so -> takes s so (k a st)) ->
  takes s so (or_close s x k).
Proof.
  intros Hn Hs Hk. destruct x as [[a|e] st]; simpl in *; [by apply Hk|]. rewrite wl_close, Hs. set_solver.
Qed.

Lemma associate_takes s so st : s ∉ so -> opened st = {[ s ]} ∪ so -> takes s so (associate s st).
Proof.
  intros Hn Hs. unfold associate. destruct (worker_of s) as [i| |]; [|done..]. simpl.
  pose proof (wl_associate s st) as Ha. destruct (w_associate K s st) as [[|e] st1]; simpl in *; [congruence|].
  rewrite wl_close, Ha, Hs. set_solver.
Qed.

Lemma tcp_from_std_takes s so st : s ∉ so -> opened st = {[ s ]} ∪ so -> takes s so (tcp_from_std s st).
Proof.
  intros Hn Hs. unfold tcp_from_std. apply or_close_takes; [done|by rewrite wl_nonblocking|]. intros _ st1 H1.
  apply or_close_takes; [done|by rewrite wl_nodelay|]. intros _ st2 H2. by apply associate_takes.
Qed.

Lemma listener_from_std_takes s so st : s ∉ so -> opened st = {[ s ]} ∪ so -> takes s so (listener_from_std s st).
Proof.
  intros Hn Hs. unfold listener_from_std. apply or_close_takes; [done|by rewrite wl_nonblocking|]. intros _ st1 H1.
  by apply associate_takes.
Qed.

(** The socket of a result is new and its result's; nothing else is left open. *)
Definition makes (so : gset Z) (x : outcome (result socket Z * S)) : Prop :=
  match x with
  | Done (Ok sk, st) => raw sk ∉ so /\ opened st = {[ raw sk ]} ∪ so
  | Done (Err _, st) => opened st = so
  | _ => True
  end.

(** What the constructors return holds the socket they were given. *)
Definition of_socket {A} (get : A -> Z) (s : Z) (x : outcome (result A Z * S)) : Prop :=
  match x with Done (Ok a, _) => get a = s | _ => True end.

Lemma or_close_of {A B} get s (x : result A Z * S) (k : A -> S -> outcome (result B Z * S)) :
  (forall a st, of_socket get s (k a st)) -> of_socket get s (or_close s x k).
Proof. intros Hk. destruct x as [[a|e] st]; [apply Hk|done]. Qed.

Lemma associate_of s st : of_socket raw s (associate s st).
Proof. unfold associate. destruct (worker_of s); [|done..]. simpl. by destruct (w_associate K s st) as [[|] ?]. Qed.

Lemma tcp_from_std_of s st : of_socket raw s (tcp_from_std s st).
Proof. unfold tcp_from_std. apply or_close_of. intros _ st1. apply or_close_of. intros _ st2. apply associate_of. Qed.

Lemma listener_from_std_of s st : of_socket raw s (listener_from_std s st).
Proof. unfold listener_from_std. apply or_close_of. intros _ st1. apply associate_of. Qed.

Lemma takes_makes s so x : s ∉ so -> takes s so x -> of_socket raw s x -> makes so x.
Proof. intros Hn Ht Ho. destruct x as [[[sk|e] st]| |]; simpl in *; [by subst s|done..]. Qed.
End code.

Section ownership.
Context {S : Type} (K : Calls S) (D : Driver S) (config_workers workers_len : option Z) (opened : S -> gset Z) `{!CallLaws K D opened}.

(** Sockets are owned: one that is handed to a type is its own or closed; one that a call makes is its result's, and a
    call that fails leaves none open.  The exception is [accept]: if the operation fails, the socket it was to accept into stays
    open. *)
Theorem win_sockets_are_owned :
  (forall s so st, s ∉ so -> opened st = {[ s ]} ∪ so ->
     takes opened s so (tcp_from_std K config_workers workers_len s st) /\
     takes opened s so (listener_from_std K config_workers workers_len s st)) /\
  (forall addr st, makes opened (opened st) (connect K D config_workers workers_len addr st)) /\
  (forall addr st, makes opened (opened st) (udp_bind K config_workers workers_len addr st)) /\
  (forall l st, (w_socket K AF_INET st).1 <> INVALID_SOCKET ->
     match accept K D config_workers workers_len l st with
     | Done (Ok (sk, _), st') => raw sk ∉ opened st /\ opened st' = {[ raw sk ]} ∪ opened st
     | Done (Err _, st') =>
         let '(s, st1) := w_socket K AF_INET st in
         match d_accept D (fd l) s st1 with
         | (Err _, _) => opened st' = {[ s ]} ∪ opened st /\ s ∉ opened st
         | (Ok _, _) => opened st' = opened st
         end
     | _ => True
     end).
Proof.
  split_and!.
  - intros s so st Hn Hs. split; [by apply (tcp_from_std_takes K D config_workers workers_len opened)|by apply (listener_from_std_takes K D config_workers workers_len opened)].
  - intros addr st. unfold connect. pose proof (wl_socket K D opened (family addr) st) as Hk.
    destruct (w_socket K (family addr) st) as [s st1]. destruct (s =? INVALID_SOCKET); [done|]. destruct Hk as [Hn Hs].
    apply (takes_makes opened s); [done| |].
    + apply (or_close_takes K D opened); [done|by rewrite (wl_bind K D opened)|]. intros _ st2 H2.
      apply (or_close_takes K D opened); [done|by rewrite (wl_nonblocking K D opened)|]. intros _ st3 H3.
      apply (or_close_takes K D opened); [done|by rewrite (wl_nodelay K D opened)|]. intros _ st4 H4.
      destruct (worker_of config_workers workers_len s); [|done..]. simpl.
      apply (or_close_takes K D opened); [done|by rewrite (wl_associate K D opened)|]. intros _ st5 H5.
      apply (or_close_takes K D opened); [done|by rewrite (wl_connect K D opened)|]. intros _ st6 H6.
      simpl. by rewrite (wl_update K D opened).
    + do 3 (apply or_close_of; intros _ ?). destruct (worker_of config_workers workers_len s); [|done..]. simpl.
      by do 2 (apply or_close_of; intros _ ?).
  - intros addr st. unfold udp_bind. pose proof (wl_udp_bind K D opened addr st) as Hk.
    destruct (w_udp_bind K addr st) as [[s|e] st1]; [|done]. destruct Hk as [Hn Hs].
    apply (takes_makes opened s); [done|by apply (listener_from_std_takes K D config_workers workers_len opened)|apply listener_from_std_of].
  - intros l st Hv. unfold accept. pose proof (wl_socket K D opened AF_INET st) as Hk.
    destruct (w_socket K AF_INET st) as [s st1]. simpl in Hv. rewrite (proj2 (Z.eqb_neq s _)) in Hk by done.
    destruct Hk as [Hn Hs]. pose proof (wl_accept K D opened (fd l) s st1) as Ha.
    destruct (d_accept D (fd l) s st1) as [[|e] st2]; simpl in Ha; [|split; [congruence|done]].
    rewrite Hs in Ha. rewrite <- (wl_update K D opened s) in Ha. set (st3 := w_update_context K s st2) in *.
    unfold or_close. pose proof (wl_nonblocking K D opened s st3) as H3.
    destruct (w_set_nonblocking K s st3) as [[|e] st4]; simpl in H3; [|rewrite (wl_close K D opened); set_solver].
    pose proof (wl_peer K D opened s st4) as H4.
    destruct (w_peer_addr K s st4) as [[peer|e] st5]; simpl in H4; [|rewrite (wl_close K D opened); set_solver].
    pose proof (tcp_from_std_takes K D config_workers workers_len opened s (opened st) st5 Hn ltac:(congruence)) as H5.
    pose proof (tcp_from_std_of K config_workers workers_len s st5) as H6.
    destruct (tcp_from_std K config_workers workers_len s st5) as [[[sk|e] st6]| |]; simpl in *; [by subst s|done..].
Qed.
End ownership.

Ltac win_fields := unfold SockAddr.copy_over, SockAddr.sockaddr_in; rewrite <- ?app_assoc;
  repeat first [rewrite SockAddr.field_head by (by rewrite ?SockAddr.ne_bytes_length)
               |rewrite (SockAddr.field_skip _ 2) by (rewrite ?SockAddr.ne_bytes_length; lia); simpl Nat.sub
               |rewrite (SockAddr.field_skip _ 4) by (rewrite ?SockAddr.ne_bytes_length; lia); simpl Nat.sub
               |rewrite (SockAddr.field_skip _ 16) by (rewrite ?SockAddr.ne_bytes_length; lia); simpl Nat.sub].

(** Every well-formed address survives the way to Winsock and back. *)
Lemma win_addr_roundtrip addr : SockAddr.well_formed addr ->
  let '(storage, len) := socket_addr_to_win addr in
  len = (match addr with SockAddr.V4 _ _ => 16 | SockAddr.V6 _ _ _ _ => 28 end) /\ win_to_socket_addr storage = addr.
Proof.
  destruct addr as [o p|o p f s]; cbn [SockAddr.well_formed socket_addr_to_win]; intros Hw; destruct_and?;
    unfold win_to_socket_addr, SockAddr.ss_family, sockaddr_in6, ne_bytes, from_ne, to_be, from_be;
    (split; [by rewrite ?length_app, ?SockAddr.ne_bytes_length; simpl; lia|]); win_fields.
  - rewrite SockAddr.from_ne_const by (unfold SockAddr.AF_INET; lia). unfold AF_INET. rewrite Z.eqb_refl.
    rewrite SockAddr.port_roundtrip by done. match goal with H : length o = 4%nat |- _ => rewrite <- H end.
    by rewrite (SockAddr.from_ne_ne_bytes false (length o)), SockAddr.ne_bytes_from_ne by (by apply SockAddr.from_ne_word || done).
  - rewrite SockAddr.from_ne_const by (unfold AF_INET6; lia). change (AF_INET6 =? AF_INET) with false. cbv iota.
    rewrite SockAddr.port_roundtrip by done. by rewrite !SockAddr.from_ne_ne_bytes by done.
Qed.

(** ** The laws hold of a system that is a set of open sockets *)

Definition a_new (st : gset Z) : Z := fresh st.
Definition demo_calls : Calls (gset Z) := {|
  w_socket := fun _ st => if a_new st =? INVALID_SOCKET then (INVALID_SOCKET, st) else (a_new st, {[ a_new st ]} ∪ st);
  w_last_error := fun _ => 10024;
  w_bind := fun _ _ st => (Ok tt, st);
  w_udp_bind := fun _ st => (Ok (a_new st), {[ a_new st ]} ∪ st);
  w_udp_connect := fun _ _ st => (Ok tt, st);
  w_set_nonblocking := fun _ st => (Ok tt, st);
  w_set_nodelay := fun _ st => (Ok tt, st);
  w_update_context := fun _ st => st;
  w_peer_addr := fun _ st => (Ok (SockAddr.V4 [127; 0; 0; 1] 80), st);
  w_associate := fun s st => (if s =? 7 then Err 5 else Ok tt, st);
  w_close := fun s st => st ∖ {[ s ]}
|}.
Definition demo_driver : Driver (gset Z) := {|
  d_read := fun _ _ st => (Ok [], st);
  d_write := fun _ buf st => (Ok (Z.of_nat (length buf)), st);
  d_accept := fun _ s st => (if s =? 5 then Err 10060 else Ok tt, st);
  d_connect := fun _ _ st => (Ok tt, st);
  d_send_to := fun _ buf _ st => (Ok (Z.of_nat (length buf)), st);
  d_recv_from := fun _ _ st => (Ok ([], (socket_addr_to_win (SockAddr.V4 [127; 0; 0; 1] 80)).1), st)
|}.

Lemma demo_socket_laws : CallLaws demo_calls demo_driver id.
Proof.
  split; unfold keeps; simpl; try done.
  - intros _ st. destruct (Z.eqb_spec (a_new st) INVALID_SOCKET) as [E|E]; simpl.
    + done.
    + rewrite (proj2 (Z.eqb_neq _ _) E). split; [apply is_fresh|done].
  - intros _ st. split; [apply is_fresh|done].
Qed.

End WinSockets.
