(* ===== verification/NamedPipes.v ===== *)
(** * NamedPipes

    The named pipes of Windows, src/dtact-util/src/io/named_pipe_windows.rs: their operations with a pool of slots per
    shard, and the handles of servers and clients.  Slots, futures and the worker's packets are as in FsPort.v; what differs
    is that a call that succeeds at once is not waited for.

    The slots of all shards are numbered through: slot [i] of shard [k] is [k * depth + i]. *)

From S2P Require Import Prelude FsRing FsPort.
Import FsRing FsPort.
Open Scope Z_scope.

Module NamedPipes.

(** ** Operations *)

Section slots.
(** The depth of a shard. *)
Context (depth : nat).

Definition in_shard (k i : nat) : bool := (Nat.div i depth =? k)%nat.

(** The first free slot of shard [k], and the others. *)
Fixpoint pop_shard (k : nat) (l : list nat) : option (nat * list nat) :=
  match l with
  | [] => None
  | i :: rest => if in_shard k i then Some (i, rest) else '(j, rest') ← pop_shard k rest; Some (j, i :: rest')
  end.
Definition set_free (l : list nat) (c : conf) : conf :=
  Conf (slots c) (heap c) l (pending c) (in_ring c) (cq c) (worker c) (ops c) (leaked c) (lost c)
    (performed c) (returned c) (woken c) (wild c).
Definition acquire_slot (k : nat) (c : conf) : Slot * conf :=
  match pop_shard k (free c) with
  | Some (i, rest) => FsRing.acquire_slot (set_free (i :: rest) c)
  | None => let '(s, c1) := FsRing.acquire_slot (set_free [] c) in (s, set_free (free c) c1)
  end.

(** What [ReadFile] or [WriteFile] answers: done, with the bytes, or the last error. *)
Inductive answer := Done_now (bytes : Z) | LastError (err : Z).

(** A packet that the port holds for operation [h] in slot [s]. *)
Definition post (s : Slot) (h : nat) (r : Z) (c : conf) : conf :=
  Conf (slots c) (heap c) (free c) (pending c) (in_ring c) (cq c ++ [(s, h, r)]) (worker c) (ops c) (leaked c) (lost c)
    (performed c) (returned c) (woken c) (wild c).
Definition give_result (h : nat) (r : Z) (c : conf) : conf :=
  Conf (slots c) (heap c) (free c) (pending c) (in_ring c) (cq c) (worker c) (ops c) (leaked c) (lost c)
    (performed c) ((h, r) :: returned c) (woken c) (wild c).

(** [issue_read] and [issue_write] on a thread of shard [k]: a result that is there at once is stored and returned, and the operation
    dropped.  The port posts a packet for a success, then too. *)
Definition issue (k : nat) (a : answer) (c : conf) : conf :=
  let '(s, c1) := acquire_slot k c in
  let h := length (ops c1) in
  let ready r c := drop_op h (give_result h r (store_result s r (record h r (new_op s [] c)))) in
  match a with
  | Done_now bytes => post s h (encode_ok bytes) (ready (encode_ok bytes) c1)
  | LastError err => if err =? ERROR_IO_PENDING then new_op s [(s, h)] c1 else ready (encode_err err) c1
  end.

Definition ERROR_PIPE_CONNECTED : Z := 535.

(** [issue_connect]: [None] if [ConnectNamedPipe] succeeds. *)
Definition issue_connect (k : nat) (err : option Z) (c : conf) : conf :=
  let '(s, c1) := acquire_slot k c in
  let h := length (ops c1) in
  match err with
  | Some e =>
      if e =? ERROR_PIPE_CONNECTED then store_result s (encode_ok 0) (record h (encode_ok 0) (new_op s [] c1))
      else if negb (e =? ERROR_IO_PENDING) then store_result s (encode_err e) (record h (encode_err e) (new_op s [] c1))
      else new_op s [(s, h)] c1
  | None => new_op s [(s, h)] c1
  end.

Inductive event :=
| Issue (k : nat) (a : answer)
| IssueConnect (k : nat) (err : option Z)
| Poll (h w : nat)
| DropOp (h : nat)
| Finish (i : nat) (bytes : Z)
| Packet.

Definition exec (e : event) (c : conf) : conf :=
  match e with
  | Issue k a => issue k a c
  | IssueConnect k err => issue_connect k err c
  | Poll h w => poll h w c
  | DropOp h => drop_op h c
  | Finish i bytes => finish i bytes c
  | Packet => packet c
  end.
Definition run (es : list event) (c : conf) : conf := fold_left (fun c e => exec e c) es c.

(** [init_sharded_pool] *)
Definition start (shards : nat) : conf := FsPort.start (shards * depth).
End slots.

(** ** Handles *)

(** The system calls; [Z] is a handle. *)
Record Calls (S : Type) := {
  c_create_pipe : list Z -> S -> Prelude.result Z Z * S;                 (* [CreateNamedPipeW] *)
  c_create_file : list Z -> S -> Prelude.result Z Z * S;                 (* [CreateFileW] *)
  c_wait : list Z -> S -> S;                                     (* [WaitNamedPipeW] *)
  c_associate : Z -> S -> Prelude.result unit Z * S;
  c_connect : Z -> S -> Prelude.result Z Z * S;                          (* [issue_connect(..).await] *)
  c_read : Z -> Z -> S -> Prelude.result (list Z) Z * S;                 (* [issue_read] and the await *)
  c_write : Z -> list Z -> S -> Prelude.result Z Z * S;
  c_close : Z -> S -> S
}.
Arguments c_create_pipe {S}. Arguments c_create_file {S}. Arguments c_wait {S}. Arguments c_associate {S}.
Arguments c_connect {S}. Arguments c_read {S}. Arguments c_write {S}. Arguments c_close {S}.

Definition ERROR_PIPE_BUSY : Z := 231.

Section handles.
Context {S : Type} (K : Calls S).

(** [CreateIoCompletionPort] on a new handle; one that fails closes it. *)
Definition associate (h : Z) (s : S) : Prelude.result Z Z * S :=
  let '(r, s1) := c_associate K h s in match r with Ok _ => (Ok h, s1) | Err e => (Err e, c_close K h s1) end.

(** [DtactNamedPipeServer::create] *)
Definition server_create (name : list Z) (s : S) : Prelude.result Z Z * S :=
  let '(r, s1) := c_create_pipe K name s in match r with Ok h => associate h s1 | Err e => (Err e, s1) end.

(** [Drop] of the three types. *)
Definition drop_handle (h : Z) (s : S) : S := c_close K h s.

(** [DtactNamedPipeServer::connect]: the handle passes to the connection; an error drops the server. *)
Definition server_connect (h : Z) (s : S) : Prelude.result Z Z * S :=
  let '(r, s1) := c_connect K h s in match r with Ok _ => (Ok h, s1) | Err e => (Err e, drop_handle h s1) end.

Fixpoint connect_blocking (fuel : nat) (name : list Z) (s : S) : outcome (Prelude.result Z Z * S) :=
  match fuel with
  | O => OutOfFuel
  | Datatypes.S fuel' =>
      let '(r, s1) := c_create_file K name s in
      match r with
      | Ok h => Done (Ok h, s1)
      | Err e => if negb (e =? ERROR_PIPE_BUSY) then Done (Err e, s1) else connect_blocking fuel' name (c_wait K name s1)
      end
  end.

(** [DtactNamedPipeClient::connect], whose thread sends its result. *)
Definition client_connect (fuel : nat) (name : list Z) (s : S) : outcome (Prelude.result Z Z * S) :=
  '(r, s1) ← connect_blocking fuel name s;
  Done (match r with Ok h => associate h s1 | Err e => (Err e, s1) end).

Definition pipe_read (h len : Z) (s : S) : Prelude.result (list Z) Z * S := if len =? 0 then (Ok [], s) else c_read K h len s.
Definition pipe_write (h : Z) (buf : list Z) (s : S) : Prelude.result Z Z * S :=
  match buf with [] => (Ok 0, s) | _ => c_write K h buf s end.

(** *** Ownership *)

Context (opened : S -> gset Z) (busy : S -> nat).

(** A new handle or none; the instances are busy for at most [busy] more attempts. *)
Class CallLaws : Prop := {
  cl_create_pipe name s : let '(r, s') := c_create_pipe K name s in
    match r with Ok h => h ∉ opened s /\ opened s' = {[ h ]} ∪ opened s | Err _ => opened s' = opened s end;
  cl_create_file name s : let '(r, s') := c_create_file K name s in
    match r with
    | Ok h => h ∉ opened s /\ opened s' = {[ h ]} ∪ opened s
    | Err e => opened s' = opened s /\ (e = ERROR_PIPE_BUSY -> (busy s' < busy s)%nat)
    end;
  cl_wait name s : opened (c_wait K name s) = opened s /\ (busy (c_wait K name s) <= busy s)%nat;
  cl_associate h s : opened (c_associate K h s).2 = opened s;
  cl_connect h s : opened (c_connect K h s).2 = opened s;
  cl_close h s : opened (c_close K h s) = opened s ∖ {[ h ]}
}.
Context `{!CallLaws}.

(** The handle that a call makes is its result's, and no other. *)
Definition makes (s s' : S) (r : Prelude.result Z Z) : Prop :=
  match r with Ok h => h ∉ opened s /\ opened s' = {[ h ]} ∪ opened s | Err _ => opened s' = opened s end.

Lemma associate_makes h s s0 : opened s = {[ h ]} ∪ opened s0 -> h ∉ opened s0 ->
  makes s0 (associate h s).2 (associate h s).1.
Proof.
  intros Ho Hn. unfold associate. pose proof (cl_associate h s) as Ha. destruct (c_associate K h s) as [[|e] s1]; simpl in *.
  - by rewrite Ha.
  - rewrite cl_close, Ha, Ho. set_solver.
Qed.

Lemma connect_blocking_returns fuel name s : (busy s < fuel)%nat ->
  exists r s', connect_blocking fuel name s = Done (r, s') /\ makes s s' r.
Proof.
  revert s. induction fuel as [|fuel IH]; intros s Hf; [lia|]. simpl.
  pose proof (cl_create_file name s) as Hc. destruct (c_create_file K name s) as [[h|e] s1].
  - by exists (Ok h), s1.
  - destruct Hc as [Ho Hb]. destruct (Z.eqb_spec e ERROR_PIPE_BUSY) as [->|]; simpl; [|by exists (Err e), s1].
    destruct (cl_wait name s1) as [Hw Hw2]. destruct (IH (c_wait K name s1)) as (r & s' & E & Hm); [specialize (Hb eq_refl); lia|].
    exists r, s'. split; [done|]. unfold makes in *. by rewrite Hw, Ho in Hm.
Qed.

(** Servers and clients own their handle: a call that fails leaves none behind, a server that connects passes its own on. *)
Lemma pipe_handles_are_owned fuel name h s : (busy s < fuel)%nat -> h ∈ opened s ->
  makes s (server_create name s).2 (server_create name s).1 /\
  (exists r s', client_connect fuel name s = Done (r, s') /\ makes s s' r) /\
  match server_connect h s with
  | (Ok h', s') => h' = h /\ opened s' = opened s
  | (Err _, s') => opened s' = opened s ∖ {[ h ]}
  end.
Proof.
  intros Hf Hh. split; [|split].
  - unfold server_create. pose proof (cl_create_pipe name s) as Hc. destruct (c_create_pipe K name s) as [[h'|e] s1]; [|done].
    destruct Hc. by apply associate_makes.
  - unfold client_connect. destruct (connect_blocking_returns fuel name s Hf) as (r & s1 & -> & Hm). simpl.
    destruct r as [h'|e]; [|by exists (Err e), s1]. destruct Hm as [Hn Ho]. pose proof (associate_makes h' s1 s Ho Hn).
    destruct (associate h' s1) as [r s2]. by exists r, s2.
  - unfold server_connect. pose proof (cl_connect h s) as Hc. destruct (c_connect K h s) as [[n|e] s1]; simpl in Hc; [done|].
    unfold drop_handle. by rewrite cl_close, Hc.
Qed.
End handles.

(** The laws hold of a system that is a set of handles, with an instance that is busy for a while. *)
Definition demo_calls : Calls (gset Z * nat) := {|
  c_create_pipe := fun _ s => (Ok (base.fresh s.1), ({[ base.fresh s.1 ]} ∪ s.1, s.2));
  c_create_file := fun _ s =>
    match s.2 with
    | O => (Ok (base.fresh s.1), ({[ base.fresh s.1 ]} ∪ s.1, O))
    | Datatypes.S n => (Err ERROR_PIPE_BUSY, (s.1, n))
    end;
  c_wait := fun _ s => s;
  c_associate := fun h s => (if h =? 7 then Err 5 else Ok tt, s);
  c_connect := fun h s => (if h =? 8 then Err 6 else Ok 0, s);
  c_read := fun _ _ s => (Ok [], s);
  c_write := fun _ buf s => (Ok (Z.of_nat (length buf)), s);
  c_close := fun h s => (s.1 ∖ {[ h ]}, s.2)
|}.

Lemma demo_pipe_laws : CallLaws demo_calls fst snd.
Proof.
  split; simpl; try done.
  - intros _ [s n]. split; [apply is_fresh|done].
  - intros _ [s [|n]]; simpl; [split; [apply is_fresh|done]|]. split; [done|]. lia.
Qed.

(** ** A success at once leaves a packet behind *)

(** A read that is done at once gives its slot back while its packet is in the port.  The next read, which has to wait, gets that
    slot, and the packet ends it: it returns the four bytes of the first read while Windows still has it, and its
    buffer has not been written. *)
Theorem pipe_read_returns_anothers_result :
  let c := run 2 [Issue 0 (Done_now 4); Issue 0 (LastError ERROR_IO_PENDING); Packet; Poll 1 7] (start 2 1) in
  returned c = [(1%nat, 4); (0%nat, 4)] /\ in_ring c = [(Pooled 1, 1%nat)] /\ performed c = [(0%nat, 4)].
Proof. split_and!; reflexivity. Qed.

(** When the pool is exhausted the slot is on the heap, freed before the packet is taken: the worker writes into freed memory. *)
Theorem pipe_read_writes_freed_memory :
  wild (run 1 [Issue 0 (LastError ERROR_IO_PENDING); Issue 0 (Done_now 4); Packet] (start 1 1)) = true.
Proof. reflexivity. Qed.

End NamedPipes.
