(* ===== verification/Ffi.v ===== *)
(** * Ffi

    The C interface of dtact-util, src/dtact-util/src/ffi: every function of io.rs, fs.rs, process.rs, signal.rs, stream.rs
    and timer.rs over the conventions of mod.rs: owning pointers from [Box::into_raw], an error string per thread, and a
    blocking executor.

    The state is one thread's: the objects C owns, by address, the last error, what the functions have stored into the
    caller's memory, and the world.  The Rust operations behind the functions are a signature of effects, interpreted by a
    parameter: [direct] ones return at once, [async] ones are futures that [block_on] polls.  A call's outcome is [Undefined]
    where an address is not a live object of the type, and [Waiting] where the future is not ready after [fuel] polls.

    [signature] states what the header promises of each function: the handles it takes, which it consumes and which it
    makes, its error sentinel and the caller's buffers.  [session] is a C program that keeps to it. *)

From Stdlib Require Import Ascii.
From stdpp Require Import strings.
From S2P Require Import Prelude.
Open Scope Z_scope.

Module Ffi.

(** The types of the objects. *)
Inductive kind :=
| TcpListener | TcpStream | UdpSocket | UnixListener | UnixStream | UnixDatagram | NamedPipeServer | NamedPipeHandle
| File | Child | ChildStdin | ChildStdout | ChildStderr | SignalStream | Stream | Interval.

#[global] Instance kind_eq_dec : EqDecision kind.
Proof. solve_decision. Defined.

(** ** The Rust side *)

Section effects.
(** Addresses, objects, errors, permissions. *)
Context {A V E Q : Type}.

Inductive target := ToAddr (addr : A) | ToPath (path : string).

(** Functions on paths that return nothing, and those that return text. *)
Inductive path_op :=
| Rename (from to : string) | HardLink (src dst : string) | Symlink (src dst : string) | SymlinkDir (src dst : string)
| SymlinkFile (src dst : string) | WriteAll (path contents : string) | CreateDir (path : string) | CreateDirAll (path : string)
| RemoveDir (path : string) | RemoveFile (path : string) | RemoveDirAll (path : string).

Inductive text_op := ReadLink (path : string) | Canonicalize (path : string) | ReadAll (path : string) | ReadToString (path : string).

(** Futures, by what they return.  A read returns the bytes it has put in the buffer, the operations through [&mut] the
    object as they leave it. *)
Inductive async : Type -> Type :=
| Accept (v : V) : async (result V E)
| ConnectTcp (addr : A) : async (result V E)
| BindUdp (addr : A) : async (result V E)
| ConnectUnix (path : string) : async (result V E)
| ConnectPipe (name : string) : async (result V E)
| PipeConnect (server : V) : async (result V E)
| CreateFile (path : string) : async (result V E)
| OpenFile (path : string) : async (result V E)
| Read (v : V) (len : Z) : async (result string E)
| ReadAt (v : V) (len off : Z) : async (result string E)
| ReadMut (v : V) (len : Z) : async (result string E * V)
| Write (v : V) (data : string) : async (result Z E)
| WriteAt (v : V) (data : string) (off : Z) : async (result Z E)
| WriteMut (v : V) (data : string) : async (result Z E * V)
| SendTo (v : V) (data : string) (t : target) : async (result Z E)
| RecvFrom (v : V) (len : Z) : async (result (string * A) E)
| RecvFromUnix (v : V) (len : Z) : async (result (string * option string) E)
| Connect (v : V) (t : target) : async (result unit E)
| LookupHost (host : string) : async (result (list A) E)
| SyncAll (v : V) : async (result unit E)
| OnPath (op : path_op) : async (result unit E)
| TextOf (op : text_op) : async (result string E)
| CopyFile (from to : string) : async (result Z E)
| TryExists (path : string) : async (result bool E)
| Metadata (path : string) : async (result Q E)
| SetPermissions (path : string) (perm : Q) : async (result unit E)
| Wait (v : V) : async (result (option Z) E)
| Sleep (millis : Z) : async unit
| RecvSignal (v : V) : async unit
| Tick (v : V) : async V.

(** Operations that return at once. *)
Inductive direct : Type -> Type :=
| InitIo (workers : Z) : direct unit
| InitFs (workers : Z) : direct unit
| InitProcess (workers : Z) : direct unit
| StdBind (addr : A) : direct (result V E)
| FromStd (v : V) : direct (result V E)
| BindUnix (path : string) : direct (result V E)
| BindDatagram (path : string) : direct (result V E)
| CreatePipe (name : string) : direct (result V E)
| PeerCred (v : V) : direct (result (Z * Z * option Z) E)
| Spawn (program : string) (args : list string) (stdin stdout stderr : bool) : direct (result V E)
| ChildId (v : V) : direct Z
| Kill (v : V) : direct (result unit E * V)
| TakeEnd (k : kind) (v : V) : direct (option V * V)
| SetReadonly (perm : Q) (readonly : bool) : direct Q
| NewSignal (signum : Z) : direct V
| CtrlC : direct V | CtrlBreak : direct V | CtrlClose : direct V | CtrlLogoff : direct V | CtrlShutdown : direct V
| Pair (capacity : Z) : direct (V * V)
| NewInterval (millis : Z) : direct V
| CloseStdin (v : V) : direct unit
| Drop (k : kind) (v : V) : direct unit.
End effects.
Arguments target : clear implicits.
Arguments async : clear implicits.
Arguments direct : clear implicits.

(** The interpreter; a future is polled for the [i]-th time in a world. *)
Record Api (A V E Q W : Type) := {
  utf8 : string -> bool;
  parse : string -> option A;
  show_addr : A -> string;
  display : E -> string;
  poll : forall X, async A V E Q X -> nat -> W -> Poll X * W;
  perform : forall X, direct A V E Q X -> W -> X * W
}.
Arguments utf8 {A V E Q W}. Arguments parse {A V E Q W}. Arguments show_addr {A V E Q W}.
Arguments display {A V E Q W}. Arguments poll {A V E Q W} _ {X}. Arguments perform {A V E Q W} _ {X}.

(** What a function stores in the caller's memory: bytes, or a word of some size. *)
Inductive datum := Bytes (bytes : string) | Word (size value : Z).

Definition NULL : Z := 0.
Definition nul : string := String Ascii.zero EmptyString.

(** ** The state of a thread *)

Record ffi (V W : Type) := mkFfi {
  heap : gmap Z (kind * V);
  last_error : option string;                                    (* LAST_ERROR *)
  written : list (Z * datum);
  io_init : bool;                                                (* IO_INIT *)
  world : W
}.
Arguments mkFfi {V W}. Arguments heap {V W}. Arguments last_error {V W}. Arguments written {V W}. Arguments io_init {V W}.
Arguments world {V W}.

Inductive res (V W X : Type) := Ret (x : X) (s : ffi V W) | Undefined | Waiting.
Arguments Ret {V W X}. Arguments Undefined {V W X}. Arguments Waiting {V W X}.

Section code.
Context {A V E Q W : Type} (R : Api A V E Q W).
(** The allocator, an address for a new object among those in use, and the polls a blocking call may take. *)
Context (alloc : gset Z -> Z) (fuel : nat).

Definition M (X : Type) : Type := ffi V W -> res V W X.
Definition ret {X} (x : X) : M X := fun s => Ret x s.
Definition bind {X Y} (m : M X) (f : X -> M Y) : M Y := fun s =>
  match m s with Ret x s' => f x s' | Undefined => Undefined | Waiting => Waiting end.

#[local] Instance M_ret : MRet M := @ret.
#[local] Instance M_bind : MBind M := fun X Y f m => bind m f.

Definition set_heap (h : gmap Z (kind * V)) (s : ffi V W) : ffi V W :=
  mkFfi h (last_error s) (written s) (io_init s) (world s).
Definition set_error (e : option string) (s : ffi V W) : ffi V W :=
  mkFfi (heap s) e (written s) (io_init s) (world s).
Definition set_world (w : W) (s : ffi V W) : ffi V W :=
  mkFfi (heap s) (last_error s) (written s) (io_init s) w.
Definition set_init (s : ffi V W) : ffi V W :=
  mkFfi (heap s) (last_error s) (written s) true (world s).
Definition add_written (p : Z) (d : datum) (s : ffi V W) : ffi V W :=
  mkFfi (heap s) (last_error s) (written s ++ [(p, d)]) (io_init s) (world s).

(** ** mod.rs *)

(** The loop that replaces interior NULs, and [CString::new(..).unwrap_or_default()]. *)
Fixpoint replace_nul (s : string) : string :=
  match s with
  | EmptyString => EmptyString
  | String c s' => String (if Ascii.eqb c Ascii.zero then "?"%char else c) (replace_nul s')
  end.
Fixpoint has_nul (s : string) : bool :=
  match s with EmptyString => false | String c s' => Ascii.eqb c Ascii.zero || has_nul s' end.
Definition cstring (s : string) : string := if has_nul s then EmptyString else s.

Definition set_last_error (msg : string) : M unit := fun s => Ret tt (set_error (Some (cstring (replace_nul msg))) s).
Definition clear_last_error : M unit := fun s => Ret tt (set_error None s).
Definition set_io_error (err : E) : M unit := set_last_error (display R err).

(** The message, or null. *)
Definition dtact_util_last_error_message : M (option string) := fun s => Ret (last_error s) s.

(** [block_on]: polls until the future is ready. *)
Fixpoint block_on {X} (n : nat) (i : nat) (op : async A V E Q X) (w : W) : option (X * W) :=
  match n with
  | O => None
  | S n' => match poll R op i w with (Ready x, w') => Some (x, w') | (Pending, w') => block_on n' (S i) op w' end
  end.
Definition call {X} (op : async A V E Q X) : M X := fun s =>
  match block_on fuel 0 op (world s) with Some (x, w) => Ret x (set_world w s) | None => Waiting end.

(** A call into Rust that does not block. *)
Definition effect {X} (op : direct A V E Q X) : M X := fun s =>
  let '(x, w) := perform R op (world s) in Ret x (set_world w s).

(** [let Some(x) = m else { return sentinel }] *)
Definition let_else {X Y} (m : M (option X)) (sentinel : Y) (k : X -> M Y) : M Y :=
  bind m (fun o => match o with Some x => k x | None => ret sentinel end).

(** A string argument; null is [None], and the caller promises the rest. *)
Definition cstr_to_str (ptr : option string) : M (option string) :=
  match ptr with
  | None => set_last_error "null string pointer";; ret None
  | Some s => if utf8 R s then ret (Some s) else set_last_error "string is not valid UTF-8";; ret None
  end.

(** *** Handles and memory *)

(** [Box::into_raw(Box::new(..))] *)
Definition into_raw (k : kind) (v : V) : M Z := fun s =>
  let p := alloc (dom (heap s)) in Ret p (set_heap (<[p := (k, v)]> (heap s)) s).

(** [&*ptr], [&mut *ptr] and what is written through it. *)
Definition borrow (k : kind) (p : Z) : M V := fun s =>
  match heap s !! p with Some (k', v) => if bool_decide (k' = k) then Ret v s else Undefined | None => Undefined end.
Definition assign (k : kind) (p : Z) (v : V) : M unit := fun s => Ret tt (set_heap (<[p := (k, v)]> (heap s)) s).

(** [Box::from_raw(ptr)] *)
Definition release (p : Z) : M unit := fun s => Ret tt (set_heap (delete p (heap s)) s).
Definition from_raw (k : kind) (p : Z) : M V := v ← borrow k p; release p;; ret v.

Definition put (p : Z) (d : datum) : M unit := fun s => Ret tt (add_written p d s).
(** A store through a pointer that may be null. *)
Definition put_opt (p : Z) (d : datum) : M unit := if p =? NULL then ret tt else put p d.

(** *** What the functions have in common *)

(** The error exits: a message and the value that tells of it. *)
Definition fail {X} (msg : string) (sentinel : X) : M X := set_last_error msg;; ret sentinel.

Definition returning {X Y} (r : result X E) (sentinel : Y) (k : X -> M Y) : M Y :=
  match r with Ok x => k x | Err e => set_io_error e;; ret sentinel end.

(** A null handle, or a null buffer where there is one, is an error. *)
Definition on_handle {X} (k : kind) (p : Z) (bad : bool) (msg : string) (sentinel : X) (f : V -> M X) : M X :=
  clear_last_error;;
  if (p =? NULL) || bad then fail msg sentinel else v ← borrow k p; f v.

Definition handle_of (k : kind) (r : result V E) : M Z := returning r NULL (into_raw k).
Definition status_of (r : result unit E) : M Z := returning r (-1) (fun _ => ret 0).

Definition free (k : kind) (p : Z) : M Z :=
  if p =? NULL then ret 0 else v ← from_raw k p; effect (Drop k v);; ret 0.

Definition is_null (buf : option string) : bool := match buf with None => true | Some _ => false end.

(** Reads and writes on a handle. *)
Definition read_into (k : kind) (msg : string) (p buf len : Z) : M Z :=
  on_handle k p (buf =? NULL) msg (-1) (fun v =>
    r ← call (Read v len);
    returning r (-1) (fun data => put buf (Bytes data);; ret (Z.of_nat (String.length data)))).
Definition write_from (k : kind) (msg : string) (p : Z) (buf : option string) : M Z :=
  on_handle k p (is_null buf) msg (-1) (fun v => r ← call (Write v (default EmptyString buf)); returning r (-1) ret).

(** Through [&mut]. *)
Definition read_into_mut (k : kind) (msg : string) (p buf len : Z) : M Z :=
  on_handle k p (buf =? NULL) msg (-1) (fun v =>
    '(r, v') ← call (ReadMut v len); assign k p v';;
    returning r (-1) (fun data => put buf (Bytes data);; ret (Z.of_nat (String.length data)))).
Definition write_from_mut (k : kind) (msg : string) (p : Z) (buf : option string) : M Z :=
  on_handle k p (is_null buf) msg (-1) (fun v =>
    '(r, v') ← call (WriteMut v (default EmptyString buf)); assign k p v';; returning r (-1) ret).

(** The same four lines in each of [write_addr_out], [write_str_bytes_out], [write_addr_list_out] and [write_str_out]. *)
Definition copy_out (bytes : string) (out cap : Z) : M unit :=
  if (out =? NULL) || (cap =? 0) then ret tt
  else
    let n := Nat.min (String.length bytes) (Z.to_nat (cap - 1)) in
    put out (Bytes (String.substring 0 n bytes +:+ nul)).

(** ** io.rs *)

(** [IO_INIT.get_or_init]: only the first call starts the driver. *)
Definition ensure_io_init (workers : Z) : M unit := fun s =>
  if io_init s then Ret tt s else bind (effect (InitIo (Z.max workers 1))) (fun _ s' => Ret tt (set_init s')) s.
Definition dtact_util_io_init (workers : Z) : M Z := clear_last_error;; ensure_io_init workers;; ret 0.

Definition parse_addr (s : string) : M (option A) :=
  match parse R s with
  | Some a => ret (Some a)
  | None => set_last_error ("invalid socket address: " +:+ s);; ret None
  end.
Definition write_addr_out (addr : A) (out cap : Z) : M unit := copy_out (show_addr R addr) out cap.

Definition dtact_util_io_listener_bind (addr : option string) : M Z :=
  clear_last_error;; ensure_io_init 1;;
  let_else (cstr_to_str addr) NULL (fun addr =>
  let_else (parse_addr addr) NULL (fun addr =>
    r ← effect (StdBind addr);
    returning r NULL (fun std_listener => r ← effect (FromStd std_listener); handle_of TcpListener r))).
Definition dtact_util_io_listener_accept (listener : Z) : M Z :=
  on_handle TcpListener listener false "null listener handle" NULL (fun listener =>
    r ← call (Accept listener); handle_of TcpStream r).
Definition dtact_util_io_listener_close (listener : Z) : M Z := free TcpListener listener.
Definition dtact_util_io_stream_connect (addr : option string) : M Z :=
  clear_last_error;; ensure_io_init 1;;
  let_else (cstr_to_str addr) NULL (fun addr =>
  let_else (parse_addr addr) NULL (fun addr => r ← call (ConnectTcp addr); handle_of TcpStream r)).
Definition dtact_util_io_stream_read (stream buf len : Z) : M Z :=
  read_into TcpStream "null stream handle or buffer" stream buf len.
Definition dtact_util_io_stream_write (stream : Z) (buf : option string) : M Z :=
  write_from TcpStream "null stream handle or buffer" stream buf.
Definition dtact_util_io_stream_close (stream : Z) : M Z := free TcpStream stream.

(** *** UDP *)
Definition dtact_util_io_udp_bind (addr : option string) : M Z :=
  clear_last_error;; ensure_io_init 1;;
  let_else (cstr_to_str addr) NULL (fun addr =>
  let_else (parse_addr addr) NULL (fun addr => r ← call (BindUdp addr); handle_of UdpSocket r)).
Definition dtact_util_io_udp_send_to (sock : Z) (buf : option string) (target : option string) : M Z :=
  clear_last_error;;
  if (sock =? NULL) || is_null buf then fail "null socket handle or buffer" (-1) else
  let_else (cstr_to_str target) (-1) (fun target =>
  let_else (parse_addr target) (-1) (fun target =>
    v ← borrow UdpSocket sock; r ← call (SendTo v (default EmptyString buf) (ToAddr target)); returning r (-1) ret)).
Definition dtact_util_io_udp_recv_from (sock buf len out_addr out_addr_cap : Z) : M Z :=
  on_handle UdpSocket sock (buf =? NULL) "null socket handle or buffer" (-1) (fun sock =>
    r ← call (RecvFrom sock len);
    returning r (-1) (fun '(data, from) =>
      put buf (Bytes data);; write_addr_out from out_addr out_addr_cap;; ret (Z.of_nat (String.length data)))).
Definition dtact_util_io_udp_connect (sock : Z) (addr : option string) : M Z :=
  clear_last_error;;
  if sock =? NULL then fail "null socket handle" (-1) else
  let_else (cstr_to_str addr) (-1) (fun addr =>
  let_else (parse_addr addr) (-1) (fun addr =>
    v ← borrow UdpSocket sock; r ← call (Connect v (ToAddr addr)); status_of r)).
Definition dtact_util_io_udp_send (sock : Z) (buf : option string) : M Z :=
  write_from UdpSocket "null socket handle or buffer" sock buf.
Definition dtact_util_io_udp_recv (sock buf len : Z) : M Z :=
  read_into UdpSocket "null socket handle or buffer" sock buf len.
Definition dtact_util_io_udp_close (sock : Z) : M Z := free UdpSocket sock.

(** *** Unix domain sockets *)
Definition dtact_util_io_unix_listener_bind (addr : option string) : M Z :=
  clear_last_error;; ensure_io_init 1;;
  let_else (cstr_to_str addr) NULL (fun addr => r ← effect (BindUnix addr); handle_of UnixListener r).
Definition dtact_util_io_unix_listener_accept (listener : Z) : M Z :=
  on_handle UnixListener listener false "null listener handle" NULL (fun listener =>
    r ← call (Accept listener); handle_of UnixStream r).
Definition dtact_util_io_unix_listener_close (listener : Z) : M Z := free UnixListener listener.
Definition dtact_util_io_unix_stream_connect (addr : option string) : M Z :=
  clear_last_error;; ensure_io_init 1;;
  let_else (cstr_to_str addr) NULL (fun addr => r ← call (ConnectUnix addr); handle_of UnixStream r).
Definition dtact_util_io_unix_stream_read (stream buf len : Z) : M Z :=
  read_into UnixStream "null stream handle or buffer" stream buf len.
Definition dtact_util_io_unix_stream_write (stream : Z) (buf : option string) : M Z :=
  write_from UnixStream "null stream handle or buffer" stream buf.
Definition dtact_util_io_unix_stream_peer_cred (stream out_uid out_gid out_pid : Z) : M Z :=
  on_handle UnixStream stream false "null stream handle" (-1) (fun stream =>
    r ← effect (PeerCred stream);
    returning r (-1) (fun '(uid, gid, pid) =>
      put_opt out_uid (Word 4 uid);; put_opt out_gid (Word 4 gid);; put_opt out_pid (Word 4 (default (-1) pid));; ret 0)).
Definition dtact_util_io_unix_stream_close (stream : Z) : M Z := free UnixStream stream.

Definition write_str_bytes_out (bytes : string) (out cap : Z) : M unit := copy_out bytes out cap.
Definition dtact_util_io_unix_datagram_bind (addr : option string) : M Z :=
  clear_last_error;; ensure_io_init 1;;
  let_else (cstr_to_str addr) NULL (fun addr => r ← effect (BindDatagram addr); handle_of UnixDatagram r).
Definition dtact_util_io_unix_datagram_send_to (sock : Z) (buf : option string) (target : option string) : M Z :=
  clear_last_error;;
  if (sock =? NULL) || is_null buf then fail "null socket handle or buffer" (-1) else
  let_else (cstr_to_str target) (-1) (fun target =>
    v ← borrow UnixDatagram sock; r ← call (SendTo v (default EmptyString buf) (ToPath target)); returning r (-1) ret).
Definition dtact_util_io_unix_datagram_recv_from (sock buf len out_addr out_addr_cap : Z) : M Z :=
  on_handle UnixDatagram sock (buf =? NULL) "null socket handle or buffer" (-1) (fun sock =>
    r ← call (RecvFromUnix sock len);
    returning r (-1) (fun '(data, from) =>
      put buf (Bytes data);; write_str_bytes_out (default EmptyString from) out_addr out_addr_cap;;
      ret (Z.of_nat (String.length data)))).
Definition dtact_util_io_unix_datagram_connect (sock : Z) (addr : option string) : M Z :=
  clear_last_error;;
  if sock =? NULL then fail "null socket handle" (-1) else
  let_else (cstr_to_str addr) (-1) (fun addr =>
    v ← borrow UnixDatagram sock; r ← call (Connect v (ToPath addr)); status_of r).
Definition dtact_util_io_unix_datagram_send (sock : Z) (buf : option string) : M Z :=
  write_from UnixDatagram "null socket handle or buffer" sock buf.
Definition dtact_util_io_unix_datagram_recv (sock buf len : Z) : M Z :=
  read_into UnixDatagram "null socket handle or buffer" sock buf len.
Definition dtact_util_io_unix_datagram_close (sock : Z) : M Z := free UnixDatagram sock.

(** *** DNS *)
Definition write_addr_list_out (s : string) (out cap : Z) : M unit := copy_out s out cap.
Definition dtact_util_io_lookup_host (host : option string) (out out_cap : Z) : M Z :=
  clear_last_error;;
  let_else (cstr_to_str host) (-1) (fun host =>
    r ← call (LookupHost host);
    returning r (-1) (fun addrs =>
      write_addr_list_out (String.concat ";" (map (show_addr R) addrs)) out out_cap;; ret (Z.of_nat (length addrs)))).

(** *** Named pipes *)
Definition dtact_util_io_pipe_server_create (name : option string) : M Z :=
  clear_last_error;;
  let_else (cstr_to_str name) NULL (fun name => r ← effect (CreatePipe name); handle_of NamedPipeServer r).
Definition dtact_util_io_pipe_server_connect (server : Z) : M Z :=
  clear_last_error;;
  if server =? NULL then fail "null pipe server handle" NULL else
  v ← from_raw NamedPipeServer server; r ← call (PipeConnect v); handle_of NamedPipeHandle r.
Definition dtact_util_io_pipe_server_close (server : Z) : M Z := free NamedPipeServer server.
Definition dtact_util_io_pipe_client_connect (name : option string) : M Z :=
  clear_last_error;;
  let_else (cstr_to_str name) NULL (fun name => r ← call (ConnectPipe name); handle_of NamedPipeHandle r).
Definition dtact_util_io_pipe_read (pipe buf len : Z) : M Z :=
  read_into NamedPipeHandle "null pipe handle or buffer" pipe buf len.
Definition dtact_util_io_pipe_write (pipe : Z) (buf : option string) : M Z :=
  write_from NamedPipeHandle "null pipe handle or buffer" pipe buf.
Definition dtact_util_io_pipe_close (pipe : Z) : M Z := free NamedPipeHandle pipe.

(** ** fs.rs: every function on a path first starts the file system driver with one worker. *)

Definition dtact_util_fs_init (workers : Z) : M Z := clear_last_error;; effect (InitFs (Z.max workers 1));; ret 0.

Definition on_file {X} (path : option string) (sentinel : X) (k : string -> M X) : M X :=
  clear_last_error;; effect (InitFs 1);; let_else (cstr_to_str path) sentinel k.

Definition dtact_util_fs_file_create (path : option string) : M Z :=
  on_file path NULL (fun path => r ← call (CreateFile path); handle_of File r).
Definition dtact_util_fs_file_open (path : option string) : M Z :=
  on_file path NULL (fun path => r ← call (OpenFile path); handle_of File r).
Definition dtact_util_fs_file_read (file buf len : Z) : M Z := read_into File "null file handle or buffer" file buf len.
Definition dtact_util_fs_file_write (file : Z) (buf : option string) : M Z :=
  write_from File "null file handle or buffer" file buf.
Definition dtact_util_fs_file_read_at (file buf len offset : Z) : M Z :=
  on_handle File file (buf =? NULL) "null file handle or buffer" (-1) (fun file =>
    r ← call (ReadAt file len offset);
    returning r (-1) (fun data => put buf (Bytes data);; ret (Z.of_nat (String.length data)))).
Definition dtact_util_fs_file_write_at (file : Z) (buf : option string) (offset : Z) : M Z :=
  on_handle File file (is_null buf) "null file handle or buffer" (-1) (fun file =>
    r ← call (WriteAt file (default EmptyString buf) offset); returning r (-1) ret).
Definition dtact_util_fs_file_sync (file : Z) : M Z :=
  on_handle File file false "null file handle" (-1) (fun file => r ← call (SyncAll file); status_of r).
Definition dtact_util_fs_file_close (file : Z) : M Z := free File file.

(** *** Functions on one path and on two *)
Definition path_call (op : string -> path_op) (path : option string) : M Z :=
  on_file path (-1) (fun path => r ← call (OnPath (op path)); status_of r).
Definition two_path_call (op : string -> string -> path_op) (from to : option string) : M Z :=
  on_file from (-1) (fun from => let_else (cstr_to_str to) (-1) (fun to => r ← call (OnPath (op from to)); status_of r)).

Definition dtact_util_fs_copy (from to : option string) : M Z :=
  on_file from (-1) (fun from => let_else (cstr_to_str to) (-1) (fun to => r ← call (CopyFile from to); returning r (-1) ret)).
Definition dtact_util_fs_rename (from to : option string) : M Z := two_path_call Rename from to.
Definition dtact_util_fs_hard_link (src dst : option string) : M Z := two_path_call HardLink src dst.
Definition dtact_util_fs_symlink (src dst : option string) : M Z := two_path_call Symlink src dst.
Definition dtact_util_fs_symlink_dir (src dst : option string) : M Z := two_path_call SymlinkDir src dst.
Definition dtact_util_fs_symlink_file (src dst : option string) : M Z := two_path_call SymlinkFile src dst.
Definition dtact_util_fs_create_dir (path : option string) : M Z := path_call CreateDir path.
Definition dtact_util_fs_create_dir_all (path : option string) : M Z := path_call CreateDirAll path.
Definition dtact_util_fs_remove_dir (path : option string) : M Z := path_call RemoveDir path.
Definition dtact_util_fs_remove_file (path : option string) : M Z := path_call RemoveFile path.
Definition dtact_util_fs_remove_dir_all (path : option string) : M Z := path_call RemoveDirAll path.
Definition dtact_util_fs_write (path : option string) (buf : option string) : M Z :=
  path_call (fun path => WriteAll path (default EmptyString buf)) path.

Definition write_str_out (bytes : string) (out cap : Z) : M unit := copy_out bytes out cap.
Definition text_call (op : string -> text_op) (path : option string) (out out_cap : Z) : M Z :=
  on_file path (-1) (fun path =>
    r ← call (TextOf (op path));
    returning r (-1) (fun s => write_str_out s out out_cap;; ret (Z.of_nat (String.length s)))).
Definition dtact_util_fs_read_link (path : option string) (out out_cap : Z) : M Z := text_call ReadLink path out out_cap.
Definition dtact_util_fs_canonicalize (path : option string) (out out_cap : Z) : M Z := text_call Canonicalize path out out_cap.
Definition dtact_util_fs_read_to_string (path : option string) (out out_cap : Z) : M Z := text_call ReadToString path out out_cap.
Definition dtact_util_fs_read (path : option string) (buf len : Z) : M Z :=
  on_file path (-1) (fun path =>
    r ← call (TextOf (ReadAll path));
    returning r (-1) (fun data =>
      (if negb (buf =? NULL) && (0 <? len)
       then put buf (Bytes (String.substring 0 (Nat.min (String.length data) (Z.to_nat len)) data)) else ret tt);;
      ret (Z.of_nat (String.length data)))).

Definition dtact_util_fs_try_exists (path : option string) : M Z :=
  on_file path (-1) (fun path =>
    r ← call (TryExists path); returning r (-1) (fun b => ret (if b : bool then 1 else 0))).
Definition dtact_util_fs_set_readonly (path : option string) (readonly : Z) : M Z :=
  on_file path (-1) (fun path =>
    r ← call (Metadata path);
    returning r (-1) (fun perm =>
      perm' ← effect (SetReadonly perm (negb (readonly =? 0)));
      r ← call (SetPermissions path perm'); status_of r)).

(** ** process.rs *)

Definition DTACT_STDIN_PIPE : Z := 1.
Definition DTACT_STDOUT_PIPE : Z := 2.
Definition DTACT_STDERR_PIPE : Z := 4.

Definition dtact_util_process_init (workers : Z) : M Z := clear_last_error;; effect (InitProcess (Z.max workers 1));; ret 0.

(** The loop over [argv]. *)
Fixpoint read_args (argv : list (option string)) (k : list string -> M Z) : M Z :=
  match argv with
  | [] => k []
  | arg :: argv' => let_else (cstr_to_str arg) NULL (fun arg => read_args argv' (fun args => k (arg :: args)))
  end.
Definition dtact_util_process_spawn (program : option string) (argv : option (list (option string)))
    (arg_count stdio_flags : Z) : M Z :=
  clear_last_error;;
  let_else (cstr_to_str program) NULL (fun program =>
    let pipe flag := negb (Z.land stdio_flags flag =? 0) in
    let spawn args :=
      r ← effect (Spawn program args (pipe DTACT_STDIN_PIPE) (pipe DTACT_STDOUT_PIPE) (pipe DTACT_STDERR_PIPE));
      handle_of Child r in
    if 0 <? arg_count then
      match argv with
      | None => fail "null argv with arg_count > 0" NULL
      | Some argv => read_args (firstn (Z.to_nat arg_count) argv) spawn
      end
    else spawn []).

Definition dtact_util_process_child_id (child : Z) : M Z :=
  on_handle Child child false "null child handle" 0 (fun child => effect (ChildId child)).
Definition dtact_util_process_child_kill (child : Z) : M Z :=
  on_handle Child child false "null child handle" (-1) (fun v =>
    '(r, v') ← effect (Kill v); assign Child child v';; status_of r).
Definition dtact_util_process_child_wait (child out_code : Z) : M Z :=
  clear_last_error;;
  if child =? NULL then fail "null child handle" (-1) else
  v ← from_raw Child child; r ← call (Wait v);
  returning r (-1) (fun code =>
    match code with
    | None => fail "process terminated without an exit code" (-1)
    | Some code => put_opt out_code (Word 4 code);; ret 0
    end).
Definition dtact_util_process_child_free (child : Z) : M Z := free Child child.

Definition take_end (k : kind) (msg : string) (child : Z) : M Z :=
  on_handle Child child false "null child handle" NULL (fun v =>
    '(o, v') ← effect (TakeEnd k v); assign Child child v';;
    match o with None => fail msg NULL | Some h => into_raw k h end).
Definition dtact_util_process_child_take_stdin (child : Z) : M Z :=
  take_end ChildStdin "stdin pipe unavailable or already taken" child.
Definition dtact_util_process_child_take_stdout (child : Z) : M Z :=
  take_end ChildStdout "stdout pipe unavailable or already taken" child.
Definition dtact_util_process_child_take_stderr (child : Z) : M Z :=
  take_end ChildStderr "stderr pipe unavailable or already taken" child.

Definition dtact_util_process_stdin_write (stdin : Z) (buf : option string) : M Z :=
  write_from_mut ChildStdin "null stdin handle or buffer" stdin buf.
Definition dtact_util_process_stdin_close (stdin : Z) : M Z :=
  if stdin =? NULL then ret 0 else v ← from_raw ChildStdin stdin; effect (CloseStdin v);; ret 0.
Definition dtact_util_process_stdout_read (stdout buf len : Z) : M Z :=
  read_into_mut ChildStdout "null stdout handle or buffer" stdout buf len.
Definition dtact_util_process_stdout_free (stdout : Z) : M Z := free ChildStdout stdout.
Definition dtact_util_process_stderr_read (stderr buf len : Z) : M Z :=
  read_into_mut ChildStderr "null stderr handle or buffer" stderr buf len.
Definition dtact_util_process_stderr_free (stderr : Z) : M Z := free ChildStderr stderr.

(** ** signal.rs *)

Definition listen (op : direct A V E Q V) : M Z := clear_last_error;; v ← effect op; into_raw SignalStream v.
Definition dtact_util_signal_register (signum : Z) : M Z := listen (NewSignal signum).
Definition dtact_util_signal_ctrl_c : M Z := listen CtrlC.
Definition dtact_util_signal_ctrl_break : M Z := listen CtrlBreak.
Definition dtact_util_signal_ctrl_close : M Z := listen CtrlClose.
Definition dtact_util_signal_ctrl_logoff : M Z := listen CtrlLogoff.
Definition dtact_util_signal_ctrl_shutdown : M Z := listen CtrlShutdown.
Definition dtact_util_signal_recv (stream : Z) : M Z :=
  on_handle SignalStream stream false "null signal handle" 0 (fun stream => call (RecvSignal stream);; ret 0).
Definition dtact_util_signal_free (stream : Z) : M Z := free SignalStream stream.

(** ** stream.rs *)

Definition dtact_util_stream_pair_create (capacity out_a out_b : Z) : M Z :=
  clear_last_error;;
  if (out_a =? NULL) || (out_b =? NULL) then fail "null out-pointer" (-1) else
  '(a, b) ← effect (Pair capacity);
  pa ← into_raw Stream a; put out_a (Word 8 pa);;
  pb ← into_raw Stream b; put out_b (Word 8 pb);; ret 0.
Definition dtact_util_stream_read (stream buf len : Z) : M Z :=
  read_into Stream "null stream handle or buffer" stream buf len.
Definition dtact_util_stream_write (stream : Z) (buf : option string) : M Z :=
  write_from Stream "null stream handle or buffer" stream buf.
Definition dtact_util_stream_free (stream : Z) : M Z := free Stream stream.

(** ** timer.rs *)

Definition dtact_util_timer_sleep_ms (millis : Z) : M Z := clear_last_error;; call (Sleep millis);; ret 0.
Definition dtact_util_timer_interval_create (period_millis : Z) : M Z :=
  clear_last_error;;
  if period_millis =? 0 then fail "interval period must be > 0" NULL
  else v ← effect (NewInterval period_millis); into_raw Interval v.
Definition dtact_util_timer_interval_tick (interval : Z) : M Z :=
  on_handle Interval interval false "null interval handle" 0 (fun v =>
    v' ← call (Tick v); assign Interval interval v';; ret 0).
Definition dtact_util_timer_interval_free (interval : Z) : M Z := free Interval interval.

(** ** The whole interface *)

(** A call of a C function with its arguments. *)
Inductive Call :=
| Io_init (workers : Z)
| Listener_bind (addr : option string) | Listener_accept (h : Z) | Listener_close (h : Z)
| Stream_connect (addr : option string) | Stream_read (h buf len : Z) | Stream_write (h : Z) (buf : option string)
| Stream_close (h : Z)
| Udp_bind (addr : option string) | Udp_send_to (h : Z) (buf target : option string)
| Udp_recv_from (h buf len out cap : Z) | Udp_connect (h : Z) (addr : option string) | Udp_send (h : Z) (buf : option string)
| Udp_recv (h buf len : Z) | Udp_close (h : Z)
| Unix_listener_bind (addr : option string) | Unix_listener_accept (h : Z) | Unix_listener_close (h : Z)
| Unix_stream_connect (addr : option string) | Unix_stream_read (h buf len : Z)
| Unix_stream_write (h : Z) (buf : option string) | Unix_stream_peer_cred (h uid gid pid : Z) | Unix_stream_close (h : Z)
| Datagram_bind (addr : option string) | Datagram_send_to (h : Z) (buf target : option string)
| Datagram_recv_from (h buf len out cap : Z) | Datagram_connect (h : Z) (addr : option string)
| Datagram_send (h : Z) (buf : option string) | Datagram_recv (h buf len : Z) | Datagram_close (h : Z)
| Lookup_host (host : option string) (out cap : Z)
| Pipe_server_create (name : option string) | Pipe_server_connect (h : Z) | Pipe_server_close (h : Z)
| Pipe_client_connect (name : option string) | Pipe_read (h buf len : Z) | Pipe_write (h : Z) (buf : option string)
| Pipe_close (h : Z)
| Fs_init (workers : Z) | File_create (path : option string) | File_open (path : option string)
| File_read (h buf len : Z) | File_write (h : Z) (buf : option string) | File_read_at (h buf len offset : Z)
| File_write_at (h : Z) (buf : option string) (offset : Z) | File_sync (h : Z) | File_close (h : Z)
| Fs_copy (from to : option string) | Fs_rename (from to : option string) | Fs_hard_link (src dst : option string)
| Fs_symlink (src dst : option string) | Fs_symlink_dir (src dst : option string) | Fs_symlink_file (src dst : option string)
| Fs_read_link (path : option string) (out cap : Z) | Fs_canonicalize (path : option string) (out cap : Z)
| Fs_read (path : option string) (buf len : Z) | Fs_read_to_string (path : option string) (out cap : Z)
| Fs_write (path buf : option string) | Fs_create_dir (path : option string) | Fs_create_dir_all (path : option string)
| Fs_remove_dir (path : option string) | Fs_remove_file (path : option string) | Fs_remove_dir_all (path : option string)
| Fs_try_exists (path : option string) | Fs_set_readonly (path : option string) (readonly : Z)
| Process_init (workers : Z)
| Process_spawn (program : option string) (argv : option (list (option string))) (arg_count stdio_flags : Z)
| Child_id (h : Z) | Child_kill (h : Z) | Child_wait (h out_code : Z) | Child_free (h : Z)
| Take_stdin (h : Z) | Take_stdout (h : Z) | Take_stderr (h : Z)
| Stdin_write (h : Z) (buf : option string) | Stdin_close (h : Z)
| Stdout_read (h buf len : Z) | Stdout_free (h : Z) | Stderr_read (h buf len : Z) | Stderr_free (h : Z)
| Signal_register (signum : Z) | Signal_ctrl_c | Signal_ctrl_break | Signal_ctrl_close | Signal_ctrl_logoff
| Signal_ctrl_shutdown | Signal_recv (h : Z) | Signal_free (h : Z)
| Pair_create (capacity out_a out_b : Z) | Pair_read (h buf len : Z) | Pair_write (h : Z) (buf : option string)
| Pair_free (h : Z)
| Sleep_ms (millis : Z) | Interval_create (millis : Z) | Interval_tick (h : Z) | Interval_free (h : Z).

Definition run (c : Call) : M Z :=
  match c with
  | Io_init n => dtact_util_io_init n
  | Listener_bind a => dtact_util_io_listener_bind a
  | Listener_accept h => dtact_util_io_listener_accept h
  | Listener_close h => dtact_util_io_listener_close h
  | Stream_connect a => dtact_util_io_stream_connect a
  | Stream_read h b n => dtact_util_io_stream_read h b n
  | Stream_write h b => dtact_util_io_stream_write h b
  | Stream_close h => dtact_util_io_stream_close h
  | Udp_bind a => dtact_util_io_udp_bind a
  | Udp_send_to h b t => dtact_util_io_udp_send_to h b t
  | Udp_recv_from h b n o c => dtact_util_io_udp_recv_from h b n o c
  | Udp_connect h a => dtact_util_io_udp_connect h a
  | Udp_send h b => dtact_util_io_udp_send h b
  | Udp_recv h b n => dtact_util_io_udp_recv h b n
  | Udp_close h => dtact_util_io_udp_close h
  | Unix_listener_bind a => dtact_util_io_unix_listener_bind a
  | Unix_listener_accept h => dtact_util_io_unix_listener_accept h
  | Unix_listener_close h => dtact_util_io_unix_listener_close h
  | Unix_stream_connect a => dtact_util_io_unix_stream_connect a
  | Unix_stream_read h b n => dtact_util_io_unix_stream_read h b n
  | Unix_stream_write h b => dtact_util_io_unix_stream_write h b
  | Unix_stream_peer_cred h u g p => dtact_util_io_unix_stream_peer_cred h u g p
  | Unix_stream_close h => dtact_util_io_unix_stream_close h
  | Datagram_bind a => dtact_util_io_unix_datagram_bind a
  | Datagram_send_to h b t => dtact_util_io_unix_datagram_send_to h b t
  | Datagram_recv_from h b n o c => dtact_util_io_unix_datagram_recv_from h b n o c
  | Datagram_connect h a => dtact_util_io_unix_datagram_connect h a
  | Datagram_send h b => dtact_util_io_unix_datagram_send h b
  | Datagram_recv h b n => dtact_util_io_unix_datagram_recv h b n
  | Datagram_close h => dtact_util_io_unix_datagram_close h
  | Lookup_host a o c => dtact_util_io_lookup_host a o c
  | Pipe_server_create a => dtact_util_io_pipe_server_create a
  | Pipe_server_connect h => dtact_util_io_pipe_server_connect h
  | Pipe_server_close h => dtact_util_io_pipe_server_close h
  | Pipe_client_connect a => dtact_util_io_pipe_client_connect a
  | Pipe_read h b n => dtact_util_io_pipe_read h b n
  | Pipe_write h b => dtact_util_io_pipe_write h b
  | Pipe_close h => dtact_util_io_pipe_close h
  | Fs_init n => dtact_util_fs_init n
  | File_create p => dtact_util_fs_file_create p
  | File_open p => dtact_util_fs_file_open p
  | File_read h b n => dtact_util_fs_file_read h b n
  | File_write h b => dtact_util_fs_file_write h b
  | File_read_at h b n o => dtact_util_fs_file_read_at h b n o
  | File_write_at h b o => dtact_util_fs_file_write_at h b o
  | File_sync h => dtact_util_fs_file_sync h
  | File_close h => dtact_util_fs_file_close h
  | Fs_copy a b => dtact_util_fs_copy a b
  | Fs_rename a b => dtact_util_fs_rename a b
  | Fs_hard_link a b => dtact_util_fs_hard_link a b
  | Fs_symlink a b => dtact_util_fs_symlink a b
  | Fs_symlink_dir a b => dtact_util_fs_symlink_dir a b
  | Fs_symlink_file a b => dtact_util_fs_symlink_file a b
  | Fs_read_link p o c => dtact_util_fs_read_link p o c
  | Fs_canonicalize p o c => dtact_util_fs_canonicalize p o c
  | Fs_read p b n => dtact_util_fs_read p b n
  | Fs_read_to_string p o c => dtact_util_fs_read_to_string p o c
  | Fs_write p b => dtact_util_fs_write p b
  | Fs_create_dir p => dtact_util_fs_create_dir p
  | Fs_create_dir_all p => dtact_util_fs_create_dir_all p
  | Fs_remove_dir p => dtact_util_fs_remove_dir p
  | Fs_remove_file p => dtact_util_fs_remove_file p
  | Fs_remove_dir_all p => dtact_util_fs_remove_dir_all p
  | Fs_try_exists p => dtact_util_fs_try_exists p
  | Fs_set_readonly p b => dtact_util_fs_set_readonly p b
  | Process_init n => dtact_util_process_init n
  | Process_spawn p a n f => dtact_util_process_spawn p a n f
  | Child_id h => dtact_util_process_child_id h
  | Child_kill h => dtact_util_process_child_kill h
  | Child_wait h o => dtact_util_process_child_wait h o
  | Child_free h => dtact_util_process_child_free h
  | Take_stdin h => dtact_util_process_child_take_stdin h
  | Take_stdout h => dtact_util_process_child_take_stdout h
  | Take_stderr h => dtact_util_process_child_take_stderr h
  | Stdin_write h b => dtact_util_process_stdin_write h b
  | Stdin_close h => dtact_util_process_stdin_close h
  | Stdout_read h b n => dtact_util_process_stdout_read h b n
  | Stdout_free h => dtact_util_process_stdout_free h
  | Stderr_read h b n => dtact_util_process_stderr_read h b n
  | Stderr_free h => dtact_util_process_stderr_free h
  | Signal_register n => dtact_util_signal_register n
  | Signal_ctrl_c => dtact_util_signal_ctrl_c
  | Signal_ctrl_break => dtact_util_signal_ctrl_break
  | Signal_ctrl_close => dtact_util_signal_ctrl_close
  | Signal_ctrl_logoff => dtact_util_signal_ctrl_logoff
  | Signal_ctrl_shutdown => dtact_util_signal_ctrl_shutdown
  | Signal_recv h => dtact_util_signal_recv h
  | Signal_free h => dtact_util_signal_free h
  | Pair_create n a b => dtact_util_stream_pair_create n a b
  | Pair_read h b n => dtact_util_stream_read h b n
  | Pair_write h b => dtact_util_stream_write h b
  | Pair_free h => dtact_util_stream_free h
  | Sleep_ms n => dtact_util_timer_sleep_ms n
  | Interval_create n => dtact_util_timer_interval_create n
  | Interval_tick h => dtact_util_timer_interval_tick h
  | Interval_free h => dtact_util_timer_interval_free h
  end.

(** ** What the header promises *)

(** A buffer of the caller: raw bytes, text that ends in a NUL, or one word. *)
Inductive buffer := Raw (p cap : Z) | Text (p cap : Z) | Scalar (p size : Z).

(** Of a function: the handles it takes, with their types, whether it consumes them, the type of the handle it returns (or
    stores, for the pair), the value that reports an error, and the buffers it writes to. *)
Record sig := mkSig {
  takes : list (kind * Z);
  consumes : bool;
  makes : list kind;
  sentinel : option Z;
  buffers : list buffer
}.

Definition constructor (k : kind) : sig := mkSig [] false [k] (Some NULL) [].
Definition destructor (k : kind) (h : Z) : sig := mkSig [(k, h)] true [] None [].
Definition accessor (k : kind) (h : Z) (bs : list buffer) : sig := mkSig [(k, h)] false [] (Some (-1)) bs.
Definition derives (k : kind) (h : Z) (k' : kind) : sig := mkSig [(k, h)] false [k'] (Some NULL) [].
Definition plain (bs : list buffer) : sig := mkSig [] false [] (Some (-1)) bs.
Definition setup : sig := mkSig [] false [] None [].

Definition signature (c : Call) : sig :=
  match c with
  | Io_init _ | Fs_init _ | Process_init _ | Sleep_ms _ => setup
  | Listener_bind _ => constructor TcpListener
  | Stream_connect _ => constructor TcpStream
  | Udp_bind _ => constructor UdpSocket
  | Unix_listener_bind _ => constructor UnixListener
  | Unix_stream_connect _ => constructor UnixStream
  | Datagram_bind _ => constructor UnixDatagram
  | Pipe_server_create _ => constructor NamedPipeServer
  | Pipe_client_connect _ => constructor NamedPipeHandle
  | File_create _ | File_open _ => constructor File
  | Process_spawn _ _ _ _ => constructor Child
  | Signal_register _ | Signal_ctrl_c | Signal_ctrl_break | Signal_ctrl_close | Signal_ctrl_logoff
  | Signal_ctrl_shutdown => constructor SignalStream
  | Interval_create _ => constructor Interval
  | Pair_create _ a b => mkSig [] false [Stream; Stream] (Some (-1)) [Scalar a 8; Scalar b 8]
  | Listener_accept h => derives TcpListener h TcpStream
  | Unix_listener_accept h => derives UnixListener h UnixStream
  | Take_stdin h => derives Child h ChildStdin
  | Take_stdout h => derives Child h ChildStdout
  | Take_stderr h => derives Child h ChildStderr
  | Pipe_server_connect h => mkSig [(NamedPipeServer, h)] true [NamedPipeHandle] (Some NULL) []
  | Child_wait h out => mkSig [(Child, h)] true [] (Some (-1)) [Scalar out 4]
  | Listener_close h => destructor TcpListener h
  | Stream_close h => destructor TcpStream h
  | Udp_close h => destructor UdpSocket h
  | Unix_listener_close h => destructor UnixListener h
  | Unix_stream_close h => destructor UnixStream h
  | Datagram_close h => destructor UnixDatagram h
  | Pipe_server_close h => destructor NamedPipeServer h
  | Pipe_close h => destructor NamedPipeHandle h
  | File_close h => destructor File h
  | Child_free h => destructor Child h
  | Stdin_close h => destructor ChildStdin h
  | Stdout_free h => destructor ChildStdout h
  | Stderr_free h => destructor ChildStderr h
  | Signal_free h => destructor SignalStream h
  | Pair_free h => destructor Stream h
  | Interval_free h => destructor Interval h
  | Stream_read h b n => accessor TcpStream h [Raw b n]
  | Udp_recv h b n => accessor UdpSocket h [Raw b n]
  | Unix_stream_read h b n => accessor UnixStream h [Raw b n]
  | Datagram_recv h b n => accessor UnixDatagram h [Raw b n]
  | Pipe_read h b n => accessor NamedPipeHandle h [Raw b n]
  | File_read h b n | File_read_at h b n _ => accessor File h [Raw b n]
  | Stdout_read h b n => accessor ChildStdout h [Raw b n]
  | Stderr_read h b n => accessor ChildStderr h [Raw b n]
  | Pair_read h b n => accessor Stream h [Raw b n]
  | Udp_recv_from h b n o c => accessor UdpSocket h [Raw b n; Text o c]
  | Datagram_recv_from h b n o c => accessor UnixDatagram h [Raw b n; Text o c]
  | Unix_stream_peer_cred h u g p => accessor UnixStream h [Scalar u 4; Scalar g 4; Scalar p 4]
  | Stream_write h _ => accessor TcpStream h []
  | Udp_send_to h _ _ | Udp_connect h _ | Udp_send h _ => accessor UdpSocket h []
  | Unix_stream_write h _ => accessor UnixStream h []
  | Datagram_send_to h _ _ | Datagram_connect h _ | Datagram_send h _ => accessor UnixDatagram h []
  | Pipe_write h _ => accessor NamedPipeHandle h []
  | File_write h _ | File_write_at h _ _ | File_sync h => accessor File h []
  | Child_kill h => accessor Child h []
  | Stdin_write h _ => accessor ChildStdin h []
  | Pair_write h _ => accessor Stream h []
  | Child_id h => mkSig [(Child, h)] false [] (Some 0) []
  | Signal_recv h => mkSig [(SignalStream, h)] false [] None []
  | Interval_tick h => mkSig [(Interval, h)] false [] None []
  | Lookup_host _ o c | Fs_read_link _ o c | Fs_canonicalize _ o c | Fs_read_to_string _ o c => plain [Text o c]
  | Fs_read _ b n => plain [Raw b n]
  | Fs_copy _ _ | Fs_rename _ _ | Fs_hard_link _ _ | Fs_symlink _ _ | Fs_symlink_dir _ _ | Fs_symlink_file _ _
  | Fs_write _ _ | Fs_create_dir _ | Fs_create_dir_all _ | Fs_remove_dir _ | Fs_remove_file _ | Fs_remove_dir_all _
  | Fs_try_exists _ | Fs_set_readonly _ _ => plain []
  end.

(** What a write may be. *)
Definition fits (b : buffer) (p : Z) (d : datum) : Prop :=
  p <> NULL /\
  match b, d with
  | Raw q cap, Bytes t => p = q /\ Z.of_nat (String.length t) <= cap
  | Text q cap, Bytes t => p = q /\ Z.of_nat (String.length t) <= cap /\ exists u, t = u +:+ nul
  | Scalar q size, Word size' _ => p = q /\ size' = size
  | _, _ => False
  end.

(** The caller's ledger: the handles it holds. *)
Definition ledger := gmap Z kind.
Definition owned (s : ffi V W) : ledger := fst <$> heap s.

(** Sizes are unsigned. *)
Definition sized (b : buffer) : Prop := match b with Raw _ n | Text _ n | Scalar _ n => 0 <= n end.
Definition obeys (L : ledger) (g : sig) : Prop :=
  Forall (fun '(k, p) => p = NULL \/ L !! p = Some k) (takes g) /\ Forall sized (buffers g).

(** The new handles, from the return value and what was stored. *)
Definition born (g : sig) (r : Z) (ws : list (Z * datum)) : ledger :=
  match makes g with
  | [k] => if r =? NULL then ∅ else {[ r := k ]}
  | ks => list_to_map (zip (omap (fun w => match w.2 with Word 8 h => Some h | _ => None end) ws) ks)
  end.
(** The handles the caller keeps. *)
Definition kept (L : ledger) (g : sig) : ledger := if consumes g then foldr (fun kp => delete kp.2) L (takes g) else L.
Definition after (L : ledger) (g : sig) (r : Z) (ws : list (Z * datum)) : ledger := born g r ws ∪ kept L g.

(** A C program over the interface that keeps to the signatures. *)
Inductive session (s0 : ffi V W) : ledger -> ffi V W -> Prop :=
| session_start : session s0 (owned s0) s0
| session_call L s c r s' ws :
    session s0 L s -> obeys L (signature c) -> run c s = Ret r s' -> written s' = written s ++ ws ->
    session s0 (after L (signature c) r ws) s'.

(** What the bindings rely on: the allocator's addresses are new and not null, reads return at most what was asked for,
    counts are not negative, and a process id is not 0. *)
Record Laws : Prop := {
  alloc_fresh : forall X, alloc X ∉ X;
  alloc_not_null : forall X, alloc X <> NULL;
  read_fits : forall v len i w t w', poll R (Read v len) i w = (Ready (Ok t), w') -> Z.of_nat (String.length t) <= len;
  read_at_fits : forall v len off i w t w',
    poll R (ReadAt v len off) i w = (Ready (Ok t), w') -> Z.of_nat (String.length t) <= len;
  read_mut_fits : forall v len i w t v' w',
    poll R (ReadMut v len) i w = (Ready (Ok t, v'), w') -> Z.of_nat (String.length t) <= len;
  recv_from_fits : forall v len i w t a w',
    poll R (RecvFrom v len) i w = (Ready (Ok (t, a)), w') -> Z.of_nat (String.length t) <= len;
  recv_unix_fits : forall v len i w t a w',
    poll R (RecvFromUnix v len) i w = (Ready (Ok (t, a)), w') -> Z.of_nat (String.length t) <= len;
  write_counts : forall v t i w n w', poll R (Write v t) i w = (Ready (Ok n), w') -> 0 <= n;
  write_at_counts : forall v t off i w n w', poll R (WriteAt v t off) i w = (Ready (Ok n), w') -> 0 <= n;
  write_mut_counts : forall v t i w n v' w', poll R (WriteMut v t) i w = (Ready (Ok n, v'), w') -> 0 <= n;
  send_counts : forall v t a i w n w', poll R (SendTo v t a) i w = (Ready (Ok n), w') -> 0 <= n;
  copy_counts : forall a b i w n w', poll R (CopyFile a b) i w = (Ready (Ok n), w') -> 0 <= n;
  pid_not_0 : forall v w n w', perform R (ChildId v) w = (n, w') -> n <> 0
}.

(** Every future is ready within the polls at hand. *)
Definition prompt : Prop := forall X (op : async A V E Q X) w, block_on fuel 0 op w <> None.

(** ** A calculus of the interface *)

(** [m] from [s] is never undefined, waits only if some future is not ready, and otherwise ends in [K]. *)
Definition wp {X} (m : M X) (s : ffi V W) (K : X -> ffi V W -> Prop) : Prop :=
  match m s with Ret x s' => K x s' | Undefined => False | Waiting => ~ prompt end.

Definition clean (e : option string) : Prop := forall t, e = Some t -> has_nul t = false.

Lemma replace_nul_none t : has_nul (replace_nul t) = false.
Proof. induction t as [|c t IH]; [done|]. simpl. rewrite IH. destruct (Ascii.eqb c Ascii.zero) eqn:Hc; [done|]. by rewrite Hc. Qed.

Lemma cstring_none t : has_nul (cstring t) = false.
Proof. unfold cstring. by destruct (has_nul t) eqn:Ht. Qed.

Lemma wp_bind {X Y} (m : M X) (f : X -> M Y) s K : wp m s (fun x s' => wp (f x) s' K) -> wp (bind m f) s K.
Proof. unfold wp, bind. by destruct (m s). Qed.

Lemma wp_fail {X} msg (v : X) h e ws i w (K : X -> ffi V W -> Prop) :
  (forall t, has_nul t = false -> K v (mkFfi h (Some t) ws i w)) -> wp (fail msg v) (mkFfi h e ws i w) K.
Proof. intros HK. apply HK, cstring_none. Qed.

Lemma wp_returning {X Y} (r : result X E) (v : Y) k h e ws i w (K : Y -> ffi V W -> Prop) :
  (forall t, has_nul t = false -> K v (mkFfi h (Some t) ws i w)) ->
  (forall x, r = Ok x -> wp (k x) (mkFfi h e ws i w) K) ->
  wp (returning r v k) (mkFfi h e ws i w) K.
Proof. intros Herr Hok. destruct r as [x | err]; [by apply Hok | apply Herr, cstring_none]. Qed.

Lemma block_on_polls {X} n i (op : async A V E Q X) w x w' :
  block_on n i op w = Some (x, w') -> exists j w0, poll R op j w0 = (Ready x, w').
Proof.
  revert i w. induction n as [|n IH]; intros i w H; [done|]. simpl in H.
  destruct (poll R op i w) as [[y |] w1] eqn:Ep; [|by eapply IH]. simplify_eq. by eexists _, _.
Qed.

Lemma wp_call {X Y} (op : async A V E Q X) (k : X -> M Y) h e ws i w K :
  (forall x j w0 w', poll R op j w0 = (Ready x, w') -> wp (k x) (mkFfi h e ws i w') K) ->
  wp (bind (call op) k) (mkFfi h e ws i w) K.
Proof.
  intros HK. unfold wp, bind, call. cbn [world].
  destruct (block_on fuel 0 op w) as [[x w'] |] eqn:Eb; [|intros Hp; by apply (Hp _ op w)].
  destruct (block_on_polls _ _ _ _ _ _ Eb) as (j & w0 & Hj). exact (HK x j w0 w' Hj).
Qed.

Lemma wp_effect {X Y} (op : direct A V E Q X) (k : X -> M Y) h e ws i w K :
  (forall x w', perform R op w = (x, w') -> wp (k x) (mkFfi h e ws i w') K) ->
  wp (bind (effect op) k) (mkFfi h e ws i w) K.
Proof. intros HK. unfold wp, bind, effect. cbn [world]. destruct (perform R op w) as [x w']. by apply HK. Qed.

Lemma wp_cstr {Y} ptr (v : Y) k h e ws i w (K : Y -> ffi V W -> Prop) :
  (forall t, has_nul t = false -> K v (mkFfi h (Some t) ws i w)) ->
  (forall t, wp (k t) (mkFfi h e ws i w) K) ->
  wp (let_else (cstr_to_str ptr) v k) (mkFfi h e ws i w) K.
Proof.
  intros Herr Hok. destruct ptr as [t |]; [|apply Herr, cstring_none].
  unfold wp, let_else, cstr_to_str, bind. destruct (utf8 R t); [apply Hok | apply Herr, cstring_none].
Qed.

Lemma wp_parse {Y} t (v : Y) k h e ws i w (K : Y -> ffi V W -> Prop) :
  (forall t, has_nul t = false -> K v (mkFfi h (Some t) ws i w)) ->
  (forall a, wp (k a) (mkFfi h e ws i w) K) ->
  wp (let_else (parse_addr t) v k) (mkFfi h e ws i w) K.
Proof.
  intros Herr Hok. unfold wp, let_else, parse_addr, bind. destruct (parse R t); [apply Hok | apply Herr, cstring_none].
Qed.

Lemma wp_io_init {Y} n (k : unit -> M Y) h e ws i w K :
  (forall i' w', wp (k tt) (mkFfi h e ws i' w') K) -> wp (bind (ensure_io_init n) k) (mkFfi h e ws i w) K.
Proof.
  intros HK. unfold wp, bind, ensure_io_init. cbn [io_init]. destruct i; [apply HK|].
  unfold bind, effect. cbn [world]. destruct (perform R _ w) as [x w']. apply HK.
Qed.

(** A handle the ledger lists can be dereferenced. *)
Lemma wp_borrow {Y} k p (f : V -> M Y) h e ws i w K :
  (fst <$> h) !! p = Some k ->
  (forall v, h !! p = Some (k, v) -> wp (f v) (mkFfi h e ws i w) K) ->
  wp (bind (borrow k p) f) (mkFfi h e ws i w) K.
Proof.
  intros Hp HK. rewrite lookup_fmap in Hp. unfold wp, bind, borrow. cbn [heap].
  destruct (h !! p) as [[k' v] |] eqn:Eh; simplify_eq/=. rewrite bool_decide_eq_true_2 by done. by apply HK.
Qed.

Lemma wp_from_raw {Y} k p (f : V -> M Y) h e ws i w K :
  (fst <$> h) !! p = Some k ->
  (forall v, h !! p = Some (k, v) -> wp (f v) (mkFfi (delete p h) e ws i w) K) ->
  wp (bind (from_raw k p) f) (mkFfi h e ws i w) K.
Proof. intros Hp HK. apply wp_bind, wp_borrow; [done|]. intros v Hv. by apply HK. Qed.

Lemma wp_into_raw {Y} (laws : Laws) k v (f : Z -> M Y) h e ws i w K :
  (forall p, h !! p = None -> p <> NULL -> wp (f p) (mkFfi (<[p := (k, v)]> h) e ws i w) K) ->
  wp (bind (into_raw k v) f) (mkFfi h e ws i w) K.
Proof.
  intros HK. apply (HK (alloc (dom h))); [|by apply laws]. apply not_elem_of_dom, laws.
Qed.

Lemma wp_clear {Y} (k : unit -> M Y) h e ws i w K :
  wp (k tt) (mkFfi h None ws i w) K -> wp (bind clear_last_error k) (mkFfi h e ws i w) K.
Proof. done. Qed.

Lemma wp_put {Y} p d (k : unit -> M Y) h e ws i w K :
  wp (k tt) (mkFfi h e (ws ++ [(p, d)]) i w) K -> wp (bind (put p d) k) (mkFfi h e ws i w) K.
Proof. done. Qed.

Lemma wp_assign {Y} kd p v (k : unit -> M Y) h e ws i w K :
  wp (k tt) (mkFfi (<[p := (kd, v)]> h) e ws i w) K -> wp (bind (assign kd p v) k) (mkFfi h e ws i w) K.
Proof. done. Qed.

Definition stores (b : buffer) (l : list (Z * datum)) : Prop := Forall (fun w => fits b w.1 w.2) l.

Lemma wp_put_opt {Y} p size v (k : unit -> M Y) h e ws i w K :
  (forall l, stores (Scalar p size) l -> wp (k tt) (mkFfi h e (ws ++ l) i w) K) ->
  wp (bind (put_opt p (Word size v)) k) (mkFfi h e ws i w) K.
Proof.
  intros HK. unfold wp, bind, put_opt. destruct (p =? NULL) eqn:Hp.
  - specialize (HK [] ltac:(constructor)). by rewrite app_nil_r in HK.
  - apply HK. constructor; [|constructor]. split; [by apply Z.eqb_neq|]. done.
Qed.

Lemma text_length (a b : string) : String.length (a +:+ b) = (String.length a + String.length b)%nat.
Proof. induction a as [|c a IH]; [done|]. simpl. by rewrite IH. Qed.

Lemma prefix_length n t : String.length (String.substring 0 n t) = Nat.min n (String.length t).
Proof. revert n. induction t as [|c t IH]; intros [|n]; try done. simpl. by rewrite IH. Qed.

(** [n < cap] bytes and a NUL. *)
Lemma wp_copy_out {Y} bytes out cap (k : unit -> M Y) h e ws i w K :
  0 <= cap -> (forall l, stores (Text out cap) l -> wp (k tt) (mkFfi h e (ws ++ l) i w) K) ->
  wp (bind (copy_out bytes out cap) k) (mkFfi h e ws i w) K.
Proof.
  intros Hcap HK. unfold wp, bind, copy_out. destruct ((out =? NULL) || (cap =? 0)) eqn:Hp.
  - specialize (HK [] ltac:(constructor)). by rewrite app_nil_r in HK.
  - apply orb_false_iff in Hp as [Ho Hc]. apply HK. constructor; [|constructor].
    split; [by apply Z.eqb_neq|]. split; [done|]. split; [|by eexists].
    rewrite text_length, prefix_length. simpl. lia.
Qed.

(** What a call has done: [h], [e] and [h'], [e'] are the objects and the error before and after, [ws] the stores. *)
Record post (g : sig) (h : gmap Z (kind * V)) (e : option string) (r : Z) (h' : gmap Z (kind * V)) (e' : option string)
    (ws : list (Z * datum)) : Prop := {
  post_owned : fst <$> h' = after (fst <$> h) g r ws;
  post_new : born g r ws ##ₘ kept (fst <$> h) g;
  post_not_null : h' !! NULL = None;
  post_fits : Forall (fun w => exists b, b ∈ buffers g /\ fits b w.1 w.2) ws;
  post_sentinel : forall v, sentinel g = Some v -> r = v <-> is_Some e';
  post_null : consumes g = false -> Exists (fun kp => kp.2 = NULL) (takes g) -> is_Some e';
  post_clean : clean e -> clean e'
}.

Definition ends (g : sig) (h : gmap Z (kind * V)) (e : option string) (ws0 : list (Z * datum)) (r : Z) (s' : ffi V W) : Prop :=
  exists ws, written s' = ws0 ++ ws /\ post g h e r (heap s') (last_error s') ws.

Lemma null_stays_free g (h h' : gmap Z (kind * V)) :
  h !! NULL = None ->
  fst <$> h' = kept (fst <$> h) g ->
  h' !! NULL = None.
Proof.
  intros Hn Hh. assert (Hd : (fst <$> h') !! NULL = None).
  { rewrite Hh. unfold kept. destruct (consumes g); [|by rewrite lookup_fmap, Hn].
    clear -Hn. induction (takes g) as [|[k p] l IH]; simpl; [by rewrite lookup_fmap, Hn|].
    apply lookup_delete_None. by right. }
  rewrite lookup_fmap in Hd. by destruct (h' !! NULL).
Qed.

(** An exit that makes no handle. *)
Lemma ends_no_handle g h h' e e' ws r i w l :
  born g r l = ∅ -> h !! NULL = None ->
  fst <$> h' = kept (fst <$> h) g ->
  Forall (fun w => exists b, b ∈ buffers g /\ fits b w.1 w.2) l ->
  (forall v, sentinel g = Some v -> r = v <-> is_Some e') ->
  (consumes g = false -> Exists (fun kp => kp.2 = NULL) (takes g) -> is_Some e') ->
  (clean e -> clean e') ->
  ends g h e ws r (mkFfi h' e' (ws ++ l) i w).
Proof.
  intros Hb Hn Hh Hf Hs Hx Hc. exists l. split; [done|]. split; cbn [heap last_error]; try done.
  - unfold after. by rewrite Hb, Hh, (left_id_L ∅ (∪)).
  - rewrite Hb. apply map_disjoint_empty_l.
  - by eapply null_stays_free.
Qed.

(** An error exit. *)
Lemma ends_error g h h' e ws r t i w :
  h !! NULL = None -> has_nul t = false -> sentinel g = Some r \/ sentinel g = None -> born g r [] = ∅ ->
  fst <$> h' = kept (fst <$> h) g ->
  ends g h e ws r (mkFfi h' (Some t) ws i w).
Proof.
  intros Hn Ht Hr Hb Hh. rewrite <- (app_nil_r ws) at 2. apply ends_no_handle; try done.
  - intros v Hv. destruct Hr; simplify_eq; naive_solver.
  - intros _ t' Ht'. by simplify_eq.
Qed.

(** A success that makes no handle. *)
Lemma ends_ok g h h' e ws r i w wr l :
  wr = ws ++ l -> h !! NULL = None -> makes g = [] -> sentinel g <> Some r ->
  (consumes g = false -> Forall (fun kp => kp.2 <> NULL) (takes g)) ->
  fst <$> h' = kept (fst <$> h) g ->
  Forall (fun w => exists b, b ∈ buffers g /\ fits b w.1 w.2) l ->
  ends g h e ws r (mkFfi h' None wr i w).
Proof.
  intros -> Hn Hm Hr Ht Hh Hf. apply ends_no_handle; try done.
  - unfold born. rewrite Hm. by destruct (omap _ l).
  - intros v Hv. split; [intros -> | intros [? ?]]; done.
  - intros Hc Hx. specialize (Ht Hc). rewrite Forall_forall in Ht. apply Exists_exists in Hx as (x & Hx & Hnull).
    by destruct (Ht x).
Qed.

(** Freeing leaves the error alone. *)
Lemma ends_free k p h h' e ws i w :
  h !! NULL = None -> fst <$> h' = kept (fst <$> h) (destructor k p) ->
  ends (destructor k p) h e ws 0 (mkFfi h' e ws i w).
Proof. intros Hn Hh. rewrite <- (app_nil_r ws) at 2. by apply ends_no_handle. Qed.

(** A success that makes one. *)
Lemma ends_made g h h' e ws r i w k v :
  h !! NULL = None -> makes g = [k] -> sentinel g = Some NULL -> r <> NULL -> h' !! r = None ->
  (consumes g = false -> Forall (fun kp => kp.2 <> NULL) (takes g)) ->
  fst <$> h' = kept (fst <$> h) g ->
  ends g h e ws r (mkFfi (<[r := (k, v)]> h') None ws i w).
Proof.
  intros Hn Hm Hs Hr Hf Ht Hh. exists []. split; [by rewrite app_nil_r|]. cbn [heap last_error].
  assert (Hb : born g r [] = {[ r := k ]}) by (unfold born; rewrite Hm; by apply Z.eqb_neq in Hr as ->).
  split; try done.
  - unfold after. rewrite Hb, fmap_insert, Hh. by rewrite insert_union_singleton_l.
  - rewrite Hb. apply map_disjoint_singleton_l_2. by rewrite <- Hh, lookup_fmap, Hf.
  - rewrite lookup_insert_ne by done. by eapply null_stays_free.
  - rewrite Hs. intros u Hu. simplify_eq. split; [done|]. by intros [? ?].
  - intros Hc Hx. specialize (Ht Hc). rewrite Forall_forall in Ht. apply Exists_exists in Hx as (x & Hx & Hnull).
    by destruct (Ht x).
Qed.

Lemma wp_into_raw_last (laws : Laws) k v h e ws i w (K : Z -> ffi V W -> Prop) :
  (forall p, h !! p = None -> p <> NULL -> K p (mkFfi (<[p := (k, v)]> h) e ws i w)) ->
  wp (into_raw k v) (mkFfi h e ws i w) K.
Proof. intros HK. apply (HK (alloc (dom h))); [|by apply laws]. apply not_elem_of_dom, laws. Qed.

Lemma wp_effect_last {X} (op : direct A V E Q X) h e ws i w (K : X -> ffi V W -> Prop) :
  (forall x w', perform R op w = (x, w') -> K x (mkFfi h e ws i w')) -> wp (effect op) (mkFfi h e ws i w) K.
Proof. intros HK. unfold wp, effect. cbn [world]. destruct (perform R op w) as [x w']. by apply HK. Qed.

Lemma wp_read_args (laws : Laws) argv k h e ws i w (K : Z -> ffi V W -> Prop) :
  (forall t, has_nul t = false -> K NULL (mkFfi h (Some t) ws i w)) ->
  (forall args, wp (k args) (mkFfi h e ws i w) K) ->
  wp (read_args argv k) (mkFfi h e ws i w) K.
Proof.
  intros Herr. revert k. induction argv as [|arg argv IH]; intros k Hk; [apply Hk|]. simpl.
  apply wp_cstr; [exact Herr|]. intros t. apply IH. intros args. apply Hk.
Qed.

(** One step of a function, by the form of its body. *)
Ltac fn_head m := lazymatch m with ?f _ => fn_head f | _ => m end.
Ltac ffi_error := let t := fresh "t" in let Ht := fresh "Ht" in intros t Ht.
Ltac ffi_step :=
  unfold mbind, M_bind, mret, M_ret;
  lazymatch goal with
  | |- wp (bind clear_last_error _) _ _ => apply wp_clear
  | |- wp (bind (put _ _) _) _ _ => apply wp_put
  | |- wp (bind (put_opt _ _) _) _ _ => apply wp_put_opt; intros ? ?
  | |- wp (bind (copy_out _ _ _) _) _ _ => apply wp_copy_out; [| intros ? ?]
  | |- wp (bind (assign _ _ _) _) _ _ => apply wp_assign
  | |- wp (bind (call _) _) _ _ => apply wp_call; intros ? ? ? ? ?
  | |- wp (bind (effect _) _) _ _ => apply wp_effect; intros ? ? ?
  | |- wp (bind (ensure_io_init _) _) _ _ => apply wp_io_init; intros ? ?
  | |- wp (bind (borrow _ _) _) _ _ => apply wp_borrow; [| intros ? ?]
  | |- wp (bind (from_raw _ _) _) _ _ => apply wp_from_raw; [| intros ? ?]
  | |- wp (bind (into_raw _ _) _) _ _ => apply wp_into_raw; [assumption | intros ? ? ?]
  | |- wp (bind (ret ?x) ?k) _ _ => change (bind (ret x) k) with (k x)
  | |- wp (bind (if ?b then _ else _) _) _ _ => destruct b eqn:?
  | |- wp (bind ?m _) _ _ => first [progress cbv beta | let f := fn_head m in unfold f]
  | |- wp (let_else (cstr_to_str _) _ _) _ _ => apply wp_cstr; [ffi_error | intros ?]
  | |- wp (let_else (parse_addr _) _ _) _ _ => apply wp_parse; [ffi_error | intros ?]
  | |- wp (fail _ _) _ _ => apply wp_fail; ffi_error
  | |- wp (read_args _ _) _ _ => apply wp_read_args; [assumption | ffi_error | intros ?]
  | |- wp (returning _ _ _) _ _ => apply wp_returning; [ffi_error | intros ? ?]
  | |- wp (into_raw _ _) _ _ => apply wp_into_raw_last; [assumption | intros ? ? ?]
  | |- wp (effect _) _ _ => apply wp_effect_last; intros ? ? ?
  | |- wp (ret _) _ _ => unfold wp, ret
  | |- wp (if ?b then _ else _) _ _ => destruct b eqn:?
  | |- wp (match ?x with _ => _ end) _ _ => destruct x eqn:?
  | |- wp ?m _ _ => first [progress cbv beta | let f := fn_head m in unfold f]
  end.

(** The side conditions at the exits. *)
Lemma kept_by_assign k p v v' (h : gmap Z (kind * V)) :
  h !! p = Some (k, v) -> fst <$> (<[p := (k, v')]> h) = fst <$> h.
Proof. intros Hp. rewrite fmap_insert. apply insert_id. by rewrite lookup_fmap, Hp. Qed.

Lemma stores_in g b l : b ∈ buffers g -> stores b l -> Forall (fun w => exists b, b ∈ buffers g /\ fits b w.1 w.2) l.
Proof. intros Hb Hl. eapply Forall_impl; [exact Hl|]. intros x Hx. by exists b. Qed.

Ltac ffi_bool :=
  repeat match goal with
  | H : (_ || _)%bool = false |- _ => apply orb_false_iff in H as [? ?]
  | H : (_ && _)%bool = true |- _ => apply andb_true_iff in H as [? ?]
  | H : negb _ = true |- _ => apply negb_true_iff in H
  | H : (?p =? NULL) = false |- _ => apply Z.eqb_neq in H
  | H : (?p =? NULL) = true |- _ => apply Z.eqb_eq in H
  | H : (?p <? ?q) = true |- _ => apply Z.ltb_lt in H
  end.

Ltac ffi_owned :=
  unfold kept; cbn [consumes takes foldr snd constructor destructor accessor derives plain setup]; subst;
  first
  [ reflexivity
  | eapply kept_by_assign; eassumption
  | rewrite fmap_delete; reflexivity
  | symmetry; apply delete_id; rewrite lookup_fmap; by match goal with H : _ !! NULL = None |- _ => rewrite H end ].

Ltac ffi_fits :=
  repeat first
  [ apply Forall_nil_2
  | apply Forall_app_2
  | eapply stores_in; [| eassumption]; set_solver
  | apply Forall_singleton; eexists; split; [by left | split; [done | split; [done |]]] ].

(** The pair makes two, stored through the pointers. *)
Lemma ends_pair h e ws i w a b pa pb va vb :
  h !! NULL = None -> a <> NULL -> b <> NULL -> h !! pa = None -> pa <> NULL -> <[pa := (Stream, va)]> h !! pb = None ->
  pb <> NULL ->
  ends (mkSig [] false [Stream; Stream] (Some (-1)) [Scalar a 8; Scalar b 8]) h e ws 0
    (mkFfi (<[pb := (Stream, vb)]> (<[pa := (Stream, va)]> h)) None ((ws ++ [(a, Word 8 pa)]) ++ [(b, Word 8 pb)]) i w).
Proof.
  intros Hn Ha Hb Hpa Na Hpb Nb. apply lookup_insert_None in Hpb as [Hpb Hne].
  exists [(a, Word 8 pa); (b, Word 8 pb)]. split; [by rewrite <- app_assoc|]. cbn [heap last_error].
  split; unfold after, kept, born; simpl; try done.
  - rewrite !fmap_insert, insert_insert_ne by done.
    change ledger with (gmap Z kind). simpl. by rewrite <- !insert_union_l, (left_id_L ∅ (∪)).
  - rewrite !map_disjoint_insert_l. rewrite !lookup_fmap, Hpa, Hpb. split_and!; [done.. | apply map_disjoint_empty_l].
  - by rewrite !lookup_insert_ne.
  - constructor; [|constructor; [|constructor]].
    + exists (Scalar a 8). split; [set_solver | done].
    + exists (Scalar b 8). split; [set_solver | done].
  - intros v [= <-]. split; [done | by intros [? ?]].
  - intros _ Hx. inversion Hx.
Qed.

(** What the laws say of the answers on the way. *)
Ltac ffi_laws laws :=
  repeat match goal with
  | H : poll R (Read _ _) _ _ = _ |- _ => apply (read_fits laws) in H
  | H : poll R (ReadAt _ _ _) _ _ = _ |- _ => apply (read_at_fits laws) in H
  | H : poll R (ReadMut _ _) _ _ = _ |- _ => apply (read_mut_fits laws) in H
  | H : poll R (RecvFrom _ _) _ _ = _ |- _ => apply (recv_from_fits laws) in H
  | H : poll R (RecvFromUnix _ _) _ _ = _ |- _ => apply (recv_unix_fits laws) in H
  | H : poll R (Write _ _) _ _ = _ |- _ => apply (write_counts laws) in H
  | H : poll R (WriteAt _ _ _) _ _ = _ |- _ => apply (write_at_counts laws) in H
  | H : poll R (WriteMut _ _) _ _ = _ |- _ => apply (write_mut_counts laws) in H
  | H : poll R (SendTo _ _ _) _ _ = _ |- _ => apply (send_counts laws) in H
  | H : poll R (CopyFile _ _) _ _ = _ |- _ => apply (copy_counts laws) in H
  | H : perform R (ChildId _) _ = _ |- _ => apply (pid_not_0 laws) in H
  end.

Lemma run_ends (laws : Laws) c h e ws i w :
  h !! NULL = None -> obeys (fst <$> h) (signature c) ->
  wp (run c) (mkFfi h e ws i w) (ends (signature c) h e ws).
Proof.
  intros Hn [Ho Hs]. destruct c; unfold run; cbn [signature] in Ho, Hs |- *.
  all: cbn [takes buffers accessor constructor destructor derives plain setup] in Ho, Hs; rewrite ?Forall_singleton in Ho.
  all: repeat ffi_step; ffi_bool; subst.
  all: try (by destruct Ho).
  all: try (eapply ends_error; [eassumption | eassumption | by left + by right | reflexivity | ffi_owned]).
  all: try (eapply ends_made; [done | reflexivity | reflexivity | done | | by repeat constructor | ffi_owned];
    first [assumption | match goal with H : <[_ := _]> _ !! _ = None |- _ => apply lookup_insert_None in H; by destruct H end]).
  all: try by decompose_Forall.
  all: try (apply ends_free; [done | ffi_owned]).
  all: ffi_laws laws.
  all: try (eapply ends_ok;
    [ first [symmetry; apply app_nil_r | rewrite <- ?app_assoc; reflexivity] | done | reflexivity
    | intros [= ?]; lia | by repeat constructor | ffi_owned | by ffi_fits]).
  - eapply ends_ok; [reflexivity | done | done | intros [= ?]; lia | by constructor | ffi_owned |].
    apply Forall_singleton. eexists. split; [by left|]. split; [done|]. split; [done|]. cbn [snd]. rewrite prefix_length. lia.
  - eapply ends_ok; [symmetry; apply app_nil_r | done | done | by destruct x1 | by constructor | ffi_owned | by ffi_fits].
  - by apply ends_pair.
Qed.

Lemma run_spec (laws : Laws) c s :
  heap s !! NULL = None -> obeys (owned s) (signature c) ->
  wp (run c) s (ends (signature c) (heap s) (last_error s) (written s)).
Proof. destruct s. by apply run_ends. Qed.

Lemma run_post (laws : Laws) c s r s' ws :
  heap s !! NULL = None -> obeys (owned s) (signature c) -> run c s = Ret r s' -> written s' = written s ++ ws ->
  post (signature c) (heap s) (last_error s) r (heap s') (last_error s') ws.
Proof.
  intros Hn Ho Hr Hw. pose proof (run_spec laws c s Hn Ho) as Hs. unfold wp in Hs. rewrite Hr in Hs.
  destruct Hs as (ws' & Hw' & Hp). rewrite Hw in Hw'. by simplify_eq.
Qed.

Lemma session_ledger (laws : Laws) s0 L s :
  heap s0 !! NULL = None -> session s0 L s -> owned s = L /\ heap s !! NULL = None.
Proof.
  intros Hn. induction 1 as [|L s c r s' ws _ [IHo IHn] Ho Hr Hw]; [done|]. subst L.
  pose proof (run_post laws _ _ _ _ _ IHn Ho Hr Hw) as []. done.
Qed.

(** ** The theorems *)



(** C40.  A call writes only into the buffers it was given: never through a null pointer, never more than the capacity, and
    into a text buffer only text that ends in a NUL. *)
Theorem ffi_writes_in_bounds (laws : Laws) c s r s' :
  heap s !! NULL = None -> obeys (owned s) (signature c) -> run c s = Ret r s' ->
  exists ws, written s' = written s ++ ws /\ Forall (fun w => exists b, b ∈ buffers (signature c) /\ fits b w.1 w.2) ws.
Proof.
  intros Hn Ho Hr. pose proof (run_spec laws c s Hn Ho) as Hw. unfold wp in Hw. rewrite Hr in Hw.
  destruct Hw as (ws & Hw & []). by exists ws.
Qed.

(** Freeing a handle does not clear the last error, though the module's documentation says that a successful call does. *)
Lemma freeing_keeps_the_error k p s s' r : free k p s = Ret r s' -> last_error s' = last_error s.
Proof.
  unfold free. destruct (p =? NULL); [by intros [= _ <-]|].
  unfold from_raw, mbind, M_bind, bind, borrow, mret, M_ret, ret, release, effect.
  destruct (heap s !! p) as [[k' v] |]; [|done]. case_bool_decide; [|done].
  cbn [world set_heap]. destruct (perform R _ _) as [x w']. by intros [= _ <-].
Qed.

(** [block_on] polls again until the future is ready: a future ready at its [j]-th poll is answered by [S j] of them. *)
Lemma block_on_ready {X} (op : async A V E Q X) (ws : nat -> W) j x w' :
  (forall i, (i < j)%nat -> poll R op i (ws i) = (Pending, ws (S i))) -> poll R op j (ws j) = (Ready x, w') ->
  block_on (S j) 0 op (ws 0%nat) = Some (x, w').
Proof.
  intros Hp Hr. cut (forall i, (i <= j)%nat -> block_on (S j - i) i op (ws i) = Some (x, w')); [intros H; apply (H 0%nat); lia|].
  intros i Hi. remember (j - i)%nat as d eqn:Hd. revert i Hi Hd. induction d as [|d IH]; intros i Hi Hd.
  - replace (S j - i)%nat with 1%nat by lia. simpl. replace i with j by lia. by rewrite Hr.
  - replace (S j - i)%nat with (S (S j - S i)) by lia. cbn [block_on]. rewrite Hp by lia. apply IH; lia.
Qed.

End code.
Arguments Laws {A V E Q W} R alloc.
Arguments prompt {A V E Q W} R fuel.

(** ** An example *)

(** The least address above all in use. *)
Definition bump (X : gset Z) : Z := 1 + foldr Z.max 0 (elements X).

Definition hello (len : Z) : result string string :=
  if 0 <=? len then Ok (String.substring 0 (Z.to_nat len) "hello") else Err "bad length"%string.

(** Objects that are names, and operations that are ready at the second poll; a read gives "hello". *)
Definition answer {X} (op : async string string string bool X) : X :=
  match op in async _ _ _ _ X return X with
  | Accept v => Ok (v +:+ "'") | PipeConnect v => Ok v
  | ConnectTcp a | BindUdp a | ConnectUnix a | ConnectPipe a | CreateFile a | OpenFile a => Ok a
  | Read v len | ReadAt v len _ => hello len
  | ReadMut v len => (hello len, v)
  | Write _ data | WriteAt _ data _ | SendTo _ data _ => Ok (Z.of_nat (String.length data))
  | WriteMut v data => (Ok (Z.of_nat (String.length data)), v)
  | RecvFrom v len => match hello len with Ok t => Ok (t, "10.0.0.1:8080"%string) | Err e => Err e end
  | RecvFromUnix v len => match hello len with Ok t => Ok (t, None) | Err e => Err e end
  | Connect _ _ | SyncAll _ | OnPath _ | SetPermissions _ _ => Ok tt
  | LookupHost _ => Ok ["10.0.0.1:8080"%string]
  | TextOf _ => Ok "hello"%string
  | CopyFile _ _ => Ok 5
  | TryExists _ => Ok true
  | Metadata _ => Ok false
  | Wait _ => Err "no child"%string
  | Sleep _ | RecvSignal _ => tt
  | Tick v => v
  end.
Definition at_once {X} (op : direct string string string bool X) : X :=
  match op in direct _ _ _ _ X return X with
  | StdBind a | FromStd a | BindUnix a | BindDatagram a | CreatePipe a => Ok a
  | PeerCred _ => Ok (1000, 1000, None)
  | Spawn program _ _ _ _ => Ok program
  | ChildId _ => 7
  | Kill v => (Ok tt, v)
  | TakeEnd _ v => (None, v)
  | SetReadonly _ b => b
  | NewSignal _ | CtrlC | CtrlBreak | CtrlClose | CtrlLogoff | CtrlShutdown => "signal"%string
  | Pair _ => ("left", "right")%string
  | NewInterval _ => "interval"%string
  | InitIo _ | InitFs _ | InitProcess _ | CloseStdin _ | Drop _ _ => tt
  end.
Definition host : Api string string string bool unit := {|
  utf8 := fun _ => true; parse := Some; show_addr := id; display := id;
  poll := fun X op i w => (match i with O => Pending | S _ => Ready (answer op) end, w);
  perform := fun X op w => (at_once op, w)
|}.
Definition idle : ffi string unit := mkFfi ∅ None [] false tt.

Lemma bump_above X x : x ∈ X -> x < bump X.
Proof.
  intros Hx. apply elem_of_elements in Hx. unfold bump.
  induction (elements X) as [|y l IH]; [by apply elem_of_nil in Hx|]. simpl.
  apply elem_of_cons in Hx as [-> | Hx]; [lia|]. specialize (IH Hx). lia.
Qed.

Lemma bump_positive X : 0 < bump X.
Proof. unfold bump. induction (elements X); simpl; lia. Qed.

Lemma hello_fits len t : hello len = Ok t -> Z.of_nat (String.length t) <= len.
Proof.
  unfold hello. destruct (0 <=? len) eqn:Hl; [|done]. apply Z.leb_le in Hl. intros Ht.
  replace t with (String.substring 0 (Z.to_nat len) "hello") by congruence. rewrite prefix_length. lia.
Qed.

Lemma host_laws : Laws host bump.
Proof.
  split.
  - intros X Hx. pose proof (bump_above X _ Hx). lia.
  - intros X. pose proof (bump_positive X). unfold NULL. lia.
  - intros v len i w t w' H. destruct i; [done|]. cbn in H. apply hello_fits. by simplify_eq.
  - intros v len off i w t w' H. destruct i; [done|]. cbn in H. apply hello_fits. by simplify_eq.
  - intros v len i w t v' w' H. destruct i; [done|]. cbn in H. apply hello_fits. by simplify_eq.
  - intros v len i w t a w' H. destruct i; [done|]. cbn in H. apply hello_fits. by destruct (hello len); simplify_eq.
  - intros v len i w t a w' H. destruct i; [done|]. cbn in H. apply hello_fits. by destruct (hello len); simplify_eq.
  - intros v t i w n w' H. destruct i; simplify_eq/=. lia.
  - intros v t o i w n w' H. destruct i; simplify_eq/=. lia.
  - intros v t i w n v' w' H. destruct i; simplify_eq/=. lia.
  - intros v t a i w n w' H. destruct i; simplify_eq/=. lia.
  - intros a b i w n w' H. destruct i; simplify_eq/=. lia.
  - intros v w n w' H. by simplify_eq/=.
Qed.

Lemma host_prompt : prompt host 2.
Proof. by intros X op []. Qed.

(** A session on this host: a pair of streams, then a read from one end. *)
Definition step (c : Call) (s : ffi string unit) : ffi string unit :=
  match run host bump 2 c s with Ret _ s' => s' | _ => s end.
Definition with_pair : ffi string unit := step (Pair_create 8 100 108) idle.
Definition pair_ledger : ledger := {[ 1 := Stream; 2 := Stream ]}.

Lemma pair_session : session host bump 2 idle pair_ledger with_pair.
Proof.
  replace pair_ledger with
    (after (owned idle) (signature (Pair_create 8 100 108)) 0 [(100, Word 8 1); (108, Word 8 2)])
    by (apply map_eq; intros j; vm_compute; by repeat case_match).
  apply session_call with idle.
  - constructor.
  - split; [constructor | by repeat constructor].
  - by vm_compute.
  - by vm_compute.
Qed.



Lemma ffi_writes_in_bounds_witness :
  exists ws, written (step (Pair_read 1 200 4) with_pair) = written with_pair ++ ws /\
    Forall (fun w => exists b, b ∈ [Raw 200 4] /\ fits b w.1 w.2) ws /\ ws = [(200, Bytes "hell")].
Proof.
  destruct (ffi_writes_in_bounds host bump 2 host_laws (Pair_read 1 200 4) with_pair 4 (step (Pair_read 1 200 4) with_pair))
    as (ws & Hw & Hf).
  - by vm_compute.
  - split; [repeat constructor; by right | by repeat constructor].
  - by vm_compute.
  - exists ws. split; [exact Hw|]. split; [exact Hf|]. by apply (app_inv_head (written with_pair)); rewrite <- Hw.
Defined.

(** [dtact_util_io_lookup_host] cuts its list inside an address, though its documentation says at a whole-address boundary:
    with room for 12 bytes the only address, 10.0.0.1:8080, becomes 10.0.0.1:80, another valid one. *)
Lemma lookup_host_cuts_addresses :
  written (step (Lookup_host (Some "host"%string) 300 12) idle) = [(300, Bytes ("10.0.0.1:80" +:+ nul))].
Proof. by vm_compute. Qed.

End Ffi.
